(* ===== verification/_CoqProject ===== *)
-Q . S2P
Prelude.v
Buffer.v
CircularBuffer.v
MpscQueue.v
Timer.v
TimerQueue.v
Channel.v
Poller.v
Kernel.v
EventLoop.v
LoopWakeup.v
LoopLife.v
LoopRound.v
SocketsOps.v
TcpConnection.v
TcpReactor.v
InetAddress.v
TcpServer.v
TcpServerReactor.v
UdpSocket.v
Demo.v
DemoServer.v
