(* ===== verification/Prelude.v ===== *)
(** * hvnetpp: a verified model

    hvnetpp is a reactor library in C++: one [EventLoop] per thread waits for
    descriptors with epoll, runs the callbacks of their [Channel]s, timers and
    functors posted by other threads; on it stand TCP servers and connections
    and UDP sockets.  This development models the library part by part, in the
    order in which the parts use each other, and proves what makes each correct.

    ** The parts, and where the code is

    - Prelude.v: outcomes ([res]: a value, or the way a program stops), integers
      of fixed width, arrays of bytes, errno, shared lemmas and tactics; the
      order [approx] of results by fuel; [Part], a component inside a larger
      state.
    - Buffer.v: [include/hvnetpp/Buffer.h], [src/Buffer.cpp].  Class [ByteQueue]
      is what a connection needs of its two buffers; [Buffer] is its instance.
    - CircularBuffer.v: [CircularBuffer.h/.cpp], the doubly mapped ring.
    - MpscQueue.v: [MpscQueue.h], the lock-free queue on that ring, as functions
      and as interleaved atomic steps of any number of producers.
    - Timer.v, TimerQueue.v: [Timer.h/.cpp], [TimerId.h], [TimerQueue.h/.cpp].
    - Channel.v: [Channel.h/.cpp], one descriptor's masks and callbacks;
      Poller.v: [Poller.h/.cpp], the calls of a channel into it, and the
      dispatch loop of [EventLoop::loop].
    - Kernel.v: the open descriptors and epoll together, for the files that
      follow descriptors; a concrete kernel.
    - EventLoop.v: [EventLoop.h/.cpp], functors, quit, timers, sequentially, as
      a client of class [PendingQueue] (implemented by MpscQueue.v);
      LoopWakeup.v: the same against other threads, as interleaved steps;
      LoopLife.v: the loop's construction and destruction with its timer queue
      and poller; LoopRound.v: what it does in between, the rounds of [loop] with
      poller, timers and functors together, and [EventLoop]'s calls to its poller.
    - TcpConnection.v: [TcpConnection.h/.cpp], a client of [ByteQueue], with a
      channel of its own; TcpReactor.v: that channel in the poller of a loop,
      among others, with the connection's descriptor in the kernel.
    - SocketsOps.v: [src/SocketsOps.h/.cpp], the socket calls and options, and
      the bytes of a [sockaddr]; InetAddress.v: [InetAddress.h]
      and [.cpp], [Resolver.h/.cpp].
    - TcpServer.v: [TcpServer.h/.cpp] with its [Acceptor], composed with the
      connections of TcpConnection.v; TcpServerReactor.v: the channels of the
      acceptor and of all connections in the poller of a loop, and every
      descriptor of the server in the kernel.
    - UdpSocket.v: [UdpSocket.h/.cpp], composed with the channels and the poller
      of Poller.v.
    - Demo.v: [demo_timer.cpp], a whole program on the loop of LoopRound.v;
      DemoServer.v: [test_build.cpp], a server of TcpServer.v.

    Each class is a record with the fields of the class, each member function a
    definition with the same name where Rocq allows it ([X_new] and [X_delete]
    are constructor and destructor).  The state is passed along; a failed
    [assert], an [abort], signed overflow, an access outside an array and a
    pointer to no live object are values of [fault], so that "returns [Ok]" is
    a statement of safety.  Objects that others point to (timers, channels,
    connections) live in heaps, maps from pointers to objects.

    The functions of the loop, the poller and the timer queue that call user
    code are written over any state of which their own is a [Part], with the
    user code's effect on the rest as an argument; LoopRound.v instantiates all
    three at the state of a whole loop and reuses their theorems, whose
    conditions on the user code it discharges.

    What is not in the repository is a parameter with laws: epoll (classes
    [Epoll], [Kernel]), inet_ntop and inet_pton (class [InetText]); the other
    answers of the kernel (read, write, accept, getaddrinfo, mmap, ..), the
    allocator's pointers and what the user's callbacks do come with each call or
    event, arbitrary within what the manual says.  User callbacks are lists of
    calls on the object, so re-entrance is part of the model.  Some fields are
    history variables (what ran, was sent, was received) that no definition
    reads.

    ** What is shown

    - Queues: every member of [Buffer] acts as on a queue of bytes with room in
      front and behind; the lock-free queue refines a
      FIFO in every interleaving, no two threads share a slot; the ring leaks
      nothing whatever the kernel answers.
    - Timers: due timers run in order and once, cancelled ones not again (but see
      below), repeating ones at their next period, without dangling pointers or
      leaks.
    - Poller and loop: the kernel watches exactly what the channels ask for;
      a round runs exactly the callbacks reported, on live channels; functors run in order and
      all of them; no wakeup is lost once the loop turns; [quit] ends the loop; whole rounds are
      safe and keep poller, timers and descriptors consistent whatever the user
      code does within its contract; from construction through any rounds to
      destruction, nothing is left behind.
    - Connections: bytes are sent and delivered in order, none lost before the
      connection closes; pending output is flushed before a shutdown; states
      only move forward; in the poller of a loop no call fails, the kernel watches
      the socket for exactly what the connection wants, and destruction releases
      the socket and the channel.
    - Servers: through any history no assert fails, every descriptor has one
      owner, a connection object lives as long as a pointer to it, and nothing
      is left after the destructor; [start] listens exactly when the kernel lets it;
      EMFILE drops one connection and loses no descriptor.  In the poller
      of a loop no call fails, the listening socket and each open connection are
      watched for what they want and nothing else of the server's is, and what
      is destroyed has left the poller and the kernel.
    - Addresses: every address the library makes is well formed for its family;
      text and addresses round-trip; [isSelfConnect] is equality of
      the two ends; [resolve] on every branch.
    - UDP: any history of calls from any thread is safe, leaks nothing, and the
      kernel ends up watching the socket exactly when its state says so, under
      conditions on destruction and on mixing threads that are shown necessary.

    - Programs: the timer demo from its first line to the destructor of its loop,
      whenever its descriptor is reported: which wake-up runs which callback,
      what the cancellation stops, when [loop] returns.

    Theorems named for a defect show in which histories the code does not do
    what it means to ([requeue_never_returns], [full_ring_reorders],
    [round_with_deleted_channel], [foreign_addTimer_use_after_free],
    [early_functor_waits], [tcp_stale_event], [long_name_collision], [udp_destroyed_before_start],
    [udp_two_threads], [ring_functor_leaks]).

    ** Bounds

    - [call_functor], [drain], [call_all] and [loop] of EventLoop.v take a
      bound on nested calls and end in [Fault NoFuel] without one; the theorems
      produce one from a [size] of the functors, the number of functors one
      leads to, and show that the result does not depend on it.  In LoopRound.v
      the bound comes from [round_size], the same for what a round adds.
    - [nesting = 2] in TcpConnection.v: a connection callback called by
      [connectEstablished] can fail in [send], which closes the connection and
      calls it once more; a closed connection makes every call a no-op.
      [NoFuel] is excluded by the theorems.
    - [budget] of TcpConnection.v: what the buffers hold and posted sends will
      add stays below the maximal size of a vector.
    - Names: a server's name has at most 51 characters ([name_ok]), which with
      the number of a connection fits the 64 of [newConnection].
    - Integers: indices of the ring are 32-bit and wrap, sizes 64-bit, times
      signed 64-bit with overflow a fault.  The host is little-endian.

    ** Not modelled

    - rtclog and easylogging++ (third party) and all logging.
    - The C++ memory model beyond sequential consistency; data races on plain
      members except where a theorem is about one.
    - the text of a resolver error ([gai_strerror]), and the [setsockopt] calls inside
      [Acceptor::listen] and [UdpSocket::ensureSocket], whose results the code
      does not look at.
    - In TcpServer.v and UdpSocket.v the calls of SocketsOps.cpp that only forward
      ([close], [getLocalAddr], ..) appear as answers and as changes of the state.
    - [EventLoop::currentActiveChannel_], which is written and never read.
    - The races of a [~TcpServer] on another thread with the loop (it is one step
      between two events); the loop's functor queue is abstract in TcpServer.v and
      TcpConnection.v (functors of a connection run in any order) and FIFO in
      UdpSocket.v (the ring does not overflow).

    Three consequences of the code to know when reading: a timer that expired
    together with the one whose callback cancels it can still run once
    ([demo_late] of Demo.v); functors the
    thread of the loop queues before it calls [loop] wait until something else
    ends the first poll, for nobody is woken for them; and cancelling a timer whose addition is still queued does nothing. *)

From Stdlib Require Export ZArith Lia Strings.Byte.
From stdpp Require Export base tactics numbers list option gmap sets.

#[global] Open Scope Z_scope.

Declare Scope hv_scope.
Delimit Scope hv_scope with hv.
#[global] Open Scope hv_scope.

(** ** Outcomes

    A C++ call either returns or stops the program.  [fault] lists the ways
    the modelled code can stop: a failed [assert], [std::abort()],
    [std::length_error] thrown by a [std::vector], signed integer overflow,
    an access outside an array, and an access through a dangling or null
    pointer.  [NoFuel] is no behaviour of the code: it marks a definition whose
    bound on nested calls was too small, and the theorems exclude it. *)
Inductive fault : Type :=
| AssertFail
| StdAbort
| LengthError
| SignedOverflow
| OutOfBounds
| BadPointer
| NoFuel.

#[global] Instance fault_eq_dec : EqDecision fault.
Proof. solve_decision. Defined.

Inductive res (A : Type) : Type :=
| Ok (a : A)
| Fault (f : fault).
Arguments Ok {A} a.
Arguments Fault {A} f.

#[global] Instance res_ret : MRet res := fun A a => Ok a.
#[global] Instance res_bind : MBind res := fun A B k m =>
  match m with Ok a => k a | Fault f => Fault f end.
#[global] Instance res_fmap : FMap res := fun A B g m =>
  match m with Ok a => Ok (g a) | Fault f => Fault f end.

(** [assert(b)] in a build without [NDEBUG], which is the default of the
    repository's CMakeLists.txt. *)
Definition assert_ (b : bool) : res unit := if b then Ok tt else Fault AssertFail.

(** A pointer dereference: [None] is a pointer to no live object. *)
Definition deref {A} (o : option A) : res A :=
  match o with Some a => Ok a | None => Fault BadPointer end.

Definition is_ok {A} (m : res A) : Prop := match m with Ok _ => True | Fault _ => False end.

Lemma bind_Ok {A B} (a : A) (k : A -> res B) : (Ok a ≫= k) = k a.
Proof. reflexivity. Qed.

Lemma bind_Ok_inv {A B} (m : res A) (k : A -> res B) b :
  m ≫= k = Ok b -> exists a, m = Ok a /\ k a = Ok b.
Proof. destruct m as [a|f]; simpl; [eauto|discriminate]. Qed.

Lemma assert_true (b : bool) : b = true -> assert_ b = Ok tt.
Proof. by intros ->. Qed.

Lemma assert_Ok_inv (b : bool) u : assert_ b = Ok u -> b = true.
Proof. by destruct b. Qed.

Lemma deref_Ok_inv {A} (o : option A) a : deref o = Ok a -> o = Some a.
Proof. destruct o; simpl; congruence. Qed.

(** ** Bounds on nested calls

    [approx m m']: [m'] is [m] computed with a larger bound. *)
Definition approx {A} (m m' : res A) : Prop := m = Fault NoFuel \/ m = m'.

#[global] Instance approx_refl {A} : Reflexive (@approx A).
Proof. by right. Qed.

Lemma approx_NoFuel {A} (m : res A) : approx (Fault NoFuel) m.
Proof. by left. Qed.

Lemma approx_bind {A B} (m m' : res A) (k k' : A -> res B) :
  approx m m' -> (forall a, approx (k a) (k' a)) -> approx (m ≫= k) (m' ≫= k').
Proof. intros [->| ->] Hk; [by left|]. destruct m' as [a|f]; [apply Hk|by right]. Qed.

Lemma approx_Ok {A} (m m' : res A) a : approx m m' -> m = Ok a -> m' = Ok a.
Proof. intros [->| ->]; [discriminate|done]. Qed.

Lemma approx_foldl {A B} (g g' : res A -> B -> res A) l m m' :
  (forall m m' b, approx m m' -> approx (g m b) (g' m' b)) ->
  approx m m' -> approx (foldl g m l) (foldl g' m' l).
Proof. intros Hg. revert m m'. induction l as [|b l IH]; intros m m' H; simpl; [done|]. by apply IH, Hg. Qed.

(** ** Components inside a larger state

    A component's operations are defined on its own state.  Where a component
    calls code that can also reach others (callbacks, functors), its definitions
    take the larger state [W], of which [get] and [put] give its part. *)
Class Part (W S : Type) : Type := { get : W -> S; put : W -> S -> W }.
Class PartLaws (W S : Type) `{Part W S} : Prop := {
  get_put w s : get (put w s) = s;
  put_get w : put w (get w) = w;
  put_put w s s' : put (put w s) s' = put w s'
}.
Definition modify {W S} `{Part W S} (g : S -> S) (w : W) : W := put w (g (get w)).

(** A component on its own. *)
#[global] Instance part_self (S : Type) : Part S S | 100 := {| get w := w; put _ s := s |}.
#[global] Instance part_self_laws (S : Type) : PartLaws S S | 100.
Proof. by split. Qed.

(** ** Fixed-width integers

    Unsigned arithmetic wraps; [u32] and [u64] are the reductions the source
    performs implicitly on [unsigned int]/[uint32_t] and [size_t].  Signed
    64-bit arithmetic is undefined on overflow; [i64] checks the range. *)
Definition u16 (x : Z) : Z := x mod 2 ^ 16.
Definition u32 (x : Z) : Z := x mod 2 ^ 32.
Definition u64 (x : Z) : Z := x mod 2 ^ 64.
Definition i64 (x : Z) : res Z :=
  if bool_decide (- 2 ^ 63 <= x < 2 ^ 63) then Ok x else Fault SignedOverflow.

Lemma u32_small x : 0 <= x < 2 ^ 32 -> u32 x = x.
Proof. apply Z.mod_small. Qed.
Lemma u64_small x : 0 <= x < 2 ^ 64 -> u64 x = x.
Proof. apply Z.mod_small. Qed.
Lemma u32_range x : 0 <= u32 x < 2 ^ 32.
Proof. apply Z.mod_pos_bound. lia. Qed.
Lemma u64_range x : 0 <= u64 x < 2 ^ 64.
Proof. apply Z.mod_pos_bound. lia. Qed.

Lemma i64_Ok x : - 2 ^ 63 <= x < 2 ^ 63 -> i64 x = Ok x.
Proof. intros H. unfold i64. by rewrite bool_decide_eq_true_2. Qed.
Lemma i64_Ok_inv x y : i64 x = Ok y -> y = x /\ - 2 ^ 63 <= x < 2 ^ 63.
Proof. unfold i64. case_bool_decide; intros [=]; subst; auto. Qed.

(** ** Values of [errno] on Linux *)
Definition EPERM : Z := 1.
Definition EINTR : Z := 4.
Definition EBADF : Z := 9.
Definition EAGAIN : Z := 11.   (* = EWOULDBLOCK *)
Definition ENOMEM : Z := 12.
Definition EFAULT : Z := 14.
Definition EINVAL : Z := 22.
Definition ENFILE : Z := 23.
Definition EMFILE : Z := 24.
Definition EPIPE : Z := 32.
Definition EPROTO : Z := 71.
Definition ENOTSOCK : Z := 88.
Definition EOPNOTSUPP : Z := 95.
Definition EAFNOSUPPORT : Z := 97.
Definition ECONNABORTED : Z := 103.
Definition ENOBUFS : Z := 105.

(** The answer of a system call that returns a descriptor or fails: the
    descriptor or the errno. *)
Definition sys_fd : Type := Z + Z.

(** ** Arrays of bytes

    A [std::vector<char>] is a list of bytes.  [load] and [store] are the
    ranges [std::copy], [memmove], [memcpy] and the [std::string] constructor
    read and write; a range outside the array is [OutOfBounds]. *)
Definition zlen {A} (l : list A) : Z := Z.of_nat (length l).

Definition slice {A} (l : list A) (a b : Z) : list A :=
  take (Z.to_nat (b - a)) (drop (Z.to_nat a) l).

Definition load {A} (l : list A) (pos n : Z) : res (list A) :=
  if bool_decide (0 <= pos /\ 0 <= n /\ pos + n <= zlen l)
  then Ok (slice l pos (pos + n)) else Fault OutOfBounds.

Definition splice {A} (l : list A) (pos : Z) (d : list A) : list A :=
  take (Z.to_nat pos) l ++ d ++ drop (Z.to_nat pos + length d) l.

Definition store {A} (l : list A) (pos : Z) (d : list A) : res (list A) :=
  if bool_decide (0 <= pos /\ pos + zlen d <= zlen l)
  then Ok (splice l pos d) else Fault OutOfBounds.

Section arrays.
Context {A : Type}.
Implicit Types l d : list A.

Lemma zlen_nonneg l : 0 <= zlen l.
Proof. unfold zlen. lia. Qed.

Lemma zlen_nil : zlen (@nil A) = 0.
Proof. reflexivity. Qed.

Lemma zlen_app l d : zlen (l ++ d) = zlen l + zlen d.
Proof. unfold zlen. rewrite length_app. lia. Qed.

Lemma zlen_replicate n (x : A) : 0 <= n -> zlen (replicate (Z.to_nat n) x) = n.
Proof. unfold zlen. rewrite length_replicate. lia. Qed.

Lemma zlen_nil_inv l : zlen l = 0 -> l = [].
Proof. destruct l; [done|]. unfold zlen. simpl. lia. Qed.

Lemma zlen_take l n : 0 <= n <= zlen l -> zlen (take (Z.to_nat n) l) = n.
Proof. unfold zlen. rewrite length_take. lia. Qed.

Lemma zlen_drop l n : 0 <= n <= zlen l -> zlen (drop (Z.to_nat n) l) = zlen l - n.
Proof. unfold zlen. rewrite length_drop. lia. Qed.

Lemma zlen_slice l a b : 0 <= a <= b -> b <= zlen l -> zlen (slice l a b) = b - a.
Proof. unfold slice, zlen. rewrite length_take, length_drop. lia. Qed.

Lemma zlen_splice l pos d :
  0 <= pos -> pos + zlen d <= zlen l -> zlen (splice l pos d) = zlen l.
Proof.
  unfold splice, zlen. rewrite !length_app, length_take, length_drop. lia.
Qed.

Lemma slice_empty l a : slice l a a = [].
Proof. unfold slice. by rewrite Z.sub_diag. Qed.

Lemma slice_take l a b n :
  0 <= a -> 0 <= n <= b - a -> take (Z.to_nat n) (slice l a b) = slice l a (a + n).
Proof. intros. unfold slice. rewrite take_take. f_equal. lia. Qed.

Lemma slice_drop l a b n :
  0 <= a -> 0 <= n <= b - a -> drop (Z.to_nat n) (slice l a b) = slice l (a + n) b.
Proof.
  intros. unfold slice. rewrite skipn_firstn_comm, drop_drop.
  f_equal; [|f_equal]; lia.
Qed.

(** Reading back what was just written. *)
Lemma slice_splice_same l pos d :
  0 <= pos -> pos + zlen d <= zlen l ->
  slice (splice l pos d) pos (pos + zlen d) = d.
Proof.
  unfold slice, splice, zlen. intros.
  rewrite drop_app_length' by (rewrite length_take; lia).
  rewrite take_app_length' by lia. done.
Qed.

(** A write leaves every range below it unchanged. *)
Lemma slice_splice_below l pos d a b :
  0 <= a <= b -> b <= pos -> pos + zlen d <= zlen l ->
  slice (splice l pos d) a b = slice l a b.
Proof.
  unfold slice, splice, zlen. intros.
  rewrite drop_app_le by (rewrite length_take; lia).
  rewrite take_app_le by (rewrite length_drop, length_take; lia).
  rewrite skipn_firstn_comm, take_take. f_equal. lia.
Qed.

(** A write leaves every range above it unchanged. *)
Lemma slice_splice_above l pos d a b :
  0 <= pos -> pos + zlen d <= a -> a <= b -> b <= zlen l ->
  slice (splice l pos d) a b = slice l a b.
Proof.
  unfold slice, splice, zlen. intros. f_equal.
  rewrite app_assoc, drop_app_ge by (rewrite length_app, length_take; lia).
  rewrite drop_drop, length_app, length_take. f_equal. lia.
Qed.

Lemma slice_app_split l a b c :
  0 <= a <= b -> b <= c -> slice l a c = slice l a b ++ slice l b c.
Proof.
  intros. rewrite <- (take_drop (Z.to_nat (b - a)) (slice l a c)).
  rewrite slice_take, slice_drop by lia. f_equal; f_equal; lia.
Qed.

Lemma slice_app_l l d a b : 0 <= a -> b <= zlen l -> slice (l ++ d) a b = slice l a b.
Proof.
  unfold slice, zlen. intros. destruct (decide (a <= b)).
  - rewrite drop_app_le by lia. by rewrite take_app_le by (rewrite length_drop; lia).
  - by replace (Z.to_nat (b - a)) with 0%nat by lia.
Qed.

Lemma slice_full l : slice l 0 (zlen l) = l.
Proof. unfold slice, zlen. rewrite drop_0, take_ge; [done|lia]. Qed.

Lemma load_Ok l pos n :
  0 <= pos -> 0 <= n -> pos + n <= zlen l -> load l pos n = Ok (slice l pos (pos + n)).
Proof. intros. unfold load. by rewrite bool_decide_eq_true_2. Qed.

Lemma store_Ok l pos d :
  0 <= pos -> pos + zlen d <= zlen l -> store l pos d = Ok (splice l pos d).
Proof. intros. unfold store. by rewrite bool_decide_eq_true_2. Qed.
End arrays.

(** ** Automation

    [res_inv] takes apart a hypothesis that a monadic computation returned
    [Ok]; [bool_hyps] moves boolean comparisons of the source into [Prop];
    [zsolve] closes the arithmetic side conditions. *)
Create HintDb hv discriminated.
Create Rewrite HintDb hv.
#[export] Hint Resolve zlen_nonneg u32_range u64_range : hv.
#[export] Hint Rewrite @zlen_app : hv.

Ltac res_inv_step :=
  match goal with
  | H : Ok _ = Ok _ |- _ => injection H as H; try subst
  | H : Fault _ = Ok _ |- _ => discriminate H
  | H : Ok _ = Fault _ |- _ => discriminate H
  | H : (_ ≫= _) = Ok _ |- _ =>
      let a := fresh "a" in let H1 := fresh "Hr" in
      apply bind_Ok_inv in H as (a & H1 & H)
  | H : assert_ _ = Ok _ |- _ => apply assert_Ok_inv in H
  | H : deref _ = Ok _ |- _ => apply deref_Ok_inv in H
  | H : i64 _ = Ok _ |- _ => apply i64_Ok_inv in H as [? H]; try subst
  end.
Ltac res_inv := repeat (res_inv_step; simpl in *).

Ltac bool_hyps :=
  repeat match goal with
  | H : (_ && _)%bool = true |- _ => apply andb_true_iff in H as [? ?]
  | H : (_ <=? _) = true |- _ => apply Z.leb_le in H
  | H : (_ <=? _) = false |- _ => apply Z.leb_gt in H
  | H : (_ <? _) = true |- _ => apply Z.ltb_lt in H
  | H : (_ <? _) = false |- _ => apply Z.ltb_ge in H
  | H : (_ =? _) = true |- _ => apply Z.eqb_eq in H
  | H : (_ =? _) = false |- _ => apply Z.eqb_neq in H
  | H : bool_decide _ = true |- _ => apply bool_decide_eq_true in H
  | H : bool_decide _ = false |- _ => apply bool_decide_eq_false in H
  | H : negb _ = true |- _ => apply negb_true_iff in H
  | H : negb _ = false |- _ => apply negb_false_iff in H
  end.

(** Case analysis on the first [assert] of the goal. *)
Ltac assert_cases :=
  match goal with
  | |- context [assert_ ?b] => destruct b eqn:?; simpl; bool_hyps
  end.

Ltac zsolve :=
  repeat match goal with
  | |- context [zlen ?l] =>
      lazymatch goal with H : 0 <= zlen l |- _ => fail | _ => pose proof (zlen_nonneg l) end
  end; lia.

(** A decidable goal without variables, by evaluation. *)
Ltac by_decide :=
  match goal with |- ?P => refine (bool_decide_unpack P _); vm_compute; exact I end.

(** Runs the next event of a concrete history: the goal starts with the state
    it leads to and the equation that says so. *)
Ltac run_next := let s := fresh "s" in let E := fresh "E" in
  intros s E; vm_compute in E; injection E as <-.
