(* ===== verification/Buffer.v ===== *)
(** * Buffer: the byte buffer of a connection

    Models [include/hvnetpp/Buffer.h] and [src/Buffer.cpp].  [Buffer] is the
    C++ object: a vector and two indices of type [size_t].  Every operation is
    a function to [res]: a failed [assert], a vector growing past its maximal
    size and any access outside the vector are faults, so that the theorems
    that an operation returns [Ok] are memory-safety theorems.

    [contents] is the readable bytes, [layout_of] these with the room in front and
    behind; [buffer_refines_queue] is about any sequence of calls.  The interface that the
    connection uses is the class [ByteQueue], with [Buffer] as an instance. *)

From S2P Require Import Prelude.

(** ** The object *)
Record Buffer : Type := mkBuffer {
  buffer_ : list byte;
  readerIndex_ : Z;
  writerIndex_ : Z
}.

Definition kCheapPrepend : Z := 8.
Definition kInitialSize : Z := 1024.

(** [std::vector<char>::max_size()]: the largest [ptrdiff_t]. *)
Definition vector_max : Z := 2 ^ 63 - 1.

(** [vector(n)] and [vector::resize(n)]: new elements are zero. *)
Definition vector_new (n : Z) : res (list byte) :=
  if n <=? vector_max then Ok (replicate (Z.to_nat n) x00) else Fault LengthError.

Definition vector_resize (l : list byte) (n : Z) : res (list byte) :=
  if n <=? vector_max
  then Ok (take (Z.to_nat n) l ++ replicate (Z.to_nat n - length l) x00)
  else Fault LengthError.

(** ** Operations *)
Definition Buffer_new (initialSize : Z) : res Buffer :=
  v ← vector_new (u64 (kCheapPrepend + initialSize));
  Ok (mkBuffer v kCheapPrepend kCheapPrepend).

Definition readableBytes (b : Buffer) : Z := u64 (writerIndex_ b - readerIndex_ b).
Definition writableBytes (b : Buffer) : Z := u64 (zlen (buffer_ b) - writerIndex_ b).
Definition prependableBytes (b : Buffer) : Z := readerIndex_ b.

Definition retrieveAll (b : Buffer) : Buffer :=
  mkBuffer (buffer_ b) kCheapPrepend kCheapPrepend.

Definition retrieve (b : Buffer) (len : Z) : res Buffer :=
  assert_ (len <=? readableBytes b);;
  if len <? readableBytes b
  then Ok (mkBuffer (buffer_ b) (u64 (readerIndex_ b + len)) (writerIndex_ b))
  else Ok (retrieveAll b).

(** The bytes [peek(), peek() + len), as [std::string(peek(), len)] reads
    them. *)
Definition peek (b : Buffer) (len : Z) : res (list byte) :=
  load (buffer_ b) (readerIndex_ b) len.

Definition retrieveAsString (b : Buffer) (len : Z) : res (list byte * Buffer) :=
  assert_ (len <=? readableBytes b);;
  result ← peek b len;
  b' ← retrieve b len;
  Ok (result, b').

Definition retrieveAllAsString (b : Buffer) : res (list byte * Buffer) :=
  retrieveAsString b (readableBytes b).

Definition makeSpace (b : Buffer) (len : Z) : res Buffer :=
  if u64 (writableBytes b + prependableBytes b) <? u64 (len + kCheapPrepend)
  then
    v ← vector_resize (buffer_ b) (u64 (writerIndex_ b + len));
    Ok (mkBuffer v (readerIndex_ b) (writerIndex_ b))
  else
    assert_ (kCheapPrepend <? readerIndex_ b);;
    let readable := readableBytes b in
    d ← load (buffer_ b) (readerIndex_ b) readable;
    v ← store (buffer_ b) kCheapPrepend d;
    let b' := mkBuffer v kCheapPrepend (u64 (kCheapPrepend + readable)) in
    assert_ (readable =? readableBytes b');;
    Ok b'.

Definition ensureWritableBytes (b : Buffer) (len : Z) : res Buffer :=
  b' ← (if writableBytes b <? len then makeSpace b len else Ok b);
  assert_ (len <=? writableBytes b');;
  Ok b'.

Definition hasWritten (b : Buffer) (len : Z) : res Buffer :=
  assert_ (len <=? writableBytes b);;
  Ok (mkBuffer (buffer_ b) (readerIndex_ b) (u64 (writerIndex_ b + len))).

(** [append(data, len)], with [data] the [len] bytes read through the
    pointer. *)
Definition append (b : Buffer) (data : list byte) : res Buffer :=
  b1 ← ensureWritableBytes b (zlen data);
  v ← store (buffer_ b1) (writerIndex_ b1) data;
  hasWritten (mkBuffer v (readerIndex_ b1) (writerIndex_ b1)) (zlen data).

Definition prepend (b : Buffer) (data : list byte) : res Buffer :=
  assert_ (zlen data <=? prependableBytes b);;
  let r := u64 (readerIndex_ b - zlen data) in
  v ← store (buffer_ b) r data;
  Ok (mkBuffer v r (writerIndex_ b)).

(** [readFd]: [readv] is the system call, given the lengths of the two (or
    one) ranges; it answers [inl errno] for -1 and [inr bytes] for the bytes
    it scattered over the ranges in order.  The result is the returned
    [ssize_t] (-1 on error), the value stored to [*savedErrno] if any, and
    the buffer. *)
Definition extrabuf_size : Z := 65536.

(** The lengths of the ranges, with [writable] bytes free in the vector. *)
Definition readFd_iov (writable : Z) : list Z :=
  if writable <? extrabuf_size then [writable; extrabuf_size] else [writable].

Definition readFd (readv : list Z -> Z + list byte) (b : Buffer)
  : res (Z * option Z * Buffer) :=
  let writable := writableBytes b in
  match readv (readFd_iov writable) with
  | inl err => Ok (-1, Some err, b)
  | inr bytes =>
      let n := zlen bytes in
      let into_vec0 := take (Z.to_nat writable) bytes in
      let into_extrabuf := drop (Z.to_nat writable) bytes in
      v ← store (buffer_ b) (writerIndex_ b) into_vec0;
      if n <=? writable
      then Ok (n, None, mkBuffer v (readerIndex_ b) (u64 (writerIndex_ b + n)))
      else
        b' ← append (mkBuffer v (readerIndex_ b) (zlen v)) into_extrabuf;
        Ok (n, None, b')
  end.

(** ** Invariant and abstraction *)
Definition buf_wf (b : Buffer) : Prop :=
  0 <= readerIndex_ b <= writerIndex_ b /\
  writerIndex_ b <= zlen (buffer_ b) <= vector_max /\
  kCheapPrepend <= zlen (buffer_ b).

#[global] Instance buf_wf_dec b : Decision (buf_wf b).
Proof. unfold buf_wf. apply _. Defined.

Definition contents (b : Buffer) : list byte :=
  slice (buffer_ b) (readerIndex_ b) (writerIndex_ b).

(** ** Lemmas on the indices *)
Section buffer_lemmas.
Implicit Types (b : Buffer) (d : list byte) (len : Z).

Lemma readableBytes_wf b : buf_wf b -> readableBytes b = writerIndex_ b - readerIndex_ b.
Proof.
  unfold buf_wf, readableBytes, vector_max. intros. apply u64_small. lia.
Qed.

Lemma writableBytes_wf b : buf_wf b -> writableBytes b = zlen (buffer_ b) - writerIndex_ b.
Proof.
  unfold buf_wf, writableBytes, vector_max. intros. apply u64_small. lia.
Qed.

Lemma zlen_contents b : buf_wf b -> zlen (contents b) = writerIndex_ b - readerIndex_ b.
Proof. unfold buf_wf, contents. intros. apply zlen_slice; lia. Qed.

Lemma readable_contents b : buf_wf b -> readableBytes b = zlen (contents b).
Proof. intros. by rewrite readableBytes_wf, zlen_contents. Qed.

Lemma contents_max b : buf_wf b -> zlen (contents b) <= vector_max.
Proof. intros Hb. rewrite zlen_contents by done. unfold buf_wf in Hb. lia. Qed.

Lemma vector_resize_grow (v : list byte) n :
  zlen v <= n <= vector_max ->
  exists v', vector_resize v n = Ok v' /\ zlen v' = n /\
    forall i j, 0 <= i -> j <= zlen v -> slice v' i j = slice v i j.
Proof.
  intros Hn. unfold vector_resize.
  rewrite (proj2 (Z.leb_le _ _)) by lia. eexists. split; [done|].
  rewrite take_ge by (unfold zlen in *; lia). split.
  - unfold zlen in *. rewrite length_app, length_replicate. lia.
  - intros. by apply slice_app_l.
Qed.

(** ** [makeSpace] *)
Lemma makeSpace_spec b len :
  buf_wf b -> 0 <= len -> writableBytes b < len ->
  zlen (contents b) + 2 * len + kCheapPrepend <= vector_max ->
  exists b', makeSpace b len = Ok b' /\ buf_wf b' /\ contents b' = contents b /\
    len <= writableBytes b' /\
    zlen (buffer_ b') <= Z.max (zlen (buffer_ b)) (zlen (contents b) + 2 * len + kCheapPrepend).
Proof.
  intros Hb Hlen Hw Hmax. rewrite zlen_contents in * by done.
  rewrite writableBytes_wf in Hw by done.
  unfold makeSpace, prependableBytes.
  rewrite writableBytes_wf, readableBytes_wf by done.
  destruct Hb as (Hrw & Hsz & H8). unfold kCheapPrepend, vector_max in *.
  rewrite !u64_small by lia. case_match; bool_hyps.
  - destruct (vector_resize_grow (buffer_ b) (writerIndex_ b + len))
      as (v & -> & Hv & Hsl); [unfold vector_max; lia|]. simpl.
    assert (buf_wf (mkBuffer v (readerIndex_ b) (writerIndex_ b))) as Hwf.
    { unfold buf_wf, vector_max, kCheapPrepend; simpl; lia. }
    eexists. split; [done|]. split; [done|]. rewrite writableBytes_wf by done.
    unfold contents; simpl. rewrite Hsl by lia. split; [done|]. lia.
  - rewrite assert_true by (apply Z.ltb_lt; lia). simpl.
    assert (buf_wf b) as Hb by (unfold buf_wf, vector_max, kCheapPrepend; lia).
    rewrite load_Ok by lia. simpl.
    set (d := slice _ _ _).
    assert (zlen d = writerIndex_ b - readerIndex_ b) as Hd
      by (unfold d; rewrite zlen_slice; lia).
    rewrite store_Ok by lia. simpl.
    set (b' := mkBuffer _ _ _).
    assert (zlen (buffer_ b') = zlen (buffer_ b)) as Hl by (apply zlen_splice; lia).
    assert (buf_wf b') as Hwf
      by (unfold buf_wf, vector_max, kCheapPrepend; rewrite Hl; simpl; lia).
    rewrite readableBytes_wf by done. simpl.
    rewrite assert_true by (apply Z.eqb_eq; lia). simpl.
    eexists. split; [done|]. split; [done|].
    rewrite writableBytes_wf, Hl by done. unfold contents, b' at 1; simpl.
    rewrite <- Hd, slice_splice_same by lia.
    split; [unfold d; f_equal; lia|]. lia.
Qed.

Lemma ensureWritableBytes_spec b len :
  buf_wf b -> 0 <= len -> zlen (contents b) + 2 * len + kCheapPrepend <= vector_max ->
  exists b', ensureWritableBytes b len = Ok b' /\ buf_wf b' /\ contents b' = contents b /\
    len <= writableBytes b' /\
    zlen (buffer_ b') <= Z.max (zlen (buffer_ b)) (zlen (contents b) + 2 * len + kCheapPrepend).
Proof.
  intros Hb Hlen Hmax. unfold ensureWritableBytes. case_match; bool_hyps.
  - destruct (makeSpace_spec b len) as (b' & -> & ? & ? & ? & ?); [done..|]. simpl.
    rewrite assert_true by (by apply Z.leb_le). simpl. eauto 10.
  - simpl. rewrite assert_true by (by apply Z.leb_le). simpl.
    exists b. split_and!; done || lia.
Qed.

(** Writing [d] at the writer index of a buffer with room for it. *)
Lemma write_contents b d :
  buf_wf b -> zlen d <= zlen (buffer_ b) - writerIndex_ b ->
  let b' := mkBuffer (splice (buffer_ b) (writerIndex_ b) d) (readerIndex_ b)
              (writerIndex_ b + zlen d) in
  buf_wf b' /\ contents b' = contents b ++ d /\ zlen (buffer_ b') = zlen (buffer_ b).
Proof.
  intros (Hrw & Hsz & H8) Hd b'. pose proof (zlen_nonneg d).
  assert (zlen (buffer_ b') = zlen (buffer_ b)) as Hl by (apply zlen_splice; lia).
  split; [unfold buf_wf; rewrite Hl; simpl; lia|]. split; [|done].
  unfold contents, b'; simpl.
  rewrite (slice_app_split _ (readerIndex_ b) (writerIndex_ b)) by lia.
  by rewrite slice_splice_below, slice_splice_same by lia.
Qed.
End buffer_lemmas.

(** ** The operations against the abstraction *)
Section buffer_ops.
Implicit Types (b : Buffer) (d : list byte) (len : Z).

(** A fresh buffer is well formed and empty. *)
Lemma Buffer_new_spec n :
  0 <= n <= vector_max - kCheapPrepend ->
  exists b, Buffer_new n = Ok b /\ buf_wf b /\ contents b = [] /\ writableBytes b = n.
Proof.
  unfold Buffer_new, vector_new, vector_max, kCheapPrepend. intros Hn.
  rewrite u64_small by lia. rewrite (proj2 (Z.leb_le _ _)) by lia. simpl.
  set (b := mkBuffer _ _ _).
  assert (zlen (buffer_ b) = 8 + n) as Hl by (apply zlen_replicate; lia).
  assert (buf_wf b) as Hb
    by (unfold buf_wf, vector_max, kCheapPrepend; rewrite Hl; simpl; lia).
  exists b. split_and!; [done..|apply slice_empty|].
  rewrite writableBytes_wf, Hl by done. simpl. lia.
Qed.

Lemma append_spec b d :
  buf_wf b -> zlen (contents b) + 2 * zlen d + kCheapPrepend <= vector_max ->
  exists b', append b d = Ok b' /\ buf_wf b' /\ contents b' = contents b ++ d /\
    zlen (buffer_ b') <= Z.max (zlen (buffer_ b)) (zlen (contents b) + 2 * zlen d + kCheapPrepend).
Proof.
  intros Hb Hmax. pose proof (zlen_nonneg d) as Hd.
  destruct (ensureWritableBytes_spec b (zlen d)) as (b1 & E & Hb1 & Hc & Hw & Hsz); [done..|].
  unfold append. rewrite E. simpl. rewrite writableBytes_wf in Hw by done.
  destruct (write_contents b1 d Hb1 Hw) as (Hwf & Hcont & Hlen).
  assert (buf_wf b1) as (? & ? & ?) by done.
  rewrite store_Ok by lia. simpl. unfold hasWritten.
  assert (buf_wf (mkBuffer (splice (buffer_ b1) (writerIndex_ b1) d) (readerIndex_ b1)
      (writerIndex_ b1))) as Hmid.
  { unfold buf_wf in *; simpl in *. lia. }
  rewrite writableBytes_wf by done. simpl in *.
  rewrite assert_true by (apply Z.leb_le; lia). simpl.
  unfold vector_max in *. rewrite u64_small by lia.
  eexists. split_and!; [done..|by rewrite Hcont, Hc|]. simpl. lia.
Qed.

Lemma retrieveAll_spec b : buf_wf b -> buf_wf (retrieveAll b) /\ contents (retrieveAll b) = [].
Proof.
  intros (? & ? & ?). split; [unfold buf_wf, retrieveAll, kCheapPrepend in *; simpl; lia|].
  apply slice_empty.
Qed.

Lemma retrieve_spec b len :
  buf_wf b -> 0 <= len <= zlen (contents b) ->
  exists b', retrieve b len = Ok b' /\ buf_wf b' /\
    contents b' = drop (Z.to_nat len) (contents b) /\ buffer_ b' = buffer_ b.
Proof.
  intros Hb Hlen. unfold retrieve. rewrite readable_contents by done.
  rewrite assert_true by (apply Z.leb_le; lia). simpl. case_match; bool_hyps.
  - assert (buf_wf b) as (? & ? & ?) by done. rewrite zlen_contents in * by done.
    unfold vector_max in *. rewrite u64_small by lia. eexists. split; [done|]. split.
    { unfold buf_wf, vector_max; simpl. lia. }
    split; [|done]. unfold contents; simpl. by rewrite slice_drop by lia.
  - eexists. split; [done|]. destruct (retrieveAll_spec b Hb) as [? ->].
    split; [done|]. split; [|done]. rewrite drop_ge; [done|]. unfold zlen in *. lia.
Qed.

Lemma retrieve_too_much b len :
  buf_wf b -> zlen (contents b) < len -> retrieve b len = Fault AssertFail.
Proof.
  intros Hb Hlen. unfold retrieve. rewrite readable_contents by done.
  by rewrite (proj2 (Z.leb_gt _ _)) by lia.
Qed.

Lemma peek_spec b len :
  buf_wf b -> 0 <= len <= zlen (contents b) ->
  peek b len = Ok (take (Z.to_nat len) (contents b)).
Proof.
  intros Hb Hlen. assert (buf_wf b) as (? & ? & ?) by done.
  rewrite zlen_contents in Hlen by done.
  unfold peek, contents. rewrite load_Ok, slice_take by lia. done.
Qed.

Lemma retrieveAsString_spec b len :
  buf_wf b -> 0 <= len <= zlen (contents b) ->
  exists b', retrieveAsString b len = Ok (take (Z.to_nat len) (contents b), b') /\
    buf_wf b' /\ contents b' = drop (Z.to_nat len) (contents b).
Proof.
  intros Hb Hlen. unfold retrieveAsString. rewrite readable_contents by done.
  rewrite assert_true by (apply Z.leb_le; lia). simpl. rewrite peek_spec by done. simpl.
  destruct (retrieve_spec b len) as (b' & -> & ? & ? & _); [done..|]. simpl. eauto.
Qed.

Lemma retrieveAsString_too_much b len :
  buf_wf b -> zlen (contents b) < len -> retrieveAsString b len = Fault AssertFail.
Proof.
  intros Hb Hlen. unfold retrieveAsString. rewrite readable_contents by done.
  by rewrite (proj2 (Z.leb_gt _ _)) by lia.
Qed.

Lemma prepend_spec b d :
  buf_wf b -> zlen d <= prependableBytes b ->
  exists b', prepend b d = Ok b' /\ buf_wf b' /\ contents b' = d ++ contents b.
Proof.
  unfold prependableBytes. intros Hb Hd. assert (buf_wf b) as (? & ? & ?) by done.
  pose proof (zlen_nonneg d). unfold prepend, prependableBytes.
  rewrite assert_true by (apply Z.leb_le; lia). simpl. unfold vector_max in *.
  rewrite u64_small by lia. rewrite store_Ok by lia. simpl.
  eexists. split; [done|]. split.
  { unfold buf_wf, vector_max; simpl. rewrite zlen_splice by lia. lia. }
  unfold contents; simpl.
  rewrite (slice_app_split _ _ (readerIndex_ b)) by lia.
  rewrite (slice_splice_above _ _ _ (readerIndex_ b)) by lia. f_equal.
  etrans; [|apply (slice_splice_same (buffer_ b) (readerIndex_ b - zlen d) d); lia].
  f_equal. lia.
Qed.
End buffer_ops.

(** ** [readFd]

    [readv] never returns more bytes than the ranges it is given hold. *)
Definition readv_ok (readv : list Z -> Z + list byte) : Prop :=
  forall iov bytes, Forall (Z.le 0) iov -> readv iov = inr bytes -> zlen bytes <= foldr Z.add 0 iov.

Lemma iov_nonneg b : Forall (Z.le 0) (readFd_iov (writableBytes b)).
Proof. pose proof (u64_range (zlen (buffer_ b) - writerIndex_ b)).
  unfold readFd_iov. case_match; repeat constructor; unfold writableBytes, extrabuf_size; lia. Qed.

Lemma readFd_ok readv b bytes :
  readv_ok readv -> buf_wf b ->
  zlen (contents b) + zlen (buffer_ b) + 3 * extrabuf_size <= vector_max ->
  readv (readFd_iov (writableBytes b)) = inr bytes ->
  exists b', readFd readv b = Ok (zlen bytes, None, b') /\ buf_wf b' /\
    contents b' = contents b ++ bytes /\
    zlen (buffer_ b') <= zlen (buffer_ b) + 2 * extrabuf_size + kCheapPrepend.
Proof.
  intros Hrv Hb Hmax E. unfold readFd. rewrite E.
  apply Hrv in E; [|apply iov_nonneg].
  pose proof (zlen_nonneg bytes) as Hnn. rewrite writableBytes_wf in * by done.
  assert (buf_wf b) as (? & ? & ?) by done.
  set (wr := zlen (buffer_ b) - writerIndex_ b) in *.
  assert (zlen (take (Z.to_nat wr) bytes) = Z.min wr (zlen bytes)) as Ht
    by (unfold zlen; rewrite length_take; lia).
  rewrite store_Ok by lia. simpl.
  destruct (write_contents b (take (Z.to_nat wr) bytes)) as (Hwf & Hc & Hl); [done|lia|].
  rewrite Ht in Hwf, Hc. destruct (zlen bytes <=? wr) eqn:?; bool_hyps.
  - rewrite (take_ge bytes) in Hwf, Hc, Hl |- * by (unfold zlen in *; lia).
    rewrite Z.min_r in Hwf, Hc by lia. unfold vector_max in *. rewrite u64_small by lia.
    eexists. split; [done|]. split_and!; try done. simpl in *. unfold extrabuf_size, kCheapPrepend. lia.
  - rewrite Z.min_l in Hwf, Hc by lia.
    replace (writerIndex_ b + wr) with (zlen (buffer_ b)) in Hwf, Hc by lia.
    simpl in Hl. rewrite Hl.
    assert (zlen (drop (Z.to_nat wr) bytes) <= extrabuf_size) as Hd.
    { rewrite zlen_drop by lia. unfold readFd_iov in E. case_match; simpl in E; lia. }
    pose proof (zlen_nonneg (drop (Z.to_nat wr) bytes)).
    unfold extrabuf_size, kCheapPrepend in *.
    destruct (append_spec _ (drop (Z.to_nat wr) bytes) Hwf) as (b' & -> & ? & Hc' & Hsz).
    { rewrite Hc, zlen_app, Ht, Z.min_l by lia. unfold kCheapPrepend. lia. }
    simpl. exists b'. split_and!; [done..| |].
    + by rewrite Hc', Hc, <- app_assoc, take_drop.
    + pose proof (zlen_contents b Hb). rewrite Hc, zlen_app, Ht, Z.min_l in Hsz by lia.
      simpl in Hsz. unfold extrabuf_size, kCheapPrepend in *. lia.
Qed.

(** ** The interface: a queue of bytes

    What the connection relies on.  [bq_iov] is what [readFd] offers to [readv], [bq_size] is the memory a queue occupies,
    [bq_cap] the most it can. *)
Class ByteQueueOps (B : Type) : Type := {
  bq_new : B;
  bq_readable : B -> Z;
  bq_peek : B -> Z -> res (list byte);
  bq_append : B -> list byte -> res B;
  bq_retrieve : B -> Z -> res B;
  bq_iov : B -> list Z;
  bq_readFd : (list Z -> Z + list byte) -> B -> res (Z * option Z * B);
  bq_wf : B -> Prop;
  bq_bytes : B -> list byte;
  bq_size : B -> Z;
  bq_cap : Z
}.

Definition bq_read_growth : Z := 2 * extrabuf_size + kCheapPrepend.

Class ByteQueue (B : Type) `{ByteQueueOps B} : Prop := {
  bq_new_ok : bq_wf (B := B) bq_new /\ bq_bytes (B := B) bq_new = [] /\
    bq_size (B := B) bq_new <= kCheapPrepend + kInitialSize;
  bq_size_ok b : bq_wf b -> zlen (bq_bytes b) <= bq_size b;
  bq_readable_ok b : bq_wf b -> bq_readable b = zlen (bq_bytes b);
  bq_peek_ok b n : bq_wf b -> 0 <= n <= zlen (bq_bytes b) ->
    bq_peek b n = Ok (take (Z.to_nat n) (bq_bytes b));
  bq_append_ok b d : bq_wf b -> bq_size b + 2 * zlen d + kCheapPrepend <= bq_cap (B := B) ->
    exists b', bq_append b d = Ok b' /\ bq_wf b' /\ bq_bytes b' = bq_bytes b ++ d /\
      bq_size b' <= bq_size b + 2 * zlen d + kCheapPrepend;
  bq_retrieve_ok b n : bq_wf b -> 0 <= n <= zlen (bq_bytes b) ->
    exists b', bq_retrieve b n = Ok b' /\ bq_wf b' /\
      bq_bytes b' = drop (Z.to_nat n) (bq_bytes b) /\ bq_size b' = bq_size b;
  bq_readFd_ok readv b : readv_ok readv -> bq_wf b ->
    2 * bq_size b + 3 * extrabuf_size <= bq_cap (B := B) ->
    match readv (bq_iov b) with
    | inl err => bq_readFd readv b = Ok (-1, Some err, b)
    | inr bytes => exists b', bq_readFd readv b = Ok (zlen bytes, None, b') /\ bq_wf b' /\
        bq_bytes b' = bq_bytes b ++ bytes /\ bq_size b' <= bq_size b + bq_read_growth
    end
}.

#[global] Instance Buffer_ops : ByteQueueOps Buffer := {
  bq_new := mkBuffer (replicate (Z.to_nat (kCheapPrepend + kInitialSize)) x00) kCheapPrepend kCheapPrepend;
  bq_readable := readableBytes;
  bq_peek := peek;
  bq_append := append;
  bq_retrieve := retrieve;
  bq_iov := fun b => readFd_iov (writableBytes b);
  bq_readFd := readFd;
  bq_wf := buf_wf;
  bq_bytes := contents;
  bq_size := fun b => zlen (buffer_ b);
  bq_cap := vector_max
}.

(** The new buffer of the interface is the one the constructor makes. *)
Lemma bq_new_Buffer : Buffer_new kInitialSize = Ok bq_new.
Proof. vm_compute. reflexivity. Qed.

#[global] Instance Buffer_queue : ByteQueue Buffer.
Proof.
  split; simpl.
  - split_and!; [by apply (bool_decide_unpack _)|done|by vm_compute].
  - intros b Hb. pose proof (zlen_contents b Hb). destruct Hb as (? & ? & ?). lia.
  - apply readable_contents.
  - apply peek_spec.
  - intros b d Hb Hd. pose proof (zlen_contents b Hb). pose proof Hb as (? & ? & ?).
    pose proof (zlen_nonneg d). unfold kCheapPrepend in *.
    destruct (append_spec b d Hb) as (b' & ? & ? & ? & ?); unfold kCheapPrepend in *; [lia|].
    exists b'. split_and!; done || lia.
  - intros b n Hb Hn. destruct (retrieve_spec b n Hb Hn) as (b' & ? & ? & ? & E).
    exists b'. by rewrite E.
  - intros readv b Hrv Hb Hmax. pose proof (zlen_contents b Hb). pose proof Hb as (? & ? & ?).
    destruct (readv (readFd_iov (writableBytes b))) as [err|bytes] eqn:E.
    + unfold readFd. by rewrite E.
    + destruct (readFd_ok readv b bytes) as (b' & -> & ? & ? & ?); [done..|lia|done|].
      exists b'. unfold bq_read_growth. split_and!; done || lia.
Qed.

(** ** Sequences of operations

    What the user of a buffer can know of it: the bytes queued and how many fit
    in front of them and behind them without growing. *)
Record layout : Type := mkLayout { front : Z; queue : list byte; back : Z }.

Definition layout_of (b : Buffer) : layout :=
  mkLayout (prependableBytes b) (contents b) (writableBytes b).

(** The abstract operations.  Room behind is made by growing to exactly what is
    asked for, or, when the free bytes of both ends suffice with the headroom kept,
    by moving the queue to the front. *)
Definition spec_ensure (l : layout) (len : Z) : layout :=
  if len <=? back l then l
  else if back l + front l <? len + kCheapPrepend then mkLayout (front l) (queue l) len
  else mkLayout kCheapPrepend (queue l) (front l + back l - kCheapPrepend).

(** Bytes written into the room behind are queued. *)
Definition spec_write (l : layout) (d : list byte) : layout :=
  mkLayout (front l) (queue l ++ d) (back l - zlen d).

Definition spec_append (l : layout) (d : list byte) : layout := spec_write (spec_ensure l (zlen d)) d.

(** An empty queue goes back to the front. *)
Definition spec_clear (l : layout) : layout :=
  mkLayout kCheapPrepend [] (front l + zlen (queue l) + back l - kCheapPrepend).

Definition spec_retrieve (l : layout) (len : Z) : layout :=
  if len <? zlen (queue l) then mkLayout (front l + len) (drop (Z.to_nat len) (queue l)) (back l)
  else spec_clear l.

(** The calls a user makes on a buffer.  [OpWrite d]: the user copies what fits
    of [d] to [beginWrite()] and calls [hasWritten] with the length of [d].
    [OpReadFd readv n]: the kernel answers as [readv], with at most [n] bytes. *)
Inductive buf_op : Type :=
| OpAppend (d : list byte)
| OpPrepend (d : list byte)
| OpEnsureWritable (len : Z)
| OpWrite (d : list byte)
| OpReadFd (readv : list Z -> Z + list byte) (n : Z)
| OpRetrieve (len : Z)
| OpRetrieveAll
| OpRetrieveAsString (len : Z)
| OpRetrieveAllAsString.

(** What a call returns: nothing, a string, or the result of a read with the
    errno it saves. *)
Inductive buf_out : Type :=
| OutNone
| OutString (d : list byte)
| OutRead (n : Z) (savedErrno : option Z).

Definition user_write (b : Buffer) (d : list byte) : res Buffer :=
  v ← store (buffer_ b) (writerIndex_ b) (take (Z.to_nat (writableBytes b)) d);
  hasWritten (mkBuffer v (readerIndex_ b) (writerIndex_ b)) (zlen d).

(** A call on the object. *)
Definition buf_step (b : Buffer) (o : buf_op) : res (buf_out * Buffer) :=
  match o with
  | OpAppend d => b' ← append b d; Ok (OutNone, b')
  | OpPrepend d => b' ← prepend b d; Ok (OutNone, b')
  | OpEnsureWritable len => b' ← ensureWritableBytes b len; Ok (OutNone, b')
  | OpWrite d => b' ← user_write b d; Ok (OutNone, b')
  | OpReadFd readv _ => '(n, e, b') ← readFd readv b; Ok (OutRead n e, b')
  | OpRetrieve len => b' ← retrieve b len; Ok (OutNone, b')
  | OpRetrieveAll => Ok (OutNone, retrieveAll b)
  | OpRetrieveAsString len => '(d, b') ← retrieveAsString b len; Ok (OutString d, b')
  | OpRetrieveAllAsString => '(d, b') ← retrieveAllAsString b; Ok (OutString d, b')
  end.

(** The same call on the queue. *)
Definition spec_step (l : layout) (o : buf_op) : res (buf_out * layout) :=
  match o with
  | OpAppend d => Ok (OutNone, spec_append l d)
  | OpPrepend d =>
      assert_ (zlen d <=? front l);; Ok (OutNone, mkLayout (front l - zlen d) (d ++ queue l) (back l))
  | OpEnsureWritable len => Ok (OutNone, spec_ensure l len)
  | OpWrite d => assert_ (zlen d <=? back l);; Ok (OutNone, spec_write l d)
  | OpReadFd readv _ =>
      match readv (readFd_iov (back l)) with
      | inl err => Ok (OutRead (-1) (Some err), l)
      | inr d =>
          let into_vec0 := take (Z.to_nat (back l)) d in
          let into_extrabuf := drop (Z.to_nat (back l)) d in
          Ok (OutRead (zlen d) None, spec_append (spec_write l into_vec0) into_extrabuf)
      end
  | OpRetrieve len => assert_ (len <=? zlen (queue l));; Ok (OutNone, spec_retrieve l len)
  | OpRetrieveAll => Ok (OutNone, spec_clear l)
  | OpRetrieveAsString len =>
      assert_ (len <=? zlen (queue l));;
      Ok (OutString (take (Z.to_nat len) (queue l)), spec_retrieve l len)
  | OpRetrieveAllAsString => Ok (OutString (queue l), spec_clear l)
  end.

Fixpoint run_ops {Q} (step : Q -> buf_op -> res (buf_out * Q)) (q : Q) (os : list buf_op)
  : res (list buf_out * Q) :=
  match os with
  | [] => Ok ([], q)
  | o :: os' =>
      '(out, q') ← step q o;
      '(outs, q'') ← run_ops step q' os';
      Ok (out :: outs, q'')
  end.

(** Lengths are of type [size_t], hence non-negative; a read stays within its
    bound. *)
Definition op_ok (o : buf_op) : Prop :=
  match o with
  | OpRetrieve len | OpRetrieveAsString len | OpEnsureWritable len => 0 <= len
  | OpReadFd readv n => 0 <= n /\ forall iov d, readv iov = inr d -> zlen d <= n
  | _ => True
  end.

(** How many bytes of room a call may ask for. *)
Definition op_bytes (o : buf_op) : Z :=
  match o with
  | OpAppend d | OpPrepend d | OpWrite d => zlen d
  | OpEnsureWritable len => len
  | OpReadFd _ n => n
  | _ => 0
  end.
Definition ops_bytes (os : list buf_op) : Z := foldr (fun o s => op_bytes o + s) 0 os.

Lemma op_bytes_nonneg o : op_ok o -> 0 <= op_bytes o.
Proof. destruct o; simpl; try lia; intros _; apply zlen_nonneg. Qed.

Lemma ops_bytes_nonneg os : Forall op_ok os -> 0 <= ops_bytes os.
Proof. induction 1 as [|o os Ho _ IH]; simpl; [lia|]. apply op_bytes_nonneg in Ho. lia. Qed.

(** *** Each operation against its abstract counterpart *)
Section layouts.
Implicit Types (b : Buffer) (d : list byte) (len : Z).

(** The object on one side, the queue on the other. *)
Definition refines (r : res Buffer) (l : layout) : Prop :=
  exists b', r = Ok b' /\ buf_wf b' /\ layout_of b' = l.

Lemma layout_shape b :
  buf_wf b -> back (layout_of b) = zlen (buffer_ b) - front (layout_of b) - zlen (queue (layout_of b)).
Proof.
  intros Hb. simpl. rewrite writableBytes_wf, zlen_contents by done. unfold prependableBytes. lia.
Qed.

(** A layout is known from the reader index, the contents and the size. *)
Lemma layout_eq b f q n :
  buf_wf b -> readerIndex_ b = f -> contents b = q -> zlen (buffer_ b) = f + zlen q + n ->
  layout_of b = mkLayout f q n.
Proof.
  intros Hb <- <- Hn. pose proof (layout_shape b Hb) as Hs. unfold layout_of in *. simpl in *.
  f_equal. unfold prependableBytes in *. lia.
Qed.

Lemma vector_resize_inv (v : list byte) n v' :
  zlen v <= n -> vector_resize v n = Ok v' -> zlen v' = n.
Proof.
  intros Hn. unfold vector_resize. destruct (n <=? vector_max) eqn:Hm; [|done]. bool_hyps.
  destruct (vector_resize_grow v n) as (v1 & E & Hl & _); [done|].
  unfold vector_resize in E. rewrite (proj2 (Z.leb_le _ _)) in E by done. congruence.
Qed.

Lemma makeSpace_layout b len :
  buf_wf b -> 0 <= len -> writableBytes b < len ->
  zlen (contents b) + 2 * len + kCheapPrepend <= vector_max ->
  refines (makeSpace b len) (spec_ensure (layout_of b) len).
Proof.
  intros Hb Hlen Hw Hmax. destruct (makeSpace_spec b len) as (b' & E & Hb' & Hc & _ & _); [done..|].
  exists b'. split_and!; [done..|]. unfold spec_ensure. cbn [front queue back layout_of].
  rewrite (proj2 (Z.leb_gt _ _)) by done. pose proof (layout_shape b Hb) as Hs. cbn in Hs.
  pose proof Hb as (? & ? & ?). rewrite zlen_contents in * by done. rewrite writableBytes_wf in Hw, Hs by done.
  unfold makeSpace in E. rewrite readableBytes_wf in E by done. rewrite writableBytes_wf in E |- * by done.
  unfold prependableBytes, kCheapPrepend, vector_max in *. rewrite !u64_small in E by lia.
  destruct (_ <? _); simpl in E.
  - destruct (vector_resize _ _) as [v|] eqn:Ev; [|done]. injection E as <-.
    apply vector_resize_inv in Ev; [|lia]. rewrite <- Hc. apply layout_eq; try done.
    simpl in *. rewrite Ev, Hc, zlen_contents by done. lia.
  - revert E. assert_cases; [|done]. rewrite load_Ok by lia. simpl. rewrite store_Ok by (rewrite ?zlen_slice; lia).
    simpl. destruct (assert_ _); [|done]. intros [= <-]. apply layout_eq; try done.
    simpl. rewrite zlen_splice, zlen_contents by (done || rewrite ?zlen_slice; lia). lia.
Qed.

Lemma ensure_layout b len :
  buf_wf b -> 0 <= len -> zlen (contents b) + 2 * len + kCheapPrepend <= vector_max ->
  refines (ensureWritableBytes b len) (spec_ensure (layout_of b) len).
Proof.
  intros Hb Hlen Hmax. destruct (ensureWritableBytes_spec b len) as (b' & E & Hb' & _); [done..|].
  exists b'. split_and!; [done..|]. unfold ensureWritableBytes in E. destruct (writableBytes b <? len) eqn:Hw; bool_hyps.
  - destruct (makeSpace_layout b len) as (b1 & E1 & _ & <-); [done..|].
    rewrite E1 in E. simpl in E. destruct (assert_ _); [|done]. by injection E as <-.
  - simpl in E. destruct (assert_ _); [|done]. injection E as <-. unfold spec_ensure. simpl.
    by rewrite (proj2 (Z.leb_le _ _)) by done.
Qed.

(** Storing at the writer index and moving it. *)
Lemma write_layout b d :
  buf_wf b -> zlen d <= writableBytes b ->
  refines (v ← store (buffer_ b) (writerIndex_ b) d; hasWritten (mkBuffer v (readerIndex_ b) (writerIndex_ b)) (zlen d))
    (spec_write (layout_of b) d).
Proof.
  intros Hb Hd. rewrite writableBytes_wf in Hd by done. destruct (write_contents b d Hb Hd) as (Hwf & Hc & Hl).
  pose proof Hb as (? & ? & ?). pose proof (zlen_nonneg d). rewrite store_Ok by lia. cbn [mbind res_bind].
  unfold hasWritten. rewrite writableBytes_wf.
  2:{ unfold buf_wf in *. simpl in *. lia. }
  simpl in *. rewrite assert_true by (apply Z.leb_le; lia). cbn [mbind res_bind].
  unfold vector_max in *. rewrite u64_small by lia. eexists. split_and!; [done..|].
  apply layout_eq; try done. simpl. rewrite Hl, zlen_app, writableBytes_wf, zlen_contents by done.
  unfold prependableBytes. lia.
Qed.

Lemma append_layout b d :
  buf_wf b -> zlen (contents b) + 2 * zlen d + kCheapPrepend <= vector_max ->
  refines (append b d) (spec_append (layout_of b) d).
Proof.
  intros Hb Hmax. pose proof (zlen_nonneg d).
  destruct (ensure_layout b (zlen d)) as (b1 & E & Hb1 & El); [done..|].
  destruct (ensureWritableBytes_spec b (zlen d)) as (b2 & E2 & _ & _ & Hw & _); [done..|].
  assert (b2 = b1) as -> by congruence. unfold append, spec_append. rewrite E, <- El. cbn [mbind res_bind].
  by apply write_layout.
Qed.

Lemma clear_layout b : buf_wf b -> layout_of (retrieveAll b) = spec_clear (layout_of b).
Proof.
  intros Hb. destruct (retrieveAll_spec b Hb) as [Hb' Hc]. apply layout_eq; try done. simpl.
  rewrite zlen_contents, writableBytes_wf by done. unfold prependableBytes. rewrite zlen_nil. lia.
Qed.

Lemma retrieve_layout b len :
  buf_wf b -> 0 <= len <= zlen (contents b) ->
  refines (retrieve b len) (spec_retrieve (layout_of b) len).
Proof.
  intros Hb Hlen. destruct (retrieve_spec b len) as (b' & E & Hb' & Hc & Hv); [done..|].
  exists b'. split_and!; [done..|]. unfold retrieve in E. rewrite readable_contents in E by done.
  rewrite assert_true in E by (apply Z.leb_le; lia). unfold spec_retrieve. simpl in *.
  destruct (len <? _) eqn:Hl; bool_hyps; injection E as <-; [|by apply clear_layout].
  pose proof Hb as (? & ? & ?). rewrite zlen_contents in Hlen by done. unfold vector_max in *.
  apply layout_eq; try done; simpl.
  - rewrite u64_small by lia. done.
  - rewrite zlen_drop by (rewrite zlen_contents by done; lia). rewrite zlen_contents, writableBytes_wf by done.
    unfold prependableBytes. lia.
Qed.

Lemma retrieveAsString_refines b len :
  buf_wf b -> 0 <= len <= zlen (contents b) ->
  exists b', ('(d, b1) ← retrieveAsString b len; Ok (OutString d, b1)) =
      Ok (OutString (take (Z.to_nat len) (contents b)), b') /\ buf_wf b' /\
    layout_of b' = spec_retrieve (layout_of b) len.
Proof.
  intros Hb Hlen. unfold retrieveAsString. rewrite readable_contents by done.
  rewrite assert_true by (apply Z.leb_le; lia). cbn [mbind res_bind]. rewrite peek_spec by done. cbn [mbind res_bind].
  destruct (retrieve_layout b len) as (b' & -> & ? & ?); [done..|]. cbn [mbind res_bind]. by exists b'.
Qed.

Lemma prepend_layout b d :
  buf_wf b -> zlen d <= prependableBytes b ->
  refines (prepend b d) (mkLayout (prependableBytes b - zlen d) (d ++ contents b) (writableBytes b)).
Proof.
  intros Hb Hd. destruct (prepend_spec b d Hb Hd) as (b' & E & Hb' & Hc). exists b'. split_and!; [done..|].
  pose proof Hb as (? & ? & ?). pose proof (zlen_nonneg d). unfold prepend, prependableBytes, vector_max in *.
  rewrite assert_true in E by (apply Z.leb_le; lia). simpl in E. rewrite u64_small in E by lia.
  rewrite store_Ok in E by lia. injection E as <-. apply layout_eq; try done. simpl.
  rewrite zlen_splice, zlen_app, zlen_contents, writableBytes_wf by (done || lia). lia.
Qed.

Lemma user_write_refines b d :
  buf_wf b ->
  if zlen d <=? writableBytes b then refines (user_write b d) (spec_write (layout_of b) d)
  else user_write b d = Fault AssertFail.
Proof.
  intros Hb. pose proof Hb as (? & ? & ?). unfold user_write. destruct (zlen d <=? writableBytes b) eqn:Hd; bool_hyps.
  - rewrite take_ge by (unfold zlen in *; lia). by apply write_layout.
  - rewrite writableBytes_wf in * by done.
    assert (zlen (take (Z.to_nat (zlen (buffer_ b) - writerIndex_ b)) d) = zlen (buffer_ b) - writerIndex_ b) as Ht.
    { unfold zlen in *. rewrite length_take. lia. }
    rewrite store_Ok by lia. cbn [mbind res_bind]. unfold hasWritten, writableBytes. cbn [buffer_ writerIndex_].
    rewrite zlen_splice by lia. unfold vector_max in *. rewrite (u64_small (zlen (buffer_ b) - writerIndex_ b)) by lia.
    by rewrite (proj2 (Z.leb_gt _ _)) by done.
Qed.

Lemma readFd_layout readv b d :
  buf_wf b -> zlen (contents b) + 2 * zlen d + kCheapPrepend <= vector_max ->
  readv (readFd_iov (writableBytes b)) = inr d ->
  exists b', readFd readv b = Ok (zlen d, None, b') /\ buf_wf b' /\
    layout_of b' = spec_append (spec_write (layout_of b) (take (Z.to_nat (writableBytes b)) d))
      (drop (Z.to_nat (writableBytes b)) d).
Proof.
  intros Hb Hmax E. pose proof Hb as (? & ? & ?). unfold readFd. rewrite E.
  pose proof (zlen_nonneg d). set (wr := writableBytes b). pose proof (writableBytes_wf b Hb) as Hwr. fold wr in Hwr.
  assert (zlen (take (Z.to_nat wr) d) = Z.min wr (zlen d)) as Ht by (unfold zlen; rewrite length_take; lia).
  destruct (write_layout b (take (Z.to_nat wr) d)) as (b1 & E1 & Hb1 & El); [done|fold wr; lia|].
  rewrite store_Ok in E1 |- * by lia. cbn [mbind res_bind] in E1 |- *. unfold hasWritten in E1.
  cbn [buffer_ readerIndex_ writerIndex_] in E1. destruct (assert_ _); [|done]. cbn [mbind res_bind] in E1.
  injection E1 as E1. rewrite Ht in E1. rewrite <- El. destruct (zlen d <=? wr) eqn:Hd; bool_hyps.
  - rewrite Z.min_r in E1 by lia. exists b1. rewrite E1. split_and!; [done..|].
    rewrite drop_ge by (unfold zlen in *; lia). unfold spec_append, spec_ensure, spec_write. rewrite zlen_nil.
    rewrite (proj2 (Z.leb_le _ _)).
    2:{ rewrite El. simpl. fold wr. lia. }
    by rewrite app_nil_r, Z.sub_0_r.
  - rewrite Z.min_l in E1 by lia. unfold vector_max in *. rewrite u64_small in E1 by lia.
    rewrite zlen_splice by lia. replace (zlen (buffer_ b)) with (writerIndex_ b + wr) by lia. rewrite E1.
    destruct (append_layout b1 (drop (Z.to_nat wr) d)) as (b' & -> & ? & ?); [done| |by exists b'].
    assert (contents b1 = contents b ++ take (Z.to_nat wr) d) as Hc by (by injection El).
    unfold vector_max. rewrite Hc, zlen_app, zlen_drop by lia. lia.
Qed.
End layouts.

(** How much a call adds to the queue. *)
Lemma spec_step_bytes l o out l' :
  op_ok o -> spec_step l o = Ok (out, l') -> zlen (queue l') <= zlen (queue l) + op_bytes o.
Proof.
  assert (forall l len, queue (spec_ensure l len) = queue l) as He.
  { intros l0 len. unfold spec_ensure. by repeat case_match. }
  assert (forall l len, 0 <= len -> zlen (queue (spec_retrieve l len)) <= zlen (queue l)) as Hr.
  { intros l0 len Hlen. unfold spec_retrieve. case_match; simpl; bool_hyps; [rewrite zlen_drop by lia; lia|].
    rewrite zlen_nil. apply zlen_nonneg. }
  pose proof (zlen_nonneg (queue l)).
  destruct o as [d|d|len|d|readv n|len| |len|]; simpl; intros Hok; try assert_cases; try (intros [= <- <-]); try done;
    rewrite ?He; simpl; rewrite ?He, ?zlen_app, ?zlen_nil; try lia.
  - destruct (readv _) as [err|d] eqn:E; intros [= <- <-]; [lia|]. simpl. rewrite He. simpl.
    rewrite <- app_assoc, take_drop, zlen_app. apply Hok in E. lia.
  - by specialize (Hr l len Hok); lia.
  - by specialize (Hr l len Hok); lia.
Qed.

(** One call: the object and the queue fail alike or return the same, and
    the object's layout stays the queue's. *)
Lemma buf_step_refines b o :
  buf_wf b -> op_ok o ->
  zlen (contents b) + 2 * op_bytes o + kCheapPrepend <= vector_max ->
  match spec_step (layout_of b) o with
  | Ok (out, l) => exists b', buf_step b o = Ok (out, b') /\ buf_wf b' /\ layout_of b' = l
  | Fault f => buf_step b o = Fault f
  end.
Proof.
  assert (forall (out : buf_out) r l, refines r l ->
    exists b', (b1 ← r; Ok (out, b1)) = Ok (out, b') /\ buf_wf b' /\ layout_of b' = l) as Hlift.
  { intros out r l (b' & -> & ? & ?). by exists b'. }
  intros Hb Hok Hmax. destruct o as [d|d|len|d|readv n|len| |len|]; simpl in *.
  - by apply Hlift, append_layout.
  - assert_cases; [by apply Hlift, prepend_layout|]. unfold prepend. by rewrite (proj2 (Z.leb_gt _ _)).
  - by apply Hlift, ensure_layout.
  - pose proof (user_write_refines b d Hb) as Hw. destruct (zlen d <=? writableBytes b); simpl; [by apply Hlift|].
    by rewrite Hw.
  - destruct (readv _) as [err|d] eqn:E.
    + exists b. unfold readFd. by rewrite E.
    + destruct Hok as [Hn Hd]. specialize (Hd _ _ E).
      destruct (readFd_layout readv b d) as (b' & -> & ? & ?); [done|lia|done|]. simpl. eauto.
  - assert_cases; [|by rewrite retrieve_too_much]. apply Hlift, retrieve_layout; done || lia.
  - eexists. split_and!; [done|by apply retrieveAll_spec|by apply clear_layout].
  - assert_cases; [|by rewrite retrieveAsString_too_much]. by apply retrieveAsString_refines; [|lia].
  - unfold retrieveAllAsString. rewrite readable_contents by done.
    destruct (retrieveAsString_refines b (zlen (contents b)) Hb) as (b' & -> & ? & E).
    { split; [apply zlen_nonneg|done]. }
    exists b'. unfold spec_retrieve in E. simpl in E. rewrite Z.ltb_irrefl in E.
    rewrite take_ge by (unfold zlen; lia). eauto.
Qed.

(** ** Properties *)

(** C15: any sequence of calls on a well-formed buffer (append, prepend,
    ensureWritableBytes, writing through beginWrite and hasWritten, readFd with any
    answers of the kernel, and the retrieves) behaves as on an abstract queue of
    bytes with room in front and behind: it returns the same strings and read
    results, offers [readv] exactly the free room, fails on the same call with
    the same failed [assert] (retrieving more than is readable, prepending or
    having written more than fits), never touches memory outside the vector, and
    leaves the readable bytes, the prependable and the writable room equal to the
    abstract ones.  The bound says that the bytes handled stay below the maximal
    size of a vector. *)
Theorem buffer_refines_queue os b :
  buf_wf b -> Forall op_ok os ->
  zlen (contents b) + 2 * ops_bytes os + kCheapPrepend <= vector_max ->
  match run_ops spec_step (layout_of b) os with
  | Ok (outs, l) => exists b', run_ops buf_step b os = Ok (outs, b') /\ buf_wf b' /\ layout_of b' = l
  | Fault f => run_ops buf_step b os = Fault f
  end.
Proof.
  revert b. induction os as [|o os IH]; intros b Hb Hok Hmax; simpl; [eauto|].
  apply Forall_cons in Hok as [Ho Hos]. simpl in Hmax.
  pose proof (ops_bytes_nonneg os Hos) as Hnn. pose proof (op_bytes_nonneg o Ho).
  pose proof (buf_step_refines b o Hb Ho ltac:(lia)) as Hstep.
  destruct (spec_step (layout_of b) o) as [[out l]|f] eqn:Es; [|by rewrite Hstep].
  apply (spec_step_bytes _ _ _ _ Ho) in Es.
  destruct Hstep as (b' & -> & Hb' & <-). cbn [mbind res_bind]. simpl in Es.
  specialize (IH b' Hb' Hos ltac:(lia)).
  destruct (run_ops spec_step (layout_of b') os) as [[outs l]|f]; simpl.
  - destruct IH as (b'' & -> & ? & ?). simpl. eauto.
  - by rewrite IH.
Qed.

Definition small_buffer : Buffer := mkBuffer (replicate 12 x00) 8 8.
Definition sample_ops : list buf_op :=
  [OpAppend [x61; x62; x63]; OpRetrieve 2; OpPrepend [x78; x79]; OpAppend [x64; x65; x66; x67];
   OpRetrieveAsString 3; OpEnsureWritable 5; OpWrite [x68];
   OpReadFd (fun iov => inr (take (Z.to_nat (foldr Z.add 0 iov)) [x69; x6a; x6b; x6c; x6d; x6e])) 6;
   OpReadFd (fun _ => inl 11) 0; OpRetrieveAllAsString; OpPrepend (replicate 8 x01)].

Lemma buffer_refines_queue_witness :
  exists b', run_ops buf_step small_buffer sample_ops =
    Ok ([OutNone; OutNone; OutNone; OutNone; OutString [x78; x79; x63]; OutNone; OutNone; OutRead 6 None;
         OutRead (-1) (Some 11); OutString [x64; x65; x66; x67; x68; x69; x6a; x6b; x6c; x6d; x6e]; OutNone], b') /\
    buf_wf b' /\ layout_of b' = mkLayout 0 (replicate 8 x01) 12.
Proof.
  apply (buffer_refines_queue sample_ops small_buffer).
  - by apply (bool_decide_unpack _).
  - repeat constructor; try discriminate. intros iov d [= <-].
    unfold zlen. rewrite length_take. simpl. lia.
  - vm_compute. discriminate.
Defined.

(** [append] on a well-formed buffer always succeeds (no failed [assert],
    no access outside the vector), adds exactly the given bytes after the
    readable ones, and the vector it leaves is no larger than before or than
    the readable bytes plus twice the appended ones plus the 8 bytes of
    headroom: the buffer reuses the space of retrieved bytes before it grows. *)
Theorem append_correct b d :
  buf_wf b -> zlen (contents b) + 2 * zlen d + kCheapPrepend <= vector_max ->
  exists b', append b d = Ok b' /\ buf_wf b' /\ contents b' = contents b ++ d /\
    zlen (buffer_ b') <= Z.max (zlen (buffer_ b)) (zlen (contents b) + 2 * zlen d + kCheapPrepend).
Proof. apply append_spec. Qed.

Definition moved_buffer : Buffer := mkBuffer (replicate 10 x00 ++ [x41; x42]) 10 12.

Lemma append_correct_witness :
  exists b', append moved_buffer [x43; x44] = Ok b' /\ buf_wf b' /\
    contents b' = [x41; x42; x43; x44] /\ zlen (buffer_ b') <= 14.
Proof.
  apply (append_correct moved_buffer [x43; x44]).
  - by apply (bool_decide_unpack _).
  - vm_compute. discriminate.
Defined.

(** [readFd] returns what the system call returned.  On an error it
    stores [errno] and leaves the buffer as it was; otherwise exactly the
    bytes read are appended to the readable ones, wherever [readv] scattered
    them (the vector or the 64 KiB stack buffer), and when the stack buffer is
    offered at most 128 KiB - 1 bytes are read. *)
Theorem readFd_correct readv b :
  readv_ok readv -> buf_wf b ->
  zlen (contents b) + zlen (buffer_ b) + 3 * extrabuf_size <= vector_max ->
  exists n e b', readFd readv b = Ok (n, e, b') /\ buf_wf b' /\
    ((n = -1 /\ is_Some e /\ b' = b) \/
     exists bytes, n = zlen bytes /\ e = None /\ contents b' = contents b ++ bytes /\
       n <= Z.max (writableBytes b) (128 * 1024 - 1)).
Proof.
  intros Hrv Hb Hmax.
  destruct (readv (readFd_iov (writableBytes b))) as [err|bytes] eqn:E.
  - exists (-1), (Some err), b. unfold readFd. rewrite E. split_and!; [done..|]. left. eauto.
  - destruct (readFd_ok readv b bytes) as (b' & -> & ? & ? & _); [done..|].
    exists (zlen bytes), None, b'. split_and!; [done..|]. right. exists bytes.
    split_and!; [done..|]. apply Hrv in E; [|apply iov_nonneg]. unfold readFd_iov, extrabuf_size in *.
    destruct (writableBytes b <? 65536) eqn:?; bool_hyps; simpl in E; lia.
Qed.

Lemma readFd_correct_witness :
  exists n e b', readFd (fun iov => inr (take (Z.to_nat (foldr Z.add 0 iov))
      [x61; x62; x63; x64; x65; x66])) small_buffer = Ok (n, e, b')
    /\ buf_wf b' /\
    ((n = -1 /\ is_Some e /\ b' = small_buffer) \/
     exists bytes, n = zlen bytes /\ e = None /\ contents b' = [] ++ bytes /\
       n <= Z.max (writableBytes small_buffer) (128 * 1024 - 1)).
Proof.
  apply (readFd_correct (fun iov => inr (take (Z.to_nat (foldr Z.add 0 iov))
    [x61; x62; x63; x64; x65; x66])) small_buffer).
  - intros iov bytes Hiov [= <-]. unfold zlen. rewrite length_take.
    assert (0 <= foldr Z.add 0 iov) by (induction Hiov; simpl; lia). lia.
  - by apply (bool_decide_unpack _).
  - vm_compute. discriminate.
Defined.

(** [prepend] succeeds exactly when the data fits in front of the
    readable bytes, and then puts it there; in particular what was just
    retrieved (less than everything) can be pushed back. *)
Theorem prepend_correct b d :
  buf_wf b ->
  if zlen d <=? prependableBytes b
  then exists b', prepend b d = Ok b' /\ buf_wf b' /\ contents b' = d ++ contents b
  else prepend b d = Fault AssertFail.
Proof.
  intros Hb. destruct (zlen d <=? prependableBytes b) eqn:E; bool_hyps.
  - by apply prepend_spec.
  - unfold prepend. by rewrite (proj2 (Z.leb_gt _ _)) by lia.
Qed.

Lemma prepend_correct_witness :
  exists b', prepend small_buffer [x01; x02; x03; x04] = Ok b' /\ buf_wf b' /\
    contents b' = [x01; x02; x03; x04].
Proof. apply (prepend_correct small_buffer [x01; x02; x03; x04]). by apply (bool_decide_unpack _). Defined.
