(* ===== verification/CircularBuffer.v ===== *)
(** * CircularBuffer: the mirrored ring of bytes

    Models [include/hvnetpp/CircularBuffer.h] and [src/CircularBuffer.cpp]:
    the construction of the double mapping, with the system calls it makes
    and their failures, and the position arithmetic on the 32-bit [head_] and
    [tail_] counters.  Addresses and file descriptors are integers; the
    results of the system calls are the fields of [mirror_env]. *)

From S2P Require Import Prelude.

(** ** The object *)
Record CircularBuffer : Type := mkCB {
  size_ : Z;            (* size_t *)
  data_ : option Z;     (* nullptr is None *)
  head_ : Z;            (* std::atomic<unsigned int> *)
  tail_ : Z
}.

(** ** System calls made by the construction *)
Definition MAP_FAILED : Z := 2 ^ 64 - 1.

(** Results: [mkstemp]'s descriptor, the returns of [unlink] and [ftruncate],
    and the addresses the three [mmap] calls return.  A call of [mmap] without
    [MAP_FIXED] never returns the null address. *)
Record mirror_env : Type := mkEnv {
  env_mkstemp : Z;
  env_unlink : Z;
  env_ftruncate : Z;
  env_mmap_reserve : Z;
  env_mmap_low : Z;
  env_mmap_high : Z;
  env_mmap_nonnull : (env_mmap_reserve =? 0) = false
}.

Inductive sys_call : Type :=
| SysMkstemp (ret : Z)
| SysUnlink (ret : Z)
| SysFtruncate (fd len ret : Z)
| SysMmapReserve (len ret : Z)
| SysMmapFixed (addr len fd ret : Z)
| SysMunmap (addr len : Z)
| SysClose (fd : Z).

(** [createBufferMirror]: the new [data_] and the calls made, in order. *)
Definition createBufferMirror (env : mirror_env) (size : Z) : option Z * list sys_call :=
  let fd := env_mkstemp env in
  let c1 := [SysMkstemp fd] in
  if fd <? 0 then (None, c1) else
  let c2 := c1 ++ [SysUnlink (env_unlink env)] in
  if negb (env_unlink env =? 0) then (None, c2 ++ [SysClose fd]) else
  let c3 := c2 ++ [SysFtruncate fd size (env_ftruncate env)] in
  if negb (env_ftruncate env =? 0) then (None, c3 ++ [SysClose fd]) else
  let data := env_mmap_reserve env in
  let c4 := c3 ++ [SysMmapReserve (u64 (size * 2)) data] in
  if data =? MAP_FAILED then (None, c4 ++ [SysClose fd]) else
  let c5 := c4 ++ [SysMmapFixed data size fd (env_mmap_low env)] in
  if negb (env_mmap_low env =? data)
  then (None, c5 ++ [SysMunmap data (u64 (size * 2)); SysClose fd]) else
  let c6 := c5 ++ [SysMmapFixed (u64 (data + size)) size fd (env_mmap_high env)] in
  if negb (env_mmap_high env =? u64 (data + size))
  then (None, c6 ++ [SysMunmap data (u64 (size * 2)); SysClose fd]) else
  (if data =? 0 then None else Some data, c6 ++ [SysClose fd]).

(** The constructor and the destructor. *)
Definition CircularBuffer_new (env : mirror_env) (order : Z) : CircularBuffer * list sys_call :=
  let size := u64 (Z.shiftl 1 order) in
  let '(data, calls) := createBufferMirror env size in
  (mkCB size data 0 0, calls).

Definition CircularBuffer_delete (cb : CircularBuffer) : list sys_call :=
  match data_ cb with
  | Some data => [SysMunmap data (u64 (Z.shiftl (size_ cb) 1))]
  | None => []
  end.

Definition isValid (cb : CircularBuffer) : bool := bool_decide (is_Some (data_ cb)).

(** ** Positions *)
Definition cb_offset (size pos : Z) : Z := Z.land pos (size - 1).

Definition getPointer (cb : CircularBuffer) (offset : Z) : option Z :=
  data ← data_ cb; Some (data + cb_offset (size_ cb) offset).
Definition headPtr (cb : CircularBuffer) : option Z := getPointer cb (head_ cb).
Definition tailPtr (cb : CircularBuffer) : option Z := getPointer cb (tail_ cb).

(** ** Resources held by the process

    Replaying the calls: the descriptors open and the regions reserved. *)
Record resources : Type := mkRes { open_fds : list Z; regions : list (Z * Z) }.

Definition replay_call (r : resources) (c : sys_call) : resources :=
  match c with
  | SysMkstemp fd => if 0 <=? fd then mkRes (fd :: open_fds r) (regions r) else r
  | SysMmapReserve len a =>
      if a =? MAP_FAILED then r else mkRes (open_fds r) ((a, len) :: regions r)
  | SysMunmap a len => mkRes (open_fds r) (filter (fun x => x <> (a, len)) (regions r))
  | SysClose fd => mkRes (filter (fun x => x <> fd) (open_fds r)) (regions r)
  | _ => r
  end.
Definition replay (cs : list sys_call) : resources := foldl replay_call (mkRes [] []) cs.

Definition both_halves (cs : list sys_call) (data size fd : Z) : Prop :=
  SysMmapFixed data size fd data ∈ cs /\
  SysMmapFixed (u64 (data + size)) size fd (u64 (data + size)) ∈ cs.

(** ** Lemmas on positions *)
Lemma cb_offset_mod order pos :
  0 <= order -> cb_offset (2 ^ order) pos = pos mod 2 ^ order.
Proof.
  intros. unfold cb_offset. rewrite <- Z.land_ones by done. by rewrite Z.ones_equiv.
Qed.

(** The counters wrap at [2 ^ 32], a multiple of the size: wrapping them
    does not move the position. *)
Lemma cb_offset_u32 order pos :
  0 <= order <= 32 -> cb_offset (2 ^ order) (u32 pos) = cb_offset (2 ^ order) pos.
Proof.
  intros. rewrite !cb_offset_mod by lia. unfold u32.
  replace 32 with (order + (32 - order)) by lia. rewrite Z.pow_add_r by lia.
  rewrite Z.rem_mul_r by lia. rewrite (Z.mul_comm (2 ^ order)), Z.mod_add by lia.
  apply Z.mod_mod. lia.
Qed.

(** Two positions less than one turn apart fall on the same place only if
    they are equal. *)
Lemma cb_offset_inj order p q :
  0 <= order -> cb_offset (2 ^ order) p = cb_offset (2 ^ order) q ->
  Z.abs (p - q) < 2 ^ order -> p = q.
Proof.
  intros Ho. rewrite !cb_offset_mod by done. intros E Habs.
  assert (0 < 2 ^ order) by lia.
  pose proof (Z.div_mod p (2 ^ order)). pose proof (Z.div_mod q (2 ^ order)).
  assert (p / 2 ^ order = q / 2 ^ order) by nia. nia.
Qed.

Lemma u32_congr_eq a b : u32 a = u32 b -> 0 <= b - a < 2 ^ 32 -> a = b.
Proof.
  unfold u32. intros E H.
  pose proof (Z.div_mod a (2 ^ 32)). pose proof (Z.div_mod b (2 ^ 32)).
  assert (a / 2 ^ 32 = b / 2 ^ 32) by nia. nia.
Qed.

Lemma u32_sub a b : u32 (u32 a - u32 b) = u32 (a - b).
Proof. unfold u32. by rewrite Zminus_mod_idemp_l, Zminus_mod_idemp_r. Qed.

Lemma u32_add_l a b : u32 (u32 a + b) = u32 (a + b).
Proof. unfold u32. by rewrite Zplus_mod_idemp_l. Qed.

(** ** Properties *)

(** C34: constructing a ring never leaks: whatever the system calls return,
    the temporary file's descriptor is closed again, and the only region left
    reserved is the one of twice the size that [data_] points to; when the
    construction fails [data_] is null and nothing is left.  On success both
    halves map the same file. *)
Theorem createBufferMirror_resources env order :
  let '(cb, calls) := CircularBuffer_new env order in
  open_fds (replay calls) = [] /\
  match data_ cb with
  | Some data => regions (replay calls) = [(data, u64 (size_ cb * 2))] /\
      both_halves calls data (size_ cb) (env_mkstemp env) /\
      regions (replay (calls ++ CircularBuffer_delete cb)) = []
  | None => regions (replay calls) = [] /\ CircularBuffer_delete cb = []
  end.
Proof.
  unfold CircularBuffer_new, createBufferMirror. set (size := u64 _).
  destruct env as [fd un ft rv lo hi Hnn]; simpl. rewrite Hnn.
  repeat (case_match; simpl; simplify_eq; bool_hyps; subst; try lia).
  all: unfold replay, CircularBuffer_delete, both_halves; simpl;
    repeat (case_match; simpl; bool_hyps; try lia).
  all: rewrite ?Z.shiftl_mul_pow2 by lia.
  all: repeat first [rewrite filter_cons_False by naive_solver | rewrite filter_nil].
  all: try by split.
  split_and!; [done..| | |done]; set_solver.
Qed.
