(* ===== verification/MpscQueue.v ===== *)
(** * MpscQueue: the lock-free queue of pending functors

    Models [include/hvnetpp/MpscQueue.h] over the ring of
    [CircularBuffer].  First each member function as a whole ([reserve],
    [commit], [peek], [consume]), as one thread executes it alone; then the
    interleaved execution of any number of producers and the one consumer as
    a step relation [step] whose steps are the atomic accesses of those
    functions.  Memory is sequentially consistent.

    A [Node] holds the task ([None] is a null functor pointer) and the [id]
    that [commit] sets; the memory of the ring is a map from offsets to nodes,
    zero where nothing was written. *)

From S2P Require Import Prelude CircularBuffer.

Section mpsc.
Context {F : Type}.

(** ** The object *)
Record Node : Type := mkNode { node_data : option F; node_id : Z }.
Definition zero_node : Node := mkNode None 0.

(** [sizeof(Node)], by the padding and the [static_assert]. *)
Definition nodeSize : Z := 64.

Record MpscQueue : Type := mkQueue {
  ring : CircularBuffer;
  nodes : gmap Z Node
}.

Definition node_at (q : MpscQueue) (off : Z) : Node := default zero_node (nodes q !! off).
Definition set_node (q : MpscQueue) (off : Z) (n : Node) : MpscQueue :=
  mkQueue (ring q) (<[off := n]> (nodes q)).
Definition set_head (q : MpscQueue) (h : Z) : MpscQueue :=
  mkQueue (mkCB (size_ (ring q)) (data_ (ring q)) h (tail_ (ring q))) (nodes q).
Definition set_tail (q : MpscQueue) (t : Z) : MpscQueue :=
  mkQueue (mkCB (size_ (ring q)) (data_ (ring q)) (head_ (ring q)) t) (nodes q).

(** Pointers to nodes are offsets into the ring: [getPointer] minus [data_]. *)
Definition q_offset (q : MpscQueue) (pos : Z) : Z := cb_offset (size_ (ring q)) pos.

Definition MpscQueue_new (env : mirror_env) (size_order : Z) : MpscQueue :=
  mkQueue (CircularBuffer_new env size_order).1 ∅.

Definition mq_isValid (q : MpscQueue) : bool := isValid (ring q).

(** The test of [reserve]: is there no room for one more node?  All the
    arithmetic is on [unsigned int]. *)
Definition is_full (q : MpscQueue) (r w : Z) : bool :=
  u32 (u32 (size_ (ring q)) - nodeSize) <? u32 (w - r).

(** ** The member functions *)

(** [reserve]: [spurious] is the number of times [compare_exchange_weak]
    fails although the counter is unchanged. *)
Fixpoint reserve (spurious : nat) (q : MpscQueue) : option Z * MpscQueue :=
  if negb (mq_isValid q) then (None, q) else
  let r := head_ (ring q) in
  let w := tail_ (ring q) in
  if is_full q r w then (None, q) else
  match spurious with
  | S n => reserve n q
  | O => (Some (q_offset q w), set_tail q (u32 (w + nodeSize)))
  end.

Definition commit (q : MpscQueue) (node : option Z) (id : Z) : MpscQueue :=
  match node with
  | None => q
  | Some off => set_node q off (mkNode (node_data (node_at q off)) (u32 id))
  end.

Definition peek (q : MpscQueue) : option Z :=
  if negb (mq_isValid q) then None else
  if head_ (ring q) =? tail_ (ring q) then None else
  let off := q_offset q (head_ (ring q)) in
  if negb (node_id (node_at q off) =? 0) then Some off else None.

Definition consume (q : MpscQueue) (node : option Z) : MpscQueue :=
  if negb (mq_isValid q) then q else
  match node with
  | None => q
  | Some off =>
      set_head (set_node q off zero_node) (u32 (head_ (ring q) + nodeSize))
  end.

(** What the producer does between [reserve] and [commit]:
    [node->data.functorPtr = p]. *)
Definition write_data (q : MpscQueue) (off : Z) (f : F) : MpscQueue :=
  set_node q off (mkNode (Some f) (node_id (node_at q off))).

(** ** Interleaved execution

    Where a producer stands in [reserve]; [write]; [commit], and the
    consumer in [peek]; run; [consume].  [gr] and [gt] are history
    variables: the values of the unbounded counters behind the 32-bit
    ones when the thread loaded them.  No guard reads a history variable. *)
Inductive pstate : Type :=
| PIdle
| PStart (f : F)
| PHead (f : F) (r gr : Z)
| PTail (f : F) (w gr gt : Z)
| PReserved (f : F) (off gi : Z)
| PWritten (f : F) (off gi : Z).

Inductive cstate : Type :=
| CIdle
| CPeeked (off : Z)
| CRan (off : Z)
| CZeroed.

Record sys : Type := mkSys {
  queue : MpscQueue;
  prods : gmap nat pstate;
  cons : cstate;
  ghead : Z;                  (* history: bytes consumed since the start *)
  gtail : Z;                  (* history: bytes reserved since the start *)
  hist : list F;              (* history: tasks in the order of their reservation *)
  ran : list F                (* history: tasks in the order they were run *)
}.

Definition pstate_of (s : sys) (t : nat) : pstate := default PIdle (prods s !! t).
Definition set_prod (s : sys) (t : nat) (p : pstate) : sys :=
  mkSys (queue s) (<[t := p]> (prods s)) (cons s) (ghead s) (gtail s) (hist s) (ran s).
Definition set_cons (s : sys) (c : cstate) : sys :=
  mkSys (queue s) (prods s) c (ghead s) (gtail s) (hist s) (ran s).
Definition set_queue (s : sys) (q : MpscQueue) : sys :=
  mkSys q (prods s) (cons s) (ghead s) (gtail s) (hist s) (ran s).

Inductive step (s : sys) : sys -> Prop :=
| step_call t f :                              (* a thread calls reserve() for task f *)
    pstate_of s t = PIdle ->
    step s (set_prod s t (PStart f))
| step_load_head t f :                         (* r = headAtomic().load() *)
    pstate_of s t = PStart f ->
    step s (set_prod s t (PHead f (head_ (ring (queue s))) (ghead s)))
| step_full t f r gr :                         (* w = tailAtomic().load(); full: nullptr *)
    pstate_of s t = PHead f r gr ->
    is_full (queue s) r (tail_ (ring (queue s))) = true ->
    step s (set_prod s t PIdle)
| step_load_tail t f r gr :                    (* w = tailAtomic().load(); there is room *)
    pstate_of s t = PHead f r gr ->
    is_full (queue s) r (tail_ (ring (queue s))) = false ->
    step s (set_prod s t (PTail f (tail_ (ring (queue s))) gr (gtail s)))
| step_cas_fail t f w gr gt :                  (* compare_exchange_weak fails: next turn *)
    pstate_of s t = PTail f w gr gt ->
    step s (set_prod s t (PStart f))
| step_cas t f w gr gt :                       (* compare_exchange_weak succeeds *)
    pstate_of s t = PTail f w gr gt ->
    tail_ (ring (queue s)) = w ->
    step s (mkSys (set_tail (queue s) (u32 (w + nodeSize)))
              (<[t := PReserved f (q_offset (queue s) w) (gtail s)]> (prods s)) (cons s)
              (ghead s) (gtail s + nodeSize) (hist s ++ [f]) (ran s))
| step_write t f off gi :                      (* node->data = task *)
    pstate_of s t = PReserved f off gi ->
    step s (set_prod (set_queue s (write_data (queue s) off f)) t (PWritten f off gi))
| step_commit t f off gi :                     (* node->id.store(1) *)
    pstate_of s t = PWritten f off gi ->
    step s (set_prod (set_queue s (commit (queue s) (Some off) 1)) t PIdle)
| step_peek off :                              (* peek() returns a node *)
    cons s = CIdle ->
    peek (queue s) = Some off ->
    step s (set_cons s (CPeeked off))
| step_run off f :                             (* the task of the node is run *)
    cons s = CPeeked off ->
    node_data (node_at (queue s) off) = Some f ->
    step s (mkSys (queue s) (prods s) (CRan off) (ghead s) (gtail s) (hist s) (ran s ++ [f]))
| step_skip off :                              (* a null functor pointer is not called *)
    cons s = CPeeked off ->
    node_data (node_at (queue s) off) = None ->
    step s (set_cons s (CRan off))
| step_zero off :                              (* consume(): memset(node, 0, 64) *)
    cons s = CRan off ->
    step s (set_cons (set_queue s (set_node (queue s) off zero_node)) CZeroed)
| step_advance :                               (* consume(): headAtomic().fetch_add(64) *)
    cons s = CZeroed ->
    step s (mkSys (set_head (queue s) (u32 (head_ (ring (queue s)) + nodeSize)))
              (prods s) CIdle (ghead s + nodeSize) (gtail s) (hist s) (ran s)).

(** The system at the start: an empty ring of [2 ^ order] bytes. *)
Definition init_sys (order data : Z) : sys :=
  mkSys (mkQueue (mkCB (2 ^ order) (Some data) 0 0) ∅) ∅ CIdle 0 0 [] [].

(** The 32-bit counters repeat after [2 ^ 32 / 64] reservations.  A state is
    [windowed] when no producer is suspended between its load of [head_] and
    its compare-and-swap for that long; [reach] are the states of the
    executions in which this holds. *)
Definition windowed (s : sys) : Prop :=
  forall t, match pstate_of s t with
            | PHead _ _ gr | PTail _ _ gr _ => gtail s - gr < 2 ^ 32
            | _ => True
            end.

Inductive reach (order data : Z) : sys -> Prop :=
| reach_init : reach order data (init_sys order data)
| reach_step s s' : reach order data s -> windowed s -> step s s' -> reach order data s'.
End mpsc.

#[global] Instance cstate_eq_dec : EqDecision cstate.
Proof. solve_decision. Defined.

Arguments Node : clear implicits.
Arguments MpscQueue : clear implicits.
Arguments pstate : clear implicits.
Arguments sys : clear implicits.

(** ** Ownership of the slots

    [slots_inv] describes the memory of the ring during an execution: [own t]
    is the reservation a producer holds (task, position, whether the task was
    written), [h] and [e] the unbounded head and tail. *)
Section slots.
Context {F : Type} (order : Z).
Context (Horder : 6 <= order <= 31).
Implicit Types (nd : Z -> Node F) (own : nat -> option (F * Z * bool)).
Implicit Types (h e g : Z) (hs : list F) (c : cstate).

Definition offs (g : Z) : Z := cb_offset (2 ^ order) g.
Definition idx (g : Z) : nat := Z.to_nat (g / nodeSize).
Definition live h e g : Prop := h <= g < e /\ g mod nodeSize = 0.

Record slots_inv nd own h e hs c : Prop := mkSlots {
  si_range : 0 <= h <= e /\ e - h <= 2 ^ order /\ h mod nodeSize = 0 /\ e mod nodeSize = 0;
  si_hist : Z.of_nat (length hs) * nodeSize = e;
  si_own t f g wr : own t = Some (f, g, wr) ->
    live h e g /\ hs !! idx g = Some f /\
    nd (offs g) = mkNode (if wr then Some f else None) 0 /\ (c <> CIdle -> g <> h);
  si_excl t1 t2 f1 f2 g w1 w2 :
    own t1 = Some (f1, g, w1) -> own t2 = Some (f2, g, w2) -> t1 = t2;
  si_live g : live h e g ->
    (exists t f wr, own t = Some (f, g, wr)) \/
    (exists f, hs !! idx g = Some f /\ nd (offs g) = mkNode (Some f) 1) \/
    (c = CZeroed /\ g = h);
  si_free off : (forall g, live h e g -> offs g <> off) -> nd off = zero_node;
  si_cons : match c with
    | CIdle => True
    | CPeeked off | CRan off => off = offs h /\ h < e /\
        exists f, hs !! idx h = Some f /\ nd (offs h) = mkNode (Some f) 1
    | CZeroed => h < e /\ nd (offs h) = zero_node
    end
}.

(** Two live positions with the same offset are the same. *)
Lemma live_offs_inj h e g g' :
  e - h <= 2 ^ order -> live h e g -> live h e g' -> offs g = offs g' -> g = g'.
Proof.
  unfold live, offs. intros He [? _] [? _] E. apply (cb_offset_inj order) in E; lia.
Qed.

Lemma idx_lt hs e g :
  Z.of_nat (length hs) * nodeSize = e -> 0 <= g < e -> (idx g < length hs)%nat.
Proof.
  unfold idx, nodeSize. intros.
  pose proof (Z.div_lt_upper_bound g 64 (Z.of_nat (length hs))). lia.
Qed.

Lemma idx_end hs e : Z.of_nat (length hs) * nodeSize = e -> idx e = length hs.
Proof. unfold idx, nodeSize. intros <-. rewrite Z.div_mul by lia. lia. Qed.

Lemma mod64_next g : g mod nodeSize = 0 -> (g + nodeSize) mod nodeSize = 0.
Proof. unfold nodeSize. intros. rewrite <- (Z.mul_1_l 64) at 1. by rewrite Z.mod_add. Qed.

Lemma mod64_gap g g' : g mod nodeSize = 0 -> g' mod nodeSize = 0 -> g < g' -> g + nodeSize <= g'.
Proof. unfold nodeSize. intros. Z.to_euclidean_division_equations. lia. Qed.

Lemma idx_next g : 0 <= g -> idx (g + nodeSize) = S (idx g).
Proof.
  unfold idx, nodeSize. intros. replace (g + 64) with (g + 1 * 64) by lia.
  rewrite Z.div_add by lia. pose proof (Z.div_pos g 64). lia.
Qed.

(** *** The steps *)
Lemma slots_own_ext nd own own' h e hs c :
  (forall t, own' t = own t) -> slots_inv nd own h e hs c -> slots_inv nd own' h e hs c.
Proof.
  intros E [R H O X L Fr C]. split; try done.
  - intros *. rewrite E. apply O.
  - intros *. rewrite !E. apply X.
  - intros g Hg. destruct (L g Hg) as [(t & f & wr & ?)|?]; [left|by right].
    exists t, f, wr. by rewrite E.
Qed.

Lemma slots_cons_lt nd own h e hs c :
  slots_inv nd own h e hs c -> c <> CIdle -> h < e.
Proof. intros [_ _ _ _ _ _ C] Hc. destruct c; [done|..]; by destruct_and? C. Qed.

Lemma slots_reserve nd own own' h e hs c t0 f :
  slots_inv nd own h e hs c -> own t0 = None -> e + nodeSize - h <= 2 ^ order ->
  (forall t, own' t = if decide (t = t0) then Some (f, e, false) else own t) ->
  slots_inv nd own' h (e + nodeSize) (hs ++ [f]) c.
Proof.
  intros I Hnone Hroom E. pose proof (slots_cons_lt _ _ _ _ _ _ I) as Hlt.
  destruct I as [R H O X L Fr C].
  assert (0 < nodeSize) by done.
  assert (forall g, live h e g -> live h (e + nodeSize) g) as Hmono
    by (unfold live; intros; lia).
  assert (forall g (x : F), hs !! idx g = Some x -> (hs ++ [f]) !! idx g = Some x) as Happ
    by (intros; by apply lookup_app_l_Some).
  assert (live h (e + nodeSize) e) as He by (unfold live; lia).
  split.
  - destruct R as (? & ? & ? & ?). rewrite mod64_next by done. split_and!; lia || done.
  - rewrite length_app. simpl. lia.
  - intros t f' g wr. rewrite E. case_decide as Ht.
    2: { intros Ho. destruct (O _ _ _ _ Ho) as (? & ? & ? & ?). split_and!; auto. }
    intros [= <- <- <-]. split_and!; [done| | |intros Hc; specialize (Hlt Hc); lia].
    + by rewrite (idx_end hs e H), lookup_app_r, Nat.sub_diag by lia.
    + apply (Fr (offs e)). intros g Hg Hoff.
      assert (g = e) by (eapply live_offs_inj; eauto). unfold live in Hg. lia.
  - intros t1 t2 f1 f2 g w1 w2. rewrite !E. repeat case_decide; subst; [done|..|by apply X].
    + intros [= <- <- <-] Ho. apply O in Ho. unfold live in Ho. lia.
    + intros Ho [= <- <- <-]. apply O in Ho. unfold live in Ho. lia.
  - intros g Hg. destruct (decide (g < e)) as [Hge|Hge].
    + destruct (L g) as [(t & f' & wr & Ho)|[(f' & ? & ?)|?]]; [unfold live in *; lia|..].
      * left. exists t, f', wr. rewrite E. case_decide; congruence.
      * right. left. eauto.
      * by right; right.
    + assert (g = e) as ->.
      { destruct (decide (e = g)); [done|]. destruct Hg as [Hg1 Hg2].
        pose proof (mod64_gap e g). lia. }
      left. exists t0, f, false. rewrite E. by case_decide.
  - intros off Hoff. apply Fr. auto.
  - destruct c; [done|..].
    1,2: destruct C as (? & ? & f' & ? & ?); split_and!; [done|lia|]; eauto.
    destruct C; split; [lia|done].
Qed.

(** The owner of position [g] stores the task ([last] false) or, with the
    task stored, commits and gives the slot up ([last] true). *)
Lemma slots_publish (last : bool) nd nd' own own' h e hs c t0 f g :
  slots_inv nd own h e hs c -> own t0 = Some (f, g, last) ->
  (forall t, own' t = if decide (t = t0) then (if last then None else Some (f, g, true))
                      else own t) ->
  (forall off, nd' off = if decide (off = offs g) then mkNode (Some f) (if last then 1 else 0)
                         else nd off) ->
  slots_inv nd' own' h e hs c.
Proof.
  intros I Ho E N. pose proof (slots_cons_lt _ _ _ _ _ _ I) as Hlt.
  destruct I as [R H O X L Fr C]. destruct (O _ _ _ _ Ho) as (Hl & Hh & Hn & Hc).
  assert (forall g', live h e g' -> g' <> g -> nd' (offs g') = nd (offs g')) as Hother.
  { intros g' Hg' Hne. rewrite N. case_decide as Hd; [|done].
    destruct Hne. eapply live_offs_inj; eauto. lia. }
  split; try done.
  - intros t f' g' wr. rewrite E. case_decide as Ht.
    + destruct last; intros [= <- <- <-]. split_and!; try done. rewrite N. by case_decide.
    + intros Ho'. destruct (O _ _ _ _ Ho') as (? & ? & ? & ?). split_and!; try done.
      rewrite Hother; [done..|]. intros ->. by destruct Ht; eapply X.
  - intros t1 t2 f1 f2 g' w1 w2. rewrite !E.
    destruct last; repeat case_decide; try done; intros; simplify_eq; eauto.
  - intros g' Hg'. destruct (decide (g' = g)) as [->|Hne].
    + destruct last; [right; left; exists f; rewrite N; by case_decide|].
      left. exists t0, f, true. rewrite E. by case_decide.
    + rewrite Hother by done.
      destruct (L g' Hg') as [(t & f' & wr & Ho')|?]; [left|by right].
      exists t, f', wr. rewrite E. case_decide; congruence.
  - intros off Hoff. rewrite N. case_decide as Hd; [|by apply Fr].
    by destruct (Hoff g Hl).
  - assert (c <> CIdle -> nd' (offs h) = nd (offs h)) as Hh'.
    { intros Hc'. specialize (Hlt Hc'). apply Hother; [unfold live; lia|].
      intros ->. by apply Hc. }
    destruct c; try done; by rewrite Hh'.
Qed.

(** [peek] returned the node at the head. *)
Lemma slots_peek nd own h e hs :
  slots_inv nd own h e hs CIdle -> h < e -> node_id (nd (offs h)) <> 0 ->
  slots_inv nd own h e hs (CPeeked (offs h)).
Proof.
  intros [R H O X L Fr C] Hlt Hid.
  assert (live h e h) as Hh by (unfold live; lia).
  split; try done.
  - intros t f g wr Ho. destruct (O _ _ _ _ Ho) as (? & ? & Hn & ?).
    split_and!; try done. intros _ ->. by rewrite Hn in Hid.
  - intros g Hg. destruct (L g Hg) as [?|[?|[? ?]]]; [by left|by right; left|done].
  - destruct (L h Hh) as [(t & f & wr & Ho)|[?|[? ?]]]; [|done..].
    destruct (O _ _ _ _ Ho) as (_ & _ & Hn & _). by rewrite Hn in Hid.
Qed.

Lemma slots_ran nd own h e hs off :
  slots_inv nd own h e hs (CPeeked off) -> slots_inv nd own h e hs (CRan off).
Proof.
  intros [R H O X L Fr C]. split; try done.
  - intros t f g wr Ho. destruct (O _ _ _ _ Ho) as (? & ? & ? & Hne).
    split_and!; try done. intros _. by apply Hne.
  - intros g Hg. destruct (L g Hg) as [?|[?|[? ?]]]; [by left|by right; left|done].
Qed.

Lemma slots_zero nd nd' own h e hs off :
  slots_inv nd own h e hs (CRan off) ->
  (forall o, nd' o = if decide (o = offs h) then zero_node else nd o) ->
  slots_inv nd' own h e hs CZeroed.
Proof.
  intros [R H O X L Fr C] N. destruct C as (-> & Hlt & C).
  assert (live h e h) as Hh by (unfold live; lia).
  assert (forall g', live h e g' -> g' <> h -> nd' (offs g') = nd (offs g')) as Hother.
  { intros g' Hg' Hne. rewrite N. case_decide as Hd; [|done].
    destruct Hne. eapply live_offs_inj; eauto. lia. }
  split; try done.
  - intros t f g wr Ho. destruct (O _ _ _ _ Ho) as (Hg & ? & Hn & Hne).
    rewrite (Hother _ Hg (Hne ltac:(done))). split_and!; [done..|]. intros _. by apply Hne.
  - intros g Hg. destruct (decide (g = h)) as [->|Hne]; [by right; right|].
    rewrite Hother by done. destruct (L g Hg) as [?|[?|[? ?]]]; [by left|by right; left|done].
  - intros o Ho. rewrite N. case_decide; [done|]. by apply Fr.
  - rewrite N. by case_decide.
Qed.

Lemma slots_advance nd own h e hs :
  slots_inv nd own h e hs CZeroed -> slots_inv nd own (h + nodeSize) e hs CIdle.
Proof.
  intros [R H O X L Fr C]. destruct C as [Hlt Hz]. destruct R as (R1 & R2 & R3 & R4).
  assert (0 < nodeSize) by done. pose proof (mod64_gap h e R3 R4 Hlt).
  assert (forall g, live h e g -> g <> h -> live (h + nodeSize) e g) as Hnext.
  { intros g [Hg Hm] Hne. pose proof (mod64_gap h g). unfold live. lia. }
  assert (forall g, live (h + nodeSize) e g -> live h e g) as Hback by (unfold live; lia).
  split; try done.
  - rewrite mod64_next by done. split_and!; lia || done.
  - intros t f g wr Ho. destruct (O _ _ _ _ Ho) as (Hg & ? & Hn & Hne).
    split_and!; try done. by apply Hnext, Hne.
  - intros g Hg. destruct (L g (Hback _ Hg)) as [?|[?|[_ ->]]]; [by left|by right; left|].
    unfold live in Hg. lia.
  - intros o Ho. destruct (decide (offs h = o)) as [<-|Hne]; [done|].
    apply Fr. intros g Hg. destruct (decide (g = h)) as [->|?]; [done|]. by apply Ho, Hnext.
Qed.
End slots.

(** ** The invariant of the system *)
Section system.
Context {F : Type} (order data : Z).
Context (Horder : 6 <= order <= 31).
Implicit Types (s : sys F) (p : pstate F).

Definition own_of p : option (F * Z * bool) :=
  match p with
  | PReserved f _ g => Some (f, g, false)
  | PWritten f _ g => Some (f, g, true)
  | _ => None
  end.

(** What a producer has loaded: old values of the counters, and, after the
    test, a distance that leaves room for one node. *)
Definition loaded_ok (gh gt : Z) p : Prop :=
  match p with
  | PHead _ r gr => r = u32 gr /\ 0 <= gr <= gh
  | PTail _ w gr g => w = u32 g /\ 0 <= gr <= gh /\ gr <= g <= gt /\ g - gr <= 2 ^ order - nodeSize
  | PReserved _ off g | PWritten _ off g => off = offs order g
  | _ => True
  end.

(** How many tasks the consumer has run: those whose node it gave back, and
    the one it has run but not yet given back. *)
Definition ran_count s : nat :=
  (idx (ghead s) + match cons s with CRan _ | CZeroed => 1 | _ => 0 end)%nat.

Record inv s : Prop := mkInv {
  v_size : size_ (ring (queue s)) = 2 ^ order;
  v_valid : is_Some (data_ (ring (queue s)));
  v_head : head_ (ring (queue s)) = u32 (ghead s);
  v_tail : tail_ (ring (queue s)) = u32 (gtail s);
  v_loaded t : loaded_ok (ghead s) (gtail s) (pstate_of s t);
  v_ran : ran s = take (ran_count s) (hist s);
  v_slots : slots_inv order (node_at (queue s)) (fun t => own_of (pstate_of s t))
              (ghead s) (gtail s) (hist s) (cons s)
}.

Lemma pstate_of_set_prod s t p t' :
  pstate_of (set_prod s t p) t' = if decide (t' = t) then p else pstate_of s t'.
Proof.
  unfold pstate_of, set_prod; simpl. rewrite lookup_insert.
  repeat case_decide; simpl; congruence.
Qed.

Lemma node_at_set_node (q : MpscQueue F) off n o :
  node_at (set_node q off n) o = if decide (o = off) then n else node_at q o.
Proof.
  unfold node_at, set_node; simpl. rewrite lookup_insert.
  repeat case_decide; simpl; congruence.
Qed.

Lemma loaded_ok_mono gh gt gh' gt' p :
  gh <= gh' -> gt <= gt' -> loaded_ok gh gt p -> loaded_ok gh' gt' p.
Proof. destruct p; simpl; intros; try done; lia. Qed.

Lemma pow_order : 64 <= 2 ^ order <= 2 ^ 31.
Proof.
  split; [change 64 with (2 ^ 6)|]; apply Z.pow_le_mono_r; lia.
Qed.

Lemma is_full_false s r :
  inv s -> is_full (queue s) r (tail_ (ring (queue s))) = false ->
  u32 (u32 (gtail s) - r) <= 2 ^ order - nodeSize.
Proof.
  intros I. unfold is_full, nodeSize. rewrite (v_size s I), (v_tail s I).
  pose proof pow_order. rewrite (u32_small (2 ^ order)), (u32_small (_ - 64)) by lia.
  intros. bool_hyps. done.
Qed.

(** A producer moves between two places at which it owns no slot. *)
Lemma inv_set_prod s t p :
  inv s -> own_of (pstate_of s t) = None -> own_of p = None ->
  loaded_ok (ghead s) (gtail s) p -> inv (set_prod s t p).
Proof.
  intros [Hsz Hv Hh Ht Hl Hr Hs] Hn Hp Hok. split; try done.
  - intros t'. rewrite pstate_of_set_prod. by case_decide.
  - eapply slots_own_ext; [|done]. intros t'. simpl.
    rewrite pstate_of_set_prod. case_decide; congruence.
Qed.

Lemma ran_count_le s :
  slots_inv order (node_at (queue s)) (fun t => own_of (pstate_of s t))
    (ghead s) (gtail s) (hist s) (cons s) ->
  (ran_count s <= length (hist s))%nat.
Proof.
  intros Hs. pose proof (si_range _ _ _ _ _ _ _ Hs) as (R & _).
  pose proof (si_hist _ _ _ _ _ _ _ Hs) as Hlen. unfold ran_count.
  destruct (decide (cons s = CIdle)) as [Hc|Hc].
  - rewrite Hc. unfold idx, nodeSize in *.
    pose proof (Z.div_le_upper_bound (ghead s) 64 (Z.of_nat (length (hist s)))). lia.
  - pose proof (slots_cons_lt _ _ _ _ _ _ _ Hs Hc).
    pose proof (idx_lt (hist s) (gtail s) (ghead s) Hlen ltac:(lia)).
    destruct (cons s); lia.
Qed.

Lemma inv_init : inv (init_sys order data).
Proof.
  split; try done.
  pose proof pow_order.
  split; unfold pstate_of, node_at, live; simpl; try done; intros;
    rewrite ?lookup_empty in *; simpl in *; split_and?; done || lia.
Qed.

Lemma inv_load_tail s t f r gr :
  inv s -> windowed s -> pstate_of s t = PHead f r gr ->
  is_full (queue s) r (tail_ (ring (queue s))) = false ->
  inv (set_prod s t (PTail f (tail_ (ring (queue s))) gr (gtail s))).
Proof.
  intros I W E Hfull. apply inv_set_prod; [done|by rewrite E|done|]. simpl.
  pose proof (v_loaded s I t) as Hl. specialize (W t). rewrite E in *. destruct Hl as [-> Hl].
  pose proof (si_range _ _ _ _ _ _ _ (v_slots s I)) as (R & _).
  apply is_full_false in Hfull; [|done].
  rewrite u32_sub, u32_small in Hfull by lia. rewrite (v_tail s I). split_and!; done || lia.
Qed.

Lemma inv_cas s t f w gr gt :
  inv s -> windowed s -> pstate_of s t = PTail f w gr gt -> tail_ (ring (queue s)) = w ->
  inv (mkSys (set_tail (queue s) (u32 (w + nodeSize)))
         (<[t := PReserved f (q_offset (queue s) w) (gtail s)]> (prods s)) (cons s)
         (ghead s) (gtail s + nodeSize) (hist s ++ [f]) (ran s)).
Proof.
  intros I W E Hw. pose proof (v_loaded s I t) as Hl. specialize (W t). rewrite E in *.
  destruct I as [Hsz Hv Hh Ht Hld Hr Hs]. destruct Hl as (Hlw & Hl).
  assert (gtail s = gt) as Heq.
  { symmetry. apply u32_congr_eq; [congruence|]. lia. }
  set (s' := mkSys _ _ _ _ _ _ _).
  assert (forall t', pstate_of s' t' = if decide (t' = t)
    then PReserved f (q_offset (queue s) w) (gtail s) else pstate_of s t') as Hp.
  { intros t'. apply (pstate_of_set_prod s t). }
  assert (0 < nodeSize) by done.
  split; try done.
  - simpl. rewrite <- Hw, Ht. apply u32_add_l.
  - intros t'. rewrite Hp. case_decide.
    + simpl. unfold q_offset. rewrite Hsz, <- Hw, Ht. apply cb_offset_u32. lia.
    + eapply loaded_ok_mono; [| |apply Hld]; simpl; lia.
  - simpl. change (ran_count s') with (ran_count s).
    rewrite take_app_le; [done|]. by apply ran_count_le.
  - simpl. eapply (slots_reserve order Horder _ _ _ _ _ _ _ t f); [exact Hs|simpl; by rewrite E|lia|].
    intros t'. rewrite Hp. by case_decide.
Qed.

Lemma inv_publish (last : bool) s t f off g q' p' :
  inv s -> own_of (pstate_of s t) = Some (f, g, last) ->
  own_of p' = (if last then None else Some (f, g, true)) ->
  loaded_ok (ghead s) (gtail s) p' -> off = offs order g ->
  q' = set_node (queue s) off (mkNode (Some f) (if last then 1 else 0)) ->
  inv (set_prod (set_queue s q') t p').
Proof.
  intros [Hsz Hv Hh Ht Hl Hr Hs] Ho Hp' Hok -> ->. split; try done.
  - intros t'. rewrite pstate_of_set_prod. case_decide; [done|apply Hl].
  - eapply (slots_publish order Horder last); [exact Hs|exact Ho| |].
    + intros t'. simpl. rewrite pstate_of_set_prod. by case_decide.
    + intros o. apply node_at_set_node.
Qed.

(** [peek] in terms of the unbounded counters. *)
Lemma peek_inv s :
  inv s ->
  peek (queue s) =
    if decide (ghead s < gtail s /\ node_id (node_at (queue s) (offs order (ghead s))) <> 0)
    then Some (offs order (ghead s)) else None.
Proof.
  intros [Hsz [d Hd] Hh Ht Hl Hr Hs].
  pose proof (si_range _ _ _ _ _ _ _ Hs) as (R1 & R2 & _). pose proof pow_order.
  unfold peek, mq_isValid, isValid, q_offset. rewrite Hd, Hsz, Hh, Ht, cb_offset_u32 by lia.
  simpl. fold (offs order (ghead s)).
  destruct (u32 (ghead s) =? u32 (gtail s)) eqn:E; bool_hyps.
  - apply u32_congr_eq in E; [|lia]. case_decide; [lia|done].
  - assert (ghead s <> gtail s) by congruence.
    destruct (node_id _ =? 0) eqn:E'; bool_hyps; simpl; case_decide; try done; lia.
Qed.

Lemma inv_step s s' : inv s -> windowed s -> step s s' -> inv s'.
Proof.
  intros I W St. pose proof I as [Hsz Hv Hh Ht Hl Hr Hs].
  pose proof (si_range _ _ _ _ _ _ _ Hs) as (R & _).
  destruct St as [t f E|t f E|t f r gr E Hf|t f r gr E Hf|t f w gr gt E|t f w gr gt E Hw
    |t f off gi E|t f off gi E|off E Hp|off f E Hd|off E Hd|off E|E].
  - apply inv_set_prod; [done|by rewrite E|done..].
  - apply inv_set_prod; [done|by rewrite E|done|]. simpl. split; [done|lia].
  - apply inv_set_prod; [done|by rewrite E|done..].
  - eapply inv_load_tail; eauto.
  - apply inv_set_prod; [done|by rewrite E|done..].
  - eapply inv_cas; eauto.
  - specialize (Hl t). rewrite E in Hl.
    eapply (inv_publish false); [done|by rewrite E|done..|].
    unfold write_data. rewrite Hl.
    destruct (si_own _ _ _ _ _ _ _ Hs t f gi false) as (_ & _ & -> & _); [simpl; by rewrite E|done].
  - specialize (Hl t). rewrite E in Hl.
    eapply (inv_publish true); [done|by rewrite E|done|done|done|].
    unfold commit. rewrite Hl.
    destruct (si_own _ _ _ _ _ _ _ Hs t f gi true) as (_ & _ & -> & _); [simpl; by rewrite E|done].
  - rewrite peek_inv in Hp by done. case_decide as Hd; [|done]. injection Hp as <-.
    destruct Hd as [Hlt Hid]. split; try done.
    + unfold ran_count in *. by rewrite E in Hr.
    + simpl. rewrite E in Hs. by apply slots_peek.
  - rewrite E in Hs. pose proof (si_cons _ _ _ _ _ _ _ Hs) as (-> & Hlt & f' & Hi & Hn).
    rewrite Hn in Hd. injection Hd as ->.
    split; try done; [|by apply slots_ran].
    unfold ran_count in *. simpl. rewrite E in Hr. rewrite Hr, Nat.add_0_r, Nat.add_1_r.
    symmetry. by apply take_S_r.
  - rewrite E in Hs. pose proof (si_cons _ _ _ _ _ _ _ Hs) as (-> & Hlt & f' & Hi & Hn).
    by rewrite Hn in Hd.
  - rewrite E in Hs. pose proof (si_cons _ _ _ _ _ _ _ Hs) as (-> & _).
    split; try done; [|].
    + unfold ran_count in *. by rewrite E in Hr.
    + eapply slots_zero; [done|done|]. intros o. apply node_at_set_node.
  - rewrite E in Hs. split; try done.
    + simpl. rewrite Hh. apply u32_add_l.
    + intros t. eapply loaded_ok_mono; [| |apply Hl]; simpl; unfold nodeSize; lia.
    + unfold ran_count in *. simpl. rewrite E in Hr. rewrite Hr, idx_next by lia.
      f_equal. lia.
    + by apply slots_advance.
Qed.

Lemma reach_inv s : reach order data s -> inv s.
Proof. induction 1; [apply inv_init|by eapply inv_step]. Qed.
End system.

(** ** The abstract queue

    The tasks that were reserved and not yet run, oldest first.  An abstract
    step adds a task at the end or runs the first one. *)
Section abstract.
Context {F : Type}.

Definition pending (s : sys F) : list F := drop (length (ran s)) (hist s).

Inductive spec_step : list F * list F -> list F * list F -> Prop :=
| spec_enqueue q r f : spec_step (q, r) (q ++ [f], r)
| spec_run q r f : spec_step (f :: q, r) (q, r ++ [f]).

(** The slot a thread is working on. *)
Definition holds (s : sys F) (t : nat) (off : Z) : Prop :=
  match pstate_of s t with
  | PReserved _ o _ | PWritten _ o _ => o = off
  | _ => False
  end.
Definition consumer_holds (s : sys F) (off : Z) : Prop :=
  match cons s with CPeeked o | CRan o => o = off | _ => False end.
End abstract.

Lemma ran_prefix {F} order data (s : sys F) :
  6 <= order <= 31 -> reach order data s -> ran s ++ pending s = hist s.
Proof.
  intros Ho Hr. apply reach_inv in Hr; [|done]. unfold pending.
  pose proof (ran_count_le order s (v_slots _ _ Hr)).
  rewrite (v_ran _ _ Hr), length_take, Nat.min_l by done. apply take_drop.
Qed.

Lemma pending_set_prod {F} (s : sys F) t p : pending (set_prod s t p) = pending s.
Proof. done. Qed.

(** Running a task takes the first pending one. *)
Lemma pending_run {F} order data (s : sys F) off f :
  6 <= order <= 31 -> reach order data s -> cons s = CPeeked off ->
  node_data (node_at (queue s) off) = Some f ->
  pending s = f :: drop (S (length (ran s))) (hist s).
Proof.
  intros Ho Hr E Hd. apply reach_inv in Hr; [|done]. destruct Hr as [_ _ _ _ _ Hran Hs].
  pose proof (ran_count_le order s Hs) as Hle. unfold pending.
  rewrite Hran, length_take, Nat.min_l by done. unfold ran_count in *. rewrite E in *.
  destruct (si_cons _ _ _ _ _ _ _ Hs) as (-> & _ & f' & Hi & Hn).
  rewrite Hn in Hd. injection Hd as ->. rewrite Nat.add_0_r. by apply drop_S.
Qed.

(** ** Executable schedules

    A schedule names the thread that moves next; [run_schedule] executes it. *)
Inductive move (F : Type) : Type :=
| MCall (t : nat) (f : F)
| MProd (t : nat)
| MCons.
Arguments MCall {F} t f.
Arguments MProd {F} t.
Arguments MCons {F}.

Section schedule.
Context {F : Type}.
Implicit Types s : sys F.

Definition do_move s (m : move F) : option (sys F) :=
  match m with
  | MCall t f => match pstate_of s t with PIdle => Some (set_prod s t (PStart f)) | _ => None end
  | MProd t =>
      match pstate_of s t with
      | PIdle => None
      | PStart f => Some (set_prod s t (PHead f (head_ (ring (queue s))) (ghead s)))
      | PHead f r gr =>
          if is_full (queue s) r (tail_ (ring (queue s))) then Some (set_prod s t PIdle)
          else Some (set_prod s t (PTail f (tail_ (ring (queue s))) gr (gtail s)))
      | PTail f w gr gt =>
          if tail_ (ring (queue s)) =? w
          then Some (mkSys (set_tail (queue s) (u32 (w + nodeSize)))
                 (<[t := PReserved f (q_offset (queue s) w) (gtail s)]> (prods s)) (cons s)
                 (ghead s) (gtail s + nodeSize) (hist s ++ [f]) (ran s))
          else Some (set_prod s t (PStart f))
      | PReserved f off gi =>
          Some (set_prod (set_queue s (write_data (queue s) off f)) t (PWritten f off gi))
      | PWritten f off gi =>
          Some (set_prod (set_queue s (commit (queue s) (Some off) 1)) t PIdle)
      end
  | MCons =>
      match cons s with
      | CIdle => off ← peek (queue s); Some (set_cons s (CPeeked off))
      | CPeeked off =>
          match node_data (node_at (queue s) off) with
          | Some f => Some (mkSys (queue s) (prods s) (CRan off) (ghead s) (gtail s)
                              (hist s) (ran s ++ [f]))
          | None => Some (set_cons s (CRan off))
          end
      | CRan off => Some (set_cons (set_queue s (set_node (queue s) off zero_node)) CZeroed)
      | CZeroed =>
          Some (mkSys (set_head (queue s) (u32 (head_ (ring (queue s)) + nodeSize)))
                  (prods s) CIdle (ghead s + nodeSize) (gtail s) (hist s) (ran s))
      end
  end.

Definition p_windowed s (p : pstate F) : bool :=
  match p with
  | PHead _ _ gr | PTail _ _ gr _ => gtail s - gr <? 2 ^ 32
  | _ => true
  end.
Definition windowedb s : bool := forallb (fun tp => p_windowed s tp.2) (map_to_list (prods s)).

Fixpoint run_schedule s (ms : list (move F)) : option (sys F) :=
  match ms with
  | [] => Some s
  | m :: ms' =>
      if windowedb s then s' ← do_move s m; run_schedule s' ms' else None
  end.

Lemma do_move_step s m s' : do_move s m = Some s' -> step s s'.
Proof.
  destruct m as [t f|t|]; simpl.
  - destruct (pstate_of s t) eqn:E; intros [= <-]. by apply step_call.
  - destruct (pstate_of s t) eqn:E; intros Hm; simplify_eq.
    + by apply step_load_head.
    + case_match; simplify_eq; [by eapply step_full|by eapply step_load_tail].
    + case_match; simplify_eq; bool_hyps; [by eapply step_cas|by eapply step_cas_fail].
    + by apply step_write.
    + by eapply step_commit.
  - destruct (cons s) as [|off|off|] eqn:E; intros Hm; simplify_eq.
    + destruct (peek (queue s)) eqn:Hp; simplify_eq/=. by apply step_peek.
    + destruct (node_data _) eqn:Hd; simplify_eq; [by apply step_run|by apply step_skip].
    + by apply step_zero.
    + by apply step_advance.
Qed.

Lemma windowedb_true s : windowedb s = true -> windowed s.
Proof.
  intros H t. unfold pstate_of.
  destruct (prods s !! t) as [p|] eqn:E; [|done]. simpl.
  apply elem_of_map_to_list, list_elem_of_In in E.
  apply (proj1 (forallb_forall _ _) H) in E. destruct p; simpl in *; bool_hyps; done.
Qed.

Lemma run_schedule_reach order data s ms s' :
  reach order data s -> run_schedule s ms = Some s' -> reach order data s'.
Proof.
  revert s. induction ms as [|m ms IH]; intros s Hr; simpl; [congruence|].
  destruct (windowedb s) eqn:W; [|done].
  destruct (do_move s m) as [s1|] eqn:E; simpl; [|done].
  apply IH. econstructor; [done|by apply windowedb_true|by eapply do_move_step].
Qed.
End schedule.

(** Two producers race for the first slot of a ring of two nodes (order 7);
    the loser retries; both commit, the second reservation first; then the
    consumer runs the first task and is about to advance. *)
Definition race : list (move nat) :=
  [MCall 1 10%nat; MCall 2 20%nat; MProd 1; MProd 2; MProd 1; MProd 2; MProd 2; MProd 1;
   MProd 1; MProd 1; MProd 1; MProd 1; MProd 1; MProd 2; MProd 2;
   MCons; MCons; MCons].
Definition after_race : sys nat :=
  default (init_sys 7 0) (run_schedule (init_sys 7 0) race).

Lemma after_race_reach : reach 7 0 after_race.
Proof.
  apply (run_schedule_reach 7 0 (init_sys 7 0) race); [constructor|].
  vm_compute. reflexivity.
Qed.
Example after_race_order : hist after_race = [20%nat; 10%nat] /\ ran after_race = [20%nat].
Proof. by vm_compute. Qed.

(** ** Whole calls

    The queue between complete calls of the member functions, as a list of
    committed tasks.  [running] tells that the consumer is between [peek] and
    [consume]: the first task is being run and may itself enqueue tasks. *)
Section calls.
Context {F : Type} (order : Z).
Context (Horder : 6 <= order <= 31).
Implicit Types (q : MpscQueue F) (fs : list F).

(** The calls a producer makes to hand over a task, and their result:
    [None] when the queue is full. *)
Definition enqueue (spurious : nat) q (f : F) : option (MpscQueue F) :=
  match reserve spurious q with
  | (Some off, q1) => Some (commit (write_data q1 off f) (Some off) 1)
  | (None, _) => None
  end.

Definition capacity : nat := Z.to_nat (2 ^ order / nodeSize).

Definition seq_inv q (running : bool) fs : Prop :=
  exists h e hs,
    size_ (ring q) = 2 ^ order /\ is_Some (data_ (ring q)) /\
    head_ (ring q) = u32 h /\ tail_ (ring q) = u32 e /\ drop (idx h) hs = fs /\
    slots_inv order (node_at q) (fun _ => None) h e hs
      (if running then CPeeked (offs order h) else CIdle).

Lemma seq_inv_length q running fs :
  seq_inv q running fs -> exists h e, head_ (ring q) = u32 h /\ tail_ (ring q) = u32 e /\
    e - h = Z.of_nat (length fs) * nodeSize.
Proof.
  intros (h & e & hs & _ & _ & Hh & He & <- & Hs). exists h, e. split_and!; [done..|].
  destruct (si_range _ _ _ _ _ _ _ Hs) as (R1 & R2 & R3 & R4).
  pose proof (si_hist _ _ _ _ _ _ _ Hs) as Hlen. rewrite length_drop.
  unfold idx, nodeSize in *. Z.to_euclidean_division_equations. lia.
Qed.

Lemma is_full_spec q running fs :
  seq_inv q running fs ->
  is_full q (head_ (ring q)) (tail_ (ring q)) = bool_decide (capacity <= length fs)%nat.
Proof.
  intros Hq. destruct (seq_inv_length _ _ _ Hq) as (h & e & Hh & He & Hd).
  destruct Hq as (h' & e' & hs & Hsz & _ & Hh' & He' & Hfs & Hs).
  destruct (si_range _ _ _ _ _ _ _ Hs) as (R1 & R2 & R3 & R4).
  pose proof (pow_order order Horder). pose proof (si_hist _ _ _ _ _ _ _ Hs) as Hlen.
  unfold is_full. rewrite Hsz, (u32_small (2 ^ order)) by lia.
  unfold capacity, nodeSize in *. rewrite (u32_small (2 ^ order - 64)) by lia.
  rewrite Hh, He, u32_sub.
  assert (e - h <= 2 ^ order).
  { rewrite Hd, <- Hfs, length_drop. unfold idx, nodeSize.
    Z.to_euclidean_division_equations. lia. }
  rewrite u32_small by lia.
  assert (2 ^ order = 64 * (2 ^ order / 64)) as Hpow.
  { replace order with (6 + (order - 6)) by lia. rewrite Z.pow_add_r by lia.
    change (2 ^ 6) with 64. by rewrite (Z.mul_comm 64 (2 ^ (order - 6))), Z.div_mul, Z.mul_comm. }
  destruct (Z.ltb_spec (2 ^ order - 64) (e - h)); symmetry.
  - apply bool_decide_eq_true. lia.
  - apply bool_decide_eq_false. lia.
Qed.

Lemma reserve_spec n q running fs :
  seq_inv q running fs ->
  reserve n q = if bool_decide (capacity <= length fs)%nat then (None, q)
    else (Some (q_offset q (tail_ (ring q))), set_tail q (u32 (tail_ (ring q) + nodeSize))).
Proof.
  intros Hq. assert (mq_isValid q = true) as Hv.
  { destruct Hq as (? & ? & ? & _ & [d Hd] & _). unfold mq_isValid, isValid. by rewrite Hd. }
  pose proof (is_full_spec _ _ _ Hq) as Hf. destruct (bool_decide _);
    induction n as [|n IH]; simpl; by rewrite Hv, Hf.
Qed.

(** Enqueueing succeeds exactly when there is room, and then appends. *)
Lemma enqueue_spec n q running fs f :
  seq_inv q running fs ->
  if bool_decide (capacity <= length fs)%nat then enqueue n q f = None
  else exists q', enqueue n q f = Some q' /\ seq_inv q' running (fs ++ [f]).
Proof.
  intros Hq. unfold enqueue. rewrite (reserve_spec n q running fs Hq).
  case_bool_decide as Hfull; [done|]. eexists. split; [done|].
  destruct (seq_inv_length _ _ _ Hq) as (h & e & Hh & He & Hd). clear h e Hh He Hd.
  pose proof (is_full_spec _ _ _ Hq) as Hf. rewrite bool_decide_eq_false_2 in Hf by done.
  destruct Hq as (h & e & hs & Hsz & Hv & Hh & He & <- & Hs).
  destruct (si_range _ _ _ _ _ _ _ Hs) as (R1 & R2 & R3 & R4).
  pose proof (pow_order order Horder) as Hpow. pose proof (si_hist _ _ _ _ _ _ _ Hs) as Hlen.
  assert (e + nodeSize - h <= 2 ^ order) as Hroom.
  { unfold is_full in Hf. rewrite Hsz, Hh, He, u32_sub in Hf. unfold nodeSize in *.
    rewrite !u32_small in Hf by (rewrite ?u32_small; lia). bool_hyps. lia. }
  assert (q_offset q (tail_ (ring q)) = offs order e) as Hoff.
  { unfold q_offset. rewrite Hsz, He. apply cb_offset_u32. lia. }
  pose (own1 := fun t : nat => if decide (t = 0%nat) then Some (f, e, false) else None).
  pose (own2 := fun t : nat => if decide (t = 0%nat) then Some (f, e, true) else None).
  pose proof (slots_reserve order Horder _ _ own1 _ _ _ _ 0 f Hs eq_refl Hroom
    (fun t => eq_refl)) as Hs1.
  pose proof (si_own _ _ _ _ _ _ _ Hs1 0 f e false eq_refl) as (_ & _ & Hn & _).
  rewrite Hoff. set (q1 := set_tail q _).
  assert (forall o, node_at (write_data q1 (offs order e) f) o =
    if decide (o = offs order e) then mkNode (Some f) 0 else node_at q o) as Hw.
  { intros o. unfold write_data. rewrite node_at_set_node. case_decide; [|done].
    by change (node_at q1) with (node_at q); rewrite Hn. }
  exists h, (e + nodeSize), (hs ++ [f]). split_and!; try done.
  - simpl. rewrite He. apply u32_add_l.
  - rewrite drop_app_le; [done|]. unfold idx, nodeSize in *.
    pose proof (Z.div_le_upper_bound h 64 (Z.of_nat (length hs))). lia.
  - eapply (slots_publish order Horder true _ _ own2 _ _ _ _ _ 0 f e).
    + apply (slots_publish order Horder false _ _ own1 own2 _ _ _ _ 0 f e Hs1 eq_refl);
        [|exact Hw].
      intros t. unfold own2, own1. by repeat case_decide.
    + done.
    + intros t. unfold own2. by repeat case_decide.
    + intros o. unfold commit. rewrite node_at_set_node. case_decide; [|done].
      by rewrite Hw, decide_True.
Qed.

(** [peek] returns the first task's node, or null on an empty queue. *)
Lemma peek_seq q fs :
  seq_inv q false fs ->
  match fs with
  | [] => peek q = None
  | f :: _ => exists off, peek q = Some off /\ node_data (node_at q off) = Some f /\
      seq_inv q true fs
  end.
Proof.
  intros (h & e & hs & Hsz & Hv & Hh & He & Hfs & Hs).
  destruct (si_range _ _ _ _ _ _ _ Hs) as (R1 & R2 & R3 & R4).
  pose proof (si_hist _ _ _ _ _ _ _ Hs) as Hlen.
  pose (s := mkSys q ∅ CIdle h e hs (take (idx h) hs)).
  assert (inv order s) as I.
  { split; try done. unfold ran_count; simpl. by rewrite Nat.add_0_r. }
  pose proof (peek_inv order Horder s I) as Hp. simpl in Hp. rewrite Hp. clear Hp.
  destruct (decide (h < e)) as [Hlt|Hge].
  - assert (live h e h) as Hl by (split; [lia|done]).
    destruct (si_live _ _ _ _ _ _ _ Hs h Hl) as [(t & f & wr & Ht)|[(f & Hi & Hn)|[Hc _]]];
      [discriminate Ht| |discriminate Hc].
    rewrite (drop_S _ _ _ Hi) in Hfs. subst fs. rewrite Hn. simpl.
    rewrite decide_True by lia. exists (offs order h). split_and!; [done|by rewrite Hn|].
    exists h, e, hs. split_and!; try done; [by apply drop_S|].
    apply slots_peek; [done..|by rewrite Hn].
  - assert (fs = []) as ->.
    { rewrite <- Hfs. apply drop_ge. replace h with e by lia. by rewrite (idx_end _ _ Hlen). }
    by rewrite decide_False by lia.
Qed.

(** [consume] removes the task that was being run. *)
Lemma consume_spec q f fs :
  seq_inv q true (f :: fs) -> seq_inv (consume q (Some (q_offset q (head_ (ring q))))) false fs.
Proof.
  intros (h & e & hs & Hsz & [d Hd] & Hh & He & Hfs & Hs).
  destruct (si_range _ _ _ _ _ _ _ Hs) as (R1 & _).
  assert (q_offset q (head_ (ring q)) = offs order h) as ->.
  { unfold q_offset. rewrite Hsz, Hh. apply cb_offset_u32. lia. }
  unfold consume, mq_isValid, isValid. rewrite Hd. simpl.
  exists (h + nodeSize), e, hs. split_and!; try done.
  - simpl. rewrite Hh. apply u32_add_l.
  - rewrite idx_next by lia.
    destruct (si_cons _ _ _ _ _ _ _ Hs) as (_ & _ & f' & Hi & _).
    rewrite (drop_S _ _ _ Hi) in Hfs. by injection Hfs.
  - apply (slots_advance order Horder). eapply (slots_zero order Horder); [by apply slots_ran|].
    intros o. apply node_at_set_node.
Qed.
End calls.

(** ** Properties *)

(** C1: the lock-free queue is a FIFO queue.  In every execution of any number
    of producers and the consumer, each atomic step either leaves the pair
    (pending tasks, tasks run) as it is, or adds one task at the end of the
    pending ones (the compare-and-swap of [reserve]), or runs the first
    pending one: nothing is lost, duplicated or reordered, also when the
    32-bit counters wrap. *)
Theorem mpsc_refines_fifo {F} order data (s s' : sys F) :
  6 <= order <= 31 -> reach order data s -> windowed s -> step s s' ->
  (pending s', ran s') = (pending s, ran s) \/
  spec_step (pending s, ran s) (pending s', ran s').
Proof.
  intros Ho Hr W St.
  assert (reach order data s') as Hr' by (by econstructor).
  pose proof (ran_prefix _ _ _ Ho Hr) as E1. pose proof (ran_prefix _ _ _ Ho Hr') as E2.
  destruct St as [| | | | |t f w gr gt E Hw| | | |off f E Hd| | |]; try (left; done); right.
  - set (s' := mkSys _ _ _ _ _ _ _) in *.
    assert (pending s' = pending s ++ [f]) as ->; [|constructor].
    apply (app_inv_head (ran s)). by rewrite app_assoc, E1.
  - unfold pending at 2; simpl. rewrite length_app, Nat.add_1_r.
    rewrite (pending_run _ _ _ _ _ Ho Hr E Hd). constructor.
Qed.

Lemma mpsc_refines_fifo_witness :
  exists s' : sys nat, step after_race s' /\
    ((pending s', ran s') = (pending after_race, ran after_race) \/
     spec_step (pending after_race, ran after_race) (pending s', ran s')).
Proof.
  destruct (do_move after_race MCons) as [s'|] eqn:E; [|by vm_compute in E].
  exists s'. split; [by eapply do_move_step|].
  apply (mpsc_refines_fifo 7 0); [lia|apply after_race_reach| |by eapply do_move_step].
  by apply windowedb_true; vm_compute.
Defined.

(** at every moment of every execution the slot a producer is filling is
    held by no other producer and is not the one the consumer is reading, and
    the ring never holds more nodes than it has room for: the unsynchronised
    accesses to a node never race. *)
Theorem mpsc_exclusive {F} order data (s : sys F) :
  6 <= order <= 31 -> reach order data s ->
  (forall t1 t2 off, holds s t1 off -> holds s t2 off -> t1 = t2) /\
  (forall t off, holds s t off -> ~ consumer_holds s off) /\
  0 <= gtail s - ghead s <= 2 ^ order.
Proof.
  intros Ho Hr. apply reach_inv in Hr as [_ _ _ _ Hl _ Hs]; [|done].
  pose proof (si_range _ _ _ _ _ _ _ Hs) as (R1 & R2 & R3 & R4).
  assert (forall t off, holds s t off -> exists f g wr, own_of (pstate_of s t) = Some (f, g, wr) /\
    off = offs order g) as Hown.
  { intros t off Hh. specialize (Hl t). unfold holds in Hh.
    destruct (pstate_of s t); try done; simpl in *; subst; eauto 6. }
  split_and!; [| |lia|lia].
  - intros t1 t2 off H1 H2. apply Hown in H1 as (f1 & g1 & w1 & H1 & ->).
    apply Hown in H2 as (f2 & g2 & w2 & H2 & Heq).
    destruct (si_own _ _ _ _ _ _ _ Hs _ _ _ _ H1) as (L1 & _).
    destruct (si_own _ _ _ _ _ _ _ Hs _ _ _ _ H2) as (L2 & _).
    apply (live_offs_inj order Ho (ghead s) (gtail s)) in Heq as <-; [|done..].
    by eapply (si_excl _ _ _ _ _ _ _ Hs).
  - intros t off H1 Hc. apply Hown in H1 as (f & g & wr & H1 & ->).
    destruct (si_own _ _ _ _ _ _ _ Hs _ _ _ _ H1) as (L1 & _ & Hn & _).
    pose proof (si_cons _ _ _ _ _ _ _ Hs) as C. unfold consumer_holds in Hc.
    destruct (cons s); try done; subst; destruct C as (E & _ & f' & _ & Hn');
      rewrite E in *; by rewrite Hn' in Hn.
Qed.

Definition both_reserved : sys nat :=
  default (init_sys 7 0) (run_schedule (init_sys 7 0) (take 12 race)).

Lemma mpsc_exclusive_witness :
  (forall t1 t2 off, holds both_reserved t1 off -> holds both_reserved t2 off -> t1 = t2) /\
  (forall t off, holds both_reserved t off -> ~ consumer_holds both_reserved off) /\
  0 <= gtail both_reserved - ghead both_reserved <= 2 ^ 7.
Proof.
  apply (mpsc_exclusive 7 0); [lia|].
  apply (run_schedule_reach 7 0 (init_sys 7 0) (take 12 race)); [constructor|].
  vm_compute. reflexivity.
Defined.

(** no task is stuck: when no producer is inside [reserve]..[commit] and
    the consumer is between two tasks, [peek] returns null exactly when every
    reserved task has been run; otherwise it returns the node of the oldest
    pending task, with a non-null functor. *)
Theorem mpsc_quiescent_peek {F} order data (s : sys F) :
  6 <= order <= 31 -> reach order data s ->
  (forall t, pstate_of s t = PIdle) -> cons s = CIdle ->
  match peek (queue s) with
  | None => ran s = hist s
  | Some off => exists f rest, pending s = f :: rest /\
      node_data (node_at (queue s) off) = Some f
  end.
Proof.
  intros Ho Hr Hidle Hc. pose proof (ran_prefix _ _ _ Ho Hr) as Hpre.
  apply reach_inv in Hr; [|done]. rewrite (peek_inv order Ho) by done.
  destruct Hr as [_ _ _ _ _ Hran Hs].
  pose proof (si_range _ _ _ _ _ _ _ Hs) as (R1 & R2 & R3 & R4).
  pose proof (si_hist _ _ _ _ _ _ _ Hs) as Hlen.
  assert (length (ran s) = idx (ghead s)) as Hlr.
  { rewrite Hran, length_take. pose proof (ran_count_le order s Hs).
    unfold ran_count in *. rewrite Hc in *. lia. }
  destruct (decide (ghead s < gtail s)) as [Hlt|Hge].
  - destruct (si_live _ _ _ _ _ _ _ Hs (ghead s)) as [(t & f & wr & Ht)|[(f & Hi & Hn)|[? ?]]].
    + split; [lia|done].
    + by rewrite Hidle in Ht.
    + rewrite Hn. simpl. case_decide; [|naive_solver].
      unfold pending. rewrite Hlr. eexists f, _. split; [by apply drop_S|by rewrite Hn].
    + congruence.
  - case_decide; [lia|]. replace (ghead s) with (gtail s) in Hlr by lia.
    rewrite (idx_end _ _ Hlen) in Hlr. rewrite Hran, take_ge; [done|].
    unfold ran_count. rewrite Hc. replace (ghead s) with (gtail s) by lia.
    rewrite (idx_end _ _ Hlen). lia.
Qed.

Lemma order7 : 6 <= 7 <= 31.
Proof. lia. Qed.

Definition two_pending : sys nat :=
  default (init_sys 7 0) (run_schedule (init_sys 7 0) (take 15 race)).

Lemma mpsc_quiescent_peek_witness :
  exists off f rest, peek (queue two_pending) = Some off /\ pending two_pending = f :: rest /\
    node_data (node_at (queue two_pending) off) = Some f.
Proof.
  assert (reach 7 0 two_pending) as Hr.
  { apply (run_schedule_reach 7 0 (init_sys 7 0) (take 15 race)); [constructor|].
    vm_compute. reflexivity. }
  assert (forall t, pstate_of two_pending t = PIdle) as Hi.
  { intros t. unfold pstate_of.
    destruct (prods two_pending !! t) as [p|] eqn:E; [|done]. simpl.
    apply elem_of_map_to_list in E.
    assert (map_to_list (prods two_pending) = [(2%nat, PIdle); (1%nat, PIdle)]) as Hm
      by (vm_compute; reflexivity).
    rewrite Hm in E. apply list_elem_of_In in E as [[=]|[[=]|[]]]; subst; done. }
  assert (cons two_pending = CIdle) as Hc by (vm_compute; reflexivity).
  pose proof (mpsc_quiescent_peek 7 0 two_pending order7 Hr Hi Hc) as H.
  destruct (peek (queue two_pending)) as [off|] eqn:E; [|vm_compute in E; discriminate E].
  destruct H as (f & rest & ? & ?). exists off, f, rest. split; [reflexivity|split; assumption].
Defined.
