(* ===== verification/Timer.v ===== *)
(** * Timer: one timer, and the arithmetic of deadlines

    Models [include/hvnetpp/Timer.h], [include/hvnetpp/TimerId.h],
    [src/Timer.cpp] and the timespec computation of [src/TimerQueue.cpp].  A
    [Timestamp] is a [steady_clock] time point, an [int64_t] count of
    nanoseconds; a [TimeDelta] is an [int64_t] count of microseconds.  Signed
    overflow is a fault. *)

From S2P Require Import Prelude.

(** ** Durations *)
Definition ns_per_us : Z := 1000.
Definition us_per_s : Z := 1000000.

(** Implicit conversion of a [TimeDelta] to the clock's duration. *)
Definition us_to_ns (d : Z) : res Z := i64 (d * ns_per_us).
(** [duration_cast<microseconds>]: truncation toward zero. *)
Definition ns_to_us (d : Z) : Z := Z.quot d ns_per_us.

(** ** Timer *)
Record Timer : Type := mkTimer {
  callback_ : nat;        (* the identity of the callback *)
  expiration_ : Z;
  interval_ : Z;
  repeat_ : bool;
  sequence_ : Z
}.

(** The constructor, with the counter [s_numCreated_]. *)
Definition Timer_new (cb : nat) (when interval : Z) (numCreated : Z) : res (Timer * Z) :=
  seq ← i64 (numCreated + 1);
  Ok (mkTimer cb when interval (0 <? interval) seq, numCreated + 1).

Definition set_expiration (t : Timer) (e : Z) : Timer :=
  mkTimer (callback_ t) e (interval_ t) (repeat_ t) (sequence_ t).

Definition restart (t : Timer) (now : Z) : res Timer :=
  if repeat_ t then
    if 0 <? interval_ t then
      iv ← us_to_ns (interval_ t);
      e1 ← i64 (expiration_ t + iv);
      if e1 <=? now then
        diff ← i64 (now - e1);
        let overdue := ns_to_us diff in
        skipped ← i64 (Z.quot overdue (interval_ t) + 1);
        total ← i64 (interval_ t * skipped);
        total_ns ← us_to_ns total;
        e2 ← i64 (e1 + total_ns);
        Ok (set_expiration t e2)
      else Ok (set_expiration t e1)
    else Ok (set_expiration t now)
  else Ok (set_expiration t 0).

(** [TimerId]: the pointer (0 for null) and the sequence number. *)
Definition TimerId : Type := Z * Z.
Definition TimerId_default : TimerId := (0, 0).
Definition TimerId_valid (id : TimerId) : bool := negb (id.1 =? 0).

(** ** The timespec given to [timerfd_settime] *)
Record timespec : Type := mkTimespec { tv_sec : Z; tv_nsec : Z }.

Definition howMuchTimeFromNow (when now : Z) : res timespec :=
  d ← i64 (when - now);
  let us := ns_to_us d in
  let us := if us <? 100 then 100 else us in
  Ok (mkTimespec (Z.quot us us_per_s) (Z.rem us us_per_s * 1000)).

Definition timespec_ns (ts : timespec) : Z := tv_sec ts * 1000000000 + tv_nsec ts.

(** ** Bounds under which no computation overflows

    Clock readings below [2 ^ 61] ns (73 years of uptime) and intervals of at
    most [2 ^ 61] ns. *)
Definition clock_ok (now : Z) : Prop := 0 < now < 2 ^ 61.
Definition interval_ok (interval : Z) : Prop := interval * ns_per_us <= 2 ^ 61.
Definition timer_ok (t : Timer) : Prop :=
  - 2 ^ 61 <= expiration_ t <= 2 ^ 62 /\ interval_ok (interval_ t) /\
  repeat_ t = (0 <? interval_ t).

#[global] Instance timer_ok_dec t : Decision (timer_ok t).
Proof. unfold timer_ok, interval_ok. apply _. Defined.

Lemma quot_pos_spec a b : 0 <= a -> 0 < b -> 0 <= a - b * Z.quot a b < b /\ 0 <= Z.quot a b.
Proof.
  intros. rewrite Z.quot_div_nonneg by lia.
  pose proof (Z.div_mod a b). pose proof (Z.mod_pos_bound a b).
  pose proof (Z.div_pos a b). lia.
Qed.

(** The number of skipped periods: the least that passes [now]. *)
Lemma skipped_spec e1 now iv :
  0 < iv -> e1 <= now ->
  let skipped := Z.quot (ns_to_us (now - e1)) iv + 1 in
  now < e1 + iv * skipped * ns_per_us <= now + iv * ns_per_us /\ 1 <= skipped.
Proof.
  intros Hiv He. unfold ns_to_us, ns_per_us.
  pose proof (quot_pos_spec (now - e1) 1000 ltac:(lia) ltac:(lia)) as [H1 H2].
  pose proof (quot_pos_spec (Z.quot (now - e1) 1000) iv ltac:(lia) ltac:(lia)) as [H3 H4].
  simpl. nia.
Qed.

Lemma restart_repeat t now :
  repeat_ t = true -> 0 < interval_ t -> interval_ok (interval_ t) ->
  clock_ok now -> - 2 ^ 61 <= expiration_ t <= now ->
  exists n, 1 <= n /\
    restart t now = Ok (set_expiration t (expiration_ t + n * (interval_ t * ns_per_us))) /\
    now < expiration_ t + n * (interval_ t * ns_per_us) <= now + interval_ t * ns_per_us.
Proof.
  unfold interval_ok, clock_ok, restart, us_to_ns, ns_per_us. intros Hr Hi Hiv Hnow He.
  rewrite Hr, (proj2 (Z.ltb_lt 0 _)) by done.
  rewrite i64_Ok by lia. simpl. rewrite i64_Ok by lia. simpl.
  set (e1 := expiration_ t + interval_ t * 1000).
  destruct (Z.leb_spec e1 now) as [Hle|Hgt].
  - destruct (skipped_spec e1 now (interval_ t) Hi Hle) as [Hs Hs1]. simpl in Hs, Hs1.
    unfold ns_per_us in *. set (k := Z.quot _ _ + 1) in *.
    assert (interval_ t * k * 1000 <= 2 ^ 61 + 2 ^ 61 + 2 ^ 61) by lia.
    rewrite i64_Ok by lia. simpl. fold k. rewrite i64_Ok by nia. simpl.
    rewrite i64_Ok by nia. simpl. rewrite i64_Ok by nia. simpl. rewrite i64_Ok by nia. simpl.
    exists (1 + k). split; [lia|]. split; [f_equal; f_equal; lia|lia].
  - exists 1. split; [lia|]. split; [f_equal; f_equal; lia|lia].
Qed.

Lemma howMuchTimeFromNow_spec when now :
  clock_ok now -> - 2 ^ 61 <= when <= 2 ^ 62 ->
  exists ts, howMuchTimeFromNow when now = Ok ts /\
    0 <= tv_sec ts /\ 0 <= tv_nsec ts < 1000000000 /\
    timespec_ns ts = Z.max 100 (ns_to_us (when - now)) * ns_per_us.
Proof.
  unfold clock_ok, howMuchTimeFromNow. intros Hnow Hw. rewrite i64_Ok by lia. simpl.
  set (us := if ns_to_us (when - now) <? 100 then 100 else ns_to_us (when - now)).
  assert (us = Z.max 100 (ns_to_us (when - now)) /\ 100 <= us) as [Hus Hpos].
  { unfold us. destruct (Z.ltb_spec (ns_to_us (when - now)) 100); lia. }
  eexists. split; [done|]. unfold timespec_ns; simpl. rewrite <- Hus.
  pose proof (quot_pos_spec us us_per_s ltac:(lia) ltac:(done)) as [H1 H2].
  pose proof (Z.quot_rem us us_per_s ltac:(done)) as H3. unfold us_per_s, ns_per_us in *. lia.
Qed.

(** ** Properties *)

(** a repeating timer that fires at [now] is rescheduled on its own grid:
    the new expiration is the old one plus a whole number of intervals, it is
    the first such time after [now] (so missed periods are skipped, not
    queued up), and nothing overflows; a one-shot timer is marked invalid. *)
Theorem restart_next_period t now :
  timer_ok t -> clock_ok now -> expiration_ t <= now ->
  exists e, restart t now = Ok (set_expiration t e) /\
    if repeat_ t
    then (exists n, 1 <= n /\ e = expiration_ t + n * (interval_ t * ns_per_us)) /\
         now < e <= now + interval_ t * ns_per_us
    else e = 0.
Proof.
  intros (He & Hiv & Hr) Hnow Hexp. destruct (repeat_ t) eqn:E.
  - symmetry in Hr. bool_hyps.
    destruct (restart_repeat t now) as (n & Hn & Hres & Hb); [done..|lia|].
    eexists. split; [exact Hres|]. eauto.
  - exists 0. unfold restart. by rewrite E.
Qed.

(** A 250 ms timer due at 1 s that fires at 2.6 s goes to 2.75 s. *)
Lemma restart_next_period_witness :
  exists e, restart (mkTimer 7 1000000000 250000 true 1) 2600000000 =
      Ok (set_expiration (mkTimer 7 1000000000 250000 true 1) e) /\
    (exists n, 1 <= n /\ e = 1000000000 + n * (250000 * ns_per_us)) /\
    2600000000 < e <= 2600000000 + 250000 * ns_per_us.
Proof.
  apply (restart_next_period (mkTimer 7 1000000000 250000 true 1) 2600000000).
  - by apply (bool_decide_unpack _).
  - unfold clock_ok. lia.
  - simpl. lia.
Defined.
Example restart_example :
  restart (mkTimer 7 1000000000 250000 true 1) 2600000000 =
    Ok (mkTimer 7 2750000000 250000 true 1).
Proof. vm_compute. reflexivity. Qed.

(** C35: the value given to [timerfd_settime] is a valid timespec
    ([0 <= tv_nsec < 10^9]), is never zero (which would disarm the timer),
    and is the time left truncated to microseconds, but at least 100
    microseconds. *)
Theorem howMuchTimeFromNow_valid when now :
  clock_ok now -> - 2 ^ 61 <= when <= 2 ^ 62 ->
  exists ts, howMuchTimeFromNow when now = Ok ts /\
    0 <= tv_sec ts /\ 0 <= tv_nsec ts < 1000000000 /\ 0 < timespec_ns ts /\
    timespec_ns ts = Z.max (100 * ns_per_us) (ns_to_us (when - now) * ns_per_us).
Proof.
  intros Hnow Hw. destruct (howMuchTimeFromNow_spec when now Hnow Hw) as (ts & -> & ? & ? & E).
  exists ts. rewrite E. unfold ns_per_us. split_and!; done || lia.
Qed.

Lemma howMuchTimeFromNow_valid_witness :
  exists ts, howMuchTimeFromNow 3500000999 1000000000 = Ok ts /\
    0 <= tv_sec ts /\ 0 <= tv_nsec ts < 1000000000 /\ 0 < timespec_ns ts /\
    timespec_ns ts = 2500000000.
Proof. apply (howMuchTimeFromNow_valid 3500000999 1000000000); unfold clock_ok; lia. Defined.
