(* ===== verification/TimerQueue.v ===== *)
(** * TimerQueue: all the timers of a loop

    Models [include/hvnetpp/TimerQueue.h] and [src/TimerQueue.cpp] as executed
    on the loop's thread, and [addTimer] on another thread interleaved with what
    the loop does meanwhile ([foreign_hand_over]).  Timers are objects of a heap, a map from addresses
    to [Timer]; [new] and [delete] extend and shrink it, and following a
    pointer to no live timer is the fault [BadPointer].

    The callbacks are user code.  What a callback may do to the timer queue
    is a list of [tact]: add a timer, cancel one, take some time.  One
    execution of [handleRead] is given a plan, one such list for each callback
    it runs; the theorems hold for every plan.  [handleRead] is written over any
    state of which the timer queue's is a [Part], for callbacks that do more. *)

From Stdlib Require Import Sorted.
From S2P Require Import Prelude Timer.

(** ** [std::set<std::pair<Timestamp, Timer*>>]: a sorted list *)
Definition Entry : Type := Z * Z.

Definition entry_ltb (a b : Entry) : bool :=
  (a.1 <? b.1) || ((a.1 =? b.1) && (a.2 <? b.2)).
Definition entry_lt (a b : Entry) : Prop := a.1 < b.1 \/ (a.1 = b.1 /\ a.2 < b.2).

(** [insert]: whether the element is new, and the set. *)
Fixpoint set_insert (e : Entry) (l : list Entry) : bool * list Entry :=
  match l with
  | [] => (true, [e])
  | x :: l' =>
      if entry_ltb e x then (true, e :: l)
      else if entry_ltb x e then let '(b, l'') := set_insert e l' in (b, x :: l'')
      else (false, l)
  end.

(** [erase(key)]: how many elements were removed, and the set. *)
Fixpoint set_erase (e : Entry) (l : list Entry) : Z * list Entry :=
  match l with
  | [] => (0, [])
  | x :: l' =>
      if entry_ltb e x then (0, l)
      else if entry_ltb x e then let '(n, l'') := set_erase e l' in (n, x :: l'')
      else (1, l')
  end.

(** [begin() .. lower_bound(key)] and the rest. *)
Fixpoint set_split (key : Entry) (l : list Entry) : list Entry * list Entry :=
  match l with
  | [] => ([], [])
  | x :: l' =>
      if entry_ltb x key then let '(a, b) := set_split key l' in (x :: a, b) else ([], l)
  end.

Definition UINTPTR_MAX : Z := 2 ^ 64 - 1.

(** ** The object

    [tfd] is the last value given to [timerfd_settime], with the time of the
    call; [None] when disarmed or expired.  [fired] is a history variable: the
    timers run, with the time. *)
Record TimerQueue : Type := mkTQ {
  heap : gmap Z Timer;
  timers_ : list Entry;
  activeTimers_ : gset (Z * Z);
  callingExpiredTimers_ : bool;
  cancelingTimers_ : gset (Z * Z);
  numCreated : Z;
  clock : Z;
  tfd : option (Z * timespec);
  fired : list (TimerId * Z)
}.

Definition set_heap (s : TimerQueue) h : TimerQueue :=
  mkTQ h (timers_ s) (activeTimers_ s) (callingExpiredTimers_ s) (cancelingTimers_ s)
    (numCreated s) (clock s) (tfd s) (fired s).
Definition set_sets (s : TimerQueue) l a : TimerQueue :=
  mkTQ (heap s) l a (callingExpiredTimers_ s) (cancelingTimers_ s)
    (numCreated s) (clock s) (tfd s) (fired s).
Definition set_calling (s : TimerQueue) b : TimerQueue :=
  mkTQ (heap s) (timers_ s) (activeTimers_ s) b (cancelingTimers_ s)
    (numCreated s) (clock s) (tfd s) (fired s).
Definition set_canceling (s : TimerQueue) c : TimerQueue :=
  mkTQ (heap s) (timers_ s) (activeTimers_ s) (callingExpiredTimers_ s) c
    (numCreated s) (clock s) (tfd s) (fired s).
Definition set_created (s : TimerQueue) n : TimerQueue :=
  mkTQ (heap s) (timers_ s) (activeTimers_ s) (callingExpiredTimers_ s) (cancelingTimers_ s)
    n (clock s) (tfd s) (fired s).
Definition set_clock (s : TimerQueue) c : TimerQueue :=
  mkTQ (heap s) (timers_ s) (activeTimers_ s) (callingExpiredTimers_ s) (cancelingTimers_ s)
    (numCreated s) c (tfd s) (fired s).
Definition set_tfd (s : TimerQueue) t : TimerQueue :=
  mkTQ (heap s) (timers_ s) (activeTimers_ s) (callingExpiredTimers_ s) (cancelingTimers_ s)
    (numCreated s) (clock s) t (fired s).
Definition log_fired (s : TimerQueue) id : TimerQueue :=
  mkTQ (heap s) (timers_ s) (activeTimers_ s) (callingExpiredTimers_ s) (cancelingTimers_ s)
    (numCreated s) (clock s) (tfd s) (fired s ++ [(id, clock s)]).

Definition TimerQueue_new (now : Z) : TimerQueue := mkTQ ∅ [] ∅ false ∅ 0 now None [].

(** ** The timer descriptor *)
Definition resetTimerfd (s : TimerQueue) (expiration : Z) : res TimerQueue :=
  ts ← howMuchTimeFromNow expiration (clock s);
  Ok (set_tfd s (Some (clock s, ts))).

Definition disarmTimerfd (s : TimerQueue) : TimerQueue := set_tfd s None.

(** ** Operations *)
Definition sizes_agree (s : TimerQueue) : bool := Nat.eqb (length (timers_ s)) (size (activeTimers_ s)).

Definition insert (s : TimerQueue) (timer : Z) : res (bool * TimerQueue) :=
  assert_ (sizes_agree s);;
  t ← deref (heap s !! timer);
  let when := expiration_ t in
  let earliestChanged := match timers_ s with [] => true | it :: _ => when <? it.1 end in
  let '(inserted, l) := set_insert (when, timer) (timers_ s) in
  assert_ inserted;;
  assert_ (bool_decide ((timer, sequence_ t) ∉ activeTimers_ s));;
  let s' := set_sets s l ({[(timer, sequence_ t)]} ∪ activeTimers_ s) in
  assert_ (sizes_agree s');;
  Ok (earliestChanged, s').

Definition addTimerInLoop (s : TimerQueue) (timer : Z) : res TimerQueue :=
  '(earliestChanged, s') ← insert s timer;
  if earliestChanged : bool
  then t ← deref (heap s' !! timer); resetTimerfd s' (expiration_ t)
  else Ok s'.

Definition cancelInLoop (s : TimerQueue) (id : TimerId) : res TimerQueue :=
  assert_ (sizes_agree s);;
  if bool_decide (id ∈ activeTimers_ s) then
    let earliestChanged := match timers_ s with [] => false | it :: _ => it.2 =? id.1 end in
    t ← deref (heap s !! id.1);
    let '(n, l) := set_erase (expiration_ t, id.1) (timers_ s) in
    assert_ (n =? 1);;
    let s' := set_sets (set_heap s (delete id.1 (heap s))) l (activeTimers_ s ∖ {[id]}) in
    if earliestChanged then
      match l with
      | [] => Ok (disarmTimerfd s')
      | it :: _ => t' ← deref (heap s' !! it.2); resetTimerfd s' (expiration_ t')
      end
    else Ok s'
  else if callingExpiredTimers_ s
  then Ok (set_canceling s ({[id]} ∪ cancelingTimers_ s))
  else Ok s.

(** The loop of [getExpired]: [activeTimers_.erase(timer)], with its assert. *)
Fixpoint erase_active (s : TimerQueue) (expired : list Entry) : res TimerQueue :=
  match expired with
  | [] => Ok s
  | e :: es =>
      t ← deref (heap s !! e.2);
      assert_ (bool_decide ((e.2, sequence_ t) ∈ activeTimers_ s));;
      erase_active (set_sets s (timers_ s) (activeTimers_ s ∖ {[(e.2, sequence_ t)]})) es
  end.

Definition getExpired (s : TimerQueue) (now : Z) : res (list Entry * TimerQueue) :=
  let '(expired, l) := set_split (now, UINTPTR_MAX) (timers_ s) in
  s' ← erase_active (set_sets s l (activeTimers_ s)) expired;
  Ok (expired, s').

(** The loop of [reset] over the expired timers. *)
Fixpoint reset_loop (s : TimerQueue) (expired : list Entry) (now : Z) : res TimerQueue :=
  match expired with
  | [] => Ok s
  | e :: es =>
      t ← deref (heap s !! e.2);
      if repeat_ t && bool_decide ((e.2, sequence_ t) ∉ cancelingTimers_ s)
      then
        t' ← restart t now;
        '(_, s') ← insert (set_heap s (<[e.2 := t']> (heap s))) e.2;
        reset_loop s' es now
      else reset_loop (set_heap s (delete e.2 (heap s))) es now
  end.

Definition reset (s : TimerQueue) (expired : list Entry) (now : Z) : res TimerQueue :=
  s' ← reset_loop s expired now;
  nextExpire ← match timers_ s' with
               | [] => Ok 0
               | it :: _ => t ← deref (heap s' !! it.2); Ok (expiration_ t)
               end;
  if negb (nextExpire =? 0) then resetTimerfd s' nextExpire else Ok s'.

(** ** User code: what callbacks and the application do *)
Inductive tact : Type :=
| ActAdd (cb : nat) (when interval : Z)
| ActCancel (id : TimerId)
| ActElapse (d : Z).

#[global] Instance tact_eq_dec : EqDecision tact.
Proof. solve_decision. Defined.

Section with_alloc.
(** The allocator behind [new Timer]. *)
Context (alloc : gmap Z Timer -> Z).

(** [new Timer(cb, when, interval)]. *)
Definition new_timer (s : TimerQueue) (cb : nat) (when interval : Z) : res (Z * TimerQueue) :=
  '(t, n) ← Timer_new cb when interval (numCreated s);
  let p := alloc (heap s) in
  Ok (p, set_created (set_heap s (<[p := t]> (heap s))) n).

(** [return TimerId(timer, timer->sequence())]. *)
Definition addTimer_return (s : TimerQueue) (p : Z) : res TimerId :=
  t ← deref (heap s !! p); Ok (p, sequence_ t).

(** [addTimer]: what happens between [new] and [return], from the call of
    [runInLoop] on, is [hand_over]. *)
Definition addTimer_by (hand_over : TimerQueue -> Z -> res TimerQueue) (s : TimerQueue) (cb : nat) (when interval : Z)
  : res (TimerId * TimerQueue) :=
  '(p, s1) ← new_timer s cb when interval;
  s2 ← hand_over s1 p;
  id ← addTimer_return s2 p;
  Ok (id, s2).

(** [addTimer] and [cancel] on the loop's thread, where [runInLoop] calls at
    once. *)
Definition addTimer : TimerQueue -> nat -> Z -> Z -> res (TimerId * TimerQueue) := addTimer_by addTimerInLoop.

Definition cancel (s : TimerQueue) (id : TimerId) : res TimerQueue := cancelInLoop s id.

Definition do_act (s : TimerQueue) (a : tact) : res TimerQueue :=
  match a with
  | ActAdd cb when interval => '(_, s') ← addTimer s cb when interval; Ok s'
  | ActCancel id => cancel s id
  | ActElapse d => Ok (set_clock s (clock s + d))
  end.

Fixpoint do_acts (s : TimerQueue) (acts : list tact) : res TimerQueue :=
  match acts with
  | [] => Ok s
  | a :: acts' => s' ← do_act s a; do_acts s' acts'
  end.

End with_alloc.

(** *** [handleRead]

    The callbacks run on the whole state [W]; [code] runs what the plan says one
    of them does. *)
Section handle_read.
Context {W X : Type} `{Part W TimerQueue} (code : W -> list X -> res W).

(** The loop of [handleRead]: run each expired timer's callback. *)
Fixpoint run_expired (w : W) (expired : list Entry) (plan : list (list X)) : res W :=
  match expired with
  | [] => Ok w
  | e :: es =>
      t ← deref (heap (get w) !! e.2);
      w' ← code (modify (fun s => log_fired s (e.2, sequence_ t)) w) (default [] (head plan));
      run_expired w' es (tail plan)
  end.

Definition handleRead (w : W) (plan : list (list X)) : res W :=
  let now := clock (get w) in
  '(expired, s1) ← getExpired (get w) now;
  w3 ← run_expired (put w (set_canceling (set_calling s1 true) ∅)) expired plan;
  s5 ← reset (set_calling (get w3) false) expired now;
  Ok (put w3 s5).
End handle_read.

Lemma handleRead_approx {W X} `{Part W TimerQueue} (code code' : W -> list X -> res W) w plan :
  (forall w l, approx (code w l) (code' w l)) -> approx (handleRead code w plan) (handleRead code' w plan).
Proof.
  intros Hc. unfold handleRead. apply approx_bind; [done|]. intros [expired s1].
  apply approx_bind; [|done]. generalize (put w (set_canceling (set_calling s1 true) ∅)). revert plan.
  induction expired as [|e es IH]; intros plan w1; cbn [run_expired]; [done|].
  apply approx_bind; [done|]. intros t. apply approx_bind; [apply Hc|]. intros w2. apply IH.
Qed.

(** The descriptor expires, at which the kernel disarms it, and the loop
    calls [handleRead]; the callbacks only use timers. *)
Definition fire alloc (s : TimerQueue) (plan : list (list tact)) : res TimerQueue :=
  handleRead (do_acts alloc) (disarmTimerfd s) plan.

(** The destructor deletes the timers still scheduled. *)
Definition TimerQueue_delete (s : TimerQueue) : gmap Z Timer :=
  foldl (fun h e => delete e.2 h) (heap s) (timers_ s).

(** ** Lemmas on the sorted sets *)
Section sets.
Implicit Types (e x : Entry) (l : list Entry).

Lemma entry_ltb_spec a b : reflect (entry_lt a b) (entry_ltb a b).
Proof.
  apply iff_reflect. unfold entry_lt, entry_ltb.
  rewrite orb_true_iff, andb_true_iff, Z.eqb_eq, !Z.ltb_lt. done.
Qed.

#[global] Instance entry_lt_trans : Transitive entry_lt.
Proof. unfold entry_lt. intros [] [] []; simpl. lia. Qed.

Lemma entry_lt_irrefl a : ~ entry_lt a a.
Proof. unfold entry_lt. lia. Qed.

Lemma entry_lt_total a b : entry_lt a b \/ a = b \/ entry_lt b a.
Proof.
  unfold entry_lt. destruct a as [a1 a2], b as [b1 b2]; simpl.
  destruct (Z.lt_trichotomy a1 b1) as [?|[->|?]]; [lia| |lia].
  destruct (Z.lt_trichotomy a2 b2) as [?|[->|?]]; auto.
Qed.

Lemma sorted_head_min e l x :
  StronglySorted entry_lt (e :: l) -> x ∈ l -> entry_lt e x.
Proof. intros [_ H]%StronglySorted_inv Hx. by eapply Forall_forall in H. Qed.

Lemma set_insert_spec e l :
  StronglySorted entry_lt l -> e ∉ l ->
  exists a b, l = a ++ b /\ set_insert e l = (true, a ++ e :: b) /\
    StronglySorted entry_lt (a ++ e :: b) /\ Forall (fun x => entry_lt x e) a.
Proof.
  induction l as [|x l IH]; intros Hs He; simpl.
  { exists [], []. split_and!; try done. repeat constructor. }
  destruct (entry_ltb_spec e x) as [Hex|Hex].
  - exists [], (x :: l). split_and!; try done. constructor; [done|].
    apply StronglySorted_inv in Hs as [_ Hs]. constructor; [done|].
    eapply Forall_impl; [done|]. intros y Hy. by trans x.
  - apply not_elem_of_cons in He as [Hne He].
    assert (entry_lt x e) as Hxe by (destruct (entry_lt_total e x) as [?|[?|?]]; done).
    destruct (entry_ltb_spec x e); [|done].
    pose proof (StronglySorted_inv Hs) as [Hs' Hall].
    destruct (IH Hs' He) as (a & b & -> & -> & Hsort & Hlt).
    exists (x :: a), b. split_and!; try done; [|by constructor].
    simpl. constructor; [done|]. rewrite Forall_app in *. rewrite Forall_cons. naive_solver.
Qed.

Lemma set_erase_spec e l :
  StronglySorted entry_lt l -> e ∈ l ->
  exists a b, l = a ++ e :: b /\ set_erase e l = (1, a ++ b).
Proof.
  induction l as [|x l IH]; intros Hs He; [by apply not_elem_of_nil in He|].
  apply elem_of_cons in He as [->|He]; simpl.
  - destruct (entry_ltb_spec x x) as [H|_]; [by apply entry_lt_irrefl in H|].
    by exists [], l.
  - pose proof (sorted_head_min _ _ _ Hs He) as Hxe.
    destruct (entry_ltb_spec e x) as [H|_].
    { exfalso. apply (entry_lt_irrefl e). by trans x. }
    destruct (entry_ltb_spec x e); [|done].
    apply StronglySorted_inv in Hs as [Hs _].
    destruct (IH Hs He) as (a & b & -> & ->). by exists (x :: a), b.
Qed.

Lemma set_split_spec key l :
  StronglySorted entry_lt l ->
  exists a b, l = a ++ b /\ set_split key l = (a, b) /\
    Forall (fun x => entry_lt x key) a /\ Forall (fun x => ~ entry_lt x key) b.
Proof.
  induction l as [|x l IH]; intros Hs; simpl; [by exists [], []|].
  pose proof (StronglySorted_inv Hs) as [Hs' Hall].
  destruct (entry_ltb_spec x key) as [Hlt|Hge].
  - destruct (IH Hs') as (a & b & -> & -> & ? & ?). exists (x :: a), b.
    split_and!; try done. by constructor.
  - exists [], (x :: l). split_and!; try done. constructor; [done|].
    eapply Forall_impl; [done|]. intros y Hy ?. apply Hge. by trans y.
Qed.

Lemma sorted_sublist (a b c : list Entry) :
  StronglySorted entry_lt (a ++ b ++ c) -> StronglySorted entry_lt (a ++ c).
Proof.
  induction a as [|x a IH]; simpl; intros Hs.
  - induction b as [|y b IHb]; [done|]. by apply StronglySorted_inv in Hs as [? _]; auto.
  - apply StronglySorted_inv in Hs as [Hs Hall]. constructor; [by apply IH|].
    rewrite !Forall_app in *. naive_solver.
Qed.
End sets.

(** ** The invariant

    [out] are the addresses of the timers that [handleRead] has taken out of
    the sets and is running; between two events it is empty, and then every
    live timer is scheduled. *)
Record tq_inv (out : list Z) (s : TimerQueue) : Prop := mkTqInv {
  i_sorted : StronglySorted entry_lt (timers_ s);
  i_nodup : NoDup ((timers_ s).*2 ++ out);
  i_dom p : is_Some (heap s !! p) <-> p ∈ (timers_ s).*2 ++ out;
  i_exp t p tm : (t, p) ∈ timers_ s -> heap s !! p = Some tm -> expiration_ tm = t;
  i_active p q : (p, q) ∈ activeTimers_ s <->
    p ∈ (timers_ s).*2 /\ exists tm, heap s !! p = Some tm /\ sequence_ tm = q;
  i_timer p tm : heap s !! p = Some tm ->
    timer_ok tm /\ 0 < sequence_ tm <= numCreated s /\ 0 < p < UINTPTR_MAX;
  i_seq p1 p2 t1 t2 : heap s !! p1 = Some t1 -> heap s !! p2 = Some t2 ->
    sequence_ t1 = sequence_ t2 -> p1 = p2;
  i_clock : clock_ok (clock s);
  i_created : 0 <= numCreated s
}.

(** [armed P]: if the earliest deadline satisfies [P], the descriptor was last
    set for that deadline. *)
Definition armed_for (s : TimerQueue) (when : Z) : Prop :=
  exists t0 ts, tfd s = Some (t0, ts) /\ t0 <= clock s /\ clock_ok t0 /\
    howMuchTimeFromNow when t0 = Ok ts.
Definition armed (P : Z -> Prop) (s : TimerQueue) : Prop :=
  match timers_ s with [] => True | it :: _ => P it.1 -> armed_for s it.1 end.

Lemma elem_of_ptrs (l : list Entry) p : p ∈ l.*2 <-> exists t, (t, p) ∈ l.
Proof.
  rewrite list_elem_of_fmap. split; [intros ([t p'] & -> & ?); eauto|].
  intros (t & ?). by exists (t, p).
Qed.

(** The active set is the image of the sorted set. *)
Definition ids_of (h : gmap Z Timer) (l : list Entry) : list (Z * Z) :=
  (fun e : Entry => (e.2, default 0 (sequence_ <$> h !! e.2))) <$> l.

Lemma active_eq out s :
  tq_inv out s -> activeTimers_ s = list_to_set (ids_of (heap s) (timers_ s)).
Proof.
  intros I. apply set_eq. intros [p q]. rewrite (i_active _ _ I), elem_of_list_to_set.
  rewrite elem_of_ptrs. unfold ids_of. rewrite list_elem_of_fmap. split.
  - intros [[t Ht] (tm & Hh & <-)]. exists (t, p). simpl. by rewrite Hh.
  - intros ([t p'] & [= -> ->] & Ht). split; [eauto|].
    destruct (proj2 (i_dom _ _ I p')) as [tm Htm].
    { apply elem_of_app. left. apply elem_of_ptrs. eauto. }
    exists tm. by rewrite Htm.
Qed.

Lemma sizes_agree_inv out s : tq_inv out s -> sizes_agree s = true.
Proof.
  intros I. unfold sizes_agree. rewrite (active_eq out s I), size_list_to_set.
  - unfold ids_of. rewrite length_fmap. apply Nat.eqb_refl.
  - pose proof (i_nodup _ _ I) as [Hn _]%NoDup_app. unfold ids_of.
    apply (NoDup_fmap_1 fst). by rewrite <- list_fmap_compose.
Qed.

(** ** How the pieces move

    Timers move between the sets and [out]; the heap is extended, updated and
    shrunk only at the addresses in [out]. *)
Section moves.
Implicit Types (s : TimerQueue) (out : list Z).

Lemma inv_move out out' s l act :
  tq_inv out s -> StronglySorted entry_lt l -> l.*2 ++ out' ≡ₚ (timers_ s).*2 ++ out ->
  (forall t p tm, (t, p) ∈ l -> heap s !! p = Some tm -> expiration_ tm = t) ->
  (forall p q, (p, q) ∈ act <-> p ∈ l.*2 /\ exists tm, heap s !! p = Some tm /\ sequence_ tm = q) ->
  tq_inv out' (set_sets s l act).
Proof.
  intros [? Hn Hd ? ? ? ? ? ?] Hs Hp He Ha. split; simpl; try done.
  - by rewrite Hp.
  - intros p. by rewrite Hp.
Qed.

Lemma inv_update out s p t t' :
  tq_inv (p :: out) s -> heap s !! p = Some t -> sequence_ t' = sequence_ t -> timer_ok t' ->
  tq_inv (p :: out) (set_heap s (<[p := t']> (heap s))).
Proof.
  intros I Hp Hseq Hok. pose proof I as [? Hn Hd He Ha Ht Hsq ? ?].
  assert (forall p', p' ∈ (timers_ s).*2 -> p <> p') as Hne.
  { intros p' Hp' <-. rewrite NoDup_app in Hn. destruct Hn as (_ & Hn & _).
    by apply (Hn p); [|left]. }
  assert (forall p' tm, <[p := t']> (heap s) !! p' = Some tm ->
    exists tm', heap s !! p' = Some tm' /\ sequence_ tm = sequence_ tm') as Hold.
  { intros p' tm. rewrite lookup_insert. case_decide as E; [subst p'|eauto].
    intros [= <-]. eauto. }
  split; simpl; try done.
  - intros p'. rewrite <- Hd, lookup_insert. case_decide as E; [subst p'|done].
    rewrite Hp. by split; eauto.
  - intros u p' tm Hin. rewrite lookup_insert_ne by (apply Hne, elem_of_ptrs; eauto). eauto.
  - intros p' q. rewrite Ha. split; intros [Hin ?]; split; try done;
      [rewrite lookup_insert_ne by auto; done|rewrite lookup_insert_ne in * by auto; done].
  - intros p' tm. rewrite lookup_insert. case_decide as E; [subst p'|apply Ht].
    intros [= <-]. rewrite Hseq. split; [done|]. by apply Ht in Hp as [_ ?].
  - intros p1 p2 t1 t2 (t1' & ? & ->)%Hold (t2' & ? & ->)%Hold. by eapply Hsq.
Qed.

Lemma inv_delete out s p :
  tq_inv (p :: out) s -> tq_inv out (set_heap s (delete p (heap s))).
Proof.
  intros [? Hn Hd He Ha Ht Hsq ? ?].
  rewrite <- Permutation_middle in Hn. apply NoDup_cons in Hn as [Hp Hn].
  assert (forall p' tm, delete p (heap s) !! p' = Some tm -> heap s !! p' = Some tm) as Hold.
  { intros p' tm. rewrite lookup_delete. by case_decide. }
  split; simpl; eauto.
  - intros p'. rewrite lookup_delete. case_decide as E.
    + subst p'. split; [by intros []|done].
    + rewrite Hd, <- Permutation_middle, elem_of_cons. naive_solver.
  - intros p' q. rewrite Ha. split; intros [Hin ?]; (split; [done|]).
    + rewrite lookup_delete_ne; [done|]. intros <-. apply Hp, elem_of_app. by left.
    + destruct H as (tm & ? & ?). eauto.
Qed.

Lemma inv_alloc out s p t n :
  tq_inv out s -> heap s !! p = None -> 0 < p < UINTPTR_MAX -> timer_ok t ->
  sequence_ t = numCreated s + 1 -> n = numCreated s + 1 ->
  tq_inv (p :: out) (set_created (set_heap s (<[p := t]> (heap s))) n).
Proof.
  intros [? Hn Hd He Ha Ht Hsq ? ?] Hp Hr Hok Hseq ->.
  assert (p ∉ (timers_ s).*2 ++ out) as Hfresh.
  { rewrite <- Hd, Hp. by intros []. }
  assert (forall p', p' ∈ (timers_ s).*2 -> p <> p') as Hne.
  { intros p' Hp' <-. apply Hfresh, elem_of_app. by left. }
  split; simpl; try done; try lia.
  - rewrite <- Permutation_middle. by constructor.
  - intros p'. rewrite <- Permutation_middle, elem_of_cons, <- Hd, lookup_insert.
    case_decide as E; [subst p'|naive_solver]. split; eauto.
  - intros u p' tm Hin. rewrite lookup_insert_ne by (apply Hne, elem_of_ptrs; eauto). eauto.
  - intros p' q. rewrite Ha. split; intros [Hin ?]; split; try done;
      [rewrite lookup_insert_ne by auto; done|rewrite lookup_insert_ne in * by auto; done].
  - intros p' tm. rewrite lookup_insert. case_decide as E.
    + intros [= <-]. subst p'. split_and!; done || lia.
    + intros Hh. destruct (Ht _ _ Hh) as (? & ? & ?). split_and!; done || lia.
  - intros p1 p2 t1 t2. rewrite !lookup_insert. repeat case_decide; intros H1 H2 E;
      simplify_eq; try done.
    + apply Ht in H2 as (_ & ? & _). lia.
    + apply Ht in H1 as (_ & ? & _). lia.
    + by eapply Hsq.
Qed.

(** Changes outside the sets and the heap. *)
Lemma inv_frame out s s' :
  tq_inv out s -> heap s' = heap s -> timers_ s' = timers_ s -> activeTimers_ s' = activeTimers_ s ->
  numCreated s' = numCreated s -> clock_ok (clock s') -> tq_inv out s'.
Proof.
  intros [? Hn Hd He Ha Ht Hsq ? ?] Eh Et Ea En Hc.
  split; rewrite ?Eh, ?Et, ?Ea, ?En; try done.
  all: intros *; rewrite ?Eh, ?Et, ?Ea, ?En; eauto.
Qed.
End moves.

(** ** The operations *)
Section ops.
Implicit Types (s : TimerQueue) (out : list Z) (P : Z -> Prop).

Lemma resetTimerfd_spec out s when :
  tq_inv out s -> - 2 ^ 61 <= when <= 2 ^ 62 ->
  exists s', resetTimerfd s when = Ok s' /\ tq_inv out s' /\ armed_for s' when /\
    exists x, s' = set_tfd s x.
Proof.
  intros I Hw. unfold resetTimerfd.
  destruct (howMuchTimeFromNow_spec when (clock s) (i_clock _ _ I) Hw) as (ts & E & _).
  rewrite E. simpl. eexists. split; [done|]. split_and!; [|exists (clock s), ts|eauto].
  - eapply inv_frame; try done. apply (i_clock _ _ I).
  - split_and!; try done. apply (i_clock _ _ I).
Qed.

Lemma exp_range out s t p : tq_inv out s -> (t, p) ∈ timers_ s -> - 2 ^ 61 <= t <= 2 ^ 62.
Proof.
  intros I Hin. destruct (proj2 (i_dom _ _ I p)) as [tm Htm].
  { apply elem_of_app. left. apply elem_of_ptrs. eauto. }
  rewrite <- (i_exp _ _ I _ _ _ Hin Htm). by apply (i_timer _ _ I) in Htm as [[? _] _].
Qed.

(** [insert] puts a timer of [out] into the sets. *)
Lemma insert_spec out s p t :
  tq_inv (p :: out) s -> heap s !! p = Some t ->
  exists a c, timers_ s = a ++ c /\
    let s' := set_sets s (a ++ (expiration_ t, p) :: c) ({[(p, sequence_ t)]} ∪ activeTimers_ s) in
    insert s p = Ok (match timers_ s with [] => true | it :: _ => expiration_ t <? it.1 end, s') /\
    tq_inv out s' /\ Forall (fun x => entry_lt x (expiration_ t, p)) a.
Proof.
  intros I Hp. unfold insert. rewrite (sizes_agree_inv _ _ I), Hp. simpl.
  assert (p ∉ (timers_ s).*2) as Hnew.
  { pose proof (i_nodup _ _ I) as Hn. rewrite NoDup_app in Hn. destruct Hn as (_ & Hn & _).
    intros Hin. by apply (Hn p Hin); left. }
  destruct (set_insert_spec (expiration_ t, p) (timers_ s)) as (a & c & E1 & E2 & Hs & Hlt).
  { apply (i_sorted _ _ I). }
  { intros Hin. apply Hnew, elem_of_ptrs. eauto. }
  exists a, c. split; [done|]. rewrite E2. simpl. set (s' := set_sets s _ _).
  assert (tq_inv out s') as I'.
  { eapply inv_move; [done|done|..].
    - rewrite E1, !fmap_app. simpl. rewrite <- !app_assoc. simpl. by rewrite <- !Permutation_middle.
    - intros u p' tm Hin Htm. apply elem_of_app in Hin as [Hin|[Heq|Hin]%elem_of_cons].
      + eapply (i_exp _ _ I); [|done]. rewrite E1. apply elem_of_app. by left.
      + simplify_eq. congruence.
      + eapply (i_exp _ _ I); [|done]. rewrite E1. apply elem_of_app. by right.
    - intros p' q. rewrite elem_of_union, elem_of_singleton, (i_active _ _ I), E1.
      rewrite !fmap_app, fmap_cons, !elem_of_app, elem_of_cons. simpl.
      split; [|naive_solver]. intros [[= -> ->]|[[?|?] ?]]; naive_solver. }
  rewrite bool_decide_eq_true_2.
  - simpl. rewrite (sizes_agree_inv _ _ I'). done.
  - rewrite (i_active _ _ I). by intros [? _].
Qed.

(** Inserting keeps the descriptor armed, except when the new timer is
    strictly the earliest. *)
Lemma insert_armed P s a c e act :
  timers_ s = a ++ c -> Forall (fun x => entry_lt x e) a -> armed P s ->
  ((match timers_ s with [] => true | it :: _ => e.1 <? it.1 end) = false \/ ~ P e.1) ->
  StronglySorted entry_lt (a ++ e :: c) ->
  armed P (set_sets s (a ++ e :: c) act).
Proof.
  unfold armed. intros E Hlt Ha Hor Hs. simpl. rewrite E in *.
  destruct a as [|x a]; simpl in *; [|done]. intros HP.
  destruct Hor as [Hf|]; [|done]. destruct c as [|it c]; [done|]. bool_hyps.
  pose proof (sorted_head_min _ _ it Hs ltac:(by left)) as Hord.
  assert (it.1 = e.1) as Heq by (unfold entry_lt in Hord; lia).
  rewrite <- Heq in *. by apply Ha.
Qed.

Lemma addTimerInLoop_spec out P s p t :
  tq_inv (p :: out) s -> heap s !! p = Some t -> armed P s ->
  exists s', addTimerInLoop s p = Ok s' /\ tq_inv out s' /\ armed P s' /\
    heap s' = heap s /\ (expiration_ t, p) ∈ timers_ s' /\
    exists l x, s' = set_tfd (set_sets s l ({[(p, sequence_ t)]} ∪ activeTimers_ s)) x.
Proof.
  intros I Hp Ha.
  destruct (insert_spec out s p t I Hp) as (a & c & E & Hins & I' & Hlt).
  unfold addTimerInLoop. rewrite Hins. simpl.
  set (s1 := set_sets _ _ _) in *.
  assert ((expiration_ t, p) ∈ timers_ s1) as Hin.
  { simpl. apply elem_of_app. right. by left. }
  destruct (match timers_ s with [] => true | it :: _ => _ end) eqn:Hb.
  - rewrite Hp. simpl.
    destruct (resetTimerfd_spec out s1 (expiration_ t) I') as (s' & -> & I'' & Harm & x & ->).
    { by eapply exp_range. }
    eexists. split_and!; try done; [|by eauto].
    unfold armed. simpl. destruct a as [|y a]; simpl; [done|].
    exfalso. rewrite E in Hb. simpl in Hb. bool_hyps. apply Forall_cons in Hlt as [Hlt _].
    unfold entry_lt in Hlt. simpl in Hlt. lia.
  - eexists. split_and!; try done; [|exists (timers_ s1), (tfd s); by destruct s].
    eapply insert_armed; try done; [by left|apply (i_sorted _ _ I')].
Qed.

(** [cancelInLoop] of a scheduled timer removes and frees it. *)
Lemma cancelInLoop_active out P s p q :
  tq_inv out s -> armed P s -> (p, q) ∈ activeTimers_ s ->
  exists s', cancelInLoop s (p, q) = Ok s' /\ tq_inv out s' /\ armed P s' /\
    heap s' = delete p (heap s) /\ (p ∉ (timers_ s').*2) /\
    exists l x, s' = set_tfd (set_sets (set_heap s (delete p (heap s))) l
                                (activeTimers_ s ∖ {[(p, q)]})) x.
Proof.
  intros I Ha Hact. unfold cancelInLoop. rewrite (sizes_agree_inv _ _ I). simpl.
  rewrite bool_decide_eq_true_2 by done.
  pose proof Hact as Hact'. apply (i_active _ _ I) in Hact' as [[u Hu]%elem_of_ptrs (t & Ht & Hq)].
  rewrite Ht. simpl. rewrite (i_exp _ _ I _ _ _ Hu Ht).
  destruct (set_erase_spec (u, p) (timers_ s) (i_sorted _ _ I) Hu) as (a & b & E & ->). simpl.
  assert (tq_inv (p :: out) (set_sets s (a ++ b) (activeTimers_ s ∖ {[(p, q)]}))) as I1.
  { eapply inv_move; [done|..].
    - pose proof (i_sorted _ _ I) as Hs. rewrite E in Hs. by apply (sorted_sublist a [(u, p)] b).
    - rewrite E, !fmap_app. simpl. rewrite <- !app_assoc. simpl. by rewrite <- !Permutation_middle.
    - intros u' p' tm Hin. eapply (i_exp _ _ I). rewrite E.
      apply elem_of_app in Hin as [?|?]; apply elem_of_app; [by left|by right; right].
    - pose proof (i_nodup _ _ I) as [Hn _]%NoDup_app. rewrite E, fmap_app in Hn. simpl in Hn.
      rewrite <- Permutation_middle, <- fmap_app in Hn. apply NoDup_cons in Hn as [Hn _].
      intros p' q'. rewrite elem_of_difference, (i_active _ _ I), E, elem_of_singleton.
      rewrite !fmap_app, fmap_cons, !elem_of_app, elem_of_cons. simpl.
      rewrite fmap_app, elem_of_app in Hn.
      split; [|naive_solver]. intros [[[?|[->|?]] (tm & ? & ?)] Hne]; [by eauto| |by eauto].
      destruct Hne. congruence. }
  apply inv_delete in I1 as I2. simpl in I2.
  assert (p ∉ (a ++ b).*2) as Hgone.
  { pose proof (i_nodup _ _ I1) as Hn. simpl in Hn. rewrite NoDup_app in Hn.
    destruct Hn as (_ & Hn & _). intros Hin. by apply (Hn p Hin); left. }
  set (s' := set_sets (set_heap s (delete p (heap s))) (a ++ b) _).
  assert (tq_inv out s') as I' by done.
  assert ((match timers_ s with [] => false | it :: _ => it.2 =? p end) = bool_decide (a = [])) as ->.
  { rewrite E. destruct a as [|y a]; simpl; [by rewrite Z.eqb_refl|].
    apply Z.eqb_neq. intros Heq. apply Hgone. simpl. rewrite Heq. by left. }
  case_bool_decide as Hempty.
  - subst a. destruct b as [|it b]; simpl.
    + eexists. split_and!; try done; [|by eauto]. eapply inv_frame; try done. apply (i_clock _ _ I').
    + destruct (proj2 (i_dom _ _ I' it.2)) as [t' Ht'].
      { apply elem_of_app. left. simpl. by left. }
      simpl in Ht'. rewrite Ht'. simpl.
      assert ((it.1, it.2) ∈ timers_ s') as Hit by (destruct it; by left).
      rewrite (i_exp _ _ I' _ _ _ Hit Ht').
      destruct (resetTimerfd_spec out s' it.1 I') as (s2 & -> & I'' & Harm & x & ->).
      { by eapply exp_range. }
      eexists. split_and!; try done; [intros _; exact Harm|by eauto 6].
  - destruct a as [|y a]; [done|]. eexists. split_and!; try done.
    + unfold armed in *. rewrite E in Ha. done.
    + exists (timers_ s'), (tfd s). by destruct s.
Qed.

(** Cancelling anything else changes at most the set of ids cancelled
    during the callbacks. *)
Lemma cancelInLoop_inactive out s id :
  tq_inv out s -> id ∉ activeTimers_ s ->
  cancelInLoop s id = Ok (if callingExpiredTimers_ s
    then set_canceling s ({[id]} ∪ cancelingTimers_ s) else s).
Proof.
  intros I Hn. unfold cancelInLoop. rewrite (sizes_agree_inv _ _ I). simpl.
  rewrite bool_decide_eq_false_2 by done. by case_match.
Qed.
End ops.

(** ** The allocator

    [new] returns a non-null address of no live timer, as long as fewer than
    [2 ^ 48] are live. *)
Definition max_timers : Z := 2 ^ 48.
Definition alloc_ok (alloc : gmap Z Timer -> Z) : Prop :=
  forall h, Z.of_nat (size h) < max_timers -> h !! alloc h = None /\ 0 < alloc h < UINTPTR_MAX.

(** An allocator: the first free address. *)
Definition alloc_first (h : gmap Z Timer) : Z :=
  default 0 (head (filter (fun p => h !! p = None) (seqZ 1 (Z.of_nat (size h) + 1)))).

Lemma alloc_first_ok : alloc_ok alloc_first.
Proof.
  intros h Hsz. unfold alloc_first, max_timers, UINTPTR_MAX in *.
  destruct (filter _ _) as [|p l] eqn:E.
  - exfalso. assert (seqZ 1 (Z.of_nat (size h) + 1) ⊆+ elements (dom h)) as Hsub.
    { apply NoDup_submseteq; [apply NoDup_seqZ|]. intros p Hp.
      apply elem_of_elements, elem_of_dom.
      destruct (h !! p) as [t|] eqn:Hh; [eauto|]. exfalso.
      apply (not_elem_of_nil p). rewrite <- E. by apply list_elem_of_filter. }
    apply submseteq_length in Hsub. rewrite length_seqZ in Hsub.
    change (length (elements (dom h))) with (size (dom h)) in Hsub. rewrite size_dom in Hsub. lia.
  - assert (p ∈ p :: l) as Hp by left. rewrite <- E in Hp.
    apply list_elem_of_filter in Hp as [Hh Hp]. apply elem_of_seqZ in Hp. simpl. split; [done|lia].
Qed.

(** No more timers live than were created. *)
Lemma heap_size out s : tq_inv out s -> Z.of_nat (size (heap s)) <= numCreated s.
Proof.
  intros I. pose proof (i_created _ _ I).
  assert ((fun x => sequence_ x.2) <$> map_to_list (heap s) ⊆+ seqZ 1 (numCreated s)) as Hsub.
  { apply NoDup_submseteq.
    - apply NoDup_fmap_2_strong; [|apply NoDup_map_to_list].
      intros [p1 t1] [p2 t2] H1%elem_of_map_to_list H2%elem_of_map_to_list; simpl. intros E.
      pose proof (i_seq _ _ I _ _ _ _ H1 H2 E). subst p2. congruence.
    - intros q ([p t] & -> & Ht%elem_of_map_to_list)%list_elem_of_fmap. simpl.
      apply (i_timer _ _ I) in Ht as (_ & ? & _). apply elem_of_seqZ. lia. }
  apply submseteq_length in Hsub. rewrite length_fmap, length_seqZ, length_map_to_list in Hsub. lia.
Qed.

(** ** User code *)
Definition act_ok (a : tact) : Prop :=
  match a with
  | ActAdd _ when interval => - 2 ^ 61 <= when <= 2 ^ 62 /\ interval_ok interval
  | ActCancel _ => True
  | ActElapse d => 0 <= d
  end.
Definition act_adds (a : tact) : Z := match a with ActAdd _ _ _ => 1 | _ => 0 end.
Definition act_time (a : tact) : Z := match a with ActElapse d => d | _ => 0 end.
Definition sum_acts (f : tact -> Z) (l : list tact) : Z := foldr (fun a n => f a + n) 0 l.

(** What user code may do from a state: reasonable times, and neither the
    clock nor the number of timers reaches its bound. *)
Definition acts_ok (s : TimerQueue) (acts : list tact) : Prop :=
  Forall act_ok acts /\
  clock s + sum_acts act_time acts < 2 ^ 61 /\
  numCreated s + sum_acts act_adds acts < max_timers.

Lemma sum_acts_app f l1 l2 : sum_acts f (l1 ++ l2) = sum_acts f l1 + sum_acts f l2.
Proof. induction l1 as [|a l1 IH]; simpl; [done|]. rewrite IH. lia. Qed.

Lemma sum_acts_nonneg acts :
  Forall act_ok acts -> 0 <= sum_acts act_time acts /\ 0 <= sum_acts act_adds acts.
Proof. induction 1 as [|[] l Ha Hl IH]; simpl in *; lia. Qed.

(** What user code does to the state, when [out] are the timers being run: it
    leaves these and the record of what ran alone, cancels exactly what it asks
    to cancel and keeps every other timer. *)
Record acts_frame (out : list Z) (acts : list tact) (s s' : TimerQueue) : Prop := mkFrame {
  f_clock : clock s' = clock s + sum_acts act_time acts;
  f_created : numCreated s' = numCreated s + sum_acts act_adds acts;
  f_calling : callingExpiredTimers_ s' = callingExpiredTimers_ s;
  f_fired : fired s' = fired s;
  f_heap p : p ∈ out -> heap s' !! p = heap s !! p;
  f_canceling id : callingExpiredTimers_ s = true -> id.1 ∈ out ->
    id ∈ cancelingTimers_ s' <-> id ∈ cancelingTimers_ s \/ ActCancel id ∈ acts;
  f_active id : id.2 <= numCreated s ->
    id ∈ activeTimers_ s' <-> id ∈ activeTimers_ s /\ ActCancel id ∉ acts;
  f_stay p q : q <= numCreated s -> (p, q) ∈ activeTimers_ s' -> heap s' !! p = heap s !! p
}.

Lemma frame_nil out s : acts_frame out [] s s.
Proof. split; simpl; try done; try lia; intros *; rewrite elem_of_nil; tauto. Qed.

Lemma frame_app out acts1 acts2 s1 s2 s3 :
  Forall act_ok acts1 ->
  acts_frame out acts1 s1 s2 -> acts_frame out acts2 s2 s3 ->
  acts_frame out (acts1 ++ acts2) s1 s3.
Proof.
  intros Hok [C1 N1 P1 F1 H1 K1 A1 S1] [C2 N2 P2 F2 H2 K2 A2 S2].
  pose proof (sum_acts_nonneg _ Hok).
  split; rewrite ?sum_acts_app; try lia; try congruence.
  - intros p Hp. by rewrite H2, H1.
  - intros id Hc Ho. rewrite elem_of_app, K2, K1 by congruence. tauto.
  - intros id Hid. rewrite elem_of_app, A2, A1 by lia. tauto.
  - intros p q Hq Hin. rewrite (S2 p q), (S1 p q); [done|done| |lia|done].
    apply A2 in Hin as [? _]; [done|simpl; lia].
Qed.

(** The record of what ran plays no role. *)
Definition set_fired (s : TimerQueue) f : TimerQueue :=
  mkTQ (heap s) (timers_ s) (activeTimers_ s) (callingExpiredTimers_ s) (cancelingTimers_ s)
    (numCreated s) (clock s) (tfd s) f.

Lemma frame_fired out acts s id s' f :
  acts_frame out acts (log_fired s id) s' -> acts_frame out acts (set_fired s f) (set_fired s' f).
Proof. intros []; split; try done. Qed.

Lemma armed_clock P s c : clock s <= c -> armed P s -> armed P (set_clock s c).
Proof.
  unfold armed. intros Hc Ha. simpl. destruct (timers_ s); [done|]. intros HP.
  destruct (Ha HP) as (t0 & ts & ? & ? & ? & ?). exists t0, ts. simpl. split_and!; done || lia.
Qed.

Lemma out_not_active out s p q : tq_inv out s -> p ∈ out -> (p, q) ∉ activeTimers_ s.
Proof.
  intros I Hp [Hin _]%(i_active _ _ I).
  pose proof (i_nodup _ _ I) as (_ & Hn & _)%NoDup_app. by apply (Hn p).
Qed.

Section user.
Context (alloc : gmap Z Timer -> Z) (Halloc : alloc_ok alloc).
Implicit Types (s : TimerQueue) (out : list Z) (P : Z -> Prop).

Lemma addTimer_spec out P s cb when interval :
  tq_inv out s -> armed P s -> - 2 ^ 61 <= when <= 2 ^ 62 -> interval_ok interval ->
  numCreated s + 1 < max_timers ->
  let id := (alloc (heap s), numCreated s + 1) in
  exists s', addTimer alloc s cb when interval = Ok (id, s') /\
    tq_inv out s' /\ armed P s' /\ acts_frame out [ActAdd cb when interval] s s' /\
    heap s !! id.1 = None /\
    heap s' = <[id.1 := mkTimer cb when interval (0 <? interval) id.2]> (heap s) /\
    (when, id.1) ∈ timers_ s' /\ id ∈ activeTimers_ s'.
Proof.
  intros I Ha Hw Hi Hn. pose proof (i_created _ _ I). pose proof (heap_size _ _ I).
  unfold max_timers in *.
  destruct (Halloc (heap s)) as [Hfresh Hrange]; [unfold max_timers; lia|].
  unfold addTimer, addTimer_by, new_timer, Timer_new. rewrite i64_Ok by lia. simpl.
  set (p := alloc (heap s)) in *. set (t := mkTimer _ _ _ _ _).
  set (s1 := set_created _ _).
  assert (tq_inv (p :: out) s1) as I1 by (apply inv_alloc; done).
  assert (heap s1 !! p = Some t) as Hp by apply lookup_insert_eq.
  assert (forall p', is_Some (heap s !! p') -> p <> p') as Hne.
  { intros p' [? ?] ->. congruence. }
  destruct (addTimerInLoop_spec out P s1 p t I1 Hp Ha)
    as (s2 & -> & I2 & Ha2 & Hh & Hin & l & x & ->). simpl.
  unfold addTimer_return. simpl. rewrite lookup_insert_eq. simpl.
  eexists. split; [done|]. split_and!; try done; [|simpl; set_solver].
  split; simpl; try done; try lia.
  - intros p' Hp'. apply lookup_insert_ne, Hne, (i_dom _ _ I), elem_of_app. by right.
  - intros id _ _. rewrite list_elem_of_singleton. naive_solver.
  - intros [p' q] Hq. simpl in Hq. rewrite elem_of_union, elem_of_singleton, list_elem_of_singleton.
    split; [|naive_solver]. intros [[= -> ->]|?]; [lia|]. split; [done|discriminate].
  - intros p' q Hq. rewrite elem_of_union, elem_of_singleton.
    intros [[= -> ->]|Hact]; [lia|]. apply lookup_insert_ne, Hne.
    apply (i_active _ _ I) in Hact as (_ & tm & ? & _). eauto.
Qed.

Lemma cancel_spec out P s id :
  tq_inv out s -> armed P s ->
  exists s', cancel s id = Ok s' /\ tq_inv out s' /\ armed P s' /\ acts_frame out [ActCancel id] s s'.
Proof.
  intros I Ha. destruct id as [p q]. unfold cancel.
  destruct (decide ((p, q) ∈ activeTimers_ s)) as [Hin|Hout].
  - destruct (cancelInLoop_active out P s p q I Ha Hin)
      as (s' & -> & I' & Ha' & Hh & Hgone & l & x & ->).
    eexists. split; [done|]. split_and!; try done. split; simpl; try done; try lia.
    + intros p' Hp'. apply lookup_delete_ne. intros <-. by apply (out_not_active out s p q I).
    + intros id _ Hid. rewrite list_elem_of_singleton. split; [tauto|].
      intros [?|[= ->]]; [done|]. exfalso. by apply (out_not_active out s p q I).
    + intros id _. rewrite elem_of_difference, elem_of_singleton, list_elem_of_singleton.
      split; intros [? Hne]; (split; [done|congruence]).
    + intros p' q' _ Hact. apply lookup_delete_ne. intros <-.
      apply (i_active _ _ I') in Hact as [? _]. by apply Hgone.
  - rewrite (cancelInLoop_inactive out) by done. eexists. split; [done|].
    assert (forall id, id ∈ activeTimers_ s ->  ActCancel id ∉ [ActCancel (p, q)]) as Hno.
    { intros id Hid [= ->]%list_elem_of_singleton. done. }
    destruct (callingExpiredTimers_ s) eqn:Hcall.
    + split_and!; [eapply inv_frame; try done; apply (i_clock _ _ I)|done|].
      split; simpl; try done; try lia.
      * intros id _ _. rewrite elem_of_union, elem_of_singleton, list_elem_of_singleton.
        split; [intros [->|?]; tauto|intros [?|[= ->]]; tauto].
      * intros id _. split; [|tauto]. intros Hid. split; [done|by apply Hno].
    + split_and!; try done. split; try done; simpl; try lia; [congruence|].
      intros id _. split; [|tauto]. intros Hid. split; [done|by apply Hno].
Qed.

Lemma do_act_spec out P s a :
  tq_inv out s -> armed P s -> acts_ok s [a] ->
  exists s', do_act alloc s a = Ok s' /\ tq_inv out s' /\ armed P s' /\ acts_frame out [a] s s'.
Proof.
  intros I Ha (Hok & Ht & Hc). rewrite Forall_singleton in Hok.
  destruct a as [cb when iv|id|d]; simpl in *.
  - destruct Hok as [Hw Hi].
    destruct (addTimer_spec out P s cb when iv) as (s' & -> & ? & ? & ? & _); [done..|lia|].
    by exists s'.
  - by apply cancel_spec.
  - eexists. split; [done|]. pose proof (i_clock _ _ I) as Hclk. unfold clock_ok in Hclk.
    split_and!.
    + eapply inv_frame; try done. unfold clock_ok. simpl. lia.
    + apply armed_clock; [lia|done].
    + split; simpl; try done; try lia; intros id *; rewrite list_elem_of_singleton; naive_solver.
Qed.

Lemma do_acts_spec out P s acts :
  tq_inv out s -> armed P s -> acts_ok s acts ->
  exists s', do_acts alloc s acts = Ok s' /\ tq_inv out s' /\ armed P s' /\ acts_frame out acts s s'.
Proof.
  revert s. induction acts as [|a acts IH]; intros s I Ha (Hok & Ht & Hc); simpl in *.
  { exists s. split_and!; try done. apply frame_nil. }
  apply Forall_cons in Hok as [Hok Hoks]. pose proof (sum_acts_nonneg acts Hoks).
  destruct (do_act_spec out P s a) as (s1 & -> & I1 & Ha1 & F1); [done..| |].
  { split_and!; [by apply Forall_singleton|simpl; lia..]. }
  pose proof (f_clock _ _ _ _ F1). pose proof (f_created _ _ _ _ F1). simpl in *.
  destruct (IH s1 I1 Ha1) as (s2 & E & I2 & Ha2 & F2); [split_and!; done || lia|].
  exists s2. split_and!; try done.
  apply (frame_app out [a] acts s s1 s2); [by apply Forall_singleton|done|done].
Qed.
End user.

(** ** The parts of [handleRead] *)
Section expired.
Implicit Types (s : TimerQueue).

Lemma erase_active_spec s es :
  NoDup es.*2 -> Forall (fun e : Entry => is_Some (heap s !! e.2)) es ->
  Forall (fun id => id ∈ activeTimers_ s) (ids_of (heap s) es) ->
  erase_active s es =
  Ok (set_sets s (timers_ s) (activeTimers_ s ∖ list_to_set (ids_of (heap s) es))).
Proof.
  revert s. induction es as [|[t p] es IH]; intros s Hn Hl Ha; simpl in *.
  { f_equal. destruct s; simpl. unfold set_sets; simpl. f_equal. set_solver. }
  apply NoDup_cons in Hn as [Hp Hn]. apply Forall_cons in Hl as [[tm Htm] Hl].
  simpl in Htm. rewrite Htm in Ha |- *. simpl in *. apply Forall_cons in Ha as [Ha1 Ha].
  rewrite bool_decide_eq_true_2 by done. simpl. rewrite IH; simpl; try done.
  - unfold set_sets. simpl. f_equal. f_equal. set_solver.
  - apply Forall_forall. intros [p' q] Hin.
    rewrite elem_of_difference, elem_of_singleton. split; [by eapply Forall_forall in Ha|].
    intros [= -> ->]. apply Hp. unfold ids_of in Hin.
    apply list_elem_of_fmap in Hin as (e & [= -> _] & He). apply list_elem_of_fmap. eauto.
Qed.

Lemma ids_of_active s es :
  tq_inv [] s -> es ⊆ timers_ s ->
  Forall (fun e : Entry => is_Some (heap s !! e.2)) es /\
  Forall (fun id => id ∈ activeTimers_ s) (ids_of (heap s) es).
Proof.
  intros I Hsub. split.
  - apply Forall_forall. intros [t p] He. apply (i_dom _ _ I), elem_of_app. left.
    apply elem_of_ptrs. eauto.
  - apply Forall_forall. intros id Hid. rewrite (active_eq _ _ I), elem_of_list_to_set.
    unfold ids_of in *. apply list_elem_of_fmap in Hid as (e & -> & He).
    apply list_elem_of_fmap. eauto.
Qed.

Lemma getExpired_spec s now :
  tq_inv [] s ->
  exists expired l act,
    let s' := set_sets s l act in
    getExpired s now = Ok (expired, s') /\ timers_ s = expired ++ l /\
    tq_inv expired.*2 s' /\
    Forall (fun e => e.1 <= now) expired /\ Forall (fun e => now < e.1) l.
Proof.
  intros I. unfold getExpired.
  destruct (set_split_spec (now, UINTPTR_MAX) (timers_ s) (i_sorted _ _ I))
    as (es & l & E & -> & Hlt & Hge).
  pose proof (i_nodup _ _ I) as Hn. rewrite app_nil_r, E, fmap_app, NoDup_app in Hn.
  destruct Hn as (Hn1 & Hn12 & Hn2).
  destruct (ids_of_active s es I) as [Hl Ha].
  { rewrite E. intros x ?. apply elem_of_app. by left. }
  rewrite erase_active_spec; simpl; [|done..].
  assert (forall t p, (t, p) ∈ timers_ s -> p < UINTPTR_MAX) as Hmax.
  { intros t p Hin. destruct (proj2 (i_dom _ _ I p)) as [tm Htm].
    { apply elem_of_app. left. apply elem_of_ptrs. eauto. }
    by apply (i_timer _ _ I) in Htm as (_ & _ & _ & ?). }
  eexists es, l, _. split_and!; [done|done|..].
  - eapply (inv_move []); [done|..].
    + pose proof (i_sorted _ _ I) as Hs. rewrite E in Hs. by apply (sorted_sublist [] es l).
    + rewrite E, app_nil_r, fmap_app. apply Permutation_app_comm.
    + intros t p tm Hin. apply (i_exp _ _ I). rewrite E. apply elem_of_app. by right.
    + intros p q. simpl. rewrite elem_of_difference, elem_of_list_to_set, (i_active _ _ I), E.
      rewrite fmap_app, elem_of_app. split.
      * intros [[[Hp|Hp] (tm & Htm & Hq)] Hno]; [|by eauto].
        destruct Hno. apply elem_of_ptrs in Hp as [t Ht]. apply list_elem_of_fmap.
        exists (t, p). simpl. by rewrite Htm, <- Hq.
      * intros [Hp (tm & Htm & Hq)]. split; [by eauto|].
        intros ([t p'] & [= -> _] & Ht)%list_elem_of_fmap. apply (Hn12 p').
        { apply elem_of_ptrs. eauto. } done.
  - eapply Forall_impl; [exact Hlt|]. intros [t p]. unfold entry_lt. simpl. lia.
  - apply Forall_forall. intros [t p] Hin. eapply Forall_forall in Hge; [|exact Hin].
    assert (p < UINTPTR_MAX). { apply (Hmax t). rewrite E. apply elem_of_app. by right. }
    unfold entry_lt in Hge. simpl in *. lia.
Qed.

End expired.

Section callbacks.
Context (alloc : gmap Z Timer -> Z) (Halloc : alloc_ok alloc).
Implicit Types (s : TimerQueue) (out : list Z) (P : Z -> Prop).

(** The callbacks of the expired timers run once each, in the order of the
    deadlines. *)
Lemma run_expired_spec out P s es plan :
  tq_inv out s -> armed P s -> es.*2 ⊆ out -> acts_ok s (concat plan) ->
  exists s' acts, run_expired (W := TimerQueue) (do_acts alloc) s es plan = Ok s' /\
    acts = concat (take (length es) plan) /\ tq_inv out s' /\ armed P s' /\
    acts_frame out acts (set_fired s (fired s')) s' /\
    (fired s').*1 = (fired s).*1 ++ ids_of (heap s) es.
Proof.
  revert s plan. induction es as [|[t p] es IH]; intros s plan I Ha Hsub Hok; simpl in *.
  { exists s, []. split_and!; try done; [|by rewrite app_nil_r].
    replace (set_fired s (fired s)) with s by by destruct s. apply frame_nil. }
  destruct (proj2 (i_dom _ _ I p)) as [tm Htm].
  { apply elem_of_app. right. apply Hsub. by left. }
  rewrite Htm. simpl. set (s0 := log_fired _ _).
  assert (tq_inv out s0) as I0 by (eapply inv_frame; try done; apply (i_clock _ _ I)).
  destruct Hok as (Hoks & Ht & Hc).
  assert (concat plan = default [] (head plan) ++ concat (tail plan)) as Econ by by destruct plan.
  rewrite Econ in Hoks, Ht, Hc. rewrite !sum_acts_app in *. apply Forall_app in Hoks as [Hok1 Hok2].
  pose proof (sum_acts_nonneg _ Hok1). pose proof (sum_acts_nonneg _ Hok2).
  destruct (do_acts_spec alloc Halloc out P s0 (default [] (head plan)) I0 Ha)
    as (s1 & -> & I1 & Ha1 & F1); [split_and!; simpl; done || lia|].
  simpl. pose proof (f_clock _ _ _ _ F1). pose proof (f_created _ _ _ _ F1). simpl in *.
  destruct (IH s1 (tail plan) I1 Ha1) as (s2 & ? & -> & -> & I2 & Ha2 & F2 & Hf).
  { intros p' Hp'. apply Hsub. by right. }
  { split_and!; done || lia. }
  exists s2, (concat (take (S (length es)) plan)). split_and!; try done.
  - replace (concat (take (S (length es)) plan))
      with (default [] (head plan) ++ concat (take (length es) (tail plan)))
      by (destruct plan; simpl; [by rewrite take_nil|done]).
    eapply frame_app; [done| |exact F2]. by eapply frame_fired.
  - rewrite Hf, (f_fired _ _ _ _ F1). simpl. rewrite fmap_app, <- app_assoc. simpl.
    f_equal. f_equal. unfold ids_of. apply list_fmap_ext. intros i [t' p'] Hin. simpl.
    rewrite (f_heap _ _ _ _ F1); [done|]. apply Hsub. right.
    apply elem_of_ptrs. exists t'. by eapply list_elem_of_lookup_2.
Qed.
End callbacks.

(** What [reset] does with the timer at [p] that ran: a repeating one that was
    not cancelled is scheduled for its first period after [now], any other is
    freed. *)
Definition settled (now : Z) (s s' : TimerQueue) (p : Z) : Prop :=
  exists tm, heap s !! p = Some tm /\
    if repeat_ tm && bool_decide ((p, sequence_ tm) ∉ cancelingTimers_ s)
    then exists n,
      let e := expiration_ tm + n * (interval_ tm * ns_per_us) in
      1 <= n /\ now < e <= now + interval_ tm * ns_per_us /\
      heap s' !! p = Some (set_expiration tm e) /\ (e, p) ∈ timers_ s'
    else heap s' !! p = None.

(** What the loop of [reset] leaves alone. *)
Record reset_frame (ps : list Z) (s s' : TimerQueue) : Prop := mkRFrame {
  r_same : set_heap (set_sets s' (timers_ s) (activeTimers_ s)) (heap s) = s;
  r_heap p : p ∉ ps -> heap s' !! p = heap s !! p;
  r_timers t p : p ∉ ps -> (t, p) ∈ timers_ s' <-> (t, p) ∈ timers_ s;
  r_active p q : p ∉ ps -> (p, q) ∈ activeTimers_ s' <-> (p, q) ∈ activeTimers_ s
}.

Section reset.
Implicit Types (s : TimerQueue).

Lemma frame_cons p ps s1 s2 s3 :
  reset_frame [p] s1 s2 -> reset_frame ps s2 s3 -> reset_frame (p :: ps) s1 s3.
Proof.
  intros [E1 H1 T1 A1] [E2 H2 T2 A2]. split.
  - rewrite <- E1, <- E2. by destruct s1, s3.
  - intros p' [Hne Hn]%not_elem_of_cons. rewrite H2, H1 by (rewrite ?list_elem_of_singleton; done). done.
  - intros t p' [Hne Hn]%not_elem_of_cons. rewrite T2, T1 by (rewrite ?list_elem_of_singleton; done). done.
  - intros p' q [Hne Hn]%not_elem_of_cons. rewrite A2, A1 by (rewrite ?list_elem_of_singleton; done). done.
Qed.

(** One step of the loop. *)
Lemma reset_step now s p es tm :
  tq_inv (p :: es) s -> armed (fun t => t <= now) s -> clock_ok now ->
  heap s !! p = Some tm -> expiration_ tm <= now ->
  exists s',
    (if repeat_ tm && bool_decide ((p, sequence_ tm) ∉ cancelingTimers_ s)
     then t' ← restart tm now;
          '(_, s') ← insert (set_heap s (<[p := t']> (heap s))) p; Ok s'
     else Ok (set_heap s (delete p (heap s)))) = Ok s' /\
    tq_inv es s' /\ armed (fun t => t <= now) s' /\ settled now s s' p /\ reset_frame [p] s s'.
Proof.
  intros I Ha Hnow Hp Hle. destruct (i_timer _ _ I _ _ Hp) as ((Hexp & Hiv & Hrep) & Hseq & _).
  unfold settled. destruct (repeat_ tm && _) eqn:Hb.
  - apply andb_true_iff in Hb as [Hr Hb]. rewrite Hr in Hrep. symmetry in Hrep.
    apply Z.ltb_lt in Hrep.
    destruct (restart_repeat tm now) as (n & Hn & -> & Hlt); [done..|lia|]. simpl.
    set (t' := set_expiration tm _).
    assert (timer_ok t') as Hok.
    { unfold timer_ok, clock_ok, interval_ok in *. simpl. rewrite Hr.
      split_and!; lia. }
    pose proof (inv_update _ _ _ _ t' I Hp ltac:(done) Hok) as I1.
    destruct (insert_spec es _ p t' I1 (lookup_insert_eq _ _ _)) as (a & c & E & -> & I2 & Hord).
    simpl in *. eexists. split; [done|]. split_and!; [done|..].
    + eapply (insert_armed _ (set_heap s _)); [done|done|done| |apply (i_sorted _ _ I2)].
      right. simpl. lia.
    + exists tm. rewrite Hr, Hb. simpl. split; [done|]. exists n.
      split_and!; try done; try lia; [apply lookup_insert_eq|].
      apply elem_of_app. right. by left.
    + split; simpl; [by destruct s|..].
      * intros p' Hp'. rewrite list_elem_of_singleton in Hp'. by apply lookup_insert_ne.
      * intros t p' Hp'. rewrite list_elem_of_singleton in Hp'. rewrite E, !elem_of_app, elem_of_cons.
        split; [intros [?|[[= _ ->]|?]]; tauto|tauto].
      * intros p' q Hp'. rewrite list_elem_of_singleton in Hp'. rewrite elem_of_union, elem_of_singleton.
        split; [intros [[= -> _]|?]; tauto|tauto].
  - eexists. split; [done|]. split_and!; [by apply inv_delete|done|..].
    + exists tm. rewrite Hb. split; [done|]. apply lookup_delete_eq.
    + split; simpl; [by destruct s| |done..].
      intros p' Hp'. rewrite list_elem_of_singleton in Hp'. by apply lookup_delete_ne.
Qed.

Lemma settled_frame now s1 s2 s3 p ps :
  p ∉ ps -> settled now s1 s2 p -> reset_frame ps s2 s3 -> settled now s1 s3 p.
Proof.
  intros Hp (tm & Htm & H) [_ Rh Rt _]. exists tm. split; [done|]. destruct (repeat_ tm && _).
  - destruct H as (n & ? & ? & ? & ?). exists n. split_and!; try done; [lia..|by rewrite Rh|by apply Rt].
  - by rewrite Rh.
Qed.

Lemma settled_frame_l now s1 s2 s3 p ps :
  p ∉ ps -> reset_frame ps s1 s2 -> settled now s2 s3 p -> settled now s1 s3 p.
Proof.
  intros Hp [E Rh _ _] (tm & Htm & H). exists tm. rewrite Rh in Htm by done. split; [done|].
  assert (cancelingTimers_ s1 = cancelingTimers_ s2) as -> by (rewrite <- E; done). done.
Qed.

Lemma reset_loop_spec now s es :
  tq_inv es.*2 s -> armed (fun t => t <= now) s -> clock_ok now ->
  (forall p, p ∈ es.*2 -> exists tm, heap s !! p = Some tm /\ expiration_ tm <= now) ->
  exists s', reset_loop s es now = Ok s' /\ tq_inv [] s' /\ armed (fun t => t <= now) s' /\
    (forall p, p ∈ es.*2 -> settled now s s' p) /\ reset_frame es.*2 s s'.
Proof.
  revert s. induction es as [|[t p] es IH]; intros s I Ha Hnow Hes; simpl in *.
  { exists s. split_and!; try done; [by intros ? ?%not_elem_of_nil|]. split; try done. by destruct s. }
  destruct (Hes p ltac:(by left)) as (tm & Htm & Hle). rewrite Htm. simpl.
  destruct (reset_step now s p es.*2 tm I Ha Hnow Htm Hle) as (s1 & E1 & I1 & Ha1 & S1 & F1).
  pose proof (i_nodup _ _ I) as (_ & _ & [Hp Hn]%NoDup_cons)%NoDup_app.
  destruct (IH s1 I1 Ha1 Hnow) as (s2 & E2 & I2 & Ha2 & S2 & F2).
  { intros p' Hp'. rewrite (r_heap _ _ _ F1); [apply Hes; by right|].
    rewrite list_elem_of_singleton. by intros ->. }
  exists s2. split_and!; [|done|done| |by eapply frame_cons].
  - destruct (repeat_ tm && _).
    + destruct (restart tm now) as [t'|]; [|done]. simpl in *.
      destruct (insert _ p) as [[b s1']|]; [|done]. simpl in *. by injection E1 as ->.
    + by injection E1 as ->.
  - intros p' [->|Hp']%elem_of_cons; [by eapply settled_frame|].
    eapply settled_frame_l; [|exact F1|by apply S2].
    rewrite list_elem_of_singleton. by intros ->.
Qed.
End reset.

(** ** One expiry of the descriptor

    The state between two events. *)
Record quiet (s : TimerQueue) : Prop := mkQuiet {
  q_inv : tq_inv [] s;
  q_armed : armed (fun _ => True) s;
  q_calling : callingExpiredTimers_ s = false
}.

(** What an expiry at [now] does with a timer that is due, when the callbacks
    perform [acts]. *)
Definition after_run (now : Z) (acts : list tact) (s s' : TimerQueue) (p : Z) : Prop :=
  exists tm, heap s !! p = Some tm /\
    if repeat_ tm && bool_decide (ActCancel (p, sequence_ tm) ∉ acts)
    then exists n,
      let e := expiration_ tm + n * (interval_ tm * ns_per_us) in
      1 <= n /\ now < e <= now + interval_ tm * ns_per_us /\
      heap s' !! p = Some (set_expiration tm e) /\ (e, p) ∈ timers_ s'
    else heap s' !! p = None.

(** The timers [expired] are due at [clock s] and the timers [l] are not; the
    callbacks of the former perform [acts]. *)
Record fire_rel (s s' : TimerQueue) (expired l : list Entry) (acts : list tact) : Prop := mkFire {
  fi_split : timers_ s = expired ++ l;
  fi_due : Forall (fun e : Entry => e.1 <= clock s) expired;
  fi_later : Forall (fun e : Entry => clock s < e.1) l;
  fi_fired : (fired s').*1 = (fired s).*1 ++ ids_of (heap s) expired;
  fi_run p : p ∈ expired.*2 -> after_run (clock s) acts s s' p;
  fi_keep t p tm : (t, p) ∈ l -> heap s !! p = Some tm -> ActCancel (p, sequence_ tm) ∉ acts ->
    (t, p) ∈ timers_ s' /\ heap s' !! p = Some tm;
  fi_drop id : id ∉ activeTimers_ s \/ ActCancel id ∈ acts -> id.2 <= numCreated s ->
    id ∉ activeTimers_ s';
  fi_clock : clock s' = clock s + sum_acts act_time acts;
  fi_created : numCreated s' = numCreated s + sum_acts act_adds acts
}.

Lemma acts_ok_take s plan n :
  acts_ok s (concat plan) -> acts_ok s (concat (take n plan)).
Proof.
  intros (Hok & Ht & Hc). rewrite <- (take_drop n plan), concat_app in Hok, Ht, Hc.
  rewrite !sum_acts_app in *. apply Forall_app in Hok as [H1 H2].
  pose proof (sum_acts_nonneg _ H2). split_and!; [done|lia..].
Qed.

(** The timers taken out for the callbacks are found again in [reset]. *)
Lemma active_sub s es l act :
  tq_inv es.*2 (set_sets s l act) -> tq_inv [] s -> timers_ s = es ++ l ->
  forall p q, (p, q) ∈ act <-> (p, q) ∈ activeTimers_ s /\ p ∉ es.*2.
Proof.
  intros I1 I E p q. pose proof (i_active _ _ I1 p q) as H1. simpl in H1.
  rewrite H1, (i_active _ _ I), E, fmap_app, elem_of_app.
  pose proof (i_nodup _ _ I1) as (_ & Hn & _)%NoDup_app. simpl in Hn.
  split; [|tauto]. intros [Hp ?]. split; [tauto|by apply Hn].
Qed.

Section fire.
Context (alloc : gmap Z Timer -> Z) (Halloc : alloc_ok alloc).
Implicit Types (s : TimerQueue).

Lemma reset_spec now s es :
  tq_inv es.*2 s -> armed (fun t => t <= now) s -> clock_ok now -> 
  (forall p, p ∈ es.*2 -> exists tm, heap s !! p = Some tm /\ expiration_ tm <= now) ->
  exists s' x, reset s es now = Ok (set_tfd s' x) /\ tq_inv [] (set_tfd s' x) /\
    armed (fun _ => True) (set_tfd s' x) /\
    (forall p, p ∈ es.*2 -> settled now s s' p) /\ reset_frame es.*2 s s'.
Proof.
  intros I Ha Hnow Hes.
  destruct (reset_loop_spec now s es I Ha Hnow Hes) as (s1 & E1 & I1 & Ha1 & S1 & F1).
  unfold reset. rewrite E1. simpl.
  assert (set_tfd s1 (tfd s1) = s1) as Hid by by destruct s1.
  destruct (timers_ s1) as [|[t p] l] eqn:El; simpl.
  { exists s1, (tfd s1). rewrite Hid. split_and!; try done. unfold armed. by rewrite El. }
  assert ((t, p) ∈ timers_ s1) as Hin by (rewrite El; by left).
  destruct (proj2 (i_dom _ _ I1 p)) as [tm Htm].
  { apply elem_of_app. left. apply elem_of_ptrs. eauto. }
  rewrite Htm. simpl. rewrite (i_exp _ _ I1 _ _ _ Hin Htm).
  destruct (Z.eqb_spec t 0) as [->|Hne]; simpl.
  - exists s1, (tfd s1). rewrite Hid. split_and!; try done.
    unfold armed in *. rewrite El in *. intros _. apply Ha1. simpl. unfold clock_ok in Hnow. lia.
  - destruct (resetTimerfd_spec [] s1 t I1) as (s2 & -> & I2 & Harm & x & ->); [by eapply exp_range|].
    exists s1, x. split_and!; try done. unfold armed. simpl. rewrite El. simpl. intros _. exact Harm.
Qed.

Section intro.
Context (s : TimerQueue) (es l : list Entry) (act : gset (Z * Z)) (acts : list tact).
Context (s3 s5 : TimerQueue) (x : option (Z * timespec)).
Let s2 := set_canceling (set_calling (set_sets s l act) true) ∅.
Context (I : tq_inv [] s) (E : timers_ s = es ++ l) (I2 : tq_inv es.*2 s2).
Context (F3 : acts_frame es.*2 acts (set_fired s2 (fired s3)) s3) (I3 : tq_inv es.*2 s3).
Context (S5 : forall p, p ∈ es.*2 -> settled (clock s) (set_calling s3 false) s5 p).
Context (F5 : reset_frame es.*2 (set_calling s3 false) s5) (I5 : tq_inv [] (set_tfd s5 x)).

Lemma after_run_intro p : p ∈ es.*2 -> after_run (clock s) acts s (set_tfd s5 x) p.
Proof.
  intros Hp. destruct (S5 p Hp) as (tm & Htm & H). simpl in Htm.
  rewrite (f_heap _ _ _ _ F3) in Htm by done. exists tm. split; [done|].
  replace (bool_decide (ActCancel (p, sequence_ tm) ∉ acts))
    with (bool_decide ((p, sequence_ tm) ∉ cancelingTimers_ (set_calling s3 false))); [done|].
  apply bool_decide_ext. simpl. rewrite (f_canceling _ _ _ _ F3) by done. simpl.
  rewrite elem_of_empty. tauto.
Qed.

Lemma not_due p : p ∈ l.*2 -> p ∉ es.*2.
Proof. pose proof (i_nodup _ _ I2) as (_ & Hn & _)%NoDup_app. apply Hn. Qed.

Lemma keep_intro t p tm :
  (t, p) ∈ l -> heap s !! p = Some tm -> ActCancel (p, sequence_ tm) ∉ acts ->
  (t, p) ∈ timers_ s5 /\ heap s5 !! p = Some tm.
Proof.
  intros Hin Htm Hno. assert (p ∈ l.*2) as Hp by (apply elem_of_ptrs; eauto).
  pose proof (not_due p Hp) as Hes. pose proof (i_timer _ _ I _ _ Htm) as (_ & Hseq & _).
  assert ((p, sequence_ tm) ∈ activeTimers_ s3) as Hact.
  { apply (f_active _ _ _ _ F3); [simpl; lia|]. split; [|done].
    apply (i_active _ _ I2). split; [done|]. by exists tm. }
  assert (heap s3 !! p = Some tm) as H3.
  { rewrite (f_stay _ _ _ _ F3 p (sequence_ tm)); [done|simpl; lia|done]. }
  rewrite (r_heap _ _ _ F5), (r_timers _ _ _ F5) by done. split; [|done].
  apply (i_active _ _ I3) in Hact as [[t' Ht']%elem_of_ptrs _]. simpl.
  rewrite <- (i_exp _ _ I t p tm); [|rewrite E; apply elem_of_app; by right|done].
  by rewrite (i_exp _ _ I3 _ _ _ Ht' H3).
Qed.

Lemma drop_intro id :
  id ∉ activeTimers_ s \/ ActCancel id ∈ acts -> id.2 <= numCreated s ->
  id ∉ activeTimers_ (set_tfd s5 x).
Proof.
  destruct id as [p q]. simpl. intros Hor Hq Hin.
  pose proof (active_sub s es l act) as Hact.
  destruct (decide (p ∈ es.*2)) as [Hp|Hp].
  - destruct (after_run_intro p Hp) as (tm & Htm & H).
    apply (i_active _ _ I5) in Hin as [_ (tm' & Htm' & Hseq)]. simpl in *.
    destruct (repeat_ tm && _) eqn:Hb; [|congruence].
    destruct H as (n & _ & _ & H5 & _). rewrite H5 in Htm'. injection Htm' as <-. simpl in Hseq.
    subst q. apply andb_true_iff in Hb as [_ Hb]. apply bool_decide_eq_true in Hb.
    destruct Hor as [Hor|]; [|done]. apply Hor, (i_active _ _ I). split; [|by eauto].
    rewrite E, fmap_app. apply elem_of_app. by left.
  - apply (r_active _ _ _ F5) in Hin; [|done]. apply (f_active _ _ _ _ F3) in Hin as [Hin Hno]; [|done].
    destruct Hor as [Hor|]; [|done]. apply Hor. simpl in Hin.
    apply Hact in Hin as [? _]; [done| |done|done].
    eapply inv_frame; try exact I2; try done. apply (i_clock _ _ I).
Qed.
End intro.

Lemma fire_rel_intro s es l act acts s3 s5 x :
  let s2 := set_canceling (set_calling (set_sets s l act) true) ∅ in
  tq_inv [] s -> timers_ s = es ++ l -> tq_inv es.*2 s2 ->
  Forall (fun e : Entry => e.1 <= clock s) es -> Forall (fun e : Entry => clock s < e.1) l ->
  acts_frame es.*2 acts (set_fired s2 (fired s3)) s3 -> tq_inv es.*2 s3 ->
  (fired s3).*1 = (fired s2).*1 ++ ids_of (heap s2) es ->
  (forall p, p ∈ es.*2 -> settled (clock s) (set_calling s3 false) s5 p) ->
  reset_frame es.*2 (set_calling s3 false) s5 -> tq_inv [] (set_tfd s5 x) ->
  fire_rel s (set_tfd s5 x) es l acts.
Proof.
  intros s2 I E I2 Hdue Hlater F3 I3 Hf S5 F5 I5.
  pose proof (r_same _ _ _ F5) as E5. split; try done.
  - etrans; [|exact Hf]. change (fired s3) with (fired (set_calling s3 false)). by rewrite <- E5.
  - intros p. by eapply after_run_intro.
  - intros t p tm. by apply (keep_intro s es l act acts s3 s5).
  - intros id. by eapply drop_intro.
  - etrans; [|apply (f_clock _ _ _ _ F3)].
    change (clock s3) with (clock (set_calling s3 false)). by rewrite <- E5.
  - etrans; [|apply (f_created _ _ _ _ F3)].
    change (numCreated s3) with (numCreated (set_calling s3 false)). by rewrite <- E5.
Qed.

Lemma handleRead_spec s plan :
  tq_inv [] s -> acts_ok s (concat plan) ->
  exists s' expired l, handleRead (do_acts alloc) s plan = Ok s' /\ quiet s' /\
    fire_rel s s' expired l (concat (take (length expired) plan)).
Proof.
  intros I Hok. unfold handleRead. cbn [get put part_self]. set (now := clock s).
  destruct (getExpired_spec s now I) as (es & l & act & -> & E & I1 & Hdue & Hlater). simpl.
  set (s1 := set_sets s l act) in *. set (s2 := set_canceling _ _).
  assert (tq_inv es.*2 s2) as I2 by (eapply inv_frame; try done; apply (i_clock _ _ I)).
  assert (armed (fun t => t <= now) s2) as Ha2.
  { unfold armed. simpl. destruct l as [|e l]; [done|]. apply Forall_cons in Hlater as [? _].
    intros ?. lia. }
  destruct (run_expired_spec alloc Halloc es.*2 _ s2 es plan I2 Ha2) as
    (s3 & acts & -> & -> & I3 & Ha3 & F3 & Hfired); [done|done|]. simpl.
  set (s4 := set_calling s3 false).
  assert (tq_inv es.*2 s4) as I4 by (eapply inv_frame; try done; apply (i_clock _ _ I3)).
  assert (forall p, p ∈ es.*2 -> heap s3 !! p = heap s !! p) as Hsame.
  { intros p Hp. by rewrite (f_heap _ _ _ _ F3). }
  destruct (reset_spec now s4 es I4 Ha3 (i_clock _ _ I)) as (s5 & x & -> & I5 & Ha5 & S5 & F5).
  { intros p Hp. simpl. rewrite Hsame by done. apply elem_of_ptrs in Hp as [t Ht].
    assert ((t, p) ∈ timers_ s) as Hin by (rewrite E; apply elem_of_app; by left).
    destruct (proj2 (i_dom _ _ I p)) as [tm Htm].
    { apply elem_of_app. left. apply elem_of_ptrs. eauto. }
    exists tm. split; [done|]. rewrite (i_exp _ _ I t p tm) by done.
    eapply Forall_forall in Hdue; [|exact Ht]. exact Hdue. }
  exists (set_tfd s5 x), es, l. split; [done|]. pose proof (r_same _ _ _ F5) as E5.
  split. { split; [done..|]. trans (callingExpiredTimers_ s4); [by rewrite <- E5|done]. }
  by eapply (fire_rel_intro s es l act).
Qed.

Lemma fire_spec s plan :
  tq_inv [] s -> acts_ok s (concat plan) ->
  exists s' expired l, fire alloc s plan = Ok s' /\ quiet s' /\
    fire_rel s s' expired l (concat (take (length expired) plan)).
Proof.
  intros I Hok. assert (tq_inv [] (disarmTimerfd s)) as I0 by (eapply inv_frame; try done; apply (i_clock _ _ I)).
  destruct (handleRead_spec (disarmTimerfd s) plan I0 Hok) as (s' & es & l & E & Q & []).
  exists s', es, l. by split_and!.
Qed.

(** *** In a larger state

    Code that uses the timers, on whatever state it runs, through [addTimer] and
    [cancel]: [handleRead] then does with the timers what some list of these
    calls for each callback makes it do.  [small] bounds what one callback does. *)
Section world.
Context {W X : Type} `{PartLaws W TimerQueue} (code : W -> list X -> res W) (small : list X -> Prop) (inv : W -> Prop).

Record good_callbacks : Prop := mkGoodCallbacks {
  gk_put w s : inv w -> inv (put w s);
  gk_code w l out P : small l -> inv w -> tq_inv out (get w) -> armed P (get w) -> acts_ok (get w) [] ->
    exists w' acts, code w l = Ok w' /\ inv w' /\
      acts_ok (get w) acts /\ do_acts alloc (get w) acts = Ok (get w')
}.
Context (Hcode : good_callbacks) (Hnil : small []).
Implicit Types (w : W).

Lemma acts_ok_app s s1 acts1 acts2 :
  acts_ok s acts1 -> clock s1 = clock s + sum_acts act_time acts1 ->
  numCreated s1 = numCreated s + sum_acts act_adds acts1 -> acts_ok s1 acts2 -> acts_ok s (acts1 ++ acts2).
Proof.
  intros (H1 & _ & _) Ec En (H2 & Ht & Hn). unfold acts_ok. rewrite !sum_acts_app.
  split_and!; [by apply Forall_app|lia..].
Qed.

Lemma run_expired_world out P w es (plan : list (list X)) :
  Forall small plan -> inv w -> tq_inv out (get w) -> armed P (get w) -> es.*2 ⊆ out -> acts_ok (get w) [] ->
  exists w' plan', run_expired code w es plan = Ok w' /\ inv w' /\
    run_expired (W := TimerQueue) (do_acts alloc) (get w) es plan' = Ok (get w') /\
    acts_ok (get w) (concat plan').
Proof.
  revert w plan. induction es as [|[t p] es IH]; intros w plan Hpl I It Ha Hsub Hok; cbn [run_expired].
  { exists w, []. by split_and!. }
  destruct (proj2 (i_dom _ _ It p)) as [tm Htm].
  { apply elem_of_app. right. apply Hsub. by left. }
  cbn [snd get part_self]. rewrite Htm. cbn [deref mbind res_bind]. unfold modify.
  set (s0 := log_fired (get w) (p, sequence_ tm)).
  assert (tq_inv out s0) as I0 by (eapply inv_frame; try done; apply (i_clock _ _ It)).
  destruct (gk_code Hcode (put w s0) (default [] (head plan)) out P) as (w1 & acts & -> & I1 & Hacts & E1);
    [by destruct plan; [|apply Forall_cons in Hpl as [? _]]|by apply (gk_put Hcode)|by rewrite get_put..|].
  rewrite get_put in Hacts, E1.
  destruct (do_acts_spec alloc Halloc out P s0 acts I0 Ha Hacts) as (s1 & E1' & It1 & Ha1 & F1).
  rewrite E1' in E1. injection E1 as E1. rewrite E1 in It1, Ha1, F1, E1'.
  cbn [mbind res_bind].
  destruct (IH w1 (tail plan) ltac:(by destruct plan; [|apply Forall_cons in Hpl as [_ ?]]) I1 It1 Ha1) as (w2 & plan' & -> & I2 & E2 & Hok2).
  { intros p' Hp'. apply Hsub. by right. }
  { destruct Hacts as (_ & ? & ?). pose proof (f_clock _ _ _ _ F1). pose proof (f_created _ _ _ _ F1).
    simpl in *. split_and!; simpl; done || lia. }
  exists w2, (acts :: plan'). split_and!; [done|done| |].
  - change (do_acts alloc s0 acts ≫= (fun s' => run_expired (W := TimerQueue) (do_acts alloc) s' es plan') = Ok (get w2)).
    rewrite E1'. exact E2.
  - simpl. apply (acts_ok_app s0 (get w1)); [exact Hacts|apply (f_clock _ _ _ _ F1)|apply (f_created _ _ _ _ F1)|done].
Qed.

Lemma handleRead_world w plan :
  Forall small plan -> inv w -> tq_inv [] (get w) -> acts_ok (get w) [] ->
  exists w' expired l acts, handleRead code w plan = Ok w' /\ inv w' /\ quiet (get w') /\
    acts_ok (get w) acts /\ fire_rel (get w) (get w') expired l acts.
Proof.
  intros Hpl I It Hok. set (s := get w) in *. set (now := clock s).
  destruct (getExpired_spec s now It) as (es & l & act & E & Es & I1 & Hdue & Hlater).
  set (s1 := set_sets s l act) in *. set (s2 := set_canceling (set_calling s1 true) ∅).
  assert (tq_inv es.*2 s2) as I2 by (eapply inv_frame; try done; apply (i_clock _ _ It)).
  assert (armed (fun t => t <= now) s2) as Ha2.
  { unfold armed. simpl. destruct l as [|e l]; [done|]. apply Forall_cons in Hlater as [? _]. intros ?. lia. }
  destruct (run_expired_world es.*2 (fun t => t <= now) (put w s2) es plan) as (w3 & plan' & E3 & I3 & E3' & Hok');
    [done|by apply (gk_put Hcode)|by rewrite get_put..|done|by rewrite get_put|]. rewrite get_put in E3', Hok'.
  destruct (handleRead_spec s plan' It Hok') as (s' & es' & l' & E' & Q & F).
  unfold handleRead in E'. cbn [get put part_self] in E'. fold now in E'. rewrite E in E'. cbn [mbind res_bind] in E'.
  fold s2 in E'. rewrite E3' in E'. cbn [mbind res_bind] in E'.
  exists (put w3 s'), es', l', (concat (take (length es') plan')).
  rewrite get_put. split_and!; [|by apply (gk_put Hcode)|done|by apply acts_ok_take|done].
  unfold handleRead. fold s now. rewrite E. cbn [mbind res_bind]. fold s2. rewrite E3. cbn [mbind res_bind].
  apply bind_Ok_inv in E' as (s5 & -> & [= ->]). done.
Qed.
End world.
End fire.

(** ** Histories of the loop's thread: user code and expiries *)
Inductive tevent : Type :=
| EvUser (acts : list tact)
| EvExpire (plan : list (list tact)).

Definition event_acts (ev : tevent) : list tact :=
  match ev with EvUser acts => acts | EvExpire plan => concat plan end.

Fixpoint all_acts (evs : list tevent) : list tact :=
  match evs with [] => [] | ev :: evs' => event_acts ev ++ all_acts evs' end.

Definition run_event alloc (s : TimerQueue) (ev : tevent) : res TimerQueue :=
  match ev with EvUser acts => do_acts alloc s acts | EvExpire plan => fire alloc s plan end.

Fixpoint run_events alloc (s : TimerQueue) (evs : list tevent) : res TimerQueue :=
  match evs with
  | [] => Ok s
  | ev :: evs' => s' ← run_event alloc s ev; run_events alloc s' evs'
  end.

Definition events_ok (s : TimerQueue) (evs : list tevent) : Prop :=
  acts_ok s (all_acts evs).

#[global] Instance act_ok_dec a : Decision (act_ok a).
Proof. destruct a; unfold act_ok, interval_ok; apply _. Defined.
#[global] Instance acts_ok_dec s acts : Decision (acts_ok s acts).
Proof. unfold acts_ok. apply _. Defined.
#[global] Instance events_ok_dec s evs : Decision (events_ok s evs).
Proof. unfold events_ok. apply _. Defined.

(** A timer that is not scheduled any more does not run. *)
Definition dead_since (s s' : TimerQueue) (id : TimerId) : Prop :=
  (id ∉ activeTimers_ s') /\ exists f, (fired s').*1 = (fired s).*1 ++ f /\ (id ∉ f).

Section histories.
Context (alloc : gmap Z Timer -> Z) (Halloc : alloc_ok alloc).
Implicit Types (s : TimerQueue).

Lemma new_quiet now : clock_ok now -> quiet (TimerQueue_new now).
Proof.
  intros Hnow. split; try done. split; simpl; try done; try (by constructor).
  - intros p. rewrite lookup_empty. split; [by intros []|by intros ?%not_elem_of_nil].
  - intros p q. split; [done|]. by intros [?%not_elem_of_nil ?].
Qed.

(** The effect of an event on the clock and on the timers already dead. *)
Definition event_effect (s s' : TimerQueue) (acts : list tact) : Prop :=
  clock s <= clock s' <= clock s + sum_acts act_time acts /\
  numCreated s <= numCreated s' <= numCreated s + sum_acts act_adds acts /\
  forall id, id.2 <= numCreated s -> id ∉ activeTimers_ s -> dead_since s s' id.

Lemma run_event_spec s ev :
  quiet s -> acts_ok s (event_acts ev) ->
  exists s', run_event alloc s ev = Ok s' /\ quiet s' /\ event_effect s s' (event_acts ev).
Proof.
  intros [I Ha Hc] Hok. destruct ev as [acts|plan]; simpl in *.
  - destruct (do_acts_spec alloc Halloc [] _ s acts I Ha Hok) as (s' & -> & I' & Ha' & F).
    exists s'. split; [done|]. pose proof (sum_acts_nonneg _ (proj1 Hok)).
    pose proof (f_clock _ _ _ _ F). pose proof (f_created _ _ _ _ F).
    split; [split; [done..|by rewrite (f_calling _ _ _ _ F)]|].
    split_and!; try lia. intros id Hid Hn. split.
    + rewrite (f_active _ _ _ _ F) by done. by intros [? _].
    + exists []. rewrite (f_fired _ _ _ _ F), app_nil_r. split; [done|]. apply not_elem_of_nil.
  - destruct (fire_spec alloc Halloc s plan I Hok) as (s' & es & l & -> & Q & F).
    exists s'. split; [done|]. split; [done|].
    pose proof (acts_ok_take _ _ (length es) Hok) as (Hok1 & _ & _).
    pose proof (fi_clock _ _ _ _ _ F) as Eclk. pose proof (fi_created _ _ _ _ _ F) as Ecr.
    destruct Hok as (Hok & _ & _). pose proof (sum_acts_nonneg _ Hok1).
    rewrite <- (take_drop (length es) plan), concat_app in Hok |- *.
    apply Forall_app in Hok as [_ Hok2]. pose proof (sum_acts_nonneg _ Hok2).
    unfold event_effect. rewrite !sum_acts_app. split_and!; try lia. intros id Hid Hn. split.
    + eapply fi_drop; eauto.
    + exists (ids_of (heap s) es). split; [apply (fi_fired _ _ _ _ _ F)|]. intros Hin.
      destruct (ids_of_active s es I) as [_ Hact].
      { intros e He. rewrite (fi_split _ _ _ _ _ F). apply elem_of_app. by left. }
      by eapply Forall_forall in Hact.
Qed.

Lemma dead_since_trans s1 s2 s3 id : dead_since s1 s2 id -> dead_since s2 s3 id -> dead_since s1 s3 id.
Proof.
  intros [_ (f1 & E1 & N1)] [D (f2 & E2 & N2)]. split; [done|]. exists (f1 ++ f2).
  rewrite E2, E1, app_assoc. split; [done|]. rewrite elem_of_app. tauto.
Qed.

Lemma run_events_spec s evs :
  quiet s -> events_ok s evs ->
  exists s', run_events alloc s evs = Ok s' /\ quiet s' /\
    event_effect s s' (all_acts evs).
Proof.
  unfold events_ok. revert s. induction evs as [|ev evs IH]; intros s Q (Hok & Ht & Hn); simpl in *.
  { exists s. split_and!; try done. unfold event_effect. simpl. split_and!; try lia.
    intros id _ Hd. split; [done|]. exists []. rewrite app_nil_r. split; [done|]. apply not_elem_of_nil. }
  rewrite !sum_acts_app in *. apply Forall_app in Hok as [Hok1 Hok2].
  pose proof (sum_acts_nonneg _ Hok1). pose proof (sum_acts_nonneg _ Hok2).
  destruct (run_event_spec s ev Q) as (s1 & -> & Q1 & (C1 & N1 & D1)); [split_and!; done || lia|].
  destruct (IH s1 Q1) as (s2 & E & Q2 & (C2 & N2 & D2)); [split_and!; done || lia|].
  exists s2. split_and!; try done. unfold event_effect. rewrite !sum_acts_app.
  split_and!; try lia. intros id Hid Hd. pose proof (D1 id Hid Hd) as Hd1.
  eapply dead_since_trans; [exact Hd1|]. apply D2; [lia|]. by destruct Hd1.
Qed.

Lemma reach_quiet now evs s :
  clock_ok now -> events_ok (TimerQueue_new now) evs ->
  run_events alloc (TimerQueue_new now) evs = Ok s -> quiet s.
Proof.
  intros Hnow Hok E.
  destruct (run_events_spec _ evs (new_quiet now Hnow) Hok) as (s' & E' & Q & _). congruence.
Qed.
End histories.

(** An active id runs at an expiry exactly when it is due. *)
Lemma due_iff s s' es l acts id when :
  tq_inv [] s -> fire_rel s s' es l acts -> id ∈ activeTimers_ s ->
  (exists tm, heap s !! id.1 = Some tm /\ expiration_ tm = when) ->
  id ∈ ids_of (heap s) es <-> when <= clock s.
Proof.
  intros I F Hact (tm & Htm & <-). destruct id as [p q].
  apply (i_active _ _ I) in Hact as [[t Ht]%elem_of_ptrs (tm' & Htm' & Hq)]. simpl in *.
  rewrite Htm in Htm'. injection Htm' as <-.
  pose proof (i_exp _ _ I _ _ _ Ht Htm) as Hexp. split.
  - intros ([t' p'] & Heq & He)%list_elem_of_fmap. simpl in Heq. injection Heq as -> _.
    assert ((t', p') ∈ timers_ s) as Hin by (rewrite (fi_split _ _ _ _ _ F); apply elem_of_app; by left).
    rewrite (i_exp _ _ I _ _ _ Hin Htm).
    pose proof (fi_due _ _ _ _ _ F) as Hdue. eapply Forall_forall in Hdue; [|exact He]. done.
  - intros Hle. rewrite (fi_split _ _ _ _ _ F) in Ht. apply elem_of_app in Ht as [Ht|Ht].
    + apply list_elem_of_fmap. exists (t, p). simpl. by rewrite Htm, <- Hq.
    + pose proof (fi_later _ _ _ _ _ F) as Hl. eapply Forall_forall in Hl; [|exact Ht]. simpl in Hl. lia.
Qed.

Lemma active_created out s id : tq_inv out s -> id ∈ activeTimers_ s -> id.2 <= numCreated s.
Proof.
  intros I. destruct id as [p q]. intros [_ (tm & Htm & <-)]%(i_active _ _ I).
  apply (i_timer _ _ I) in Htm as (_ & ? & _). simpl. lia.
Qed.

Lemma delete_all_lookup (l : list Entry) (h : gmap Z Timer) p :
  foldl (fun h e => delete e.2 h) h l !! p = if decide (p ∈ l.*2) then None else h !! p.
Proof.
  revert h. induction l as [|[t p'] l IH]; intros h; cbn [foldl].
  { rewrite decide_False; [done|]. apply not_elem_of_nil. }
  rewrite IH, fmap_cons. simpl. destruct (decide (p ∈ l.*2)) as [Hin|Hout].
  - rewrite decide_True; [done|]. by right.
  - destruct (decide (p = p')) as [->|Hne].
    + rewrite decide_True by by left. apply lookup_delete_eq.
    + rewrite decide_False; [by apply lookup_delete_ne|]. intros [?|?]%elem_of_cons; done.
Qed.

Lemma ids_of_ptrs h (es : list Entry) : (ids_of h es).*1 = es.*2.
Proof. unfold ids_of. rewrite <- list_fmap_compose. done. Qed.

(** What is left to do is admissible from any state the first part leads to. *)
Lemma all_acts_app evs1 evs2 : all_acts (evs1 ++ evs2) = all_acts evs1 ++ all_acts evs2.
Proof. induction evs1 as [|ev evs1 IH]; simpl; [done|]. by rewrite IH, app_assoc. Qed.

Lemma acts_ok_split s acts1 acts2 :
  acts_ok s (acts1 ++ acts2) -> acts_ok s acts1 /\
  forall s', clock s' <= clock s + sum_acts act_time acts1 -> numCreated s' <= numCreated s + sum_acts act_adds acts1 ->
    acts_ok s' acts2.
Proof.
  intros ([H1 H2]%Forall_app & Ht & Hn). rewrite !sum_acts_app in *.
  pose proof (sum_acts_nonneg _ H1). pose proof (sum_acts_nonneg _ H2). unfold acts_ok. split; [split_and!; done || lia|].
  intros s' ? ?. split_and!; done || lia.
Qed.

Lemma events_ok_tail s ev evs :
  events_ok s (ev :: evs) -> acts_ok s (event_acts ev) /\
  forall s', clock s' <= clock s + sum_acts act_time (event_acts ev) ->
    numCreated s' <= numCreated s + sum_acts act_adds (event_acts ev) -> events_ok s' evs.
Proof. apply acts_ok_split. Qed.

Lemma events_ok_app s evs1 evs2 :
  events_ok s (evs1 ++ evs2) -> events_ok s evs1 /\
  forall s', clock s' <= clock s + sum_acts act_time (all_acts evs1) ->
    numCreated s' <= numCreated s + sum_acts act_adds (all_acts evs1) -> events_ok s' evs2.
Proof. unfold events_ok. rewrite all_acts_app. apply acts_ok_split. Qed.

Lemma timer_events_app alloc s evs1 evs2 :
  run_events alloc s (evs1 ++ evs2) = (s1 ← run_events alloc s evs1; run_events alloc s1 evs2).
Proof.
  revert s. induction evs1 as [|ev evs1 IH]; intros s; simpl; [done|]. destruct (run_event alloc s ev); simpl; [apply IH|done].
Qed.

(** A one-shot timer made on another thread, when the loop has added it. *)
Lemma foreign_handed alloc (Halloc : alloc_ok alloc) s cb when acts evs :
  tq_inv [] s -> armed (fun _ => True) s -> callingExpiredTimers_ s = false ->
  events_ok s (EvUser (ActAdd cb when 0 :: acts) :: evs) ->
  exists p s0 s2 tm, new_timer alloc s cb when 0 = Ok (p, s0) /\
    (s1 ← do_acts alloc s0 acts; addTimerInLoop s1 p) = Ok s2 /\ quiet s2 /\ events_ok s2 evs /\
    heap s2 !! p = Some tm /\ sequence_ tm = numCreated s + 1 /\ expiration_ tm = when /\ repeat_ tm = false /\
    numCreated s + 1 <= numCreated s2.
Proof.
  intros I Ha Hc Hok. pose proof (events_ok_tail s _ evs Hok) as [Hu Htl]. cbn [event_acts] in Hu, Htl.
  pose proof (acts_ok_split s [_] acts Hu) as [([[Hw _] _]%Forall_cons & _ & Hn) Hacts]. simpl in Hn, Hacts, Htl.
  pose proof (i_created _ _ I). pose proof (heap_size _ _ I). unfold max_timers in *.
  destruct (Halloc (heap s)) as [Hfresh Hrange]; [unfold max_timers; lia|].
  unfold new_timer, Timer_new. rewrite i64_Ok by lia. cbn [mbind res_bind]. cbv zeta.
  set (p := alloc (heap s)) in *. set (t := mkTimer _ _ _ _ _). set (s0 := set_created _ _).
  assert (tq_inv [p] s0) as I0 by (apply inv_alloc; done).
  destruct (do_acts_spec alloc Halloc [p] _ s0 acts I0 Ha) as (s1 & E1 & I1 & Ha1 & F1); [apply Hacts; simpl; lia|].
  assert (heap s1 !! p = Some t) as Hp.
  { rewrite (f_heap _ _ _ _ F1) by by left. apply lookup_insert_eq. }
  destruct (addTimerInLoop_spec [] _ s1 p t I1 Hp Ha1) as (s2 & E2 & I2 & Ha2 & Hh & _ & l & x & E3).
  pose proof (f_clock _ _ _ _ F1) as Hclk. pose proof (f_created _ _ _ _ F1) as Hcr. simpl in Hclk, Hcr.
  assert (clock s2 = clock s1 /\ numCreated s2 = numCreated s1 /\ callingExpiredTimers_ s2 = callingExpiredTimers_ s1)
    as (Ec & En & Ek) by by rewrite E3.
  destruct (sum_acts_nonneg acts) as [_ ?]; [by destruct Hu as ([_ ?]%Forall_cons & _)|].
  exists p, s0, s2, t. rewrite E1. cbn [mbind res_bind]. split_and!; try done.
  - split; [done..|]. rewrite Ek, (f_calling _ _ _ _ F1). exact Hc.
  - apply Htl; lia.
  - by rewrite Hh.
  - lia.
Qed.

(** ** Properties *)

(** C8: whatever user code does on the loop's thread and in callbacks, in any
    order with expiries, no operation of the queue fails an assert, follows a
    dangling pointer or overflows; between events the live timers are exactly
    the scheduled ones (nothing leaks), both sets describe the same timers, and
    when timers are scheduled the descriptor is set for the earliest. *)
Theorem timerqueue_safe alloc now evs :
  alloc_ok alloc -> clock_ok now -> events_ok (TimerQueue_new now) evs ->
  exists s, run_events alloc (TimerQueue_new now) evs = Ok s /\ quiet s.
Proof.
  intros Halloc Hnow Hok.
  destruct (run_events_spec alloc Halloc _ evs (new_quiet now Hnow) Hok) as (s & E & Q & _). eauto.
Qed.

(** C9: an expiry of the descriptor runs the callbacks of the timers that are
    due, and only these, once each and in the order of their deadlines; then a
    repeating timer that no callback cancelled is scheduled for its first period
    after the expiry and every other timer that ran is freed, and the timers
    that are not due stay scheduled unless a callback cancels them. *)
Theorem handleRead_correct alloc now evs s plan :
  alloc_ok alloc -> clock_ok now -> events_ok (TimerQueue_new now) evs ->
  run_events alloc (TimerQueue_new now) evs = Ok s -> acts_ok s (concat plan) ->
  exists s' due later, fire alloc s plan = Ok s' /\ quiet s' /\
    fire_rel s s' due later (concat (take (length due) plan)).
Proof.
  intros Halloc Hnow Hok E Hplan. apply fire_spec; [done| |done].
  by destruct (reach_quiet alloc Halloc now evs s Hnow Hok E).
Qed.

(** C32: a timer runs at an expiry after it was added exactly when its deadline
    has passed, if nothing cancelled it in between; the id [addTimer] returns
    names a live, scheduled timer. *)
Theorem added_timer_runs alloc now evs s cb when interval acts plan :
  alloc_ok alloc -> clock_ok now -> events_ok (TimerQueue_new now) evs ->
  run_events alloc (TimerQueue_new now) evs = Ok s ->
  acts_ok s (ActAdd cb when interval :: acts ++ concat plan) ->
  exists id s1 s2 s3 f,
    addTimer alloc s cb when interval = Ok (id, s1) /\ id ∈ activeTimers_ s1 /\
    do_acts alloc s1 acts = Ok s2 /\ fire alloc s2 plan = Ok s3 /\
    (fired s3).*1 = (fired s).*1 ++ f /\
    (ActCancel id ∉ acts -> id ∈ f <-> when <= clock s2).
Proof.
  intros Halloc Hnow Hev E Hok.
  destruct (reach_quiet alloc Halloc now evs s Hnow Hev E) as [I Ha Hc].
  destruct Hok as ([[Hw Hi] [Hok1 Hok2]%Forall_app]%Forall_cons & Ht & Hn).
  pose proof (sum_acts_nonneg _ Hok1). pose proof (sum_acts_nonneg _ Hok2).
  simpl in Ht, Hn. rewrite !sum_acts_app in *.
  destruct (addTimer_spec alloc Halloc [] _ s cb when interval I Ha Hw Hi)
    as (s1 & E1 & I1 & Ha1 & F1 & Hfresh & Hh & Hin & Hact); [lia|].
  set (id := (alloc (heap s), numCreated s + 1)) in *.
  pose proof (f_clock _ _ _ _ F1). pose proof (f_created _ _ _ _ F1). simpl in *.
  destruct (do_acts_spec alloc Halloc [] _ s1 acts I1 Ha1) as (s2 & E2 & I2 & Ha2 & F2);
    [split_and!; done || lia|].
  pose proof (f_clock _ _ _ _ F2). pose proof (f_created _ _ _ _ F2).
  destruct (fire_spec alloc Halloc s2 plan I2) as (s3 & es & l & E3 & Q3 & F3);
    [split_and!; done || lia|].
  exists id, s1, s2, s3, (ids_of (heap s2) es). split_and!; try done.
  { rewrite (fi_fired _ _ _ _ _ F3), (f_fired _ _ _ _ F2), (f_fired _ _ _ _ F1). done. }
  intros Hno.
  assert (id ∈ activeTimers_ s2) as Hact2 by (apply (f_active _ _ _ _ F2); [simpl; lia|done]).
  apply (due_iff s2 s3 es l _ id when I2 F3 Hact2).
  rewrite (f_stay _ _ _ _ F2 id.1 id.2), Hh; [|simpl; lia|done].
  eexists. split; [apply lookup_insert_eq|done].
Qed.

(** C31: a timer that was cancelled.  Cancelled between two expiries, it never
    runs again, whatever happens after, and no other timer is affected; in
    particular cancelling an id whose timer is gone is harmless, also when its
    address has been given to a newer timer.  Cancelled by a callback of an
    expiry, it runs in that expiry only if its deadline had passed when the expiry
    began (then it may be its turn after the cancellation), once at most, and
    never after it. *)
Theorem cancelled_never_runs alloc now evs s id evs' plan :
  alloc_ok alloc -> clock_ok now -> events_ok (TimerQueue_new now) evs ->
  run_events alloc (TimerQueue_new now) evs = Ok s -> id.2 <= numCreated s ->
  events_ok s (EvExpire plan :: evs') ->
  (exists s1 s2, cancel s id = Ok s1 /\ run_events alloc s1 evs' = Ok s2 /\ dead_since s s2 id /\
    (forall id', id' <> id -> id' ∈ activeTimers_ s -> id' ∈ activeTimers_ s1)) /\
  (exists s1 s2 due later, fire alloc s plan = Ok s1 /\ fire_rel s s1 due later (concat (take (length due) plan)) /\
    run_events alloc s1 evs' = Ok s2 /\ NoDup (ids_of (heap s) due) /\
    (ActCancel id ∈ concat (take (length due) plan) -> dead_since s1 s2 id)).
Proof.
  intros Halloc Hnow Hev E Hid Hok'.
  destruct (reach_quiet alloc Halloc now evs s Hnow Hev E) as [I Ha Hc].
  pose proof (events_ok_tail s (EvExpire plan) evs' Hok') as [Hplan Hok].
  pose proof (sum_acts_nonneg _ (proj1 Hplan)). split.
  - destruct (cancel_spec [] _ s id I Ha) as (s1 & E1 & I1 & Ha1 & F1).
    pose proof (f_clock _ _ _ _ F1) as Hclk. pose proof (f_created _ _ _ _ F1) as Hcr. simpl in Hclk, Hcr.
    destruct (run_events_spec alloc Halloc s1 evs') as (s2 & E2 & Q2 & (_ & _ & D)).
    { split; [done..|by rewrite (f_calling _ _ _ _ F1)]. }
    { apply (Hok s1); lia. }
    exists s1, s2. split_and!; try done.
    + destruct (D id) as [Hd (f & Hf & Hn)].
      * lia.
      * rewrite (f_active _ _ _ _ F1) by done. rewrite list_elem_of_singleton. tauto.
      * split; [done|]. exists f. by rewrite <- (f_fired _ _ _ _ F1).
    + intros id' Hne Hin. apply (f_active _ _ _ _ F1); [by eapply active_created|].
      rewrite list_elem_of_singleton. split; [done|]. congruence.
  - destruct (run_event_spec alloc Halloc s (EvExpire plan)) as (s1 & E1 & Q1 & (C1 & N1 & _)); [done..|].
    destruct (fire_spec alloc Halloc s plan I Hplan) as (s1' & due & later & E1' & _ & F).
    simpl in E1. assert (s1' = s1) as -> by congruence.
    destruct (run_events_spec alloc Halloc s1 evs' Q1) as (s2 & E2 & _ & (_ & _ & D)).
    { apply Hok; lia. }
    exists s1, s2, due, later. split_and!; try done.
    + apply (NoDup_fmap_1 fst). rewrite ids_of_ptrs. pose proof (i_nodup _ _ I) as Hnd.
      rewrite (fi_split _ _ _ _ _ F), fmap_app, <- app_assoc in Hnd. by apply NoDup_app in Hnd as [? _].
    + intros Hcan. apply D; [lia|]. apply (fi_drop _ _ _ _ _ F); auto.
Qed.

(** *** [addTimer] on another thread

    What the loop does while the caller stands between [runInLoop], which only
    queues there, and [return]: user code, then the functor, then events. *)
Definition foreign_hand_over alloc (acts : list tact) (evs : list tevent) (s : TimerQueue) (p : Z) : res TimerQueue :=
  s1 ← do_acts alloc s acts;
  s2 ← addTimerInLoop s1 p;
  run_events alloc s2 evs.

(** A one-shot timer that is still scheduled is as it was made. *)
Lemma one_shot_stays alloc s evs s' p tm q :
  alloc_ok alloc -> quiet s -> events_ok s evs -> run_events alloc s evs = Ok s' ->
  q <= numCreated s -> heap s !! p = Some tm -> sequence_ tm = q -> repeat_ tm = false ->
  (p, q) ∈ activeTimers_ s' -> heap s' !! p = Some tm.
Proof.
  intros Halloc. revert s. induction evs as [|ev evs IH]; intros s Q Hok E Hq Hp <- Hrep Hact.
  { by injection E as <-. }
  pose proof (events_ok_tail s ev evs Hok) as [Hev Htl]. cbn [run_events] in E.
  destruct (run_event_spec alloc Halloc s ev Q Hev) as (s1 & E1 & Q1 & (C1 & N1 & _)). rewrite E1 in E. simpl in E.
  destruct (run_events_spec alloc Halloc s1 evs Q1) as (s2 & E2 & _ & (_ & _ & D)); [apply Htl; lia|].
  assert (s2 = s') as -> by congruence.
  assert ((p, sequence_ tm) ∈ activeTimers_ s1) as Hact1.
  { destruct (decide ((p, sequence_ tm) ∈ activeTimers_ s1)) as [?|Hn]; [done|].
    destruct (D (p, sequence_ tm)) as [Hd _]; [simpl; lia|done|]. done. }
  assert (heap s1 !! p = Some tm) as Hp1; [|by apply (IH s1); try done; [apply Htl; lia|lia]].
  destruct Q as [I Ha Hc]. destruct ev as [acts|plan]; cbn [run_event event_acts] in *.
  - destruct (do_acts_spec alloc Halloc [] _ s acts I Ha Hev) as (s3 & E3 & _ & _ & F).
    assert (s3 = s1) as -> by congruence. by rewrite (f_stay _ _ _ _ F p (sequence_ tm)).
  - destruct (fire_spec alloc Halloc s plan I Hev) as (s3 & due & later & E3 & _ & F).
    assert (s3 = s1) as -> by congruence.
    assert (ActCancel (p, sequence_ tm) ∉ concat (take (length due) plan)) as Hno.
    { intros Hcan. apply (fi_drop _ _ _ _ _ F (p, sequence_ tm)); auto. }
    pose proof (proj1 (i_dom _ _ I p) (mk_is_Some _ _ Hp)) as Hdom.
    rewrite app_nil_r in Hdom. apply elem_of_ptrs in Hdom as [t Ht].
    rewrite (fi_split _ _ _ _ _ F) in Ht. apply elem_of_app in Ht as [Ht|Ht].
    + destruct (fi_run _ _ _ _ _ F p) as (tm' & Hp' & Hrun); [apply elem_of_ptrs; eauto|].
      rewrite Hp in Hp'. injection Hp' as <-. rewrite Hrep in Hrun. simpl in Hrun.
      apply (i_active _ _ (q_inv _ Q1)) in Hact1 as (_ & tm1 & Htm1 & _). congruence.
    + by apply (fi_keep _ _ _ _ _ F t p tm).
Qed.

(** C36: [addTimer] called on another thread reads [timer->sequence()] after it has
    handed the timer to the loop.  Whatever user code ran in the loop before the
    functor, and whatever the loop did after it: as long as a one-shot timer is
    scheduled the call returns its id, and if an expiry after its deadline comes
    before the read, that is a use after free. *)
Theorem foreign_addTimer_use_after_free alloc now evs s cb when acts evs' plan :
  alloc_ok alloc -> clock_ok now -> events_ok (TimerQueue_new now) evs ->
  run_events alloc (TimerQueue_new now) evs = Ok s ->
  events_ok s (EvUser (ActAdd cb when 0 :: acts) :: evs' ++ [EvExpire plan]) ->
  exists p s0 s1, new_timer alloc s cb when 0 = Ok (p, s0) /\ foreign_hand_over alloc acts evs' s0 p = Ok s1 /\
    let id := (p, numCreated s + 1) in
    (id ∈ activeTimers_ s1 ->
       addTimer_by alloc (foreign_hand_over alloc acts evs') s cb when 0 = Ok (id, s1)) /\
    (id ∈ activeTimers_ s1 -> when <= clock s1 ->
       addTimer_by alloc (foreign_hand_over alloc acts (evs' ++ [EvExpire plan])) s cb when 0 = Fault BadPointer).
Proof.
  intros Halloc Hnow Hev E Hok.
  destruct (reach_quiet alloc Halloc now evs s Hnow Hev E) as [I Ha Hc].
  destruct (foreign_handed alloc Halloc s cb when acts (evs' ++ [EvExpire plan]) I Ha Hc Hok)
    as (p & s0 & s2 & tm & En & Eh & Q2 & Hok2 & Hp & Hseq & Hexp & Hrep & Hcr).
  pose proof (events_ok_app s2 evs' [EvExpire plan] Hok2) as [Hok3 Htl].
  destruct (run_events_spec alloc Halloc s2 evs' Q2 Hok3) as (s1 & E1 & Q1 & (C1 & N1 & _)).
  assert (forall evs2, foreign_hand_over alloc acts evs2 s0 p = run_events alloc s2 evs2) as Efh.
  { intros evs2. unfold foreign_hand_over. destruct (do_acts alloc s0 acts); [|done]. simpl in *. by rewrite Eh. }
  exists p, s0, s1. split_and!; [done|by rewrite Efh|]. intros id.
  assert (id ∈ activeTimers_ s1 -> heap s1 !! p = Some tm) as Hst.
  { intros Hact. by apply (one_shot_stays alloc s2 evs' s1 p tm (numCreated s + 1)). }
  unfold addTimer_by. rewrite En. cbn [mbind res_bind]. rewrite !Efh, timer_events_app, E1. cbn [mbind res_bind]. split.
  - intros Hact. unfold addTimer_return. rewrite (Hst Hact). simpl. by rewrite Hseq.
  - intros Hact Hdue. destruct Q1 as [I1 Ha1 Hc1].
    destruct (fire_spec alloc Halloc s1 plan I1) as (s3 & due & later & E3 & _ & F).
    { destruct (Htl s1) as (? & ? & ?); [lia|lia|]. simpl in *. rewrite app_nil_r in *. done. }
    simpl. rewrite E3. simpl. unfold addTimer_return.
    assert (id ∈ ids_of (heap s1) due) as Hin.
    { apply (due_iff s1 s3 due later _ id when I1 F Hact); [|done]. exists tm. by split; [apply Hst|]. }
    destruct (fi_run _ _ _ _ _ F p) as (tm' & Hp' & Hrun).
    { rewrite <- (ids_of_ptrs (heap s1)). apply list_elem_of_fmap. by exists id. }
    rewrite (Hst Hact) in Hp'. injection Hp' as <-. rewrite Hrep in Hrun. simpl in Hrun. by rewrite Hrun.
Qed.

Lemma quiet_delete s : quiet s -> TimerQueue_delete s = ∅.
Proof.
  intros [I _ _]. unfold TimerQueue_delete. apply map_empty. intros p. rewrite delete_all_lookup.
  case_decide as Hp; [done|]. destruct (heap s !! p) as [tm|] eqn:Htm; [|done].
  destruct Hp. rewrite <- (app_nil_r (timers_ s).*2). apply (i_dom _ _ I). eauto.
Qed.

(** destroying the queue between events frees every timer. *)
Theorem delete_frees_all alloc now evs s :
  alloc_ok alloc -> clock_ok now -> events_ok (TimerQueue_new now) evs ->
  run_events alloc (TimerQueue_new now) evs = Ok s -> TimerQueue_delete s = ∅.
Proof. intros Halloc Hnow Hev E. by apply quiet_delete, (reach_quiet alloc Halloc now evs). Qed.

(** ** The theorems at a concrete history

    Two timers, one every 5 us; both are due at the expiry, where the callback
    of the first cancels itself and adds a third. *)
Definition ex_now : Z := 1000000.
Definition ex_events : list tevent :=
  [EvUser [ActAdd 1 1001000 5; ActAdd 2 1002000 0; ActAdd 3 9000000 0; ActElapse 2000]].
Definition ex_plan : list (list tact) := [[ActCancel (1, 1); ActAdd 4 1001500 7]; [ActElapse 50]].
Definition ex_state : TimerQueue :=
  match run_events alloc_first (TimerQueue_new ex_now) ex_events with
  | Ok s => s
  | Fault _ => TimerQueue_new ex_now
  end.

Lemma ex_reached : run_events alloc_first (TimerQueue_new ex_now) ex_events = Ok ex_state.
Proof. vm_compute. reflexivity. Qed.

Lemma ex_clock_ok : clock_ok ex_now.
Proof. unfold clock_ok, ex_now. lia. Qed.

Lemma ex_events_ok : events_ok (TimerQueue_new ex_now) ex_events.
Proof. by_decide. Qed.

Lemma timerqueue_safe_witness :
  exists s, run_events alloc_first (TimerQueue_new ex_now) (ex_events ++ [EvExpire ex_plan]) = Ok s /\ quiet s.
Proof.
  apply (timerqueue_safe alloc_first ex_now (ex_events ++ [EvExpire ex_plan])).
  - exact alloc_first_ok.
  - exact ex_clock_ok.
  - by_decide.
Defined.

Lemma handleRead_correct_witness :
  exists s' due later, fire alloc_first ex_state ex_plan = Ok s' /\ quiet s' /\
    fire_rel ex_state s' due later (concat (take (length due) ex_plan)).
Proof.
  apply (handleRead_correct alloc_first ex_now ex_events ex_state ex_plan).
  - exact alloc_first_ok.
  - exact ex_clock_ok.
  - exact ex_events_ok.
  - exact ex_reached.
  - by_decide.
Defined.

Lemma added_timer_runs_witness :
  exists id s1 s2 s3 f,
    addTimer alloc_first ex_state 5 1002500 0 = Ok (id, s1) /\ id ∈ activeTimers_ s1 /\
    do_acts alloc_first s1 [ActElapse 600] = Ok s2 /\ fire alloc_first s2 [] = Ok s3 /\
    (fired s3).*1 = (fired ex_state).*1 ++ f /\
    (ActCancel id ∉ [ActElapse 600] -> id ∈ f <-> 1002500 <= clock s2).
Proof.
  apply (added_timer_runs alloc_first ex_now ex_events ex_state 5 1002500 0 [ActElapse 600] []).
  - exact alloc_first_ok.
  - exact ex_clock_ok.
  - exact ex_events_ok.
  - exact ex_reached.
  - by_decide.
Defined.

Lemma cancelled_never_runs_witness :
  let evs' := [EvUser [ActAdd 6 1005000 0]; EvExpire []] in
  (exists s1 s2, cancel ex_state (1, 1) = Ok s1 /\ run_events alloc_first s1 evs' = Ok s2 /\
    dead_since ex_state s2 (1, 1) /\
    (forall id', id' <> (1, 1) -> id' ∈ activeTimers_ ex_state -> id' ∈ activeTimers_ s1)) /\
  (exists s1 s2 due later, fire alloc_first ex_state ex_plan = Ok s1 /\
    fire_rel ex_state s1 due later (concat (take (length due) ex_plan)) /\
    run_events alloc_first s1 evs' = Ok s2 /\ NoDup (ids_of (heap ex_state) due) /\
    (ActCancel (1, 1) ∈ concat (take (length due) ex_plan) -> dead_since s1 s2 (1, 1))).
Proof.
  apply (cancelled_never_runs alloc_first ex_now ex_events ex_state (1, 1)
           [EvUser [ActAdd 6 1005000 0]; EvExpire []] ex_plan).
  - exact alloc_first_ok.
  - exact ex_clock_ok.
  - exact ex_events_ok.
  - exact ex_reached.
  - vm_compute. discriminate.
  - by_decide.
Defined.

Lemma delete_frees_all_witness : TimerQueue_delete ex_state = ∅.
Proof.
  apply (delete_frees_all alloc_first ex_now ex_events ex_state).
  - exact alloc_first_ok.
  - exact ex_clock_ok.
  - exact ex_events_ok.
  - exact ex_reached.
Defined.

(** A timer added from another thread for 500 ns on: 100 ns later the call returns
    its id; an expiry 1000 ns later leaves the call with a dangling pointer. *)
Definition ex_hand_over : list tevent := [EvUser [ActElapse 1000]].

Lemma foreign_addTimer_use_after_free_witness :
  exists p s0 s1, new_timer alloc_first ex_state 1 1002500 0 = Ok (p, s0) /\
    foreign_hand_over alloc_first [ActElapse 100] ex_hand_over s0 p = Ok s1 /\
    let id := (p, numCreated ex_state + 1) in
    (id ∈ activeTimers_ s1 ->
       addTimer_by alloc_first (foreign_hand_over alloc_first [ActElapse 100] ex_hand_over) ex_state 1 1002500 0 = Ok (id, s1)) /\
    (id ∈ activeTimers_ s1 -> 1002500 <= clock s1 ->
       addTimer_by alloc_first (foreign_hand_over alloc_first [ActElapse 100] (ex_hand_over ++ [EvExpire []]))
         ex_state 1 1002500 0 = Fault BadPointer).
Proof.
  apply (foreign_addTimer_use_after_free alloc_first ex_now ex_events ex_state 1 1002500 [ActElapse 100] ex_hand_over []).
  - exact alloc_first_ok.
  - exact ex_clock_ok.
  - exact ex_events_ok.
  - exact ex_reached.
  - by_decide.
Defined.

(** Both cases occur. *)
Example foreign_addTimer_outcomes :
  (exists s, addTimer_by alloc_first (foreign_hand_over alloc_first [ActElapse 100] ex_hand_over) ex_state 1 1002500 0
     = Ok ((4, 4), s)) /\
  addTimer_by alloc_first (foreign_hand_over alloc_first [ActElapse 100] (ex_hand_over ++ [EvExpire []]))
    ex_state 1 1002500 0 = Fault BadPointer.
Proof. split; [eexists|]; vm_compute; reflexivity. Qed.
