(* ===== verification/Channel.v ===== *)
(** * Channel: one descriptor, its events and its callbacks

    Models the data of [include/hvnetpp/Channel.h] and the parts of
    [src/Channel.cpp] that concern one object: the event masks and which
    callbacks an event selects.  The operations that reach the poller are in
    Poller.v, over a heap of channels. *)

From S2P Require Import Prelude.

(** ** Event bits, from [<sys/epoll.h>] *)
Definition EPOLLIN : Z := 1.
Definition EPOLLPRI : Z := 2.
Definition EPOLLOUT : Z := 4.
Definition EPOLLERR : Z := 8.
Definition EPOLLHUP : Z := 16.
Definition EPOLLRDHUP : Z := 8192.

Definition kNoneEvent : Z := 0.
Definition kReadEvent : Z := Z.lor EPOLLIN EPOLLPRI.
Definition kWriteEvent : Z := EPOLLOUT.

(** ** The object

    Callbacks are user code; of each the channel knows whether it is set.
    [tie_] is the object [tie] was called with. *)
Record Channel : Type := mkChannel {
  fd_ : Z;
  events_ : Z;
  revents_ : Z;
  index_ : Z;
  eventHandling_ : bool;
  addedToLoop_ : bool;
  tied_ : bool;
  tie_ : option Z;
  readCallback_ : bool;
  writeCallback_ : bool;
  closeCallback_ : bool;
  errorCallback_ : bool
}.

Definition Channel_new (fd : Z) : Channel :=
  mkChannel fd 0 0 (-1) false false false None false false false false.

Definition set_events (c : Channel) (e : Z) : Channel :=
  mkChannel (fd_ c) e (revents_ c) (index_ c) (eventHandling_ c) (addedToLoop_ c) (tied_ c) (tie_ c)
    (readCallback_ c) (writeCallback_ c) (closeCallback_ c) (errorCallback_ c).
Definition setRevents (c : Channel) (e : Z) : Channel :=
  mkChannel (fd_ c) (events_ c) e (index_ c) (eventHandling_ c) (addedToLoop_ c) (tied_ c) (tie_ c)
    (readCallback_ c) (writeCallback_ c) (closeCallback_ c) (errorCallback_ c).
Definition setIndex (c : Channel) (i : Z) : Channel :=
  mkChannel (fd_ c) (events_ c) (revents_ c) i (eventHandling_ c) (addedToLoop_ c) (tied_ c) (tie_ c)
    (readCallback_ c) (writeCallback_ c) (closeCallback_ c) (errorCallback_ c).
Definition set_handling (c : Channel) (b : bool) : Channel :=
  mkChannel (fd_ c) (events_ c) (revents_ c) (index_ c) b (addedToLoop_ c) (tied_ c) (tie_ c)
    (readCallback_ c) (writeCallback_ c) (closeCallback_ c) (errorCallback_ c).
Definition set_added (c : Channel) (b : bool) : Channel :=
  mkChannel (fd_ c) (events_ c) (revents_ c) (index_ c) (eventHandling_ c) b (tied_ c) (tie_ c)
    (readCallback_ c) (writeCallback_ c) (closeCallback_ c) (errorCallback_ c).

(** [setReadCallback] .. [setErrorCallback] with callbacks that may be empty. *)
Definition set_callbacks (c : Channel) (r w cl e : bool) : Channel :=
  mkChannel (fd_ c) (events_ c) (revents_ c) (index_ c) (eventHandling_ c) (addedToLoop_ c) (tied_ c)
    (tie_ c) r w cl e.

Definition tie (c : Channel) (obj : Z) : Channel :=
  mkChannel (fd_ c) (events_ c) (revents_ c) (index_ c) (eventHandling_ c) (addedToLoop_ c) true (Some obj)
    (readCallback_ c) (writeCallback_ c) (closeCallback_ c) (errorCallback_ c).

Definition isNoneEvent (c : Channel) : bool := events_ c =? kNoneEvent.
Definition isWriting (c : Channel) : bool := negb (Z.land (events_ c) kWriteEvent =? 0).
Definition isReading (c : Channel) : bool := negb (Z.land (events_ c) kReadEvent =? 0).

(** What [enableReading] .. [disableAll] do to [events_] before [update()]. *)
Inductive ev_change : Type :=
| EnableReading | DisableReading | EnableWriting | DisableWriting | DisableAll.

Definition change_events (ch : ev_change) (e : Z) : Z :=
  match ch with
  | EnableReading => Z.lor e kReadEvent
  | DisableReading => Z.land e (Z.lnot kReadEvent)
  | EnableWriting => Z.lor e kWriteEvent
  | DisableWriting => Z.land e (Z.lnot kWriteEvent)
  | DisableAll => kNoneEvent
  end.

(** [enableReading] .. [disableAll] and [remove] as the owner of the channel
    sees them; Poller.v adds what they do to the poller. *)
Definition channel_set (ch : ev_change) (c : Channel) : Channel :=
  let c1 := set_events c (change_events ch (events_ c)) in
  if negb (addedToLoop_ c1) && isNoneEvent c1 then c1 else set_added c1 true.
Definition channel_drop (c : Channel) : Channel := set_added c false.

(** ** The callbacks of an event, in the order of [handleEventWithGuard] *)
Inductive cbk : Type := CbClose | CbError | CbRead | CbWrite.

#[global] Instance cbk_eq_dec : EqDecision cbk.
Proof. solve_decision. Defined.

Definition all_cbks : list cbk := [CbClose; CbError; CbRead; CbWrite].

(** The condition of each branch, and whether its callback is set. *)
Definition selected (c : Channel) (k : cbk) : bool :=
  match k with
  | CbClose => negb (Z.land (revents_ c) EPOLLHUP =? 0) && (Z.land (revents_ c) EPOLLIN =? 0)
               && closeCallback_ c
  | CbError => negb (Z.land (revents_ c) EPOLLERR =? 0) && errorCallback_ c
  | CbRead => negb (Z.land (revents_ c) (Z.lor (Z.lor EPOLLIN EPOLLPRI) EPOLLRDHUP) =? 0)
              && readCallback_ c
  | CbWrite => negb (Z.land (revents_ c) EPOLLOUT =? 0) && writeCallback_ c
  end.

(** ** Facts on the masks

    A channel only ever asks for [EPOLLIN|EPOLLPRI] and [EPOLLOUT]. *)
Definition mask_ok (e : Z) : Prop := e ∈ [0; 3; 4; 7].

Lemma change_events_ok ch e : mask_ok e -> mask_ok (change_events ch e).
Proof.
  unfold mask_ok. rewrite !elem_of_cons, elem_of_nil.
  intros [->|[->|[->|[->|[]]]]]; destruct ch; vm_compute; tauto.
Qed.

(** Reading and writing are switched independently. *)
Lemma change_events_bits ch e :
  mask_ok e ->
  let reading := negb (Z.land (change_events ch e) kReadEvent =? 0) in
  let writing := negb (Z.land (change_events ch e) kWriteEvent =? 0) in
  match ch with
  | EnableReading => reading = true /\ writing = negb (Z.land e kWriteEvent =? 0)
  | DisableReading => reading = false /\ writing = negb (Z.land e kWriteEvent =? 0)
  | EnableWriting => writing = true /\ reading = negb (Z.land e kReadEvent =? 0)
  | DisableWriting => writing = false /\ reading = negb (Z.land e kReadEvent =? 0)
  | DisableAll => reading = false /\ writing = false
  end.
Proof.
  unfold mask_ok. rewrite !elem_of_cons, elem_of_nil.
  intros [->|[->|[->|[->|[]]]]]; destruct ch; vm_compute; auto.
Qed.
