(* ===== verification/Poller.v ===== *)
(** * Poller: channels, the poller and the dispatch of events

    Models [include/hvnetpp/Poller.h], [src/Poller.cpp] and the operations of
    [src/Channel.cpp] that reach the poller through
    [EventLoop::updateChannel]/[removeChannel].  Channels are objects of a
    heap, since the poller, the kernel and the loop keep pointers to them.

    The kernel's epoll instance is a parameter: [Epoll] names what the code
    calls, [EpollLaws] states what epoll_ctl(2) documents.  All functions run
    on the loop's thread; LoopRound.v has [EventLoop]'s own calls, with their
    [assertInLoopThread].  The dispatch of events is written over any state of
    which the poller's is a [Part]. *)

From S2P Require Import Prelude Channel.

(** ** The kernel *)
Inductive ctl_op : Type := CTL_ADD | CTL_MOD | CTL_DEL.

(** [epoll_ctl k op fd ev] is the instance after a successful call, [None] when
    the call fails; [interest] is the interest list: events and [data.ptr] of
    each registered descriptor. *)
Class Epoll (K : Type) : Type := {
  epoll_ctl : K -> ctl_op -> Z -> Z * Z -> option K;
  interest : K -> gmap Z (Z * Z)
}.

Class EpollLaws (K : Type) `{Epoll K} : Prop := {
  ctl_add k fd ev k' : epoll_ctl k CTL_ADD fd ev = Some k' ->
    interest k' = <[fd := ev]> (interest k);
  ctl_mod k fd ev k' : epoll_ctl k CTL_MOD fd ev = Some k' ->
    interest k' = <[fd := ev]> (interest k);
  ctl_del k fd ev k' : epoll_ctl k CTL_DEL fd ev = Some k' ->
    interest k' = delete fd (interest k);
  (** deleting a registered descriptor does not fail *)
  ctl_del_ok k fd ev : is_Some (interest k !! fd) -> is_Some (epoll_ctl k CTL_DEL fd ev)
}.

(** ** The state

    [chans] is the heap of channels, [channels_] and [evsize] (the size of
    [events_]) the fields of the poller, [alive] the objects channels are tied
    to that still exist.  [trace] is a history variable: the callbacks run. *)
Record Reactor (K : Type) : Type := mkReactor {
  chans : gmap Z Channel;
  channels_ : gmap Z Z;
  epoll : K;
  evsize : Z;
  alive : gset Z;
  trace : list (Z * cbk)
}.
Arguments mkReactor {K}.
Arguments chans {K}.
Arguments channels_ {K}.
Arguments epoll {K}.
Arguments evsize {K}.
Arguments alive {K}.
Arguments trace {K}.

Definition kInitEventListSize : Z := 16.

Section poller.
Context {K : Type} `{Epoll K}.
Implicit Types (r : Reactor K) (p fd : Z).

Definition Reactor_new (k : K) : Reactor K := mkReactor ∅ ∅ k kInitEventListSize ∅ [].

Definition set_chans r h : Reactor K :=
  mkReactor h (channels_ r) (epoll r) (evsize r) (alive r) (trace r).
Definition set_chan r p c : Reactor K := set_chans r (<[p := c]> (chans r)).
Definition set_channels r m : Reactor K :=
  mkReactor (chans r) m (epoll r) (evsize r) (alive r) (trace r).
Definition set_epoll r k : Reactor K :=
  mkReactor (chans r) (channels_ r) k (evsize r) (alive r) (trace r).
Definition set_evsize r n : Reactor K :=
  mkReactor (chans r) (channels_ r) (epoll r) n (alive r) (trace r).
Definition set_alive r a : Reactor K :=
  mkReactor (chans r) (channels_ r) (epoll r) (evsize r) a (trace r).
Definition log_cbk r p k : Reactor K :=
  mkReactor (chans r) (channels_ r) (epoll r) (evsize r) (alive r) (trace r ++ [(p, k)]).

(** ** [Poller] *)
Definition poller_update r (operation : ctl_op) p : res (Reactor K) :=
  c ← deref (chans r !! p);
  match epoll_ctl (epoll r) operation (fd_ c) (events_ c, p) with
  | Some k => Ok (set_epoll r k)
  | None => match operation with CTL_DEL => Ok r | _ => Fault StdAbort end
  end.

Definition updateChannel r p : res (Reactor K) :=
  c ← deref (chans r !! p);
  let index := index_ c in
  if (index =? -1) || (index =? 2) then
    if isNoneEvent c then Ok r else
    r1 ← poller_update r CTL_ADD p;
    Ok (set_channels (set_chan r1 p (setIndex c 1)) (<[fd_ c := p]> (channels_ r1)))
  else if isNoneEvent c then
    r1 ← poller_update r CTL_DEL p;
    Ok (set_chan r1 p (setIndex c 2))
  else poller_update r CTL_MOD p.

Definition removeChannel r p : res (Reactor K) :=
  c ← deref (chans r !! p);
  let fd := fd_ c in
  assert_ (bool_decide (is_Some (channels_ r !! fd)));;
  assert_ (bool_decide (channels_ r !! fd = Some p));;
  assert_ (isNoneEvent c);;
  let index := index_ c in
  assert_ ((index =? 1) || (index =? 2));;
  let r1 := set_channels r (delete fd (channels_ r)) in
  r2 ← (if index =? 1 then poller_update r1 CTL_DEL p else Ok r1);
  Ok (set_chan r2 p (setIndex c (-1))).

Definition hasChannel r p : res bool :=
  c ← deref (chans r !! p);
  Ok (bool_decide (channels_ r !! fd_ c = Some p)).

(** ** [Channel] operations that reach the poller *)
Definition channel_update r p : res (Reactor K) :=
  c ← deref (chans r !! p);
  if negb (addedToLoop_ c) && isNoneEvent c then Ok r
  else updateChannel (set_chan r p (set_added c true)) p.

(** [enableReading] .. [disableAll]. *)
Definition channel_change r p (ch : ev_change) : res (Reactor K) :=
  c ← deref (chans r !! p);
  channel_update (set_chan r p (set_events c (change_events ch (events_ c)))) p.

Definition channel_remove r p : res (Reactor K) :=
  c ← deref (chans r !! p);
  if negb (addedToLoop_ c) then Ok r
  else removeChannel (set_chan r p (set_added c false)) p.

(** ** [poll]

    [epoll_wait] returns events (with [data.ptr]) or fails with an errno. *)
Inductive wait_result : Type :=
| WEvents (evs : list (Z * Z))
| WError (errno : Z).

Fixpoint fillActiveChannels r (evs : list (Z * Z)) : res (list Z * Reactor K) :=
  match evs with
  | [] => Ok ([], r)
  | (events, p) :: evs' =>
      c ← deref (chans r !! p);
      '(active, r') ← fillActiveChannels (set_chan r p (setRevents c events)) evs';
      Ok (p :: active, r')
  end.

Definition poll r (w : wait_result) : res (list Z * Reactor K) :=
  match w with
  | WEvents evs =>
      if 0 <? zlen evs then
        '(active, r1) ← fillActiveChannels r evs;
        Ok (active, if zlen evs =? evsize r1 then set_evsize r1 (evsize r1 * 2) else r1)
      else Ok ([], r)
  | WError _ => Ok ([], r)
  end.

(** ** Dispatch *)

(** [tie_.lock()]: does the tied object still exist? *)
Definition tie_lock r (c : Channel) : bool :=
  match tie_ c with Some o => bool_decide (o ∈ alive r) | None => false end.

Section dispatch.
(** The callbacks: user code, which runs on the whole state [W]. *)
Context {W : Type} `{Part W (Reactor K)} (run : W -> Z -> cbk -> res W).
Implicit Types (w : W).

Definition try_callback (rw : res W) p (k : cbk) : res W :=
  w ← rw;
  c ← deref (chans (get w) !! p);
  if selected c k then run (modify (fun r => log_cbk r p k) w) p k else Ok w.

Definition handleEventWithGuard w p : res W :=
  c ← deref (chans (get w) !! p);
  w1 ← foldl (fun rw k => try_callback rw p k)
         (Ok (modify (fun r => set_chan r p (set_handling c true)) w)) all_cbks;
  c1 ← deref (chans (get w1) !! p);
  Ok (modify (fun r => set_chan r p (set_handling c1 false)) w1).

Definition handleEvent w p : res W :=
  c ← deref (chans (get w) !! p);
  if tied_ c then
    if tie_lock (get w) c
    then handleEventWithGuard w p else Ok w
  else handleEventWithGuard w p.

(** The loop over [activeChannels_] in [EventLoop::loop]. *)
Fixpoint handle_active w (active : list Z) : res W :=
  match active with
  | [] => Ok w
  | p :: ps => w' ← handleEvent w p; handle_active w' ps
  end.
End dispatch.

Lemma handle_active_approx {W} `{Part W (Reactor K)} (run run' : W -> Z -> cbk -> res W) w ps :
  (forall w p k, approx (run w p k) (run' w p k)) -> approx (handle_active run w ps) (handle_active run' w ps).
Proof.
  intros Hr. assert (forall w p, approx (handleEventWithGuard run w p) (handleEventWithGuard run' w p)) as Hg.
  { intros v p. unfold handleEventWithGuard. apply approx_bind; [done|]. intros c.
    apply approx_bind; [|done]. apply approx_foldl; [|done]. intros m m' k Hm.
    apply approx_bind; [done|]. intros v1. apply approx_bind; [done|]. intros c1. by destruct (selected c1 k). }
  revert w. induction ps as [|p ps IH]; intros w; cbn [handle_active]; [done|].
  apply approx_bind; [|done]. unfold handleEvent. apply approx_bind; [done|]. intros c.
  destruct (tied_ c); [|done]. by destruct (tie_lock _ c).
Qed.
End poller.

(** ** What clients do

    Create a channel, change its mask, tie it, remove it, delete it, and end
    the life of the object it is tied to. *)
Inductive rop : Type :=
| RNew (p fd : Z) (rd wr cl er : bool)
| RChange (p : Z) (ch : ev_change)
| RTie (p obj : Z)
| RRemove (p : Z)
| RDelete (p : Z)
| RDrop (obj : Z).

Section clients.
Context {K : Type} `{EpollLaws K}.
Implicit Types (r : Reactor K) (p fd : Z).

Definition do_rop r (o : rop) : res (Reactor K) :=
  match o with
  | RNew p fd rd wr cl er => Ok (set_chan r p (set_callbacks (Channel_new fd) rd wr cl er))
  | RChange p ch => channel_change r p ch
  | RTie p obj => c ← deref (chans r !! p);
      Ok (set_alive (set_chan r p (tie c obj)) ({[obj]} ∪ alive r))
  | RRemove p => channel_remove r p
  | RDelete p => c ← deref (chans r !! p); Ok (set_chans r (delete p (chans r)))
  | RDrop obj => Ok (set_alive r (alive r ∖ {[obj]}))
  end.

(** The protocol clients follow: pointers are to live channels, a channel is
    given events only when no other registered channel has its descriptor,
    it is removed only when it asks for nothing, and deleted only when it is
    not in the loop. *)
Definition pre r (o : rop) : Prop :=
  match o with
  | RNew p fd _ _ _ _ => chans r !! p = None
  | RChange p ch => exists c, chans r !! p = Some c /\
      (channels_ r !! fd_ c = None \/ channels_ r !! fd_ c = Some p \/
       change_events ch (events_ c) = 0)
  | RTie p obj => is_Some (chans r !! p)
  | RRemove p => exists c, chans r !! p = Some c /\ events_ c = 0
  | RDelete p => exists c, chans r !! p = Some c /\ addedToLoop_ c = false
  | RDrop obj => True
  end.

#[global] Instance pre_dec r o : Decision (pre r o).
Proof.
  assert (forall p (P : Channel -> Prop), (forall c, Decision (P c)) ->
    Decision (exists c, chans r !! p = Some c /\ P c)) as Hex.
  { intros p P HP. destruct (chans r !! p) as [c|]; [|right; by intros (? & ? & _)].
    destruct (HP c); [left; by exists c|right; by intros (? & [= <-] & ?)]. }
  destruct o; simpl; try apply _; apply Hex; apply _.
Defined.

Fixpoint run_rops r (os : list rop) : res (Reactor K) :=
  match os with [] => Ok r | o :: os' => r' ← do_rop r o; run_rops r' os' end.

Fixpoint rops_ok r (os : list rop) : Prop :=
  match os with
  | [] => True
  | o :: os' => pre r o /\ forall r', do_rop r o = Ok r' -> rops_ok r' os'
  end.

(** The protocol, decided along the run. *)
Fixpoint rops_okb r (os : list rop) : bool :=
  match os with
  | [] => true
  | o :: os' => bool_decide (pre r o) && match do_rop r o with Ok r' => rops_okb r' os' | Fault _ => true end
  end.

Lemma rops_okb_true r os : rops_okb r os = true -> rops_ok r os.
Proof.
  revert r. induction os as [|o os IH]; intros r; simpl; [done|].
  intros [Hp%bool_decide_eq_true Hr]%andb_true_iff. split; [done|]. intros r' E. rewrite E in Hr. by apply IH.
Qed.

(** ** The invariant

    What the fields of a channel say about the poller and the kernel. *)
Definition chan_ok r p (c : Channel) : Prop :=
  mask_ok (events_ c) /\
  (index_ c = -1 /\ addedToLoop_ c = false /\ events_ c = 0 \/
   index_ c = 1 /\ addedToLoop_ c = true /\ events_ c <> 0 /\
     channels_ r !! fd_ c = Some p /\ interest (epoll r) !! fd_ c = Some (events_ c, p) \/
   index_ c = 2 /\ addedToLoop_ c = true /\ events_ c = 0 /\
     channels_ r !! fd_ c = Some p /\ interest (epoll r) !! fd_ c = None).

Record reactor_inv r : Prop := mkRInv {
  ri_chan p c : chans r !! p = Some c -> chan_ok r p c;
  ri_map fd p : channels_ r !! fd = Some p ->
    exists c, chans r !! p = Some c /\ fd_ c = fd /\ addedToLoop_ c = true;
  ri_int fd e p : interest (epoll r) !! fd = Some (e, p) -> channels_ r !! fd = Some p;
  ri_size : kInitEventListSize <= evsize r
}.

Lemma chan_ok_frame r r' p c :
  (index_ c <> -1 -> channels_ r' !! fd_ c = channels_ r !! fd_ c /\
                     interest (epoll r') !! fd_ c = interest (epoll r) !! fd_ c) ->
  chan_ok r p c -> chan_ok r' p c.
Proof.
  intros Hsame [Hm Hc]. split; [done|].
  destruct Hc as [?|[(Hi & ? & ? & ? & ?)|(Hi & ? & ? & ? & ?)]]; [by left|..];
    (destruct Hsame as [-> ->]; [by rewrite Hi|]); tauto.
Qed.

(** A channel that is in the loop is in the poller's map. *)
Lemma added_map r p c :
  reactor_inv r -> chans r !! p = Some c -> index_ c <> -1 -> channels_ r !! fd_ c = Some p.
Proof.
  intros I Hc Hi. destruct (ri_chan _ I _ _ Hc) as [_ [(? & _)|[(_ & _ & _ & ? & _)|(_ & _ & _ & ? & _)]]]; done.
Qed.

(** Changing a channel, its entry in the map and its registration. *)
Lemma inv_owned r p c c' m k :
  reactor_inv r -> chans r !! p = Some c -> fd_ c' = fd_ c ->
  (channels_ r !! fd_ c = None \/ channels_ r !! fd_ c = Some p) ->
  (forall fd, fd <> fd_ c -> m !! fd = channels_ r !! fd) ->
  (forall fd, fd <> fd_ c -> interest k !! fd = interest (epoll r) !! fd) ->
  (forall q, m !! fd_ c = Some q -> q = p /\ addedToLoop_ c' = true) ->
  (forall e q, interest k !! fd_ c = Some (e, q) -> m !! fd_ c = Some q) ->
  let r' := set_channels (set_epoll (set_chan r p c') k) m in
  chan_ok r' p c' -> reactor_inv r'.
Proof.
  intros I Hp Hfd Hown Hm Hk Hmp Hkp r' Hok. split; simpl.
  - intros q d. rewrite lookup_insert. case_decide as E; [by intros [= <-]; subst q|].
    intros Hd. apply (chan_ok_frame r); [|by apply (ri_chan _ I)]. intros Hi. simpl.
    pose proof (added_map _ _ _ I Hd Hi) as Hq.
    assert (fd_ d <> fd_ c) as Hne. { intros E'. rewrite E' in Hq. destruct Hown; congruence. }
    by rewrite Hm, Hk.
  - intros fd q Hq. destruct (decide (fd = fd_ c)) as [->|Hne].
    + apply Hmp in Hq as [-> ?]. exists c'. by rewrite lookup_insert_eq.
    + rewrite Hm in Hq by done. destruct (ri_map _ I _ _ Hq) as (d & Hd & Hdf & Ha).
      exists d. rewrite lookup_insert_ne; [done|]. intros ->. congruence.
  - intros fd e q. destruct (decide (fd = fd_ c)) as [->|Hne]; [apply Hkp|].
    rewrite Hm, Hk by done. apply (ri_int _ I).
  - apply (ri_size _ I).
Qed.

(** Fields the poller does not use. *)
Definition same_reg (c c' : Channel) : Prop :=
  fd_ c' = fd_ c /\ events_ c' = events_ c /\ index_ c' = index_ c /\ addedToLoop_ c' = addedToLoop_ c.

Lemma inv_fields r p c c' :
  reactor_inv r -> chans r !! p = Some c -> same_reg c c' -> reactor_inv (set_chan r p c').
Proof.
  intros I Hp (Hf & He & Hi & Ha). split; simpl; try apply I.
  - intros q d. rewrite lookup_insert. case_decide as E; [subst q|by apply (ri_chan _ I)].
    intros [= <-]. pose proof (ri_chan _ I _ _ Hp) as Hok. unfold chan_ok in *. simpl.
    by rewrite Hf, He, Hi, Ha.
  - intros fd q Hq. destruct (ri_map _ I _ _ Hq) as (d & Hd & Hdf & Hda).
    rewrite lookup_insert. case_decide as E; [subst q|by eauto].
    exists c'. rewrite Hf, Ha. split; [done|]. rewrite Hp in Hd. by injection Hd as ->.
Qed.

Lemma inv_ext r r' :
  reactor_inv r -> chans r' = chans r -> channels_ r' = channels_ r -> epoll r' = epoll r ->
  kInitEventListSize <= evsize r' -> reactor_inv r'.
Proof.
  intros [H1 H2 H3 H4] Ec Em Ee Hs. split; unfold chan_ok in *; rewrite ?Ec, ?Em, ?Ee; done.
Qed.

(** ** The operations *)
Definition reg_outcome (P : Reactor K -> Prop) (o : res (Reactor K)) : Prop :=
  match o with Ok r => reactor_inv r /\ P r | Fault f => f = StdAbort end.

(** What a change of one channel leaves alone. *)
Definition only_chan p r r' : Prop :=
  (forall q, q <> p -> chans r' !! q = chans r !! q) /\ is_Some (chans r' !! p) /\
  evsize r' = evsize r /\ alive r' = alive r /\ trace r' = trace r.

(** The fields that only the owner and the dispatch use. *)
Definition same_rest (c c' : Channel) : Prop :=
  fd_ c' = fd_ c /\ revents_ c' = revents_ c /\ tied_ c' = tied_ c /\ tie_ c' = tie_ c /\
  (readCallback_ c', writeCallback_ c', closeCallback_ c', errorCallback_ c') =
  (readCallback_ c, writeCallback_ c, closeCallback_ c, errorCallback_ c).

Definition changed p c e r r' : Prop :=
  only_chan p r r' /\ exists c', chans r' !! p = Some c' /\ events_ c' = e /\ same_rest c c'.

Lemma changed_intro p c c' r r' :
  chans r' = <[p := c']> (chans r) -> same_rest c c' ->
  evsize r' = evsize r -> alive r' = alive r -> trace r' = trace r -> changed p c (events_ c') r r'.
Proof.
  intros E Hs ? ? ?. split; [split_and!; try done; rewrite E|exists c'; rewrite E].
  - intros q Hq. by rewrite lookup_insert_ne.
  - rewrite lookup_insert_eq. eauto.
  - by rewrite lookup_insert_eq.
Qed.

(** Registering a channel that is not registered. *)
Lemma register_spec r p c c1 :
  reactor_inv r -> chans r !! p = Some c -> index_ c <> 1 ->
  (channels_ r !! fd_ c = None \/ channels_ r !! fd_ c = Some p) ->
  same_rest c c1 -> mask_ok (events_ c1) -> events_ c1 <> 0 -> addedToLoop_ c1 = true ->
  index_ c1 = index_ c ->
  reg_outcome (changed p c (events_ c1) r) (updateChannel (set_chan r p c1) p).
Proof.
  intros I Hp Hi Hown Hsame Hm Hne Hadd Hidx. unfold updateChannel, poller_update. simpl.
  rewrite lookup_insert_eq. simpl. unfold isNoneEvent, kNoneEvent.
  rewrite (proj2 (Z.eqb_neq (events_ c1) 0) Hne), Hidx.
  assert ((index_ c =? -1) || (index_ c =? 2) = true) as ->.
  { destruct (ri_chan _ I _ _ Hp) as [_ [(-> & _)|[(? & _)|(-> & _)]]]; done. }
  destruct (epoll_ctl _ _ _ _) as [k|] eqn:E; [|done]. apply ctl_add in E. simpl.
  pose proof Hsame as (Hf & _).
  set (r' := set_channels _ _).
  assert (r' = set_channels (set_epoll (set_chan r p (setIndex c1 1)) k) (<[fd_ c1 := p]> (channels_ r))) as ->.
  { unfold r', set_chan, set_chans. simpl. by rewrite insert_insert_eq. }
  split.
  - apply inv_owned with c; try done; simpl.
    + intros fd Hfd. by rewrite lookup_insert_ne by congruence.
    + intros fd Hfd. rewrite E. by rewrite lookup_insert_ne by congruence.
    + intros q. rewrite Hf, lookup_insert_eq. by intros [= <-].
    + intros e q. rewrite E, Hf, !lookup_insert_eq. by intros [= _ <-].
    + split; [done|]. right. left. simpl. by rewrite E, !lookup_insert_eq.
  - by apply (changed_intro p c (setIndex c1 1)).
Qed.

(** Unregistering, or changing the registration of, a registered channel. *)
Lemma reregister_spec r p c c1 :
  reactor_inv r -> chans r !! p = Some c -> index_ c = 1 ->
  same_rest c c1 -> mask_ok (events_ c1) -> addedToLoop_ c1 = true -> index_ c1 = 1 ->
  reg_outcome (changed p c (events_ c1) r) (updateChannel (set_chan r p c1) p).
Proof.
  intros I Hp Hi Hsame Hm Hadd Hidx. unfold updateChannel, poller_update. simpl.
  rewrite lookup_insert_eq. simpl. rewrite Hidx. simpl.
  destruct (ri_chan _ I _ _ Hp) as [_ [(? & _)|[(_ & _ & _ & Hch & Hint)|(? & _)]]]; [lia| |lia].
  pose proof Hsame as (Hf & _). rewrite <- Hf in Hch, Hint.
  unfold isNoneEvent, kNoneEvent. destruct (Z.eqb_spec (events_ c1) 0) as [E0|Hne].
  - destruct (ctl_del_ok (epoll r) (fd_ c1) (events_ c1, p)) as [k Ek]; [by eauto|].
    rewrite Ek. simpl. apply ctl_del in Ek.
    assert (set_chan (set_epoll (set_chan r p c1) k) p (setIndex c1 2) =
      set_channels (set_epoll (set_chan r p (setIndex c1 2)) k) (channels_ r)) as ->.
    { unfold set_chan, set_chans. simpl. by rewrite insert_insert_eq. }
    split; [|by apply (changed_intro p c (setIndex c1 2))].
    apply inv_owned with c; try done; simpl.
    + right. by rewrite <- Hf.
    + intros fd Hfd. by rewrite Ek, lookup_delete_ne by congruence.
    + intros q. rewrite <- Hf, Hch. by intros [= <-].
    + intros e q. by rewrite Ek, Hf, lookup_delete_eq.
    + split; [done|]. right. right. simpl. by rewrite Ek, lookup_delete_eq.
  - destruct (epoll_ctl _ _ _ _) as [k|] eqn:Ek; [|done]. simpl. apply ctl_mod in Ek.
    split; [|by apply (changed_intro p c c1)].
    change (reactor_inv (set_channels (set_epoll (set_chan r p c1) k) (channels_ r))).
    apply inv_owned with c; try done; simpl.
    + right. by rewrite <- Hf.
    + intros fd Hfd. by rewrite Ek, lookup_insert_ne by congruence.
    + intros q. rewrite <- Hf, Hch. by intros [= <-].
    + intros e q. rewrite <- Hf, Ek, lookup_insert_eq, Hch. by intros [= _ <-].
    + split; [done|]. right. left. simpl. by rewrite Ek, lookup_insert_eq.
Qed.

Lemma channel_change_spec r p c ch :
  reactor_inv r -> chans r !! p = Some c ->
  (channels_ r !! fd_ c = None \/ channels_ r !! fd_ c = Some p \/ change_events ch (events_ c) = 0) ->
  reg_outcome (changed p c (change_events ch (events_ c)) r) (channel_change r p ch).
Proof.
  intros I Hp Hown. unfold channel_change, channel_update. rewrite Hp. simpl.
  rewrite lookup_insert_eq. simpl. set (e := change_events ch (events_ c)) in *.
  destruct (ri_chan _ I _ _ Hp) as [Hm Hreg]. pose proof (change_events_ok ch _ Hm : mask_ok e) as Hm'.
  set (c1 := set_events c e). set (c2 := set_added c1 true).
  assert (set_chan (set_chan r p c1) p c2 = set_chan r p c2) as ->.
  { unfold set_chan, set_chans. simpl. by rewrite insert_insert_eq. }
  unfold isNoneEvent, kNoneEvent. simpl. change (events_ c1) with (events_ c2).
  destruct Hreg as [(Hi & Ha & He)|[(Hi & Ha & _ & Hch & _)|(Hi & Ha & He & Hch & Hint)]];
    rewrite Ha; simpl.
  - destruct (Z.eqb_spec e 0) as [E0|Hne].
    + split; [eapply inv_fields; try done; by split_and!; simpl; rewrite ?E0, ?He|].
      by apply (changed_intro p c c1).
    + apply (register_spec r p c c2); try done; [lia|]. tauto.
  - by apply (reregister_spec r p c c2).
  - destruct (Z.eqb_spec e 0) as [E0|Hne].
    + unfold updateChannel. simpl. rewrite lookup_insert_eq. simpl. rewrite Hi. simpl.
      unfold isNoneEvent, kNoneEvent. simpl. rewrite E0. simpl.
      split; [eapply inv_fields; try done; by split_and!; simpl; rewrite ?E0, ?He, ?Ha|].
      by rewrite <- E0; apply (changed_intro p c c2).
    + apply (register_spec r p c c2); try done; [lia|]. tauto.
Qed.

(** What becomes of the channel is what its owner sees ([channel_set],
    [channel_drop]), but for the index. *)
Lemma set_same_index c : setIndex c (index_ c) = c.
Proof. by destruct c. Qed.

Lemma updateChannel_view r p c r' :
  chans r !! p = Some c -> updateChannel r p = Ok r' -> exists i, chans r' !! p = Some (setIndex c i).
Proof.
  intros Hp. unfold updateChannel, poller_update. rewrite Hp. cbn [deref mbind res_bind].
  assert (exists i, Some c = Some (setIndex c i)) as Hid by (exists (index_ c); by rewrite set_same_index).
  destruct (_ || _), (isNoneEvent c); try match goal with |- context [epoll_ctl ?k ?o ?fd ?e] => destruct (epoll_ctl k o fd e) end;
    cbn [mbind res_bind]; try done; intros [= <-]; simpl; rewrite ?lookup_insert_eq, ?Hp; eauto.
Qed.

Lemma channel_change_view r p c ch r' :
  chans r !! p = Some c -> channel_change r p ch = Ok r' ->
  exists i, chans r' !! p = Some (setIndex (channel_set ch c) i).
Proof.
  intros Hp. unfold channel_change, channel_update. rewrite Hp. cbn [deref mbind res_bind].
  simpl. rewrite lookup_insert_eq. cbn [deref mbind res_bind]. unfold channel_set.
  destruct (_ && _).
  - intros [= <-]. simpl. rewrite lookup_insert_eq. eexists. by rewrite set_same_index.
  - apply updateChannel_view. simpl. by rewrite !lookup_insert_eq.
Qed.

Lemma channel_remove_view r p c r' :
  chans r !! p = Some c -> channel_remove r p = Ok r' ->
  exists i, chans r' !! p = Some (setIndex (channel_drop c) i).
Proof.
  intros Hp. unfold channel_remove. rewrite Hp. cbn [deref mbind res_bind].
  destruct (addedToLoop_ c) eqn:Ha; cbn [negb].
  - unfold removeChannel. simpl. rewrite lookup_insert_eq. simpl.
    intros E. do 4 apply bind_Ok_inv in E as (? & _ & E). apply bind_Ok_inv in E as (r2 & _ & E).
    injection E as <-. simpl. rewrite lookup_insert_eq. eauto.
  - intros [= <-]. exists (index_ c). rewrite Hp. unfold channel_drop. rewrite <- Ha. by destruct c.
Qed.

(** Nothing points to the channel: it may be deleted. *)
Definition unreferenced r p : Prop :=
  (forall fd, channels_ r !! fd <> Some p) /\ (forall fd e, interest (epoll r) !! fd <> Some (e, p)).

Lemma not_added_unreferenced r p c :
  reactor_inv r -> chans r !! p = Some c -> addedToLoop_ c = false -> unreferenced r p.
Proof.
  intros I Hp Ha.
  assert (forall fd, channels_ r !! fd <> Some p) as Hno.
  { intros fd Hq. destruct (ri_map _ I _ _ Hq) as (d & Hd & _ & ?). congruence. }
  split; [done|]. intros fd e Hq. by apply (Hno fd), (ri_int _ I fd e).
Qed.

Lemma channel_remove_spec r p c :
  reactor_inv r -> chans r !! p = Some c -> events_ c = 0 ->
  exists r', channel_remove r p = Ok r' /\ reactor_inv r' /\ changed p c 0 r r' /\
    exists c', chans r' !! p = Some c' /\ addedToLoop_ c' = false.
Proof.
  intros I Hp He. unfold channel_remove. rewrite Hp. simpl.
  destruct (ri_chan _ I _ _ Hp) as [Hm [(Hi & Ha & _)|[(_ & _ & ? & _)|(Hi & Ha & _ & Hch & Hint)]]];
    [|done|]; rewrite Ha; simpl.
  { exists r. split_and!; try done; [|by eauto].
    rewrite <- He. apply (changed_intro p c c); try done. by rewrite insert_id. }
  unfold removeChannel. simpl. rewrite lookup_insert_eq. simpl.
  rewrite Hch, Hi. unfold isNoneEvent. simpl. rewrite He.
  rewrite (bool_decide_eq_true_2 (Some p = Some p)) by done. simpl.
  set (c1 := setIndex _ _). eexists. split; [done|].
  assert (set_chan (set_channels (set_chan r p (set_added c false)) (delete (fd_ c) (channels_ r))) p c1 =
    set_channels (set_epoll (set_chan r p c1) (epoll r)) (delete (fd_ c) (channels_ r))) as ->.
  { unfold set_chan, set_chans. simpl. by rewrite insert_insert_eq. }
  split_and!.
  - apply inv_owned with c; try done; simpl.
    + by right.
    + intros fd Hfd. by rewrite lookup_delete_ne by congruence.
    + intros q. by rewrite lookup_delete_eq.
    + intros e q. by rewrite Hint.
    + split; [done|]. by left.
  - rewrite <- He. by apply (changed_intro p c c1).
  - exists c1. simpl. by rewrite lookup_insert_eq.
Qed.

(** [disableAll] never stops the program. *)
Lemma channel_disable_ok r p c :
  reactor_inv r -> chans r !! p = Some c ->
  exists r', channel_change r p DisableAll = Ok r' /\ reactor_inv r' /\ changed p c 0 r r'.
Proof.
  intros I Hp. pose proof (channel_change_spec r p c DisableAll I Hp ltac:(by do 2 right)) as Hs.
  assert (is_ok (channel_change r p DisableAll)) as Hok.
  { unfold channel_change, channel_update. rewrite Hp. simpl. rewrite lookup_insert_eq. simpl.
    destruct (negb _ && _); [done|]. unfold updateChannel, poller_update. simpl.
    rewrite lookup_insert_eq. simpl.
    repeat case_match; done. }
  destruct (channel_change r p DisableAll) as [r'|f]; [|done]. destruct Hs. by exists r'.
Qed.

(** Every client operation keeps the invariant; the program stops only when
    the kernel refuses a registration. *)
Lemma do_rop_spec r o : reactor_inv r -> pre r o -> reg_outcome (fun _ => True) (do_rop r o).
Proof.
  intros I Hpre. destruct o as [p fd rd wr cl er|p ch|p obj|p|p|obj]; simpl in *.
  - split; [|done]. split; simpl; try apply I.
    + intros q d. rewrite lookup_insert. case_decide as E; [subst q|by apply (ri_chan _ I)].
      intros [= <-]. split; [by vm_compute; left|]. by left.
    + intros fd' q Hq. destruct (ri_map _ I _ _ Hq) as (d & Hd & ? & ?). exists d.
      by rewrite lookup_insert_ne by congruence.
  - destruct Hpre as (c & Hp & Hown). pose proof (channel_change_spec r p c ch I Hp Hown) as Hs.
    destruct (channel_change r p ch); simpl in *; tauto.
  - destruct Hpre as [c Hp]. rewrite Hp. simpl. split; [|done].
    apply (inv_ext (set_chan r p (tie c obj))); try done; [|apply I].
    by eapply inv_fields.
  - destruct Hpre as (c & Hp & He). destruct (channel_remove_spec r p c I Hp He) as (r' & -> & ? & _). done.
  - destruct Hpre as (c & Hp & Ha). rewrite Hp. simpl. split; [|done].
    destruct (not_added_unreferenced r p c I Hp Ha) as [Hno _].
    split; simpl; try apply I.
    + intros q d. rewrite lookup_delete. case_decide; [done|]. by apply (ri_chan _ I).
    + intros fd q Hq. destruct (ri_map _ I _ _ Hq) as (d & Hd & ? & ?). exists d.
      rewrite lookup_delete_ne; [done|]. intros ->. by apply (Hno fd).
  - split; [|done]. apply (inv_ext r); try done. apply I.
Qed.

Lemma run_rops_spec r os : reactor_inv r -> rops_ok r os -> reg_outcome (fun _ => True) (run_rops r os).
Proof.
  revert r. induction os as [|o os IH]; intros r I Hok; simpl in *; [done|].
  destruct Hok as [Hpre Hok]. pose proof (do_rop_spec r o I Hpre) as Ho.
  destruct (do_rop r o) as [r1|f]; simpl in *; [|done]. destruct Ho as [I1 _]. by apply IH, Hok.
Qed.

Lemma inv_new k : interest k = ∅ -> reactor_inv (Reactor_new k).
Proof. intros E. split; simpl; rewrite ?E; done. Qed.

(** The kernel's interest list is the set of the channels that ask for events. *)
Definition mirrors r : Prop :=
  forall fd e p, interest (epoll r) !! fd = Some (e, p) <->
    exists c, chans r !! p = Some c /\ fd_ c = fd /\ events_ c = e /\ e <> 0.

Lemma inv_mirrors r : reactor_inv r -> mirrors r.
Proof.
  intros I fd e p. split.
  - intros Hi. pose proof (ri_int _ I _ _ _ Hi) as Hm.
    destruct (ri_map _ I _ _ Hm) as (c & Hc & <- & Ha). exists c.
    destruct (ri_chan _ I _ _ Hc) as [_ [(_ & ? & _)|[(_ & _ & ? & _ & Hi')|(_ & _ & _ & _ & Hi')]]].
    + congruence.
    + rewrite Hi in Hi'. by injection Hi' as ->.
    + congruence.
  - intros (c & Hc & <- & <- & Hne).
    destruct (ri_chan _ I _ _ Hc) as [_ [(_ & _ & ?)|[(_ & _ & ? & _ & Hi')|(_ & _ & ? & _)]]]; done.
Qed.

(** ** [poll]

    What epoll_wait(2) documents: at most [maxevents] events, for registered
    descriptors, each once, with the events asked for and EPOLLERR, EPOLLHUP. *)
Definition wait_ok r (evs : list (Z * Z)) : Prop :=
  zlen evs <= evsize r /\ NoDup evs.*2 /\
  Forall (fun ev => exists fd e, interest (epoll r) !! fd = Some (e, ev.2) /\
            Z.land ev.1 (Z.lnot (Z.lor e (Z.lor EPOLLERR EPOLLHUP))) = 0) evs.

Lemma fillActiveChannels_spec r evs :
  reactor_inv r -> Forall (fun ev : Z * Z => is_Some (chans r !! ev.2)) evs -> NoDup evs.*2 ->
  exists r', fillActiveChannels r evs = Ok (evs.*2, r') /\ reactor_inv r' /\
    r' = set_chans r (chans r') /\
    (forall p, p ∉ evs.*2 -> chans r' !! p = chans r !! p) /\
    (forall e p c, (e, p) ∈ evs -> chans r !! p = Some c -> chans r' !! p = Some (setRevents c e)).
Proof.
  revert r. induction evs as [|[e p] evs IH]; intros r I Hl Hn; simpl in *.
  { exists r. split_and!; try done; [by destruct r|]. by intros ? ? ? ?%not_elem_of_nil. }
  apply Forall_cons in Hl as [[c Hc] Hl]. apply NoDup_cons in Hn as [Hp Hn]. simpl in Hc.
  rewrite Hc. simpl.
  destruct (IH (set_chan r p (setRevents c e))) as (r' & -> & I' & E & Hout & Hin).
  { by eapply inv_fields. }
  { eapply Forall_impl; [exact Hl|]. intros ev [d Hd]. simpl. rewrite lookup_insert. case_decide; eauto. }
  { done. }
  simpl. exists r'. split_and!; try done.
  - intros q [Hne Hq]%not_elem_of_cons. rewrite Hout by done. simpl. by apply lookup_insert_ne.
  - intros e' q d [[= -> ->]|Hq]%elem_of_cons Hd.
    + rewrite Hout by done. simpl. rewrite lookup_insert_eq. congruence.
    + apply Hin; [done|]. simpl. rewrite lookup_insert_ne; [done|]. intros <-.
      apply Hp. apply list_elem_of_fmap. by exists (e', p).
Qed.

Lemma wait_live r evs :
  reactor_inv r -> wait_ok r evs ->
  Forall (fun ev : Z * Z => exists c, chans r !! ev.2 = Some c /\ addedToLoop_ c = true /\
            channels_ r !! fd_ c = Some ev.2) evs.
Proof.
  intros I (_ & _ & Hall). eapply Forall_impl; [exact Hall|]. intros [e p] (fd & e' & Hi & _).
  pose proof (ri_int _ I _ _ _ Hi) as Hm. destruct (ri_map _ I _ _ Hm) as (c & Hc & <- & Ha). eauto.
Qed.

Lemma poll_spec r evs :
  reactor_inv r -> wait_ok r evs ->
  exists r', poll r (WEvents evs) = Ok (evs.*2, r') /\ reactor_inv r' /\
    (forall p, p ∉ evs.*2 -> chans r' !! p = chans r !! p) /\
    (forall e p, (e, p) ∈ evs -> exists c,
       chans r !! p = Some c /\ chans r' !! p = Some (setRevents c e) /\ hasChannel r' p = Ok true) /\
    zlen evs < evsize r' /\ evsize r <= evsize r' /\ trace r' = trace r /\ alive r' = alive r.
Proof.
  intros I Hw. pose proof (wait_live r evs I Hw) as Hlive. destruct Hw as (Hsz & Hn & _).
  pose proof (ri_size _ I) as Hs. unfold kInitEventListSize in Hs.
  destruct (fillActiveChannels_spec r evs I) as (r1 & E1 & I1 & Er & Hout & Hin); [|done|].
  { eapply Forall_impl; [exact Hlive|]. intros ev (c & ? & _). eauto. }
  assert (forall e p, (e, p) ∈ evs -> exists c,
       chans r !! p = Some c /\ chans r1 !! p = Some (setRevents c e) /\ hasChannel r1 p = Ok true) as Hev.
  { intros e p He. eapply Forall_forall in Hlive as (c & Hc & _ & Hm); [|exact He]. simpl in Hc, Hm.
    pose proof (Hin e p c He Hc) as Hc1. exists c. split_and!; try done.
    unfold hasChannel. rewrite Hc1, Er. simpl. by rewrite bool_decide_eq_true_2. }
  unfold poll. destruct (Z.ltb_spec 0 (zlen evs)) as [Hpos|Hz].
  - rewrite E1. simpl. assert (evsize r1 = evsize r) as Ez by by rewrite Er.
    destruct (Z.eqb_spec (zlen evs) (evsize r1)) as [Hfull|Hroom].
    + exists (set_evsize r1 (evsize r1 * 2)). split; [done|].
      split; [apply (inv_ext r1); try done; simpl; unfold kInitEventListSize; lia|].
      split; [done|]. split; [done|]. simpl. rewrite Er. simpl. split_and!; try done; lia.
    + exists r1. split_and!; try done; try lia; by rewrite Er.
  - assert (evs = []) as -> by (apply zlen_nil_inv; pose proof (zlen_nonneg evs); lia).
    exists r. split_and!; try done; [by intros ? ? ?%not_elem_of_nil|]. change (0 < evsize r). lia.
Qed.

(** [poll] registers nothing. *)
Lemma poll_epoll r w ps r' : poll r w = Ok (ps, r') -> epoll r' = epoll r.
Proof.
  destruct w as [evs|e]; simpl; [|by intros [= _ <-]]. destruct (0 <? zlen evs); [|by intros [= _ <-]].
  intros ([ps1 r1] & E & [= _ <-])%bind_Ok_inv. assert (epoll r1 = epoll r) as <- by
    (revert r ps1 r1 E; induction evs as [|[e p] evs IH]; intros r ps1 r1; simpl; [by intros [= _ <-]|];
     intros (c & _ & ([ps2 r2] & E & [= _ <-])%bind_Ok_inv)%bind_Ok_inv; apply (IH _ _ _ E)).
  by destruct (zlen evs =? evsize r1).
Qed.

(** ** Dispatch *)
Lemma same_rest_trans c1 c2 c3 : same_rest c1 c2 -> same_rest c2 c3 -> same_rest c1 c3.
Proof. intros (? & ? & ? & ? & ?) (? & ? & ? & ? & ?). split_and!; congruence. Qed.

Lemma selected_same c c' k : same_rest c c' -> selected c' k = selected c k.
Proof. intros (_ & E & _ & _ & [= E1 E2 E3 E4]). destruct k; simpl; by rewrite ?E, ?E1, ?E2, ?E3, ?E4. Qed.

(** User code that follows the protocol and leaves the channels of the
    current batch in place (it may change, and remove them from the loop). *)
Definition keeps (active : list Z) r r' : Prop :=
  forall q c, q ∈ active -> chans r !! q = Some c -> exists c', chans r' !! q = Some c' /\ same_rest c c'.

Definition callbacks_of (c : Channel) : list cbk := filter (fun k => selected c k = true) all_cbks.

Lemma keeps_refl active r : keeps active r r.
Proof. intros q c _ Hc. exists c. split; [done|]. by split_and!. Qed.

Lemma keeps_chans active r r' : chans r' = chans r -> keeps active r r'.
Proof. intros E q c _ Hc. exists c. rewrite E. split; [done|]. by split_and!. Qed.

Lemma keeps_trans active r1 r2 r3 : keeps active r1 r2 -> keeps active r2 r3 -> keeps active r1 r3.
Proof.
  intros H1 H2 q c Hq Hc. destruct (H1 q c Hq Hc) as (c2 & Hc2 & S2).
  destruct (H2 q c2 Hq Hc2) as (c3 & Hc3 & S3). exists c3. split; [done|]. by eapply same_rest_trans.
Qed.

Lemma keeps_set_chan active r p c c' :
  chans r !! p = Some c -> same_rest c c' -> keeps active r (set_chan r p c').
Proof.
  intros Hp Hs q d Hq Hd. simpl. rewrite lookup_insert. case_decide as E; [subst q|].
  - exists c'. split; [done|]. congruence.
  - exists d. split; [done|]. by split_and!.
Qed.

Lemma keeps_live active r r' :
  keeps active r r' -> (forall q, q ∈ active -> is_Some (chans r !! q)) ->
  forall q, q ∈ active -> is_Some (chans r' !! q).
Proof. intros Hk Hl q Hq. destruct (Hl q Hq) as [c Hc]. destruct (Hk q c Hq Hc) as (c' & ? & _). eauto. Qed.

Definition expected r (ps : list Z) : list (Z * cbk) :=
  ps ≫= fun p => pair p <$> default [] (callbacks_of <$> chans r !! p).

Lemma expected_keeps active r r' ps : ps ⊆ active -> (forall q, q ∈ active -> is_Some (chans r !! q)) ->
  keeps active r r' -> expected r' ps = expected r ps.
Proof.
  intros Hsub Hl Hk. unfold expected. induction ps as [|p ps IH]; [done|]. rewrite !bind_cons, IH.
  - f_equal. destruct (Hl p) as [c Hc]; [apply Hsub; by left|].
    destruct (Hk p c) as (c' & Hc' & Hs); [apply Hsub; by left|done|]. rewrite Hc, Hc'. simpl. f_equal.
    unfold callbacks_of. apply list_filter_iff. intros k. by rewrite (selected_same c c').
  - intros q Hq. apply Hsub. by right.
Qed.

(** What clients do during a round, short of deleting and tying channels of it. *)
Lemma do_rop_keeps active r o r' :
  reactor_inv r -> pre r o -> do_rop r o = Ok r' ->
  match o with RTie p _ | RDelete p => p ∉ active | _ => True end -> keeps active r r' /\ trace r' = trace r.
Proof.
  intros I Hpre E Hact.
  assert (forall p, (forall q, q <> p -> chans r' !! q = chans r !! q) ->
    (forall c, p ∈ active -> chans r !! p = Some c -> exists c', chans r' !! p = Some c' /\ same_rest c c') ->
    keeps active r r') as Hone.
  { intros p Hoth Hp q c Hq Hc. destruct (decide (q = p)) as [-> |Hne]; [by apply Hp|].
    exists c. rewrite Hoth by done. split; [done|by split_and!]. }
  destruct o as [p fd rd wr cl er|p ch|p obj|p|p|obj]; simpl in *.
  - injection E as <-. split; [|done]. apply (Hone p); simpl; [intros q Hq; by apply lookup_insert_ne|congruence].
  - destruct Hpre as (c & Hp & Hown). pose proof (channel_change_spec r p c ch I Hp Hown) as Hs. rewrite E in Hs.
    destruct Hs as (_ & (Hoth & _ & _ & _ & T) & c' & Hp' & _ & Hs). split; [|done].
    apply (Hone p); [done|]. intros d _ Hd. exists c'. split; [done|]. congruence.
  - destruct Hpre as [c Hp]. rewrite Hp in E. injection E as <-. split; [|done].
    apply (Hone p); simpl; [intros q Hq; by apply lookup_insert_ne|done].
  - destruct Hpre as (c & Hp & He). destruct (channel_remove_spec r p c I Hp He)
      as (r1 & E1 & _ & ((Hoth & _ & _ & _ & T) & c' & Hp' & _ & Hs) & _).
    rewrite E in E1. injection E1 as <-. split; [|done].
    apply (Hone p); [done|]. intros d _ Hd. exists c'. split; [done|]. congruence.
  - destruct Hpre as (c & Hp & Ha). rewrite Hp in E. injection E as <-. split; [|done].
    apply (Hone p); simpl; [intros q Hq; by apply lookup_delete_ne|done].
  - injection E as <-. split; [|done]. intros q c _ Hc. exists c. split; [done|by split_and!].
Qed.

(** What the dispatch itself does: it marks the channel as handling an event,
    and the history records the callback. *)
Inductive touch r : Reactor K -> Prop :=
| touch_log p k : touch r (log_cbk r p k)
| touch_handling p c b : chans r !! p = Some c -> touch r (set_chan r p (set_handling c b)).

Lemma touch_inv r r' : reactor_inv r -> touch r r' -> reactor_inv r'.
Proof. intros I [p k|p c b Hp]; [apply (inv_ext r); try done; apply I|by eapply inv_fields]. Qed.

Lemma touch_keeps active r r' : touch r r' -> keeps active r r'.
Proof. intros [p k|p c b Hp]; [by apply keeps_chans|by eapply keeps_set_chan]. Qed.

(** [q] is served in the round: it is reported, and when its turn comes, after
    the channels before it, it is untied or its object still exists. *)
Definition served {W} `{Part W (Reactor K)} (run : W -> Z -> cbk -> res W) (w : W) (ps : list Z) (q : Z) : Prop :=
  exists ps1 ps2 w1 c, ps = ps1 ++ q :: ps2 /\ handle_active run w ps1 = Ok w1 /\
    chans (get w1) !! q = Some c /\ (tied_ c = true -> tie_lock (get w1) c = true).

Lemma served_cons {W} `{Part W (Reactor K)} (run : W -> Z -> cbk -> res W) w w1 p ps q :
  handleEvent run w p = Ok w1 ->
  served run w (p :: ps) q <->
  served run w1 ps q \/ q = p /\ exists c, chans (get w) !! p = Some c /\ (tied_ c = true -> tie_lock (get w) c = true).
Proof.
  intros Ew. split.
  - intros ([|p' ps1] & ps2 & w2 & c & Eps & E & Hc & Ht); injection Eps as -> ->; cbn [handle_active] in E.
    + injection E as <-. right. eauto.
    + rewrite Ew in E. left. by exists ps1, ps2, w2, c.
  - intros [(ps1 & ps2 & w2 & c & -> & E & Hc & Ht)|(-> & c & Hc & Ht)].
    + exists (p :: ps1), ps2, w2, c. split_and!; try done. cbn [handle_active]. by rewrite Ew.
    + exists [], ps, w, c. by split_and!.
Qed.

Lemma handle_active_app {W} `{Part W (Reactor K)} (run : W -> Z -> cbk -> res W) w ps qs :
  handle_active run w (ps ++ qs) = (w1 ← handle_active run w ps; handle_active run w1 qs).
Proof.
  revert w. induction ps as [|p ps IH]; intros w; cbn [app handle_active]; [done|].
  destruct (handleEvent run w p); cbn [mbind res_bind]; [apply IH|done].
Qed.

(** *** In a larger state

    [inv] is what the state satisfies between callbacks, [stop] the faults the
    callbacks may end in; the channels of [active] are kept by callbacks of the
    channels of [own]. *)
Section batch.
Context {W : Type} `{PartLaws W (Reactor K)} (inv : W -> Prop) (stop : fault -> Prop).
Context (active : list Z) (run : W -> Z -> cbk -> res W).
Implicit Types (w : W).

Definition batch_outcome w (P : list (Z * cbk) -> Prop) (o : res W) : Prop :=
  match o with
  | Ok w' => inv w' /\ keeps active (get w) (get w') /\ exists t, trace (get w') = trace (get w) ++ t /\ P t
  | Fault f => stop f
  end.

Record good_run (own : list Z) : Prop := mkGoodRun {
  gr_inv w : inv w -> reactor_inv (get w);
  gr_touch w r : inv w -> touch (get w) r -> inv (put w r);
  gr_run w p k : inv w -> p ∈ own -> (forall q, q ∈ active -> is_Some (chans (get w) !! q)) ->
    batch_outcome w (fun t => t = []) (run w p k)
}.
Context (own : list Z) (Hrun : good_run own).

Lemma try_callbacks_spec w p c ks :
  inv w -> p ∈ active -> p ∈ own -> (forall q, q ∈ active -> is_Some (chans (get w) !! q)) ->
  chans (get w) !! p = Some c ->
  batch_outcome w (fun t => t = pair p <$> filter (fun k => selected c k = true) ks)
    (foldl (fun rw k => try_callback run rw p k) (Ok w) ks).
Proof.
  revert w c. induction ks as [|k ks IH] using rev_ind; intros w c I Hp Hp' Hl Hc.
  { simpl. split_and!; [done|apply keeps_refl|]. exists []. by rewrite app_nil_r. }
  rewrite foldl_app, filter_app. pose proof (IH w c I Hp Hp' Hl Hc) as Hks.
  destruct (foldl _ _ ks) as [w1|f]; [|done].
  destruct Hks as (I1 & K1 & t1 & T1 & ->). destruct (K1 p c Hp Hc) as (c1 & Hc1 & S1).
  cbn [foldl]. unfold try_callback. cbn [mbind res_bind]. rewrite Hc1. cbn [deref mbind res_bind].
  rewrite (selected_same c c1 k S1). destruct (selected c k) eqn:Hsel.
  - unfold modify. set (r1 := log_cbk (get w1) p k). assert (touch (get w1) r1) as Ht by constructor.
    pose proof (gr_run own Hrun (put w1 r1) p k (gr_touch own Hrun w1 r1 I1 Ht) Hp') as Hr.
    unfold batch_outcome in *. rewrite get_put in Hr. specialize (Hr (keeps_live _ _ _ K1 Hl)).
    destruct (run _ p k) as [w2|f]; [|done]. destruct Hr as (I2 & K2 & t & T2 & ->).
    split_and!; [done|by eapply keeps_trans|].
    rewrite T2. simpl. rewrite T1, app_nil_r, <- app_assoc. eexists. split; [done|].
    rewrite filter_cons_True by done. by rewrite filter_nil, fmap_app.
  - split_and!; [done|done|]. rewrite T1. eexists. split; [done|].
    rewrite filter_cons_False by congruence. by rewrite filter_nil, app_nil_r.
Qed.

Lemma handleEventWithGuard_spec w p c :
  inv w -> p ∈ active -> p ∈ own -> (forall q, q ∈ active -> is_Some (chans (get w) !! q)) ->
  chans (get w) !! p = Some c ->
  batch_outcome w (fun t => t = pair p <$> callbacks_of c) (handleEventWithGuard run w p).
Proof.
  intros I Hp Hp' Hl Hc. unfold handleEventWithGuard, modify. rewrite Hc. cbn [deref mbind res_bind].
  set (c0 := set_handling c true). set (r0 := set_chan (get w) p c0).
  assert (touch (get w) r0) as T0 by by constructor.
  pose proof (touch_keeps active _ _ T0) as K0.
  pose proof (try_callbacks_spec (put w r0) p c0 all_cbks (gr_touch own Hrun _ _ I T0) Hp Hp') as Hs.
  unfold batch_outcome in *. rewrite get_put in Hs. specialize (Hs (keeps_live _ _ _ K0 Hl) (lookup_insert_eq _ _ _)).
  destruct (foldl _ _ _) as [w1|f]; [|done]. destruct Hs as (I1 & K1 & t & T1 & ->). cbn [mbind res_bind].
  destruct (K1 p c0 Hp) as (c1 & Hc1 & S1); [apply lookup_insert_eq|].
  rewrite Hc1. cbn [deref mbind res_bind]. set (r2 := set_chan (get w1) p (set_handling c1 false)).
  assert (touch (get w1) r2) as T2 by by constructor.
  rewrite get_put. split_and!; [by apply (gr_touch own Hrun)| |by eexists].
  eapply keeps_trans; [exact K0|]. eapply keeps_trans; [exact K1|]. by apply touch_keeps.
Qed.

(** A tied channel whose object is gone is skipped. *)
Lemma handleEvent_spec w p c :
  inv w -> p ∈ active -> p ∈ own -> (forall q, q ∈ active -> is_Some (chans (get w) !! q)) ->
  chans (get w) !! p = Some c ->
  batch_outcome w
    (fun t => t = if tied_ c && negb (tie_lock (get w) c) then [] else pair p <$> callbacks_of c)
    (handleEvent run w p).
Proof.
  intros I Hp Hp' Hl Hc. pose proof (handleEventWithGuard_spec w p c I Hp Hp' Hl Hc) as Hg.
  unfold handleEvent. rewrite Hc. cbn [deref mbind res_bind].
  destruct (tied_ c); [|done]. destruct (tie_lock _ c); [done|].
  split_and!; [done|apply keeps_refl|]. exists []. by rewrite app_nil_r.
Qed.

Lemma handle_active_spec w ps :
  inv w -> ps ⊆ active -> ps ⊆ own -> (forall q, q ∈ active -> is_Some (chans (get w) !! q)) ->
  batch_outcome w (fun t => exists ps', ps' `sublist_of` ps /\
    (forall q, q ∈ ps' <-> served run w ps q) /\ t = expected (get w) ps') (handle_active run w ps).
Proof.
  revert w. induction ps as [|p ps IH]; intros w I Hsub Hsubo Hl; cbn [handle_active].
  { split_and!; [done|apply keeps_refl|]. exists []. split; [by rewrite app_nil_r|]. exists [].
    split_and!; [done| |done]. intros q. split; [by intros ?%elem_of_nil|].
    by intros ([|? ?] & ? & ? & ? & ? & _). }
  assert (p ∈ active /\ p ∈ own) as [Hp Hp'] by (split; [apply Hsub|apply Hsubo]; by left).
  assert (ps ⊆ active) as Hsub' by (intros q Hq; apply Hsub; by right).
  destruct (Hl p Hp) as [c Hc]. pose proof (handleEvent_spec w p c I Hp Hp' Hl Hc) as He.
  destruct (handleEvent run w p) as [w1|f] eqn:Ew; [|done].
  destruct He as (I1 & K1 & t1 & T1 & Ht1). cbn [mbind res_bind].
  pose proof (IH w1 I1 Hsub' ltac:(intros q Hq; apply Hsubo; by right) (keeps_live _ _ _ K1 Hl)) as Hrest.
  destruct (handle_active run w1 ps) as [w2|f]; [|done].
  destruct Hrest as (I2 & K2 & t2 & T2 & ps' & Hs & Hps & Ht2).
  split_and!; [done|by eapply keeps_trans|]. exists (t1 ++ t2). rewrite T2, T1, app_assoc. split; [done|].
  assert (ps' ⊆ active) as Hsa by (intros q Hq; apply Hsub'; by eapply elem_of_sublist).
  rewrite (expected_keeps active (get w)) in Ht2 by done.
  assert (forall q, served run w (p :: ps) q <-> q ∈ ps' \/ q = p /\ tied_ c && negb (tie_lock (get w) c) = false) as Hiff.
  { intros q. rewrite (served_cons run w w1 p ps q Ew), Hps. split; (intros [?|[-> Ht]]; [by left|right; split; [done|]]).
    - destruct Ht as (d & Hd & Ht). assert (d = c) as -> by congruence. destruct (tied_ c); [|done]. by rewrite Ht.
    - exists c. split; [done|]. intros Htc. rewrite Htc in Ht. by destruct (tie_lock _ c). }
  destruct (tied_ c && negb (tie_lock (get w) c)).
  - exists ps'. split_and!; [by apply sublist_cons| |by rewrite Ht1, Ht2].
    intros q. rewrite Hiff. naive_solver.
  - exists (p :: ps'). split_and!; [by apply sublist_skip| |].
    + intros q. rewrite Hiff, elem_of_cons. naive_solver.
    + rewrite Ht1, Ht2. unfold expected. rewrite bind_cons, Hc. done.
Qed.
End batch.

(** What a condition on the poller has to withstand to outlast an event of [x]. *)
Lemma handleEvent_preserves (run : Reactor K -> Z -> cbk -> res (Reactor K)) (J : Reactor K -> Prop) x r r' :
  (forall r1 c, J r1 -> J (set_chan r1 x c)) ->
  (forall r1 k r2, J r1 -> run (log_cbk r1 x k) x k = Ok r2 -> J r2) ->
  J r -> handleEvent run r x = Ok r' -> J r'.
Proof.
  intros Hmark Hrun Hr. unfold handleEvent. cbn [get put part_self]. intros (c & _ & E)%bind_Ok_inv.
  assert (handleEventWithGuard run r x = Ok r' -> J r') as Hg.
  { clear E c. unfold handleEventWithGuard, modify. cbn [get put part_self].
    intros (c & Hc & (r1 & E & (c1 & _ & [= <-])%bind_Ok_inv)%bind_Ok_inv)%bind_Ok_inv. apply Hmark.
    revert r1 E. induction all_cbks as [|k ks IH] using rev_ind; intros r1.
    - intros [= <-]. by apply Hmark.
    - rewrite foldl_app. cbn [foldl]. unfold try_callback at 1. cbn [get put part_self].
      intros (r2 & E2 & (c2 & _ & E)%bind_Ok_inv)%bind_Ok_inv. specialize (IH r2 E2).
      unfold modify in E. cbn [get put part_self] in E.
      destruct (selected c2 k); [by eapply Hrun|by injection E as <-]. }
  destruct (tied_ c); [destruct (tie_lock r c)|]; [by apply Hg|by injection E as <-|by apply Hg].
Qed.

(** A callback of [p] that destroys the channel [q], at an address that is not
    used again in the round. *)
Section deletes.
Context (run : Reactor K -> Z -> cbk -> res (Reactor K)) (p q : Z).
Context (Hdel : forall r k r', run r p k = Ok r' -> chans r' !! q = None).
Context (Hstay : forall r x k r', chans r !! q = None -> run r x k = Ok r' -> chans r' !! q = None).

(** It is gone as soon as a callback of [p] ran.. *)
Lemma handleEvent_deletes r r' :
  p <> q -> handleEvent run r p = Ok r' -> trace r' = trace r \/ chans r' !! q = None.
Proof.
  intros Hne. apply (handleEvent_preserves run (fun r1 => trace r1 = trace r \/ chans r1 !! q = None)); [| |by left].
  - intros r1 c [?|?]; [by left|right]. simpl. by rewrite lookup_insert_ne.
  - intros r1 k r2 _ E. right. by eapply Hdel.
Qed.

(** .. and stays so. *)
Lemma handle_active_deleted r ps r' :
  q ∉ ps -> chans r !! q = None -> handle_active run r ps = Ok r' -> chans r' !! q = None.
Proof.
  revert r. induction ps as [|x ps IH]; intros r Hq Hr; cbn [handle_active]; [by intros [= <-]|].
  apply not_elem_of_cons in Hq as [Hx Hq]. intros (r1 & E1 & E)%bind_Ok_inv. apply (IH r1); [done| |done].
  revert Hr E1. apply (handleEvent_preserves run (fun r2 => chans r2 !! q = None)).
  - intros r2 c Hr2. simpl. by rewrite lookup_insert_ne.
  - intros r2 k r3 Hr2. by apply Hstay.
Qed.

Lemma NoDup_split_eq (l1 l2 l1' l2' : list Z) x :
  NoDup (l1 ++ x :: l2) -> l1 ++ x :: l2 = l1' ++ x :: l2' -> l1 = l1'.
Proof.
  revert l1'. induction l1 as [|y l1 IH]; intros [|y' l1'] Hnd E; simpl in *; [done|injection E as <- E..].
  - apply NoDup_cons in Hnd as [Hx _]. destruct Hx. rewrite E. apply elem_of_app. right. by left.
  - apply NoDup_cons in Hnd as [Hx _]. destruct Hx. apply elem_of_app. right. by left.
  - f_equal. apply IH; [by apply NoDup_cons in Hnd as [_ ?]|done].
Qed.

(** So the loop over the channels of the round follows a dangling pointer. *)
Lemma handle_active_dangling r ps1 ps2 ps3 c :
  NoDup ((ps1 ++ p :: ps2) ++ q :: ps3) ->
  good_run (W := Reactor K) reactor_inv (fun _ => False) (ps1 ++ p :: ps2) run (ps1 ++ p :: ps2) ->
  reactor_inv r -> (forall x, x ∈ ps1 ++ p :: ps2 -> is_Some (chans r !! x)) ->
  chans r !! p = Some c -> served run r (ps1 ++ p :: ps2 ++ q :: ps3) p -> callbacks_of c <> [] ->
  handle_active run r (ps1 ++ p :: ps2 ++ q :: ps3) = Fault BadPointer.
Proof.
  intros Hnd Hrun I Hl Hc (ps1' & ps2' & r2' & c' & Eps & Er2 & Hc' & Hlock) Hsel.
  apply NoDup_split_eq in Eps as <-; [|by rewrite <- app_assoc in Hnd]. set (front := ps1 ++ p :: ps2) in *.
  assert (q ∉ front) as Hq by (apply NoDup_app in Hnd as (_ & Hnd & _); intros Hq; by apply (Hnd q Hq), list_elem_of_here).
  assert (ps1 ⊆ front) as Hsub1 by (intros x Hx; by apply elem_of_app; left).
  assert (p :: ps2 ⊆ front) as Hsub2 by (intros x Hx; by apply elem_of_app; right).
  assert (p ∈ front) as Hp by by apply Hsub2, list_elem_of_here.
  assert (ps2 ⊆ front) as Hsub by (intros x Hx; by apply Hsub2; right). clearbody front.
  rewrite handle_active_app. cbn [handle_active].
  pose proof (handle_active_spec (W := Reactor K) _ _ _ _ _ Hrun r ps1 I Hsub1 Hsub1 Hl) as Hb.
  rewrite Er2 in *. rename r2' into r2. destruct Hb as (I2 & K2 & _).
  cbn [mbind res_bind get part_self] in *. destruct (K2 p _ Hp Hc) as (c2 & Hc2 & Hs).
  assert (c' = c2) as -> by congruence.
  pose proof (keeps_live _ _ _ K2 Hl) as Hl2.
  pose proof (handleEvent_spec (W := Reactor K) _ _ _ _ _ Hrun r2 p c2 I2 Hp Hp Hl2 Hc2) as He.
  destruct (handleEvent run r2 p) as [r3|f] eqn:E3; [|done]. destruct He as (I3 & K3 & t & T3 & Ht).
  cbn [mbind res_bind get part_self] in *.
  destruct (handleEvent_deletes r2 r3) as [Hn|Hgone]; [by intros <-|done| |].
  { destruct Hsel. assert (tied_ c2 && negb (tie_lock r2 c2) = false) as Hserved.
    { destruct (tied_ c2); [|done]. by rewrite Hlock. }
    rewrite Hserved in Ht. rewrite Hn in T3. rewrite <- (app_nil_r (trace r2)) in T3 at 1. apply app_inv_head in T3. rewrite <- T3 in Ht.
    symmetry in Ht. apply fmap_nil_inv in Ht. rewrite <- Ht. unfold callbacks_of. apply list_filter_iff. intros x.
    by rewrite (selected_same _ _ x Hs). }
  rewrite handle_active_app.
  pose proof (handle_active_spec (W := Reactor K) _ _ _ _ _ Hrun r3 ps2 I3 Hsub Hsub (keeps_live _ _ _ K3 Hl2)) as Hb.
  destruct (handle_active run r3 ps2) as [r4|f] eqn:E4; [|done]. cbn [mbind res_bind handle_active].
  unfold handleEvent. cbn [get part_self]. rewrite (handle_active_deleted r3 ps2 r4); try done.
  intros Hx. by apply Hq, Hsub.
Qed.
End deletes.
End clients.

(** ** Properties *)

(** C14: whatever clients do with channels, within the protocol, the
    kernel's interest list holds exactly the channels that ask for events,
    under their descriptor and with their mask, so [data.ptr] never dangles; a
    channel out of the loop is referenced from nowhere.  The program stops only
    when the kernel refuses to register a descriptor. *)
Theorem poller_mirrors_channels {K} `{EpollLaws K} (k : K) os :
  interest k = ∅ -> rops_ok (Reactor_new k) os ->
  match run_rops (Reactor_new k) os with
  | Ok r => mirrors r /\
      (forall p c, chans r !! p = Some c -> addedToLoop_ c = false -> unreferenced r p) /\
      (forall p c, chans r !! p = Some c -> hasChannel r p = Ok (addedToLoop_ c))
  | Fault f => f = StdAbort
  end.
Proof.
  intros Hk Hok. pose proof (run_rops_spec _ os (inv_new k Hk) Hok) as Hr.
  destruct (run_rops _ os) as [r|f]; [|done]. destruct Hr as [I _].
  split_and!; [by apply inv_mirrors|intros p c; by apply not_added_unreferenced|].
  intros p c Hc. unfold hasChannel. rewrite Hc. simpl. f_equal.
  destruct (ri_chan _ I _ _ Hc) as [_ [(_ & Ha & _)|[(_ & -> & _ & Hm & _)|(_ & -> & _ & Hm & _)]]];
    [|by apply bool_decide_eq_true_2..].
  rewrite Ha. apply bool_decide_eq_false_2.
  by destruct (not_added_unreferenced r p c I Hc Ha) as [Hno _].
Qed.

(** after [disableAll] and [remove] nothing refers to a channel, and it
    can be deleted. *)
Theorem removed_channel_unreferenced {K} `{EpollLaws K} (k : K) os r p c :
  interest k = ∅ -> rops_ok (Reactor_new k) os -> run_rops (Reactor_new k) os = Ok r ->
  chans r !! p = Some c ->
  exists r1 r2, channel_change r p DisableAll = Ok r1 /\ channel_remove r1 p = Ok r2 /\
    unreferenced r2 p /\ pre r2 (RDelete p) /\
    (forall q, q <> p -> chans r2 !! q = chans r !! q).
Proof.
  intros Hk Hok E Hc. pose proof (run_rops_spec _ os (inv_new k Hk) Hok) as Hr.
  rewrite E in Hr. destruct Hr as [I _].
  destruct (channel_disable_ok r p c I Hc) as (r1 & E1 & I1 & (F1 & c1 & Hc1 & He1 & _)).
  destruct (channel_remove_spec r1 p c1 I1 Hc1 He1) as (r2 & E2 & I2 & (F2 & _) & c2 & Hc2 & Ha2).
  exists r1, r2. split_and!; try done.
  - by eapply not_added_unreferenced.
  - simpl. eauto.
  - intros q Hq. destruct F1 as [F1 _], F2 as [F2 _]. by rewrite F2, F1.
Qed.

(** every pointer [epoll_wait] returns is to a live channel of the
    poller: [poll] never follows a dangling pointer, records the events of each
    and touches nothing else; and the event list always has room for more than
    was reported. *)
Theorem poll_correct {K} `{EpollLaws K} (k : K) os r evs :
  interest k = ∅ -> rops_ok (Reactor_new k) os -> run_rops (Reactor_new k) os = Ok r ->
  wait_ok r evs ->
  exists r', poll r (WEvents evs) = Ok (evs.*2, r') /\
    (forall p, p ∉ evs.*2 -> chans r' !! p = chans r !! p) /\
    (forall e p, (e, p) ∈ evs -> exists c,
       chans r !! p = Some c /\ chans r' !! p = Some (setRevents c e) /\ hasChannel r' p = Ok true) /\
    zlen evs < evsize r' /\ evsize r <= evsize r'.
Proof.
  intros Hk Hok E Hw. pose proof (run_rops_spec _ os (inv_new k Hk) Hok) as Hr.
  rewrite E in Hr. destruct Hr as [I _].
  destruct (poll_spec r evs I Hw) as (r' & ? & _ & ? & ? & ? & ? & _). exists r'. split_and!; done.
Qed.


(** C37: the condition of the round is necessary: when the channel [p] is reported
    before [q] in the same round and is served, with a callback to run, and its
    callback deletes [q] (and [q]'s address is not used again), then [loop] follows
    a dangling pointer when it comes to [q]; whatever the callbacks of the channels
    before [q] do otherwise within the protocol of [loop_round]. *)
Theorem round_with_deleted_channel {K} `{EpollLaws K} (k : K) os r evs run ps1 p ps2 q ps3 :
  interest k = ∅ -> rops_ok (Reactor_new k) os -> run_rops (Reactor_new k) os = Ok r -> wait_ok r evs ->
  evs.*2 = ps1 ++ p :: ps2 ++ q :: ps3 ->
  good_run (W := Reactor K) reactor_inv (fun _ => False) (ps1 ++ p :: ps2) run (ps1 ++ p :: ps2) ->
  (forall r1 c r2, run r1 p c = Ok r2 -> chans r2 !! q = None) ->
  (forall r1 x c r2, chans r1 !! q = None -> run r1 x c = Ok r2 -> chans r2 !! q = None) ->
  (exists ev c, ev ∈ evs /\ ev.2 = p /\ chans r !! p = Some c /\ callbacks_of (setRevents c ev.1) <> []) ->
  (forall r1, poll r (WEvents evs) = Ok (evs.*2, r1) -> served run r1 evs.*2 p) ->
  exists r1, poll r (WEvents evs) = Ok (evs.*2, r1) /\ handle_active run r1 evs.*2 = Fault BadPointer.
Proof.
  intros Hk Hok E Hw Eps Hrun Hdel Hstay (ev & c & Hev & <- & Hc & Hsel) Hserved.
  pose proof (run_rops_spec _ os (inv_new k Hk) Hok) as Hr. rewrite E in Hr. destruct Hr as [I _].
  destruct (poll_spec r evs I Hw) as (r1 & E1 & I1 & _ & Hch & _). exists r1. split; [done|].
  destruct (Hch ev.1 ev.2) as (c0 & Hc0 & Hc1 & _); [by destruct ev|]. assert (c0 = c) as -> by congruence.
  rewrite Eps. apply (handle_active_dangling run ev.2 q Hdel Hstay r1 ps1 ps2 ps3 (setRevents c ev.1)); try done.
  - destruct Hw as (_ & Hnd & _). rewrite <- app_assoc. simpl. by rewrite <- Eps.
  - intros x Hx. assert (x ∈ evs.*2) as ([e y] & -> & He)%list_elem_of_fmap.
    { rewrite Eps. change (x ∈ ps1 ++ (ev.2 :: ps2) ++ q :: ps3). rewrite app_assoc. by apply elem_of_app; left. }
    destruct (Hch e y He) as (d & _ & ? & _). eauto.
  - rewrite <- Eps. by apply Hserved.
Qed.

(** ** The theorems at a concrete kernel

    An interest list as a map, with the failures of epoll_ctl(2): EEXIST for an
    add, ENOENT for a change or a deletion. *)
Record table : Type := mkTable { entries : gmap Z (Z * Z) }.

#[global] Instance table_epoll : Epoll table := {|
  epoll_ctl t op fd ev :=
    match op, entries t !! fd with
    | CTL_ADD, None => Some (mkTable (<[fd := ev]> (entries t)))
    | CTL_MOD, Some _ => Some (mkTable (<[fd := ev]> (entries t)))
    | CTL_DEL, Some _ => Some (mkTable (delete fd (entries t)))
    | _, _ => None
    end;
  interest := entries
|}.

#[global] Instance table_laws : EpollLaws table.
Proof.
  split; simpl.
  - intros k fd ev k'. destruct (_ !! _); [done|]. by intros [= <-].
  - intros k fd ev k'. destruct (_ !! _); [|done]. by intros [= <-].
  - intros k fd ev k'. destruct (_ !! _); [|done]. by intros [= <-].
  - intros k fd ev [x ->]. eauto.
Qed.

Definition ex_ops : list rop :=
  [RNew 1 10 true true true true; RChange 1 EnableReading;
   RNew 2 11 true true true true; RChange 2 EnableReading; RChange 2 EnableWriting; RTie 2 77;
   RNew 3 12 true false false false; RChange 3 EnableReading; RChange 3 DisableReading].
Definition ex_reactor : Reactor table :=
  match run_rops (Reactor_new (mkTable ∅)) ex_ops with Ok r => r | Fault _ => Reactor_new (mkTable ∅) end.
(** Channel 1 is readable, channel 2 writable and hung up. *)
Definition ex_evs : list (Z * Z) := [(EPOLLIN, 1); (Z.lor EPOLLOUT EPOLLHUP, 2)].
(** Every callback disables its channel. *)
Definition ex_run (r : Reactor table) (p : Z) (_ : cbk) : res (Reactor table) := channel_change r p DisableAll.

Lemma ex_ops_ok : rops_ok (Reactor_new (mkTable ∅)) ex_ops.
Proof. apply rops_okb_true. vm_compute. reflexivity. Qed.

Lemma ex_ops_run : run_rops (Reactor_new (mkTable ∅)) ex_ops = Ok ex_reactor.
Proof. vm_compute. reflexivity. Qed.

Lemma ex_wait_ok : wait_ok ex_reactor ex_evs.
Proof.
  split_and!; [vm_compute; discriminate|by_decide|].
  repeat apply Forall_cons_2; [exists 10, 3|exists 11, 7|apply Forall_nil_2];
    (split; vm_compute; reflexivity).
Qed.


Lemma poller_mirrors_channels_witness :
  match run_rops (Reactor_new (mkTable ∅)) ex_ops with
  | Ok r => mirrors r /\
      (forall p c, chans r !! p = Some c -> addedToLoop_ c = false -> unreferenced r p) /\
      (forall p c, chans r !! p = Some c -> hasChannel r p = Ok (addedToLoop_ c))
  | Fault f => f = StdAbort
  end.
Proof. apply (poller_mirrors_channels (mkTable ∅) ex_ops); [reflexivity|exact ex_ops_ok]. Defined.

Lemma removed_channel_unreferenced_witness :
  exists r1 r2, channel_change ex_reactor 2 DisableAll = Ok r1 /\ channel_remove r1 2 = Ok r2 /\
    unreferenced r2 2 /\ pre r2 (RDelete 2) /\
    (forall q, q <> 2 -> chans r2 !! q = chans ex_reactor !! q).
Proof.
  eapply (removed_channel_unreferenced (mkTable ∅) ex_ops ex_reactor 2).
  - reflexivity.
  - exact ex_ops_ok.
  - exact ex_ops_run.
  - vm_compute. reflexivity.
Defined.

Lemma poll_correct_witness :
  exists r', poll ex_reactor (WEvents ex_evs) = Ok (ex_evs.*2, r') /\
    (forall p, p ∉ ex_evs.*2 -> chans r' !! p = chans ex_reactor !! p) /\
    (forall e p, (e, p) ∈ ex_evs -> exists c,
       chans ex_reactor !! p = Some c /\ chans r' !! p = Some (setRevents c e) /\ hasChannel r' p = Ok true) /\
    zlen ex_evs < evsize r' /\ evsize ex_reactor <= evsize r'.
Proof.
  apply (poll_correct (mkTable ∅) ex_ops ex_reactor ex_evs);
    [reflexivity|exact ex_ops_ok|exact ex_ops_run|exact ex_wait_ok].
Defined.


(** The callbacks of that round: the hang-up of channel 2 comes without
    input, so its close callback runs first, then its write callback. *)
Example ex_round_trace :
  ('(active, r1) ← poll ex_reactor (WEvents ex_evs); r2 ← handle_active ex_run r1 active; Ok (trace r2))
  = Ok [(1, CbRead); (2, CbClose); (2, CbWrite)].
Proof. vm_compute. reflexivity. Qed.

(** A callback that takes the channel of another descriptor out of the loop
    and deletes it if it still exists, as the destructor of [TcpServer] does on the
    loop's thread through [connectDestroyed] when it drops the last reference of a
    connection. *)
Definition delete_other (other : Z) (r : Reactor table) (p : Z) (_ : cbk) : res (Reactor table) :=
  match chans r !! other with
  | Some _ => r1 ← channel_change r other DisableAll; r2 ← channel_remove r1 other; do_rop r2 (RDelete other)
  | None => Ok r
  end.

Lemma delete_other_gone other r p k r' : delete_other other r p k = Ok r' -> chans r' !! other = None.
Proof.
  unfold delete_other. destruct (chans r !! other) as [c|] eqn:Hc; [|by intros [= <-]].
  intros (r1 & _ & (r2 & _ & E)%bind_Ok_inv)%bind_Ok_inv. simpl in E.
  apply bind_Ok_inv in E as (c2 & _ & [= <-]). simpl. by rewrite lookup_delete_eq.
Qed.

Lemma delete_other_good other active :
  other ∉ active -> good_run (W := Reactor table) reactor_inv (fun _ => False) active (delete_other other) active.
Proof.
  intros Hne. split; [done|intros r r' I; by apply touch_inv|].
  intros r p k I Hp Hl. cbn [get part_self] in Hl. unfold delete_other.
  destruct (chans r !! other) as [c|] eqn:Hc.
  2:{ split_and!; [done|apply keeps_refl|]. exists []. by rewrite app_nil_r. }
  destruct (channel_disable_ok r other c I Hc) as (r1 & -> & I1 & (Ho1 & _ & _ & _ & T1) & c1 & Hc1 & He1 & _).
  destruct (channel_remove_spec r1 other c1 I1 Hc1 He1) as (r2 & E2 & I2 & ((Ho2 & _ & _ & _ & T2) & _) & c2 & Hc2 & Ha2).
  cbn [mbind res_bind]. rewrite E2. cbn [mbind res_bind].
  pose proof (do_rop_spec r2 (RDelete other) I2 ltac:(by exists c2)) as Hd.
  destruct (do_rop r2 (RDelete other)) as [r3|f] eqn:E3.
  2:{ simpl in E3. by rewrite Hc2 in E3. }
  simpl in E3. rewrite Hc2 in E3. injection E3 as <-.
  split_and!; [apply Hd| |exists []; simpl; split; [by rewrite app_nil_r, T2|done]].
  intros x d Hx Hd'. exists d. cbn [get part_self] in *. assert (x <> other) by (by intros ->). simpl.
  rewrite lookup_delete_ne, Ho2, Ho1 by done. split; [done|]. by split_and!.
Qed.

Lemma round_with_deleted_channel_witness :
  exists r1, poll ex_reactor (WEvents ex_evs) = Ok (ex_evs.*2, r1) /\
    handle_active (delete_other 2) r1 ex_evs.*2 = Fault BadPointer.
Proof.
  apply (round_with_deleted_channel (mkTable ∅) ex_ops ex_reactor ex_evs (delete_other 2) [] 1 [] 2 []).
  - reflexivity.
  - exact ex_ops_ok.
  - exact ex_ops_run.
  - exact ex_wait_ok.
  - reflexivity.
  - apply delete_other_good. by_decide.
  - intros r k r'. apply delete_other_gone.
  - intros r x k r' _. apply delete_other_gone.
  - exists (EPOLLIN, 1), (default (Channel_new 0) (chans ex_reactor !! 1)).
    split; [by left|]. split_and!; vm_compute; done.
  - intros r1 E1. exists [], [2], r1, (default (Channel_new 0) (chans r1 !! 1)). vm_compute in E1. injection E1 as <-.
    by split_and!.
Defined.

(** A channel that a callback only takes out of the loop is still served: its
    stale event is delivered. *)
Example removed_channel_served :
  ('(active, r1) ← poll ex_reactor (WEvents ex_evs);
   r2 ← handle_active (fun r p k => if p =? 1 then run_rops r [RChange 2 DisableAll; RRemove 2] else Ok r) r1 active;
   Ok (trace r2)) = Ok [(1, CbRead); (2, CbClose); (2, CbWrite)].
Proof. vm_compute. reflexivity. Qed.
