(* ===== verification/Kernel.v ===== *)
(** * Kernel: descriptors and registrations

    What Poller.v needs of the kernel extended with the open descriptors:
    opening and closing them, and when epoll_ctl succeeds.  Registrations of
    channels whose descriptor is open succeed, and a channel can always be taken
    out of the loop; [SimKernel] is a concrete instance. *)

From S2P Require Import Prelude Channel Poller.

(** ** The kernel: descriptors and epoll

    [kfds] are the open descriptors of the process. *)
Class Kernel (K : Type) `{Epoll K} : Type := {
  kfds : K -> gset Z;
  sys_open : K -> Z -> K;      (* socket, eventfd, .. returned this descriptor *)
  sys_close : K -> Z -> K
}.

(** What epoll(7), epoll_ctl(2) and close(2) document; the [_ok] laws say that
    the kernel has the memory and the watches a registration takes. *)
Class KernelLaws (K : Type) `{Kernel K} : Prop := {
  kernel_epoll :: EpollLaws K;
  open_fds k fd : kfds (sys_open k fd) = {[fd]} ∪ kfds k;
  open_interest k fd : fd ∉ kfds k -> interest (sys_open k fd) = interest k;
  close_fds k fd : kfds (sys_close k fd) = kfds k ∖ {[fd]};
  close_interest k fd : interest (sys_close k fd) = delete fd (interest k);
  ctl_fds k op fd ev k' : epoll_ctl k op fd ev = Some k' -> kfds k' = kfds k;
  ctl_closed k op fd ev : fd ∉ kfds k -> epoll_ctl k op fd ev = None;
  ctl_add_ok k fd ev : fd ∈ kfds k -> interest k !! fd = None -> is_Some (epoll_ctl k CTL_ADD fd ev);
  ctl_mod_ok k fd ev : is_Some (interest k !! fd) -> is_Some (epoll_ctl k CTL_MOD fd ev)
}.

(** The descriptors of what is in the loop are open. *)
Definition fds_open {K} `{Kernel K} (r : Reactor K) : Prop :=
  reactor_inv r /\ forall p c, chans r !! p = Some c -> addedToLoop_ c = true -> fd_ c ∈ kfds (epoll r).

(** ** Registrations succeed while the descriptor is open *)
Section kernel_lemmas.
Context {K : Type} `{KernelLaws K}.
Implicit Types (r : Reactor K) (p fd : Z).

Lemma poller_update_fds r op p r' : poller_update r op p = Ok r' -> kfds (epoll r') = kfds (epoll r).
Proof.
  unfold poller_update. intros (c & _ & E)%bind_Ok_inv. destruct (epoll_ctl _ _ _ _) as [k|] eqn:Ek.
  - injection E as <-. by eapply ctl_fds.
  - destruct op; [done|done|by injection E as <-].
Qed.

Lemma updateChannel_fds r p r' : updateChannel r p = Ok r' -> kfds (epoll r') = kfds (epoll r).
Proof.
  unfold updateChannel. intros (c & _ & E)%bind_Ok_inv. destruct (_ || _), (isNoneEvent c); try (by injection E as <-).
  - apply bind_Ok_inv in E as (r1 & E1 & E). injection E as <-. by apply poller_update_fds in E1.
  - apply bind_Ok_inv in E as (r1 & E1 & E). injection E as <-. by apply poller_update_fds in E1.
  - by apply poller_update_fds in E.
Qed.

Lemma channel_change_fds r p ch r' : channel_change r p ch = Ok r' -> kfds (epoll r') = kfds (epoll r).
Proof.
  unfold channel_change, channel_update. intros (c & _ & E)%bind_Ok_inv. apply bind_Ok_inv in E as (c1 & _ & E).
  destruct (_ && _); [by injection E as <-|]. by apply updateChannel_fds in E.
Qed.

Lemma channel_remove_fds r p r' : channel_remove r p = Ok r' -> kfds (epoll r') = kfds (epoll r).
Proof.
  unfold channel_remove. intros (c & _ & E)%bind_Ok_inv. destruct (negb _); [by injection E as <-|].
  unfold removeChannel in E. apply bind_Ok_inv in E as (c1 & _ & E).
  do 4 apply bind_Ok_inv in E as (? & _ & E). apply bind_Ok_inv in E as (r2 & E2 & E). injection E as <-. simpl.
  destruct (_ =? 1); [by apply poller_update_fds in E2|by injection E2 as <-].
Qed.

Lemma updateChannel_ok r p c :
  chans r !! p = Some c -> fd_ c ∈ kfds (epoll r) ->
  index_ c ∈ [-1; 1; 2] -> (index_ c = 1 -> is_Some (interest (epoll r) !! fd_ c)) ->
  (index_ c <> 1 -> interest (epoll r) !! fd_ c = None) -> is_ok (updateChannel r p).
Proof.
  intros Hp Hfd Hi3 Hreg Hfree. unfold updateChannel, poller_update. rewrite Hp. cbn [deref mbind res_bind].
  rewrite !elem_of_cons, elem_of_nil in Hi3.
  destruct (_ || _) eqn:Ei, (isNoneEvent c); try done.
  - destruct (ctl_add_ok (epoll r) (fd_ c) (events_ c, p) Hfd) as [k ->]; [|done]. apply Hfree. lia.
  - by destruct (epoll_ctl _ _ _ _).
  - destruct (decide (index_ c = 1)) as [Hi|Hi].
    + by destruct (ctl_mod_ok (epoll r) (fd_ c) (events_ c, p) (Hreg Hi)) as [k ->].
    + apply orb_false_iff in Ei as [?%Z.eqb_neq ?%Z.eqb_neq]. tauto.
Qed.

(** Changing a channel whose descriptor is open and its own. *)
Lemma channel_change_ok r p c ch :
  reactor_inv r -> chans r !! p = Some c -> fd_ c ∈ kfds (epoll r) ->
  (channels_ r !! fd_ c = None \/ channels_ r !! fd_ c = Some p) ->
  exists r', channel_change r p ch = Ok r' /\ reactor_inv r' /\
    changed p c (change_events ch (events_ c)) r r' /\ kfds (epoll r') = kfds (epoll r).
Proof.
  intros I Hp Hfd Hown.
  assert (is_ok (channel_change r p ch)) as Hok.
  { unfold channel_change. rewrite Hp. cbn [deref mbind res_bind]. unfold channel_update. simpl.
    rewrite lookup_insert_eq. cbn [deref mbind res_bind]. destruct (_ && _); [done|].
    eapply updateChannel_ok; [simpl; apply lookup_insert_eq|done|..]; simpl;
      destruct (ri_chan _ I _ _ Hp) as [_ [(Hi & _)|[(Hi & _ & _ & _ & Hint)|(Hi & _ & _ & _ & Hint)]]]; rewrite ?Hi, ?Hint; try done.
    - set_solver.
    - set_solver.
    - set_solver.
    - intros _. destruct (interest (epoll r) !! fd_ c) as [[e q]|] eqn:Eq; [|done].
      pose proof (ri_int _ I _ _ _ Eq) as Hm. destruct Hown as [Hn|Hs]; [congruence|].
      destruct (ri_map _ I _ _ Hs) as (d & Hd & _ & Ha). rewrite Hp in Hd. injection Hd as <-.
      destruct (ri_chan _ I _ _ Hp) as [_ [(_ & ? & _)|[(? & _)|(? & _)]]]; [congruence|lia|lia]. }
  pose proof (channel_change_spec r p c ch I Hp ltac:(tauto)) as Hs.
  destruct (channel_change r p ch) as [r'|f] eqn:E; [|done]. destruct Hs as [I' Hc].
  exists r'. split_and!; try done. by eapply channel_change_fds.
Qed.

Lemma reactor_inv_epoll (r : Reactor K) k :
  reactor_inv r -> interest k = interest (epoll r) -> reactor_inv (set_epoll r k).
Proof.
  intros [H1' H2' H3' H4'] E. split; simpl; try done.
  - intros p c Hp. specialize (H1' p c Hp). unfold chan_ok in *. simpl. by rewrite E.
  - intros fd e p. rewrite E. apply H3'.
Qed.

(** A channel whose descriptor is its own is disabled and taken out of the
    loop; nothing is registered for the descriptor any more. *)
Lemma channel_retire r p c :
  reactor_inv r -> chans r !! p = Some c ->
  (channels_ r !! fd_ c = None \/ channels_ r !! fd_ c = Some p) ->
  exists r1 r2 c', channel_change r p DisableAll = Ok r1 /\ channel_remove r1 p = Ok r2 /\ reactor_inv r2 /\
    only_chan p r r2 /\ kfds (epoll r2) = kfds (epoll r) /\ interest (epoll r2) !! fd_ c = None /\
    chans r2 !! p = Some c' /\ same_rest c c' /\ events_ c' = 0 /\ addedToLoop_ c' = false.
Proof.
  intros I Hp Hown. destruct (channel_disable_ok r p c I Hp) as (r1 & E1 & I1 & (O1 & S1 & V1 & A1 & T1) & c1 & Hp1 & He1 & Hs1).
  destruct (channel_remove_spec r1 p c1 I1 Hp1 He1) as (r2 & E2 & I2 & ((O2 & S2 & V2 & A2 & T2) & c2 & Hp2 & He2 & Hs2) & c2' & Hp2' & Ha2).
  rewrite Hp2 in Hp2'. injection Hp2' as <-. exists r1, r2, c2.
  assert (forall q, q <> p -> chans r2 !! q = chans r !! q) as Hoth by (intros q Hq; by rewrite O2, O1).
  assert (same_rest c c2) as Hs by (by apply (same_rest_trans c c1 c2)).
  assert (kfds (epoll r2) = kfds (epoll r)) as Hk.
  { apply channel_change_fds in E1. apply channel_remove_fds in E2. congruence. }
  assert (interest (epoll r2) !! fd_ c = None) as Hint.
  { destruct (interest (epoll r2) !! fd_ c) as [[e q]|] eqn:E; [|done].
    destruct (ri_map _ I2 _ _ (ri_int _ I2 _ _ _ E)) as (d & Hd & Hf & Ha). destruct (decide (q = p)) as [-> |Hne].
    - congruence.
    - rewrite Hoth in Hd by done. assert (channels_ r !! fd_ d = Some q) as Hm.
      { apply (added_map r q d I Hd). intros Hi.
        destruct (ri_chan _ I _ _ Hd) as [_ [(_ & ? & _)|[(? & _)|(? & _)]]]; [congruence|lia|lia]. }
      rewrite Hf in Hm. destruct Hown; congruence. }
  assert (only_chan p r r2) as Ho.
  { split; [done|]. split; [done|]. split_and!; congruence. }
  repeat (split; [done|]). done.
Qed.
(** Nor does any operation of a client stop the program when the descriptor
    of the channel it registers is open. *)
Definition opened r (o : rop) : Prop :=
  match o with
  | RChange p ch => forall c, chans r !! p = Some c -> fd_ c ∈ kfds (epoll r) \/ change_events ch (events_ c) = 0
  | _ => True
  end.

#[global] Instance opened_dec r o : Decision (opened r o).
Proof.
  destruct o as [| p ch | | | |]; simpl; try apply _. destruct (chans r !! p) as [c|].
  - destruct (decide (fd_ c ∈ kfds (epoll r) \/ change_events ch (events_ c) = 0)); [left|right]; naive_solver.
  - by left.
Defined.

Lemma fds_open_change r r' p c :
  fds_open r -> reactor_inv r' -> kfds (epoll r') = kfds (epoll r) -> only_chan p r r' ->
  chans r' !! p = Some c -> (addedToLoop_ c = true -> fd_ c ∈ kfds (epoll r)) -> fds_open r'.
Proof.
  intros [I Ho] I' Hk [Hoth _] Hp Hc. split; [done|]. intros q d Hd Ha. rewrite Hk.
  destruct (decide (q = p)) as [-> |Hne]; [|apply (Ho q); [by rewrite <- Hoth|done]].
  rewrite Hp in Hd. injection Hd as <-. by apply Hc.
Qed.

Lemma channel_change_open r p c ch :
  fds_open r -> chans r !! p = Some c -> pre r (RChange p ch) -> opened r (RChange p ch) ->
  exists r', channel_change r p ch = Ok r' /\ fds_open r'.
Proof.
  intros Hopen Hp (c0 & Hc0 & Hown) Hop. pose proof Hopen as [I Ho]. rewrite Hp in Hc0. injection Hc0 as <-.
  specialize (Hop c Hp). simpl in Hop.
  assert (fd_ c ∈ kfds (epoll r) -> (channels_ r !! fd_ c = None \/ channels_ r !! fd_ c = Some p) ->
    exists r', channel_change r p ch = Ok r' /\ fds_open r') as Hgo.
  { intros Hfd Hslot. destruct (channel_change_ok r p c ch I Hp Hfd Hslot) as (r' & E & I' & (Hoth & c' & Hp' & _ & Hs) & Hk).
    exists r'. split; [done|]. eapply fds_open_change; try done. intros _. by destruct Hs as [-> _]. }
  destruct (ri_chan _ I _ _ Hp) as [Hm [(Hi & Ha & He)|[(_ & Ha & _ & Hch & _)|(_ & Ha & _ & Hch & _)]]];
    [|apply Hgo; [by apply (Ho p)|by right]..].
  destruct (decide (change_events ch (events_ c) = 0)) as [E0|Hne].
  - set (c1 := set_events c (change_events ch (events_ c))). exists (set_chan r p c1). split.
    + unfold channel_change, channel_update. rewrite Hp. cbn [deref mbind res_bind]. fold c1. simpl.
      rewrite lookup_insert_eq. simpl. unfold isNoneEvent. simpl. by rewrite Ha, E0.
    + eapply (fds_open_change r _ p c1); try done; [| |simpl; apply lookup_insert_eq|simpl; congruence].
      * eapply inv_fields; try done. split_and!; simpl; congruence.
      * split_and!; try done; simpl; [intros q Hq; by rewrite lookup_insert_ne|rewrite lookup_insert_eq; eauto].
  - apply Hgo; tauto.
Qed.

Lemma do_rop_ok r o : fds_open r -> pre r o -> opened r o -> exists r', do_rop r o = Ok r' /\ fds_open r'.
Proof.
  intros Hopen Hpre Hop. pose proof Hopen as [I Ho]. pose proof (do_rop_spec r o I Hpre) as Hs.
  assert (forall r', reactor_inv r' -> epoll r' = epoll r ->
    (forall q c, chans r' !! q = Some c -> addedToLoop_ c = true ->
       exists d, chans r !! q = Some d /\ addedToLoop_ d = true /\ fd_ d = fd_ c) -> fds_open r') as Hheap.
  { intros r' I' Ek Hsub. split; [done|]. intros q c Hq Hc. rewrite Ek.
    destruct (Hsub q c Hq Hc) as (d & Hd & Hda & <-). by apply (Ho q d). }
  destruct o as [p fd rd wr cl er|p ch|p obj|p|p|obj]; simpl in *.
  - eexists. split; [done|]. apply Hheap; [apply Hs|done|]. intros q c. simpl. rewrite lookup_insert.
    case_decide; [by intros [= <-]|eauto].
  - destruct Hpre as (c & Hp & Hown). apply (channel_change_open r p c); [done|done|by exists c|done].
  - destruct Hpre as [c Hp]. rewrite Hp in Hs |- *. eexists. split; [done|]. apply Hheap; [apply Hs|done|].
    intros q d. simpl. rewrite lookup_insert. case_decide; [intros [= <-]; subst; eauto|eauto].
  - destruct Hpre as (c & Hp & He). destruct (channel_remove_spec r p c I Hp He) as (r' & E & I' & (Hoth & _) & c' & Hp' & Ha).
    exists r'. split; [done|]. eapply (fds_open_change r r' p c'); try done; [by eapply channel_remove_fds|by rewrite Ha].
  - destruct Hpre as (c & Hp & Ha). rewrite Hp in Hs |- *. eexists. split; [done|]. apply Hheap; [apply Hs|done|].
    intros q d. simpl. rewrite lookup_delete. case_decide; [done|eauto].
  - eexists. split; [done|]. apply Hheap; [apply Hs|done|]. eauto.
Qed.
(** The channel a client's operation is on; it leaves the others alone. *)
Definition rop_on (o : rop) : option Z :=
  match o with RNew p _ _ _ _ _ | RChange p _ | RTie p _ | RRemove p | RDelete p => Some p | RDrop _ => None end.

Lemma do_rop_frame r o r' p :
  reactor_inv r -> pre r o -> do_rop r o = Ok r' -> rop_on o <> Some p ->
  chans r' !! p = chans r !! p /\ kfds (epoll r') = kfds (epoll r).
Proof.
  intros I Hpre E Hne. destruct o as [q fd rd wr cl er|q ch|q obj|q|q|obj]; simpl in *.
  - injection E as <-. simpl. by rewrite lookup_insert_ne by congruence.
  - destruct Hpre as (c & Hq & Hown). pose proof (channel_change_spec r q c ch I Hq Hown) as Hs. rewrite E in Hs.
    destruct Hs as [_ [[Hoth _] _]]. split; [apply Hoth; congruence|by eapply channel_change_fds].
  - destruct (chans r !! q) as [c|] eqn:Hq; [|done]. cbn [deref mbind res_bind] in E. injection E as <-. simpl.
    by rewrite lookup_insert_ne by congruence.
  - destruct Hpre as (c & Hq & He). destruct (channel_remove_spec r q c I Hq He) as (r1 & E1 & _ & [[Hoth _] _] & _).
    rewrite E in E1. injection E1 as <-. split; [apply Hoth; congruence|by eapply channel_remove_fds].
  - destruct (chans r !! q) as [c|] eqn:Hq; [|done]. cbn [deref mbind res_bind] in E. injection E as <-. simpl.
    by rewrite lookup_delete_ne by congruence.
  - by injection E as <-.
Qed.

(** A new descriptor, and one closed that nothing in the loop uses. *)
Lemma fds_open_sys_open r fd : fds_open r -> fd ∉ kfds (epoll r) -> fds_open (set_epoll r (sys_open (epoll r) fd)).
Proof.
  intros [I Ho] Hfd. split; [apply reactor_inv_epoll; [done|by apply open_interest]|]. simpl. rewrite open_fds.
  intros p c Hp Hc. apply elem_of_union. right. by apply (Ho p).
Qed.

Lemma fds_open_sys_close r fd :
  fds_open r -> channels_ r !! fd = None -> fds_open (set_epoll r (sys_close (epoll r) fd)).
Proof.
  intros [I Ho] Hslot. split; [apply reactor_inv_epoll; [done|]|]; simpl.
  - rewrite close_interest. apply delete_id.
    destruct (interest _ !! fd) as [[e p]|] eqn:E; [|done]. apply (ri_int _ I) in E. congruence.
  - rewrite close_fds. intros p c Hp Hc. apply elem_of_difference. split; [by apply (Ho p)|].
    intros Hf%elem_of_singleton. assert (index_ c <> -1) as Hi.
    { intros Hi. destruct (ri_chan _ I _ _ Hp) as [_ [(_ & ? & _)|[(? & _)|(? & _)]]]; [congruence|lia|lia]. }
    pose proof (added_map _ p c I Hp Hi). congruence.
Qed.
End kernel_lemmas.

(** ** A concrete kernel

    A kernel: the open descriptors, with their registrations. *)
Module SimKernel.
Record kern : Type := mkKern { table : gmap Z (option (Z * Z)) }.

Definition ctl (k : kern) (op : ctl_op) (fd : Z) (ev : Z * Z) : option kern :=
  match op, table k !! fd with
  | CTL_ADD, Some None => Some (mkKern (<[fd := Some ev]> (table k)))
  | CTL_MOD, Some (Some _) => Some (mkKern (<[fd := Some ev]> (table k)))
  | CTL_DEL, Some (Some _) => Some (mkKern (<[fd := None]> (table k)))
  | _, _ => None
  end.

#[global] Instance kern_epoll : Epoll kern := {
  epoll_ctl := ctl;
  interest := fun k => omap (fun e => e) (table k)
}.
#[global] Instance kern_kernel : Kernel kern := {
  kfds := fun k => dom (table k);
  sys_open := fun k fd => mkKern (<[fd := None]> (table k));
  sys_close := fun k fd => mkKern (delete fd (table k))
}.

Lemma interest_lookup (k : kern) fd : interest k !! fd = table k !! fd ≫= id.
Proof. apply lookup_omap. Qed.

Lemma ctl_insert k op fd ev k' : ctl k op fd ev = Some k' ->
  is_Some (table k !! fd) /\ exists e, k' = mkKern (<[fd := e]> (table k)) /\ e = match op with CTL_DEL => None | _ => Some ev end.
Proof.
  unfold ctl. destruct op, (table k !! fd) as [[]|]; intros [= <-]; split; eauto.
Qed.

Lemma interest_insert k fd e : interest (mkKern (<[fd := e]> (table k))) =
  match e with Some ev => <[fd := ev]> (interest k) | None => delete fd (interest k) end.
Proof.
  apply map_eq. intros x. rewrite interest_lookup. cbn [table]. rewrite lookup_insert.
  destruct e; [rewrite lookup_insert|rewrite lookup_delete]; rewrite interest_lookup; by case_decide.
Qed.

Lemma kfds_lookup (k : kern) fd : fd ∈ kfds k <-> is_Some (table k !! fd).
Proof. apply elem_of_dom. Qed.

Lemma not_kfds (k : kern) fd : fd ∉ kfds k <-> table k !! fd = None.
Proof. apply not_elem_of_dom. Qed.

Lemma ctl_registered (k : kern) op fd ev : is_Some (interest k !! fd) -> op <> CTL_ADD -> is_Some (ctl k op fd ev).
Proof.
  rewrite interest_lookup. unfold ctl. destruct op, (table k !! fd) as [[ev'|]|]; intros [? [=]] ?; try done; by eexists.
Qed.

#[global] Instance kern_laws : KernelLaws kern.
Proof.
  split; [split|..].
  - intros k fd ev k' (_ & e & -> & ->)%ctl_insert. apply interest_insert.
  - intros k fd ev k' (_ & e & -> & ->)%ctl_insert. apply interest_insert.
  - intros k fd ev k' (_ & e & -> & ->)%ctl_insert. apply interest_insert.
  - intros k fd ev Hs. by apply ctl_registered.
  - intros k fd. apply dom_insert_L.
  - intros k fd Hfd%not_kfds. refine (eq_trans (interest_insert k fd None) _). apply delete_id. by rewrite interest_lookup, Hfd.
  - intros k fd. apply dom_delete_L.
  - intros k fd. apply map_eq. intros x. rewrite interest_lookup. cbn [table sys_close kern_kernel].
    rewrite !lookup_delete. case_decide; [done|]. by rewrite interest_lookup.
  - intros k op fd ev k' (Hs%kfds_lookup & e & -> & _)%ctl_insert. refine (eq_trans (dom_insert_L _ _ _) _).
    change (dom (table k)) with (kfds k). set_solver.
  - intros k op fd ev Hfd%not_kfds. cbn [epoll_ctl kern_epoll]. unfold ctl. rewrite Hfd. by destruct op.
  - intros k fd ev [e He]%kfds_lookup Hn. rewrite interest_lookup, He in Hn. cbn [epoll_ctl kern_epoll]. unfold ctl.
    rewrite He. simpl in Hn. rewrite Hn. by eexists.
  - intros k fd ev Hs. by apply ctl_registered.
Qed.
End SimKernel.
