(* ===== verification/EventLoop.v ===== *)
(** * EventLoop: pending functors, quit and timers of a loop

    Models [include/hvnetpp/EventLoop.h] and [src/EventLoop.cpp] as executed on
    the loop's thread, with the calls of other threads as atomic steps between
    (LoopWakeup.v has the finer interleavings).  The loop is a client of the
    lock-free queue: everything is proved against the interface [PendingQueue],
    which MpscQueue.v implements.  Functors act on any state of which the loop's
    is a part ([LOther] is what they do to the rest); LoopRound.v uses it. *)

From Stdlib Require Import SpecFloat.
From S2P Require Import Prelude CircularBuffer MpscQueue Timer TimerQueue.

(** ** The interface of the pending queue

    [pq_rep q held fs]: the queue holds the tasks [fs]; [held] is the node the
    consumer has peeked and not yet consumed, which is that of the first. *)
Class PendingOps (F Q : Type) : Type := {
  pq_isValid : Q -> bool;
  pq_enqueue : Q -> F -> option Q;
  pq_peek : Q -> option Z;
  pq_data : Q -> Z -> option F;
  pq_consume : Q -> option Z -> Q;
  pq_rep : Q -> option Z -> list F -> Prop;
  pq_capacity : nat
}.

Class PendingQueue (F Q : Type) `{PendingOps F Q} : Prop := {
  pq_rep_valid q h fs : pq_rep q h fs -> pq_isValid q = true;
  pq_enqueue_spec q h fs f : pq_rep q h fs ->
    if bool_decide (pq_capacity <= length fs)%nat then pq_enqueue q f = None
    else exists q', pq_enqueue q f = Some q' /\ pq_rep q' h (fs ++ [f]);
  pq_peek_nil q : pq_rep q None [] -> pq_peek q = None;
  pq_peek_cons q f fs : pq_rep q None (f :: fs) ->
    exists off, pq_peek q = Some off /\ pq_data q off = Some f /\ pq_rep q (Some off) (f :: fs);
  pq_consume_spec q off f fs : pq_rep q (Some off) (f :: fs) ->
    pq_rep (pq_consume q (Some off)) None fs
}.

(** [MpscQueue] implements it; no spurious failure of the compare-exchange is
    scheduled in these atomic calls. *)
Section mpsc.
Context {F : Type} (order : Z).

#[local] Instance mpsc_ops : PendingOps F (MpscQueue F) := {|
  pq_isValid := mq_isValid;
  pq_enqueue q f := enqueue 0 q f;
  pq_peek := peek;
  pq_data q off := node_data (node_at q off);
  pq_consume := consume;
  pq_rep q held fs :=
    match held with
    | None => seq_inv order q false fs
    | Some off => seq_inv order q true fs /\ off = q_offset q (head_ (ring q))
    end;
  pq_capacity := capacity order
|}.

Lemma enqueue_head (q q' : MpscQueue F) f :
  enqueue 0 q f = Some q' -> head_ (ring q') = head_ (ring q) /\ size_ (ring q') = size_ (ring q).
Proof.
  unfold enqueue, reserve. destruct (mq_isValid q); simpl; [|done].
  destruct (is_full _ _ _); [done|]. by intros [= <-].
Qed.

Lemma mpsc_pending : 6 <= order <= 31 -> PendingQueue F (MpscQueue F).
Proof.
  intros Ho. split; simpl.
  - intros q h fs Hr. assert (exists b, seq_inv order q b fs) as [b (? & ? & ? & _ & [d Hd] & _)].
    { destruct h as [off|]; [destruct Hr|]; eauto. }
    unfold mq_isValid, isValid. by rewrite Hd.
  - intros q [off|] fs f Hr.
    + destruct Hr as [Hr ->]. pose proof (enqueue_spec order Ho 0 q true fs f Hr) as He.
      case_bool_decide; [done|]. destruct He as (q' & E & Hq'). exists q'. split_and!; try done.
      apply enqueue_head in E as [E1 E2]. unfold q_offset. by rewrite E1, E2.
    + by apply (enqueue_spec order Ho 0 q false fs f).
  - intros q Hr. apply (peek_seq order Ho q [] Hr).
  - intros q f fs Hr. destruct (peek_seq order Ho q (f :: fs) Hr) as (off & E & ? & ?).
    exists off. split_and!; try done. unfold peek in E. repeat case_match; by simplify_eq.
  - intros q off f fs [Hr ->]. by apply (consume_spec order Ho q f fs).
Qed.
End mpsc.

(** ** The object

    [evfd] is the counter of [wakeupFd_]; [ran] is a history variable: the
    functors run. *)
Record Loop (F Q : Type) : Type := mkLoop {
  looping_ : bool;
  quit_ : bool;
  callingPendingFunctors_ : bool;
  pendingQueue_ : Q;
  pendingFunctors_ : list F;
  evfd : Z;
  ran : list F
}.
Arguments mkLoop {F Q}.
Arguments looping_ {F Q}.
Arguments quit_ {F Q}.
Arguments callingPendingFunctors_ {F Q}.
Arguments pendingQueue_ {F Q}.
Arguments pendingFunctors_ {F Q}.
Arguments evfd {F Q}.
Arguments ran {F Q}.

(** What code that runs on the loop's thread does to the loop, and what other
    threads do meanwhile; [LWakeRead] is the handler of the wakeup channel, and
    [LOther] is what it does elsewhere. *)
Inductive lact (F A : Type) : Type :=
| LQueue (f : F)
| LRun (f : F)
| LForeign (f : F)
| LQuit
| LForeignQuit
| LWakeRead
| LOther (a : A).
Arguments LQueue {F A}.
Arguments LRun {F A}.
Arguments LForeign {F A}.
Arguments LQuit {F A}.
Arguments LForeignQuit {F A}.
Arguments LWakeRead {F A}.
Arguments LOther {F A}.

Section loop.
Context {F Q : Type} `{PendingOps F Q}.
Implicit Types (s : Loop F Q) (f : F).

Definition set_looping s b : Loop F Q :=
  mkLoop b (quit_ s) (callingPendingFunctors_ s) (pendingQueue_ s) (pendingFunctors_ s) (evfd s) (ran s).
Definition set_quit s b : Loop F Q :=
  mkLoop (looping_ s) b (callingPendingFunctors_ s) (pendingQueue_ s) (pendingFunctors_ s) (evfd s) (ran s).
Definition set_callingP s b : Loop F Q :=
  mkLoop (looping_ s) (quit_ s) b (pendingQueue_ s) (pendingFunctors_ s) (evfd s) (ran s).
Definition set_pq s q : Loop F Q :=
  mkLoop (looping_ s) (quit_ s) (callingPendingFunctors_ s) q (pendingFunctors_ s) (evfd s) (ran s).
Definition set_fb s l : Loop F Q :=
  mkLoop (looping_ s) (quit_ s) (callingPendingFunctors_ s) (pendingQueue_ s) l (evfd s) (ran s).
Definition set_evfd s n : Loop F Q :=
  mkLoop (looping_ s) (quit_ s) (callingPendingFunctors_ s) (pendingQueue_ s) (pendingFunctors_ s) n (ran s).
Definition log_ran s f : Loop F Q :=
  mkLoop (looping_ s) (quit_ s) (callingPendingFunctors_ s) (pendingQueue_ s) (pendingFunctors_ s) (evfd s)
    (ran s ++ [f]).

Definition EventLoop_new (q : Q) : Loop F Q := mkLoop false false false q [] 0 [].

(** [write(wakeupFd_, 1)] and [read(wakeupFd_)]. *)
Definition wakeup s : Loop F Q := set_evfd s (evfd s + 1).
Definition handleRead s : Loop F Q := set_evfd s 0.

Definition queueInLoop (inLoop : bool) s f : Loop F Q :=
  let node := if pq_isValid (pendingQueue_ s) then pq_enqueue (pendingQueue_ s) f else None in
  let s1 := match node with
            | Some q' => set_pq s q'
            | None => set_fb s (pendingFunctors_ s ++ [f])
            end in
  if negb inLoop || callingPendingFunctors_ s1 then wakeup s1 else s1.

Definition quit (inLoop : bool) s : Loop F Q :=
  let s1 := set_quit s true in
  if inLoop then s1 else wakeup s1.

Section run.
(** The bodies of the functors, user code that runs on the whole state [W]:
    [other] is what it does there besides calls on the loop. *)
Context {W A : Type} `{Part W (Loop F Q)} (other : W -> A -> res W) (body : F -> list (lact F A)).
Implicit Types (w : W).

Definition do_lact (call : W -> F -> res W) w (a : lact F A) : res W :=
  match a with
  | LQueue f => Ok (modify (fun s => queueInLoop true s f) w)
  | LRun f => call w f
  | LForeign f => Ok (modify (fun s => queueInLoop false s f) w)
  | LQuit => Ok (modify (quit true) w)
  | LForeignQuit => Ok (modify (quit false) w)
  | LWakeRead => Ok (modify handleRead w)
  | LOther a => other w a
  end.

Fixpoint do_lacts (call : W -> F -> res W) w (acts : list (lact F A)) : res W :=
  match acts with
  | [] => Ok w
  | a :: acts' => w' ← do_lact call w a; do_lacts call w' acts'
  end.

(** A call of a functor; [runInLoop] on the loop's thread is such a call.  [n]
    bounds the depth of the calls. *)
Fixpoint call_functor (n : nat) w f : res W :=
  match n with
  | O => Fault NoFuel
  | S n' => do_lacts (call_functor n') (modify (fun s => log_ran s f) w) (body f)
  end.

Definition runInLoop (inLoop : bool) (n : nat) w f : res W :=
  if inLoop then call_functor n w f else Ok (modify (fun s => queueInLoop false s f) w).

(** The first loop of [doPendingFunctors]. *)
Fixpoint drain (n : nat) w : res W :=
  match n with
  | O => Fault NoFuel
  | S n' =>
      match pq_peek (pendingQueue_ (get w)) with
      | None => Ok w
      | Some node =>
          w1 ← (match pq_data (pendingQueue_ (get w)) node with
                | Some f => call_functor n' w f
                | None => Ok w
                end);
          drain n' (modify (fun s => set_pq s (pq_consume (pendingQueue_ s) (Some node))) w1)
      end
  end.

Fixpoint call_all (n : nat) w (fs : list F) : res W :=
  match fs with
  | [] => Ok w
  | f :: fs' => w1 ← call_functor n w f; call_all n w1 fs'
  end.

Definition doPendingFunctors (n : nat) w : res W :=
  let w0 := modify (fun s => set_callingP s true) w in
  w1 ← (if pq_isValid (pendingQueue_ (get w0)) then drain n w0 else Ok w0);
  let pendingFunctors := pendingFunctors_ (get w1) in
  w2 ← call_all n (modify (fun s => set_fb s []) w1) pendingFunctors;
  Ok (modify (fun s => set_callingP s false) w2).

(** [loop]: [handle] is what a round does before [doPendingFunctors], poll and
    run the handlers of the events; [rounds] says what happens in each. *)
Section rounds.
Context {R : Type} (handle : nat -> W -> R -> res W).

Fixpoint loop_rounds (n : nat) w (rounds : list R) : res W :=
  if quit_ (get w) then Ok (modify (fun s => set_looping s false) w) else
  match rounds with
  | [] => Ok w
  | r :: rounds' =>
      w1 ← handle n w r;
      w2 ← doPendingFunctors n w1;
      loop_rounds n w2 rounds'
  end.

Definition loop (n : nat) w (rounds : list R) : res W :=
  loop_rounds n (modify (fun s => set_looping s true) w) rounds.
End rounds.

(** Handlers that only do what functors do. *)
Definition handlers (n : nat) w (acts : list (lact F A)) : res W := do_lacts (call_functor n) w acts.
End run.
End loop.

(** ** What the functions do

    [size f] bounds the number of functors that [f], the functors it queues,
    and so on, run: user code that queues for ever has none. *)
Section spec.
Context {F Q A : Type} `{PendingQueue F Q}.
Context (body : F -> list (lact F A)) (size : F -> nat).
Implicit Types (s : Loop F Q) (f : F) (fs ring : list F) (held : option Z).

Definition act_size (a : lact F A) : nat :=
  match a with LQueue f | LRun f | LForeign f => size f | _ => 0 end.
Definition acts_size (acts : list (lact F A)) : nat := sum_list_with act_size acts.
Definition weight (fs : list F) : nat := sum_list_with size fs.
Definition sized : Prop := forall f, (1 + acts_size (body f) <= size f)%nat.

(** The queue of the loop holds [ring]; without a ring it holds nothing. *)
Definition lrep s held ring : Prop :=
  pq_rep (pendingQueue_ s) held ring \/
  pq_isValid (pendingQueue_ s) = false /\ held = None /\ ring = [].

(** From [s] to [s'] the functors [t] ran, and functors of total weight at
    most [w] were queued, at the end of the two queues. *)
Record effect held ring ring' (w : nat) s s' (t : list F) : Prop := mkEffect {
  e_rep : lrep s' held ring';
  e_queues : exists g1 g2, ring' = ring ++ g1 /\
    pendingFunctors_ s' = pendingFunctors_ s ++ g2 /\ (weight g1 + weight g2 <= w)%nat;
  e_ran : ran s' = ran s ++ t;
  e_calling : callingPendingFunctors_ s' = callingPendingFunctors_ s;
  e_quit : quit_ s = true -> quit_ s' = true;
  e_looping : looping_ s' = looping_ s
}.

Lemma weight_app fs gs : weight (fs ++ gs) = (weight fs + weight gs)%nat.
Proof. unfold weight. induction fs; simpl; lia. Qed.

Lemma effect_refl held ring w s : lrep s held ring -> effect held ring ring w s s [].
Proof.
  intros Hr. split; try done; [|by rewrite app_nil_r].
  exists [], []. rewrite !app_nil_r. split_and!; try done. unfold weight; simpl; lia.
Qed.

Lemma effect_weaken held ring ring' w w' s s' t :
  (w <= w')%nat -> effect held ring ring' w s s' t -> effect held ring ring' w' s s' t.
Proof. intros Hw [? (g1 & g2 & ? & ? & ?) ? ? ? ?]. split; try done. exists g1, g2. split_and!; try done. lia. Qed.

Lemma effect_trans held r1 r2 r3 w1 w2 s1 s2 s3 t1 t2 :
  effect held r1 r2 w1 s1 s2 t1 -> effect held r2 r3 w2 s2 s3 t2 ->
  effect held r1 r3 (w1 + w2) s1 s3 (t1 ++ t2).
Proof.
  intros [_ (g1 & g2 & -> & Hf & Hw) R1 C1 Q1 L1] [Hr (g3 & g4 & -> & Hf' & Hw') R2 C2 Q2 L2].
  split; try congruence; try tauto.
  - exists (g1 ++ g3), (g2 ++ g4). rewrite !weight_app, app_assoc.
    split_and!; [done|by rewrite Hf', Hf, app_assoc|lia].
  - by rewrite R2, R1, app_assoc.
Qed.

Lemma queueInLoop_effect b held ring s f :
  lrep s held ring -> exists ring', effect held ring ring' (size f) s (queueInLoop b s f) [].
Proof.
  intros Hr. unfold queueInLoop.
  assert (effect held ring ring (size f) s (set_fb s (pendingFunctors_ s ++ [f])) []) as Hfb.
  { split; try done; [|by rewrite app_nil_r]. exists [], [f]. rewrite app_nil_r. simpl.
    split_and!; [done|done|]. unfold weight. simpl. lia. }
  assert (forall ring' s1, effect held ring ring' (size f) s s1 [] ->
    effect held ring ring' (size f) s
      (if negb b || callingPendingFunctors_ s1 then wakeup s1 else s1) []) as Hwake.
  { intros ring' s1 [? ? ? ? ? ?]. by destruct (negb b || _). }
  destruct Hr as [Hr|(Hv & -> & ->)]; [|by rewrite Hv; eexists; apply Hwake, Hfb].
  rewrite (pq_rep_valid _ _ _ Hr). pose proof (pq_enqueue_spec _ _ _ f Hr) as He.
  case_bool_decide; [by rewrite He; eexists; apply Hwake, Hfb|].
  destruct He as (q' & -> & Hr'). exists (ring ++ [f]). apply Hwake.
  split; try done; [by left| |by rewrite app_nil_r]. exists [f], []. rewrite app_nil_r.
  split_and!; [done|done|]. unfold weight. simpl. lia.
Qed.

(** *** In a larger state

    [inv] is what the rest of the state satisfies; whatever user code does there
    keeps it and leaves the loop's own fields alone. *)
Section world.
Context {W : Type} `{PartLaws W (Loop F Q)} (other : W -> A -> res W) (inv : W -> Prop).

Record good_code : Prop := mkGoodCode {
  gc_put w s : inv w -> inv (put w s);
  gc_other w a : inv w -> exists w', other w a = Ok w' /\ inv w' /\ get w' = get w
}.
Context (Hcode : good_code).
Implicit Types (w : W).

Lemma gc_modify w (g : Loop F Q -> Loop F Q) : inv w -> inv (modify g w) /\ get (modify g w) = g (get w).
Proof. intros I. split; [by apply (gc_put Hcode)|apply get_put]. Qed.

Lemma do_lacts_effect call held ring w acts :
  (forall f w1 ring1, LRun f ∈ acts -> inv w1 -> lrep (get w1) held ring1 ->
     exists w2 ring2 t, call w1 f = Ok w2 /\ inv w2 /\ effect held ring1 ring2 (size f) (get w1) (get w2) t) ->
  inv w -> lrep (get w) held ring ->
  exists w' ring' t, do_lacts other call w acts = Ok w' /\ inv w' /\
    effect held ring ring' (acts_size acts) (get w) (get w') t.
Proof.
  revert w ring. induction acts as [|a acts IH]; intros w ring Hcall I Hr; simpl.
  { exists w, ring, []. split_and!; [done|done|]. by apply effect_refl. }
  assert (exists w1 ring1 t1, do_lact other call w a = Ok w1 /\ inv w1 /\
    effect held ring ring1 (act_size a) (get w) (get w1) t1) as (w1 & ring1 & t1 & -> & I1 & E1).
  { assert (forall g ring', effect held ring ring' (act_size a) (get w) (g (get w)) [] ->
      exists w1 ring1 t1, Ok (modify g w) = Ok w1 /\ inv w1 /\
        effect held ring ring1 (act_size a) (get w) (get w1) t1) as Hmod.
    { intros g ring' E. destruct (gc_modify w g I) as [I1 Eg]. exists (modify g w), ring', [].
      split_and!; [done|done|]. by rewrite Eg. }
    pose proof (effect_refl held ring 0 (get w) Hr) as [? ? ? ? ? ?]. destruct a; cbn [do_lact].
    - destruct (queueInLoop_effect true held ring (get w) f Hr) as (ring' & ?). by apply (Hmod _ ring').
    - by apply (Hcall f); [left|..].
    - destruct (queueInLoop_effect false held ring (get w) f Hr) as (ring' & ?). by apply (Hmod _ ring').
    - by apply (Hmod _ ring).
    - by apply (Hmod _ ring).
    - by apply (Hmod _ ring).
    - destruct (gc_other Hcode w a I) as (w1 & -> & I1 & E). exists w1, ring, [].
      split_and!; [done|done|]. rewrite E. by apply effect_refl. }
  cbn [mbind res_bind]. destruct (IH w1 ring1) as (w2 & ring2 & t2 & E & I2 & E2).
  { intros f w' r' Hf. apply Hcall. by right. }
  { done. }
  { apply E1. }
  exists w2, ring2, (t1 ++ t2). split_and!; [done|done|]. unfold acts_size. simpl. by eapply effect_trans.
Qed.

Lemma acts_size_elem f (acts : list (lact F A)) : LRun f ∈ acts -> (size f <= acts_size acts)%nat.
Proof.
  unfold acts_size. induction acts as [|a l IHl]; [by intros ?%not_elem_of_nil|].
  intros [<-|Hg]%elem_of_cons; simpl; [lia|]. specialize (IHl Hg). lia.
Qed.

Context (Hsized : sized).

(** A call of a functor returns when [n] is at least its size. *)
Lemma call_functor_effect n held ring w f :
  (size f <= n)%nat -> inv w -> lrep (get w) held ring ->
  exists w' ring' t, call_functor other body n w f = Ok w' /\ inv w' /\
    effect held ring ring' (size f - 1) (get w) (get w') (f :: t).
Proof.
  revert w f ring. induction n as [|n IH]; intros w f ring Hn I Hr; pose proof (Hsized f) as Hf; [lia|].
  cbn [call_functor]. destruct (gc_modify w (fun s => log_ran s f) I) as [I0 E0].
  destruct (do_lacts_effect (call_functor other body n) held ring (modify (fun s => log_ran s f) w) (body f))
    as (w' & ring' & t & -> & I' & E); [|done|by rewrite E0|].
  - intros g w1 ring1 Hg I1 Hr1. pose proof (acts_size_elem g (body f) Hg).
    destruct (IH w1 g ring1 ltac:(lia) I1 Hr1) as (w2 & ring2 & t & E & I2 & E2).
    exists w2, ring2, (g :: t). split_and!; [done|done|]. eapply effect_weaken; [|exact E2]. lia.
  - exists w', ring', t. split_and!; [done|done|]. rewrite E0 in E.
    destruct E as [? (g1 & g2 & ? & ? & ?) Hran ? ? ?].
    split; try done; [exists g1, g2; split_and!; try done; lia|].
    rewrite Hran. simpl. by rewrite <- app_assoc.
Qed.

(** Handlers return when the bound is at least the size of what they do. *)
Lemma handlers_effect n held ring w acts :
  (acts_size acts <= n)%nat -> inv w -> lrep (get w) held ring ->
  exists w' ring' t, handlers other body n w acts = Ok w' /\ inv w' /\
    effect held ring ring' (acts_size acts) (get w) (get w') t.
Proof.
  intros Hn I Hr. apply do_lacts_effect; [|done|done]. intros f w1 ring1 Hf I1 Hr1.
  pose proof (acts_size_elem f acts Hf).
  destruct (call_functor_effect n held ring1 w1 f ltac:(lia) I1 Hr1) as (w2 & ring2 & t & E & I2 & Ef).
  exists w2, ring2, (f :: t). split_and!; [done|done|]. eapply effect_weaken; [|exact Ef]. lia.
Qed.

(** The loop over the ring returns, having run all of it in order, then what
    was queued on the way. *)
Lemma drain_spec n ring w :
  (weight ring < n)%nat -> inv w -> pq_rep (pendingQueue_ (get w)) None ring ->
  exists w' t g2, drain other body n w = Ok w' /\ inv w' /\ pq_rep (pendingQueue_ (get w')) None [] /\
    ran (get w') = ran (get w) ++ t /\ ring `sublist_of` t /\
    pendingFunctors_ (get w') = pendingFunctors_ (get w) ++ g2 /\ (weight g2 <= weight ring)%nat /\
    callingPendingFunctors_ (get w') = callingPendingFunctors_ (get w) /\
    (quit_ (get w) = true -> quit_ (get w') = true) /\ looping_ (get w') = looping_ (get w).
Proof.
  revert ring w. induction n as [|n IH]; intros ring w Hn I Hr; [lia|]. cbn [drain].
  destruct ring as [|f ring].
  { rewrite (pq_peek_nil _ Hr). exists w, [], []. rewrite !app_nil_r. by split_and!. }
  destruct (pq_peek_cons _ _ _ Hr) as (off & -> & -> & Hr1).
  change (weight (f :: ring)) with (size f + weight ring)%nat in *. pose proof (Hsized f) as Hf.
  destruct (call_functor_effect n (Some off) (f :: ring) w f ltac:(lia) I (or_introl Hr1))
    as (w1 & ring1 & t & -> & I1 & [Hr2 (g1 & g2 & -> & F1 & W1) R1 C1 Q1 L1]).
  destruct Hr2 as [Hr2|(_ & ? & _)]; [|done]. cbn [mbind res_bind].
  set (g := fun s => set_pq s _). destruct (gc_modify w1 g I1) as [I2 E2].
  destruct (IH (ring ++ g1) (modify g w1)) as (w3 & t3 & g3 & -> & I3 & Hr3 & R3 & Sub & F3 & W3 & C3 & Q3 & L3).
  { rewrite weight_app. lia. }
  { done. }
  { rewrite E2. by eapply pq_consume_spec. }
  rewrite weight_app in W3. rewrite E2 in *. simpl in *.
  exists w3, (f :: t ++ t3), (g2 ++ g3). rewrite weight_app. split_and!; try done.
  - rewrite R3, R1. simpl. by rewrite <- app_assoc.
  - apply sublist_skip, sublist_inserts_l. trans (ring ++ g1); [by apply sublist_inserts_r|done].
  - by rewrite F3, F1, app_assoc.
  - lia.
  - congruence.
  - tauto.
  - congruence.
Qed.

Lemma call_all_spec n fs ring w :
  (weight fs <= n)%nat -> inv w -> lrep (get w) None ring ->
  exists w' ring' t, call_all other body n w fs = Ok w' /\ inv w' /\
    effect None ring ring' (weight fs) (get w) (get w') t /\ fs `sublist_of` t.
Proof.
  revert ring w. induction fs as [|f fs IH]; intros ring w Hn I Hr; cbn [call_all].
  { exists w, ring, []. split_and!; [done|done|by apply effect_refl|done]. }
  change (weight (f :: fs)) with (size f + weight fs)%nat in *.
  destruct (call_functor_effect n None ring w f ltac:(lia) I Hr) as (w1 & ring1 & t & -> & I1 & E1).
  destruct (IH ring1 w1 ltac:(lia) I1 (e_rep _ _ _ _ _ _ _ E1)) as (w2 & ring2 & t2 & E & I2 & E2 & Sub).
  exists w2, ring2, ((f :: t) ++ t2). split_and!; [done|done| |].
  - apply (effect_trans None ring ring1 ring2 (size f) (weight fs) (get w) (get w1) (get w2) (f :: t) t2); [|done].
    eapply effect_weaken; [|exact E1]. lia.
  - by apply sublist_skip, sublist_inserts_l.
Qed.

(** [doPendingFunctors] returns, having run everything that was pending when
    it was called: the ring first, then the fallback queue. *)
Lemma doPendingFunctors_spec n ring w :
  (weight ring + weight (pendingFunctors_ (get w)) < n)%nat -> inv w -> lrep (get w) None ring ->
  exists w' ring' t, doPendingFunctors other body n w = Ok w' /\ inv w' /\ lrep (get w') None ring' /\
    ran (get w') = ran (get w) ++ t /\ ring ++ pendingFunctors_ (get w) `sublist_of` t /\
    callingPendingFunctors_ (get w') = false /\ (quit_ (get w) = true -> quit_ (get w') = true) /\
    looping_ (get w') = looping_ (get w).
Proof.
  intros Hn I Hr. unfold doPendingFunctors. set (s := get w) in *.
  destruct (gc_modify w (fun s => set_callingP s true) I) as [I0 E0]. set (w0 := modify _ w) in *. fold s in E0.
  assert (exists w1 t1 g2, (if pq_isValid (pendingQueue_ (get w0)) then drain other body n w0 else Ok w0) = Ok w1 /\
    inv w1 /\ lrep (get w1) None [] /\ ran (get w1) = ran s ++ t1 /\ ring `sublist_of` t1 /\
    pendingFunctors_ (get w1) = pendingFunctors_ s ++ g2 /\ (weight g2 <= weight ring)%nat /\
    (quit_ s = true -> quit_ (get w1) = true) /\ looping_ (get w1) = looping_ s)
    as (w1 & t1 & g2 & -> & I1 & Hr1 & R1 & Sub1 & F1 & W1 & Q1 & L1).
  { rewrite E0. destruct Hr as [Hr|(Hv & _ & ->)]; simpl.
    - rewrite (pq_rep_valid _ _ _ Hr).
      destruct (drain_spec n ring w0 ltac:(lia) I0) as (w1 & t & g2 & E & ? & ? & R & ? & P & ? & _ & Q' & L);
        [by rewrite E0|]. rewrite E0 in R, P, Q', L. exists w1, t, g2. split_and!; try done. by left.
    - rewrite Hv. exists w0, [], []. rewrite !E0, !app_nil_r. split_and!; try done. by right. }
  cbn [mbind res_bind]. cbv zeta.
  destruct (gc_modify w1 (fun s => set_fb s []) I1) as [I1' E1]. set (w1' := modify _ w1) in *.
  destruct (call_all_spec n (pendingFunctors_ (get w1)) [] w1') as (w2 & ring2 & t2 & -> & I2 & E2 & Sub2).
  { rewrite F1, weight_app. lia. }
  { done. }
  { by rewrite E1. }
  cbn [mbind res_bind]. rewrite E1 in E2. destruct E2 as [Hr2 _ R2 C2 Q2 L2].
  destruct (gc_modify w2 (fun s => set_callingP s false) I2) as [I3 E3]. set (w3 := modify _ w2) in *.
  exists w3, ring2, (t1 ++ t2). rewrite E3. simpl in *. split_and!; try done.
  - by rewrite R2, R1, app_assoc.
  - apply sublist_app; [done|]. etrans; [|exact Sub2]. rewrite F1. by apply sublist_inserts_r.
  - tauto.
  - congruence.
Qed.
End world.
End spec.

(** The result does not depend on the bound once there is one. *)
Section mono.
Context {F Q W A : Type} `{PendingOps F Q} `{Part W (Loop F Q)}.
Context (other : W -> A -> res W) (body : F -> list (lact F A)).
Implicit Types (w : W).

Lemma do_lacts_approx call call' w acts :
  (forall w1 f, approx (call w1 f) (call' w1 f)) ->
  approx (do_lacts other call w acts) (do_lacts other call' w acts).
Proof.
  intros Hc. revert w. induction acts as [|a acts IH]; intros w; cbn [do_lacts]; [done|].
  apply approx_bind; [|done]. by destruct a; simpl.
Qed.

Lemma call_functor_approx n m w f :
  (n <= m)%nat -> approx (call_functor other body n w f) (call_functor other body m w f).
Proof.
  revert m w f. induction n as [|n IH]; intros m w f Hm; [apply approx_NoFuel|].
  destruct m as [|m]; [lia|]. apply do_lacts_approx. intros w1 g. apply IH. lia.
Qed.

Lemma handlers_approx n m w acts :
  (n <= m)%nat -> approx (handlers other body n w acts) (handlers other body m w acts).
Proof. intros Hm. apply do_lacts_approx. intros *. by apply call_functor_approx. Qed.

Lemma drain_approx n m w : (n <= m)%nat -> approx (drain other body n w) (drain other body m w).
Proof.
  revert m w. induction n as [|n IH]; intros m w Hm; [apply approx_NoFuel|].
  destruct m as [|m]; [lia|]. cbn [drain]. destruct (pq_peek _) as [node|]; [|done].
  apply approx_bind; [|intros w1; apply IH; lia].
  destruct (pq_data _ _); [|done]. apply call_functor_approx. lia.
Qed.

Lemma call_all_approx n m w fs :
  (n <= m)%nat -> approx (call_all other body n w fs) (call_all other body m w fs).
Proof.
  intros Hm. revert w. induction fs as [|f fs IH]; intros w; cbn [call_all]; [done|].
  apply approx_bind; [by apply call_functor_approx|done].
Qed.

Lemma doPendingFunctors_approx n m w :
  (n <= m)%nat -> approx (doPendingFunctors other body n w) (doPendingFunctors other body m w).
Proof.
  intros Hm. unfold doPendingFunctors. apply approx_bind; [|intros w1; apply approx_bind; [|done]].
  - destruct (pq_isValid _); [|done]. by apply drain_approx.
  - by apply call_all_approx.
Qed.

Lemma loop_rounds_approx {R} (handle : nat -> W -> R -> res W) n m w rounds :
  (forall w r, approx (handle n w r) (handle m w r)) -> (n <= m)%nat ->
  approx (loop_rounds other body handle n w rounds) (loop_rounds other body handle m w rounds).
Proof.
  intros Hh Hm. revert w. induction rounds as [|r rounds IH]; intros w; cbn [loop_rounds]; [done|].
  destruct (quit_ _); [done|]. apply approx_bind; [done|]. intros w1.
  apply approx_bind; [by apply doPendingFunctors_approx|done].
Qed.

Lemma loop_rounds_quit {R} (handle : nat -> W -> R -> res W) n w rounds :
  quit_ (get w) = true ->
  loop_rounds other body handle n w rounds = Ok (modify (fun s => set_looping s false) w).
Proof. intros Hq. destruct rounds; simpl; by rewrite Hq. Qed.
End mono.

(** ** A new loop

    With a ring of [2 ^ order] bytes, or without one when the kernel refused
    its mapping. *)
Section fresh.
Context {F : Type} (order : Z) (Ho : 6 <= order <= 31).
#[local] Instance fresh_ops : PendingOps F (MpscQueue F) := mpsc_ops order.
#[local] Instance fresh_pending : PendingQueue F (MpscQueue F) := mpsc_pending order Ho.

Lemma new_lrep env : lrep (EventLoop_new (MpscQueue_new env order) : Loop F (MpscQueue F)) None [].
Proof.
  unfold lrep. simpl. unfold MpscQueue_new, CircularBuffer_new.
  destruct (createBufferMirror env _) as [[data|] calls]; simpl; [left|by right].
  assert (u64 (Z.shiftl 1 order) = 2 ^ order) as ->.
  { rewrite Z.shiftl_1_l. apply u64_small. pose proof (Z.pow_lt_mono_r 2 order 64). lia. }
  pose proof (inv_init (F := F) order data Ho) as I. exists 0, 0, [].
  split_and!; try done. apply (v_slots _ _ I).
Qed.

(** What queueing some functors leaves in the two queues. *)
Definition queue_all (s : Loop F (MpscQueue F)) (calls : list (bool * F)) : Loop F (MpscQueue F) :=
  foldl (fun s bf => queueInLoop bf.1 s bf.2) s calls.

Lemma queueInLoop_queues b s f ring :
  lrep s None ring ->
  let s' := queueInLoop b s f in
  ran s' = ran s /\
  (pendingFunctors_ s' = pendingFunctors_ s ++ [f] /\ lrep s' None ring /\
     pendingQueue_ s' = pendingQueue_ s /\
     (pq_isValid (pendingQueue_ s) = false \/ capacity order <= length ring)%nat \/
   pendingFunctors_ s' = pendingFunctors_ s /\ lrep s' None (ring ++ [f]) /\
     pq_isValid (pendingQueue_ s) = true).
Proof.
  intros Hr. unfold queueInLoop.
  set (s1 := match (if pq_isValid _ then _ else _) with Some q' => _ | None => _ end).
  assert (forall b : bool, let s' := if b then wakeup s1 else s1 in
    ran s' = ran s1 /\ pendingFunctors_ s' = pendingFunctors_ s1 /\ pendingQueue_ s' = pendingQueue_ s1) as Hw.
  { by intros []. }
  destruct (Hw (negb b || callingPendingFunctors_ s1)) as (E1 & E2 & E3). cbv zeta in *.
  unfold lrep. rewrite E1, E2, E3. unfold s1. clear s1 Hw E1 E2 E3.
  destruct Hr as [Hr|(Hv & _ & ->)].
  - rewrite (pq_rep_valid _ _ _ Hr). pose proof (pq_enqueue_spec _ _ _ f Hr) as He.
    case_bool_decide as Hc.
    + rewrite He. split; [done|]. left. split_and!; try done; [by left|by right].
    + destruct He as (q' & -> & Hr'). split; [done|]. right.
      split_and!; [done|by left|done].
  - rewrite Hv. split; [done|]. left. split_and!; try done; [by right|by left].
Qed.

Lemma queue_all_spec env calls :
  let s := queue_all (EventLoop_new (MpscQueue_new env order)) calls in
  exists ring, lrep s None ring /\ ran s = [] /\ ring ++ pendingFunctors_ s ≡ₚ calls.*2 /\
    ((length calls <= capacity order)%nat -> ring ++ pendingFunctors_ s = calls.*2 /\
       (pendingFunctors_ s = [] \/ pq_isValid (pendingQueue_ s) = false)).
Proof.
  induction calls as [|[b f] calls IH] using rev_ind.
  { exists []. split_and!; try done; [apply new_lrep|]. intros _. split; [done|by left]. }
  unfold queue_all in *. rewrite foldl_app, fmap_app, length_app. simpl.
  destruct IH as (ring & Hr & R & P & Hexact). set (s := foldl _ _ calls) in *.
  destruct (queueInLoop_queues b s f ring Hr) as [R' [(Hf & Hr' & Hq & Hwhy)|(Hf & Hr' & Hv)]]; simpl in R', Hf, Hr'.
  - exists ring. rewrite R', Hf, app_assoc. split_and!; [done|done|by rewrite P|].
    intros Hlen. destruct Hexact as [<- Hor]; [lia|]. split; [done|].
    destruct Hwhy as [Hv|Hfull]; [right; by rewrite Hq|].
    exfalso. apply Permutation_length in P. rewrite length_app, length_fmap in P. simpl in *. lia.
  - exists (ring ++ [f]). rewrite R', Hf. split_and!; [done|done| |].
    + rewrite <- P, <- !app_assoc. apply Permutation_app_head. simpl. by rewrite Permutation_cons_append.
    + intros Hlen. destruct Hexact as [<- Hor]; [lia|].
      destruct Hor as [Hn|Hi]; [|simpl in *; congruence]. rewrite Hn, !app_nil_r. split; [done|by left].
Qed.
End fresh.

(** A handler that quits, or another thread that does while handlers run. *)
Section handlers.
Context {F Q A W : Type} `{PendingQueue F Q} `{PartLaws W (Loop F Q)}.
Context (other : W -> A -> res W) (inv : W -> Prop) (Hcode : good_code (Q := Q) other inv).
Context (body : F -> list (lact F A)) (size : F -> nat) (Hsized : sized body size).
Implicit Types (w : W).

Lemma do_lacts_app call w (a1 a2 : list (lact F A)) :
  do_lacts other call w (a1 ++ a2) = (w1 ← do_lacts other call w a1; do_lacts other call w1 a2).
Proof.
  revert w. induction a1 as [|a a1 IH]; intros w; cbn [app do_lacts]; [done|].
  destruct (do_lact other call w a); cbn [mbind res_bind]; [apply IH|done].
Qed.

Lemma acts_size_app (a1 a2 : list (lact F A)) :
  acts_size size (a1 ++ a2) = (acts_size size a1 + acts_size size a2)%nat.
Proof. unfold acts_size. induction a1; simpl; lia. Qed.

Lemma handlers_quit n ring w acts :
  (acts_size size acts <= n)%nat -> inv w -> lrep (get w) None ring -> LQuit ∈ acts \/ LForeignQuit ∈ acts ->
  exists w' ring' t, handlers other body n w acts = Ok w' /\ inv w' /\
    effect size None ring ring' (acts_size size acts) (get w) (get w') t /\ quit_ (get w') = true.
Proof.
  intros Hn I Hr Hin.
  assert (exists a1 a a2, acts = a1 ++ a :: a2 /\ (a = LQuit \/ a = LForeignQuit)) as (a1 & a & a2 & -> & Ha).
  { destruct Hin as [Hin|Hin]; apply list_elem_of_split in Hin as (a1 & a2 & ->); eauto 6. }
  destruct (handlers_effect body size other inv Hcode Hsized n None ring w (a1 ++ a :: a2) Hn I Hr)
    as (w' & ring' & t & E & I' & Ef).
  exists w', ring', t. split_and!; try done.
  rewrite acts_size_app in Hn. unfold acts_size in Hn at 2. simpl in Hn. change (sum_list_with _ a2) with (acts_size size a2) in Hn.
  destruct (handlers_effect body size other inv Hcode Hsized n None ring w a1 ltac:(lia) I Hr)
    as (w1 & ring1 & t1 & E1 & I1 & Ef1).
  unfold handlers in E, E1. rewrite do_lacts_app, E1 in E. cbn [mbind res_bind do_lacts] in E.
  assert (exists w2, do_lact other (call_functor other body n) w1 a = Ok w2 /\ inv w2 /\
    quit_ (get w2) = true /\ lrep (get w2) None ring1) as (w2 & Ea & I2 & Hq2 & Hr2).
  { pose proof (e_rep _ _ _ _ _ _ _ _ Ef1) as Hr1.
    destruct Ha as [->| ->]; eexists; (split; [done|]); (split; [by apply (gc_put _ _ Hcode)|]);
      unfold modify; rewrite !get_put; by split. }
  rewrite Ea in E. cbn [mbind res_bind] in E.
  destruct (handlers_effect body size other inv Hcode Hsized n None ring1 w2 a2 ltac:(lia) I2 Hr2)
    as (w3 & ring3 & t3 & E3 & _ & Ef3).
  unfold handlers in E3. rewrite E3 in E. injection E as <-. by apply (e_quit _ _ _ _ _ _ _ _ Ef3).
Qed.
End handlers.

(** A loop on its own: its functors do nothing else. *)
Definition nowhere {W} (w : W) (a : Empty_set) : res W := match a with end.

Lemma nowhere_good {F Q} : good_code (Q := Q) (F := F) (W := Loop F Q) nowhere (fun _ => True).
Proof. split; [done|]. intros _ []. Qed.

(** One call of a functor that queues itself. *)
Lemma requeue_call {F Q A} `{PendingQueue F Q} other (body : F -> list (lact F A)) (s : Loop F Q) (f : F) n off :
  body f = [LQueue f] -> pq_rep (pendingQueue_ s) (Some off) [f] -> (2 <= pq_capacity)%nat ->
  exists s1, call_functor other body (S n) s f = Ok s1 /\ pq_rep (pendingQueue_ s1) (Some off) [f; f].
Proof.
  intros Hb Hr Hc. cbn [call_functor]. rewrite Hb. simpl. unfold modify, queueInLoop. simpl.
  rewrite (pq_rep_valid _ _ _ Hr). pose proof (pq_enqueue_spec _ _ _ f Hr) as He. simpl in He.
  rewrite bool_decide_eq_false_2 in He by lia. destruct He as (q' & -> & Hr2). simpl.
  eexists. split; [done|]. by destruct (callingPendingFunctors_ s).
Qed.

(** ** Properties *)

(** C21: functors queued from any thread are not lost: the next
    [doPendingFunctors] returns (its result is the same for every large enough
    bound) and has run every one of them; and as long as they fit in the
    lock-free ring (or there is no ring at all) in the order in which they were
    queued.  The functors may queue others, as long as this ends. *)
Theorem pending_functors_run {F} (env : mirror_env) order (body : F -> list (lact F Empty_set)) (size : F -> nat) calls :
  6 <= order <= 31 -> sized body size ->
  let _ := mpsc_ops (F := F) order in
  let s := queue_all order (EventLoop_new (MpscQueue_new env order)) calls in
  exists n s', (forall m, (n <= m)%nat -> doPendingFunctors nowhere body m s = Ok s') /\
    calls.*2 ⊆+ ran s' /\ callingPendingFunctors_ s' = false /\
    ((length calls <= capacity order)%nat -> calls.*2 `sublist_of` ran s').
Proof.
  intros Ho Hs ops s. pose proof (mpsc_pending (F := F) order Ho) as PQ.
  destruct (queue_all_spec order Ho env calls) as (ring & Hr & R & P & Hexact).
  set (n := S (weight size ring + weight size (pendingFunctors_ s))).
  destruct (doPendingFunctors_spec body size nowhere _ nowhere_good Hs n ring s ltac:(unfold n; simpl; lia) ltac:(done) Hr)
    as (s' & ring' & t & E & _ & _ & R' & Sub & C' & _). simpl in *.
  exists n, s'. assert (ran s' = t) as Et by (rewrite R'; unfold s; by rewrite R). rewrite Et. split_and!; try done.
  - intros m Hm. eapply approx_Ok; [by apply (doPendingFunctors_approx nowhere body n m)|exact E].
  - rewrite <- P. by apply sublist_submseteq.
  - intros Hlen. destruct (Hexact Hlen) as [<- _]. done.
Qed.

(** C22: [quit] works: if a handler of a round calls it, or another thread
    does meanwhile, [loop] returns after that round, having run everything that
    was pending, whatever could come after and whatever else the code does to
    the rest of the program. *)
Theorem loop_quits {F Q A W} `{PendingQueue F Q} `{PartLaws W (Loop F Q)} (other : W -> A -> res W) inv
    (body : F -> list (lact F A)) (size : F -> nat) (w : W) ring acts rest :
  good_code (Q := Q) other inv -> inv w ->
  sized body size -> lrep (get w) None ring -> quit_ (get w) = false ->
  LQuit ∈ acts \/ LForeignQuit ∈ acts ->
  exists n w' t, (forall m, (n <= m)%nat -> loop other body (handlers other body) m w (acts :: rest) = Ok w') /\
    inv w' /\ looping_ (get w') = false /\ quit_ (get w') = true /\
    ran (get w') = ran (get w) ++ t /\ ring ++ pendingFunctors_ (get w) `sublist_of` t.
Proof.
  intros Hcode I Hs Hr Hq Hin. set (w0 := modify (fun s => set_looping s true) w).
  assert (inv w0 /\ get w0 = set_looping (get w) true) as [I0 E0] by by apply (gc_modify other inv Hcode w).
  set (n := S (weight size ring + weight size (pendingFunctors_ (get w)) + acts_size size acts)).
  destruct (handlers_quit other inv Hcode body size Hs n ring w0 acts) as (w1 & ring1 & t1 & E1 & I1 & Ef & Hq1);
    [unfold n; lia|done|by rewrite E0|done|].
  destruct (e_queues _ _ _ _ _ _ _ _ Ef) as (g1 & g2 & -> & F1 & W1). rewrite E0 in F1. simpl in F1.
  destruct (doPendingFunctors_spec body size other inv Hcode Hs n (ring ++ g1) w1)
    as (w2 & ring2 & t2 & E2 & I2 & _ & R2 & Sub & _ & Hq2 & L2).
  { rewrite F1, !weight_app. unfold n. lia. }
  { done. }
  { apply Ef. }
  exists n, (modify (fun s => set_looping s false) w2), (t1 ++ t2).
  assert (get (modify (fun s => set_looping s false) w2) = set_looping (get w2) false) as E3 by apply get_put.
  rewrite E3. split_and!.
  - intros m Hm. unfold loop. fold w0. cbn [loop_rounds]. rewrite E0. cbn [set_looping quit_]. rewrite Hq.
    rewrite (approx_Ok _ _ _ (handlers_approx other body n m w0 acts Hm) E1). cbn [mbind res_bind].
    rewrite (approx_Ok _ _ _ (doPendingFunctors_approx other body n m w1 Hm) E2). cbn [mbind res_bind].
    apply loop_rounds_quit. auto.
  - by apply (gc_put _ _ Hcode).
  - done.
  - simpl. auto.
  - simpl. rewrite R2, (e_ran _ _ _ _ _ _ _ _ Ef), E0. by rewrite app_assoc.
  - apply sublist_inserts_l. etrans; [|exact Sub]. rewrite F1.
    apply sublist_app; by apply sublist_inserts_r.
Qed.

(** C38: [doPendingFunctors] takes functors from the ring until it is empty, so
    a functor that queues itself again is run for ever within one call: it never
    returns, and the loop never polls again. *)
Theorem requeue_never_returns {F Q} `{PendingQueue F Q} (body : F -> list (lact F Empty_set)) (s : Loop F Q) (f : F) n :
  body f = [LQueue f] -> pq_rep (pendingQueue_ s) None [f] -> (2 <= pq_capacity)%nat ->
  doPendingFunctors nowhere body n s = Fault NoFuel.
Proof.
  intros Hb Hr Hc. unfold doPendingFunctors, modify. cbn [get put part_self]. set (s0 := set_callingP s true).
  change (pendingQueue_ s0) with (pendingQueue_ s). rewrite (pq_rep_valid _ _ _ Hr).
  assert (forall s, pq_rep (pendingQueue_ s) None [f] -> drain nowhere body n s = Fault NoFuel) as ->; [|done..].
  clear s s0 Hr. induction n as [|n IH]; intros s Hr; [done|].
  destruct (pq_peek_cons _ _ _ Hr) as (off & Ep & Ed & Hr1).
  assert (n = 0%nat \/ exists s1, call_functor nowhere body n s f = Ok s1 /\
    pq_rep (pendingQueue_ s1) (Some off) [f; f]) as [->|(s1 & E & Hr2)].
  { destruct n as [|n']; [by left|right]. by apply requeue_call. }
  { cbn [drain get put part_self]. by rewrite Ep, Ed. }
  cbn [drain get put part_self]. rewrite Ep, Ed, E. cbn [mbind res_bind]. apply (IH (set_pq s1 _)). by eapply pq_consume_spec.
Qed.

(** ** The theorems at a concrete loop

    The ring of the source, [2 ^ 16] bytes; functor 1 queues functor 2. *)
Definition ex_env : mirror_env := mkEnv 3 0 0 4096 4096 (4096 + 65536) eq_refl.
Definition ex_body (f : nat) : list (lact nat Empty_set) := if Nat.eqb f 1 then [LQueue 2%nat] else [].
Definition ex_size (f : nat) : nat := if Nat.eqb f 1 then 2 else 1.
Definition ex_calls : list (bool * nat) := [(false, 1%nat); (true, 5%nat); (false, 7%nat)].

Lemma ex_sized : sized ex_body ex_size.
Proof. intros f. unfold ex_body, ex_size. destruct (Nat.eqb f 1); unfold acts_size; simpl; lia. Qed.

Lemma pending_functors_run_witness :
  let _ := mpsc_ops (F := nat) 16 in
  let s := queue_all 16 (EventLoop_new (MpscQueue_new ex_env 16)) ex_calls in
  exists n s', (forall m, (n <= m)%nat -> doPendingFunctors nowhere ex_body m s = Ok s') /\
    ex_calls.*2 ⊆+ ran s' /\ callingPendingFunctors_ s' = false /\
    ((length ex_calls <= capacity 16)%nat -> ex_calls.*2 `sublist_of` ran s').
Proof. apply (pending_functors_run ex_env 16 ex_body ex_size ex_calls); [lia|exact ex_sized]. Defined.

Section ex.
#[local] Instance ex_ops : PendingOps nat (MpscQueue nat) := mpsc_ops 16.
#[local] Instance ex_pending : PendingQueue nat (MpscQueue nat) := mpsc_pending 16 ltac:(lia).

Definition ex_loop : Loop nat (MpscQueue nat) := EventLoop_new (MpscQueue_new ex_env 16).

(** Functor 1 queues 2 while it runs: 2 runs after what was queued before. *)
Example ex_order :
  (s ← doPendingFunctors nowhere ex_body 10 (queue_all 16 ex_loop ex_calls); Ok (ran s))
  = Ok [1; 5; 7; 2]%nat.
Proof. vm_compute. reflexivity. Qed.

Lemma loop_quits_witness :
  exists n s' t,
    (forall m, (n <= m)%nat ->
       loop nowhere ex_body (handlers nowhere ex_body) m ex_loop
         [[LQueue 1%nat; LForeignQuit; LQueue 4%nat]; [LQueue 9%nat]] = Ok s') /\
    True /\ looping_ s' = false /\ quit_ s' = true /\
    ran s' = ran ex_loop ++ t /\ [] ++ pendingFunctors_ ex_loop `sublist_of` t.
Proof.
  refine (loop_quits (W := Loop nat (MpscQueue nat)) nowhere (fun _ => True) ex_body ex_size ex_loop []
            [LQueue 1%nat; LForeignQuit; LQueue 4%nat] [[LQueue 9%nat]] _ _ _ _ _ _).
  - apply nowhere_good.
  - exact I.
  - exact ex_sized.
  - exact (new_lrep 16 ltac:(lia) ex_env).
  - reflexivity.
  - right. right. left.
Defined.

Lemma ex_self_rep : pq_rep (pendingQueue_ (queueInLoop false ex_loop 3%nat)) None [3%nat].
Proof.
  destruct (new_lrep (F := nat) 16 ltac:(lia) ex_env) as [Hr|(Hv & _)]; [|discriminate Hv].
  pose proof (pq_enqueue_spec _ _ _ 3%nat Hr) as He.
  rewrite bool_decide_eq_false_2 in He by (vm_compute; lia). destruct He as (q' & E & Hr').
  assert (pq_isValid (pendingQueue_ ex_loop) = true) as Hv by exact (pq_rep_valid _ _ _ Hr).
  assert (pq_enqueue (pendingQueue_ ex_loop) 3%nat = Some q') as E' by exact E.
  unfold queueInLoop. rewrite Hv, E'. exact Hr'.
Qed.

Lemma requeue_never_returns_witness :
  doPendingFunctors nowhere (fun f : nat => [LQueue f]) 1000 (queueInLoop false ex_loop 3%nat) = Fault NoFuel.
Proof.
  apply (requeue_never_returns (fun f : nat => [LQueue f]) _ 3%nat 1000).
  - reflexivity.
  - exact ex_self_rep.
  - vm_compute. lia.
Defined.
End ex.

(** when the ring is full, order is lost: a functor in the fallback queue
    runs after functors that were queued later.  With a ring of two nodes,
    functors 1, 4 and 2 are queued in this order; while 4 runs, another thread
    queues 3, which overtakes 2. *)
Theorem full_ring_reorders :
  let _ := mpsc_ops (F := nat) 7 in
  let body f : list (lact nat Empty_set) := if Nat.eqb f 4 then [LForeign 3%nat] else [] in
  let env := mkEnv 3 0 0 4096 4096 (4096 + 128) eq_refl in
  (s ← doPendingFunctors nowhere body 10
         (queue_all 7 (EventLoop_new (MpscQueue_new env 7)) [(false, 1%nat); (false, 4%nat); (false, 2%nat)]);
   Ok (ran s)) = Ok [1; 4; 3; 2]%nat.
Proof. vm_compute. reflexivity. Qed.

(** ** Timers of the loop

    [runAt], [runAfter] and [runEvery] on the loop's thread, with the clock of
    the timer queue as [steady_clock::now()]. *)
Section timers.
Context (alloc : gmap Z Timer -> Z).

Definition runAt (tq : TimerQueue) (time : Z) (cb : nat) : res (TimerId * TimerQueue) :=
  addTimer alloc tq cb time 0.

Definition runAfter (tq : TimerQueue) (delay : Z) (cb : nat) : res (TimerId * TimerQueue) :=
  d ← us_to_ns delay;
  time ← i64 (clock tq + d);
  runAt tq time cb.

Definition runEvery (tq : TimerQueue) (interval : Z) (cb : nat) : res (TimerId * TimerQueue) :=
  d ← us_to_ns interval;
  time ← i64 (clock tq + d);
  addTimer alloc tq cb time interval.

(** The overloads for a [duration<int64_t, ratio<num, den>>]: [duration_cast]
    multiplies by the reduced ratio of the two periods, in [int64_t], and
    truncates. *)
Definition duration_to_us (num den count : Z) : res Z :=
  let g := Z.gcd (num * us_per_s) den in
  n ← i64 (count * (num * us_per_s / g));
  Ok (Z.quot n (den / g)).

Definition runAfter_duration (tq : TimerQueue) (num den count : Z) (cb : nat) : res (TimerId * TimerQueue) :=
  d ← duration_to_us num den count; runAfter tq d cb.
Definition runEvery_duration (tq : TimerQueue) (num den count : Z) (cb : nat) : res (TimerId * TimerQueue) :=
  d ← duration_to_us num den count; runEvery tq d cb.

Definition loop_cancel (tq : TimerQueue) (id : TimerId) : res TimerQueue := TimerQueue.cancel tq id.

(** *** Seconds as [double]

    An IEEE 754 double is a [spec_float]; [duration_cast] multiplies by 10^6
    as doubles and truncates; a result that is no [int64_t] is undefined. *)
Definition double_of (m e : Z) : spec_float := binary_normalize 53 1024 m e false.   (* m * 2^e, rounded *)
Definition double_mul (x y : spec_float) : spec_float := SFmul 53 1024 x y.
Definition double_to_i64 (x : spec_float) : res Z :=
  match x with
  | S754_zero _ => Ok 0
  | S754_finite s m e =>
      let a := if 0 <=? e then Z.pos m * 2 ^ e else Z.pos m / 2 ^ (- e) in i64 (if s then - a else a)
  | S754_infinity _ | S754_nan => Fault SignedOverflow
  end.
Definition secondsToTimeDelta (seconds : spec_float) : res Z :=
  double_to_i64 (double_mul seconds (double_of 1000000 0)).

Definition runAfter_seconds (tq : TimerQueue) (delay : spec_float) (cb : nat) : res (TimerId * TimerQueue) :=
  d ← secondsToTimeDelta delay; runAfter tq d cb.
Definition runEvery_seconds (tq : TimerQueue) (interval : spec_float) (cb : nat) : res (TimerId * TimerQueue) :=
  d ← secondsToTimeDelta interval; runEvery tq d cb.
End timers.

(** 2500 ms, 1 s, nanoseconds truncated toward zero, and too many hours. *)
Example duration_examples :
  duration_to_us 1 1000 2500 = Ok 2500000 /\ duration_to_us 1 1 1 = Ok 1000000 /\
  duration_to_us 1 1000000000 (-1999) = Ok (-1) /\ duration_to_us 3600 1 (2 ^ 32) = Fault SignedOverflow.
Proof. vm_compute. done. Qed.

(** 2.5 seconds, and an infinite delay; the double nearest to 1.001 comes out
    one microsecond short. *)
Example seconds_examples :
  secondsToTimeDelta (double_of 5 (-1)) = Ok 2500000 /\
  secondsToTimeDelta (S754_infinity false) = Fault SignedOverflow /\
  secondsToTimeDelta (SFdiv 53 1024 (double_of 1001 0) (double_of 1000 0)) = Ok 1000999.
Proof. vm_compute. done. Qed.

(** [runEvery] schedules a timer whose first deadline is one interval from
    now and which repeats at that interval; [runAfter] one that does not
    repeat.  Neither disturbs the timers already scheduled. *)
Theorem runEvery_schedules alloc now evs tq interval cb :
  alloc_ok alloc -> clock_ok now -> events_ok (TimerQueue_new now) evs ->
  run_events alloc (TimerQueue_new now) evs = Ok tq ->
  0 < interval -> interval_ok interval -> numCreated tq + 1 < max_timers ->
  exists id tq1 tq2, runEvery alloc tq interval cb = Ok (id, tq1) /\
    runAfter alloc tq interval cb = Ok (id, tq2) /\
    heap tq1 = <[id.1 := mkTimer cb (clock tq + interval * 1000) interval true id.2]> (heap tq) /\
    heap tq2 = <[id.1 := mkTimer cb (clock tq + interval * 1000) 0 false id.2]> (heap tq) /\
    heap tq !! id.1 = None /\ quiet tq1 /\ quiet tq2.
Proof.
  intros Halloc Hnow Hev E Hpos Hiv Hn.
  destruct (reach_quiet alloc Halloc now evs tq Hnow Hev E) as [I Ha Hc].
  pose proof (i_clock _ _ I) as Hclk. unfold clock_ok, interval_ok, ns_per_us in *.
  unfold runEvery, runAfter, runAt, us_to_ns, ns_per_us. rewrite !i64_Ok by lia. cbn [mbind res_bind].
  rewrite !i64_Ok by lia. cbn [mbind res_bind].
  destruct (addTimer_spec alloc Halloc [] _ tq cb (clock tq + interval * 1000) interval I Ha)
    as (s1 & -> & I1 & A1 & F1 & Hf & H1 & _); [lia|done|done|].
  destruct (addTimer_spec alloc Halloc [] _ tq cb (clock tq + interval * 1000) 0 I Ha)
    as (s2 & -> & I2 & A2 & F2 & _ & H2 & _); [lia|unfold interval_ok; lia|done|].
  eexists _, s1, s2. split_and!; try done.
  - rewrite H1. by rewrite (proj2 (Z.ltb_lt 0 interval) Hpos).
  - split; [done..|by rewrite (f_calling _ _ _ _ F1)].
  - split; [done..|by rewrite (f_calling _ _ _ _ F2)].
Qed.

Lemma runEvery_schedules_witness :
  exists id tq1 tq2, runEvery alloc_first ex_state 250 8 = Ok (id, tq1) /\
    runAfter alloc_first ex_state 250 8 = Ok (id, tq2) /\
    heap tq1 = <[id.1 := mkTimer 8 (clock ex_state + 250 * 1000) 250 true id.2]> (heap ex_state) /\
    heap tq2 = <[id.1 := mkTimer 8 (clock ex_state + 250 * 1000) 0 false id.2]> (heap ex_state) /\
    heap ex_state !! id.1 = None /\ quiet tq1 /\ quiet tq2.
Proof.
  apply (runEvery_schedules alloc_first ex_now ex_events ex_state 250 8).
  - exact alloc_first_ok.
  - exact ex_clock_ok.
  - exact ex_events_ok.
  - exact ex_reached.
  - lia.
  - vm_compute. discriminate.
  - vm_compute. reflexivity.
Defined.
