(* ===== verification/LoopWakeup.v ===== *)
(** * LoopWakeup: other threads and the sleeping loop

    The calls of [queueInLoop] and [quit] by any number of threads, interleaved
    with [EventLoop::loop] at the granularity at which they can interfere: the
    reservation of a node, its commit, the store to [quit_] and the write to the
    eventfd are separate steps, and so are the test of [quit_], the return from
    [epoll_wait], the read of the eventfd, each functor, and the swap of the
    fallback queue.  The loop's own thread may also queue and quit before and
    after [loop()], when nobody is woken.  The lock-free ring appears as the FIFO queue that
    MpscQueue.v proves it is ([mpsc_refines_fifo]): a sequence of reserved nodes,
    each committed or not; whether a reservation finds room is left open. *)

From S2P Require Import Prelude.

Section wakeup.
Context {F : Type}.

(** Where another thread stands in [queueInLoop] or [quit]. *)
Inductive wprod : Type :=
| WIdle
| WReserved (f : F)          (* reserve() returned a node *)
| WEnqueued                  (* the functor is in a queue; wakeup() follows *)
| WQuitting.                 (* quit_ is set; wakeup() follows *)

(** Where the loop stands. *)
Inductive wpc : Type :=
| WStart                     (* loop() is not called yet *)
| WTop                       (* while (!quit_) *)
| WPoll                      (* in epoll_wait *)
| WEvents (woken : bool)     (* the handlers; [woken]: the eventfd is still to be read *)
| WDrain                     (* the loop over the ring in doPendingFunctors *)
| WFallback (l : list F)     (* the loop over the swapped fallback queue *)
| WExited.                   (* loop() returned *)

(** A node of the ring: its functor, the thread that reserved it ([None]: the
    loop's own), whether it is committed. *)
Definition wnode : Type := F * option nat * bool.

Record wsys : Type := mkW {
  wring : list wnode;
  wfb : list F;
  wev : nat;                 (* the eventfd counter *)
  wquit : bool;
  pc : wpc;
  wprods : gmap nat wprod;
  wqueued : list F;          (* history: functors queued *)
  wran : list F;             (* history: functors run *)
  wearly : list F;           (* history: those the loop's thread queued before loop() *)
  wpolled : bool             (* history: epoll_wait has returned *)
}.

Implicit Types (s : wsys) (t : nat) (f : F).

Definition w_init : wsys := mkW [] [] 0 false WStart ∅ [] [] [] false.

Definition wprod_of s t : wprod := default WIdle (wprods s !! t).

Definition w_ring s l :=
  mkW l (wfb s) (wev s) (wquit s) (pc s) (wprods s) (wqueued s) (wran s) (wearly s) (wpolled s).
Definition w_fb s l :=
  mkW (wring s) l (wev s) (wquit s) (pc s) (wprods s) (wqueued s) (wran s) (wearly s) (wpolled s).
Definition w_ev s n :=
  mkW (wring s) (wfb s) n (wquit s) (pc s) (wprods s) (wqueued s) (wran s) (wearly s) (wpolled s).
Definition w_quit s b :=
  mkW (wring s) (wfb s) (wev s) b (pc s) (wprods s) (wqueued s) (wran s) (wearly s) (wpolled s).
Definition w_pc s c :=
  mkW (wring s) (wfb s) (wev s) (wquit s) c (wprods s) (wqueued s) (wran s) (wearly s) (wpolled s).
Definition w_prod s t p :=
  mkW (wring s) (wfb s) (wev s) (wquit s) (pc s) (<[t := p]> (wprods s)) (wqueued s) (wran s) (wearly s) (wpolled s).
Definition w_log s f :=
  mkW (wring s) (wfb s) (wev s) (wquit s) (pc s) (wprods s) (wqueued s ++ [f]) (wran s) (wearly s) (wpolled s).
Definition w_run s f :=
  mkW (wring s) (wfb s) (wev s) (wquit s) (pc s) (wprods s) (wqueued s) (wran s ++ [f]) (wearly s) (wpolled s).
(** The loop's thread queues before [loop()]; [epoll_wait] returns. *)
Definition w_early s f :=
  mkW (wring s) (wfb s) (wev s) (wquit s) (pc s) (wprods s) (wqueued s) (wran s) (wearly s ++ [f]) (wpolled s).
Definition w_events s woken :=
  mkW (wring s) (wfb s) (wev s) (wquit s) (WEvents woken) (wprods s) (wqueued s) (wran s) (wearly s) true.

(** [commit] of the node thread [t] reserved. *)
Definition commit_node t (n : wnode) : wnode :=
  if decide (n.1.2 = Some t) then (n.1, true) else n.

(** The loop's thread queues a functor: into the ring, or the fallback queue. *)
Definition own_queue s (in_ring : bool) f : wsys :=
  let s1 := w_log s f in
  if in_ring then w_ring s1 (wring s1 ++ [(f, None, true)]) else w_fb s1 (wfb s1 ++ [f]).

Inductive wlabel : Type :=
| XReserve (t : nat) (f : F) | XCommit (t : nat) | XFallback (t : nat) (f : F)
| XQuit (t : nat) | XWake (t : nat)
| XLoop | XTop | XPollWoken | XPollOther | XRead | XOwnQueue (in_ring : bool) (f : F) | XOwnQuit | XEventsDone
| XRunRing | XRingDone | XRunFallback | XFallbackDone.

(** The loop's thread runs user code before and after [loop()], and the handlers
    and functors of a round in [WEvents], [WDrain] and [WFallback];
    [callingPendingFunctors_] is set in the last two. *)
Definition outside (c : wpc) : bool := match c with WStart | WExited => true | _ => false end.
Definition in_handlers (c : wpc) : bool := match c with WEvents _ => true | _ => false end.
Definition calling (c : wpc) : bool := match c with WDrain | WFallback _ => true | _ => false end.

(** One step; [None] when it is not possible in this state. *)
Definition wstep s (l : wlabel) : option wsys :=
  match l with
  | XReserve t f =>
      match wprod_of s t with
      | WIdle => Some (w_prod (w_ring (w_log s f) (wring s ++ [(f, Some t, false)])) t (WReserved f))
      | _ => None end
  | XCommit t =>
      match wprod_of s t with
      | WReserved _ => Some (w_prod (w_ring s (commit_node t <$> wring s)) t WEnqueued)
      | _ => None end
  | XFallback t f =>
      match wprod_of s t with
      | WIdle => Some (w_prod (w_fb (w_log s f) (wfb s ++ [f])) t WEnqueued)
      | _ => None end
  | XQuit t =>
      match wprod_of s t with
      | WIdle => Some (w_prod (w_quit s true) t WQuitting)
      | _ => None end
  | XWake t =>
      match wprod_of s t with
      | WEnqueued | WQuitting => Some (w_prod (w_ev s (S (wev s))) t WIdle)
      | _ => None end
  | XLoop => match pc s with WStart | WExited => Some (w_pc s WTop) | _ => None end
  | XTop => match pc s with WTop => Some (w_pc s (if wquit s then WExited else WPoll)) | _ => None end
  | XPollWoken => match pc s, wev s with WPoll, S _ => Some (w_events s true) | _, _ => None end
  | XPollOther => match pc s with WPoll => Some (w_events s false) | _ => None end
  | XRead => match pc s with WEvents true => Some (w_pc (w_ev s 0) (WEvents false)) | _ => None end
  | XOwnQueue in_ring f =>
      if outside (pc s) then Some (own_queue (match pc s with WStart => w_early s f | _ => s end) in_ring f)
      else if in_handlers (pc s) then Some (own_queue s in_ring f)
      else if calling (pc s) then Some (let s1 := own_queue s in_ring f in w_ev s1 (S (wev s1)))
      else None
  | XOwnQuit => if outside (pc s) || in_handlers (pc s) || calling (pc s) then Some (w_quit s true) else None
  | XEventsDone => match pc s with WEvents false => Some (w_pc s WDrain) | _ => None end
  | XRunRing =>
      match pc s, wring s with
      | WDrain, (f, _, true) :: ring' => Some (w_run (w_ring s ring') f)
      | _, _ => None end
  | XRingDone =>
      match pc s, wring s with
      | WDrain, [] | WDrain, (_, _, false) :: _ => Some (w_pc (w_fb s []) (WFallback (wfb s)))
      | _, _ => None end
  | XRunFallback =>
      match pc s with WFallback (f :: l) => Some (w_run (w_pc s (WFallback l)) f) | _ => None end
  | XFallbackDone => match pc s with WFallback [] => Some (w_pc s WTop) | _ => None end
  end.

Fixpoint wrun s (ls : list wlabel) : option wsys :=
  match ls with [] => Some s | l :: ls' => s' ← wstep s l; wrun s' ls' end.

Definition wreach s : Prop := exists ls, wrun w_init ls = Some s.

(** ** The invariant *)
Definition inflight s : Prop := exists t, wprod_of s t <> WIdle.
Definition signalled s : Prop := (0 < wev s)%nat \/ inflight s.

(** Does the loop have to be woken for what is pending? *)
Definition asleep (c : wpc) : bool :=
  match c with WStart | WTop | WPoll | WFallback _ => true | _ => false end.

Definition batch (c : wpc) : list F := match c with WFallback l => l | _ => [] end.
Definition pending s : list F := ((fun n : wnode => n.1.1) <$> wring s) ++ wfb s.

(** What may be pending in a loop nobody wakes: before the first [epoll_wait]
    returned, what its own thread had queued before [loop()]. *)
Definition unwoken s : list F := if wpolled s then [] else wearly s.

Record winv s : Prop := mkWInv {
  w_uncommitted f (o : option nat) : (f, o, false) ∈ wring s ->
    exists t g, o = Some t /\ wprod_of s t = WReserved g;
  w_pending : asleep (pc s) = true -> wquit s = false -> signalled s \/ pending s ≡ₚ unwoken s;
  w_quitting : pc s = WPoll -> wquit s = true -> signalled s;
  w_exited : pc s = WExited -> wquit s = true;
  w_start : pc s = WStart -> wpolled s = false;
  w_round : in_handlers (pc s) || calling (pc s) = true -> wpolled s = true;
  w_conserved : wqueued s ≡ₚ wran s ++ batch (pc s) ++ pending s
}.

Lemma wprod_of_insert s t p t' :
  wprod_of (w_prod s t p) t' = if decide (t' = t) then p else wprod_of s t'.
Proof.
  unfold wprod_of. simpl. rewrite lookup_insert. repeat case_decide; simpl; congruence.
Qed.

Lemma inflight_insert s t p : p <> WIdle -> inflight (w_prod s t p).
Proof. intros Hp. exists t. by rewrite wprod_of_insert, decide_True. Qed.

Lemma signalled_ev s n : (0 < n)%nat -> signalled (w_ev s n).
Proof. by left. Qed.

Lemma signalled_insert s t p : p <> WIdle -> signalled (w_prod s t p).
Proof. intros Hp. right. by apply inflight_insert. Qed.

Lemma pending_ring s l : pending (w_ring s l) = ((fun n : wnode => n.1.1) <$> l) ++ wfb s.
Proof. done. Qed.

(** Steps that only append a functor to one of the queues. *)
Lemma conserved_ring s f n :
  n.1.1 = f -> wqueued s ≡ₚ wran s ++ batch (pc s) ++ pending s ->
  wqueued s ++ [f] ≡ₚ wran s ++ batch (pc s) ++ ((fun n : wnode => n.1.1) <$> (wring s ++ [n])) ++ wfb s.
Proof.
  intros <- ->. unfold pending. rewrite fmap_app, <- !app_assoc. simpl.
  do 3 apply Permutation_app_head. apply Permutation_app_comm.
Qed.

Lemma conserved_fb s f :
  wqueued s ≡ₚ wran s ++ batch (pc s) ++ pending s ->
  wqueued s ++ [f] ≡ₚ wran s ++ batch (pc s) ++ ((fun n : wnode => n.1.1) <$> wring s) ++ wfb s ++ [f].
Proof. intros ->. unfold pending. by rewrite <- !app_assoc. Qed.

Lemma uncommitted_insert s t p :
  (forall f (o : option nat), (f, o, false) ∈ wring s -> exists t g, o = Some t /\ wprod_of s t = WReserved g) ->
  wprod_of s t = WIdle \/ wprod_of s t = WEnqueued \/ wprod_of s t = WQuitting ->
  forall f (o : option nat), (f, o, false) ∈ wring s -> exists t' g, o = Some t' /\ wprod_of (w_prod s t p) t' = WReserved g.
Proof.
  intros H Ht f o Hin. destruct (H f o Hin) as (t' & g & -> & Hg). exists t', g. split; [done|].
  rewrite wprod_of_insert, decide_False; [done|]. intros ->. rewrite Hg in Ht. naive_solver.
Qed.

Lemma winv_producer s s' l t :
  l = XCommit t \/ l = XQuit t \/ l = XWake t \/ (exists f, l = XReserve t f \/ l = XFallback t f) ->
  winv s -> wstep s l = Some s' -> winv s'.
Proof.
  intros Hl [Hu Hp Hq Hx Hs Hr Hc]. destruct Hl as [->|[->|[->|(f & [->| ->])]]]; simpl.
  - destruct (wprod_of s t) eqn:Ht; [done| |done..]. intros [= <-]. split; simpl; try done.
    + intros g o (n & Hn & Hin)%list_elem_of_fmap. unfold commit_node in Hn. case_decide as Hd; [done|].
      destruct n as [[g' o'] b]. simpl in *. injection Hn as -> -> <-.
      destruct (Hu g' o' Hin) as (t' & g & -> & Hg). exists t', g. split; [done|].
      unfold wprod_of. simpl. rewrite lookup_insert_ne by congruence. exact Hg.
    + intros _ _. left. by apply signalled_insert.
    + intros _ _. by apply signalled_insert.
    + unfold pending in *. simpl. rewrite Hc. do 2 apply Permutation_app_head.
      apply Permutation_app_tail. rewrite <- list_fmap_compose.
      erewrite list_fmap_ext; [reflexivity|]. intros i n _. unfold commit_node. simpl. by case_decide.
  - destruct (wprod_of s t) eqn:Ht; [|done..]. intros [= <-]. split; simpl; try done.
    + exact (uncommitted_insert s t WQuitting Hu (or_introl Ht)).
    + intros _ _. by apply signalled_insert.
  - assert (forall P : Prop, (wprod_of s t = WEnqueued \/ wprod_of s t = WQuitting ->
      w_prod (w_ev s (S (wev s))) t WIdle = s' -> P) ->
      match wprod_of s t with
      | WEnqueued | WQuitting => Some (w_prod (w_ev s (S (wev s))) t WIdle)
      | _ => None end = Some s' -> P) as Hcase.
    { intros P HP. destruct (wprod_of s t); intros [= E]; eauto. }
    apply Hcase. intros Ht <-. split; simpl; try done.
    + exact (uncommitted_insert s t WIdle Hu (or_intror Ht)).
    + intros _ _. left. left. simpl. lia.
    + intros _ _. left. simpl. lia.
  - destruct (wprod_of s t) eqn:Ht; [|done..]. intros [= <-]. split; simpl; try done.
    + intros g o [Hin|Hin%list_elem_of_singleton]%elem_of_app.
      * exact (uncommitted_insert s t (WReserved f) Hu (or_introl Ht) g o Hin).
      * injection Hin as -> ->. exists t, f. split; [done|]. by unfold wprod_of; simpl; rewrite lookup_insert_eq.
    + intros _ _. left. by apply signalled_insert.
    + intros _ _. by apply signalled_insert.
    + exact (conserved_ring s f (f, Some t, false) eq_refl Hc).
  - destruct (wprod_of s t) eqn:Ht; [|done..]. intros [= <-]. split; simpl; try done.
    + exact (uncommitted_insert s t WEnqueued Hu (or_introl Ht)).
    + intros _ _. left. by apply signalled_insert.
    + intros _ _. by apply signalled_insert.
    + exact (conserved_fb s f Hc).
Qed.

(** What the loop's thread queues: one more functor pending. *)
Lemma own_queue_pending s in_ring f : pending (own_queue s in_ring f) ≡ₚ pending s ++ [f].
Proof.
  unfold pending. destruct in_ring; simpl; [|by rewrite app_assoc].
  rewrite fmap_app, <- !app_assoc. apply Permutation_app_head, Permutation_app_comm.
Qed.

Lemma winv_own s s' in_ring f : winv s -> wstep s (XOwnQueue in_ring f) = Some s' -> winv s'.
Proof.
  intros [Hu Hp Hq Hx Hs Hr Hc]. simpl.
  assert (forall g (o : option nat), (g, o, false) ∈ wring (own_queue s in_ring f) ->
    exists t g', o = Some t /\ wprod_of s t = WReserved g') as Hu'.
  { intros g o. destruct in_ring; simpl; [|apply Hu].
    intros [Hin|Hin%list_elem_of_singleton]%elem_of_app; [by apply (Hu g)|done]. }
  assert (wqueued s ++ [f] ≡ₚ wran s ++ batch (pc s) ++ pending (own_queue s in_ring f)) as Hc'.
  { destruct in_ring; [exact (conserved_ring s f (f, None, true) eq_refl Hc)|exact (conserved_fb s f Hc)]. }
  destruct (pc s) as [| | |w| |l|] eqn:Hpc; simpl in *; try done; intros [= <-].
  - split; destruct in_ring; simpl; rewrite ?Hpc; try done; intros _ Hq0.
    all: destruct (Hp eq_refl Hq0) as [?|E]; [by left|right]; unfold unwoken in *; rewrite Hs in E by done.
    + pose proof (own_queue_pending s true f) as Ho. simpl. rewrite Hs by done. rewrite <- E. exact Ho.
    + pose proof (own_queue_pending s false f) as Ho. simpl. rewrite Hs by done. rewrite <- E. exact Ho.
  - split; destruct in_ring; simpl; rewrite ?Hpc; done.
  - split; destruct in_ring; simpl; rewrite ?Hpc; try done; intros; left; left; simpl; lia.
  - split; destruct in_ring; simpl; rewrite ?Hpc; try done; intros; left; left; simpl; lia.
  - split; destruct in_ring; simpl; rewrite ?Hpc; done.
Qed.

Lemma winv_loop s s' l :
  l ∈ [XLoop; XTop; XPollWoken; XPollOther; XRead; XOwnQuit; XEventsDone; XRunRing; XRingDone;
       XRunFallback; XFallbackDone] ->
  winv s -> wstep s l = Some s' -> winv s'.
Proof.
  intros Hl [Hu Hp Hq Hx Hs Hr Hc]. rewrite !elem_of_cons, elem_of_nil in Hl.
  destruct Hl as [->|[->|[->|[->|[->|[->|[->|[->|[->|[->|[->|[]]]]]]]]]]]]; simpl.
  - destruct (pc s) eqn:Hpc; try done; intros [= <-]; split; simpl; try done.
    intros _ Hq0. by rewrite Hx in Hq0.
  - destruct (pc s) eqn:Hpc; try done. intros [= <-]. split; simpl; try done.
    + intros _ Hq0. exact (Hp eq_refl Hq0).
    + by destruct (wquit s).
    + by destruct (wquit s).
    + by destruct (wquit s).
    + by destruct (wquit s).
    + by destruct (wquit s).
  - destruct (pc s) eqn:Hpc; try done. destruct (wev s); [done|]. intros [= <-]. by split.
  - destruct (pc s) eqn:Hpc; try done. intros [= <-]. by split.
  - destruct (pc s) as [| | |[]| | |] eqn:Hpc; try done. intros [= <-]. by split.
  - destruct (outside (pc s) || in_handlers (pc s) || calling (pc s)) eqn:Hh; [|done]. intros [= <-].
    split; simpl; try done. intros E. by rewrite E in Hh.
  - destruct (pc s) as [| | |[]| | |] eqn:Hpc; try done. intros [= <-]. by split.
  - destruct (pc s) eqn:Hpc; try done. destruct (wring s) as [|[[f o] []] ring'] eqn:Er; try done.
    intros [= <-]. split; simpl; rewrite ?Hpc; try done.
    + intros g o' Hin. apply (Hu g). by right.
    + rewrite Hc. unfold pending. rewrite Er. simpl. by rewrite <- app_assoc.
  - destruct (pc s) eqn:Hpc; try done.
    assert (forall P : Prop, ((wring s = [] \/ exists f o ring', wring s = (f, o, false) :: ring') ->
      w_pc (w_fb s []) (WFallback (wfb s)) = s' -> P) ->
      match wring s with
      | [] | (_, _, false) :: _ => Some (w_pc (w_fb s []) (WFallback (wfb s)))
      | _ => None end = Some s' -> P) as Hcase.
    { intros P HP. destruct (wring s) as [|[[f o] []] ring']; intros [= E]; apply HP; eauto 6. }
    apply Hcase. intros Er <-. split; simpl; try done.
    + intros _ _. destruct Er as [Er|(f & o & ring' & Er)].
      * right. unfold pending, unwoken. simpl. by rewrite Er, Hr.
      * destruct (Hu f o) as (t & g & _ & Hg); [rewrite Er; by left|].
        left. right. exists t. unfold wprod_of in *. simpl. by rewrite Hg.
    + rewrite Hc. unfold pending. simpl. apply Permutation_app_head. rewrite app_nil_r. apply Permutation_app_comm.
  - destruct (pc s) as [| | | | |[|f l]|] eqn:Hpc; try done. intros [= <-]. split; simpl; try done.
    rewrite Hc. simpl. by rewrite <- app_assoc.
  - destruct (pc s) as [| | | | |[|f l]|] eqn:Hpc; try done. intros [= <-]. by split.
Qed.

Lemma winv_step s s' l : winv s -> wstep s l = Some s' -> winv s'.
Proof.
  intros I E. destruct l; try (eapply winv_loop; [|exact I|exact E]; by repeat first [apply list_elem_of_here|apply list_elem_of_further]).
  all: first [by eapply winv_own | eapply winv_producer; [|exact I|exact E]; eauto 8].
Qed.

Lemma winv_run s ls s' : winv s -> wrun s ls = Some s' -> winv s'.
Proof.
  revert s. induction ls as [|l ls IH]; intros s I; simpl; [by intros [= <-]|].
  intros (s1 & E1 & E)%bind_Some. eapply IH; [|exact E]. by eapply winv_step.
Qed.

Lemma winv_init : winv w_init.
Proof.
  split; simpl; try done; [by intros f o ?%not_elem_of_nil|]. intros _ _. by right.
Qed.

Lemma wreach_inv ls s : wrun w_init ls = Some s -> winv s.
Proof. apply winv_run, winv_init. Qed.

(** ** Progress of the loop on its own *)
Definition loop_label (l : wlabel) : bool :=
  match l with
  | XLoop | XTop | XPollWoken | XRead | XEventsDone | XRunRing | XRingDone | XRunFallback | XFallbackDone => true
  | _ => false
  end.

(** The loop's own steps, without any other event, lead from [s] to [s']. *)
Definition advances s s' : Prop :=
  exists ls, forallb loop_label ls = true /\ wrun s ls = Some s' /\
    wprods s' = wprods s /\ wquit s' = wquit s /\ wqueued s' = wqueued s.

Lemma advances_refl s : advances s s.
Proof. by exists []. Qed.

Lemma advances_step s s1 s' l :
  loop_label l = true -> wstep s l = Some s1 ->
  wprods s1 = wprods s -> wquit s1 = wquit s -> wqueued s1 = wqueued s -> advances s1 s' -> advances s s'.
Proof.
  intros Hl E E1 E2 E3 (ls & Hls & Er & E4 & E5 & E6). exists (l :: ls). simpl.
  rewrite Hl, E. split_and!; try done; congruence.
Qed.

Lemma fallback_done s l :
  pc s = WFallback l -> exists s', advances s s' /\ pc s' = WTop /\ pending s' = pending s /\ wev s' = wev s.
Proof.
  remember l as l0 eqn:El. clear El. revert s. induction l0 as [|f l0 IH]; intros s Hpc.
  - exists (w_pc s WTop). split_and!; try done.
    apply (advances_step s (w_pc s WTop) _ XFallbackDone); try done; [|apply advances_refl].
    simpl. by rewrite Hpc.
  - destruct (IH (w_run (w_pc s (WFallback l0)) f) eq_refl) as (s' & A & ? & ? & ?).
    exists s'. split_and!; try done.
    apply (advances_step s (w_run (w_pc s (WFallback l0)) f) _ XRunFallback); try done.
    simpl. by rewrite Hpc.
Qed.

Definition all_idle s : Prop := forall t, wprod_of s t = WIdle.

(** The next sleep is not one in which only functors of before [loop()] wait. *)
Definition roused s : Prop := wearly s = [] \/ wpolled s = true \/ (0 < wev s)%nat.

Lemma roused_step s s' l : winv s -> loop_label l = true -> wstep s l = Some s' -> roused s -> roused s'.
Proof.
  intros I Hl E R. assert (wpolled s' = true \/ wearly s' = wearly s /\ wpolled s' = wpolled s /\ wev s' = wev s) as [?|(E1 & E2 & E3)];
    [|by right; left|by unfold roused; rewrite E1, E2, E3].
  destruct l; try done; simpl in E; repeat case_match; simplify_eq/=; auto.
  left. apply (w_round _ I). by match goal with E : pc s = _ |- _ => rewrite E end.
Qed.

Lemma drain_done s :
  winv s -> all_idle s -> pc s = WDrain ->
  exists s', advances s s' /\ pc s' = WTop /\ pending s' = [].
Proof.
  remember (wring s) as r eqn:Er. revert s Er.
  induction r as [|[[f o] b] r IH]; intros s Er I Hidle Hpc.
  - destruct (fallback_done (w_pc (w_fb s []) (WFallback (wfb s))) _ eq_refl) as (s' & A & Hpc' & Hp & _).
    exists s'. split_and!; [|done|by rewrite Hp; unfold pending; simpl; rewrite <- Er].
    apply (advances_step s (w_pc (w_fb s []) (WFallback (wfb s))) _ XRingDone); try done.
    simpl. by rewrite Hpc, <- Er.
  - assert (b = true) as ->.
    { destruct b; [done|]. destruct (w_uncommitted _ I f o) as (t & g & _ & Hg); [rewrite <- Er; by left|].
      by rewrite (Hidle t) in Hg. }
    set (s1 := w_run (w_ring s r) f).
    assert (wstep s XRunRing = Some s1) as E1 by (simpl; by rewrite Hpc, <- Er).
    destruct (IH s1 eq_refl) as (s' & A & ? & ?); [by eapply winv_step|done|done|].
    exists s'. split_and!; try done. by apply (advances_step s s1 _ XRunRing).
Qed.

Lemma poll_done s :
  winv s -> all_idle s -> roused s -> wquit s = false -> pc s = WPoll -> pending s <> [] ->
  exists s', advances s s' /\ pc s' = WTop /\ pending s' = [].
Proof.
  intros I Hidle Hro Hq Hpc Hp.
  assert (0 < wev s)%nat as Hev.
  { destruct (w_pending _ I) as [[?|[t Ht]]|E]; [by rewrite Hpc|done|done|by destruct Ht|].
    unfold unwoken in E. destruct Hro as [Hn|[Hn|?]]; [..|done]; rewrite Hn in E; destruct Hp;
      apply Permutation_nil_r; [by destruct (wpolled s)|done]. }
  destruct (wev s) as [|n] eqn:En; [lia|].
  set (s1 := w_events s true). set (s2 := w_pc (w_ev s1 0) (WEvents false)). set (s3 := w_pc s2 WDrain).
  assert (wstep s XPollWoken = Some s1) as E1 by (simpl; by rewrite Hpc, En).
  assert (winv s3) as I3.
  { apply (winv_step s2 s3 XEventsDone); [|done]. apply (winv_step s1 s2 XRead); [|done].
    by apply (winv_step s s1 XPollWoken). }
  destruct (drain_done s3 I3 Hidle eq_refl) as (s' & A & ? & ?). exists s'. split_and!; try done.
  apply (advances_step s s1 _ XPollWoken); try done.
  apply (advances_step s1 s2 _ XRead); try done.
  by apply (advances_step s2 s3 _ XEventsDone).
Qed.

Lemma top_done s :
  winv s -> all_idle s -> roused s -> wquit s = false -> pc s = WTop ->
  exists s', advances s s' /\ pc s' = WTop /\ pending s' = [].
Proof.
  intros I Hidle Hro Hq Hpc. destruct (pending s) as [|f l] eqn:Hp.
  { exists s. split_and!; try done. apply advances_refl. }
  assert (wstep s XTop = Some (w_pc s WPoll)) as E1 by (simpl; by rewrite Hpc, Hq).
  destruct (poll_done (w_pc s WPoll)) as (s' & A & ? & ?); try done.
  - by eapply winv_step.
  - change (pending s <> []). by rewrite Hp.
  - exists s'. split_and!; try done. by apply (advances_step s (w_pc s WPoll) _ XTop).
Qed.

Lemma advances_inv s s' : winv s -> advances s s' -> winv s'.
Proof. intros I (ls & _ & E & _). by eapply winv_run. Qed.

Lemma advances_trans s1 s2 s3 : advances s1 s2 -> advances s2 s3 -> advances s1 s3.
Proof.
  intros (l1 & B1 & E1 & ? & ? & ?) (l2 & B2 & E2 & ? & ? & ?). exists (l1 ++ l2).
  rewrite forallb_app, B1, B2. split_and!; try done; try congruence.
  clear -E1 E2. revert s1 E1. induction l1 as [|l l1 IH]; intros s1; simpl; [by intros [= ->]|].
  destruct (wstep s1 l); simpl; [apply IH|done].
Qed.

Lemma advances_roused s s' : winv s -> advances s s' -> roused s -> roused s'.
Proof.
  intros I (ls & Hls & E & _). revert s I E. induction ls as [|l ls IH]; intros s I E R; simpl in *.
  { by injection E as <-. }
  apply andb_true_iff in Hls as [Hl Hls]. apply bind_Some in E as (s1 & E1 & E).
  apply (IH Hls s1); [by eapply winv_step|done|by eapply roused_step].
Qed.

Lemma loop_progress s :
  winv s -> all_idle s -> roused s -> wquit s = false -> pc s <> WExited ->
  exists s', advances s s' /\ (pc s' = WTop \/ s' = s /\ pc s = WPoll) /\ pending s' = [] /\ batch (pc s') = [].
Proof.
  intros I Hidle Hro Hq Hne.
  assert (forall s1, advances s s1 -> pc s1 = WTop \/ pc s1 = WDrain \/ pc s1 = WPoll /\ pending s1 <> [] ->
    exists s', advances s s' /\ (pc s' = WTop \/ s' = s /\ pc s = WPoll) /\ pending s' = [] /\ batch (pc s') = []) as Hvia.
  { intros s1 A1 H1. pose proof (advances_inv _ _ I A1) as I1. pose proof (advances_roused _ _ I A1 Hro) as Hro1.
    assert (all_idle s1 /\ wquit s1 = false) as [Hi1 Hq1].
    { destruct A1 as (_ & _ & _ & Ep & Eq & _). split; [|congruence]. intros t. unfold wprod_of. rewrite Ep. apply Hidle. }
    assert (exists s', advances s1 s' /\ pc s' = WTop /\ pending s' = []) as (s' & A & Hpc & Hp).
    { destruct H1 as [?|[?|[? ?]]]; [by apply top_done|by apply drain_done|by apply poll_done]. }
    exists s'. rewrite Hpc. split_and!; try done; [by eapply advances_trans|by left]. }
  destruct (pc s) as [| | |w| |l|] eqn:Hpc; try done.
  - apply (Hvia (w_pc s WTop)); [|by left].
    apply (advances_step s (w_pc s WTop) _ XLoop); try done; [simpl; by rewrite Hpc|apply advances_refl].
  - apply (Hvia s); [apply advances_refl|by left].
  - destruct (pending s) as [|f l] eqn:Hp.
    + exists s. rewrite Hpc. split_and!; try done; [apply advances_refl|by right].
    + apply (Hvia s); [apply advances_refl|right; right; by rewrite Hp].
  - set (s1 := if w then w_pc (w_ev s 0) (WEvents false) else s).
    assert (advances s s1 /\ pc s1 = WEvents false) as [A1 Hpc1].
    { destruct w; unfold s1; [|by split; [apply advances_refl|]]. split; [|done].
      apply (advances_step s s1 _ XRead); try done; [simpl; by rewrite Hpc|apply advances_refl]. }
    apply (Hvia (w_pc s1 WDrain)); [|by right; left].
    eapply advances_trans; [exact A1|].
    apply (advances_step s1 (w_pc s1 WDrain) _ XEventsDone); try done; [simpl; by rewrite Hpc1|apply advances_refl].
  - apply (Hvia s); [apply advances_refl|by right; left].
  - destruct (fallback_done s l Hpc) as (s1 & A1 & Hpc1 & _). apply (Hvia s1); [done|by left].
Qed.

(** Functors the loop's thread queues before [loop()], and the loop after. *)
Lemma early_run (qs : list (bool * F)) s :
  pc s = WStart ->
  exists s', wrun s ((fun q => XOwnQueue q.1 q.2) <$> qs) = Some s' /\ pc s' = WStart /\ wev s' = wev s /\
    wquit s' = wquit s /\ wprods s' = wprods s /\ pending s' ≡ₚ pending s ++ qs.*2.
Proof.
  revert s. induction qs as [|[b f] qs IH]; intros s Hpc; cbn [fmap list_fmap wrun fst snd].
  { exists s. by rewrite app_nil_r. }
  cbn [wstep]. rewrite Hpc. cbn [outside mbind option_bind].
  destruct (IH (own_queue (w_early s f) b f)) as (s' & E & ? & E1 & E2 & E3 & E4); [by destruct b|].
  exists s'. rewrite E, E1, E2, E3, E4. split_and!; try done; [by destruct b..|].
  rewrite own_queue_pending. by rewrite <- app_assoc.
Qed.
End wakeup.

(** ** Properties *)

(** C11: which wakeups are not lost.  In every interleaving of any number of
    threads, when the loop sleeps in [epoll_wait] with the eventfd unreadable and
    no thread is inside [queueInLoop] or [quit], then [quit_] is not set, and
    from its second sleep on no functor is pending.  In its first sleep the
    functors pending are exactly those its own thread queued before it called
    [loop()], which nobody is woken for ([early_functor_waits]); there are none
    if it queued none. *)
Theorem no_lost_wakeup {F} ls (s : wsys (F := F)) :
  wrun w_init ls = Some s -> pc s = WPoll -> wev s = 0%nat -> all_idle s ->
  wquit s = false /\ pending s ≡ₚ if wpolled s then [] else wearly s.
Proof.
  intros Hr Hpc Hev Hidle. pose proof (wreach_inv ls s Hr) as I.
  assert (~ signalled s) as Hns. { intros [?|[t Ht]]; [lia|by apply Ht]. }
  assert (wquit s = false) as Hq.
  { destruct (wquit s) eqn:Hq; [|done]. destruct Hns. by apply (w_quitting _ I). }
  split; [done|]. destruct (w_pending _ I) as [?|?]; by rewrite ?Hpc.
Qed.

(** The exception is real: functors the loop's thread queues before [loop()]
    are pending while the loop sleeps, no step of the loop is possible, and it
    takes a timeout, another event or another thread to end the sleep. *)
Theorem early_functor_waits {F} (qs : list (bool * F)) :
  exists s : wsys (F := F), wrun w_init (((fun q => XOwnQueue q.1 q.2) <$> qs) ++ [XLoop; XTop]) = Some s /\
    pc s = WPoll /\ wev s = 0%nat /\ all_idle s /\ pending s ≡ₚ qs.*2 /\
    forall l, loop_label l = true -> wstep s l = None.
Proof.
  destruct (early_run qs w_init eq_refl) as (s & E & Hpc & Hev & Hq & Hp & Hpend).
  exists (w_pc (w_pc s WTop) WPoll). split_and!; try done.
  - assert (forall l1 (s0 s1 : wsys (F := F)) l2, wrun s0 l1 = Some s1 -> wrun s0 (l1 ++ l2) = wrun s1 l2) as Happ.
    { induction l1 as [|l l1 IH]; intros s0 s1 l2; simpl; [by intros [= ->]|].
      destruct (wstep s0 l); simpl; [apply IH|done]. }
    rewrite (Happ _ _ _ _ E). simpl. rewrite Hpc. simpl. by rewrite Hq.
  - intros t. unfold wprod_of. simpl. by rewrite Hp.
  - intros [] Hl; try done. simpl. by rewrite Hev.
Qed.

(** no functor is lost or run twice: at every moment of every
    interleaving those queued are exactly those that ran, those of the batch
    being run and those in the two queues. *)
Theorem functors_conserved {F} ls (s : wsys (F := F)) :
  wrun w_init ls = Some s -> wqueued s ≡ₚ wran s ++ batch (pc s) ++ pending s.
Proof. intros Hr. apply (w_conserved _ (wreach_inv ls s Hr)). Qed.

(** C20: everything queued is run without waiting for a timeout or another
    event: from every reachable state in which no thread is inside a call, nobody
    asked to quit and [loop] has not returned, the steps of the loop alone, woken
    only by the eventfd, lead to a state in which all functors queued have run;
    provided that the eventfd is readable, or [epoll_wait] has returned once, or
    the loop's thread queued nothing before [loop()]. *)
Theorem queued_functors_run {F} ls (s : wsys (F := F)) :
  wrun w_init ls = Some s -> all_idle s -> wquit s = false -> pc s <> WExited ->
  wearly s = [] \/ wpolled s = true \/ (0 < wev s)%nat ->
  exists s', advances s s' /\ wran s' ≡ₚ wqueued s.
Proof.
  intros Hr Hidle Hq Hne Hro. pose proof (wreach_inv ls s Hr) as I.
  destruct (loop_progress s I Hidle Hro Hq Hne) as (s' & A & _ & Hp & Hb). exists s'. split; [done|].
  pose proof (w_conserved _ (advances_inv _ _ I A)) as Hc. rewrite Hp, Hb, app_nil_r in Hc.
  destruct A as (_ & _ & _ & _ & _ & Eq). by rewrite <- Hc, Eq.
Qed.

(** ** The theorems at a concrete interleaving

    The loop's thread queues a functor before [loop()]; two threads queue while
    the loop goes round: the second finds the ring full, and commits of the
    first come late. *)
Definition ex_labels : list (wlabel (F := nat)) :=
  [XOwnQueue true 5; XLoop; XTop; XReserve 1 10; XFallback 2 20; XWake 2; XPollWoken; XRead; XOwnQueue true 30; XEventsDone;
   XRunRing; XRingDone; XRunFallback; XCommit 1; XFallbackDone; XTop]%nat.
Definition ex_wsys : wsys (F := nat) := default w_init (wrun w_init (ex_labels ++ [XWake 1%nat])).
(** The same, then run until the loop sleeps. *)
Definition ex_asleep : list (wlabel (F := nat)) :=
  ex_labels ++ [XWake 1%nat; XPollWoken; XRead; XEventsDone; XRunRing; XRunRing; XRingDone; XFallbackDone; XTop].
Definition ex_wsys2 : wsys (F := nat) := default w_init (wrun w_init ex_asleep).

Lemma ex_idle : all_idle ex_wsys.
Proof.
  intros t. unfold wprod_of. assert (wprods ex_wsys = <[1%nat := WIdle]> (<[2%nat := WIdle]> ∅)) as -> by (vm_compute; reflexivity).
  rewrite !lookup_insert, lookup_empty. by repeat case_decide.
Qed.
Lemma ex_idle2 : all_idle ex_wsys2.
Proof.
  intros t. unfold wprod_of. assert (wprods ex_wsys2 = <[1%nat := WIdle]> (<[2%nat := WIdle]> ∅)) as -> by (vm_compute; reflexivity).
  rewrite !lookup_insert, lookup_empty. by repeat case_decide.
Qed.

Lemma no_lost_wakeup_witness :
  wquit ex_wsys2 = false /\ pending ex_wsys2 ≡ₚ if wpolled ex_wsys2 then [] else wearly ex_wsys2.
Proof.
  apply (no_lost_wakeup ex_asleep ex_wsys2); [vm_compute; reflexivity|vm_compute; reflexivity|vm_compute; reflexivity|exact ex_idle2].
Defined.

Lemma functors_conserved_witness :
  wqueued ex_wsys ≡ₚ wran ex_wsys ++ batch (pc ex_wsys) ++ pending ex_wsys.
Proof. apply (functors_conserved (ex_labels ++ [XWake 1%nat]) ex_wsys). vm_compute. reflexivity. Defined.

Lemma queued_functors_run_witness : exists s', advances ex_wsys s' /\ wran s' ≡ₚ wqueued ex_wsys.
Proof.
  apply (queued_functors_run (ex_labels ++ [XWake 1%nat]) ex_wsys);
    [vm_compute; reflexivity|exact ex_idle|vm_compute; reflexivity|vm_compute; discriminate|
     right; left; vm_compute; reflexivity].
Defined.

(** At that point two functors are pending and the loop sleeps, signalled. *)
Example ex_wsys_state :
  pending ex_wsys = [10; 30]%nat /\ pc ex_wsys = WPoll /\ wev ex_wsys = 1%nat /\ wran ex_wsys = [5; 20]%nat.
Proof. vm_compute. done. Qed.
