(* ===== verification/LoopLife.v ===== *)
(** * LoopLife: an event loop from its construction to its destruction

    Models the constructors and destructors of [EventLoop], [TimerQueue] and
    [Poller] as they run one after the other ([src/EventLoop.cpp],
    [src/TimerQueue.cpp], [src/Poller.cpp]): the epoll, timer and event
    descriptors, the two channels the loop has of its own in its poller, and
    the members destroyed in the reverse order of their declaration.  What the
    loop does in between is in LoopRound.v. *)

From S2P Require Import Prelude CircularBuffer MpscQueue Timer TimerQueue EventLoop Channel Poller Kernel.

Section life.
Context {K F Q : Type} `{Kernel K}.
Implicit Types (k : K) (r : Reactor K) (p fd : Z).

(** ** The object

    [pending] has the flags and the queues, [poller_] the poller and the
    channels, [timerQueue_] the timers; [fixed] is what the constructor sets
    once: the descriptors and the two channels.  Of the fields that say which
    events are being handled, [currentActiveChannel_], which nothing reads, is
    left out. *)
Record Fixed : Type := mkFixed {
  epollfd_ : Z;
  timerfd_ : Z;
  timerfdChannel_ : Z;
  wakeupFd_ : Z;
  wakeupChannel_ : Z
}.

Record EventLoop : Type := mkEventLoop {
  pending : Loop F Q;
  poller_ : Reactor K;
  timerQueue_ : TimerQueue;
  fixed : Fixed;
  eventHandling_ : bool;
  activeChannels_ : list Z
}.

Definition set_poller (l : EventLoop) r : EventLoop :=
  mkEventLoop (pending l) r (timerQueue_ l) (fixed l) (eventHandling_ l) (activeChannels_ l).
Definition set_timers (l : EventLoop) tq : EventLoop :=
  mkEventLoop (pending l) (poller_ l) tq (fixed l) (eventHandling_ l) (activeChannels_ l).
Definition set_pending (l : EventLoop) s : EventLoop :=
  mkEventLoop s (poller_ l) (timerQueue_ l) (fixed l) (eventHandling_ l) (activeChannels_ l).
Definition set_handling_events (l : EventLoop) b : EventLoop :=
  mkEventLoop (pending l) (poller_ l) (timerQueue_ l) (fixed l) b (activeChannels_ l).
Definition set_active (l : EventLoop) ps : EventLoop :=
  mkEventLoop (pending l) (poller_ l) (timerQueue_ l) (fixed l) (eventHandling_ l) ps.

(** ** Construction *)
Definition createEventfd (answer : sys_fd) : res Z :=
  match answer with inl evtfd => Ok evtfd | inr _ => Fault StdAbort end.
Definition createTimerfd (answer : sys_fd) : res Z :=
  match answer with inl timerfd => Ok timerfd | inr _ => Fault StdAbort end.

(** [Poller::Poller], with the answer of [epoll_create1]. *)
Definition Poller_new k (answer : sys_fd) : res (Reactor K * Z) :=
  match answer with
  | inl epollfd => Ok (Reactor_new (sys_open k epollfd), epollfd)
  | inr _ => Fault StdAbort
  end.

(** A descriptor the loop made, with a new channel at [p] that has a read
    callback. *)
Definition own_channel r fd p : Reactor K :=
  set_chan (set_epoll r (sys_open (epoll r) fd)) p (set_callbacks (Channel_new fd) true false false false).

(** [TimerQueue::TimerQueue]. *)
Definition TimerQueue_construct r (answer : sys_fd) p : res (Reactor K * Z) :=
  timerfd ← createTimerfd answer;
  r1 ← channel_change (own_channel r timerfd p) p EnableReading;
  Ok (r1, timerfd).

(** [EventLoop::EventLoop] at time [now]: [t_loopInThisThread] says whether the
    thread has a loop, [ring] is the queue of functors made, [pt] and [pw] are
    where the channels are allocated. *)
Definition EventLoop_construct (t_loopInThisThread : bool) (now : Z) (ring : Q) k (ep tm ev : sys_fd) (pt pw : Z)
  : res (EventLoop * bool) :=
  '(r, epollfd) ← Poller_new k ep;
  '(r1, timerfd) ← TimerQueue_construct r tm pt;
  wakeupFd ← createEventfd ev;
  let r2 := own_channel r1 wakeupFd pw in
  if t_loopInThisThread then Fault StdAbort else
  r3 ← channel_change r2 pw EnableReading;
  Ok (mkEventLoop (EventLoop_new ring) r3 (TimerQueue_new now) (mkFixed epollfd timerfd pt wakeupFd pw) false [], true).

(** ** Destruction *)

(** The part the destructors of [EventLoop] and [TimerQueue] share:
    [disableAll], [remove], [close], and the channel is deleted ([BadPointer]:
    while it is in the loop). *)
Definition drop_channel r p fd : res (Reactor K) :=
  r1 ← channel_change r p DisableAll;
  r2 ← channel_remove r1 p;
  let r3 := set_epoll r2 (sys_close (epoll r2) fd) in
  c ← deref (chans r3 !! p);
  if addedToLoop_ c then Fault BadPointer else Ok (set_chans r3 (delete p (chans r3))).

(** What is left: the channels of others and the descriptors, the timers not
    freed, [t_loopInThisThread], and the functors that were destroyed. *)
Record Remains : Type := mkRemains {
  left : Reactor K;
  timers_left : gmap Z Timer;
  t_loop : bool;
  destroyed : list F
}.

(** [~EventLoop] and its members, in reverse: the ring, whose nodes hold plain
    pointers to functors and are not looked at; the vector of functors; the
    wakeup channel; [~TimerQueue]; [~Poller]. *)
Definition EventLoop_delete (l : EventLoop) : res Remains :=
  r1 ← drop_channel (poller_ l) (wakeupChannel_ (fixed l)) (wakeupFd_ (fixed l));
  r2 ← drop_channel r1 (timerfdChannel_ (fixed l)) (timerfd_ (fixed l));
  let timers := TimerQueue_delete (timerQueue_ l) in
  let r3 := set_epoll r2 (sys_close (epoll r2) (epollfd_ (fixed l))) in
  Ok (mkRemains r3 timers false (pendingFunctors_ (pending l))).
End life.
Arguments EventLoop : clear implicits.
Arguments Remains : clear implicits.

(** ** Channels of the loop's own *)
Section lemmas.
Context {K : Type} `{KernelLaws K}.
Implicit Types (k : K) (r : Reactor K) (p fd : Z).

(** A channel of the loop: in the loop, with its descriptor, and a read callback
    only. *)
Definition reads_only (c : Channel) : Prop :=
  tied_ c = false /\ (readCallback_ c, writeCallback_ c, closeCallback_ c, errorCallback_ c) = (true, false, false, false).
Definition own r p fd : Prop :=
  exists c, chans r !! p = Some c /\ fd_ c = fd /\ events_ c = kReadEvent /\ addedToLoop_ c = true /\ reads_only c.

Lemma own_slot r p fd : reactor_inv r -> own r p fd -> channels_ r !! fd = Some p.
Proof.
  intros I (c & Hp & <- & He & Ha & _). apply (added_map r p c I Hp). intros Hi.
  destruct (ri_chan _ I _ _ Hp) as [_ [(_ & ? & _)|[(? & _)|(? & _)]]]; [congruence|lia|lia].
Qed.

(** Opening a descriptor and listening to it. *)
Lemma own_channel_spec r fd p :
  fds_open r -> (fd ∉ kfds (epoll r)) -> chans r !! p = None ->
  exists r', channel_change (own_channel r fd p) p EnableReading = Ok r' /\ fds_open r' /\ own r' p fd /\
    kfds (epoll r') = {[fd]} ∪ kfds (epoll r) /\ forall q, q <> p -> chans r' !! q = chans r !! q.
Proof.
  intros [I Ho] Hfd Hp. set (r1 := own_channel r fd p).
  set (c := set_callbacks (Channel_new fd) true false false false).
  assert (reactor_inv r1) as I1.
  { pose proof (do_rop_spec (set_epoll r (sys_open (epoll r) fd)) (RNew p fd true false false false)) as Hr.
    simpl in Hr. destruct Hr as [Hr _]; [|done|done]. by apply reactor_inv_epoll; [|apply open_interest]. }
  assert (chans r1 !! p = Some c) as Hp1 by (simpl; apply lookup_insert_eq).
  assert (kfds (epoll r1) = {[fd]} ∪ kfds (epoll r)) as Hk by (simpl; apply open_fds).
  assert (channels_ r1 !! fd = None) as Hslot.
  { simpl. destruct (channels_ r !! fd) as [q|] eqn:Hq; [|done].
    destruct (ri_map _ I _ _ Hq) as (d & Hd & <- & Ha). by destruct Hfd; apply (Ho q). }
  destruct (channel_change_ok r1 p c EnableReading I1 Hp1) as (r' & E & I' & (Hoth & c' & Hp' & He & Hs) & Hk').
  { rewrite Hk. set_solver. } { by left. }
  exists r'. destruct Hoth as [Hoth _].
  assert (forall q, q <> p -> chans r' !! q = chans r !! q) as Hsame.
  { intros q Hq. rewrite Hoth by done. simpl. by rewrite lookup_insert_ne. }
  destruct Hs as (Hf & _ & Ht & _ & Hcb). simpl in Hf, He, Ht, Hcb.
  assert (addedToLoop_ c' = true) as Ha.
  { destruct (ri_chan _ I' _ _ Hp') as [_ [(_ & _ & E0)|[(_ & ? & _)|(_ & ? & _)]]]; [by rewrite E0 in He|done|done]. }
  split_and!; [done|split; [done|]|by exists c'|congruence|done].
  intros q d Hd Hda. rewrite Hk', Hk. destruct (decide (q = p)) as [-> |Hne].
  - rewrite Hp' in Hd. injection Hd as <-. rewrite Hf. set_solver.
  - rewrite Hsame in Hd by done. pose proof (Ho q d Hd Hda). set_solver.
Qed.

Lemma drop_channel_spec r p fd :
  reactor_inv r -> own r p fd ->
  exists r', drop_channel r p fd = Ok r' /\ reactor_inv r' /\ kfds (epoll r') = kfds (epoll r) ∖ {[fd]} /\
    forall q, chans r' !! q = if decide (q = p) then None else chans r !! q.
Proof.
  intros I Hown. pose proof (own_slot r p fd I Hown) as Hslot. destruct Hown as (c & Hp & <- & _).
  destruct (channel_retire r p c I Hp ltac:(by right)) as (r1 & r2 & c' & E1 & E2 & I2 & (Hoth & _) & Hk & Hint & Hp2 & Hs & He & Ha).
  unfold drop_channel. rewrite E1. cbn [mbind res_bind]. rewrite E2. cbn [mbind res_bind]. cbv zeta. simpl chans.
  rewrite Hp2. cbn [deref mbind res_bind]. rewrite Ha. eexists. split; [done|].
  set (r3 := set_epoll r2 (sys_close (epoll r2) (fd_ c))).
  assert (reactor_inv r3) as I3.
  { apply reactor_inv_epoll; [done|]. rewrite close_interest. by apply delete_id. }
  pose proof (do_rop_spec r3 (RDelete p) I3 ltac:(by exists c')) as Hd. simpl in Hd. rewrite Hp2 in Hd.
  split_and!; [by destruct Hd|simpl; by rewrite close_fds, Hk|]. intros q. simpl. rewrite lookup_delete.
  repeat case_decide; subst; try done. by apply Hoth.
Qed.

(** What clients do leaves the loop's channels and the descriptors alone. *)
Lemma run_rops_frame r os r' p :
  reactor_inv r -> rops_ok r os -> Forall (fun o => rop_on o <> Some p) os -> run_rops r os = Ok r' ->
  reactor_inv r' /\ chans r' !! p = chans r !! p /\ kfds (epoll r') = kfds (epoll r).
Proof.
  revert r. induction os as [|o os IH]; intros r I Hok Hall E; simpl in *; [by injection E as <-|].
  destruct Hok as [Hpre Hok]. apply Forall_cons in Hall as [Ho Hall]. apply bind_Ok_inv in E as (r1 & E1 & E).
  destruct (do_rop_frame r o r1 p I Hpre E1 Ho) as [Hp Hk].
  pose proof (do_rop_spec r o I Hpre) as Hs. rewrite E1 in Hs. destruct Hs as [I1 _].
  destruct (IH r1 I1 (Hok r1 E1) Hall E) as (I' & Hp' & Hk'). split_and!; [done|congruence|congruence].
Qed.
End lemmas.

(** ** The life of a loop *)
Section properties.
Context {K F Q : Type} `{KernelLaws K}.

(** The loop as constructed: its two channels listen, nothing else is there. *)
Definition fresh_loop (l : EventLoop K F Q) (k : K) (now : Z) (ring : Q) ep tm ev pt pw : Prop :=
  fds_open (poller_ l) /\ own (poller_ l) pt tm /\ own (poller_ l) pw ev /\
  kfds (epoll (poller_ l)) = {[ev]} ∪ ({[tm]} ∪ ({[ep]} ∪ kfds k)) /\
  (forall q, q <> pt -> q <> pw -> chans (poller_ l) !! q = None) /\
  l = mkEventLoop (EventLoop_new ring) (poller_ l) (TimerQueue_new now) (mkFixed ep tm pt ev pw) false [].

Lemma construct_spec (k : K) now ring ep tm ev pt pw :
  interest k = ∅ -> NoDup [ep; tm; ev] -> (forall fd, fd ∈ [ep; tm; ev] -> fd ∉ kfds k) -> pt <> pw ->
  exists l, EventLoop_construct (F := F) false now ring k (inl ep) (inl tm) (inl ev) pt pw = Ok (l, true) /\
    fresh_loop l k now ring ep tm ev pt pw.
Proof.
  intros Hint Hnd Hfresh Hne. apply NoDup_cons in Hnd as [Hn1 [Hn2 _]%NoDup_cons].
  assert ((ep ∉ kfds k) /\ (tm ∉ kfds k) /\ (ev ∉ kfds k)) as (He & Ht & Hv) by (split_and!; apply Hfresh; set_solver).
  set (r := Reactor_new (sys_open k ep)). assert (kfds (epoll r) = {[ep]} ∪ kfds k) as Hk by apply open_fds.
  assert (fds_open r) as Ho by (split; [apply inv_new; by rewrite open_interest|done]).
  destruct (own_channel_spec r tm pt Ho) as (r1 & E1 & Ho1 & Own1 & Hk1 & Hs1); [rewrite Hk; set_solver|done|].
  destruct (own_channel_spec r1 ev pw Ho1) as (r2 & E2 & Ho2 & Own2 & Hk2 & Hs2);
    [rewrite Hk1, Hk; set_solver|by rewrite Hs1|].
  unfold EventLoop_construct, Poller_new, TimerQueue_construct, createTimerfd, createEventfd. cbn [mbind res_bind].
  fold r. rewrite E1. cbn [mbind res_bind]. cbv zeta. rewrite E2. cbn [mbind res_bind]. eexists. split; [done|].
  split_and!; try done; simpl.
  - destruct Own1 as (c & Hc & ?). exists c. by rewrite Hs2.
  - by rewrite Hk2, Hk1, Hk.
  - intros q H1' H2'. by rewrite Hs2, Hs1.
Qed.

(** Destruction between events, with the loop's channels in place. *)
Lemma EventLoop_delete_spec (l : EventLoop K F Q) :
  reactor_inv (poller_ l) -> own (poller_ l) (timerfdChannel_ (fixed l)) (timerfd_ (fixed l)) ->
  own (poller_ l) (wakeupChannel_ (fixed l)) (wakeupFd_ (fixed l)) ->
  timerfdChannel_ (fixed l) <> wakeupChannel_ (fixed l) -> quiet (timerQueue_ l) ->
  exists g, EventLoop_delete l = Ok g /\
    kfds (epoll (left g)) = kfds (epoll (poller_ l)) ∖ {[wakeupFd_ (fixed l)]} ∖ {[timerfd_ (fixed l)]} ∖ {[epollfd_ (fixed l)]} /\
    timers_left g = ∅ /\ t_loop g = false /\
    (forall q c, chans (left g) !! q = Some c <->
       q <> timerfdChannel_ (fixed l) /\ q <> wakeupChannel_ (fixed l) /\ chans (poller_ l) !! q = Some c) /\
    destroyed g = pendingFunctors_ (pending l).
Proof.
  intros I Ownt Ownw Hne Hq. pose proof (quiet_delete _ Hq) as Hdel.
  destruct (drop_channel_spec _ _ _ I Ownw) as (r1 & E1 & I1 & K1 & C1).
  assert (own r1 (timerfdChannel_ (fixed l)) (timerfd_ (fixed l))) as Ownt1.
  { destruct Ownt as (c & Hc & ?). exists c. rewrite C1. by rewrite decide_False. }
  destruct (drop_channel_spec r1 _ _ I1 Ownt1) as (r2 & E2 & I2 & K2 & C2).
  unfold EventLoop_delete. rewrite E1. cbn [mbind res_bind]. rewrite E2. cbn [mbind res_bind]. cbv zeta.
  eexists. split; [done|]. cbn [left timers_left t_loop destroyed]. split_and!; try done.
  - simpl. by rewrite close_fds, K2, K1.
  - intros q c. simpl. rewrite C2, C1. repeat case_decide; naive_solver.
Qed.

(** a loop from construction to destruction.  Construction stops only when
    the kernel gives no descriptor or the thread already has a loop; the kernel
    then watches the timer and event descriptors for input and nothing else.
    Whatever clients do with channels of their own, and whatever timers were
    added and expired, destruction passes the asserts of the poller, deletes no
    channel that is in the loop, frees every timer, and leaves the channels of
    the clients and exactly the descriptors that were open before; the thread
    can have a loop again.  Of the functors still queued only those of the
    fallback vector are destroyed. *)
Theorem loop_lifecycle (k : K) now ring ep tm ev pt pw :
  interest k = ∅ -> NoDup [ep; tm; ev] -> (forall fd, fd ∈ [ep; tm; ev] -> fd ∉ kfds k) -> pt <> pw ->
  (forall e a b, EventLoop_construct (F := F) false now ring k (inr e) a b pt pw = Fault StdAbort) /\
  EventLoop_construct (F := F) true now ring k (inl ep) (inl tm) (inl ev) pt pw = Fault StdAbort /\
  exists l, EventLoop_construct (F := F) false now ring k (inl ep) (inl tm) (inl ev) pt pw = Ok (l, true) /\
    interest (epoll (poller_ l)) = {[tm := (kReadEvent, pt); ev := (kReadEvent, pw)]} /\
    forall os r alloc evs tq (s : Loop F Q),
      rops_ok (poller_ l) os -> Forall (fun o => rop_on o <> Some pt /\ rop_on o <> Some pw) os ->
      run_rops (poller_ l) os = Ok r ->
      alloc_ok alloc -> clock_ok now -> events_ok (TimerQueue_new now) evs ->
      run_events alloc (timerQueue_ l) evs = Ok tq ->
      exists g, EventLoop_delete (set_pending (set_timers (set_poller l r) tq) s) = Ok g /\
        kfds (epoll (left g)) = kfds k /\ timers_left g = ∅ /\ t_loop g = false /\
        (forall q c, chans (left g) !! q = Some c <-> q <> pt /\ q <> pw /\ chans r !! q = Some c) /\
        destroyed g = pendingFunctors_ s.
Proof.
  intros Hint Hnd Hfresh Hne. split; [done|].
  destruct (construct_spec k now ring ep tm ev pt pw Hint Hnd Hfresh Hne) as (l & E & (Hopen & Own1 & Own2 & Hk & Hrest & El)).
  split.
  { unfold EventLoop_construct in *. destruct (Poller_new k (inl ep)) as [[r e]|f]; cbn [mbind res_bind] in *; [|done].
    destruct (TimerQueue_construct r (inl tm) pt) as [[r1 e1]|f]; cbn [mbind res_bind] in *; done. }
  exists l. split; [done|]. pose proof Hopen as [I _]. split.
  - pose proof (inv_mirrors _ I) as M. apply map_eq. intros fd. apply option_eq. intros [e p]. rewrite (M fd e p).
    destruct Own1 as (c1 & Hc1 & Hf1 & He1 & _), Own2 as (c2 & Hc2 & Hf2 & He2 & _).
    assert (tm <> ev) as Htv by (apply NoDup_cons in Hnd as [_ [Hn _]%NoDup_cons]; rewrite list_elem_of_singleton in Hn; done).
    split.
    + intros (c & Hc & <- & <- & _). destruct (decide (p = pt)) as [-> |H1']; [|destruct (decide (p = pw)) as [-> |H2']].
      * rewrite Hc1 in Hc. injection Hc as <-. by rewrite Hf1, He1, lookup_insert_eq.
      * rewrite Hc2 in Hc. injection Hc as <-. by rewrite Hf2, He2, lookup_insert_ne, lookup_singleton_eq.
      * by rewrite Hrest in Hc.
    + intros [[<- [= <- <-]]|[? [<- [= <- <-]]%lookup_singleton_Some]]%lookup_insert_Some; by eexists.
  - intros os r alloc evs tq s Hok Hall Hr Halloc Hnow Hev Htq.
    destruct (run_rops_frame (poller_ l) os r pt I Hok) as (Ir & Hpt & Hkr); [|done|].
    { eapply Forall_impl; [exact Hall|]. intros o [? _]. done. }
    destruct (run_rops_frame (poller_ l) os r pw I Hok) as (_ & Hpw & _); [|done|].
    { eapply Forall_impl; [exact Hall|]. intros o [_ ?]. done. }
    assert (own r pw ev) as Ownw by (destruct Own2 as (c & ? & ?); exists c; by rewrite Hpw).
    assert (own r pt tm) as Ownt by (destruct Own1 as (c & ? & ?); exists c; by rewrite Hpt).
    assert (timerQueue_ l = TimerQueue_new now /\ fixed l = mkFixed ep tm pt ev pw) as [El1 El2] by (by rewrite El).
    rewrite El1 in Htq. pose proof (reach_quiet alloc Halloc now evs tq Hnow Hev Htq) as Hq.
    destruct (EventLoop_delete_spec (set_pending (set_timers (set_poller l r) tq) s)) as (g & Eg & Kg & Tg & Lg & Cg & Dg);
      cbn [set_pending set_timers set_poller poller_ fixed timerQueue_]; rewrite ?El2; try done.
    exists g. cbn [set_pending set_timers set_poller poller_ fixed timerQueue_ pending] in *. rewrite El2 in *.
    cbn [wakeupChannel_ wakeupFd_ timerfdChannel_ timerfd_ epollfd_] in *. split_and!; try done.
    rewrite Kg, Hkr, Hk. apply NoDup_cons in Hnd as [Hn1 [Hn2 _]%NoDup_cons].
    assert ((ep ∉ kfds k) /\ (tm ∉ kfds k) /\ (ev ∉ kfds k)) by (split_and!; apply Hfresh; set_solver). set_solver.
Qed.
End properties.

(** ** The theorem at a concrete kernel *)
Import SimKernel.

Definition ex_kernel : kern := mkKern {[0 := None; 1 := None; 2 := None]}.

Lemma loop_lifecycle_witness :
  let k := ex_kernel in
  let ring := MpscQueue_new (F := nat) EventLoop.ex_env 16 in
  (forall e a b, EventLoop_construct (F := nat) false 1000 ring k (inr e) a b 100 200 = Fault StdAbort) /\
  EventLoop_construct (F := nat) true 1000 ring k (inl 3) (inl 4) (inl 5) 100 200 = Fault StdAbort /\
  exists l, EventLoop_construct (F := nat) false 1000 ring k (inl 3) (inl 4) (inl 5) 100 200 = Ok (l, true) /\
    interest (epoll (poller_ l)) = {[4 := (kReadEvent, 100); 5 := (kReadEvent, 200)]} /\
    forall os r alloc evs tq (s : Loop nat (MpscQueue nat)),
      rops_ok (poller_ l) os -> Forall (fun o => rop_on o <> Some 100 /\ rop_on o <> Some 200) os ->
      run_rops (poller_ l) os = Ok r ->
      alloc_ok alloc -> clock_ok 1000 -> events_ok (TimerQueue_new 1000) evs ->
      run_events alloc (timerQueue_ l) evs = Ok tq ->
      exists g, EventLoop_delete (set_pending (set_timers (set_poller l r) tq) s) = Ok g /\
        kfds (epoll (left g)) = kfds k /\ timers_left g = ∅ /\ t_loop g = false /\
        (forall q c, chans (left g) !! q = Some c <-> q <> 100 /\ q <> 200 /\ chans r !! q = Some c) /\
        destroyed g = pendingFunctors_ s.
Proof.
  apply (loop_lifecycle ex_kernel 1000 (MpscQueue_new EventLoop.ex_env 16) 3 4 5 100 200).
  - by_decide.
  - by_decide.
  - intros fd Hfd. assert (Forall (fun fd => fd ∉ kfds ex_kernel) [3; 4; 5]) as Hall by by_decide.
    by apply (proj1 (Forall_forall _ _) Hall).
  - done.
Defined.

(** A functor queued before the loop ends its life: the node of the ring still
    points to it, it neither ran nor was destroyed. *)
Theorem ring_functor_leaks :
  let _ := mpsc_ops (F := nat) 16 in
  let s := queueInLoop true (EventLoop_new (MpscQueue_new EventLoop.ex_env 16)) 7%nat in
  exists l r, EventLoop_construct (F := nat) false 0 (pendingQueue_ s) ex_kernel (inl 3) (inl 4) (inl 5) 100 200 = Ok (l, true) /\
    EventLoop_delete (set_pending l s) = Ok r /\ destroyed r = [] /\ ran s = [] /\
    match peek (pendingQueue_ s) with Some node => node_data (node_at (pendingQueue_ s) node) = Some 7%nat | None => False end.
Proof. eexists _, _. split; [vm_compute; reflexivity|]. split; [vm_compute; reflexivity|]. by vm_compute. Qed.
