(* ===== verification/LoopRound.v ===== *)
(** * LoopRound: the rounds of a whole event loop

    Composes the parts of a loop as [EventLoop::loop] does ([src/EventLoop.cpp]):
    a round polls, runs the handlers of the channels reported, among them the
    timer queue's and the wakeup handler, and then the pending functors.  The
    handlers, the callbacks of timers and the functors are user code on the
    whole loop: it posts functors, quits, adds and cancels timers, makes
    channels and opens and closes descriptors.

    The definitions of EventLoop.v, TimerQueue.v and Poller.v are used at this
    state through the [Part]s below, and so are their theorems. *)

From S2P Require Import Prelude CircularBuffer MpscQueue Timer TimerQueue EventLoop Channel Poller Kernel LoopLife.

(** ** The components of the loop *)
Section parts.
Context {K F Q : Type}.

#[global] Instance pending_part : Part (EventLoop K F Q) (Loop F Q) := {| get := pending; put := set_pending |}.
#[global] Instance pending_part_laws : PartLaws (EventLoop K F Q) (Loop F Q).
Proof. by split; [|intros []|]. Qed.
#[global] Instance poller_part : Part (EventLoop K F Q) (Reactor K) := {| get := poller_; put := set_poller |}.
#[global] Instance poller_part_laws : PartLaws (EventLoop K F Q) (Reactor K).
Proof. by split; [|intros []|]. Qed.
#[global] Instance timers_part : Part (EventLoop K F Q) TimerQueue := {| get := timerQueue_; put := set_timers |}.
#[global] Instance timers_part_laws : PartLaws (EventLoop K F Q) TimerQueue.
Proof. by split; [|intros []|]. Qed.
End parts.

(** ** User code

    Besides the calls of [lact]: timers, channels, descriptors.  [UOpen] and
    [UClose] stand for the calls that make and close descriptors. *)
Inductive uact : Type :=
| UTimer (a : tact)
| UChan (o : rop)
| UOpen (fd : Z)
| UClose (fd : Z).

(** What happens in a round: the answer of [epoll_wait], what the callbacks of
    the clients' channels do, and what the callbacks of timers do. *)
Record Round (F : Type) : Type := mkRound {
  wait : wait_result;
  on_event : Z -> cbk -> list (lact F uact);
  on_timer : list (list (lact F uact))
}.
Arguments mkRound {F}.
Arguments wait {F}.
Arguments on_event {F}.
Arguments on_timer {F}.

Section loop_round.
Context {K F Q : Type} `{Kernel K} `{PendingOps F Q}.
Context (alloc : gmap Z Timer -> Z) (may : uact -> bool) (body : F -> list (lact F uact)).
Implicit Types (w : EventLoop K F Q) (p fd : Z).

Definition do_uact w (a : uact) : res (EventLoop K F Q) :=
  match a with
  | UTimer a => tq ← do_act alloc (timerQueue_ w) a; Ok (set_timers w tq)
  | UChan o => r ← do_rop (poller_ w) o; Ok (set_poller w r)
  | UOpen fd => Ok (set_poller w (set_epoll (poller_ w) (sys_open (epoll (poller_ w)) fd)))
  | UClose fd => Ok (set_poller w (set_epoll (poller_ w) (sys_close (epoll (poller_ w)) fd)))
  end.

(** The contract of the library: reasonable times; the protocol of channels
    ([pre]), on channels that are not the loop's and whose descriptor is open
    when they are registered; no channel is deleted, or tied, while its event
    is being handled; a descriptor is closed only when nothing in the loop uses
    it. *)
Definition allowed w (a : uact) : Prop :=
  match a with
  | UTimer a => acts_ok (timerQueue_ w) [a]
  | UChan o =>
      pre (poller_ w) o /\ opened (poller_ w) o /\
      rop_on o <> Some (timerfdChannel_ (fixed w)) /\ rop_on o <> Some (wakeupChannel_ (fixed w)) /\
      match o with
      | RTie p _ | RDelete p => eventHandling_ w = false \/ (p ∉ activeChannels_ w)
      | _ => True
      end
  | UOpen fd => fd ∉ kfds (epoll (poller_ w))
  | UClose fd =>
      (fd ∉ [epollfd_ (fixed w); timerfd_ (fixed w); wakeupFd_ (fixed w)]) /\ channels_ (poller_ w) !! fd = None
  end.

#[global] Instance allowed_dec w a : Decision (allowed w a).
Proof. destruct a as [a|[]|fd|fd]; unfold allowed; apply _. Defined.

(** User code that keeps to the contract: what it may not do it does not do.
    [may] leaves out calls the user's code never makes. *)
Definition user w (a : uact) : res (EventLoop K F Q) :=
  if decide (may a = true /\ allowed w a) then do_uact w a else Ok w.

(** ** A round

    What the callback [k] of the channel at [p] is: [TimerQueue::handleRead],
    [EventLoop::handleRead] or a client's.  The loop's own channels have a read
    callback only. *)
Definition callback (n : nat) (r : Round F) w p (k : cbk) : res (EventLoop K F Q) :=
  if p =? timerfdChannel_ (fixed w) then
    match k with
    | CbRead => TimerQueue.handleRead (handlers user body n) w (on_timer r)
    | _ => Ok w
    end
  else if p =? wakeupChannel_ (fixed w) then
    match k with
    | CbRead => Ok (modify EventLoop.handleRead w)
    | _ => Ok w
    end
  else handlers user body n w (on_event r p k).

(** [activeChannels_.clear(); poller_->poll(kPollTimeMs, &activeChannels_)].
    The timer descriptor is reported when it expired, at which the kernel
    disarmed it. *)
Definition expire w (answer : wait_result) : EventLoop K F Q :=
  match answer with
  | WEvents evs =>
      if bool_decide (timerfdChannel_ (fixed w) ∈ evs.*2) then set_timers w (disarmTimerfd (timerQueue_ w)) else w
  | WError _ => w
  end.

Definition poll_active w (answer : wait_result) : res (EventLoop K F Q) :=
  '(active, r) ← poll (poller_ w) answer;
  Ok (set_active (set_poller (expire w answer) r) active).

(** A round up to [doPendingFunctors]. *)
Definition handle_events (n : nat) w (r : Round F) : res (EventLoop K F Q) :=
  w1 ← poll_active w (wait r);
  w2 ← handle_active (callback n r) (set_handling_events w1 true) (activeChannels_ w1);
  Ok (set_handling_events w2 false).

Definition loop_body (n : nat) w (r : Round F) : res (EventLoop K F Q) :=
  w1 ← handle_events n w r;
  doPendingFunctors user body n w1.

(** [EventLoop::assertInLoopThread] and what calls it: [loop], and what the
    channels call. *)
Definition assertInLoopThread (inLoop : bool) : res unit := if inLoop then Ok tt else Fault StdAbort.

Definition EventLoop_loop (inLoop : bool) (n : nat) w (rounds : list (Round F)) : res (EventLoop K F Q) :=
  assertInLoopThread inLoop;;
  loop user body handle_events n w rounds.

Definition EventLoop_updateChannel (inLoop : bool) w p : res (EventLoop K F Q) :=
  assertInLoopThread inLoop;;
  r ← updateChannel (poller_ w) p; Ok (set_poller w r).

Definition EventLoop_removeChannel (inLoop : bool) w p : res (EventLoop K F Q) :=
  assertInLoopThread inLoop;;
  r ← removeChannel (poller_ w) p; Ok (set_poller w r).

Definition EventLoop_hasChannel (inLoop : bool) w p : res bool :=
  assertInLoopThread inLoop;;
  hasChannel (poller_ w) p.
End loop_round.

(** ** What user code keeps

    [rest_ok]: what holds of the loop besides its functors and timers: its two
    channels listen, its descriptors are open, and what is in the loop has an
    open descriptor. *)
Section user_code.
Context {K F Q : Type} `{KernelLaws K} `{PendingQueue F Q}.
Context (alloc : gmap Z Timer -> Z) (Halloc : alloc_ok alloc) (may : uact -> bool).
Implicit Types (w : EventLoop K F Q) (p fd : Z).

Record rest_ok w : Prop := mkRestOk {
  ro_open : fds_open (poller_ w);
  ro_timer : own (poller_ w) (timerfdChannel_ (fixed w)) (timerfd_ (fixed w));
  ro_wakeup : own (poller_ w) (wakeupChannel_ (fixed w)) (wakeupFd_ (fixed w));
  ro_distinct : NoDup [epollfd_ (fixed w); timerfd_ (fixed w); wakeupFd_ (fixed w)];
  ro_fds fd : fd ∈ [epollfd_ (fixed w); timerfd_ (fixed w); wakeupFd_ (fixed w)] -> fd ∈ kfds (epoll (poller_ w));
  ro_channels : timerfdChannel_ (fixed w) <> wakeupChannel_ (fixed w)
}.

(** Between two states of a round. *)
Record moved w w' : Prop := mkMoved {
  mv_fixed : fixed w' = fixed w;
  mv_handling : eventHandling_ w' = eventHandling_ w;
  mv_active : activeChannels_ w' = activeChannels_ w;
  mv_keeps : eventHandling_ w = true -> keeps (activeChannels_ w) (poller_ w) (poller_ w');
  mv_trace : trace (poller_ w') = trace (poller_ w)
}.

Lemma moved_refl w : moved w w.
Proof. split; try done. intros _. apply keeps_refl. Qed.

Lemma moved_trans w1 w2 w3 : moved w1 w2 -> moved w2 w3 -> moved w1 w3.
Proof.
  intros [A1 B1 C1 D1 E1] [A2 B2 C2 D2 E2]. split; try congruence.
  intros Hh. eapply keeps_trans; [by apply D1|]. rewrite <- C1. apply D2. congruence.
Qed.

(** A change of the poller that leaves the loop's channels alone. *)
Lemma rest_poller w r :
  rest_ok w -> fds_open r ->
  chans r !! timerfdChannel_ (fixed w) = chans (poller_ w) !! timerfdChannel_ (fixed w) ->
  chans r !! wakeupChannel_ (fixed w) = chans (poller_ w) !! wakeupChannel_ (fixed w) ->
  (forall fd, fd ∈ [epollfd_ (fixed w); timerfd_ (fixed w); wakeupFd_ (fixed w)] -> fd ∈ kfds (epoll r)) ->
  rest_ok (set_poller w r).
Proof.
  intros [_ (c1 & ? & ?) (c2 & ? & ?) ? _ ?] Ho E1 E2 Hfds. split; try done; simpl.
  - exists c1. by rewrite E1.
  - exists c2. by rewrite E2.
Qed.

Lemma do_uact_spec w a :
  rest_ok w -> allowed w a -> match a with UTimer _ => False | _ => True end ->
  exists w', do_uact alloc w a = Ok w' /\ rest_ok w' /\ moved w w' /\
    pending w' = pending w /\ timerQueue_ w' = timerQueue_ w.
Proof.
  intros R Ha Ht. pose proof (ro_open _ R) as Hopen. pose proof Hopen as [I Hfd].
  destruct a as [a|o|fd|fd]; [done|..]; cbn [do_uact].
  - destruct Ha as (Hpre & Hop & Hpt & Hpw & Hact).
    destruct (do_rop_ok _ o Hopen Hpre Hop) as (r' & E & Hopen'). rewrite E. cbn [mbind res_bind].
    destruct (do_rop_frame _ o r' _ I Hpre E Hpt) as [E1 Hk].
    destruct (do_rop_frame _ o r' _ I Hpre E Hpw) as [E2 _].
    eexists. split; [done|]. split_and!; [|split; try done; simpl|done|done].
    + apply rest_poller; try done. rewrite Hk. apply (ro_fds _ R).
    + intros Hh. apply (do_rop_keeps (activeChannels_ w) _ o); try done.
      destruct o; try done; destruct Hact; [congruence|done|congruence|done].
    + by apply (do_rop_keeps [] _ o r' I Hpre E); destruct o; try done; apply not_elem_of_nil.
  - simpl in Ha. eexists. split; [done|]. split_and!; [|split; try done; simpl; intros _; by apply keeps_chans|done|done].
    apply rest_poller; try done; simpl.
    + by apply fds_open_sys_open.
    + intros fd' Hfd'. rewrite open_fds. apply elem_of_union. right. by apply (ro_fds _ R).
  - destruct Ha as [Hn Hslot]. eexists. split; [done|].
    split_and!; [|split; try done; simpl; intros _; by apply keeps_chans|done|done].
    apply rest_poller; try done; simpl.
    + by apply fds_open_sys_close.
    + intros fd' Hfd'. rewrite close_fds. apply elem_of_difference. split; [by apply (ro_fds _ R)|].
      intros ->%elem_of_singleton. done.
Qed.

Lemma do_acts_app s (acts1 acts2 : list tact) :
  do_acts alloc s (acts1 ++ acts2) = (s1 ← do_acts alloc s acts1; do_acts alloc s1 acts2).
Proof.
  revert s. induction acts1 as [|a acts IH]; intros s; cbn [app do_acts]; [done|].
  destruct (do_act alloc s a); cbn [mbind res_bind]; [apply IH|done].
Qed.

(** What code that started in [w] has reached: timers were used through
    [addTimer] and [cancel]. *)
Definition timers_used s s' : Prop :=
  exists acts, Forall (fun a => may (UTimer a) = true) acts /\ acts_ok s acts /\ do_acts alloc s acts = Ok s'.

Lemma timers_used_refl s : acts_ok s [] -> timers_used s s.
Proof. intros Hok. by exists []. Qed.

Lemma timers_used_trans out P s1 s2 s3 :
  tq_inv out s1 -> armed P s1 -> timers_used s1 s2 -> timers_used s2 s3 -> timers_used s1 s3.
Proof.
  intros I A (a1 & M1 & Ok1 & E1) (a2 & M2 & Ok2 & E2). exists (a1 ++ a2).
  destruct (do_acts_spec alloc Halloc out P s1 a1 I A Ok1) as (s & E' & _ & _ & Fr).
  rewrite E' in E1. injection E1 as ->. split_and!; [by apply Forall_app| |].
  - eapply acts_ok_app; [done|apply (f_clock _ _ _ _ Fr)|apply (f_created _ _ _ _ Fr)|done].
  - rewrite do_acts_app, E'. exact E2.
Qed.

(** It keeps the invariant of the timers. *)
Lemma timers_used_spec out P s s' :
  tq_inv out s -> armed P s -> timers_used s s' ->
  tq_inv out s' /\ armed P s' /\ acts_ok s' [] /\
  exists acts, Forall (fun a => may (UTimer a) = true) acts /\ acts_ok s acts /\ acts_frame out acts s s'.
Proof.
  intros I A (acts & M & Hok & E). destruct (do_acts_spec alloc Halloc out P s acts I A Hok) as (s1 & E' & I' & A' & Fr).
  rewrite E' in E. injection E as ->. split_and!; [done|done| |by exists acts].
  destruct Hok as (_ & ? & ?). pose proof (f_clock _ _ _ _ Fr). pose proof (f_created _ _ _ _ Fr).
  split_and!; simpl; done || lia.
Qed.

Record reached w v : Prop := mkReached {
  re_rest : rest_ok v;
  re_moved : moved w v;
  re_timers : timers_used (timerQueue_ w) (timerQueue_ v)
}.

Lemma rest_pending w s : rest_ok w -> rest_ok (set_pending w s).
Proof. by intros []. Qed.

Lemma reached_refl w : rest_ok w -> acts_ok (timerQueue_ w) [] -> reached w w.
Proof. intros R Hok. split; [done|apply moved_refl|by apply timers_used_refl]. Qed.

Section timers.
Context (out : list Z) (P : Z -> Prop) (w : EventLoop K F Q).
Context (It : tq_inv out (timerQueue_ w)) (Ha : armed P (timerQueue_ w)).

Lemma user_good : good_code (Q := Q) (F := F) (user alloc may) (reached w).
Proof.
  split.
  - intros v s [R [M1 M2 M3 M4 M5] Hacts]. by split; [apply rest_pending|split|].
  - intros v a Hr. unfold user. destruct (decide _) as [[Hm Hal]|_]; [|by exists v].
    destruct a as [a|o|fd|fd].
    2-4: destruct (do_uact_spec v _ (re_rest _ _ Hr) Hal) as (v' & -> & R' & M & Ep & Et); [done|];
      exists v'; (split_and!; [done| |done]); destruct Hr as [_ M0 Hacts];
      (split; [done|by eapply moved_trans|by rewrite Et]).
    destruct (timers_used_spec out P _ _ It Ha (re_timers _ _ Hr)) as (It' & Ha' & _). simpl in Hal.
    destruct (do_act_spec alloc Halloc out P _ a It' Ha' Hal) as (tq & E & I2 & A2 & Fr).
    exists (set_timers v tq). cbn [do_uact]. rewrite E. split_and!; [done| |done].
    destruct Hr as [R M Hacts]. split; [by destruct R|by destruct M|].
    eapply timers_used_trans; [done|done|exact Hacts|]. exists [a]. cbn [do_acts]. by rewrite E, Forall_singleton.
Qed.
End timers.
End user_code.

(** ** The handlers of a round *)

(** What the dispatch touches is not what the loop's channels depend on. *)
Section touch.
Context {K : Type} `{KernelLaws K}.
Implicit Types (r : Reactor K).

Lemma touch_chan r r' q c :
  touch r r' -> chans r !! q = Some c ->
  exists c', chans r' !! q = Some c' /\ fd_ c' = fd_ c /\ events_ c' = events_ c /\ addedToLoop_ c' = addedToLoop_ c /\
    same_rest c c'.
Proof.
  intros [p k|p d b Hp] Hq; [by exists c; split_and!|]. simpl. rewrite lookup_insert. case_decide as E.
  - subst q. rewrite Hp in Hq. injection Hq as <-. exists (set_handling d b). by split_and!.
  - exists c. by split_and!.
Qed.

Lemma own_same_rest r r' q fd :
  (forall c, chans r !! q = Some c -> exists c', chans r' !! q = Some c' /\ fd_ c' = fd_ c /\ events_ c' = events_ c /\
     addedToLoop_ c' = addedToLoop_ c /\ tied_ c' = tied_ c /\
     (readCallback_ c', writeCallback_ c', closeCallback_ c', errorCallback_ c') =
     (readCallback_ c, writeCallback_ c, closeCallback_ c, errorCallback_ c)) ->
  own r q fd -> own r' q fd.
Proof.
  intros Hs (c & Hq & Hf & He & Ha & Ht & Hcb). destruct (Hs c Hq) as (c' & Hq' & Hf' & He' & Ha' & Ht' & Hcb').
  exists c'. unfold reads_only. split_and!; congruence.
Qed.

Lemma own_touch r r' q fd : touch r r' -> own r q fd -> own r' q fd.
Proof.
  intros Ht. apply own_same_rest. intros c Hc.
  destruct (touch_chan r r' q c Ht Hc) as (c' & ? & ? & ? & ? & (_ & _ & ? & _ & ?)). exists c'. by split_and!.
Qed.

Lemma fds_open_touch r r' : touch r r' -> fds_open r -> fds_open r'.
Proof.
  intros Ht [I Ho]. split; [by eapply touch_inv|]. assert (epoll r' = epoll r) as -> by by destruct Ht.
  intros q c' Hq' Ha'. assert (exists c, chans r !! q = Some c) as [c Hq].
  { destruct Ht as [|p c b Hp]; [by exists c'|]. simpl in Hq'. rewrite lookup_insert in Hq'. case_decide; [subst; eauto|eauto]. }
  destruct (touch_chan r r' q c Ht Hq) as (d & Hd & Hf & _ & Hda & _). assert (d = c') as -> by congruence.
  rewrite Hf. apply (Ho q c Hq). congruence.
Qed.

(** A channel that only reads: its one callback runs. *)
Section own_event.
Context {W : Type} `{PartLaws W (Reactor K)} (run : W -> Z -> cbk -> res W).
Implicit Types (w : W).

Lemma try_skip w p k c :
  chans (get w) !! p = Some c -> selected c k = false -> try_callback run (Ok w) p k = Ok w.
Proof. intros Hp Hs. unfold try_callback. cbn [mbind res_bind]. rewrite Hp. cbn [deref mbind res_bind]. by rewrite Hs. Qed.

Lemma try_run w p k c :
  chans (get w) !! p = Some c -> selected c k = true ->
  try_callback run (Ok w) p k = run (put w (log_cbk (get w) p k)) p k.
Proof. intros Hp Hs. unfold try_callback. cbn [mbind res_bind]. rewrite Hp. cbn [deref mbind res_bind]. by rewrite Hs. Qed.

Lemma reads_only_selected c : reads_only c -> revents_ c = EPOLLIN ->
  selected c CbClose = false /\ selected c CbError = false /\ selected c CbRead = true /\ selected c CbWrite = false.
Proof. intros (_ & [= Hr Hw Hcl Her]) Hre. unfold selected. rewrite Hre, Hr, Hw, Hcl, Her. by vm_compute. Qed.

Lemma own_event w w1 p c c1 :
  chans (get w) !! p = Some c -> reads_only c -> revents_ c = EPOLLIN ->
  let w0 := put w (log_cbk (set_chan (get w) p (set_handling c true)) p CbRead) in
  run w0 p CbRead = Ok w1 -> chans (get w1) !! p = Some c1 -> same_rest (set_handling c true) c1 ->
  handleEvent run w p = Ok (put w1 (set_chan (get w1) p (set_handling c1 false))).
Proof.
  intros Hp Hro Hre w0 E Hp1 Hs1. set (c0 := set_handling c true) in *.
  set (wa := put w (set_chan (get w) p c0)).
  assert (chans (get wa) !! p = Some c0) as Hpa by (unfold wa; rewrite get_put; apply lookup_insert_eq).
  destruct (reads_only_selected c0 Hro Hre) as (S1 & S2 & S3 & S4).
  unfold handleEvent. rewrite Hp. cbn [deref mbind res_bind]. rewrite (proj1 Hro).
  unfold handleEventWithGuard. rewrite Hp. cbn [deref mbind res_bind].
  assert (foldl (fun rw k => try_callback run rw p k) (Ok wa) all_cbks = Ok w1) as E1.
  { unfold all_cbks. cbn [foldl]. rewrite (try_skip wa p CbClose c0), (try_skip wa p CbError c0), (try_run wa p CbRead c0) by done.
    assert (put wa (log_cbk (get wa) p CbRead) = w0) as -> by (unfold wa; by rewrite get_put, put_put).
    rewrite E. apply (try_skip w1 p CbWrite c1); [done|]. by rewrite (selected_same c0 c1). }
  change (modify (fun r : Reactor K => set_chan r p (set_handling c true)) w) with wa.
  rewrite E1. cbn [mbind res_bind]. by rewrite Hp1.
Qed.
End own_event.
End touch.

Section rounds.
Context {K F Q : Type} `{KernelLaws K} `{PendingQueue F Q}.
Context (alloc : gmap Z Timer -> Z) (Halloc : alloc_ok alloc) (may : uact -> bool).
Context (body : F -> list (lact F uact)) (size : F -> nat) (Hsized : sized body size).
Implicit Types (w v : EventLoop K F Q) (p fd : Z) (r : Round F) (ring : list F).

Lemma rest_touch w (r : Reactor K) : rest_ok w -> touch (poller_ w) r -> rest_ok (set_poller w r).
Proof.
  intros [Ho O1 O2 ? Hfds ?] Ht. split; try done; simpl.
  - by eapply fds_open_touch.
  - by eapply own_touch.
  - by eapply own_touch.
  - assert (epoll r = epoll (poller_ w)) as -> by by destruct Ht. apply Hfds.
Qed.

Lemma rest_timers w s : rest_ok w -> rest_ok (set_timers w s).
Proof. by intros []. Qed.

(** User code that runs to its end. *)
Lemma code_spec n w l out P ring :
  (acts_size size l <= n)%nat -> rest_ok w -> lrep (pending w) None ring ->
  tq_inv out (timerQueue_ w) -> armed P (timerQueue_ w) -> acts_ok (timerQueue_ w) [] ->
  exists w' ring' t, handlers (user alloc may) body n w l = Ok w' /\ reached alloc may w w' /\
    effect size None ring ring' (acts_size size l) (pending w) (pending w') t.
Proof.
  intros Hn R Hr It Ha Hok.
  by apply (handlers_effect body size (user alloc may) (reached alloc may w) (user_good alloc Halloc may out P w It Ha) Hsized n None ring w l);
    [|apply reached_refl|].
Qed.

(** Since [w0] user code and handlers ran. *)
Record phase ring0 w0 v : Prop := mkPhase {
  ph_rest : rest_ok v;
  ph_fixed : fixed v = fixed w0;
  ph_handling : eventHandling_ v = eventHandling_ w0;
  ph_active : activeChannels_ v = activeChannels_ w0;
  ph_timers : timers_used alloc may (timerQueue_ w0) (timerQueue_ v);
  ph_effect : exists n ring t, effect size None ring0 ring n (pending w0) (pending v) t
}.

Lemma phase_refl ring w : rest_ok w -> lrep (pending w) None ring -> acts_ok (timerQueue_ w) [] -> phase ring w w.
Proof. intros R Hr Hok. split; try done; [by apply timers_used_refl|]. exists 0%nat, ring, []. by apply effect_refl. Qed.

Lemma phase_touch ring0 w0 v (r : Reactor K) :
  phase ring0 w0 v -> touch (poller_ v) r -> phase ring0 w0 (set_poller v r).
Proof. intros [R ? ? ? ? ?] Ht. split; try done. by apply rest_touch. Qed.

Section dispatch.
Context (ring0 : list F) (w0 : EventLoop K F Q) (P : Z -> Prop).
Context (It : tq_inv [] (timerQueue_ w0)) (Ha : armed P (timerQueue_ w0)).

Lemma phase_code n v l :
  phase ring0 w0 v -> (acts_size size l <= n)%nat ->
  exists v', handlers (user alloc may) body n v l = Ok v' /\ phase ring0 w0 v' /\ moved v v'.
Proof.
  intros [R E1 E2 E3 U (m & ring & t & Eff)] Hn.
  destruct (timers_used_spec alloc Halloc may [] P _ _ It Ha U) as (Iv & Av & Okv & _).
  destruct (code_spec n v l [] P ring Hn R (e_rep _ _ _ _ _ _ _ _ Eff) Iv Av Okv)
    as (v' & ring' & t' & E & [R' M U'] & Eff').
  exists v'. split_and!; [done| |done]. destruct M as [M1 M2 M3 _ _]. split; try congruence.
  - by eapply timers_used_trans.
  - exists (m + acts_size size l)%nat, ring', (t ++ t'). by eapply effect_trans.
Qed.

Lemma phase_wakeup v : phase ring0 w0 v -> phase ring0 w0 (set_pending v (EventLoop.handleRead (pending v))).
Proof.
  intros [R ? ? ? ? (n & ring & t & [? ? ? ? ? ?])]. split; try done; [by apply rest_pending|].
  exists n, ring, t. by split.
Qed.

(** The callbacks of the channels [ps] of clients, and of the wakeup channel. *)
Lemma clients_good n r ps :
  eventHandling_ w0 = true -> timerfdChannel_ (fixed w0) ∉ ps ->
  (forall p k, p ∈ ps -> (acts_size size (on_event r p k) <= n)%nat) ->
  good_run (phase ring0 w0) (fun _ => False) (activeChannels_ w0) (callback alloc may body n r) ps.
Proof.
  intros Hh Hnot Hn. split; [intros v Ph; apply (ro_open _ (ph_rest _ _ _ Ph))|intros v s; apply phase_touch|].
  intros v p k Ph Hp Hl. unfold batch_outcome, callback. rewrite (ph_fixed _ _ _ Ph).
  destruct (Z.eqb_spec p (timerfdChannel_ (fixed w0))) as [->|_]; [done|].
  assert (forall v', phase ring0 w0 v' -> moved v v' ->
    phase ring0 w0 v' /\ keeps (activeChannels_ w0) (poller_ v) (poller_ v') /\
    exists t, trace (poller_ v') = trace (poller_ v) ++ t /\ t = []) as Hdone.
  { intros v' Ph' M. split_and!; [done| |exists []; split; [by rewrite app_nil_r, (mv_trace _ _ M)|done]].
    rewrite <- (ph_active _ _ _ Ph). apply (mv_keeps _ _ M). by rewrite (ph_handling _ _ _ Ph). }
  destruct (Z.eqb_spec p (wakeupChannel_ (fixed w0))) as [->|_].
  - destruct k; try (apply Hdone; [done|apply moved_refl]).
    apply Hdone; [by apply phase_wakeup|]. split; try done. intros _. apply keeps_refl.
  - destruct (phase_code n v (on_event r p k) Ph (Hn p k Hp)) as (v' & -> & Ph' & M). by apply Hdone.
Qed.
End dispatch.

(** The event of the timer descriptor. *)
Lemma timer_code_good n v ring :
  good_callbacks alloc (handlers (user alloc may) body n) (fun l => (acts_size size l <= n)%nat)
    (fun u => rest_ok u /\ moved v u /\ exists m ring' t, effect size None ring ring' m (pending v) (pending u) t).
Proof.
  split.
  - intros u s (R & [? ? ? ? ?] & Eff). split_and!; [by apply rest_timers|by split|done].
  - intros u l out P Hl (R & M & m & ring' & t & Eff) Iu Au Oku.
    destruct (code_spec n u l out P ring' Hl R (e_rep _ _ _ _ _ _ _ _ Eff) Iu Au Oku)
      as (u' & ring2 & t2 & E & [R' M' (acts & _ & Hok & Eacts)] & Eff').
    exists u', acts. split_and!; try done; [by eapply moved_trans|].
    exists (m + acts_size size l)%nat, ring2, (t ++ t2). by eapply effect_trans.
Qed.

Lemma timer_event n r v ring c :
  rest_ok v -> lrep (pending v) None ring -> tq_inv [] (timerQueue_ v) -> acts_ok (timerQueue_ v) [] ->
  eventHandling_ v = true -> timerfdChannel_ (fixed v) ∈ activeChannels_ v ->
  chans (poller_ v) !! timerfdChannel_ (fixed v) = Some c -> reads_only c -> revents_ c = EPOLLIN ->
  Forall (fun l => (acts_size size l <= n)%nat) (on_timer r) ->
  exists v' due later acts, handleEvent (callback alloc may body n r) v (timerfdChannel_ (fixed v)) = Ok v' /\
    rest_ok v' /\ fixed v' = fixed v /\ eventHandling_ v' = true /\ activeChannels_ v' = activeChannels_ v /\
    keeps (activeChannels_ v) (poller_ v) (poller_ v') /\ quiet (timerQueue_ v') /\
    acts_ok (timerQueue_ v) acts /\ fire_rel (timerQueue_ v) (timerQueue_ v') due later acts /\
    exists m ring' t, effect size None ring ring' m (pending v) (pending v') t.
Proof.
  intros R Hr Iv Okv Hh Hact Hc Hro Hre Hsmall. set (p := timerfdChannel_ (fixed v)) in *.
  set (c0 := set_handling c true). set (ra := set_chan (poller_ v) p c0).
  assert (touch (poller_ v) ra) as T1 by by constructor.
  assert (touch ra (log_cbk ra p CbRead)) as T2 by constructor.
  set (v0 := set_poller v (log_cbk ra p CbRead)).
  assert (rest_ok v0) as R0 by (apply (rest_touch (set_poller v ra)); [by apply rest_touch|done]).
  destruct (handleRead_world alloc Halloc _ _ _ (timer_code_good n v0 ring) ltac:(unfold acts_size; simpl; lia) v0 (on_timer r))
    as (v1 & due & later & acts & E & (R1 & M1 & Eff1) & Q1 & Hok1 & F1); [done| |done|done|].
  { split_and!; [done|apply moved_refl|]. exists 0%nat, ring, []. by apply effect_refl. }
  destruct (mv_keeps _ _ M1 Hh p c0) as (c1 & Hc1 & Hs1); [done|apply lookup_insert_eq|].
  set (r1 := set_chan (poller_ v1) p (set_handling c1 false)).
  assert (touch (poller_ v1) r1) as T3 by by constructor.
  destruct M1 as [A1 B1 C1 D1 _]. exists (set_poller v1 r1), due, later, acts. split_and!; try done.
  - refine (own_event (W := EventLoop K F Q) (callback alloc may body n r) v v1 p c c1 _ _ _ _ _ _); try done.
    unfold callback. change (fixed (put v _)) with (fixed v). fold p. by rewrite Z.eqb_refl.
  - by apply rest_touch.
  - simpl. by rewrite B1.
  - eapply keeps_trans; [by apply touch_keeps, T1|]. eapply keeps_trans; [by apply touch_keeps, T2|].
    eapply keeps_trans; [by apply D1|]. by apply touch_keeps.
Qed.

(** What a round does to the timers: user code used them, and in between, if
    the descriptor was reported, the due ones ran. *)
Inductive timers_round (tq : TimerQueue) : bool -> TimerQueue -> Prop :=
| round_used tq' : timers_used alloc may tq tq' -> timers_round tq false tq'
| round_expired s due later acts s' tq' :
    timers_used alloc may tq s -> fire_rel s s' due later acts -> quiet s' -> timers_used alloc may s' tq' ->
    timers_round tq true tq'.

Lemma used_quiet s s' : quiet s -> timers_used alloc may s s' -> quiet s' /\ acts_ok s' [].
Proof.
  intros [I A C] U. destruct (timers_used_spec alloc Halloc may [] _ _ _ I A U) as (I' & A' & Ok' & acts & _ & _ & Fr).
  split; [split; [done..|]|done]. by rewrite (f_calling _ _ _ _ Fr).
Qed.

Lemma clients_spec ring w0 P n r ps :
  tq_inv [] (timerQueue_ w0) -> armed P (timerQueue_ w0) ->
  rest_ok w0 -> lrep (pending w0) None ring -> acts_ok (timerQueue_ w0) [] ->
  eventHandling_ w0 = true -> (timerfdChannel_ (fixed w0) ∉ ps) -> ps ⊆ activeChannels_ w0 ->
  (forall q, q ∈ activeChannels_ w0 -> is_Some (chans (poller_ w0) !! q)) ->
  (forall p k, p ∈ ps -> (acts_size size (on_event r p k) <= n)%nat) ->
  exists v, handle_active (callback alloc may body n r) w0 ps = Ok v /\ phase ring w0 v /\
    keeps (activeChannels_ w0) (poller_ w0) (poller_ v).
Proof.
  intros I A R Hr Hok Hh Hnot Hsub Hl Hn.
  pose proof (handle_active_spec (W := EventLoop K F Q) _ _ _ _ ps (clients_good ring w0 P I A n r ps Hh Hnot Hn)
    w0 ps (phase_refl ring w0 R Hr Hok) Hsub ltac:(done) Hl) as Hb.
  unfold batch_outcome in Hb. destruct (handle_active _ _ _) as [v|f]; [|done].
  destruct Hb as (Ph & Hk & _). by exists v.
Qed.

Lemma dispatch_spec n r w0 ring :
  rest_ok w0 -> lrep (pending w0) None ring -> tq_inv [] (timerQueue_ w0) ->
  callingExpiredTimers_ (timerQueue_ w0) = false -> acts_ok (timerQueue_ w0) [] ->
  eventHandling_ w0 = true -> NoDup (activeChannels_ w0) ->
  (forall q, q ∈ activeChannels_ w0 -> is_Some (chans (poller_ w0) !! q)) ->
  (forall c, timerfdChannel_ (fixed w0) ∈ activeChannels_ w0 ->
     chans (poller_ w0) !! timerfdChannel_ (fixed w0) = Some c -> reads_only c /\ revents_ c = EPOLLIN) ->
  (timerfdChannel_ (fixed w0) ∉ activeChannels_ w0 -> armed (fun _ => True) (timerQueue_ w0)) ->
  Forall (fun l => (acts_size size l <= n)%nat) (on_timer r) ->
  (forall p k, p ∈ activeChannels_ w0 -> (acts_size size (on_event r p k) <= n)%nat) ->
  exists w', handle_active (callback alloc may body n r) w0 (activeChannels_ w0) = Ok w' /\
    rest_ok w' /\ fixed w' = fixed w0 /\ quiet (timerQueue_ w') /\ acts_ok (timerQueue_ w') [] /\
    timers_round (timerQueue_ w0) (bool_decide (timerfdChannel_ (fixed w0) ∈ activeChannels_ w0)) (timerQueue_ w') /\
    exists m ring' t, effect size None ring ring' m (pending w0) (pending w') t.
Proof.
  intros R Hr I Hcall Hok Hh Hnd Hl Hpt Hnpt Hsmall Hn. set (p := timerfdChannel_ (fixed w0)) in *.
  case_bool_decide as Hin.
  - apply list_elem_of_split in Hin as (l1 & l2 & El). pose proof Hnd as Hnd'. rewrite El in Hnd'.
    apply NoDup_app in Hnd' as (_ & Hn1 & [Hn2 _]%NoDup_cons).
    assert (l1 ⊆ activeChannels_ w0 /\ l2 ⊆ activeChannels_ w0) as [Hs1 Hs2] by (rewrite El; split; set_solver).
    assert (p ∈ activeChannels_ w0) as Hin by (rewrite El; set_solver).
    destruct (clients_spec ring w0 (fun _ => False) n r l1 I) as (v1 & E1 & Ph1 & K1); try done.
    { unfold armed. by destruct (timers_ _). } { fold p. intros Hp1. apply (Hn1 p Hp1). by left. }
    { intros q k Hq. by apply Hn, Hs1. }
    destruct (Hl p Hin) as [c Hc]. destruct (Hpt c Hin Hc) as [Hro Hre].
    destruct (K1 p c Hin Hc) as (c1 & Hc1 & (Sf & Sr & St & Sti & Scb)).
    destruct Ph1 as [R1 F1 H1' A1 U1 (m1 & ring1 & t1 & Eff1)].
    destruct (timers_used_spec alloc Halloc may [] (fun _ => False) _ _ I ltac:(unfold armed; by destruct (timers_ _)) U1) as (I1 & _ & Ok1 & _).
    destruct (timer_event n r v1 ring1 c1) as
      (v2 & due & later & acts & E2 & R2 & F2 & H2' & A2 & K2 & Q2 & Hoka & Hfire & (m2 & ring2 & t2 & Eff2));
      try done; rewrite ?F1, ?A1; try done; [apply Eff1|congruence|unfold reads_only in *; by rewrite St, Scb|congruence|].
    rewrite F1 in E2. rewrite A1 in A2, K2. fold p in E2.
    assert (acts_ok (timerQueue_ v2) []) as Ok2.
    { pose proof (fi_clock _ _ _ _ _ Hfire). pose proof (fi_created _ _ _ _ _ Hfire). destruct Hoka as (_ & ? & ?).
      split_and!; simpl; done || lia. }
    destruct (clients_spec ring2 v2 (fun _ => True) n r l2) as (v3 & E3 & Ph3 & K3);
      try done; try apply Q2; try apply Eff2; rewrite ?F2, ?F1, ?A2; try done.
    { intros q Hq. eapply keeps_live; [exact K2| |exact Hq]. by eapply keeps_live. }
    { intros q k Hq. by apply Hn, Hs2. }
    exists v3. rewrite El, handle_active_app, E1. cbn [mbind res_bind handle_active]. rewrite E2. cbn [mbind res_bind].
    destruct Ph3 as [R3 F3 _ _ U3 (m3 & ring3 & t3 & Eff3)]. destruct (used_quiet _ _ Q2 U3) as [Q3 Ok3].
    split_and!; [done|done|congruence|done|done|by eapply round_expired|].
    exists (m1 + m2 + m3)%nat, ring3, ((t1 ++ t2) ++ t3).
    eapply effect_trans; [|done]. by eapply effect_trans.
  - destruct (clients_spec ring w0 (fun _ => True) n r (activeChannels_ w0) I (Hnpt Hin)) as (v & E & Ph & _); try done.
    assert (quiet (timerQueue_ w0)) as Q0 by (split; [done|by apply Hnpt|done]).
    exists v. destruct Ph as [R' F' _ _ U Eff]. destruct (used_quiet _ _ Q0 U) as [Q' Ok'].
    split_and!; try done. by apply round_used.
Qed.

(** ** A whole round *)

(** Between rounds. *)
Record loop_inv w ring : Prop := mkLoopInv {
  li_rest : rest_ok w;
  li_timers : quiet (timerQueue_ w);
  li_room : acts_ok (timerQueue_ w) [];
  li_rep : lrep (pending w) None ring;
  li_handling : eventHandling_ w = false
}.

Definition events_of (answer : wait_result) : list (Z * Z) :=
  match answer with WEvents evs => evs | WError _ => [] end.

(** What epoll_wait(2) and timerfd_create(2) document of an answer: see
    [wait_ok]; an expired timer is readable. *)
Definition answer_ok w (answer : wait_result) : Prop :=
  wait_ok (poller_ w) (events_of answer) /\
  forall e, (e, timerfdChannel_ (fixed w)) ∈ events_of answer -> e = EPOLLIN.

(** How deep the user's code of a round nests calls of functors, at most. *)
Definition round_size r : nat :=
  (sum_list_with (fun p => sum_list_with (fun k => acts_size size (on_event r p k)) all_cbks) (events_of (wait r)).*2 +
   sum_list_with (acts_size size) (on_timer r))%nat.

Lemma round_size_event r p k : p ∈ (events_of (wait r)).*2 -> (acts_size size (on_event r p k) <= round_size r)%nat.
Proof.
  intros Hp. unfold round_size.
  pose proof (sum_list_with_in p (fun p => sum_list_with (fun k => acts_size size (on_event r p k)) all_cbks) _ Hp) as H1'.
  assert (k ∈ all_cbks) as Hk by (unfold all_cbks; destruct k; set_solver).
  pose proof (sum_list_with_in k (fun k => acts_size size (on_event r p k)) _ Hk) as H2'. cbn beta in H1', H2'. lia.
Qed.

Lemma round_size_timer r : Forall (fun l => (acts_size size l <= round_size r)%nat) (on_timer r).
Proof.
  apply Forall_forall. intros l Hl. pose proof (sum_list_with_in l (acts_size size) _ Hl). unfold round_size. lia.
Qed.

Lemma poll_events (re : Reactor K) answer : poll re answer = poll re (WEvents (events_of answer)).
Proof. by destruct answer. Qed.

Lemma expire_spec w answer :
  let w' := expire w answer in
  pending w' = pending w /\ poller_ w' = poller_ w /\ fixed w' = fixed w /\ eventHandling_ w' = eventHandling_ w /\
  timerQueue_ w' = (if bool_decide (timerfdChannel_ (fixed w) ∈ (events_of answer).*2)
                    then disarmTimerfd (timerQueue_ w) else timerQueue_ w).
Proof. destruct answer as [evs|e]; simpl; [by case_bool_decide|done]. Qed.

(** Polling: the state the handlers start in. *)
Lemma poll_active_spec w ring answer :
  loop_inv w ring -> answer_ok w answer ->
  exists w1, poll_active w answer = Ok w1 /\ rest_ok w1 /\ pending w1 = pending w /\ fixed w1 = fixed w /\
    eventHandling_ w1 = false /\ activeChannels_ w1 = (events_of answer).*2 /\
    timerQueue_ w1 = timerQueue_ (expire w answer) /\
    (forall q, q ∈ (events_of answer).*2 -> is_Some (chans (poller_ w1) !! q)) /\
    (forall c, timerfdChannel_ (fixed w) ∈ (events_of answer).*2 ->
       chans (poller_ w1) !! timerfdChannel_ (fixed w) = Some c -> reads_only c /\ revents_ c = EPOLLIN).
Proof.
  intros [R Hq0 Hok Hr Hh] [Hw Ht]. pose proof (ro_open _ R) as [I Ho].
  destruct (poll_spec _ _ I Hw) as (r1 & E & I1 & Hout & Hin & _). pose proof (poll_epoll _ _ _ _ E) as Ee.
  assert (forall q c, chans (poller_ w) !! q = Some c ->
    exists e, chans r1 !! q = Some (setRevents c e) /\ ((e, q) ∈ events_of answer \/ e = revents_ c)) as Hsame.
  { intros q c Hq. destruct (decide (q ∈ (events_of answer).*2)) as [([e q'] & -> & He)%list_elem_of_fmap|Hn].
    - destruct (Hin e q' He) as (d & Hd & Hd' & _). simpl in Hq. rewrite Hq in Hd. injection Hd as <-.
      exists e. simpl. auto.
    - exists (revents_ c). rewrite Hout by done. split; [by rewrite Hq; destruct c|by right]. }
  assert (forall q fd, own (poller_ w) q fd -> own r1 q fd) as Hown.
  { intros q fd. apply own_same_rest. intros c Hq. destruct (Hsame q c Hq) as (e & Hq' & _).
    eexists. split; [exact Hq'|]. by split_and!. }
  destruct (expire_spec w answer) as (E1 & E2 & E3 & E4 & _).
  unfold poll_active. rewrite poll_events, E. cbn [mbind res_bind]. eexists. split; [done|].
  assert (forall q c', chans r1 !! q = Some c' -> exists c, chans (poller_ w) !! q = Some c /\
    addedToLoop_ c = addedToLoop_ c' /\ fd_ c = fd_ c') as Hback.
  { intros q c' Hq'. destruct (chans (poller_ w) !! q) as [c|] eqn:Hq.
    - destruct (Hsame q c Hq) as (e & Hq'' & _). exists c. split; [done|]. rewrite Hq' in Hq''. by injection Hq'' as ->.
    - destruct (decide (q ∈ (events_of answer).*2)) as [([e q2] & -> & He)%list_elem_of_fmap|Hn].
      + destruct (Hin e q2 He) as (d & Hd & _). simpl in Hq. congruence.
      + rewrite Hout in Hq' by done. congruence. }
  split_and!; simpl; try congruence; try done.
  - assert (rest_ok (set_poller w r1)) as R1.
    { destruct R as [_ O1 O2 Hd Hf Hne]. split; try done; simpl; [|by apply Hown..|by rewrite Ee].
      split; [done|]. intros q c' Hq' Ha'. destruct (Hback q c' Hq') as (c & Hc & Ea & <-). rewrite Ee.
      apply (Ho q c Hc). congruence. }
    destruct R1 as [? ? ? ? ? ?]. simpl in *. split; simpl; rewrite ?E3; done.
  - intros q ([e q'] & -> & He)%list_elem_of_fmap. destruct (Hin e q' He) as (d & _ & Hd & _). simpl. eauto.
  - intros c Hin' Hc. destruct (ro_timer _ R) as (d & Hd & _ & _ & _ & Hro).
    apply list_elem_of_fmap in Hin' as ([e q'] & Eq & He). simpl in Eq. rewrite <- Eq in He.
    destruct (Hin _ _ He) as (d' & Hd' & Hc' & _). rewrite Hc' in Hc. injection Hc as <-.
    rewrite Hd in Hd'. injection Hd' as <-. split; [exact Hro|]. simpl. by apply Ht.
Qed.

Lemma handle_events_spec w ring r :
  loop_inv w ring -> answer_ok w (wait r) ->
  exists w', handle_events alloc may body (round_size r) w r = Ok w' /\
    rest_ok w' /\ fixed w' = fixed w /\ eventHandling_ w' = false /\ quiet (timerQueue_ w') /\ acts_ok (timerQueue_ w') [] /\
    timers_round (timerQueue_ (expire w (wait r)))
      (bool_decide (timerfdChannel_ (fixed w) ∈ (events_of (wait r)).*2)) (timerQueue_ w') /\
    exists m ring' t, effect size None ring ring' m (pending w) (pending w') t.
Proof.
  intros L Hw. destruct (poll_active_spec w ring _ L Hw) as (w1 & E1 & R1 & P1 & F1 & _ & A1 & T1 & Hl & Hpt).
  destruct L as [R [I A C] Hok Hr Hh]. unfold handle_events. rewrite E1. cbn [mbind res_bind].
  destruct (expire_spec w (wait r)) as (_ & _ & _ & _ & ET). rewrite ET in T1.
  assert (tq_inv [] (timerQueue_ w1) /\ callingExpiredTimers_ (timerQueue_ w1) = false /\ acts_ok (timerQueue_ w1) []) as (I1 & C1 & Ok1).
  { rewrite T1. case_bool_decide; [|done]. split_and!; try done. eapply inv_frame; try done. apply (i_clock _ _ I). }
  destruct (dispatch_spec (round_size r) r (set_handling_events w1 true) ring) as (w2 & E2 & R2 & F2 & Q2 & Ok2 & Tr & Eff);
    try done; cbn [set_handling_events pending fixed timerQueue_ poller_ activeChannels_]; rewrite ?P1, ?F1, ?A1; try done.
  - by destruct R1.
  - apply Hw.
  - intros Hn. rewrite T1. by rewrite bool_decide_eq_false_2.
  - apply round_size_timer.
  - intros p k. apply round_size_event.
  - cbn [set_handling_events activeChannels_] in E2. rewrite A1 in E2. rewrite E2. cbn [mbind res_bind]. eexists. split; [done|].
    cbn [set_handling_events pending fixed timerQueue_ poller_ activeChannels_] in *. rewrite F1, A1 in Tr. rewrite P1 in Eff.
    rewrite ET, <- T1. split_and!; try done; [by destruct R2|congruence].
Qed.

Lemma handle_events_approx n m w r :
  (n <= m)%nat -> approx (handle_events alloc may body n w r) (handle_events alloc may body m w r).
Proof.
  intros Hm. unfold handle_events. apply approx_bind; [done|]. intros w1. apply approx_bind; [|done].
  apply handle_active_approx. intros v p k. unfold callback.
  destruct (p =? _); [|destruct (p =? _); [done|by apply handlers_approx]].
  destruct k; try done. apply handleRead_approx. intros u l. by apply handlers_approx.
Qed.

Lemma loop_body_approx n m w r :
  (n <= m)%nat -> approx (loop_body alloc may body n w r) (loop_body alloc may body m w r).
Proof.
  intros Hm. apply approx_bind; [by apply handle_events_approx|]. intros w1. by apply doPendingFunctors_approx.
Qed.

(** The functors of a round, after its handlers. *)
Lemma functors_spec w ring :
  loop_inv w ring ->
  exists n w' ring' t, doPendingFunctors (user alloc may) body n w = Ok w' /\ loop_inv w' ring' /\ fixed w' = fixed w /\
    timers_used alloc may (timerQueue_ w) (timerQueue_ w') /\
    ran (pending w') = ran (pending w) ++ t /\ ring ++ pendingFunctors_ (pending w) `sublist_of` t /\
    (quit_ (pending w) = true -> quit_ (pending w') = true) /\ looping_ (pending w') = looping_ (pending w).
Proof.
  intros [R Hq Hok Hr Hh]. pose proof Hq as [I A C].
  set (n := S (weight size ring + weight size (pendingFunctors_ (pending w)))).
  destruct (doPendingFunctors_spec body size (user alloc may) (reached alloc may w) (user_good alloc Halloc may [] _ w I A)
    Hsized n ring w ltac:(unfold n; simpl; lia) (reached_refl alloc may w R Hok) Hr)
    as (w' & ring' & t & E & [R' M U] & Hr' & Rn & Sub & _ & Hqu & Hlo).
  destruct (used_quiet _ _ Hq U) as [Q' Ok'].
  exists n, w', ring', t. split_and!; try done; [|apply M]. split; try done. by rewrite (mv_handling _ _ M).
Qed.

(** Timers that are due when the descriptor is reported run, unless the user's
    code cancels them. *)
Lemma round_timers s b s' :
  tq_inv [] s -> timers_round s b s' ->
  exists f, (fired s').*1 = (fired s).*1 ++ f /\ (b = false -> f = []) /\
    (b = true -> forall id tm, id ∈ activeTimers_ s -> heap s !! id.1 = Some tm -> expiration_ tm <= clock s ->
       may (UTimer (ActCancel id)) = false -> id ∈ f).
Proof.
  assert (forall s, armed (fun _ => False) s) as Hno by (intros v; unfold armed; by destruct (timers_ v)).
  intros I [s1 U|s1 due later acts s2 s3 U F1 Q2 U2].
  - destruct (timers_used_spec alloc Halloc may [] _ _ _ I (Hno _) U) as (_ & _ & _ & acts & _ & _ & Fr).
    exists []. split_and!; [by rewrite (f_fired _ _ _ _ Fr), app_nil_r|done|done].
  - destruct (timers_used_spec alloc Halloc may [] _ _ _ I (Hno _) U) as (I1 & _ & Ok1 & acts1 & Hmay & Hok1 & Fr).
    destruct (timers_used_spec alloc Halloc may [] _ _ _ (q_inv _ Q2) (Hno _) U2) as (_ & _ & _ & acts2 & _ & _ & Fr2).
    exists (ids_of (heap s1) due). split_and!; [|done|].
    + by rewrite (f_fired _ _ _ _ Fr2), (fi_fired _ _ _ _ _ F1), (f_fired _ _ _ _ Fr).
    + intros _ id tm Hid Htm Hdue Hm. pose proof (active_created _ _ _ I Hid) as Hn.
      assert (id ∈ activeTimers_ s1) as Hid1.
      { apply (f_active _ _ _ _ Fr); [done|]. split; [done|]. intros Hin.
        eapply Forall_forall in Hmay; [|exact Hin]. simpl in Hmay. congruence. }
      apply (due_iff s1 s2 due later acts id (expiration_ tm) I1 F1 Hid1).
      * exists tm. split; [|done]. rewrite <- Htm. destruct id as [p q]. by apply (f_stay _ _ _ _ Fr p q).
      * pose proof (f_clock _ _ _ _ Fr). pose proof (sum_acts_nonneg _ (proj1 Hok1)). lia.
Qed.

(** A round as a whole. *)
Lemma loop_body_spec w ring r :
  loop_inv w ring -> answer_ok w (wait r) ->
  exists n w' ring' t f, (forall m, (n <= m)%nat -> loop_body alloc may body m w r = Ok w') /\
    loop_inv w' ring' /\ fixed w' = fixed w /\
    ran (pending w') = ran (pending w) ++ t /\ ring ++ pendingFunctors_ (pending w) `sublist_of` t /\
    (quit_ (pending w) = true -> quit_ (pending w') = true) /\ looping_ (pending w') = looping_ (pending w) /\
    (fired (timerQueue_ w')).*1 = (fired (timerQueue_ w)).*1 ++ f /\
    (timerfdChannel_ (fixed w) ∉ (events_of (wait r)).*2 -> f = []) /\
    (timerfdChannel_ (fixed w) ∈ (events_of (wait r)).*2 ->
     forall id tm, id ∈ activeTimers_ (timerQueue_ w) -> heap (timerQueue_ w) !! id.1 = Some tm ->
       expiration_ tm <= clock (timerQueue_ w) -> may (UTimer (ActCancel id)) = false -> id ∈ f).
Proof.
  intros L Hw. destruct (handle_events_spec w ring r L Hw) as
    (w1 & E1 & R1 & F1 & H1' & Q1 & Ok1 & Tr & (m1 & ring1 & t1 & Eff)).
  assert (loop_inv w1 ring1) as L1 by (split; try done; apply Eff).
  destruct (functors_spec w1 ring1 L1) as (n2 & w2 & ring2 & t2 & E2 & L2 & F2 & U2 & Rn2 & Sub & Hqu & Hlo).
  pose proof (li_timers _ _ L) as [I A C].
  set (s0 := timerQueue_ (expire w (wait r))) in *.
  assert (tq_inv [] s0 /\ activeTimers_ s0 = activeTimers_ (timerQueue_ w) /\ heap s0 = heap (timerQueue_ w) /\
    clock s0 = clock (timerQueue_ w) /\ fired s0 = fired (timerQueue_ w)) as (I0 & EA & EH & EC & EF).
  { unfold s0. destruct (expire_spec w (wait r)) as (_ & _ & _ & _ & ->). case_bool_decide; [|done].
    split_and!; try done. eapply inv_frame; try done. apply (i_clock _ _ I). }
  assert (timers_round s0 (bool_decide (timerfdChannel_ (fixed w) ∈ (events_of (wait r)).*2)) (timerQueue_ w2)) as Tr2.
  { destruct Tr as [s1 U|s1 due later acts s2 s3 U Hf Q2 U3].
    - apply round_used. eapply (timers_used_trans alloc Halloc may [] (fun _ => False)); [done| |done|done].
      unfold armed. by destruct (timers_ _).
    - eapply round_expired; [done|done|done|].
      eapply (timers_used_trans alloc Halloc may [] (fun _ => True)); [apply Q2|apply Q2|done|done]. }
  destruct (round_timers _ _ _ I0 Tr2) as (f & Ef & Hno & Hdue). rewrite EF in Ef. rewrite EA, EH, EC in Hdue.
  destruct (e_queues _ _ _ _ _ _ _ _ Eff) as (g1 & g2 & -> & P1 & _).
  exists (round_size r `max` n2)%nat, w2, ring2, (t1 ++ t2), f. split_and!; try done.
  - intros m Hm. unfold loop_body.
    rewrite (approx_Ok _ _ _ (handle_events_approx (round_size r) m w r ltac:(lia)) E1). cbn [mbind res_bind].
    apply (approx_Ok _ _ _ (doPendingFunctors_approx (user alloc may) body n2 m w1 ltac:(lia)) E2).
  - congruence.
  - by rewrite Rn2, (e_ran _ _ _ _ _ _ _ _ Eff), app_assoc.
  - apply sublist_inserts_l. etrans; [|exact Sub]. rewrite P1. apply sublist_app; by apply sublist_inserts_r.
  - intros Hq0. by apply Hqu, (e_quit _ _ _ _ _ _ _ _ Eff).
  - by rewrite Hlo, (e_looping _ _ _ _ _ _ _ _ Eff).
  - intros Hn. apply Hno. by apply bool_decide_eq_false_2.
  - intros Hin. apply Hdue. by apply bool_decide_eq_true_2.
Qed.

(** ** Many rounds *)

(** The kernel answers as documented in every round. *)
Fixpoint rounds_ok w (rounds : list (Round F)) : Prop :=
  match rounds with
  | [] => True
  | r :: rounds' =>
      quit_ (pending w) = false ->
      answer_ok w (wait r) /\ forall n w', loop_body alloc may body n w r = Ok w' -> rounds_ok w' rounds'
  end.

Lemma loop_inv_looping w ring b :
  loop_inv w ring -> loop_inv (modify (fun s : Loop F Q => set_looping s b) w) ring.
Proof. intros [R ? ? ? ?]. split; try done. by apply rest_pending. Qed.

Lemma loop_rounds_spec w ring rounds :
  loop_inv w ring -> rounds_ok w rounds ->
  exists n w' ring' t, (forall m, (n <= m)%nat ->
      loop_rounds (user alloc may) body (handle_events alloc may body) m w rounds = Ok w') /\
    loop_inv w' ring' /\ fixed w' = fixed w /\ ran (pending w') = ran (pending w) ++ t /\
    (quit_ (pending w') = true -> looping_ (pending w') = false).
Proof.
  revert w ring. induction rounds as [|r rounds IH]; intros w ring L Hok; destruct (quit_ (pending w)) eqn:Eq.
  1,3: exists 0%nat, (modify (fun s : Loop F Q => set_looping s false) w), ring, []; rewrite app_nil_r;
    split_and!; [intros m _; by apply loop_rounds_quit|by apply loop_inv_looping|done..].
  - exists 0%nat, w, ring, []. rewrite app_nil_r. split_and!; [|done|done|done|congruence].
    intros m _. cbn [loop_rounds]. change (get w) with (pending w). by rewrite Eq.
  - destruct (Hok Eq) as [Hw Hrest].
    destruct (loop_body_spec w ring r L Hw) as (n1 & w1 & ring1 & t1 & _ & E1 & L1 & F1 & Rn1 & _).
    destruct (IH w1 ring1 L1 (Hrest n1 w1 (E1 n1 ltac:(lia)))) as (n2 & w2 & ring2 & t2 & E2 & L2 & F2 & Rn2 & Hl).
    exists (n1 `max` n2)%nat, w2, ring2, (t1 ++ t2). split_and!; [|done|congruence|by rewrite Rn2, Rn1, app_assoc|done].
    intros m Hm. cbn [loop_rounds]. change (get w) with (pending w). rewrite Eq.
    specialize (E1 m ltac:(lia)). unfold loop_body in E1. apply bind_Ok_inv in E1 as (v & -> & E1).
    cbn [mbind res_bind]. rewrite E1. cbn [mbind res_bind]. apply E2. lia.
Qed.
(** The thread of a loop: user code before [loop], [loop], user code after it. *)
Definition thread n w (setup : list (lact F uact)) (rounds : list (Round F)) (teardown : list (lact F uact))
  : res (EventLoop K F Q) :=
  w1 ← handlers (user alloc may) body n w setup;
  w2 ← EventLoop_loop alloc may body true n w1 rounds;
  handlers (user alloc may) body n w2 teardown.

Lemma handlers_spec n w ring l :
  (acts_size size l <= n)%nat -> loop_inv w ring ->
  exists w' ring', handlers (user alloc may) body n w l = Ok w' /\ loop_inv w' ring' /\ fixed w' = fixed w.
Proof.
  intros Hn [R Hq Hok Hr Hh]. pose proof Hq as [I A C].
  destruct (code_spec n w l [] _ ring Hn R Hr I A Hok) as (w' & ring' & t & E & [R' M U] & Eff).
  destruct (used_quiet _ _ Hq U) as [Q' Ok']. destruct M as [M1 M2 _ _ _].
  exists w', ring'. split_and!; [done| |done]. split; try done; [apply Eff|congruence].
Qed.

Lemma thread_spec w ring setup rounds teardown :
  loop_inv w ring ->
  (forall n w1, handlers (user alloc may) body n w setup = Ok w1 ->
     rounds_ok (modify (fun s : Loop F Q => set_looping s true) w1) rounds) ->
  exists n w' ring', (forall m, (n <= m)%nat -> thread m w setup rounds teardown = Ok w') /\
    loop_inv w' ring' /\ fixed w' = fixed w.
Proof.
  intros L Hrounds.
  destruct (handlers_spec (acts_size size setup) w ring setup ltac:(done) L) as (w1 & ring1 & E1 & L1 & F1).
  destruct (loop_rounds_spec _ ring1 rounds (loop_inv_looping w1 ring1 true L1) (Hrounds _ _ E1))
    as (n2 & w2 & ring2 & t & E2 & L2 & F2 & _ & _).
  destruct (handlers_spec (acts_size size teardown) w2 ring2 teardown ltac:(done) L2) as (w3 & ring3 & E3 & L3 & F3).
  exists (acts_size size setup `max` n2 `max` acts_size size teardown)%nat, w3, ring3. change (fixed w2 = fixed w1) in F2.
  split_and!; [|done|congruence]. intros m Hm. unfold thread.
  rewrite (approx_Ok _ _ _ (handlers_approx (user alloc may) body (acts_size size setup) m w setup ltac:(lia)) E1). cbn [mbind res_bind].
  unfold EventLoop_loop, loop. cbn [assertInLoopThread mbind res_bind]. rewrite E2 by lia. cbn [mbind res_bind].
  apply (approx_Ok _ _ _ (handlers_approx (user alloc may) body (acts_size size teardown) m w2 teardown ltac:(lia)) E3).
Qed.

(** The result of a round, or of user code, does not depend on the bound. *)
Lemma approx_det {A} (f : nat -> res A) n m a b :
  (forall n m, (n <= m)%nat -> approx (f n) (f m)) -> f n = Ok a -> f m = Ok b -> a = b.
Proof.
  intros Hf Ea Eb. apply (approx_Ok _ _ _ (Hf n (n `max` m)%nat ltac:(lia))) in Ea.
  apply (approx_Ok _ _ _ (Hf m (n `max` m)%nat ltac:(lia))) in Eb. congruence.
Qed.
End rounds.

(** A loop that was just made. *)
Lemma fresh_loop_inv {K F Q} `{KernelLaws K} `{PendingQueue F Q} (l : EventLoop K F Q) (k : K) now (ring : Q) ep tm ev pt pw :
  NoDup [ep; tm; ev] -> pt <> pw -> clock_ok now -> lrep (EventLoop_new ring : Loop F Q) None [] ->
  fresh_loop l k now ring ep tm ev pt pw -> loop_inv l [].
Proof.
  intros Hnd Hne Hnow Hring (Hopen & Own1 & Own2 & Hk & Hrest & El).
  assert (fixed l = mkFixed ep tm pt ev pw /\ timerQueue_ l = TimerQueue_new now /\ pending l = EventLoop_new ring /\
    eventHandling_ l = false) as (Ef & Et & Ep & Eh) by (by rewrite El).
  split; [split| | | |]; rewrite ?Ef, ?Et, ?Ep; try done.
  - intros fd. rewrite Hk. set_solver.
  - by apply new_quiet.
  - unfold clock_ok in Hnow. split_and!; [done|simpl; lia|done].
Qed.

(** ** Properties *)

(** C5: one round of [EventLoop::loop] with all its parts: from any state the
    loop can be in between rounds, whatever the kernel reports and whatever the
    user's callbacks, timers and functors do within the contract, the round
    returns (with the same result for every large enough bound), no assert
    fails, no pointer dangles, and the loop is again in such a state, where the
    kernel watches exactly what the channels ask for; every functor pending at
    the start has run; if the timer descriptor was reported, every timer that was
    due has run unless the user's code cancels it, and otherwise none ran. *)
Theorem round_correct {K F Q} `{KernelLaws K} `{PendingQueue F Q} alloc may
    (body : F -> list (lact F uact)) (size : F -> nat) (w : EventLoop K F Q) ring (r : Round F) :
  alloc_ok alloc -> sized body size -> loop_inv w ring -> answer_ok w (wait r) ->
  exists n w' ring' t f, (forall m, (n <= m)%nat -> loop_body alloc may body m w r = Ok w') /\
    loop_inv w' ring' /\ mirrors (poller_ w') /\
    ran (pending w') = ran (pending w) ++ t /\ ring ++ pendingFunctors_ (pending w) `sublist_of` t /\
    (fired (timerQueue_ w')).*1 = (fired (timerQueue_ w)).*1 ++ f /\
    (timerfdChannel_ (fixed w) ∉ (events_of (wait r)).*2 -> f = []) /\
    (timerfdChannel_ (fixed w) ∈ (events_of (wait r)).*2 ->
     forall id tm, id ∈ activeTimers_ (timerQueue_ w) -> heap (timerQueue_ w) !! id.1 = Some tm ->
       expiration_ tm <= clock (timerQueue_ w) -> may (UTimer (ActCancel id)) = false -> id ∈ f).
Proof.
  intros Halloc Hs L Hw.
  destruct (loop_body_spec alloc Halloc may body size Hs w ring r L Hw)
    as (n & w' & ring' & t & f & E & L' & _ & Rn & Sub & _ & _ & Ef & H1' & H2').
  exists n, w', ring', t, f. split_and!; try done.
  apply inv_mirrors, (ro_open _ (li_rest _ _ L')).
Qed.

(** C7: the life of a loop: it is made (with any ring, also none); its thread
    runs user code, then [loop] for any number of rounds in which the kernel
    answers as documented, then user code again, all within the contract; and it
    is destroyed.  Nothing on the way fails: no assert, no dangling pointer, no
    overflow; the destructor frees every timer, closes the three descriptors of
    the loop, which were open until then, and no other, and leaves the channels
    of the clients.  Called on another thread, [loop] aborts. *)
Theorem loop_life {K F Q} `{KernelLaws K} `{PendingQueue F Q} alloc may
    (body : F -> list (lact F uact)) (size : F -> nat) (k : K) now (ring : Q) ep tm ev pt pw :
  interest k = ∅ -> NoDup [ep; tm; ev] -> (forall fd, fd ∈ [ep; tm; ev] -> fd ∉ kfds k) -> pt <> pw ->
  clock_ok now -> alloc_ok alloc -> sized body size ->
  lrep (EventLoop_new ring : Loop F Q) None [] ->
  exists l, EventLoop_construct (F := F) false now ring k (inl ep) (inl tm) (inl ev) pt pw = Ok (l, true) /\
    (forall n rounds, EventLoop_loop alloc may body false n l rounds = Fault StdAbort) /\
    forall setup rounds teardown,
    (forall n w1, handlers (user alloc may) body n l setup = Ok w1 ->
       rounds_ok alloc may body (modify (fun s : Loop F Q => set_looping s true) w1) rounds) ->
    exists n w, (forall m, (n <= m)%nat -> thread alloc may body m l setup rounds teardown = Ok w) /\
      {[ep; tm; ev]} ⊆ kfds (epoll (poller_ w)) /\
      exists g, EventLoop_delete w = Ok g /\
        kfds (epoll (left g)) = kfds (epoll (poller_ w)) ∖ {[ep; tm; ev]} /\ timers_left g = ∅ /\ t_loop g = false /\
        (forall q c, chans (left g) !! q = Some c <-> q <> pt /\ q <> pw /\ chans (poller_ w) !! q = Some c).
Proof.
  intros Hint Hnd Hfresh Hne Hnow Halloc Hs Hring.
  destruct (construct_spec (F := F) k now ring ep tm ev pt pw Hint Hnd Hfresh Hne) as (l & E & Hl).
  exists l. split; [done|]. split; [done|]. intros setup rounds teardown Hok.
  pose proof (fresh_loop_inv l k now ring ep tm ev pt pw Hnd Hne Hnow Hring Hl) as L.
  assert (fixed l = mkFixed ep tm pt ev pw) as Ef by (by destruct Hl as (_ & _ & _ & _ & _ & ->)).
  destruct (thread_spec alloc Halloc may body size Hs l [] setup rounds teardown L Hok)
    as (n & w & ring' & Er & [R Hq _ _ _] & Fw). rewrite Ef in Fw.
  exists n, w. split_and!; [done| |].
  - pose proof (ro_fds _ R) as Hf. rewrite Fw in Hf. cbn [epollfd_ timerfd_ wakeupFd_] in Hf. intros fd. rewrite !elem_of_union, !elem_of_singleton.
    intros Hfd. apply Hf. set_solver.
  - destruct R as [[I _] Ot Ow _ _ Hne']. destruct (EventLoop_delete_spec w I Ot Ow Hne' Hq) as (g & Eg & Kg & Tg & Lg & Cg & _).
    rewrite Fw in Kg, Cg. cbn [wakeupChannel_ wakeupFd_ timerfdChannel_ timerfd_ epollfd_] in Kg, Cg.
    exists g. split_and!; try done. rewrite Kg. set_solver.
Qed.

(** ** The theorems at a concrete loop

    A descriptor 9 with a channel at 300, a timer, and functors that post
    functors and add timers; the callback of the channel quits in the second
    round, in which the timer expires. *)
Import SimKernel.

Section ex.
#[local] Instance ex_ops : PendingOps nat (MpscQueue nat) := mpsc_ops 16.
#[local] Instance ex_pending : PendingQueue nat (MpscQueue nat) := mpsc_pending 16 ltac:(lia).

Definition ex_body (f : nat) : list (lact nat uact) :=
  match f with
  | 1%nat => [LQueue 2%nat]
  | 2%nat => [LOther (UTimer (ActAdd 2 1500 5))]
  | _ => []
  end.
Definition ex_size (f : nat) : nat := match f with 1%nat => 2 | _ => 1 end.
Definition ex_may (a : uact) : bool := match a with UTimer (ActCancel _) => false | _ => true end.
Definition ex_setup : list (lact nat uact) :=
  [LOther (UOpen 9); LOther (UChan (RNew 300 9 true true true true)); LOther (UChan (RChange 300 EnableReading));
   LOther (UTimer (ActAdd 1 2000 0)); LQueue 1%nat; LOther (UTimer (ActElapse 600))].
Definition ex_round1 : Round nat := mkRound (WEvents [(EPOLLIN, 200)]) (fun _ _ => []) [].
(** The callback may not delete the channel whose event it handles. *)
Definition ex_round2 : Round nat :=
  mkRound (WEvents [(EPOLLIN, 300); (EPOLLIN, 100)])
    (fun p k => [LOther (UTimer (ActElapse 2000)); LRun 3%nat; LQuit; LOther (UChan (RDelete 300))])
    [[LQueue 7%nat]].
Definition ex_teardown : list (lact nat uact) :=
  [LOther (UChan (RChange 300 DisableAll)); LOther (UChan (RRemove 300)); LOther (UChan (RDelete 300)); LOther (UClose 9)].

Definition or_else {A} (m : res A) (a : A) : A := match m with Ok x => x | Fault _ => a end.
Definition ex_blank : EventLoop kern nat (MpscQueue nat) :=
  mkEventLoop (EventLoop_new (MpscQueue_new EventLoop.ex_env 16)) (Reactor_new ex_kernel) (TimerQueue_new 1000)
    (mkFixed 3 4 100 5 200) false [].
Definition ex_loop : EventLoop kern nat (MpscQueue nat) :=
  (or_else (EventLoop_construct false 1000 (MpscQueue_new EventLoop.ex_env 16) ex_kernel (inl 3) (inl 4) (inl 5) 100 200)
     (ex_blank, true)).1.
Definition ex_w1 := or_else (handlers (user alloc_first ex_may) ex_body 9 ex_loop ex_setup) ex_blank.
Definition ex_w1' := modify (fun s : Loop nat (MpscQueue nat) => set_looping s true) ex_w1.
Definition ex_w2 := or_else (loop_body alloc_first ex_may ex_body 9 ex_w1' ex_round1) ex_blank.

Lemma ex_body_sized : sized ex_body ex_size.
Proof. intros [|[|[|f]]]; unfold acts_size; simpl; lia. Qed.

Lemma ex_rep : lrep (EventLoop_new (MpscQueue_new EventLoop.ex_env 16) : Loop nat (MpscQueue nat)) None [].
Proof. exact (new_lrep 16 ltac:(lia) EventLoop.ex_env). Qed.

Example ex_thread :
  (w ← thread alloc_first ex_may ex_body 9 ex_loop ex_setup [ex_round1; ex_round2] ex_teardown;
   Ok (ran (pending w), (fired (timerQueue_ w)).*1, dom (chans (poller_ w)), kfds (epoll (poller_ w)),
       looping_ (pending w)))
  = Ok ([1; 2; 3; 7]%nat, [(2, 2); (1, 1)], {[100; 200]}, {[0; 1; 2; 3; 4; 5]}, false).
Proof. vm_compute. reflexivity. Qed.
Lemma ex_fresh fd : fd ∈ [3; 4; 5] -> fd ∉ kfds ex_kernel.
Proof.
  intros Hfd. assert (Forall (fun fd => fd ∉ kfds ex_kernel) [3; 4; 5]) as Hall by by_decide.
  by apply (proj1 (Forall_forall _ _) Hall).
Qed.

Lemma ex_setup_det n w : handlers (user alloc_first ex_may) ex_body n ex_loop ex_setup = Ok w -> w = ex_w1.
Proof.
  intros E. eapply (approx_det (fun n => handlers (user alloc_first ex_may) ex_body n ex_loop ex_setup) n 9);
    [intros; by apply handlers_approx|exact E|vm_compute; reflexivity].
Qed.

Lemma ex_round1_det n w : loop_body alloc_first ex_may ex_body n ex_w1' ex_round1 = Ok w -> w = ex_w2.
Proof.
  intros E. eapply (approx_det (fun n => loop_body alloc_first ex_may ex_body n ex_w1' ex_round1) n 9);
    [intros; by apply loop_body_approx|exact E|vm_compute; reflexivity].
Qed.

(** An answer that reports channels for input, when they ask for it. *)
Lemma ex_answer (w : EventLoop kern nat (MpscQueue nat)) (ps : list (Z * Z)) :
  (zlen ps <=? evsize (poller_ w)) = true -> NoDup ps.*2 ->
  Forall (fun x => interest (epoll (poller_ w)) !! x.1 = Some (3, x.2)) ps ->
  answer_ok w (WEvents ((fun x => (EPOLLIN, x.2)) <$> ps)).
Proof.
  intros Hl Hn Hall. assert (((fun x : Z * Z => (EPOLLIN, x.2)) <$> ps).*2 = ps.*2) as Ef by by rewrite <- list_fmap_compose.
  split; [split_and!; cbn [events_of]|].
  - apply Z.leb_le in Hl. unfold zlen in *. by rewrite length_fmap.
  - by rewrite Ef.
  - apply Forall_fmap. eapply Forall_impl; [exact Hall|]. intros [fd p] E. exists fd, 3. split; [exact E|by vm_compute].
  - intros e ([fd p] & [= -> _] & _)%list_elem_of_fmap. done.
Qed.

Lemma ex_answer1 : answer_ok ex_w1' (wait ex_round1).
Proof. apply (ex_answer ex_w1' [(5, 200)]); [by vm_compute|by_decide|by_decide]. Qed.

Lemma ex_answer2 : answer_ok ex_w2 (wait ex_round2).
Proof. apply (ex_answer ex_w2 [(9, 300); (4, 100)]); [by vm_compute|by_decide|by_decide]. Qed.

Lemma ex_rounds_ok : rounds_ok alloc_first ex_may ex_body ex_w1' [ex_round1; ex_round2].
Proof.
  intros _. split; [exact ex_answer1|]. intros n w ->%ex_round1_det. intros _. split; [exact ex_answer2|done].
Qed.

Lemma loop_life_witness :
  exists l, EventLoop_construct (F := nat) false 1000 (MpscQueue_new EventLoop.ex_env 16) ex_kernel (inl 3) (inl 4) (inl 5) 100 200
      = Ok (l, true) /\
    (forall n rounds, EventLoop_loop alloc_first ex_may ex_body false n l rounds = Fault StdAbort) /\
    forall setup rounds teardown,
    (forall n w1, handlers (user alloc_first ex_may) ex_body n l setup = Ok w1 ->
       rounds_ok alloc_first ex_may ex_body (modify (fun s : Loop nat (MpscQueue nat) => set_looping s true) w1) rounds) ->
    exists n w, (forall m, (n <= m)%nat -> thread alloc_first ex_may ex_body m l setup rounds teardown = Ok w) /\
      {[3; 4; 5]} ⊆ kfds (epoll (poller_ w)) /\
      exists g, EventLoop_delete w = Ok g /\
        kfds (epoll (left g)) = kfds (epoll (poller_ w)) ∖ {[3; 4; 5]} /\ timers_left g = ∅ /\ t_loop g = false /\
        (forall q c, chans (left g) !! q = Some c <-> q <> 100 /\ q <> 200 /\ chans (poller_ w) !! q = Some c).
Proof.
  apply (loop_life alloc_first ex_may ex_body ex_size ex_kernel 1000 (MpscQueue_new EventLoop.ex_env 16) 3 4 5 100 200).
  - by_decide.
  - by_decide.
  - exact ex_fresh.
  - done.
  - by vm_compute.
  - exact alloc_first_ok.
  - exact ex_body_sized.
  - exact ex_rep.
Defined.

(** Its hypothesis on the kernel's answers holds of the example. *)
Example ex_life_ok n w1 :
  handlers (user alloc_first ex_may) ex_body n ex_loop ex_setup = Ok w1 ->
  rounds_ok alloc_first ex_may ex_body (modify (fun s : Loop nat (MpscQueue nat) => set_looping s true) w1) [ex_round1; ex_round2].
Proof. intros ->%ex_setup_det. exact ex_rounds_ok. Qed.

(** The state before the second round, and that it is one. *)
Lemma ex_w2_inv : exists ring, loop_inv ex_w2 ring.
Proof.
  assert (loop_inv ex_loop []) as L.
  { destruct (construct_spec (F := nat) ex_kernel 1000 (MpscQueue_new (F := nat) EventLoop.ex_env 16) 3 4 5 100 200)
      as (l & E & (Hopen & Own1 & Own2 & Hk & _ & El)); [by_decide|by_decide|exact ex_fresh|done|].
    assert (ex_loop = l) as -> by (unfold ex_loop; rewrite E; reflexivity).
    assert (fixed l = mkFixed 3 4 100 5 200 /\ timerQueue_ l = TimerQueue_new 1000 /\
      pending l = EventLoop_new (MpscQueue_new (F := nat) EventLoop.ex_env 16) /\ eventHandling_ l = false) as (Ef & Et & Ep & Eh) by (by rewrite El).
    split; [split| | | |]; rewrite ?Ef, ?Et, ?Ep; try done.
    - by_decide.
    - intros fd. rewrite Hk. set_solver.
    - by apply new_quiet.
    - exact ex_rep. }
  destruct (handlers_spec alloc_first alloc_first_ok ex_may ex_body ex_size ex_body_sized _ _ _ ex_setup ltac:(done) L)
    as (w1 & ring1 & E1 & L1 & _). apply ex_setup_det in E1 as ->.
  destruct (loop_body_spec alloc_first alloc_first_ok ex_may ex_body ex_size ex_body_sized ex_w1' ring1 ex_round1
    (loop_inv_looping _ _ _ L1) ex_answer1) as (n & w2 & ring2 & t & f & E2 & L2 & _).
  specialize (E2 n (le_n n)). apply ex_round1_det in E2 as ->. by exists ring2.
Qed.

Lemma round_correct_witness :
  exists ring n w' ring' t f, (forall m, (n <= m)%nat -> loop_body alloc_first ex_may ex_body m ex_w2 ex_round2 = Ok w') /\
    loop_inv w' ring' /\ mirrors (poller_ w') /\
    ran (pending w') = ran (pending ex_w2) ++ t /\ ring ++ pendingFunctors_ (pending ex_w2) `sublist_of` t /\
    (fired (timerQueue_ w')).*1 = (fired (timerQueue_ ex_w2)).*1 ++ f /\
    (timerfdChannel_ (fixed ex_w2) ∉ (events_of (wait ex_round2)).*2 -> f = []) /\
    (timerfdChannel_ (fixed ex_w2) ∈ (events_of (wait ex_round2)).*2 ->
     forall id tm, id ∈ activeTimers_ (timerQueue_ ex_w2) -> heap (timerQueue_ ex_w2) !! id.1 = Some tm ->
       expiration_ tm <= clock (timerQueue_ ex_w2) -> ex_may (UTimer (ActCancel id)) = false -> id ∈ f).
Proof.
  destruct ex_w2_inv as [ring L]. exists ring.
  apply (round_correct alloc_first ex_may ex_body ex_size ex_w2 ring ex_round2).
  - exact alloc_first_ok.
  - exact ex_body_sized.
  - exact L.
  - exact ex_answer2.
Defined.
End ex.

(** ** The calls of channels

    [Channel::update] and [Channel::remove] reach the poller through the loop,
    as [channel_update] and [channel_remove] of Poller.v have it; on another
    thread they abort. *)
Section channel_calls.
Context {K F Q : Type} `{Kernel K}.
Implicit Types (w : EventLoop K F Q) (p : Z).

Lemma channel_update_loop w p c :
  chans (poller_ w) !! p = Some c -> addedToLoop_ c = true \/ isNoneEvent c = false ->
  (r ← channel_update (poller_ w) p; Ok (set_poller w r)) =
  EventLoop_updateChannel true (set_poller w (set_chan (poller_ w) p (set_added c true))) p.
Proof.
  intros Hp Hor. unfold channel_update, EventLoop_updateChannel. rewrite Hp. cbn [deref mbind res_bind assertInLoopThread].
  assert (negb (addedToLoop_ c) && isNoneEvent c = false) as -> by (destruct Hor as [->| ->]; [done|apply andb_false_r]).
  done.
Qed.

Lemma channel_remove_loop w p c :
  chans (poller_ w) !! p = Some c -> addedToLoop_ c = true ->
  (r ← channel_remove (poller_ w) p; Ok (set_poller w r)) =
  EventLoop_removeChannel true (set_poller w (set_chan (poller_ w) p (set_added c false))) p.
Proof. intros Hp Ha. unfold channel_remove, EventLoop_removeChannel. rewrite Hp. cbn [deref mbind res_bind assertInLoopThread]. by rewrite Ha. Qed.
End channel_calls.
