(* ===== verification/SocketsOps.v ===== *)
(** * SocketsOps: socket addresses in memory and the wrappers of the socket calls

    Models [src/SocketsOps.cpp].  A [struct sockaddr_in], [sockaddr_in6] or
    [sockaddr_storage] is the bytes it occupies on a little-endian Linux
    machine, so that the casts between them are what they are in the code:
    reading the same bytes with another layout.  [inet_ntop] and [inet_pton]
    belong to the C library: the class [InetText] states what is documented of
    them.  The answers of the kernel are arguments; for the wrappers that hand
    it something the class [SocketCalls] names the calls. *)

From stdpp Require Export strings pretty.
From S2P Require Import Prelude.

#[local] Open Scope Z_scope.

#[global] Instance byte_eq_decision : EqDecision byte := Byte.byte_eq_dec.

(** ** Integers in memory *)
Definition Z_of_byte (b : byte) : Z := Z.of_N (Byte.to_N b).
Definition byte_of_Z (z : Z) : byte := default x00 (Byte.of_N (Z.to_N (z mod 256))).

(** [w] bytes, the least significant first. *)
Fixpoint le_bytes (w : nat) (z : Z) : list byte :=
  match w with O => [] | S w' => byte_of_Z z :: le_bytes w' (z / 256) end.
Definition of_le (l : list byte) : Z := foldr (fun b n => Z_of_byte b + 256 * n) 0 l.

(** [htons] and [htonl] on a little-endian machine; [ntohs] is [htons]. *)
Definition htons (x : Z) : Z :=
  Z.lor (Z.shiftl (Z.land x 255) 8) (Z.land (Z.shiftr x 8) 255).
Definition ntohs (x : Z) : Z := htons x.
Definition htonl (x : Z) : Z :=
  Z.lor (Z.shiftl (htons (Z.land x 65535)) 16) (htons (Z.land (Z.shiftr x 16) 65535)).

(** ** Layouts *)
Definition AF_UNSPEC : Z := 0.
Definition AF_INET : Z := 2.
Definition AF_INET6 : Z := 10.
Definition INADDR_ANY : Z := 0.
Definition INADDR_LOOPBACK : Z := 2130706433.  (* 0x7f000001 *)
Definition INET_ADDRSTRLEN : Z := 16.
Definition INET6_ADDRSTRLEN : Z := 46.
Definition sizeof_in : Z := 16.
Definition sizeof_in6 : Z := 28.
Definition sizeof_storage : Z := 128.

Record sockaddr_in : Type := mkIn {
  sin_family : Z;
  sin_port : Z;
  sin_addr : list byte;
  sin_zero : list byte
}.
Record sockaddr_in6 : Type := mkIn6 {
  sin6_family : Z;
  sin6_port : Z;
  sin6_flowinfo : Z;
  sin6_addr : list byte;
  sin6_scope_id : Z
}.

(** The bytes of a structure, and a structure read from memory. *)
Definition in_bytes (a : sockaddr_in) : list byte :=
  le_bytes 2 (sin_family a) ++ le_bytes 2 (sin_port a) ++ sin_addr a ++ sin_zero a.
Definition in6_bytes (a : sockaddr_in6) : list byte :=
  le_bytes 2 (sin6_family a) ++ le_bytes 2 (sin6_port a) ++ le_bytes 4 (sin6_flowinfo a) ++ sin6_addr a ++ le_bytes 4 (sin6_scope_id a).
Definition as_in (m : list byte) : sockaddr_in :=
  mkIn (of_le (slice m 0 2)) (of_le (slice m 2 4)) (slice m 4 8) (slice m 8 16).
Definition as_in6 (m : list byte) : sockaddr_in6 :=
  mkIn6 (of_le (slice m 0 2)) (of_le (slice m 2 4)) (of_le (slice m 4 8)) (slice m 8 24) (of_le (slice m 24 28)).
Definition sa_family (m : list byte) : Z := of_le (slice m 0 2).

Definition in_zero : sockaddr_in := mkIn 0 0 (replicate 4 x00) (replicate 8 x00).
Definition in6_zero : sockaddr_in6 := mkIn6 0 0 0 (replicate 16 x00) 0.
Definition in6addr_any : list byte := replicate 16 x00.
Definition in6addr_loopback : list byte := replicate 15 x00 ++ [x01].

Definition sockaddrLength (addr : list byte) : Z :=
  if sa_family addr =? AF_INET6 then sizeof_in6 else sizeof_in.

(** ** Text *)

(** The C string a [std::string] is passed as: up to the first NUL. *)
Fixpoint c_str (s : string) : string :=
  match s with
  | EmptyString => EmptyString
  | String c s' => if Ascii.eqb c Ascii.zero then EmptyString else String c (c_str s')
  end.

(** What [snprintf(buf, size, ..)] leaves in [buf] of the text [s]. *)
Definition snprintf (size : Z) (s : string) : string := String.substring 0 (Z.to_nat (size - 1)) s.

(** [inet_ntop(af, addr)] for addresses of the right length, and
    [inet_pton(af, text)]: the result and the address written when it is 1. *)
Class InetText : Type := {
  inet_ntop : Z -> list byte -> string;
  inet_pton : Z -> string -> Z * list byte
}.

Definition addr_ok (af : Z) (a : list byte) : Prop :=
  af = AF_INET /\ length a = 4%nat \/ af = AF_INET6 /\ length a = 16%nat.

Class InetTextLaws `{InetText} : Prop := {
  pton_ntop af a : addr_ok af a -> inet_pton af (inet_ntop af a) = (1, a);
  pton_addr af s a : af = AF_INET \/ af = AF_INET6 -> inet_pton af s = (1, a) -> addr_ok af a;
  pton_result af s : (inet_pton af s).1 = 1 \/ (inet_pton af s).1 = 0 \/ (inet_pton af s).1 < 0;
  ntop_length4 a : addr_ok AF_INET a -> Z.of_nat (String.length (inet_ntop AF_INET a)) < INET_ADDRSTRLEN;
  ntop_length6 a : addr_ok AF_INET6 a -> Z.of_nat (String.length (inet_ntop AF_INET6 a)) < INET6_ADDRSTRLEN;
  ntop_c_str af a : addr_ok af a -> c_str (inet_ntop af a) = inet_ntop af a
}.

Section text.
Context `{InetText}.

(** [toIp(buf, size, addr)] and [toIpPort(buf, size, addr)]: the C string left
    in [buf].  [inet_ntop] writes nothing when the text does not fit, so [buf]
    keeps its initial empty string. *)
Definition ntop_into (size : Z) (af : Z) (a : list byte) : string :=
  if Z.of_nat (String.length (inet_ntop af a)) <? size then inet_ntop af a else EmptyString.

Definition toIp (size : Z) (addr : list byte) : res string :=
  if sa_family addr =? AF_INET then
    assert_ (INET_ADDRSTRLEN <=? size);;
    Ok (ntop_into size AF_INET (sin_addr (as_in addr)))
  else if sa_family addr =? AF_INET6 then
    assert_ (INET6_ADDRSTRLEN <=? size);;
    Ok (ntop_into size AF_INET6 (sin6_addr (as_in6 addr)))
  else Ok EmptyString.

Definition toIpPort (size : Z) (addr : list byte) : res string :=
  ip ← toIp INET6_ADDRSTRLEN addr;
  if sa_family addr =? AF_INET then
    let port := ntohs (sin_port (as_in addr)) in
    Ok (snprintf size (ip +:+ ":" +:+ pretty (Z.to_N port)))
  else if sa_family addr =? AF_INET6 then
    let port := ntohs (sin6_port (as_in6 addr)) in
    Ok (snprintf size ("[" +:+ ip +:+ "]:" +:+ pretty (Z.to_N port)))
  else Ok EmptyString.

(** [fromIpPort] for the two structures. *)
Definition fromIpPort4 (ip : string) (port : Z) (addr : sockaddr_in) : bool * sockaddr_in :=
  let addr1 := mkIn AF_INET (htons port) (sin_addr addr) (sin_zero addr) in
  match inet_pton AF_INET (c_str ip) with
  | (ret, a) =>
      if ret =? 0 then (false, addr1) else
      if ret <? 0 then (false, addr1) else
      (true, mkIn AF_INET (htons port) a (sin_zero addr))
  end.

Definition fromIpPort6 (ip : string) (port : Z) (addr : sockaddr_in6) : bool * sockaddr_in6 :=
  let addr1 := mkIn6 AF_INET6 (htons port) (sin6_flowinfo addr) (sin6_addr addr) (sin6_scope_id addr) in
  match inet_pton AF_INET6 (c_str ip) with
  | (ret, a) =>
      if ret =? 0 then (false, addr1) else
      if ret <? 0 then (false, addr1) else
      (true, mkIn6 AF_INET6 (htons port) (sin6_flowinfo addr) a (sin6_scope_id addr))
  end.
End text.

(** ** Socket calls *)

(** [createNonblocking] and [createNonblockingUdp]: the descriptor, or -1. *)
Definition createNonblocking (answer : sys_fd) : Z := match answer with inl fd => fd | inr _ => -1 end.
Definition createNonblockingUdp (answer : sys_fd) : Z := match answer with inl fd => fd | inr _ => -1 end.

(** [bind] and [listen], from the result of the call. *)
Definition sock_bind (answer : Z) : bool := negb (answer <? 0).
Definition sock_listen (answer : Z) : bool := negb (answer <? 0).

(** [accept]: errors the caller handles, and those that stop the program. *)
Definition accept_expected (e : Z) : bool :=
  bool_decide (e ∈ [EAGAIN; ECONNABORTED; EINTR; EPROTO; EPERM; EMFILE]).
Definition accept (answer : sys_fd) : res (Z + Z) :=
  match answer with
  | inl connfd => Ok (inl connfd)
  | inr savedErrno => if accept_expected savedErrno then Ok (inr savedErrno) else Fault StdAbort
  end.

Definition getSocketError (answer : Z + Z) : Z := match answer with inl optval => optval | inr errno => errno end.

(** *** Wrappers that forward

    The system calls, on the state of the kernel: what they are handed, what
    they answer (an address in memory comes with its length; an option is a level
    and a name). *)
Class SocketCalls (K : Type) : Type := {
  k_connect : K -> Z -> list byte -> Z -> Z * K;
  k_read : K -> Z -> Z -> (list byte + Z) * K;
  k_readv : K -> Z -> list Z -> (list byte + Z) * K;
  k_write : K -> Z -> list byte -> (Z + Z) * K;
  k_close : K -> Z -> Z * K;
  k_shutdown : K -> Z -> Z -> Z * K;
  k_setsockopt : K -> Z -> Z * Z -> Z -> Z * K;
  k_getsockopt : K -> Z -> Z * Z -> Z
}.

(** setsockopt(2) and getsockopt(2) on options that are flags. *)
Class SocketCallsLaws (K : Type) `{SocketCalls K} : Prop := {
  setsockopt_ok k fd opt (on : bool) : (k_setsockopt k fd opt (if on then 1 else 0)).1 = 0 ->
    forall fd' opt', k_getsockopt (k_setsockopt k fd opt (if on then 1 else 0)).2 fd' opt' =
      if bool_decide (fd' = fd /\ opt' = opt) then (if on then 1 else 0) else k_getsockopt k fd' opt';
  setsockopt_error k fd opt v : (k_setsockopt k fd opt v).1 <> 0 -> (k_setsockopt k fd opt v).2 = k
}.

Definition SHUT_WR : Z := 1.
Definition IPPROTO_TCP : Z := 6.
Definition TCP_NODELAY : Z := 1.
Definition SOL_SOCKET : Z := 1.
Definition SO_REUSEADDR : Z := 2.
Definition SO_KEEPALIVE : Z := 9.
Definition SO_REUSEPORT : Z := 15.

Section wrappers.
Context {K : Type} `{SocketCalls K}.
Implicit Types (k : K).

Definition sock_connect k (sockfd : Z) (addr : list byte) : Z * K := k_connect k sockfd addr (sockaddrLength addr).
Definition sock_read k (sockfd count : Z) : (list byte + Z) * K := k_read k sockfd count.
Definition sock_readv k (sockfd : Z) (iov : list Z) : (list byte + Z) * K := k_readv k sockfd iov.
Definition sock_write k (sockfd : Z) (buf : list byte) : (Z + Z) * K := k_write k sockfd buf.
(** Errors of these are only logged. *)
Definition sock_close k (sockfd : Z) : K := (k_close k sockfd).2.
Definition shutdownWrite k (sockfd : Z) : K := (k_shutdown k sockfd SHUT_WR).2.

Definition setTcpNoDelay k (sockfd : Z) (on : bool) : K :=
  let optval := if on then 1 else 0 in (k_setsockopt k sockfd (IPPROTO_TCP, TCP_NODELAY) optval).2.
Definition setReuseAddr k (sockfd : Z) (on : bool) : K :=
  let optval := if on then 1 else 0 in (k_setsockopt k sockfd (SOL_SOCKET, SO_REUSEADDR) optval).2.
Definition setReusePort k (sockfd : Z) (on : bool) : K :=
  let optval := if on then 1 else 0 in (k_setsockopt k sockfd (SOL_SOCKET, SO_REUSEPORT) optval).2.
Definition setKeepAlive k (sockfd : Z) (on : bool) : K :=
  let optval := if on then 1 else 0 in (k_setsockopt k sockfd (SOL_SOCKET, SO_KEEPALIVE) optval).2.
End wrappers.

(** ** Lemmas *)

(** Each of the four setters changes its own option of its own socket. *)
Definition setters `{SocketCalls K} : list ((K -> Z -> bool -> K) * (Z * Z)) :=
  [(setTcpNoDelay, (IPPROTO_TCP, TCP_NODELAY)); (setReuseAddr, (SOL_SOCKET, SO_REUSEADDR));
   (setReusePort, (SOL_SOCKET, SO_REUSEPORT)); (setKeepAlive, (SOL_SOCKET, SO_KEEPALIVE))].

Lemma setters_spec `{SocketCallsLaws K} (set : K -> Z -> bool -> K) opt k fd on :
  (set, opt) ∈ setters ->
  (forall fd' opt', fd' <> fd \/ opt' <> opt -> k_getsockopt (set k fd on) fd' opt' = k_getsockopt k fd' opt') /\
  ((k_setsockopt k fd opt (if on then 1 else 0)).1 = 0 -> k_getsockopt (set k fd on) fd opt = if on then 1 else 0).
Proof.
  intros Hin.
  assert (set k fd on = (k_setsockopt k fd opt (if on then 1 else 0)).2) as Es.
  { unfold setters in Hin. rewrite !elem_of_cons, elem_of_nil in Hin.
    by destruct Hin as [[= -> ->]|[[= -> ->]|[[= -> ->]|[[= -> ->]|[]]]]]. }
  rewrite Es. split.
  - intros fd' opt' Hne. destruct (decide ((k_setsockopt k fd opt (if on then 1 else 0)).1 = 0)) as [E|E].
    + rewrite (setsockopt_ok k fd opt on E), bool_decide_eq_false_2; [done|]. intros [??]. by destruct Hne.
    + by rewrite (setsockopt_error k fd opt _ E).
  - intros E. rewrite (setsockopt_ok k fd opt on E). by rewrite bool_decide_eq_true_2.
Qed.

Lemma Z_of_byte_range b : 0 <= Z_of_byte b < 256.
Proof. unfold Z_of_byte. pose proof (Byte.to_N_bounded b). lia. Qed.

Lemma Z_of_byte_of_Z z : Z_of_byte (byte_of_Z z) = z mod 256.
Proof.
  unfold Z_of_byte, byte_of_Z. pose proof (Z.mod_pos_bound z 256 ltac:(lia)) as Hr.
  destruct (Byte.of_N (Z.to_N (z mod 256))) as [b|] eqn:E; simpl.
  - apply Byte.to_of_N in E. rewrite E. lia.
  - apply Byte.of_N_None_iff in E. lia.
Qed.

Lemma byte_of_Z_of_byte b : byte_of_Z (Z_of_byte b) = b.
Proof.
  unfold Z_of_byte, byte_of_Z. pose proof (Byte.to_N_bounded b).
  rewrite Z.mod_small by lia. rewrite N2Z.id, Byte.of_to_N. done.
Qed.

Lemma length_le w z : length (le_bytes w z) = w.
Proof. revert z. induction w as [|w IH]; intros z; simpl; [done|]. by rewrite IH. Qed.

Lemma of_le_le w z : 0 <= z < 256 ^ Z.of_nat w -> of_le (le_bytes w z) = z.
Proof.
  revert z. induction w as [|w IH]; intros z Hz; cbn [le_bytes of_le foldr]; [simpl in Hz; lia|].
  fold (of_le (le_bytes w (z / 256))). rewrite IH, Z_of_byte_of_Z.
  - pose proof (Z.div_mod z 256 ltac:(lia)). lia.
  - rewrite Nat2Z.inj_succ, Z.pow_succ_r in Hz by lia. split; [apply Z.div_pos; lia|].
    apply Z.div_lt_upper_bound; lia.
Qed.

Lemma le_of_le l : le_bytes (length l) (of_le l) = l.
Proof.
  induction l as [|b l IH]; [done|]. cbn [length le_bytes of_le foldr]. fold (of_le l).
  pose proof (Z_of_byte_range b). f_equal.
  - rewrite <- (byte_of_Z_of_byte b) at 2. unfold byte_of_Z. do 3 f_equal.
    replace (Z_of_byte b + 256 * of_le l) with (Z_of_byte b + of_le l * 256) by lia.
    by rewrite Z.mod_add by lia.
  - replace (Z_of_byte b + 256 * of_le l) with (Z_of_byte b + of_le l * 256) by lia.
    by rewrite Z.div_add, Z.div_small, Z.add_0_l by lia.
Qed.

Lemma of_le_range l : 0 <= of_le l < 256 ^ zlen l.
Proof.
  unfold zlen. induction l as [|b l IH]; [done|]. cbn [length of_le foldr]. fold (of_le l).
  rewrite Nat2Z.inj_succ, Z.pow_succ_r by lia. pose proof (Z_of_byte_range b). lia.
Qed.

(** [htons] swaps the two bytes. *)
Lemma htons_spec x : 0 <= x < 2 ^ 16 -> htons x = (x mod 256) * 256 + x / 256.
Proof.
  intros Hx. unfold htons. change 255 with (Z.ones 8). rewrite !Z.land_ones, Z.shiftr_div_pow2 by lia.
  change (2 ^ 8) with 256. rewrite (Z.mod_small (x / 256)).
  2: { split; [apply Z.div_pos; lia|]. apply Z.div_lt_upper_bound; lia. }
  pose proof (Z.add_lor_land (Z.shiftl (x mod 256) 8) (x / 256)) as Hadd.
  assert (Z.land (Z.shiftl (x mod 256) 8) (x / 256) = 0) as Hl.
  { apply Z.bits_inj'. intros n Hn. rewrite Z.land_spec, Z.bits_0.
    destruct (Z.lt_ge_cases n 8).
    - by rewrite Z.shiftl_spec_low.
    - rewrite (Z.bits_above_log2 (x / 256)), andb_false_r; [done|apply Z.div_pos; lia|].
      destruct (Z.eq_dec (x / 256) 0) as [->|Hnz]; [simpl; lia|].
      apply Z.lt_le_trans with 8; [|lia]. apply Z.log2_lt_pow2; [|apply Z.div_lt_upper_bound; lia].
      assert (0 <= x / 256) by (apply Z.div_pos; lia). lia. }
  rewrite Z.shiftl_mul_pow2 in * by lia. lia.
Qed.

Lemma htons_range x : 0 <= x < 2 ^ 16 -> 0 <= htons x < 2 ^ 16.
Proof.
  intros Hx. rewrite htons_spec by done. pose proof (Z.mod_pos_bound x 256 ltac:(lia)).
  assert (0 <= x / 256 < 256) by (split; [apply Z.div_pos; lia|apply Z.div_lt_upper_bound; lia]). lia.
Qed.

Lemma htons_involutive x : 0 <= x < 2 ^ 16 -> htons (htons x) = x.
Proof.
  intros Hx. rewrite (htons_spec (htons x)) by (by apply htons_range). rewrite htons_spec by done.
  pose proof (Z.mod_pos_bound x 256 ltac:(lia)).
  assert (0 <= x / 256 < 256) by (split; [apply Z.div_pos; lia|apply Z.div_lt_upper_bound; lia]).
  rewrite (Z.add_comm (x mod 256 * 256)), Z.mod_add, Z.div_add, (Z.mod_small (x / 256)), (Z.div_small (x / 256)) by lia.
  pose proof (Z.div_mod x 256 ltac:(lia)). lia.
Qed.

(** A structure survives a copy into memory followed by anything. *)
Definition in_wf (a : sockaddr_in) : Prop :=
  0 <= sin_family a < 2 ^ 16 /\ 0 <= sin_port a < 2 ^ 16 /\
  length (sin_addr a) = 4%nat /\ length (sin_zero a) = 8%nat.
Definition in6_wf (a : sockaddr_in6) : Prop :=
  0 <= sin6_family a < 2 ^ 16 /\ 0 <= sin6_port a < 2 ^ 16 /\ 0 <= sin6_flowinfo a < 2 ^ 32 /\
  length (sin6_addr a) = 16%nat /\ 0 <= sin6_scope_id a < 2 ^ 32.

(** A list of known length is its elements. *)
Lemma list_len_S {A} (l : list A) n : length l = S n -> exists a l', l = a :: l' /\ length l' = n.
Proof. destruct l as [|a l']; [done|]. intros [= E]. eauto. Qed.
Ltac enum_list l H :=
  repeat match type of H with
  | length ?k = S _ => let a := fresh "b" in let k' := fresh "l" in let E := fresh in
      destruct (list_len_S k _ H) as (a & k' & E & H'); subst k; clear H; rename H' into H
  | length ?k = 0%nat => apply length_zero_iff_nil in H; subst k
  end.

Lemma as_in_bytes a m : in_wf a -> as_in (in_bytes a ++ m) = a.
Proof.
  intros (Hf & Hp & Ha & Hz). destruct a as [f p ad z]. cbn [sin_family sin_port sin_addr sin_zero] in *.
  enum_list ad Ha. enum_list z Hz. unfold as_in, in_bytes, slice. cbn [sin_family sin_port sin_addr sin_zero].
  f_equal; [exact (of_le_le 2 f Hf)|exact (of_le_le 2 p Hp)].
Qed.

Lemma as_in6_bytes a m : in6_wf a -> as_in6 (in6_bytes a ++ m) = a.
Proof.
  intros (Hf & Hp & Hl & Ha & Hs). destruct a as [f p fl ad sc].
  cbn [sin6_family sin6_port sin6_flowinfo sin6_addr sin6_scope_id] in *.
  enum_list ad Ha. unfold as_in6, in6_bytes, slice. cbn [sin6_family sin6_port sin6_flowinfo sin6_addr sin6_scope_id].
  f_equal; [exact (of_le_le 2 f Hf)|exact (of_le_le 2 p Hp)|exact (of_le_le 4 fl Hl)|exact (of_le_le 4 sc Hs)].
Qed.

(** Both layouts have the family and the port at the same place. *)
Lemma sa_family_in a m : in_wf a -> sa_family (in_bytes a ++ m) = sin_family a.
Proof. intros Ha. change (sa_family (in_bytes a ++ m)) with (sin_family (as_in (in_bytes a ++ m))). by rewrite as_in_bytes. Qed.
Lemma sa_family_in6 a m : in6_wf a -> sa_family (in6_bytes a ++ m) = sin6_family a.
Proof. intros Ha. change (sa_family (in6_bytes a ++ m)) with (sin6_family (as_in6 (in6_bytes a ++ m))). by rewrite as_in6_bytes. Qed.

Lemma in_bytes_length a : in_wf a -> zlen (in_bytes a) = sizeof_in.
Proof. intros (_ & _ & Ha & Hz). unfold in_bytes, zlen. rewrite !length_app, !length_le, Ha, Hz. done. Qed.
Lemma in6_bytes_length a : in6_wf a -> zlen (in6_bytes a) = sizeof_in6.
Proof. intros (_ & _ & _ & Ha & _). unfold in6_bytes, zlen. rewrite !length_app, !length_le, Ha. done. Qed.

(** Reading a structure from memory and writing it back. *)
Lemma le_of_le_slice m a b w : 0 <= a <= b -> b <= zlen m -> b - a = Z.of_nat w ->
  le_bytes w (of_le (slice m a b)) = slice m a b.
Proof.
  intros Hab Hb Hw. pose proof (zlen_slice m a b Hab Hb) as Hl. unfold zlen in Hl.
  assert (w = length (slice m a b)) as -> by lia. apply le_of_le.
Qed.

Lemma of_le_slice_range m a b : 0 <= a <= b -> b <= zlen m -> 0 <= of_le (slice m a b) < 256 ^ (b - a).
Proof. intros Hab Hb. rewrite <- (zlen_slice m a b Hab Hb). apply of_le_range. Qed.

Lemma slice_length m a b w : 0 <= a <= b -> b <= zlen m -> b - a = Z.of_nat w -> length (slice (A := byte) m a b) = w.
Proof. intros Hab Hb Hw. pose proof (zlen_slice m a b Hab Hb) as Hl. unfold zlen in Hl. lia. Qed.

Lemma as_in_wf m : sizeof_in <= zlen m -> in_wf (as_in m).
Proof.
  unfold sizeof_in. intros Hm. split_and!; simpl; try (by apply slice_length; lia);
    apply of_le_slice_range; lia.
Qed.
Lemma as_in6_wf m : sizeof_in6 <= zlen m -> in6_wf (as_in6 m).
Proof.
  unfold sizeof_in6. intros Hm. split_and!; simpl; try (by apply slice_length; lia);
    apply of_le_slice_range; lia.
Qed.

Lemma in_bytes_as m : sizeof_in <= zlen m -> in_bytes (as_in m) = take 16 m.
Proof.
  unfold sizeof_in. intros Hm. unfold in_bytes, as_in. cbn [sin_family sin_port sin_addr sin_zero].
  rewrite !le_of_le_slice by lia. rewrite <- !slice_app_split by lia.
  unfold slice. by rewrite drop_0.
Qed.
Lemma in6_bytes_as m : sizeof_in6 <= zlen m -> in6_bytes (as_in6 m) = take 28 m.
Proof.
  unfold sizeof_in6. intros Hm. unfold in6_bytes, as_in6.
  cbn [sin6_family sin6_port sin6_flowinfo sin6_addr sin6_scope_id].
  rewrite !le_of_le_slice by lia. rewrite <- !slice_app_split by lia.
  unfold slice. by rewrite drop_0.
Qed.

(** *** Decimal text *)
Lemma pretty_N_go_length k x s : (x < 10 ^ N.of_nat k)%N -> (String.length (pretty_N_go x s) <= k + String.length s)%nat.
Proof.
  revert x s. induction k as [|k IH]; intros x s Hx.
  { assert (x = 0)%N as -> by (simpl in Hx; lia). by rewrite pretty_N_go_0. }
  destruct (decide (x = 0)%N) as [->|Hn]; [rewrite pretty_N_go_0; lia|].
  rewrite pretty_N_go_step by lia. etrans; [apply IH|simpl; lia].
  rewrite Nat2N.inj_succ, N.pow_succ_r' in Hx. apply N.Div0.div_lt_upper_bound; lia.
Qed.

Lemma pretty_N_length k x : (0 < k)%nat -> (x < 10 ^ N.of_nat k)%N -> (String.length (pretty x) <= k)%nat.
Proof.
  intros Hk Hx. unfold pretty, pretty_N. destruct (decide (x = 0)%N); [simpl; lia|].
  etrans; [by apply pretty_N_go_length|simpl; lia].
Qed.

Lemma string_length_app s t : String.length (s +:+ t) = (String.length s + String.length t)%nat.
Proof. induction s as [|c s IH]; [done|]. change (String.length (String c s +:+ t)) with (S (String.length (s +:+ t))). by rewrite IH. Qed.

Lemma snprintf_fits size s : Z.of_nat (String.length s) < size -> snprintf size s = s.
Proof.
  intros Hs. unfold snprintf. assert (String.length s <= Z.to_nat (size - 1))%nat as Hl by lia.
  generalize dependent (Z.to_nat (size - 1)). clear Hs. induction s as [|c s IH]; intros n Hl; [by destruct n|].
  destruct n as [|n]; simpl in *; [lia|]. f_equal. apply IH. lia.
Qed.
