(* ===== verification/TcpConnection.v ===== *)
(** * TcpConnection: one connection, from accept to close

    Models [include/hvnetpp/TcpConnection.h] and [src/TcpConnection.cpp] on the
    loop's thread, with the calls of other threads (which only test the state
    and post a functor) as events.  The connection is a client of [ByteQueue]
    (Buffer.v) for its two buffers and of [Channel]; what the kernel answers
    to [write] and [getsockopt(SO_ERROR)] comes with each event, as does what
    the user's callbacks do: a list of calls on the connection, which may fail
    and close it while the callback runs. *)

From S2P Require Import SocketsOps.
From S2P Require Import Prelude Buffer Channel.

(** ** Data *)
Inductive StateE : Type := kDisconnected | kConnecting | kConnected | kDisconnecting.

#[global] Instance StateE_eq_dec : EqDecision StateE.
Proof. solve_decision. Defined.

(** What the connection hands to [EventLoop::queueInLoop]; [FDestroyed] is
    posted by the close callback [TcpServer] installs. *)
Inductive functor : Type :=
| FSend (d : list byte)
| FShutdown
| FWriteComplete
| FHighWater (n : Z)
| FDestroyed.

(** An answer of [write]: at most so many bytes taken, or an errno, which is
    never zero. *)
Inductive wres : Type := WOk (n : Z) | WErr (e : positive).

(** Calls of the user's code: in a callback, on the loop's thread, or by
    another thread meanwhile. *)
Inductive cact : Type :=
| CSend (d : list byte)
| CSendBuffer (d : list byte)
| CShutdown
| CRetrieve (n : Z)
| CForeignSend (d : list byte)
| CForeignShutdown.

(** What a connection does to its channel and its descriptor:
    [channel_->enableReading()] .. [disableAll()], [tie], [remove], [close]. *)
Inductive chan_op : Type :=
| OpChange (ch : ev_change)
| OpTie
| OpRemove
| OpClose (fd : Z).

(** The object.  [writes] and [sockerr] are the kernel's answers to come;
    [posted] the functors given to the loop.  History variables: [sent] are the
    bytes accepted by [sendInLoop], [written] those the kernel took, [received]
    those it delivered, [consumed] those the user retrieved; [wr_shut] tells
    that [shutdownWrite] was called; [chan_ops] is what was done to the channel
    and the descriptor (TcpReactor.v runs it on the poller). *)
Record Conn (B : Type) : Type := mkConn {
  state_ : StateE;
  socketFd_ : Z;
  channel_ : Channel;
  inputBuffer_ : B;
  outputBuffer_ : B;
  highWaterMark_ : Z;
  connectionCallback_ : bool;
  messageCallback_ : bool;
  writeCompleteCallback_ : bool;
  highWaterMarkCallback_ : bool;
  hasCloseCallback : bool;
  writes : list wres;
  sockerr : Z;
  posted : list functor;
  sent : list byte;
  written : list byte;
  received : list byte;
  consumed : list byte;
  wr_shut : bool;
  chan_ops : list chan_op
}.
Arguments mkConn {B}.
Arguments state_ {B}.
Arguments socketFd_ {B}.
Arguments channel_ {B}.
Arguments inputBuffer_ {B}.
Arguments outputBuffer_ {B}.
Arguments highWaterMark_ {B}.
Arguments connectionCallback_ {B}.
Arguments messageCallback_ {B}.
Arguments writeCompleteCallback_ {B}.
Arguments highWaterMarkCallback_ {B}.
Arguments hasCloseCallback {B}.
Arguments writes {B}.
Arguments sockerr {B}.
Arguments posted {B}.
Arguments sent {B}.
Arguments written {B}.
Arguments received {B}.
Arguments consumed {B}.
Arguments wr_shut {B}.
Arguments chan_ops {B}.

Section conn.
Context {B : Type} `{ByteQueueOps B}.
Implicit Types (s : Conn B) (d : list byte).

(** Assignments to one field (or one field and its history). *)
Definition upd s st fd ch ib ob w po se wr re co sh : Conn B :=
  mkConn st fd ch ib ob (highWaterMark_ s) (connectionCallback_ s) (messageCallback_ s)
    (writeCompleteCallback_ s) (highWaterMarkCallback_ s) (hasCloseCallback s) w (sockerr s) po se wr re co sh
    (chan_ops s).
Definition log_op s (o : chan_op) : Conn B :=
  mkConn (state_ s) (socketFd_ s) (channel_ s) (inputBuffer_ s) (outputBuffer_ s) (highWaterMark_ s)
    (connectionCallback_ s) (messageCallback_ s) (writeCompleteCallback_ s) (highWaterMarkCallback_ s)
    (hasCloseCallback s) (writes s) (sockerr s) (posted s) (sent s) (written s) (received s) (consumed s)
    (wr_shut s) (chan_ops s ++ [o]).
Definition setState s st :=
  upd s st (socketFd_ s) (channel_ s) (inputBuffer_ s) (outputBuffer_ s) (writes s) (posted s) (sent s)
    (written s) (received s) (consumed s) (wr_shut s).
Definition set_fd s fd :=
  upd s (state_ s) fd (channel_ s) (inputBuffer_ s) (outputBuffer_ s) (writes s) (posted s) (sent s)
    (written s) (received s) (consumed s) (wr_shut s).
Definition set_channel s c :=
  upd s (state_ s) (socketFd_ s) c (inputBuffer_ s) (outputBuffer_ s) (writes s) (posted s) (sent s)
    (written s) (received s) (consumed s) (wr_shut s).
Definition set_out s b :=
  upd s (state_ s) (socketFd_ s) (channel_ s) (inputBuffer_ s) b (writes s) (posted s) (sent s)
    (written s) (received s) (consumed s) (wr_shut s).
Definition set_in s b re co :=
  upd s (state_ s) (socketFd_ s) (channel_ s) b (outputBuffer_ s) (writes s) (posted s) (sent s)
    (written s) re co (wr_shut s).
Definition log_sent s d :=
  upd s (state_ s) (socketFd_ s) (channel_ s) (inputBuffer_ s) (outputBuffer_ s) (writes s) (posted s)
    (sent s ++ d) (written s) (received s) (consumed s) (wr_shut s).
Definition set_kernel s w wr :=
  upd s (state_ s) (socketFd_ s) (channel_ s) (inputBuffer_ s) (outputBuffer_ s) w (posted s) (sent s)
    wr (received s) (consumed s) (wr_shut s).
Definition queueInLoop s f :=
  upd s (state_ s) (socketFd_ s) (channel_ s) (inputBuffer_ s) (outputBuffer_ s) (writes s) (posted s ++ [f])
    (sent s) (written s) (received s) (consumed s) (wr_shut s).
Definition set_posted s l :=
  upd s (state_ s) (socketFd_ s) (channel_ s) (inputBuffer_ s) (outputBuffer_ s) (writes s) l
    (sent s) (written s) (received s) (consumed s) (wr_shut s).
Definition set_shut s :=
  upd s (state_ s) (socketFd_ s) (channel_ s) (inputBuffer_ s) (outputBuffer_ s) (writes s) (posted s)
    (sent s) (written s) (received s) (consumed s) true.

(** [TcpConnection(loop, name, sockfd, ..)] with the callbacks then set; the
    constructor sets all four callbacks of its channel. *)
Definition TcpConnection_new (sockfd highWaterMark : Z) (conn_cb msg_cb wc_cb hw_cb close_cb : bool) : Conn B :=
  mkConn kConnecting sockfd (set_callbacks (Channel_new sockfd) true true true true) bq_new bq_new highWaterMark
    conn_cb msg_cb wc_cb hw_cb close_cb [] 0 [] [] [] [] [] false [].

Definition is_state s st : bool := bool_decide (state_ s = st).
Definition is_open s : bool := is_state s kConnected || is_state s kDisconnecting.

(** [::write(fd, data, len)]. *)
Definition sys_write s d : (Z + Z) * Conn B :=
  match writes s with
  | WOk n :: w =>
      let n := Z.max 0 (Z.min n (zlen d)) in
      (inl n, set_kernel s w (written s ++ take (Z.to_nat n) d))
  | WErr e :: w => (inr (Zpos e), set_kernel s w (written s))
  | [] => (inr EAGAIN, s)
  end.

Definition retriable (e : Z) : bool := (e =? EAGAIN) || (e =? EINTR).

Definition channel_do (ch : ev_change) s : Conn B :=
  log_op (set_channel s (channel_set ch (channel_ s))) (OpChange ch).
Definition c_tie s : Conn B := log_op (set_channel s (tie (channel_ s) 0)) OpTie.
Definition c_remove s : Conn B := log_op (set_channel s (channel_drop (channel_ s))) OpRemove.
Definition c_isWriting s : bool := isWriting (channel_ s).

Definition shutdownInLoop s : Conn B :=
  if (0 <=? socketFd_ s) && negb (c_isWriting s) then set_shut s else s.

Definition closeSocket s : Conn B := if 0 <=? socketFd_ s then log_op (set_fd s (-1)) (OpClose (socketFd_ s)) else s.

Definition conn_setTcpNoDelay {K} `{SocketCalls K} (k : K) s (on : bool) : K :=
  if 0 <=? socketFd_ s then setTcpNoDelay k (socketFd_ s) on else k.

(** ** The member functions

    [conn_cb] is the user's connection callback, run on the state. *)
Section callbacks.
Context (conn_cb : Conn B -> res (Conn B)).

Definition run_connectionCallback s : res (Conn B) :=
  if connectionCallback_ s then conn_cb s else Ok s.

Definition handleClose s : res (Conn B) :=
  assert_ (is_open s);;
  s1 ← run_connectionCallback (channel_do DisableAll (setState s kDisconnected));
  Ok (if hasCloseCallback s1 then queueInLoop s1 FDestroyed else s1).

(** [handleError(int err)] *)
Definition handleError_err s (err : Z) : res (Conn B) :=
  if (err =? 0) || retriable err then Ok s else
  if is_open s then handleClose s else Ok s.

(** [handleError()] *)
Definition handleError s : res (Conn B) :=
  if negb (sockerr s =? 0) then handleError_err s (sockerr s) else Ok s.

(** The last part of [sendInLoop]: what was not written goes to the output
    buffer. *)
Definition queueOutput s (nwrote remaining : Z) d : res (Conn B) :=
  let oldLen := bq_readable (outputBuffer_ s) in
  let s1 := if (highWaterMark_ s <=? u64 (oldLen + remaining)) && (oldLen <? highWaterMark_ s)
               && highWaterMarkCallback_ s
            then queueInLoop s (FHighWater (u64 (oldLen + remaining))) else s in
  out ← bq_append (outputBuffer_ s1) (drop (Z.to_nat nwrote) d);
  let s2 := set_out s1 out in
  Ok (if negb (c_isWriting s2) then channel_do EnableWriting s2 else s2).

Definition sendInLoop s d : res (Conn B) :=
  if is_state s kDisconnected then Ok s else
  let s := log_sent s d in
  let len := zlen d in
  '(nwrote, remaining, faultError, s1) ←
    (if negb (c_isWriting s) && (bq_readable (outputBuffer_ s) =? 0) then
       match sys_write s d with
       | (inl n, s1) =>
           let remaining := len - n in
           Ok (n, remaining, false,
               if (remaining =? 0) && writeCompleteCallback_ s1 then queueInLoop s1 FWriteComplete else s1)
       | (inr e, s1) =>
           if retriable e then Ok (0, len, false, s1)
           else s2 ← handleError_err s1 e; Ok (0, 0, true, s2)
       end
     else Ok (0, len, false, s));
  if negb faultError && (0 <? remaining) then queueOutput s1 nwrote remaining d else Ok s1.

(** [send(data, len)], and the overload that takes a pointer to a [Buffer]. *)
Definition send (inLoop : bool) s d : res (Conn B) :=
  if zlen d =? 0 then Ok s else
  if inLoop then if is_state s kConnected then sendInLoop s d else Ok s
  else Ok (if is_state s kConnected then queueInLoop s (FSend d) else s).

Definition send_Buffer (inLoop : bool) s d : res (Conn B) :=
  if inLoop then if is_state s kConnected then sendInLoop s d else Ok s
  else Ok (if is_state s kConnected then queueInLoop s (FSend d) else s).

Definition shutdown (inLoop : bool) s : Conn B :=
  if is_state s kConnected then
    if inLoop then shutdownInLoop (setState s kDisconnecting) else queueInLoop s FShutdown
  else s.

(** The user takes [n] of the readable bytes of [inputBuffer_], or all. *)
Definition user_retrieve s (n : Z) : res (Conn B) :=
  let n := Z.max 0 (Z.min n (bq_readable (inputBuffer_ s))) in
  data ← bq_peek (inputBuffer_ s) n;
  b ← bq_retrieve (inputBuffer_ s) n;
  Ok (set_in s b (received s) (consumed s ++ data)).

Definition do_cact s (a : cact) : res (Conn B) :=
  match a with
  | CSend d => send true s d
  | CSendBuffer d => send_Buffer true s d
  | CShutdown => Ok (shutdown true s)
  | CRetrieve n => user_retrieve s n
  | CForeignSend d => send false s d
  | CForeignShutdown => Ok (shutdown false s)
  end.

Fixpoint do_cacts s (acts : list cact) : res (Conn B) :=
  match acts with
  | [] => Ok s
  | a :: acts' => s1 ← do_cact s a; do_cacts s1 acts'
  end.

(** What [readv] delivers into the ranges it is given. *)
Definition delivered (readv : list Z -> Z + list byte) (iov : list Z) : list byte :=
  match readv iov with inl _ => [] | inr bytes => bytes end.

(** [readFd] on the input buffer; the history takes what the kernel delivered. *)
Definition handleRead (readv : list Z -> Z + list byte) (msg : list cact) s : res (Conn B) :=
  if is_state s kDisconnected then Ok s else
  '(n, savedErrno, b) ← bq_readFd readv (inputBuffer_ s);
  let s1 := set_in s b (received s ++ delivered readv (bq_iov (inputBuffer_ s))) (consumed s) in
  if 0 <? n then if messageCallback_ s1 then do_cacts s1 msg else Ok s1
  else if n =? 0 then handleClose s1
  else handleError_err s1 (default 0 savedErrno).

Definition handleWrite s : res (Conn B) :=
  if is_state s kDisconnected then Ok s else
  if c_isWriting s then
    data ← bq_peek (outputBuffer_ s) (bq_readable (outputBuffer_ s));
    match sys_write s data with
    | (inl n, s1) =>
        if 0 <? n then
          out ← bq_retrieve (outputBuffer_ s1) n;
          let s2 := set_out s1 out in
          if bq_readable out =? 0 then
            let s3 := channel_do DisableWriting s2 in
            let s4 := if writeCompleteCallback_ s3 then queueInLoop s3 FWriteComplete else s3 in
            Ok (if is_state s4 kDisconnecting then shutdownInLoop s4 else s4)
          else Ok s2
        else handleError_err s1 (if n =? 0 then EPIPE else 0)
    | (inr e, s1) => handleError_err s1 e
    end
  else Ok s.

Definition connectEstablished s : res (Conn B) :=
  assert_ (is_state s kConnecting);;
  let s1 := setState s kConnected in
  run_connectionCallback (channel_do EnableReading (c_tie s1)).

Definition connectDestroyed s : res (Conn B) :=
  s1 ← (if negb (is_state s kDisconnected)
        then run_connectionCallback (channel_do DisableAll (setState s kDisconnected)) else Ok s);
  Ok (closeSocket (c_remove s1)).

(** The channel's event handler: the callbacks [revents] selects, in order. *)
Definition do_callback (readv : list Z -> Z + list byte) (msg : list cact) s (k : cbk) : res (Conn B) :=
  match k with
  | CbClose => handleClose s
  | CbError => handleError s
  | CbRead => handleRead readv msg s
  | CbWrite => handleWrite s
  end.

Fixpoint handleEvents (readv : list Z -> Z + list byte) (msg : list cact) (ks : list cbk) s : res (Conn B) :=
  match ks with
  | [] => Ok s
  | k :: ks' =>
      s1 ← (if selected (channel_ s) k then do_callback readv msg s k else Ok s);
      handleEvents readv msg ks' s1
  end.

(** A posted functor; [done] is what the write-complete and high-water
    callbacks do. *)
Definition run_functor (done : list cact) s (f : functor) : res (Conn B) :=
  match f with
  | FSend d => if is_state s kConnected then sendInLoop s d else Ok s
  | FShutdown => Ok (if is_state s kConnected then shutdownInLoop (setState s kDisconnecting) else s)
  | FWriteComplete | FHighWater _ => do_cacts s done
  | FDestroyed => connectDestroyed s
  end.
End callbacks.

(** The connection callback performs [conn]; [n] bounds how deep connection
    callbacks nest (one called by [connectEstablished] can fail in [send],
    which closes the connection and calls it again). *)
Fixpoint user_conn_cb (conn : list cact) (n : nat) s : res (Conn B) :=
  match n with
  | O => Fault NoFuel
  | S n' => do_cacts (user_conn_cb conn n') s conn
  end.
Definition nesting : nat := 2.

Definition TcpConnection_delete s : res (Conn B) :=
  assert_ (is_state s kDisconnected);;
  Ok (closeSocket s).
End conn.

(** ** Events in the life of a connection

    [connectEstablished]; an event the poller reports; a posted functor, in
    any order the loop runs them; code on the loop's thread outside callbacks;
    [connectDestroyed] called by the server's destructor. *)
Inductive event : Type :=
| EvEstablish
| EvPoll (revents : Z) (readv : list Z -> Z + list byte)
| EvFunctor (i : nat)
| EvActs (acts : list cact)
| EvDestroy.

(** What the kernel and the user do during the event. *)
Record env : Type := mkEnv {
  e_writes : list wres;
  e_sockerr : Z;
  e_conn : list cact;        (* the connection callback *)
  e_msg : list cact;         (* the message callback *)
  e_done : list cact         (* the write-complete and high-water callbacks *)
}.

Section events.
Context {B : Type} `{ByteQueueOps B}.
Implicit Types (s : Conn B).

Definition set_env s (e : env) : Conn B :=
  mkConn (state_ s) (socketFd_ s) (channel_ s) (inputBuffer_ s) (outputBuffer_ s) (highWaterMark_ s)
    (connectionCallback_ s) (messageCallback_ s) (writeCompleteCallback_ s) (highWaterMarkCallback_ s)
    (hasCloseCallback s) (e_writes e) (e_sockerr e) (posted s) (sent s) (written s) (received s) (consumed s)
    (wr_shut s) (chan_ops s).

Definition run_event s (ev : event) (e : env) : res (Conn B) :=
  let s0 := set_env s e in
  let cb := user_conn_cb (e_conn e) nesting in
  match ev with
  | EvEstablish => connectEstablished cb s0
  | EvPoll revents readv =>
      handleEvents cb readv (e_msg e) all_cbks (set_channel s0 (setRevents (channel_ s0) revents))
  | EvFunctor i =>
      match posted s0 !! i with
      | Some f => run_functor cb (e_done e) (set_posted s0 (delete i (posted s0))) f
      | None => Ok s0
      end
  | EvActs acts => do_cacts cb s0 acts
  | EvDestroy => connectDestroyed cb s0
  end.

Fixpoint run_events s (evs : list (event * env)) : res (Conn B) :=
  match evs with [] => Ok s | (ev, e) :: evs' => s1 ← run_event s ev e; run_events s1 evs' end.

(** When an event can happen: a connection is established once; the poller
    reports events of channels that ask for some (Poller.v). *)
Definition ev_ok s (ev : event) : Prop :=
  match ev with
  | EvEstablish => state_ s = kConnecting
  | EvPoll _ readv => events_ (channel_ s) <> 0 /\ readv_ok readv
  | _ => True
  end.

Fixpoint events_ok s (evs : list (event * env)) : Prop :=
  match evs with
  | [] => True
  | (ev, e) :: evs' => ev_ok s ev /\ forall s', run_event s ev e = Ok s' -> events_ok s' evs'
  end.

(** ** Bounds

    The memory the buffers occupy, plus what posted sends will add, stays
    below the maximal size of a vector. *)
Definition cost (d : list byte) : Z := 2 * zlen d + kCheapPrepend.
Definition functor_cost (f : functor) : Z := match f with FSend d => cost d | _ => 0 end.
Definition act_cost (a : cact) : Z :=
  match a with CSend d | CSendBuffer d | CForeignSend d => cost d | _ => 0 end.
Definition sum_cost {A} (c : A -> Z) (l : list A) : Z := foldr (fun a n => c a + n) 0 l.
Definition pot s : Z :=
  bq_size (inputBuffer_ s) + bq_size (outputBuffer_ s) + sum_cost functor_cost (posted s).
Definition budget s (c : Z) : Prop := 2 * (pot s + c) + 4 * extrabuf_size <= bq_cap (B := B).
Definition ev_cost (ev : event) (e : env) : Z :=
  bq_read_growth + sum_cost act_cost (e_conn e) + sum_cost act_cost (e_msg e) + sum_cost act_cost (e_done e) +
  match ev with EvActs acts => sum_cost act_cost acts | _ => 0 end.
Definition evs_cost (evs : list (event * env)) : Z := sum_cost (fun x => ev_cost x.1 x.2) evs.

(** ** The invariant *)
Definition out_bytes s : list byte := bq_bytes (outputBuffer_ s).

Definition channel_ok s : Prop :=
  let c := channel_ s in
  mask_ok (events_ c) /\
  (readCallback_ c, writeCallback_ c, closeCallback_ c, errorCallback_ c) = (true, true, true, true) /\
  match state_ s with
  | kConnecting => events_ c = 0 /\ addedToLoop_ c = false
  | kDisconnected => events_ c = 0
  | _ => isReading c = true /\ isWriting c = bool_decide (out_bytes s <> [])
  end.

Record conn_inv s : Prop := mkCInv {
  ci_in : bq_wf (inputBuffer_ s);
  ci_out : bq_wf (outputBuffer_ s);
  ci_recv : received s = consumed s ++ bq_bytes (inputBuffer_ s);
  ci_prefix : written s ++ out_bytes s `prefix_of` sent s;
  ci_exact : state_ s <> kDisconnected -> sent s = written s ++ out_bytes s;
  ci_connecting : state_ s = kConnecting -> sent s = [];
  ci_channel : channel_ok s;
  ci_fd : state_ s <> kDisconnected -> 0 <= socketFd_ s;
  ci_shut : wr_shut s = true ->
    (state_ s = kDisconnecting \/ state_ s = kDisconnected) /\ out_bytes s = [] /\ written s = sent s;
  ci_flush : state_ s = kDisconnecting -> out_bytes s = [] -> wr_shut s = true
}.

Definition state_rank (st : StateE) : nat :=
  match st with kConnecting => 0 | kConnected => 1 | kDisconnecting => 2 | kDisconnected => 3 end.

(** How the state moves: forward only, with histories that only grow. *)
Record evolve s s' (c : Z) : Prop := mkEvolve {
  ev_inv : conn_inv s';
  ev_pot : pot s' <= pot s + c;
  ev_rank : (state_rank (state_ s) <= state_rank (state_ s'))%nat;
  ev_sent : sent s `prefix_of` sent s';
  ev_written : written s `prefix_of` written s';
  ev_received : received s `prefix_of` received s';
  ev_consumed : consumed s `prefix_of` consumed s';
  ev_shut : wr_shut s = true -> wr_shut s' = true /\ written s' = written s;
  ev_dead : state_ s = kDisconnected -> sent s' = sent s /\ written s' = written s
}.

Lemma evolve_refl s c : conn_inv s -> 0 <= c -> evolve s s c.
Proof. intros I Hc. split; try done. lia. Qed.

Lemma log_op_inv s o : conn_inv s -> conn_inv (log_op s o).
Proof. by intros []. Qed.

Lemma evolve_trans s1 s2 s3 c1 c2 : evolve s1 s2 c1 -> evolve s2 s3 c2 -> evolve s1 s3 (c1 + c2).
Proof.
  intros [I1 P1 R1 S1 W1 V1 C1 H1 D1] [I2 P2 R2 S2 W2 V2 C2 H2 D2].
  split; try lia; try done; try (by etrans).
  - intros Hs. destruct (H1 Hs) as [Hs2 E1]. destruct (H2 Hs2) as [? E2]. split; [done|congruence].
  - intros Hs. destruct (D1 Hs) as [E1 E2]. rewrite Hs in R1. simpl in R1.
    assert (state_ s2 = kDisconnected) as Hs2 by (destruct (state_ s2); simpl in R1; by try lia).
    destruct (D2 Hs2) as [-> ->]. done.
Qed.

Lemma evolve_log s s' o c : evolve s s' c -> evolve s (log_op s' o) c.
Proof. intros []. split; try done. by apply log_op_inv. Qed.

Lemma evolve_weaken s s' c c' : c <= c' -> evolve s s' c -> evolve s s' c'.
Proof. intros Hc [? ? ? ? ? ? ? ? ?]. split; try done. lia. Qed.
End events.

(** ** The operations keep the invariant *)
Section ops.
Context {B : Type} `{ByteQueue B}.
Implicit Types (s : Conn B) (d : list byte) (conn_cb : Conn B -> res (Conn B)).

Lemma cost_nonneg d : 0 <= cost d.
Proof. unfold cost, kCheapPrepend. pose proof (zlen_nonneg d). lia. Qed.
Lemma sum_cost_nonneg {A} (c : A -> Z) l : (forall a, 0 <= c a) -> 0 <= sum_cost c l.
Proof. intros Hc. induction l as [|a l IH]; simpl; [lia|]. specialize (Hc a). lia. Qed.
Lemma functor_cost_nonneg f : 0 <= functor_cost f.
Proof. destruct f; simpl; try lia. apply cost_nonneg. Qed.
Lemma act_cost_nonneg a : 0 <= act_cost a.
Proof. destruct a; simpl; try lia; apply cost_nonneg. Qed.
Lemma sum_cost_app {A} (c : A -> Z) l1 l2 : sum_cost c (l1 ++ l2) = sum_cost c l1 + sum_cost c l2.
Proof. induction l1 as [|a l1 IH]; simpl; [done|]. rewrite IH. lia. Qed.

Lemma budget_weaken s s' c c' : pot s' + c' <= pot s + c -> budget s c -> budget s' c'.
Proof. unfold budget. lia. Qed.

Lemma pot_sizes s : conn_inv s ->
  0 <= bq_size (inputBuffer_ s) /\ 0 <= bq_size (outputBuffer_ s) /\ 0 <= sum_cost functor_cost (posted s).
Proof.
  intros I. pose proof (bq_size_ok _ (ci_in _ I)). pose proof (bq_size_ok _ (ci_out _ I)).
  pose proof (zlen_nonneg (bq_bytes (inputBuffer_ s))). pose proof (zlen_nonneg (bq_bytes (outputBuffer_ s))).
  pose proof (sum_cost_nonneg functor_cost (posted s) functor_cost_nonneg). lia.
Qed.

(** The masks of the channel. *)
Lemma mask_cases (e : Z) : mask_ok e -> e = 0 \/ e = 3 \/ e = 4 \/ e = 7.
Proof. unfold mask_ok. rewrite !elem_of_cons, elem_of_nil. tauto. Qed.

Lemma channel_set_bits ch c : mask_ok (events_ c) ->
  mask_ok (events_ (channel_set ch c)) /\
  match ch with
  | EnableReading => isReading (channel_set ch c) = true /\ isWriting (channel_set ch c) = isWriting c
  | DisableReading => isReading (channel_set ch c) = false /\ isWriting (channel_set ch c) = isWriting c
  | EnableWriting => isReading (channel_set ch c) = isReading c /\ isWriting (channel_set ch c) = true
  | DisableWriting => isReading (channel_set ch c) = isReading c /\ isWriting (channel_set ch c) = false
  | DisableAll => events_ (channel_set ch c) = 0
  end /\
  (readCallback_ (channel_set ch c), writeCallback_ (channel_set ch c), closeCallback_ (channel_set ch c),
   errorCallback_ (channel_set ch c)) = (readCallback_ c, writeCallback_ c, closeCallback_ c, errorCallback_ c).
Proof.
  intros Hm. pose proof (change_events_ok ch _ Hm) as Hm'. pose proof (change_events_bits ch _ Hm) as Hb.
  cbv zeta in Hb. unfold channel_set, isReading, isWriting. simpl.
  destruct (negb _ && _); simpl; (split; [done|]); (split; [|done]); destruct ch; try done; tauto.
Qed.

Lemma is_state_spec s st : is_state s st = bool_decide (state_ s = st).
Proof. done. Qed.

Lemma is_open_spec s : is_open s = true <-> state_ s = kConnected \/ state_ s = kDisconnecting.
Proof. unfold is_open, is_state. rewrite orb_true_iff, !bool_decide_eq_true. done. Qed.

(** The connection after [setState(kDisconnected); channel_->disableAll()]. *)
Definition dead s : Conn B := channel_do DisableAll (setState s kDisconnected).

Lemma inv_dead s :
  bq_wf (inputBuffer_ s) -> bq_wf (outputBuffer_ s) ->
  received s = consumed s ++ bq_bytes (inputBuffer_ s) ->
  written s ++ out_bytes s `prefix_of` sent s -> mask_ok (events_ (channel_ s)) ->
  (readCallback_ (channel_ s), writeCallback_ (channel_ s), closeCallback_ (channel_ s), errorCallback_ (channel_ s))
    = (true, true, true, true) ->
  (wr_shut s = true -> out_bytes s = [] /\ written s = sent s) ->
  conn_inv (dead s).
Proof.
  intros Hi Ho Hr Hp Hm Hcb Hs. destruct (channel_set_bits DisableAll (channel_ s) Hm) as (Hm' & He & Hcb').
  split; simpl; try done; [|intros Hw; split; [by right|by apply Hs]].
  split_and!; simpl; [done|by rewrite Hcb'|done].
Qed.

Lemma dead_evolve s : conn_inv s -> evolve s (dead s) 0.
Proof.
  intros I. split; simpl; try done; [|unfold pot; simpl; lia|destruct (state_ s); simpl; lia].
  destruct (ci_channel _ I) as (? & ? & _).
  apply inv_dead; try apply I; try done.
Qed.

(** Posting a functor. *)
Lemma post_evolve s f : conn_inv s -> evolve s (queueInLoop s f) (functor_cost f).
Proof.
  intros I. split; try done; [destruct I; by split|].
  unfold pot. simpl. rewrite sum_cost_app. simpl. lia.
Qed.

(** What is asked of the connection callback: fine on a closed connection,
    or on every connection within the budget. *)
Definition cb_dead conn_cb : Prop :=
  forall s, conn_inv s -> state_ s = kDisconnected -> exists s', conn_cb s = Ok s' /\ evolve s s' 0.
Definition cb_live conn_cb (c : Z) : Prop :=
  forall s, conn_inv s -> budget s c -> exists s', conn_cb s = Ok s' /\ evolve s s' c.

Lemma run_connectionCallback_dead conn_cb s :
  cb_dead conn_cb -> conn_inv s -> state_ s = kDisconnected ->
  exists s', run_connectionCallback conn_cb s = Ok s' /\ evolve s s' 0.
Proof.
  intros Hcb I Hs. unfold run_connectionCallback. destruct (connectionCallback_ s); [by apply Hcb|].
  exists s. split; [done|]. by apply evolve_refl.
Qed.

Lemma handleClose_spec conn_cb s :
  cb_dead conn_cb -> conn_inv (dead s) -> is_open s = true ->
  exists s', handleClose conn_cb s = Ok s' /\ evolve (dead s) s' 0 /\ state_ s' = kDisconnected.
Proof.
  intros Hcb I Ho. unfold handleClose. rewrite Ho. simpl. fold (dead s).
  destruct (run_connectionCallback_dead conn_cb (dead s) Hcb I eq_refl) as (s1 & -> & E). simpl.
  assert (forall s2, evolve (dead s) s2 0 -> state_ s2 = kDisconnected) as Hd.
  { intros s2 E2. pose proof (ev_rank _ _ _ E2) as Hr. simpl in Hr. by destruct (state_ s2); simpl in Hr; try lia. }
  destruct (hasCloseCallback s1).
  - exists (queueInLoop s1 FDestroyed).
    assert (evolve (dead s) (queueInLoop s1 FDestroyed) 0) as E2.
    { apply (evolve_trans _ s1 _ 0 0); [done|]. apply (post_evolve s1 FDestroyed), E. }
    split_and!; [done|done|by apply Hd].
  - exists s1. split_and!; [done|done|by apply Hd].
Qed.

Lemma handleError_err_spec conn_cb s err :
  cb_dead conn_cb -> (is_open s = true -> conn_inv (dead s)) ->
  exists s', handleError_err conn_cb s err = Ok s' /\
    (s' = s /\ ((err =? 0) || retriable err = true \/ is_open s = false) \/
     evolve (dead s) s' 0 /\ is_open s = true /\ state_ s' = kDisconnected).
Proof.
  intros Hcb I. unfold handleError_err. destruct (_ || retriable err) eqn:Hr; [by eauto 8|].
  destruct (is_open s) eqn:Ho; [|by eauto 8].
  destruct (handleClose_spec conn_cb s Hcb (I eq_refl) Ho) as (s' & -> & ? & ?). eauto 8.
Qed.

Lemma handleError_err_evolve conn_cb s err :
  cb_dead conn_cb -> conn_inv s ->
  exists s', handleError_err conn_cb s err = Ok s' /\ evolve s s' 0.
Proof.
  intros Hcb I. pose proof (dead_evolve s I) as Ed.
  destruct (handleError_err_spec conn_cb s err Hcb) as (s' & -> & [[-> _]|[E _]]).
  { intros _. apply Ed. }
  - exists s. split; [done|]. by apply evolve_refl.
  - exists s'. split; [done|]. by apply (evolve_trans _ (dead s) _ 0 0).
Qed.

(** [user_retrieve] *)
Lemma user_retrieve_evolve s n : conn_inv s -> exists s', user_retrieve s n = Ok s' /\ evolve s s' 0 /\
  state_ s' = state_ s.
Proof.
  intros I. unfold user_retrieve. pose proof (ci_in _ I) as Hi.
  pose proof (bq_readable_ok _ Hi) as Er. rewrite Er.
  pose proof (zlen_nonneg (bq_bytes (inputBuffer_ s))).
  set (m := Z.max 0 _). assert (0 <= m <= zlen (bq_bytes (inputBuffer_ s))) as Hm by lia.
  rewrite (bq_peek_ok _ m Hi Hm). simpl.
  destruct (bq_retrieve_ok _ m Hi Hm) as (b & -> & Hb & Eb & Esz). simpl.
  eexists. split; [done|]. split; [|done]. split; simpl; try done.
  - destruct I. split; simpl; try done. rewrite Eb, <- app_assoc, take_drop. done.
  - unfold pot. simpl. lia.
  - by apply prefix_app_r.
Qed.

(** The history before the bytes being sent were added to it. *)
Definition unlog s : Conn B :=
  upd s (state_ s) (socketFd_ s) (channel_ s) (inputBuffer_ s) (outputBuffer_ s) (writes s) (posted s)
    (written s ++ out_bytes s) (written s) (received s) (consumed s) (wr_shut s).

(** The changes of [s'] from [s] are in the output path only. *)
Definition same_hist s s' : Prop :=
  state_ s' = state_ s /\ sent s' = sent s /\ written s' = written s /\ received s' = received s /\
  consumed s' = consumed s /\ wr_shut s' = wr_shut s.

Lemma connected_not_shut s : conn_inv s -> state_ s = kConnected -> wr_shut s = false.
Proof.
  intros I Hs. destruct (wr_shut s) eqn:E; [|done]. destruct (ci_shut _ I E) as [[?|?] _]; congruence.
Qed.

Lemma queueOutput_spec s nwrote d :
  let rest := drop (Z.to_nat nwrote) d in
  conn_inv (unlog s) -> state_ s = kConnected -> rest <> [] -> sent s = written s ++ out_bytes s ++ rest ->
  bq_size (outputBuffer_ s) + cost rest <= bq_cap (B := B) ->
  exists s', queueOutput s nwrote (zlen rest) d = Ok s' /\ conn_inv s' /\ pot s' <= pot s + cost rest /\
    same_hist s s'.
Proof.
  intros rest I Hst Hne Hsent Hcap. unfold queueOutput. fold rest.
  set (s1 := if _ && _ && _ then _ else s).
  assert (exists po, s1 = set_posted s po /\ sum_cost functor_cost po = sum_cost functor_cost (posted s))
    as (po & Es1 & Hpost).
  { unfold s1. destruct (_ && _ && _).
    - exists (posted s ++ [FHighWater (u64 (bq_readable (outputBuffer_ s) + zlen rest))]).
      split; [done|]. rewrite sum_cost_app. simpl. lia.
    - exists (posted s). by destruct s. }
  clearbody s1. subst s1. simpl.
  pose proof (ci_out _ I) as Ho. simpl in Ho. unfold cost in *.
  destruct (bq_append_ok _ rest Ho) as (b & -> & Hb & Eb & Hsz); [lia|]. simpl.
  pose proof (connected_not_shut _ I Hst) as Hns. simpl in Hns.
  destruct (ci_channel _ I) as (Hm & Hcb & Hrw). simpl in Hm, Hcb, Hrw. rewrite Hst in Hrw.
  destruct Hrw as [Hrd Hwr]. set (s2 := set_out _ b).
  assert (out_bytes s2 <> []) as Hne2.
  { unfold out_bytes, s2. simpl. rewrite Eb. intros [_ ?]%app_eq_nil. done. }
  assert (forall c', mask_ok (events_ c') -> isReading c' = true -> isWriting c' = true ->
    (readCallback_ c', writeCallback_ c', closeCallback_ c', errorCallback_ c') = (true, true, true, true) ->
    conn_inv (set_channel s2 c')) as Hinv.
  { intros c' Hm' Hr' Hw' Hcb'. destruct I as [I1 I2 I3 I4 I5 I6 I7 I8 I9 I10].
    simpl in *. split; simpl; try done; unfold out_bytes in *; simpl; rewrite ?Eb; try congruence.
    - by rewrite Hsent.
    - split_and!; simpl; try done. rewrite Hst. split; [done|]. rewrite Hw'. symmetry.
      by apply bool_decide_eq_true. }
  assert (pot s2 <= pot s + (2 * zlen rest + kCheapPrepend)) as Hpot.
  { unfold pot. simpl. rewrite Hpost. lia. }
  eexists. split; [done|]. unfold c_isWriting. simpl.
  destruct (isWriting (channel_ s)) eqn:Hw; simpl.
  - split_and!; try done. change s2 with (set_channel s2 (channel_ s)). by apply Hinv.
  - destruct (channel_set_bits EnableWriting (channel_ s) Hm) as (Hm' & [Hr' Hw'] & Hcb').
    split_and!; try done. apply log_op_inv, (Hinv (channel_set EnableWriting (channel_ s))); try done; by rewrite ?Hr', ?Hcb'.
Qed.

Lemma sys_write_spec s d :
  exists w, match sys_write s d with
  | (inl n, s') => 0 <= n <= zlen d /\ s' = set_kernel s w (written s ++ take (Z.to_nat n) d)
  | (inr e, s') => e <> 0 /\ s' = set_kernel s w (written s)
  end.
Proof.
  unfold sys_write. pose proof (zlen_nonneg d). destruct (writes s) as [|[n|e] w] eqn:E.
  - exists []. rewrite <- E. by destruct s.
  - exists w. split; [lia|done].
  - by exists w.
Qed.

Lemma kernel_evolve s w : conn_inv s -> evolve s (set_kernel s w (written s)) 0.
Proof. intros []. split; try done; [unfold pot; simpl; lia]. Qed.

Lemma shutdownInLoop_evolve s :
  (* the state of [shutdown] and [handleWrite] before the call *)
  state_ s = kDisconnecting -> (out_bytes s = [] -> conn_inv (set_shut s)) ->
  (out_bytes s <> [] -> conn_inv s) -> 0 <= socketFd_ s ->
  isWriting (channel_ s) = bool_decide (out_bytes s <> []) ->
  conn_inv (shutdownInLoop s) /\
  (shutdownInLoop s = s \/ shutdownInLoop s = set_shut s) /\
  (out_bytes s = [] -> shutdownInLoop s = set_shut s).
Proof.
  intros Hs He Hn Hfd Hw. unfold shutdownInLoop, c_isWriting. rewrite Hw, (proj2 (Z.leb_le 0 _) Hfd). simpl.
  case_bool_decide as Hb; simpl; [split_and!; [by apply Hn|by left|done]|].
  assert (out_bytes s = []) as Hb' by (destruct (out_bytes s); [done|by destruct Hb]).
  split_and!; [by apply He|by right|done].
Qed.

Lemma shutdown_evolve b s : conn_inv s -> evolve s (shutdown b s) 0.
Proof.
  intros I. unfold shutdown, is_state. case_bool_decide as Hs; [|by apply evolve_refl].
  destruct b; [|by apply (post_evolve s FShutdown)].
  pose proof (connected_not_shut s I Hs) as Hns. pose proof I as [I1 I2 I3 I4 I5 I6 I7 I8 I9 I10].
  rewrite Hs in I5, I8. destruct I7 as (Hm & Hcb & Hrw). rewrite Hs in Hrw.
  destruct (shutdownInLoop_evolve (setState s kDisconnecting)) as (I' & Hor & _).
  - done.
  - intros He. split; simpl; try done; [by auto|by auto|].
    intros _. unfold out_bytes in *. simpl in *. rewrite I5, He, app_nil_r by done. auto.
  - intros Hne. split; simpl; try done; [by auto|by auto|by rewrite Hns].
  - simpl. auto.
  - apply Hrw.
  - destruct Hor as [E|E]; rewrite E in I' |- *; (split; simpl; try done; try (by rewrite Hns);
      [unfold pot; simpl; lia|rewrite Hs; simpl; lia]).
Qed.

(** Writing straight to the socket needs an idle, empty output side. *)
Lemma direct_unlog s w d n :
  conn_inv s -> state_ s = kConnected -> out_bytes s = [] -> 0 <= n <= zlen d ->
  let s1 := set_kernel (log_sent s d) w (written s ++ take (Z.to_nat n) d) in
  conn_inv (unlog s1) /\ sent s1 = written s1 ++ out_bytes s1 ++ drop (Z.to_nat n) d.
Proof.
  intros I Hs Ho Hn s1. pose proof (connected_not_shut s I Hs) as Hns.
  destruct I as [I1 I2 I3 I4 I5 I6 I7 I8 I9 I10]. unfold out_bytes in *. simpl in *.
  rewrite Ho, app_nil_r in *. split.
  - split; simpl; try done; unfold out_bytes; simpl; rewrite ?Ho, ?app_nil_r; try done; try congruence.
  - rewrite I5 by congruence. simpl. by rewrite <- app_assoc, take_drop.
Qed.

Lemma unlog_exact s : sent s = written s ++ out_bytes s -> conn_inv (unlog s) -> conn_inv s.
Proof. intros E. unfold unlog. rewrite <- E. by destruct s. Qed.

Lemma evolve_send s s1 s2 c rest :
  conn_inv s -> state_ s = kConnected -> state_ s1 = kConnected ->
  wr_shut s1 = false -> pot s1 <= pot s -> received s1 = received s -> consumed s1 = consumed s ->
  sent s `prefix_of` sent s1 -> written s `prefix_of` written s1 ->
  conn_inv s2 -> pot s2 <= pot s1 + cost rest -> same_hist s1 s2 -> cost rest <= c -> evolve s s2 c.
Proof.
  intros I Hs Hs1 Hns Hp Er Ec Hse Hw I2 Hp2 (E1 & E2 & E3 & E4 & E5 & E6) Hc.
  pose proof (connected_not_shut s I Hs).
  split; try done; try lia; try congruence;
    by rewrite ?E1, ?E2, ?E3, ?E4, ?E5, ?Er, ?Ec, ?Hs, ?Hs1.
Qed.

Lemma cost_drop n d : cost (drop n d) <= cost d.
Proof. unfold cost, zlen. rewrite length_drop. lia. Qed.

(** What is queued of [d] after [nwrote] bytes of it were written. *)
Lemma queue_rest_spec s s1 nwrote d :
  conn_inv s -> state_ s = kConnected -> state_ s1 = kConnected -> budget s (cost d) ->
  conn_inv (unlog s1) -> 0 <= nwrote <= zlen d ->
  sent s1 = written s1 ++ out_bytes s1 ++ drop (Z.to_nat nwrote) d -> sent s1 = sent s ++ d ->
  bq_size (outputBuffer_ s1) = bq_size (outputBuffer_ s) -> pot s1 <= pot s ->
  received s1 = received s -> consumed s1 = consumed s -> written s `prefix_of` written s1 ->
  exists s', (if 0 <? zlen d - nwrote then queueOutput s1 nwrote (zlen d - nwrote) d else Ok s1) = Ok s' /\
    evolve s s' (cost d) /\ sent s' = sent s ++ d.
Proof.
  intros I Hs Hs1 Hb I1 Hn Hsent Hsd Hsz Hp Er Ec Hw.
  pose proof (connected_not_shut _ I1 Hs1) as Hns. simpl in Hns.
  assert (sent s `prefix_of` sent s1) as Hpre by (rewrite Hsd; by apply prefix_app_r).
  pose proof (cost_drop (Z.to_nat nwrote) d) as Hcd. pose proof (cost_nonneg d).
  assert (zlen (drop (Z.to_nat nwrote) d) = zlen d - nwrote) as Hrl by (by apply zlen_drop).
  destruct (Z.ltb_spec 0 (zlen d - nwrote)) as [Hpos|Hz].
  - destruct (queueOutput_spec s1 nwrote d I1 Hs1) as (s2 & E & I2 & P2 & S2); [|done| |].
    + intros E. rewrite E in Hrl. change (zlen []) with 0 in Hrl. lia.
    + unfold budget, pot in *. pose proof (pot_sizes s I). unfold extrabuf_size in *. lia.
    + rewrite <- Hrl, E. exists s2. split; [done|]. split; [by eapply evolve_send|].
      destruct S2 as (_ & -> & _). done.
  - assert (drop (Z.to_nat nwrote) d = []) as Hnil by (apply zlen_nil_inv; pose proof (zlen_nonneg (drop (Z.to_nat nwrote) d)); lia).
    rewrite Hnil, app_nil_r in Hsent. exists s1. split_and!; try done.
    eapply (evolve_send s s1 s1 (cost d) []); try done; [by apply unlog_exact| |].
    + unfold cost, kCheapPrepend. change (zlen []) with 0. lia.
    + unfold cost, kCheapPrepend. change (zlen []) with 0. pose proof (zlen_nonneg d). lia.
Qed.

Lemma post_done_facts (b : bool) (s1 s2 : Conn B) f :
  functor_cost f = 0 -> s2 = (if b then queueInLoop s1 f else s1) ->
  unlog s2 = (if b then queueInLoop (unlog s1) f else unlog s1) /\ pot s2 = pot s1 /\ same_hist s1 s2 /\
  outputBuffer_ s2 = outputBuffer_ s1.
Proof.
  intros Hf ->. destruct b; [|by split_and!]. split_and!; try done.
  unfold pot. simpl. rewrite sum_cost_app. simpl. lia.
Qed.

(** Closing while sending. *)
Lemma dead_send s s1 s2 d :
  conn_inv s -> state_ s = kConnected -> sent s1 = sent s ++ d -> pot s1 = pot s ->
  written s1 = written s -> received s1 = received s -> consumed s1 = consumed s ->
  evolve (dead s1) s2 0 -> evolve s s2 (cost d) /\ sent s2 = sent s ++ d.
Proof.
  intros I Hs Hse Hp Hw Hr Hc [I2 P2 R2 S2 W2 V2 C2 _ D2]. pose proof (connected_not_shut s I Hs).
  pose proof (cost_nonneg d).
  destruct (D2 eq_refl) as [Es _]. simpl in Es. rewrite Hse in Es.
  assert (sent s `prefix_of` sent s2) as Hpre by (rewrite Es; by apply prefix_app_r).
  split; [|done]. assert (pot (dead s1) = pot s1) as Hpd by done.
  simpl in *. rewrite Hw in W2. rewrite Hr in V2. rewrite Hc in C2.
  split; try done; try lia; try congruence. rewrite Hs. simpl. lia.
Qed.

(** [sendInLoop] on a connected connection: no byte of [d] is lost unless
    the connection breaks. *)
Lemma sendInLoop_spec conn_cb s d :
  cb_dead conn_cb -> conn_inv s -> state_ s = kConnected -> budget s (cost d) ->
  exists s', sendInLoop conn_cb s d = Ok s' /\ evolve s s' (cost d) /\ sent s' = sent s ++ d.
Proof.
  intros Hcb I Hs Hb. unfold sendInLoop, is_state. rewrite bool_decide_eq_false_2 by congruence.
  set (s0 := log_sent s d). cbv zeta. pose proof (zlen_nonneg d) as Hd.
  assert (conn_inv (unlog s0) /\ sent s0 = written s0 ++ out_bytes s0 ++ d) as [I0 Hs0].
  { assert (sent s = written s ++ out_bytes s) as He by (apply (ci_exact _ I); congruence). split.
    - assert (unlog s0 = s) as ->; [|done]. unfold unlog.
      change (written s0 ++ out_bytes s0) with (written s ++ out_bytes s). rewrite <- He. by destruct s.
    - simpl. rewrite He. by rewrite <- app_assoc. }
  destruct (negb (c_isWriting s0) && (bq_readable (outputBuffer_ s0) =? 0)) eqn:Hdir.
  - apply andb_true_iff in Hdir as [_ Hemp]. change (outputBuffer_ s0) with (outputBuffer_ s) in Hemp. rewrite (bq_readable_ok _ (ci_out _ I)) in Hemp.
    apply Z.eqb_eq, zlen_nil_inv in Hemp.
    destruct (sys_write_spec s0 d) as [w Hw]. destruct (sys_write s0 d) as [[n|e] s1].
    + destruct Hw as [Hn ->]. destruct (direct_unlog s w d n I Hs Hemp Hn) as [I1 Hs1].
      set (s1 := set_kernel s0 w _) in *. simpl mbind.
      set (s2 := if _ : bool then queueInLoop s1 FWriteComplete else s1).
      destruct (post_done_facts _ s1 s2 FWriteComplete eq_refl eq_refl) as (Eu & Ep & (E1 & E2 & E3 & E4 & E5 & _) & Eo).
      apply (queue_rest_spec s s2 n d); try done.
      * by rewrite E1.
      * rewrite Eu. destruct (_ && _); [|done]. by apply (post_evolve _ FWriteComplete).
      * rewrite E2, E3. unfold out_bytes. by rewrite Eo.
      * by rewrite Eo.
      * rewrite Ep. unfold pot. simpl. lia.
      * rewrite E3. by apply prefix_app_r.
    + destruct Hw as [He ->]. set (s1 := set_kernel s0 w (written s0)).
      pose proof (queue_rest_spec s s1 0 d) as Hq. rewrite Z.sub_0_r in Hq.
      destruct (retriable e) eqn:Hre.
      * change (negb false && ?x) with x. simpl mbind.
        apply Hq; try done; try (unfold pot; simpl; lia).
        change (unlog s1) with (set_kernel (unlog s0) w (written (unlog s0))).
        by apply (ev_inv (unlog s0) _ 0), kernel_evolve.
      * destruct (handleError_err_spec conn_cb s1 e Hcb) as (s2 & -> & Hor).
        { intros _. destruct (ci_channel _ I0) as (? & ? & _). pose proof (connected_not_shut _ I0 Hs) as Hns.
          apply inv_dead; try apply I0; try done; [|simpl in *; congruence].
          change (sent s1) with (sent s0). rewrite Hs0, app_assoc. by apply prefix_app_r. }
        exists s2. split; [done|].
        destruct Hor as [[_ [Hz|Ho]]|(Ed & _ & _)].
        -- rewrite Hre, orb_false_r in Hz. by apply Z.eqb_eq in Hz.
        -- pose proof (proj2 (is_open_spec s1) (or_introl Hs)). congruence.
        -- by apply (dead_send s s1 s2 d).
  - pose proof (queue_rest_spec s s0 0 d) as Hq. rewrite Z.sub_0_r in Hq. simpl mbind.
    apply Hq; try done; unfold pot; simpl; lia.
Qed.

Lemma evolve_post_send s d : conn_inv s -> evolve s (queueInLoop s (FSend d)) (cost d).
Proof. apply (post_evolve s (FSend d)). Qed.

Lemma send_evolve conn_cb b s d :
  cb_dead conn_cb -> conn_inv s -> budget s (cost d) ->
  exists s', send conn_cb b s d = Ok s' /\ evolve s s' (cost d).
Proof.
  intros Hcb I Hb. pose proof (cost_nonneg d). unfold send, is_state.
  destruct (zlen d =? 0); [exists s; split; [done|by apply evolve_refl]|].
  destruct b; case_bool_decide as Hs; try (eexists; split; [done|]; by apply evolve_refl).
  - destruct (sendInLoop_spec conn_cb s d Hcb I Hs Hb) as (s' & ? & ? & _). eauto.
  - eexists. split; [done|]. by apply evolve_post_send.
Qed.

Lemma send_Buffer_evolve conn_cb b s d :
  cb_dead conn_cb -> conn_inv s -> budget s (cost d) ->
  exists s', send_Buffer conn_cb b s d = Ok s' /\ evolve s s' (cost d).
Proof.
  intros Hcb I Hb. pose proof (cost_nonneg d). unfold send_Buffer, is_state.
  destruct b; case_bool_decide as Hs; try (eexists; split; [done|]; by apply evolve_refl).
  - destruct (sendInLoop_spec conn_cb s d Hcb I Hs Hb) as (s' & ? & ? & _). eauto.
  - eexists. split; [done|]. by apply evolve_post_send.
Qed.

Lemma do_cact_evolve conn_cb s a :
  cb_dead conn_cb -> conn_inv s -> budget s (act_cost a) ->
  exists s', do_cact conn_cb s a = Ok s' /\ evolve s s' (act_cost a).
Proof.
  intros Hcb I Hb. destruct a; cbn [do_cact act_cost] in *.
  - by apply send_evolve.
  - by apply send_Buffer_evolve.
  - eexists. split; [done|]. by apply shutdown_evolve.
  - destruct (user_retrieve_evolve s n I) as (s' & ? & ? & _). eauto.
  - by apply send_evolve.
  - eexists. split; [done|]. by apply shutdown_evolve.
Qed.

Lemma do_cacts_evolve conn_cb s acts :
  cb_dead conn_cb -> conn_inv s -> budget s (sum_cost act_cost acts) ->
  exists s', do_cacts conn_cb s acts = Ok s' /\ evolve s s' (sum_cost act_cost acts).
Proof.
  intros Hcb. revert s. induction acts as [|a acts IH]; intros s I Hb; simpl in *.
  { exists s. split; [done|]. by apply evolve_refl. }
  pose proof (act_cost_nonneg a). pose proof (sum_cost_nonneg act_cost acts act_cost_nonneg).
  destruct (do_cact_evolve conn_cb s a Hcb I) as (s1 & -> & E1).
  { eapply budget_weaken; [|exact Hb]. lia. }
  destruct (IH s1) as (s2 & E & E2); [apply E1| |].
  { eapply budget_weaken; [|exact Hb]. pose proof (ev_pot _ _ _ E1). lia. }
  exists s2. split; [done|]. by eapply evolve_trans.
Qed.

(** On a closed connection the user's calls do nothing but retrieve. *)
Lemma do_cacts_dead conn_cb s acts :
  conn_inv s -> state_ s = kDisconnected ->
  exists s', do_cacts conn_cb s acts = Ok s' /\ evolve s s' 0 /\ channel_ s' = channel_ s.
Proof.
  revert s. induction acts as [|a acts IH]; intros s I Hs; simpl.
  { exists s. split_and!; try done. by apply evolve_refl. }
  assert (exists s1, do_cact conn_cb s a = Ok s1 /\ evolve s s1 0 /\ state_ s1 = kDisconnected /\ channel_ s1 = channel_ s)
    as (s1 & -> & E1 & Hs1 & Hc1).
  { assert (is_state s kConnected = false) as Hn by (apply bool_decide_eq_false_2; congruence).
    destruct a as [d|d| |k|d|]; simpl; unfold send, send_Buffer, shutdown; rewrite ?Hn; try destruct (zlen d =? 0);
      try (eexists; split_and!; [done|by apply evolve_refl|done|done]).
    destruct (user_retrieve_evolve s k I) as (s1 & Er & ? & ?). exists s1. split_and!; try done; [congruence|].
    unfold user_retrieve in Er. by res_inv. }
  destruct (IH s1 (ev_inv _ _ _ E1) Hs1) as (s2 & E & E2 & Hc2). exists s2. split_and!; [done| |congruence].
  by apply (evolve_trans _ s1 _ 0 0).
Qed.

Lemma user_cb_dead conn n : cb_dead (user_conn_cb conn (S n)).
Proof. intros s I Hs. destruct (do_cacts_dead (user_conn_cb conn n) s conn I Hs) as (s' & ? & ? & _). eauto. Qed.

Lemma user_cb_live conn n : cb_live (user_conn_cb conn (S (S n))) (sum_cost act_cost conn).
Proof. intros s I Hb. apply do_cacts_evolve; [apply user_cb_dead|done|done]. Qed.

(** *** The channel's callbacks *)
Lemma open_of_inv s : state_ s <> kConnecting -> state_ s <> kDisconnected -> is_open s = true.
Proof. intros. apply is_open_spec. destruct (state_ s); auto; done. Qed.

Lemma handleClose_evolve conn_cb s :
  cb_dead conn_cb -> conn_inv s -> is_open s = true ->
  exists s', handleClose conn_cb s = Ok s' /\ evolve s s' 0.
Proof.
  intros Hcb I Ho. pose proof (dead_evolve s I) as Ed.
  destruct (handleClose_spec conn_cb s Hcb (ev_inv _ _ _ Ed) Ho) as (s' & -> & E & _).
  exists s'. split; [done|]. by apply (evolve_trans _ (dead s) _ 0 0).
Qed.

Lemma set_in_evolve s b new c :
  conn_inv s -> bq_wf b -> bq_bytes b = bq_bytes (inputBuffer_ s) ++ new ->
  bq_size b <= bq_size (inputBuffer_ s) + c ->
  evolve s (set_in s b (received s ++ new) (consumed s)) c.
Proof.
  intros I Hb Eb Hsz. split; simpl; try done.
  - destruct I. split; simpl; try done. rewrite Eb, app_assoc. by f_equal.
  - unfold pot. simpl. lia.
  - by apply prefix_app_r.
Qed.

Lemma bq_readFd_delivered readv (b : B) :
  readv_ok readv -> bq_wf b -> 2 * bq_size b + 3 * extrabuf_size <= bq_cap (B := B) ->
  exists n e b', bq_readFd readv b = Ok (n, e, b') /\ bq_wf b' /\
    bq_bytes b' = bq_bytes b ++ delivered readv (bq_iov b) /\ bq_size b' <= bq_size b + bq_read_growth.
Proof.
  intros Hrv Hb Hcap. pose proof (bq_readFd_ok readv b Hrv Hb Hcap) as Hr. unfold delivered.
  destruct (readv (bq_iov b)) as [err|bytes].
  - exists (-1), (Some err), b. rewrite app_nil_r. split_and!; try done.
    assert (0 <= bq_read_growth) by by vm_compute. lia.
  - destruct Hr as (b' & ? & ? & ? & ?). by exists (zlen bytes), None, b'.
Qed.

Lemma handleRead_evolve conn_cb readv msg s :
  cb_dead conn_cb -> readv_ok readv -> conn_inv s -> state_ s <> kConnecting ->
  budget s (bq_read_growth + sum_cost act_cost msg) ->
  exists s', handleRead conn_cb readv msg s = Ok s' /\ evolve s s' (bq_read_growth + sum_cost act_cost msg).
Proof.
  intros Hcb Hrv I Hnc Hb. unfold handleRead, is_state.
  pose proof (sum_cost_nonneg act_cost msg act_cost_nonneg) as Hmsg.
  assert (0 <= bq_read_growth) as Hg by by vm_compute.
  case_bool_decide as Hd; [exists s; split; [done|apply evolve_refl; [done|lia]]|].
  pose proof (pot_sizes s I) as Hsz.
  destruct (bq_readFd_delivered readv (inputBuffer_ s) Hrv (ci_in _ I)) as (n & e & b & -> & Hwf & Eb & Hbs).
  { unfold budget, pot, bq_read_growth, extrabuf_size, kCheapPrepend in *. lia. }
  cbn [mbind res_bind]. cbv zeta. set (new := delivered _ _) in *. set (s1 := set_in _ _ _ _).
  pose proof (set_in_evolve s b new bq_read_growth I Hwf Eb Hbs : evolve s s1 bq_read_growth) as E1.
  assert (forall s', evolve s1 s' (sum_cost act_cost msg) ->
    evolve s s' (bq_read_growth + sum_cost act_cost msg)) as Htr by (intros s'; by apply evolve_trans).
  destruct (Z.ltb_spec 0 n) as [Hpos|Hn].
  - destruct (messageCallback_ s1); [|exists s1; split; [done|]; apply Htr, evolve_refl; [apply E1|lia]].
    destruct (do_cacts_evolve conn_cb s1 msg Hcb (ev_inv _ _ _ E1)) as (s2 & -> & E2); [|eauto].
    eapply budget_weaken; [|exact Hb]. pose proof (ev_pot _ _ _ E1). lia.
  - destruct (n =? 0).
    + destruct (handleClose_evolve conn_cb s1 Hcb (ev_inv _ _ _ E1)) as (s2 & -> & E2).
      { by apply (open_of_inv s). }
      exists s2. split; [done|]. apply Htr. eapply evolve_weaken; [|exact E2]; lia.
    + destruct (handleError_err_evolve conn_cb s1 (default 0 e) Hcb (ev_inv _ _ _ E1)) as (s2 & -> & E2).
      exists s2. split; [done|]. apply Htr. eapply evolve_weaken; [|exact E2]; lia.
Qed.

(** The connection after the kernel took [n] bytes of the output buffer. *)
Definition wrote s (w : list wres) (n : Z) (b : B) (c : Channel) : Conn B :=
  set_channel (set_out (set_kernel s w (written s ++ take (Z.to_nat n) (out_bytes s))) b) c.

Lemma log_shut (sh : bool) s o :
  log_op (if sh then set_shut s else s) o = if sh then set_shut (log_op s o) else log_op s o.
Proof. by destruct sh. Qed.

Lemma wrote_evolve s w n b c (sh : bool) :
  conn_inv s -> is_open s = true -> out_bytes s <> [] ->
  bq_wf b -> bq_bytes b = drop (Z.to_nat n) (out_bytes s) -> bq_size b = bq_size (outputBuffer_ s) ->
  mask_ok (events_ c) ->
  (readCallback_ c, writeCallback_ c, closeCallback_ c, errorCallback_ c) = (true, true, true, true) ->
  isReading c = true -> isWriting c = bool_decide (bq_bytes b <> []) ->
  sh = bool_decide (state_ s = kDisconnecting /\ bq_bytes b = []) ->
  let s' := wrote s w n b c in evolve s (if sh then set_shut s' else s') 0.
Proof.
  intros I Ho Hne Hb Eb Esz Hm Hcb Hr Hw Hsh s'.
  apply is_open_spec in Ho. assert (state_ s <> kDisconnected) as Hnd by (destruct Ho; congruence).
  pose proof (ci_exact _ I Hnd) as Hex.
  assert (wr_shut s = false) as Hns.
  { destruct (wr_shut s) eqn:E; [|done]. by destruct (ci_shut _ I E) as (_ & ? & _). }
  assert (sent s = (written s ++ take (Z.to_nat n) (out_bytes s)) ++ bq_bytes b) as Hex'.
  { by rewrite Eb, <- app_assoc, take_drop. }
  assert (conn_inv (if sh then set_shut s' else s')) as I'.
  { assert (channel_ok (if sh then set_shut s' else s')) as Hch.
    { unfold channel_ok, out_bytes. destruct sh; simpl; split_and!; try done; destruct Ho as [-> | ->]; done. }
    destruct I as [I1 I2 I3 _ _ I6 _ I8 _ _].
    split; try exact Hch; destruct sh; simpl; try done; unfold out_bytes in *; simpl; try (by rewrite <- Hex');
      symmetry in Hsh.
    - intros _. apply bool_decide_eq_true in Hsh as [Hs Hn]. split_and!; [by left|done|].
      rewrite Hex', Hn. by rewrite app_nil_r.
    - congruence.
    - intros Hs Hn. apply bool_decide_eq_false in Hsh. destruct Hsh. done. }
  split; try done; destruct sh; simpl; try done; try congruence; try (by apply prefix_app_r);
    unfold pot; simpl; lia.
Qed.

Lemma retrieve_all_spec b n : bq_wf b -> 0 <= n <= zlen (bq_bytes b) ->
  exists b', bq_retrieve b n = Ok b' /\ bq_wf b' /\ bq_bytes b' = drop (Z.to_nat n) (bq_bytes b) /\
    bq_size b' = bq_size b /\ (bq_readable b' =? 0) = bool_decide (bq_bytes b' = []).
Proof.
  intros Hb Hn. destruct (bq_retrieve_ok b n Hb Hn) as (b' & ? & Hb' & ? & ?). exists b'. split_and!; try done.
  rewrite (bq_readable_ok _ Hb'). destruct (bq_bytes b'); [done|]. rewrite bool_decide_eq_false_2 by done.
  apply Z.eqb_neq. unfold zlen. simpl. lia.
Qed.

(** The end of [handleWrite] when the buffer is empty. *)
Lemma finish_write s s2 b :
  evolve s (if bool_decide (state_ s = kDisconnecting /\ bq_bytes b = []) then set_shut s2 else s2) 0 ->
  state_ s2 = state_ s -> bq_bytes b = [] -> isWriting (channel_ s2) = false -> 0 <= socketFd_ s2 ->
  outputBuffer_ s2 = b ->
  exists s4, (let s3 := if writeCompleteCallback_ s2 then queueInLoop s2 FWriteComplete else s2 in
     if is_state s3 kDisconnecting then shutdownInLoop s3 else s3) = s4 /\
    evolve s s4 0 /\ writes s4 = writes s2 /\ state_ s4 = state_ s /\ out_bytes s4 = bq_bytes b /\ sent s4 = sent s2.
Proof.
  intros Ev Hs Hb Hw Hfd Eo. set (s3 := if writeCompleteCallback_ s2 then _ else _). cbv zeta.
  assert (is_state s3 kDisconnecting = bool_decide (state_ s = kDisconnecting /\ bq_bytes b = [])) as ->.
  { unfold is_state. apply bool_decide_ext. unfold s3. destruct (writeCompleteCallback_ s2); simpl; rewrite Hs; tauto. }
  assert (shutdownInLoop s3 = set_shut s3) as ->.
  { unfold shutdownInLoop, c_isWriting, s3. destruct (writeCompleteCallback_ s2); simpl;
      by rewrite Hw, (proj2 (Z.leb_le 0 _) Hfd). }
  eexists. split; [done|]. unfold s3, out_bytes. rewrite <- Eo in *. clear s3 Eo.
  revert Ev. destruct (writeCompleteCallback_ s2), (bool_decide _); simpl; intros Ev; try (by split_and!).
  - split_and!; try done. apply (evolve_trans _ (set_shut s2) _ 0 0); [exact Ev|].
    exact (post_evolve (set_shut s2) FWriteComplete (ev_inv _ _ _ Ev)).
  - split_and!; try done. apply (evolve_trans _ s2 _ 0 0); [exact Ev|].
    exact (post_evolve s2 FWriteComplete (ev_inv _ _ _ Ev)).
Qed.

(** A successful [write] of [handleWrite]: the bytes leave the buffer, and
    when it is empty writing stops, the write-complete callback is posted and a
    pending shutdown goes through. *)
Lemma handleWrite_progress conn_cb s n w :
  conn_inv s -> is_open s = true -> out_bytes s <> [] -> writes s = WOk n :: w -> 0 < n ->
  exists s', handleWrite conn_cb s = Ok s' /\ evolve s s' 0 /\ writes s' = w /\ state_ s' = state_ s /\
    out_bytes s' = drop (Z.to_nat n) (out_bytes s) /\ sent s' = sent s.
Proof.
  intros I Ho Hne Hw Hn. unfold handleWrite, is_state, c_isWriting.
  pose proof (proj1 (is_open_spec s) Ho) as Ho'.
  rewrite bool_decide_eq_false_2 by (destruct Ho'; congruence).
  destruct (ci_channel _ I) as (Hm & Hcb & Hrw).
  assert (isReading (channel_ s) = true /\ isWriting (channel_ s) = bool_decide (out_bytes s <> [])) as [Hr Hwr]
    by (destruct Ho' as [E|E]; rewrite E in Hrw; done).
  rewrite Hwr, bool_decide_eq_true_2 by done. pose proof (ci_out _ I) as Hbo.
  rewrite (bq_readable_ok _ Hbo), (bq_peek_ok _ _ Hbo) by (split; [apply zlen_nonneg|lia]).
  cbn [mbind res_bind]. rewrite take_ge by (unfold zlen; lia). fold (out_bytes s).
  unfold sys_write. rewrite Hw. set (m := Z.max 0 (Z.min n (zlen (out_bytes s)))).
  assert (0 < zlen (out_bytes s)) as Hlen by (destruct (out_bytes s); [done|unfold zlen; simpl; lia]).
  rewrite (proj2 (Z.ltb_lt 0 m)) by lia. set (s1 := set_kernel s w _).
  destruct (retrieve_all_spec (outputBuffer_ s) m Hbo) as (b & Eret & Hb & Eb & Esz & Erd); [unfold out_bytes in *; lia|].
  change (outputBuffer_ s1) with (outputBuffer_ s). rewrite Eret. cbn [mbind res_bind]. rewrite Erd.
  fold (out_bytes s) in Eb.
  assert (drop (Z.to_nat m) (out_bytes s) = drop (Z.to_nat n) (out_bytes s)) as Edrop.
  { unfold m, zlen in *. destruct (Z.le_gt_cases n (Z.of_nat (length (out_bytes s)))).
    - do 2 f_equal. lia.
    - rewrite !drop_ge by lia. done. }
  case_bool_decide as Hemp; simpl negb.
  - set (s2 := channel_do DisableWriting (set_out s1 b)).
    destruct (channel_set_bits DisableWriting (channel_ s) Hm) as (Hm' & [Hr' Hw'] & Hcb').
    set (s3 := if writeCompleteCallback_ s2 then queueInLoop s2 FWriteComplete else s2).
    assert (s2 = log_op (wrote s w m b (channel_set DisableWriting (channel_ s))) (OpChange DisableWriting)) as E2 by done.
    pose proof (wrote_evolve s w m b (channel_set DisableWriting (channel_ s))
      (bool_decide (state_ s = kDisconnecting /\ bq_bytes b = [])) I Ho Hne Hb Eb Esz Hm'
      ltac:(by rewrite Hcb') ltac:(by rewrite Hr') ltac:(by rewrite Hw', bool_decide_eq_false_2 by tauto) eq_refl) as Ev.
    apply (evolve_log _ _ (OpChange DisableWriting)) in Ev. rewrite log_shut, <- E2 in Ev.
    destruct (finish_write s s2 b) as (s4 & E4 & Ev4 & Hw4 & Hs4 & Ho4 & Hse4); try done.
    { by apply (ci_fd _ I); destruct Ho'; congruence. }
    exists s4. split_and!; try done; [rewrite <- E4; done|by rewrite Ho4, Eb].
  - eexists. split; [done|]. split_and!; try done; [|by unfold out_bytes; simpl; rewrite Eb].
    pose proof (wrote_evolve s w m b (channel_ s) false I Ho Hne Hb Eb Esz Hm Hcb Hr) as Ev. cbv zeta in Ev.
    assert (set_out s1 b = wrote s w m b (channel_ s)) as -> by done. apply Ev.
    + rewrite Hwr. by rewrite !bool_decide_eq_true_2.
    + symmetry. apply bool_decide_eq_false_2. tauto.
Qed.

Lemma writing_out s : conn_inv s -> is_open s = true -> isWriting (channel_ s) = bool_decide (out_bytes s <> []).
Proof.
  intros I Ho. apply is_open_spec in Ho. destruct (ci_channel _ I) as (_ & _ & Hrw).
  by destruct Ho as [E|E]; rewrite E in Hrw; destruct Hrw.
Qed.

Lemma handleWrite_evolve conn_cb s :
  cb_dead conn_cb -> conn_inv s -> state_ s <> kConnecting ->
  exists s', handleWrite conn_cb s = Ok s' /\ evolve s s' 0.
Proof.
  intros Hcb I Hnc. destruct (is_state s kDisconnected) eqn:Hd.
  { exists s. unfold handleWrite. rewrite Hd. split; [done|]. by apply evolve_refl. }
  assert (is_open s = true) as Ho by (apply open_of_inv; [done|by apply bool_decide_eq_false in Hd]).
  pose proof (writing_out s I Ho) as Hw.
  destruct (decide (out_bytes s = [])) as [He|Hne].
  { exists s. unfold handleWrite, c_isWriting. rewrite Hd, Hw, bool_decide_eq_false_2 by tauto.
    split; [done|]. by apply evolve_refl. }
  assert (forall w e, exists s', handleError_err conn_cb (set_kernel s w (written s)) e = Ok s' /\ evolve s s' 0) as Herr.
  { intros w e. pose proof (kernel_evolve s w I) as Ek.
    destruct (handleError_err_evolve conn_cb _ e Hcb (ev_inv _ _ _ Ek)) as (s' & -> & E).
    exists s'. split; [done|]. by apply (evolve_trans _ (set_kernel s w (written s)) _ 0 0). }
  assert (Hkind : (exists n w, writes s = WOk n :: w /\ 0 < n) \/
    exists w e, sys_write s (out_bytes s) = (inr e, set_kernel s w (written s)) \/
                sys_write s (out_bytes s) = (inl 0, set_kernel s w (written s))).
  { unfold sys_write. destruct (writes s) as [|[n|e] w] eqn:E.
    - right. exists [], EAGAIN. left. rewrite <- E. by destruct s.
    - destruct (Z.lt_ge_cases 0 n); [by left; eauto|right]. exists w, 0. right.
      replace (Z.max 0 _) with 0 by lia. simpl. by rewrite app_nil_r.
    - right. eauto. }
  destruct Hkind as [(n & w & E & Hn)|(w & e & Hsw)].
  - destruct (handleWrite_progress conn_cb s n w I Ho Hne E Hn) as (s' & ? & ? & _). eauto.
  - unfold handleWrite, c_isWriting. rewrite Hd, Hw, bool_decide_eq_true_2 by done.
    pose proof (ci_out _ I) as Hbo.
    rewrite (bq_readable_ok _ Hbo), (bq_peek_ok _ _ Hbo) by (split; [apply zlen_nonneg|lia]).
    cbn [mbind res_bind]. rewrite take_ge by (unfold zlen; lia). fold (out_bytes s).
    destruct Hsw as [-> | ->]; [apply Herr|]. simpl. apply Herr.
Qed.

Lemma handleError_evolve conn_cb s :
  cb_dead conn_cb -> conn_inv s -> exists s', handleError conn_cb s = Ok s' /\ evolve s s' 0.
Proof.
  intros Hcb I. unfold handleError. destruct (negb _); [by apply handleError_err_evolve|].
  exists s. split; [done|]. by apply evolve_refl.
Qed.

Lemma evolve_not_connecting s s' c : evolve s s' c -> state_ s <> kConnecting -> state_ s' <> kConnecting.
Proof. intros [? ? Hr _ _ _ _ _ _] Hn E. rewrite E in Hr. destruct (state_ s); simpl in Hr; by try lia. Qed.

(** One callback of the channel: close only on an open connection. *)
Lemma do_callback_evolve conn_cb readv msg s k :
  cb_dead conn_cb -> readv_ok readv -> conn_inv s -> state_ s <> kConnecting ->
  (k = CbClose -> is_open s = true) ->
  let c := if bool_decide (k = CbRead) then bq_read_growth + sum_cost act_cost msg else 0 in
  budget s c -> exists s', do_callback conn_cb readv msg s k = Ok s' /\ evolve s s' c.
Proof.
  intros Hcb Hrv I Hnc Hcl c Hb. destruct k; simpl in *.
  - by apply handleClose_evolve; auto.
  - by apply handleError_evolve.
  - by apply handleRead_evolve.
  - by apply handleWrite_evolve.
Qed.

Definition cbk_cost (msg : list cact) (k : cbk) : Z :=
  if bool_decide (k = CbRead) then bq_read_growth + sum_cost act_cost msg else 0.

Lemma handleEvents_evolve conn_cb readv msg ks s :
  cb_dead conn_cb -> readv_ok readv -> conn_inv s -> state_ s <> kConnecting ->
  CbClose ∉ tail ks -> (head ks = Some CbClose -> is_open s = true) ->
  budget s (sum_cost (cbk_cost msg) ks) ->
  exists s', handleEvents conn_cb readv msg ks s = Ok s' /\ evolve s s' (sum_cost (cbk_cost msg) ks).
Proof.
  intros Hcb Hrv. revert s. induction ks as [|k ks IH]; intros s I Hnc Htl Hhd Hb; simpl in *.
  { exists s. split; [done|]. by apply evolve_refl. }
  assert (forall k, 0 <= cbk_cost msg k) as Hnn.
  { intros k'. unfold cbk_cost. pose proof (sum_cost_nonneg act_cost msg act_cost_nonneg).
    assert (0 <= bq_read_growth) by by vm_compute. case_bool_decide; lia. }
  pose proof (Hnn k). pose proof (sum_cost_nonneg (cbk_cost msg) ks Hnn).
  assert (exists s1, (if selected (channel_ s) k then do_callback conn_cb readv msg s k else Ok s) = Ok s1 /\
    evolve s s1 (cbk_cost msg k)) as (s1 & -> & E1).
  { destruct (selected (channel_ s) k).
    - apply do_callback_evolve; try done; [by intros ->; auto|]. eapply budget_weaken; [|exact Hb].
      unfold cbk_cost in *. lia.
    - exists s. split; [done|]. by apply evolve_refl. }
  destruct (IH s1) as (s2 & E & E2).
  - apply E1.
  - by eapply evolve_not_connecting.
  - intros Hin. apply Htl. destruct ks; [done|]. by right.
  - destruct ks as [|k' ks]; [done|]. intros [= ->]. destruct Htl. by left.
  - eapply budget_weaken; [|exact Hb]. pose proof (ev_pot _ _ _ E1). lia.
  - exists s2. split; [done|]. by eapply evolve_trans.
Qed.

(** *** Establishing and destroying *)
Lemma established_evolve s :
  conn_inv s -> state_ s = kConnecting ->
  evolve s (channel_do EnableReading (c_tie (setState s kConnected))) 0.
Proof.
  intros I Hs. destruct (ci_channel _ I) as (Hm & Hcb & Hc). rewrite Hs in Hc. destruct Hc as [He Ha].
  pose proof (ci_connecting _ I Hs) as Hsent. pose proof (ci_exact _ I ltac:(congruence)) as Hex.
  rewrite Hsent in Hex. symmetry in Hex. apply app_eq_nil in Hex as [Hw Ho].
  destruct (channel_set_bits EnableReading (tie (channel_ s) 0) Hm) as (Hm' & [Hr' Hw'] & Hcb').
  assert (wr_shut s = false) as Hns.
  { destruct (wr_shut s) eqn:E; [|done]. destruct (ci_shut _ I E) as [[?|?] _]; congruence. }
  split; simpl; try done; try congruence; [|unfold pot; simpl; lia|rewrite Hs; simpl; lia].
  destruct I as [I1 I2 I3 I4 I5 I6 _ I8 _ _]. split; simpl; try done.
  - intros _. apply I5. congruence.
  - split; [done|]. split; [by etrans; [exact Hcb'|]|]. split; [done|]. unfold out_bytes in *. simpl. rewrite Ho, Hw'.
    unfold isWriting. simpl. by rewrite He.
  - intros _. apply I8. congruence.
  - intros E. congruence.
Qed.

Lemma connectEstablished_evolve conn_cb s c :
  cb_live conn_cb c -> 0 <= c -> conn_inv s -> state_ s = kConnecting -> budget s c ->
  exists s', connectEstablished conn_cb s = Ok s' /\ evolve s s' c.
Proof.
  intros Hcb Hc I Hs Hb. unfold connectEstablished, is_state. rewrite bool_decide_eq_true_2 by done.
  cbn [assert_ mbind res_bind]. cbv zeta. pose proof (established_evolve s I Hs) as E1.
  set (s1 := channel_do EnableReading _) in *. unfold run_connectionCallback.
  destruct (connectionCallback_ s1).
  - destruct (Hcb s1 (ev_inv _ _ _ E1)) as (s2 & -> & E2).
    { eapply budget_weaken; [|exact Hb]. pose proof (ev_pot _ _ _ E1). lia. }
    exists s2. split; [done|]. by apply (evolve_trans _ s1 _ 0 c).
  - exists s1. split; [done|]. by eapply evolve_weaken; [|exact E1].
Qed.

Lemma closed_evolve s :
  conn_inv s -> state_ s = kDisconnected -> evolve s (closeSocket (c_remove s)) 0.
Proof.
  intros I Hs. unfold closeSocket. simpl. destruct I as [I1 I2 I3 I4 I5 I6 (I7a & I7b & I7c) I8 I9 I10].
  rewrite Hs in I7c.
  assert (forall fd, conn_inv (set_fd (c_remove s) fd)) as Hinv.
  { intros fd. split; simpl; try done. split_and!; simpl; try done. by rewrite Hs. }
  destruct (0 <=? socketFd_ s).
  - apply evolve_log. split; try done; unfold pot; simpl; lia.
  - split; try done; [exact (Hinv (socketFd_ s))|unfold pot; simpl; lia].
Qed.

Lemma connectDestroyed_evolve conn_cb s :
  cb_dead conn_cb -> conn_inv s ->
  exists s', connectDestroyed conn_cb s = Ok s' /\ evolve s s' 0 /\ state_ s' = kDisconnected /\ socketFd_ s' < 0.
Proof.
  intros Hcb I. unfold connectDestroyed, is_state.
  assert (exists s1, (if negb (bool_decide (state_ s = kDisconnected))
    then run_connectionCallback conn_cb (channel_do DisableAll (setState s kDisconnected)) else Ok s) = Ok s1 /\
    evolve s s1 0 /\ state_ s1 = kDisconnected) as (s1 & -> & E1 & Hs1).
  { case_bool_decide as Hs; simpl.
    - exists s. split_and!; try done. by apply evolve_refl.
    - fold (dead s). pose proof (dead_evolve s I) as Ed.
      destruct (run_connectionCallback_dead conn_cb (dead s) Hcb (ev_inv _ _ _ Ed) eq_refl) as (s1 & -> & E).
      exists s1. split_and!; [done|by apply (evolve_trans _ (dead s) _ 0 0)|].
      pose proof (ev_rank _ _ _ E) as Hr. simpl in Hr. by destruct (state_ s1); simpl in Hr; try lia. }
  cbn [mbind res_bind]. eexists. split; [done|].
  split_and!; [|unfold closeSocket; simpl; by destruct (0 <=? _)|unfold closeSocket; simpl].
  - apply (evolve_trans _ s1 _ 0 0); [done|]. apply closed_evolve; [apply E1|done].
  - destruct (Z.leb_spec 0 (socketFd_ s1)); simpl; lia.
Qed.

(** *** Functors and events *)
Lemma sum_cost_delete {A} (c : A -> Z) l i a : l !! i = Some a -> sum_cost c (delete i l) = sum_cost c l - c a.
Proof.
  revert i. induction l as [|b l IH]; intros [|i] Hl; simpl in *; try done.
  - injection Hl as ->. lia.
  - rewrite (IH i Hl). lia.
Qed.

Lemma unpost_evolve s i f : conn_inv s -> posted s !! i = Some f ->
  evolve s (set_posted s (delete i (posted s))) (- functor_cost f).
Proof.
  intros I Hf. split; try done; [destruct I; by split|].
  unfold pot. simpl. rewrite (sum_cost_delete _ _ _ _ Hf). lia.
Qed.

Lemma run_functor_evolve conn_cb done s f :
  cb_dead conn_cb -> conn_inv s -> budget s (functor_cost f + sum_cost act_cost done) ->
  exists s', run_functor conn_cb done s f = Ok s' /\ evolve s s' (functor_cost f + sum_cost act_cost done).
Proof.
  intros Hcb I Hb. pose proof (sum_cost_nonneg act_cost done act_cost_nonneg) as Hd.
  pose proof (functor_cost_nonneg f) as Hf.
  assert (forall s', evolve s s' 0 -> evolve s s' (functor_cost f + sum_cost act_cost done)) as Hz.
  { intros s'. apply evolve_weaken. lia. }
  destruct f as [d| | |n|]; cbn [run_functor].
  - unfold is_state. case_bool_decide as Hs; [|exists s; split; [done|]; by apply Hz, evolve_refl].
    destruct (sendInLoop_spec conn_cb s d Hcb I Hs) as (s' & -> & E & _).
    { eapply budget_weaken; [|exact Hb]. simpl. lia. }
    exists s'. split; [done|]. eapply evolve_weaken; [|exact E]. simpl. lia.
  - eexists. split; [done|]. apply Hz. exact (shutdown_evolve true s I).
  - by apply do_cacts_evolve.
  - by apply do_cacts_evolve.
  - destruct (connectDestroyed_evolve conn_cb s Hcb I) as (s' & -> & E & _). eauto.
Qed.

Lemma set_env_evolve s e : conn_inv s -> evolve s (set_env s e) 0.
Proof. intros []. split; try done; unfold pot; simpl; lia. Qed.

Lemma set_revents_evolve s r : conn_inv s -> evolve s (set_channel s (setRevents (channel_ s) r)) 0.
Proof. intros []. split; try done; unfold pot; simpl; lia. Qed.

Lemma ev_cost_nonneg ev e : 0 <= ev_cost ev e.
Proof.
  unfold ev_cost. assert (0 <= bq_read_growth) by by vm_compute.
  pose proof (fun l => sum_cost_nonneg act_cost l act_cost_nonneg) as Hn.
  pose proof (Hn (e_conn e)). pose proof (Hn (e_msg e)). pose proof (Hn (e_done e)).
  destruct ev; try lia. pose proof (Hn acts). lia.
Qed.

Lemma all_cbks_cost msg : sum_cost (cbk_cost msg) all_cbks = bq_read_growth + sum_cost act_cost msg.
Proof.
  unfold all_cbks, cbk_cost. unfold sum_cost at 1. cbn [foldr].
  repeat case_bool_decide; try done. lia.
Qed.

Lemma events_open s : conn_inv s -> events_ (channel_ s) <> 0 -> is_open s = true.
Proof.
  intros I He. destruct (ci_channel _ I) as (_ & _ & Hrw). apply is_open_spec.
  destruct (state_ s); auto; [done|]. by destruct Hrw.
Qed.

Lemma run_event_evolve s ev e :
  conn_inv s -> ev_ok s ev -> budget s (ev_cost ev e) ->
  exists s', run_event s ev e = Ok s' /\ evolve s s' (ev_cost ev e).
Proof.
  intros I Hok Hb. pose proof (set_env_evolve s e I) as E0. pose proof (ev_pot _ _ _ E0) as P0.
  pose proof (user_cb_dead (e_conn e) 1) as Hcd. pose proof (user_cb_live (e_conn e) 0) as Hcl.
  pose proof (fun l => sum_cost_nonneg act_cost l act_cost_nonneg) as Hn.
  pose proof (Hn (e_conn e)). pose proof (Hn (e_msg e)). pose proof (Hn (e_done e)).
  assert (0 <= bq_read_growth) by by vm_compute.
  assert (forall (r : res (Conn B)) c, c <= ev_cost ev e ->
    (exists s', r = Ok s' /\ evolve (set_env s e) s' c) -> exists s', r = Ok s' /\ evolve s s' (ev_cost ev e)) as Hfin.
  { intros r c Hc (s' & -> & E). exists s'. split; [done|].
    eapply evolve_weaken; [|eapply evolve_trans; [exact E0|exact E]]. lia. }
  assert (forall c, c <= ev_cost ev e -> budget (set_env s e) c) as Hbud.
  { intros c Hc. eapply budget_weaken; [|exact Hb]. lia. }
  unfold run_event. destruct ev as [|r readv|i|acts|]; unfold ev_cost in *; cbn [ev_ok] in Hok.
  - eapply (Hfin _ (sum_cost act_cost (e_conn e))); [lia|].
    apply connectEstablished_evolve; try done; [apply E0|]. apply Hbud. lia.
  - destruct Hok as [Hne Hrv]. pose proof (events_open s I Hne) as Ho.
    eapply (Hfin _ (0 + sum_cost (cbk_cost (e_msg e)) all_cbks)); [rewrite all_cbks_cost; lia|].
    pose proof (set_revents_evolve _ r (ev_inv _ _ _ E0)) as E1.
    destruct (handleEvents_evolve (user_conn_cb (e_conn e) nesting) readv (e_msg e) all_cbks _ Hcd Hrv (ev_inv _ _ _ E1))
      as (s' & -> & E2); try done.
    + intros Hs. apply is_open_spec in Ho. simpl in Hs. destruct Ho; congruence.
    + vm_compute. set_solver.
    + eapply budget_weaken; [|apply (Hbud (0 + sum_cost (cbk_cost (e_msg e)) all_cbks)); rewrite all_cbks_cost; lia].
      pose proof (ev_pot _ _ _ E1). lia.
    + exists s'. split; [done|]. by eapply evolve_trans.
  - destruct (posted (set_env s e) !! i) as [f|] eqn:Hf.
    + pose proof (unpost_evolve _ i f (ev_inv _ _ _ E0) Hf) as E1. pose proof (ev_pot _ _ _ E1).
      destruct (run_functor_evolve (user_conn_cb (e_conn e) nesting) (e_done e) _ f Hcd (ev_inv _ _ _ E1))
        as (s' & -> & E2); [eapply budget_weaken; [|exact Hb]; lia|].
      eapply (Hfin _ (- functor_cost f + (functor_cost f + sum_cost act_cost (e_done e)))); [lia|].
      exists s'. split; [done|]. by eapply evolve_trans.
    + apply (Hfin _ 0); [lia|]. eexists. split; [done|]. apply evolve_refl; [apply E0|done].
  - eapply (Hfin _ (sum_cost act_cost acts)); [lia|].
    apply do_cacts_evolve; [done|apply E0|]. apply Hbud. lia.
  - eapply (Hfin _ 0); [lia|].
    destruct (connectDestroyed_evolve (user_conn_cb (e_conn e) nesting) _ Hcd (ev_inv _ _ _ E0)) as (s' & -> & E & _).
    eauto.
Qed.

Lemma run_events_evolve s evs :
  conn_inv s -> events_ok s evs -> budget s (evs_cost evs) ->
  exists s', run_events s evs = Ok s' /\ evolve s s' (evs_cost evs).
Proof.
  revert s. induction evs as [|[ev e] evs IH]; intros s I Hok Hb; simpl in *.
  { exists s. split; [done|]. by apply evolve_refl. }
  destruct Hok as [Hev Hok]. unfold evs_cost in Hb. simpl in Hb. fold (evs_cost evs) in Hb.
  pose proof (ev_cost_nonneg ev e).
  assert (0 <= evs_cost evs) by (apply sum_cost_nonneg; intros [? ?]; apply ev_cost_nonneg).
  destruct (run_event_evolve s ev e I Hev) as (s1 & E & E1); [eapply budget_weaken; [|exact Hb]; lia|].
  rewrite E. cbn [mbind res_bind].
  destruct (IH s1 (ev_inv _ _ _ E1) (Hok _ E)) as (s2 & E' & E2).
  { eapply budget_weaken; [|exact Hb]. pose proof (ev_pot _ _ _ E1). lia. }
  exists s2. split; [done|]. by eapply evolve_trans.
Qed.

(** What [send] is to do with [d]: the kernel takes the first [Some n] bytes,
    the rest is queued; or the socket is broken. *)
Definition accepted s d : option Z :=
  if bool_decide (out_bytes s = []) then
    match writes s with
    | WOk n :: _ => Some (Z.max 0 (Z.min n (zlen d)))
    | WErr e :: _ => if retriable (Zpos e) then Some 0 else None
    | [] => Some 0
    end
  else Some 0.

Definition crosses s (remaining : Z) : bool :=
  (highWaterMark_ s <=? u64 (zlen (out_bytes s) + remaining)) && (zlen (out_bytes s) <? highWaterMark_ s)
  && highWaterMarkCallback_ s.

(** The functors [send] posts when [n] bytes are taken. *)
Definition send_posts s d (n : Z) : list functor :=
  if n =? zlen d then if writeCompleteCallback_ s then [FWriteComplete] else []
  else if crosses s (zlen d - n) then [FHighWater (u64 (zlen (out_bytes s) + (zlen d - n)))] else [].

Lemma queueOutput_out s nwrote r d s' :
  bq_wf (outputBuffer_ s) ->
  bq_size (outputBuffer_ s) + cost (drop (Z.to_nat nwrote) d) <= bq_cap (B := B) ->
  queueOutput s nwrote r d = Ok s' ->
  out_bytes s' = out_bytes s ++ drop (Z.to_nat nwrote) d /\ state_ s' = state_ s /\ written s' = written s /\
  posted s' = posted s ++ (if crosses s r then [FHighWater (u64 (zlen (out_bytes s) + r))] else []).
Proof.
  intros Hwf Hcap. unfold queueOutput. rewrite (bq_readable_ok _ Hwf). fold (out_bytes s) (crosses s r).
  unfold cost in Hcap. destruct (bq_append_ok _ (drop (Z.to_nat nwrote) d) Hwf) as (b & Eb & _ & Ec & _); [lia|].
  destruct (crosses s r); cbn [queueInLoop upd outputBuffer_]; rewrite Eb; cbn [mbind res_bind];
    destruct (negb _); intros [= <-]; unfold out_bytes; simpl; rewrite ?app_nil_r; done.
Qed.

Lemma handleError_err_fatal conn_cb s e :
  cb_dead conn_cb -> conn_inv (dead s) -> is_open s = true -> retriable (Zpos e) = false ->
  exists s', handleError_err conn_cb s (Zpos e) = Ok s' /\ evolve (dead s) s' 0 /\ state_ s' = kDisconnected.
Proof.
  intros Hcb I Ho Hr. destruct (handleError_err_spec conn_cb s (Zpos e) Hcb (fun _ => I)) as (s' & -> & [[_ [Hz|Hz]]|(? & _ & ?)]).
  - by rewrite Hr in Hz.
  - congruence.
  - eauto.
Qed.

(** [sendInLoop] in the middle of the history [sent s ++ d]. *)
Lemma dead_logged s d w : conn_inv s -> state_ s = kConnected ->
  conn_inv (dead (set_kernel (log_sent s d) w (written s))).
Proof.
  intros I Hs. destruct (ci_channel _ I) as (? & ? & _). pose proof (connected_not_shut _ I Hs) as Hns.
  apply inv_dead; try apply I; try done; simpl; [|congruence].
  etrans; [apply (ci_prefix _ I)|]. by apply prefix_app_r.
Qed.

Lemma rest_out s s1 d n s' :
  bq_wf (outputBuffer_ s1) -> bq_size (outputBuffer_ s1) + cost d <= bq_cap (B := B) ->
  0 <= n <= zlen d -> d <> [] -> highWaterMark_ s1 = highWaterMark_ s ->
  highWaterMarkCallback_ s1 = highWaterMarkCallback_ s -> out_bytes s1 = out_bytes s ->
  state_ s1 = state_ s -> written s1 = written s ++ take (Z.to_nat n) d ->
  posted s1 = posted s ++ (if (n =? zlen d) && writeCompleteCallback_ s then [FWriteComplete] else []) ->
  (if 0 <? zlen d - n then queueOutput s1 n (zlen d - n) d else Ok s1) = Ok s' ->
  state_ s' = state_ s /\ written s' = written s ++ take (Z.to_nat n) d /\
  out_bytes s' = out_bytes s ++ drop (Z.to_nat n) d /\ posted s' = posted s ++ send_posts s d n.
Proof.
  intros Hwf Hcap Hn Hne Hh Hhc Ho Hs Hw Hp. unfold send_posts.
  assert (crosses s1 (zlen d - n) = crosses s (zlen d - n)) as Ecr by (unfold crosses; by rewrite Hh, Hhc, Ho).
  destruct (Z.ltb_spec 0 (zlen d - n)) as [Hlt|Hge].
  - rewrite (proj2 (Z.eqb_neq n _)) in Hp |- * by lia. rewrite app_nil_r in Hp. intros Eq.
    apply queueOutput_out in Eq as (-> & -> & -> & ->); [|done|pose proof (cost_drop (Z.to_nat n) d); lia].
    rewrite Ecr, Ho, Hs, Hw, Hp. done.
  - intros [= <-]. rewrite (proj2 (Z.eqb_eq n _)) in Hp |- * by lia. rewrite Hp, Ho, Hs, Hw.
    rewrite (drop_ge d) by (unfold zlen in *; lia). rewrite app_nil_r. done.
Qed.

Lemma sendInLoop_out conn_cb s d s' :
  cb_dead conn_cb -> conn_inv s -> state_ s = kConnected -> budget s (cost d) -> d <> [] ->
  sendInLoop conn_cb s d = Ok s' ->
  match accepted s d with
  | Some n => state_ s' = kConnected /\ written s' = written s ++ take (Z.to_nat n) d /\
      out_bytes s' = out_bytes s ++ drop (Z.to_nat n) d /\ posted s' = posted s ++ send_posts s d n
  | None => state_ s' = kDisconnected /\ written s' = written s
  end.
Proof.
  intros Hcb I Hs Hb Hne. unfold sendInLoop, is_state. rewrite bool_decide_eq_false_2 by congruence.
  pose proof (writing_out s I (proj2 (is_open_spec s) (or_introl Hs))) as Hwr.
  pose proof (zlen_nonneg d) as Hd. pose proof (ci_out _ I) as Hwf. pose proof (pot_sizes s I) as Hsz.
  assert (bq_size (outputBuffer_ s) + cost d <= bq_cap (B := B)) as Hcap.
  { unfold budget, pot, extrabuf_size in *. pose proof (cost_nonneg d). lia. }
  assert (0 <> zlen d) as Hd0 by (destruct d; [done|unfold zlen; simpl; lia]).
  cbv zeta. unfold c_isWriting, accepted. cbn [log_sent upd channel_ outputBuffer_].
  rewrite Hwr, (bq_readable_ok _ Hwf). fold (out_bytes s).
  assert (negb (bool_decide (out_bytes s <> [])) && (zlen (out_bytes s) =? 0) = bool_decide (out_bytes s = [])) as ->.
  { destruct (out_bytes s); [done|]. by rewrite bool_decide_eq_true_2. }
  pose proof (fun s1 n => rest_out s s1 d n s') as Hro. rewrite <- Hs.
  assert (forall w, queueOutput (upd (log_sent s d) (state_ s) (socketFd_ s) (channel_ s)
            (inputBuffer_ s) (outputBuffer_ s) w (posted s) (sent s ++ d) (written s) (received s) (consumed s) (wr_shut s))
            0 (zlen d) d = Ok s' ->
    state_ s' = state_ s /\ written s' = written s ++ take (Z.to_nat 0) d /\
    out_bytes s' = out_bytes s ++ drop (Z.to_nat 0) d /\ posted s' = posted s ++ send_posts s d 0) as Hq.
  { intros w E.
    eapply (Hro (upd (log_sent s d) (state_ s) (socketFd_ s) (channel_ s)
            (inputBuffer_ s) (outputBuffer_ s) w (posted s) (sent s ++ d) (written s) (received s) (consumed s) (wr_shut s)) 0);
      try done; cbn [upd log_sent written posted]; [by rewrite app_nil_r| |].
    - rewrite (proj2 (Z.eqb_neq 0 _)) by done. by rewrite app_nil_r.
    - rewrite Z.sub_0_r, (proj2 (Z.ltb_lt 0 _)) by lia. exact E. }
  assert ((0 <? zlen d) = true) as Hlt by (apply Z.ltb_lt; lia).
  destruct (bool_decide (out_bytes s = [])) eqn:Ho.
  2: { cbn [mbind res_bind negb andb]. rewrite Hlt. apply (Hq (writes s)). }
  unfold sys_write. cbn [log_sent upd writes written posted].
  destruct (writes s) as [|[n|e] w] eqn:Ew.
  - cbn [mbind res_bind negb andb]. change (retriable EAGAIN) with true. cbn [mbind res_bind negb andb].
    rewrite Hlt. apply (Hq (writes s)).
  - set (m := Z.max 0 (Z.min n (zlen d))). cbn [mbind res_bind]. intros E.
    eapply (Hro _ m); [| | | | | | | | | |exact E]; try done; try lia; cbn [set_kernel upd writeCompleteCallback_ log_sent];
      destruct (zlen d - m =? 0) eqn:Em; destruct (writeCompleteCallback_ s); cbn [andb queueInLoop upd]; try done.
    all: apply Z.eqb_eq in Em || apply Z.eqb_neq in Em.
    all: first [rewrite (proj2 (Z.eqb_eq m (zlen d))) by lia | rewrite (proj2 (Z.eqb_neq m (zlen d))) by lia].
    all: simpl; by rewrite ?app_nil_r.
  - destruct (retriable (Zpos e)) eqn:Hre.
    + cbn [mbind res_bind negb andb]. rewrite Hlt. apply (Hq w).
    + destruct (handleError_err_fatal conn_cb (set_kernel (log_sent s d) w (written s)) e Hcb) as (s2 & E2 & Ev & Hd2).
      * by apply dead_logged.
      * apply is_open_spec. by left.
      * done.
      * change (set_kernel (log_sent s d) w (written (log_sent s d))) with (set_kernel (log_sent s d) w (written s)).
        rewrite E2. cbn. intros [= <-]. split; [done|]. by destruct (ev_dead _ _ _ Ev eq_refl) as [_ ->].
Qed.

Lemma conn_inv_new fd hw b1 b2 b3 b4 b5 : 0 <= fd ->
  conn_inv (TcpConnection_new (B := B) fd hw b1 b2 b3 b4 b5).
Proof.
  intros Hfd. destruct bq_new_ok as (Hwf & Hb & _).
  split; try done; unfold out_bytes; simpl; rewrite ?Hb; try done.
  split_and!; try done. by_decide.
Qed.
End ops.

(** ** The close callback

    [destroys] counts the calls of the close callback whose functor is still to
    run; [downs] is 1 once the connection is down. *)
Section closing.
Context {B : Type} `{ByteQueueOps B}.
Implicit Types (s : Conn B) (conn_cb : Conn B -> res (Conn B)).

Definition is_destroy (f : functor) : Z := match f with FDestroyed => 1 | _ => 0 end.
Definition destroys s : Z := sum_cost is_destroy (posted s).
Definition downs s : Z := if is_state s kDisconnected then 1 else 0.

(** The close callback was called exactly when the connection went down; the
    socket is still there. *)
Definition closes s s' : Prop :=
  hasCloseCallback s' = hasCloseCallback s /\ socketFd_ s' = socketFd_ s /\ downs s <= downs s' /\
  destroys s' = destroys s + if hasCloseCallback s then downs s' - downs s else 0.

Lemma closes_refl s : closes s s.
Proof. split_and!; try done. destruct (hasCloseCallback s); lia. Qed.

Lemma closes_trans s1 s2 s3 : closes s1 s2 -> closes s2 s3 -> closes s1 s3.
Proof.
  intros (E1 & F1 & D1 & C1) (E2 & F2 & D2 & C2). rewrite E1 in *. split_and!; [congruence|congruence|lia|].
  destruct (hasCloseCallback s1); lia.
Qed.

(** A change of other fields. *)
Lemma closes_same s s' :
  hasCloseCallback s' = hasCloseCallback s -> socketFd_ s' = socketFd_ s -> downs s' = downs s ->
  destroys s' = destroys s -> closes s s'.
Proof. intros E1 E0 E2 E3. split_and!; [done|done|lia|]. destruct (hasCloseCallback s); lia. Qed.

Lemma destroys_post s f : destroys (queueInLoop s f) = destroys s + is_destroy f.
Proof. unfold destroys. simpl. induction (posted s) as [|g l IH]; simpl; lia. Qed.

Lemma destroys_nonneg s : 0 <= destroys s.
Proof. unfold destroys. induction (posted s) as [|f l IH]; [done|]. destruct f; simpl; lia. Qed.

Lemma closes_post s f : is_destroy f = 0 -> closes s (queueInLoop s f).
Proof. intros Hf. apply closes_same; try done. rewrite destroys_post. lia. Qed.

Lemma closes_post_if (b : bool) s f : is_destroy f = 0 -> closes s (if b then queueInLoop s f else s).
Proof. destruct b; [apply closes_post|intros _; apply closes_refl]. Qed.

Lemma downs_alive s : state_ s <> kDisconnected -> downs s = 0.
Proof. intros Hs. unfold downs, is_state. by rewrite bool_decide_eq_false_2. Qed.

(** A move between two states that are not down. *)
Lemma closes_move s s' :
  hasCloseCallback s' = hasCloseCallback s -> socketFd_ s' = socketFd_ s -> posted s' = posted s ->
  state_ s <> kDisconnected -> state_ s' <> kDisconnected -> closes s s'.
Proof. intros E1 E0 E2 H1 H2. apply closes_same; [done|done|by rewrite !downs_alive|unfold destroys; by rewrite E2]. Qed.

Section callback.
Context (conn_cb : Conn B -> res (Conn B)) (Hcb : forall s s', conn_cb s = Ok s' -> closes s s').

Lemma run_connectionCallback_closes s s' : run_connectionCallback conn_cb s = Ok s' -> closes s s'.
Proof. unfold run_connectionCallback. destruct (connectionCallback_ s); [apply Hcb|]. intros [= <-]. apply closes_refl. Qed.

(** After [setState(kDisconnected)] the callback adds no call. *)
Lemma dead_callback s s1 :
  run_connectionCallback conn_cb (channel_do DisableAll (setState s kDisconnected)) = Ok s1 ->
  hasCloseCallback s1 = hasCloseCallback s /\ socketFd_ s1 = socketFd_ s /\ downs s1 = 1 /\ destroys s1 = destroys s.
Proof.
  intros E. apply run_connectionCallback_closes in E as (E1 & F1 & D1 & C1).
  change (downs (channel_do DisableAll (setState s kDisconnected))) with 1 in *.
  change (hasCloseCallback (channel_do DisableAll (setState s kDisconnected))) with (hasCloseCallback s) in *.
  change (destroys (channel_do DisableAll (setState s kDisconnected))) with (destroys s) in *.
  assert (downs s1 <= 1) by (unfold downs; destruct (is_state s1 kDisconnected); lia).
  split_and!; [done|done|lia|]. destruct (hasCloseCallback s); lia.
Qed.

Lemma open_not_down s : is_open s = true -> downs s = 0.
Proof.
  intros Ho. apply downs_alive. unfold is_open, is_state in Ho. intros E. rewrite E in Ho. done.
Qed.

Lemma handleClose_closes s s' : handleClose conn_cb s = Ok s' -> closes s s'.
Proof.
  unfold handleClose. intros E. res_inv. match goal with Ho : is_open s = true |- _ => pose proof (open_not_down s Ho) as Hd end.
  match goal with Hr : run_connectionCallback _ _ = Ok ?s1 |- _ => destruct (dead_callback s s1 Hr) as (E1 & F1 & D1 & C1) end.
  unfold closes. rewrite E1. destruct (hasCloseCallback s) eqn:Hh.
  - rewrite destroys_post. change (downs (queueInLoop ?x FDestroyed)) with (downs x).
    split_and!; [exact E1|exact F1|lia|simpl; lia].
  - split_and!; [exact E1|exact F1|lia|lia].
Qed.

Lemma handleError_err_closes s err s' : handleError_err conn_cb s err = Ok s' -> closes s s'.
Proof.
  unfold handleError_err. destruct (_ || _); [intros [= <-]; apply closes_refl|].
  destruct (is_open s); [apply handleClose_closes|]. intros [= <-]. apply closes_refl.
Qed.

Lemma handleError_closes s s' : handleError conn_cb s = Ok s' -> closes s s'.
Proof.
  unfold handleError. destruct (negb _); [apply handleError_err_closes|]. intros [= <-]. apply closes_refl.
Qed.

Lemma queueOutput_closes s n r d s' : queueOutput s n r d = Ok s' -> closes s s'.
Proof.
  unfold queueOutput. intros E. set (s1 := if _ && _ && _ then _ else s) in E.
  assert (closes s s1) as H1 by (by apply closes_post_if).
  clearbody s1. res_inv. eapply closes_trans; [exact H1|]. destruct (negb _); by apply closes_same.
Qed.

Lemma sys_write_closes s d r s' : sys_write s d = (r, s') -> closes s s'.
Proof.
  unfold sys_write. destruct (writes s) as [|[n|e] w]; intros [= <- <-]; [apply closes_refl|by apply closes_same..].
Qed.

Lemma sendInLoop_closes s d s' : sendInLoop conn_cb s d = Ok s' -> closes s s'.
Proof.
  unfold sendInLoop. destruct (is_state s kDisconnected); [intros [= <-]; apply closes_refl|].
  cbv zeta. set (s0 := log_sent s d). assert (closes s s0) as H0 by (by apply closes_same).
  intros E. apply bind_Ok_inv in E as ([[[nw r] fe] s1] & E1 & E).
  assert (closes s0 s1) as H1.
  { destruct (_ && _); [|injection E1 as <- <- <- <-; apply closes_refl].
    destruct (sys_write s0 d) as [[n|e] s2] eqn:Ew; apply sys_write_closes in Ew.
    - injection E1 as <- <- <- <-. eapply closes_trans; [exact Ew|].
      by apply closes_post_if.
    - destruct (retriable e); [by injection E1 as <- <- <- <-|].
      apply bind_Ok_inv in E1 as (s3 & E3 & E1). injection E1 as <- <- <- <-.
      eapply closes_trans; [exact Ew|]. by eapply handleError_err_closes. }
  eapply closes_trans; [exact H0|]. eapply closes_trans; [exact H1|]. clear E1.
  destruct (_ && _); [by eapply queueOutput_closes|]. injection E as <-. apply closes_refl.
Qed.

Lemma send_closes b s d s' : send conn_cb b s d = Ok s' -> closes s s'.
Proof.
  unfold send. destruct (zlen d =? 0); [intros [= <-]; apply closes_refl|].
  destruct b; destruct (is_state s kConnected); try (by intros E; eapply sendInLoop_closes);
    intros [= <-]; first [by apply closes_post|apply closes_refl].
Qed.

Lemma send_Buffer_closes b s d s' : send_Buffer conn_cb b s d = Ok s' -> closes s s'.
Proof.
  unfold send_Buffer. destruct b; destruct (is_state s kConnected); try (by intros E; eapply sendInLoop_closes);
    intros [= <-]; first [by apply closes_post|apply closes_refl].
Qed.

Lemma shutdownInLoop_closes s : closes s (shutdownInLoop s).
Proof. unfold shutdownInLoop. destruct (_ && _); [by apply closes_same|apply closes_refl]. Qed.

Lemma disconnecting_closes s : state_ s = kConnected -> closes s (shutdownInLoop (setState s kDisconnecting)).
Proof.
  intros Hs. eapply closes_trans; [|apply shutdownInLoop_closes]. apply closes_move; try done. by rewrite Hs.
Qed.

Lemma shutdown_closes b s : closes s (shutdown b s).
Proof.
  unfold shutdown, is_state. case_bool_decide as Hs; [|apply closes_refl].
  destruct b; [by apply disconnecting_closes|by apply closes_post].
Qed.

Lemma do_cact_closes s a s' : do_cact conn_cb s a = Ok s' -> closes s s'.
Proof.
  destruct a; cbn [do_cact]; intros E.
  - by eapply send_closes.
  - by eapply send_Buffer_closes.
  - injection E as <-. apply shutdown_closes.
  - unfold user_retrieve in E. res_inv. by apply closes_same.
  - by eapply send_closes.
  - injection E as <-. apply shutdown_closes.
Qed.

Lemma do_cacts_closes s acts s' : do_cacts conn_cb s acts = Ok s' -> closes s s'.
Proof.
  revert s. induction acts as [|a acts IH]; intros s E; cbn [do_cacts] in E; [injection E as <-; apply closes_refl|].
  apply bind_Ok_inv in E as (s1 & E1 & E). eapply closes_trans; [by eapply do_cact_closes|by apply IH].
Qed.

Lemma handleRead_closes readv msg s s' : handleRead conn_cb readv msg s = Ok s' -> closes s s'.
Proof.
  unfold handleRead. destruct (is_state s kDisconnected); [intros [= <-]; apply closes_refl|].
  intros E. apply bind_Ok_inv in E as ([[n e] b] & _ & E). cbv zeta in E. set (s1 := set_in _ _ _ _) in E.
  eapply (closes_trans _ s1); [by apply closes_same|]. destruct (0 <? n).
  - destruct (messageCallback_ s1); [by eapply do_cacts_closes|]. injection E as <-. apply closes_refl.
  - destruct (n =? 0); [by apply handleClose_closes|by eapply handleError_err_closes].
Qed.

Lemma handleWrite_closes s s' : handleWrite conn_cb s = Ok s' -> closes s s'.
Proof.
  unfold handleWrite. destruct (is_state s kDisconnected); [intros [= <-]; apply closes_refl|].
  destruct (c_isWriting s); [|intros [= <-]; apply closes_refl].
  intros E. apply bind_Ok_inv in E as (data & _ & E).
  destruct (sys_write s data) as [[n|e] s1] eqn:Ew; apply sys_write_closes in Ew;
    (eapply closes_trans; [exact Ew|]); [|by eapply handleError_err_closes].
  destruct (0 <? n); [|by eapply handleError_err_closes].
  apply bind_Ok_inv in E as (out & _ & E). cbv zeta in E.
  destruct (bq_readable out =? 0); [|injection E as <-; by apply closes_same].
  set (s3 := channel_do DisableWriting (set_out s1 out)) in E.
  eapply (closes_trans _ s3); [by apply closes_same|]. injection E as <-.
  set (s4 := if writeCompleteCallback_ s1 then queueInLoop s3 FWriteComplete else s3).
  eapply (closes_trans _ s4); [by apply closes_post_if|].
  destruct (is_state s4 kDisconnecting); [apply shutdownInLoop_closes|apply closes_refl].
Qed.

Lemma handleEvents_closes readv msg ks s s' : handleEvents conn_cb readv msg ks s = Ok s' -> closes s s'.
Proof.
  revert s. induction ks as [|k ks IH]; intros s E; cbn [handleEvents] in E; [injection E as <-; apply closes_refl|].
  apply bind_Ok_inv in E as (s1 & E1 & E). eapply closes_trans; [|by apply IH].
  destruct (selected (channel_ s) k); [|injection E1 as <-; apply closes_refl].
  destruct k; cbn [do_callback] in E1;
    [by apply handleClose_closes|by apply handleError_closes|by eapply handleRead_closes|by apply handleWrite_closes].
Qed.

Lemma connectEstablished_closes s s' : connectEstablished conn_cb s = Ok s' -> closes s s'.
Proof.
  unfold connectEstablished. intros E. apply bind_Ok_inv in E as (u & Ha & E). apply assert_Ok_inv in Ha.
  unfold is_state in Ha. apply bool_decide_eq_true in Ha.
  apply run_connectionCallback_closes in E. eapply closes_trans; [|exact E].
  apply closes_move; try done. by rewrite Ha.
Qed.

(** [connectDestroyed] calls no close callback. *)
Lemma connectDestroyed_destroys s s' : connectDestroyed conn_cb s = Ok s' ->
  hasCloseCallback s' = hasCloseCallback s /\ destroys s' = destroys s.
Proof.
  unfold connectDestroyed. intros E. apply bind_Ok_inv in E as (s1 & E1 & E). injection E as <-.
  assert (hasCloseCallback s1 = hasCloseCallback s /\ destroys s1 = destroys s) as [Eh Ed].
  { destruct (negb _); [|by injection E1 as <-]. by destruct (dead_callback s s1 E1) as (? & _ & _ & ?). }
  unfold closeSocket. destruct (0 <=? _); done.
Qed.
End callback.

Lemma user_conn_cb_closes conn n s s' : user_conn_cb conn n s = Ok s' -> closes s s'.
Proof.
  revert s s'. induction n as [|n IH]; intros s s' E; [done|]. cbn [user_conn_cb] in E.
  eapply do_cacts_closes; [exact IH|exact E].
Qed.
End closing.

(** *** The end of a connection *)
Section life.
Context {B : Type} `{ByteQueue B}.
Implicit Types (s : Conn B).

(** The socket is closed and the channel out of the loop. *)
Definition torn s : Prop := socketFd_ s < 0 /\ addedToLoop_ (channel_ s) = false.

(** Events that run [connectDestroyed], and the calls of the close callback
    they answer. *)
Definition fired s (ev : event) : Z :=
  match ev with
  | EvFunctor i => match posted s !! i with Some f => is_destroy f | None => 0 end
  | _ => 0
  end.
Definition teardown s (ev : event) : bool :=
  match ev with EvDestroy => true | _ => bool_decide (fired s ev = 1) end.

Lemma is_destroy_spec f : is_destroy f = 1 <-> f = FDestroyed.
Proof. by destruct f. Qed.

Lemma connectDestroyed_torn conn_cb s s' :
  cb_dead conn_cb -> (forall s1 s2, conn_cb s1 = Ok s2 -> closes s1 s2) -> conn_inv s ->
  connectDestroyed conn_cb s = Ok s' ->
  hasCloseCallback s' = hasCloseCallback s /\ state_ s' = kDisconnected /\ torn s' /\ destroys s' = destroys s.
Proof.
  intros Hcb Hcl I E. destruct (connectDestroyed_evolve conn_cb s Hcb I) as (s2 & E2 & _ & Hd & Hfd).
  rewrite E in E2. injection E2 as <-. destruct (connectDestroyed_destroys conn_cb Hcl s s' E) as [Hh Hds].
  split_and!; try done. unfold connectDestroyed in E. apply bind_Ok_inv in E as (s1 & _ & E). injection E as <-.
  split; [done|]. unfold closeSocket. by destruct (0 <=? _).
Qed.

(** A dead connection stays torn. *)
Lemma run_event_stays_torn s ev e s' :
  conn_inv s -> ev_ok s ev -> state_ s = kDisconnected -> run_event s ev e = Ok s' -> teardown s ev = false ->
  channel_ s' = channel_ s.
Proof.
  intros I Hok Hs. pose proof (ev_inv _ _ _ (set_env_evolve s e I)) as I0. unfold run_event, teardown, fired.
  destruct ev as [|r readv|i|acts|]; cbn [ev_ok] in Hok.
  - congruence.
  - destruct (ci_channel _ I) as (_ & _ & He). rewrite Hs in He. by destruct Hok.
  - change (posted (set_env s e)) with (posted s). destruct (posted s !! i) as [f|] eqn:Hf; [|by intros [= <-]].
    intros E Ht. pose proof (ev_inv _ _ _ (unpost_evolve (set_env s e) i f I0 Hf)) as I1.
    set (s1 := set_posted (set_env s e) _) in *. change (channel_ s) with (channel_ s1).
    assert (is_state s1 kConnected = false) as Hn by (apply bool_decide_eq_false_2; simpl; congruence).
    destruct f; cbn [run_functor] in E; rewrite ?Hn in E; try (injection E as <-; done);
      try (destruct (do_cacts_dead (user_conn_cb (e_conn e) nesting) s1 (e_done e) I1 Hs) as (s2 & E2 & _ & Hc);
           rewrite E in E2; injection E2 as <-; done).
    by rewrite bool_decide_eq_true_2 in Ht.
  - intros E _. destruct (do_cacts_dead (user_conn_cb (e_conn e) nesting) (set_env s e) acts I0 Hs) as (s2 & E2 & _ & Hc).
    rewrite E in E2. by injection E2 as <-.
  - done.
Qed.

Lemma run_event_life s ev e s' :
  conn_inv s -> ev_ok s ev -> run_event s ev e = Ok s' ->
  hasCloseCallback s' = hasCloseCallback s /\
  if teardown s ev then state_ s' = kDisconnected /\ torn s' /\ destroys s' = destroys s - fired s ev
  else downs s <= downs s' /\ socketFd_ s' = socketFd_ s /\
    destroys s' = destroys s + (if hasCloseCallback s then downs s' - downs s else 0) /\
    (state_ s = kDisconnected -> channel_ s' = channel_ s).
Proof.
  intros I Hok E. pose proof (ev_inv _ _ _ (set_env_evolve s e I)) as I0.
  pose proof (user_cb_dead (e_conn e) 1) as Hcd.
  pose proof (user_conn_cb_closes (e_conn e) nesting) as Hcl.
  assert (teardown s ev = false -> state_ s = kDisconnected -> channel_ s' = channel_ s) as Hch.
  { intros Ht Hs. by eapply run_event_stays_torn. }
  assert (forall c, teardown s ev = false -> closes (set_env s e) c -> c = s' ->
    hasCloseCallback s' = hasCloseCallback s /\
    if teardown s ev then state_ s' = kDisconnected /\ torn s' /\ destroys s' = destroys s - fired s ev
    else downs s <= downs s' /\ socketFd_ s' = socketFd_ s /\
      destroys s' = destroys s + (if hasCloseCallback s then downs s' - downs s else 0) /\
      (state_ s = kDisconnected -> channel_ s' = channel_ s)) as Hfin.
  { intros c Ht (C1 & C2 & C3 & C4) ->. rewrite Ht. split_and!; try done. by apply Hch. }
  unfold run_event in E. destruct ev as [|r readv|i|acts|].
  - eapply Hfin; [done| |done]. by eapply connectEstablished_closes.
  - eapply Hfin; [done| |done]. eapply closes_trans; [|exact (handleEvents_closes _ Hcl _ _ _ _ _ E)]. by apply closes_same.
  - change (posted (set_env s e)) with (posted s) in E. destruct (posted s !! i) as [f|] eqn:Hf.
    2: { injection E as <-. eapply Hfin; [by unfold teardown, fired; rewrite Hf|apply closes_refl|done]. }
    pose proof (unpost_evolve (set_env s e) i f I0 Hf) as E1. set (s1 := set_posted (set_env s e) _) in *.
    assert (destroys s1 = destroys s - is_destroy f) as Hd1 by (unfold destroys; simpl; by apply sum_cost_delete).
    assert (f <> FDestroyed -> closes s1 s' -> hasCloseCallback s' = hasCloseCallback s /\ teardown s (EvFunctor i) = false /\
      downs s <= downs s' /\ socketFd_ s' = socketFd_ s /\
      destroys s' = destroys s + (if hasCloseCallback s then downs s' - downs s else 0)) as Hgo.
    { intros Hne (C1 & C2 & C3 & C4). assert (is_destroy f = 0) as Hz by (by destruct f). rewrite Hd1, Hz, Z.sub_0_r in C4.
      unfold teardown, fired. rewrite Hf, Hz. by split_and!. }
    assert (f <> FDestroyed -> closes s1 s' -> hasCloseCallback s' = hasCloseCallback s /\
      if teardown s (EvFunctor i) then state_ s' = kDisconnected /\ torn s' /\ destroys s' = destroys s - fired s (EvFunctor i)
      else downs s <= downs s' /\ socketFd_ s' = socketFd_ s /\
        destroys s' = destroys s + (if hasCloseCallback s then downs s' - downs s else 0) /\
        (state_ s = kDisconnected -> channel_ s' = channel_ s)) as Hgo'.
    { intros Hne Hc. destruct (Hgo Hne Hc) as (? & Ht & ? & ? & ?). rewrite Ht in *. split_and!; try done. by apply Hch. }
    destruct f; cbn [run_functor] in E.
    + apply Hgo'; [done|]. destruct (is_state s1 kConnected); [by eapply sendInLoop_closes|].
      injection E as <-. apply closes_refl.
    + apply Hgo'; [done|]. unfold is_state in E. case_bool_decide as Hs; injection E as <-;
        [by apply disconnecting_closes|apply closes_refl].
    + apply Hgo'; [done|]. by eapply do_cacts_closes.
    + apply Hgo'; [done|]. by eapply do_cacts_closes.
    + destruct (connectDestroyed_torn _ _ _ Hcd Hcl (ev_inv _ _ _ E1) E) as (Hh & Hst & Ht & Hd).
      unfold teardown, fired. rewrite Hf. simpl is_destroy in *. rewrite bool_decide_eq_true_2 by done.
      split_and!; try done. lia.
  - eapply Hfin; [done| |done]. by eapply do_cacts_closes.
  - destruct (connectDestroyed_torn _ _ _ Hcd Hcl I0 E) as (Hh & Hst & Ht & Hd).
    simpl. split_and!; try done. change (destroys (set_env s e)) with (destroys s) in Hd. lia.
Qed.
End life.

(** ** Writable events *)
Section flush.
Context {B : Type} `{ByteQueue B}.
Implicit Types (s : Conn B).

(** The poller reports that the socket is writable, and the kernel takes up
    to [n] bytes. *)
Definition no_read : list Z -> Z + list byte := fun _ => inl EAGAIN.
Definition writable (n : Z) : event * env := (EvPoll EPOLLOUT no_read, mkEnv [WOk n] 0 [] [] []).

Lemma writable_round s n :
  conn_inv s -> is_open s = true -> 0 < n ->
  exists s', run_event s (writable n).1 (writable n).2 = Ok s' /\ conn_inv s' /\ state_ s' = state_ s /\
    sent s' = sent s /\ out_bytes s' = drop (Z.to_nat n) (out_bytes s).
Proof.
  intros I Ho Hn. cbn [writable fst snd run_event].
  pose proof (ev_inv _ _ _ (set_env_evolve s (mkEnv [WOk n] 0 [] [] []) I)) as I0.
  set (s0 := set_env s _) in *. cbv zeta.
  pose proof (ev_inv _ _ _ (set_revents_evolve s0 EPOLLOUT I0)) as I1.
  set (s1 := set_channel s0 _) in *. set (cb := user_conn_cb _ _).
  assert (handleEvents cb no_read (e_msg (mkEnv [WOk n] 0 [] [] [])) all_cbks s1 =
          (s2 ← handleWrite cb s1; Ok s2)) as ->.
  { unfold all_cbks. cbn [handleEvents]. destruct (ci_channel _ I) as (_ & Hcb & _).
    assert (forall k, selected (channel_ s1) k = bool_decide (k = CbWrite)) as Hsel.
    { intros k. injection Hcb as Er Ew Ec Ee. destruct k; unfold selected; simpl; rewrite ?Er, ?Ew, ?Ec, ?Ee; done. }
    do 4 (rewrite Hsel; match goal with |- context [bool_decide (?k = CbWrite)] =>
      first [rewrite (bool_decide_eq_true_2 (k = CbWrite)) by done | rewrite (bool_decide_eq_false_2 (k = CbWrite)) by done] end;
      cbn [mbind res_bind]).
    done. }
  destruct (decide (out_bytes s = [])) as [He|He].
  - exists s1. rewrite He, drop_nil. split_and!; try done. unfold handleWrite, c_isWriting.
    rewrite (writing_out s1 I1 Ho).
    assert (bool_decide (out_bytes s1 <> []) = false) as -> by (apply bool_decide_eq_false_2; intros Hx; by apply Hx).
    by destruct (is_state s1 kDisconnected).
  - destruct (handleWrite_progress cb s1 n [] I1 Ho He eq_refl Hn) as (s2 & -> & E & _ & Hs & Hout & Hsent).
    exists s2. split_and!; try done. apply E.
Qed.

Lemma writable_rounds s ns :
  conn_inv s -> is_open s = true -> Forall (Z.lt 0) ns ->
  exists s', run_events s (writable <$> ns) = Ok s' /\ conn_inv s' /\ state_ s' = state_ s /\
    sent s' = sent s /\ out_bytes s' = drop (Z.to_nat (foldr Z.add 0 ns)) (out_bytes s).
Proof.
  intros I Ho Hf. revert s I Ho. induction Hf as [|n ns Hn Hf IH]; intros s I Ho.
  { exists s. by rewrite drop_0. }
  rewrite fmap_cons. cbn [run_events]. rewrite (surjective_pairing (writable n)).
  destruct (writable_round s n I Ho Hn) as (s1 & -> & I1 & Hs1 & Hse1 & Ho1). cbn [mbind res_bind].
  assert (is_open s1 = true) as Hop by (unfold is_open, is_state in *; by rewrite Hs1).
  destruct (IH s1 I1 Hop) as (s2 & -> & I2 & Hs2 & Hse2 & Ho2).
  exists s2. split_and!; try done; try congruence. rewrite Ho2, Ho1, drop_drop. f_equal. cbn [foldr].
  assert (0 <= foldr Z.add 0 ns) by (clear -Hf; induction Hf; simpl; lia). lia.
Qed.
End flush.

(** ** Properties *)
Section properties.
Context {B : Type} `{ByteQueue B}.
Implicit Types (s : Conn B).

(** C2: whatever the peer, the kernel, the user's callbacks and other threads
    do (any admissible sequence of events), a connection within the memory
    bound fails no [assert] and no bounds check: each handler returns.  The
    bytes the kernel took followed by the output buffer are a prefix of the
    bytes [sendInLoop] accepted, in order, and all of them unless the
    connection is closed; the bytes [readv] delivered are those the user consumed
    followed by the input buffer; and an open connection asks for writable
    events exactly when it has something to write. *)
Theorem tcp_stream fd hw b1 b2 b3 b4 b5 evs :
  let s0 := TcpConnection_new (B := B) fd hw b1 b2 b3 b4 b5 in
  0 <= fd -> events_ok s0 evs -> budget s0 (evs_cost evs) ->
  exists s, run_events s0 evs = Ok s /\
    written s ++ out_bytes s `prefix_of` sent s /\
    (state_ s <> kDisconnected -> sent s = written s ++ out_bytes s) /\
    received s = consumed s ++ bq_bytes (inputBuffer_ s) /\
    (is_open s = true -> isWriting (channel_ s) = bool_decide (out_bytes s <> [])).
Proof.
  intros s0 Hfd Hok Hb. destruct (run_events_evolve s0 evs (conn_inv_new _ _ _ _ _ _ _ Hfd) Hok Hb) as (s & -> & E).
  pose proof (ev_inv _ _ _ E) as I. exists s.
  split_and!; [done|apply I|apply (ci_exact _ I)|apply I|by apply writing_out].
Qed.

(** the state of a connection only moves forward, its histories only
    grow, and once it is [kDisconnected] nothing is accepted or written; this
    holds from any state that satisfies the invariant, for any admissible
    sequence of events, and the memory of the buffers grows by at most the
    cost of the events. *)
Theorem tcp_forward s evs :
  conn_inv s -> events_ok s evs -> budget s (evs_cost evs) ->
  exists s', run_events s evs = Ok s' /\ conn_inv s' /\
    (state_rank (state_ s) <= state_rank (state_ s'))%nat /\
    sent s `prefix_of` sent s' /\ written s `prefix_of` written s' /\
    received s `prefix_of` received s' /\ consumed s `prefix_of` consumed s' /\
    (state_ s = kDisconnected -> sent s' = sent s /\ written s' = written s) /\
    pot s' <= pot s + evs_cost evs.
Proof.
  intros I Hok Hb. destruct (run_events_evolve s evs I Hok Hb) as (s' & -> & E).
  exists s'. split_and!; try done; apply E.
Qed.

(** C13: a graceful shutdown.  The write side of the socket is shut down only
    when every accepted byte was written, and then stays final: no later event
    accepts or writes another byte.  A connection in [kDisconnecting] with
    nothing left to write has had its write side shut down. *)
Theorem tcp_graceful_shutdown s evs :
  conn_inv s -> events_ok s evs -> budget s (evs_cost evs) ->
  exists s', run_events s evs = Ok s' /\
    (wr_shut s' = true -> out_bytes s' = [] /\ written s' = sent s') /\
    (state_ s' = kDisconnecting -> out_bytes s' = [] -> wr_shut s' = true) /\
    (wr_shut s = true -> wr_shut s' = true /\ written s' = written s /\ sent s' = sent s).
Proof.
  intros I Hok Hb. destruct (run_events_evolve s evs I Hok Hb) as (s' & -> & E).
  pose proof (ev_inv _ _ _ E) as I'. exists s'. split; [done|]. split; [|split].
  - intros Hs. apply (ci_shut _ I' Hs).
  - apply (ci_flush _ I').
  - intros Hs. destruct (ev_shut _ _ _ E Hs) as [Hs' Ew]. split_and!; try done.
    destruct (ci_shut _ I Hs) as (_ & _ & E1), (ci_shut _ I' Hs') as (_ & _ & E2). congruence.
Qed.

(** C18: pending output is flushed.  If the socket is reported writable and
    the kernel takes at least one byte each time, then after as many rounds as
    it takes to cover the output buffer every accepted byte was written in
    order, the connection stopped asking for writable events, and a pending
    shutdown went through. *)
Theorem tcp_flush s ns :
  conn_inv s -> is_open s = true -> Forall (Z.lt 0) ns -> zlen (out_bytes s) <= foldr Z.add 0 ns ->
  exists s', run_events s (writable <$> ns) = Ok s' /\ state_ s' = state_ s /\ out_bytes s' = [] /\
    written s' = sent s /\ isWriting (channel_ s') = false /\
    (state_ s = kDisconnecting -> wr_shut s' = true).
Proof.
  intros I Ho Hf Hlen. destruct (writable_rounds s ns I Ho Hf) as (s' & -> & I' & Hs & Hse & Hout).
  rewrite drop_ge in Hout by (unfold zlen in *; lia).
  assert (is_open s' = true) as Ho' by (unfold is_open, is_state in *; by rewrite Hs).
  exists s'. split_and!; try done.
  - apply is_open_spec in Ho'. rewrite <- Hse, (ci_exact _ I') by (destruct Ho'; congruence).
    by rewrite Hout, app_nil_r.
  - rewrite (writing_out _ I' Ho'), Hout. done.
  - intros Hd. apply (ci_flush _ I'); [congruence|done].
Qed.

(** C19: [send] on the loop's thread.  A connected connection accepts the whole
    message: what the kernel takes at once is written, the rest is appended to
    the output buffer (all of it when output is already pending, so that
    messages never overtake each other); the write-complete callback is posted
    when everything was taken, the high-water callback when the buffer crosses
    the mark; an error other than EAGAIN and EINTR closes the connection.  In
    any other state nothing happens. *)
Theorem tcp_send s d conn :
  conn_inv s -> budget s (cost d) -> d <> [] ->
  exists s', send (user_conn_cb conn nesting) true s d = Ok s' /\ conn_inv s' /\
    (state_ s <> kConnected -> s' = s) /\
    (state_ s = kConnected -> sent s' = sent s ++ d /\
      match accepted s d with
      | Some n => state_ s' = kConnected /\ written s' = written s ++ take (Z.to_nat n) d /\
          out_bytes s' = out_bytes s ++ drop (Z.to_nat n) d /\ posted s' = posted s ++ send_posts s d n
      | None => state_ s' = kDisconnected /\ written s' = written s
      end).
Proof.
  intros I Hb Hne. pose proof (user_cb_dead conn 1) as Hcb. unfold send, is_state.
  rewrite (proj2 (Z.eqb_neq (zlen d) 0)) by (by intros ?%zlen_nil_inv).
  case_bool_decide as Hs; [|by exists s].
  destruct (sendInLoop_spec _ s d Hcb I Hs Hb) as (s' & E & Ev & Hse). exists s'. split_and!; try done; [apply Ev|].
  intros _. split; [done|]. by eapply sendInLoop_out.
Qed.

(** [connectDestroyed], from any state: the connection ends
    [kDisconnected] with its socket closed and its channel out of the loop, the
    destructor's [assert] holds, and later calls of [send] and [shutdown], from
    any thread, do nothing. *)
Theorem tcp_destroyed s e :
  conn_inv s ->
  exists s', run_event s EvDestroy e = Ok s' /\ state_ s' = kDisconnected /\ socketFd_ s' < 0 /\
    addedToLoop_ (channel_ s') = false /\ TcpConnection_delete s' = Ok s' /\
    forall cb b d, send cb b s' d = Ok s' /\ send_Buffer cb b s' d = Ok s' /\ shutdown b s' = s'.
Proof.
  intros I. pose proof (ev_inv _ _ _ (set_env_evolve s e I)) as I0. cbn [run_event].
  destruct (connectDestroyed_evolve (user_conn_cb (e_conn e) nesting) _ (user_cb_dead (e_conn e) 1) I0)
    as (s' & E & _ & Hd & Hfd).
  exists s'. split; [done|]. split_and!; try done.
  - unfold connectDestroyed in E. res_inv. unfold closeSocket. by destruct (0 <=? _).
  - unfold TcpConnection_delete, is_state, closeSocket. rewrite bool_decide_eq_true_2 by done. simpl.
    by rewrite (proj2 (Z.leb_gt 0 _)).
  - intros cb b d. unfold send, send_Buffer, shutdown, is_state. rewrite Hd. simpl.
    destruct (zlen d =? 0), b; done.
Qed.

(** an event delivered to a connection that was closed earlier in the
    same round (Poller.v shows such events reach the handlers) changes nothing,
    whatever its bits and the socket's error, except when it is a hang-up
    without [EPOLLIN]: [handleClose] then fails its [assert], the only handler
    without a test of the state. *)
Theorem tcp_stale_event cb readv msg s r :
  conn_inv s -> state_ s = kDisconnected ->
  let s1 := set_channel s (setRevents (channel_ s) r) in
  handleEvents cb readv msg all_cbks s1 =
  if negb (Z.land r EPOLLHUP =? 0) && (Z.land r EPOLLIN =? 0) then Fault AssertFail else Ok s1.
Proof.
  intros I Hs s1. destruct (ci_channel _ I) as (_ & Hcb & _). injection Hcb as Er Ew Ec Ee.
  assert (forall k, k <> CbClose -> do_callback cb readv msg s1 k = Ok s1) as Hk.
  { intros k Hk. destruct k; [done| | |]; simpl; unfold handleError, handleError_err, handleRead, handleWrite,
      is_open, is_state; simpl; rewrite Hs; simpl; repeat case_match; done. }
  unfold all_cbks. cbn [handleEvents].
  assert (selected (channel_ s1) CbClose = negb (Z.land r EPOLLHUP =? 0) && (Z.land r EPOLLIN =? 0)) as ->.
  { simpl. by rewrite Ec, andb_true_r. }
  destruct (_ && (Z.land r EPOLLIN =? 0)).
  - simpl. unfold handleClose, is_open, is_state. simpl. by rewrite Hs.
  - cbn [mbind res_bind].
    repeat (rewrite Hk by done; match goal with |- context [if ?b then Ok s1 else Ok s1] =>
      replace (if b then Ok s1 else Ok s1) with (Ok s1) by (by destruct b) end; cbn [mbind res_bind]).
    done.
Qed.
End properties.

(** ** Witnesses

    A connection whose connection callback sends two bytes, of which the
    kernel takes one; then two bytes arrive, of which the user takes one and
    shuts down; then the socket is writable. *)
Definition sample_readv (iov : list Z) : Z + list byte := inr (take (Z.to_nat (foldr Z.add 0 iov)) [x61; x62]).
Lemma sample_readv_ok : readv_ok sample_readv.
Proof.
  intros iov bytes Hiov [= <-]. unfold zlen. rewrite length_take.
  assert (0 <= foldr Z.add 0 iov) by (induction Hiov; simpl; lia). lia.
Qed.
Definition sample_new : Conn Buffer := TcpConnection_new 7 (64 * 1024 * 1024) true true true true true.
Definition sample_establish : event * env := (EvEstablish, mkEnv [WOk 1] 0 [CSend [x68; x69]] [] []).
Definition sample_evs : list (event * env) :=
  [sample_establish;
   (EvPoll EPOLLIN sample_readv, mkEnv [] 0 [] [CRetrieve 1; CShutdown] []);
   writable 5].
Definition sample_open : Conn Buffer :=
  match run_event sample_new sample_establish.1 sample_establish.2 with Ok s => s | Fault _ => sample_new end.

Lemma sample_new_ok : conn_inv sample_new.
Proof. by apply conn_inv_new. Qed.

Lemma sample_open_ok : conn_inv sample_open.
Proof.
  unfold sample_open.
  destruct (run_event_evolve sample_new sample_establish.1 sample_establish.2 sample_new_ok) as (s & -> & E).
  - done.
  - by vm_compute.
  - apply E.
Qed.

Lemma sample_evs_ok : events_ok sample_new sample_evs.
Proof.
  split; [done|]. intros s1 E1. vm_compute in E1. injection E1 as <-.
  split; [split; [done|exact sample_readv_ok]|]. intros s2 E2. vm_compute in E2. injection E2 as <-.
  split; [split; [done|]|done]. by intros iov bytes _ ?.
Qed.

Lemma tcp_stream_witness :
  exists s, run_events sample_new sample_evs = Ok s /\
    written s ++ out_bytes s `prefix_of` sent s /\
    (state_ s <> kDisconnected -> sent s = written s ++ out_bytes s) /\
    received s = consumed s ++ bq_bytes (inputBuffer_ s) /\
    (is_open s = true -> isWriting (channel_ s) = bool_decide (out_bytes s <> [])).
Proof.
  apply (tcp_stream (B := Buffer) 7 (64 * 1024 * 1024) true true true true true sample_evs).
  - lia.
  - exact sample_evs_ok.
  - by vm_compute.
Defined.

Lemma tcp_forward_witness :
  exists s', run_events sample_new sample_evs = Ok s' /\ conn_inv s' /\
    (state_rank (state_ sample_new) <= state_rank (state_ s'))%nat /\
    sent sample_new `prefix_of` sent s' /\ written sample_new `prefix_of` written s' /\
    received sample_new `prefix_of` received s' /\ consumed sample_new `prefix_of` consumed s' /\
    (state_ sample_new = kDisconnected -> sent s' = sent sample_new /\ written s' = written sample_new) /\
    pot s' <= pot sample_new + evs_cost sample_evs.
Proof. apply (tcp_forward sample_new sample_evs sample_new_ok sample_evs_ok). by vm_compute. Defined.

Lemma tcp_graceful_shutdown_witness :
  exists s', run_events sample_new sample_evs = Ok s' /\
    (wr_shut s' = true -> out_bytes s' = [] /\ written s' = sent s') /\
    (state_ s' = kDisconnecting -> out_bytes s' = [] -> wr_shut s' = true) /\
    (wr_shut sample_new = true -> wr_shut s' = true /\ written s' = written sample_new /\ sent s' = sent sample_new).
Proof. apply (tcp_graceful_shutdown sample_new sample_evs sample_new_ok sample_evs_ok). by vm_compute. Defined.

(** The sample really ends shut down, with both bytes written. *)
Lemma sample_evs_run :
  (s ← run_events sample_new sample_evs; Ok (state_ s, wr_shut s, written s, received s, consumed s))
  = Ok (kDisconnecting, true, [x68; x69], [x61; x62], [x61]).
Proof. vm_compute. reflexivity. Qed.

Lemma tcp_flush_witness :
  exists s', run_events sample_open (writable <$> [5]) = Ok s' /\ state_ s' = state_ sample_open /\ out_bytes s' = [] /\
    written s' = sent sample_open /\ isWriting (channel_ s') = false /\
    (state_ sample_open = kDisconnecting -> wr_shut s' = true).
Proof.
  apply (tcp_flush sample_open [5] sample_open_ok).
  - by vm_compute.
  - by repeat constructor.
  - by vm_compute.
Defined.

Lemma tcp_send_witness :
  exists s', send (user_conn_cb [CShutdown] nesting) true sample_open [x6a] = Ok s' /\ conn_inv s' /\
    (state_ sample_open <> kConnected -> s' = sample_open) /\
    (state_ sample_open = kConnected -> sent s' = sent sample_open ++ [x6a] /\
      match accepted sample_open [x6a] with
      | Some n => state_ s' = kConnected /\ written s' = written sample_open ++ take (Z.to_nat n) [x6a] /\
          out_bytes s' = out_bytes sample_open ++ drop (Z.to_nat n) [x6a] /\
          posted s' = posted sample_open ++ send_posts sample_open [x6a] n
      | None => state_ s' = kDisconnected /\ written s' = written sample_open
      end).
Proof.
  apply (tcp_send sample_open [x6a] [CShutdown] sample_open_ok).
  - by vm_compute.
  - done.
Defined.

Lemma tcp_destroyed_witness :
  exists s', run_event sample_open EvDestroy (mkEnv [] 0 [CSend [x6a]] [] []) = Ok s' /\ state_ s' = kDisconnected /\
    socketFd_ s' < 0 /\ addedToLoop_ (channel_ s') = false /\ TcpConnection_delete s' = Ok s' /\
    forall cb b d, send cb b s' d = Ok s' /\ send_Buffer cb b s' d = Ok s' /\ shutdown b s' = s'.
Proof. apply (tcp_destroyed sample_open (mkEnv [] 0 [CSend [x6a]] [] []) sample_open_ok). Defined.

Lemma tcp_stale_event_witness :
  handleEvents (user_conn_cb [] nesting) sample_readv [] all_cbks
    (set_channel (dead sample_open) (setRevents (channel_ (dead sample_open)) EPOLLHUP)) = Fault AssertFail.
Proof.
  exact (tcp_stale_event (user_conn_cb [] nesting) sample_readv [] (dead sample_open) EPOLLHUP
    (ev_inv _ _ _ (dead_evolve sample_open sample_open_ok)) eq_refl).
Defined.
