(* ===== verification/TcpReactor.v ===== *)
(** * TcpReactor: a connection in a loop's poller

    Composes TcpConnection.v with Poller.v and Kernel.v: what a connection does
    to its channel and its descriptor ([chan_ops]) runs on the poller the
    channel is in ([src/Channel.cpp], [src/Poller.cpp]), and its events are
    those the poller dispatches.  Between its events the rest of the program
    does what it likes with its own channels and descriptors.

    The theorems show that TcpConnection.v, which has a channel of its own and
    no poller, is what happens: no call into the poller fails, each event runs
    the same handlers, and the kernel watches the socket for exactly what the
    connection wants. *)

From S2P Require Import Prelude Buffer Channel Poller Kernel TcpConnection.

(** ** The state *)
Record Hosted (B K : Type) : Type := mkHosted {
  conn : Conn B;
  reactor : Reactor K
}.
Arguments mkHosted {B K}.
Arguments conn {B K}.
Arguments reactor {B K}.

#[global] Instance hosted_part {B K} : Part (Hosted B K) (Reactor K) :=
  {| get := reactor; put := fun w r => mkHosted (conn w) r |}.
#[global] Instance hosted_part_laws {B K} : PartLaws (Hosted B K) (Reactor K).
Proof. by split; [|intros []|]. Qed.

Section hosted.
Context {B K : Type} `{ByteQueueOps B} `{Kernel K}.
(** The addresses of the channel and of the connection. *)
Context (p obj : Z).
Implicit Types (w : Hosted B K) (s : Conn B) (r : Reactor K).

(** ** Operations on the poller *)
Definition run_op r (o : chan_op) : res (Reactor K) :=
  match o with
  | OpChange ch => channel_change r p ch
  | OpTie => do_rop r (RTie p obj)
  | OpRemove => channel_remove r p
  | OpClose fd => Ok (set_epoll r (sys_close (epoll r) fd))
  end.

Fixpoint run_ops r (os : list chan_op) : res (Reactor K) :=
  match os with [] => Ok r | o :: os' => r' ← run_op r o; run_ops r' os' end.

(** A member function of the connection: its calls into the poller are those
    it added to [chan_ops].  It reads nothing of the poller, so running them at
    its end is running them in between. *)
Definition lift (f : Conn B -> res (Conn B)) w : res (Hosted B K) :=
  s ← f (conn w);
  r ← run_ops (reactor w) (drop (length (chan_ops (conn w))) (chan_ops s));
  Ok (mkHosted s r).

(** ** Events

    [TcpConnection(..)]; then its events, [EvPoll] being a round of the loop in
    which the poller reports the channel. *)
Definition host_new r (fd hw : Z) (b1 b2 b3 b4 b5 : bool) : res (Hosted B K) :=
  r' ← do_rop r (RNew p fd true true true true);
  Ok (mkHosted (TcpConnection_new fd hw b1 b2 b3 b4 b5) r').

Definition run_hevent w (ev : event) (e : env) : res (Hosted B K) :=
  match ev with
  | EvPoll revents readv =>
      let s0 := set_env (conn w) e in
      let cb := user_conn_cb (e_conn e) nesting in
      '(active, r) ← poll (reactor w) (WEvents [(revents, p)]);
      handle_active (fun w _ k => lift (fun s => do_callback cb readv (e_msg e) s k) w)
        (mkHosted (set_channel s0 (setRevents (channel_ s0) revents)) r) active
  | _ => lift (fun s => run_event s ev e) w
  end.

(** What happens to the loop: an event of the connection, a call of other code
    on its channels, a descriptor opened or closed by other code. *)
Inductive hstep : Type :=
| HConn (ev : event) (e : env)
| HOther (o : rop)
| HOpen (fd : Z)
| HClose (fd : Z).

Definition run_hstep w (st : hstep) : res (Hosted B K) :=
  match st with
  | HConn ev e => run_hevent w ev e
  | HOther o => r ← do_rop (reactor w) o; Ok (mkHosted (conn w) r)
  | HOpen fd => Ok (mkHosted (conn w) (set_epoll (reactor w) (sys_open (epoll (reactor w)) fd)))
  | HClose fd => Ok (mkHosted (conn w) (set_epoll (reactor w) (sys_close (epoll (reactor w)) fd)))
  end.

Fixpoint run_hsteps w (sts : list hstep) : res (Hosted B K) :=
  match sts with [] => Ok w | st :: sts' => w' ← run_hstep w st; run_hsteps w' sts' end.

(** The end: the last pointer to the connection goes, its destructor runs and
    with it the channel's ([BadPointer]: the poller would keep a pointer). *)
Definition host_delete w : res (Reactor K) :=
  r ← do_rop (reactor w) (RDrop obj);
  w1 ← lift TcpConnection_delete (mkHosted (conn w) r);
  c ← deref (chans (reactor w1) !! p);
  if addedToLoop_ c then Fault BadPointer else do_rop (reactor w1) (RDelete p).

(** When a step can happen.  The poller reports what the kernel watches
    ([wait_ok]); other code keeps to the protocol of channels on channels of
    its own, for descriptors of its own. *)
Definition hstep_ok w (st : hstep) : Prop :=
  match st with
  | HConn EvEstablish _ => state_ (conn w) = kConnecting
  | HConn (EvPoll revents readv) _ => wait_ok (reactor w) [(revents, p)] /\ readv_ok readv
  | HConn _ _ => True
  | HOther o =>
      pre (reactor w) o /\ opened (reactor w) o /\ rop_on o <> Some p /\ o <> RDrop obj /\
      forall q ch c, o = RChange q ch -> chans (reactor w) !! q = Some c ->
        0 <= socketFd_ (conn w) -> fd_ c <> socketFd_ (conn w)
  | HOpen fd => fd ∉ kfds (epoll (reactor w))
  | HClose fd => fd <> socketFd_ (conn w) /\ channels_ (reactor w) !! fd = None
  end.

Fixpoint hsteps_ok w (sts : list hstep) : Prop :=
  match sts with
  | [] => True
  | st :: sts' => hstep_ok w st /\ forall w', run_hstep w st = Ok w' -> hsteps_ok w' sts'
  end.

(** The connection's part of a history. *)
Definition conn_events (sts : list hstep) : list (event * env) :=
  omap (fun st => match st with HConn ev e => Some (ev, e) | _ => None end) sts.

(** ** The connection's channel and the poller's *)
Definition view (c c' : Channel) : Prop :=
  fd_ c' = fd_ c /\ events_ c' = events_ c /\ revents_ c' = revents_ c /\ addedToLoop_ c' = addedToLoop_ c /\
  tied_ c' = tied_ c /\
  (readCallback_ c', writeCallback_ c', closeCallback_ c', errorCallback_ c') =
  (readCallback_ c, writeCallback_ c, closeCallback_ c, errorCallback_ c).

Record link s r : Prop := mkLink {
  lk_open : fds_open r;
  lk_chan : exists c, chans r !! p = Some c /\ view (channel_ s) c /\
    (tied_ c = true -> tie_ c = Some obj /\ obj ∈ alive r);
  lk_fd : 0 <= socketFd_ s ->
    fd_ (channel_ s) = socketFd_ s /\ socketFd_ s ∈ kfds (epoll r) /\
    (channels_ r !! socketFd_ s = None \/ channels_ r !! socketFd_ s = Some p);
  lk_closed : socketFd_ s < 0 -> addedToLoop_ (channel_ s) = false;
  lk_alive : state_ s <> kDisconnected -> 0 <= socketFd_ s;
  lk_dead : state_ s = kDisconnected -> events_ (channel_ s) = 0
}.

(** ** The steps a connection's code is made of *)
Inductive prim s : Conn B -> Prop :=
| p_quiet s' : state_ s' = state_ s -> socketFd_ s' = socketFd_ s -> channel_ s' = channel_ s ->
    chan_ops s' = chan_ops s -> prim s s'
| p_state st : state_ s <> kDisconnected -> st <> kDisconnected -> prim s (setState s st)
| p_down : prim s (dead s)
| p_change ch : state_ s <> kDisconnected -> prim s (channel_do ch s)
| p_tie : prim s (c_tie s)
| p_remove : state_ s = kDisconnected -> prim s (c_remove s)
| p_close : state_ s = kDisconnected -> addedToLoop_ (channel_ s) = false -> prim s (closeSocket s).

Definition prims : Conn B -> Conn B -> Prop := rtc prim.
End hosted.

(** ** Every member function is a sequence of these steps *)
Section walk.
Context {B : Type} `{ByteQueueOps B}.
Implicit Types (s : Conn B) (conn_cb : Conn B -> res (Conn B)).

Lemma prims_via s2 s1 s3 : prims s1 s2 -> prims s2 s3 -> prims s1 s3.
Proof. unfold prims. intros H1 H2. by etrans. Qed.

Lemma quiet s s' : state_ s' = state_ s -> socketFd_ s' = socketFd_ s -> channel_ s' = channel_ s ->
  chan_ops s' = chan_ops s -> prims s s'.
Proof. intros. by apply rtc_once, p_quiet. Qed.

Lemma quiet_post (b : bool) s f : prims s (if b then queueInLoop s f else s).
Proof. destruct b; by apply quiet. Qed.

Lemma post_state (b : bool) s f : state_ (if b then queueInLoop s f else s) = state_ s.
Proof. by destruct b. Qed.

Lemma not_down s st : is_state s st = true -> st <> kDisconnected -> state_ s <> kDisconnected.
Proof. unfold is_state. intros ->%bool_decide_eq_true. done. Qed.

Lemma sys_write_prims s d a s' : sys_write s d = (a, s') -> prims s s' /\ state_ s' = state_ s /\ channel_ s' = channel_ s.
Proof.
  unfold sys_write. destruct (writes s) as [|[n|e] w]; intros [= <- <-]; (split; [apply quiet; done|done]).
Qed.

Section callback.
Context (conn_cb : Conn B -> res (Conn B)) (Hcb : forall s s', conn_cb s = Ok s' -> prims s s').

Lemma run_connectionCallback_prims s s' : run_connectionCallback conn_cb s = Ok s' -> prims s s'.
Proof. unfold run_connectionCallback. destruct (connectionCallback_ s); [apply Hcb|]. by intros [= <-]. Qed.

Lemma handleClose_prims s s' : handleClose conn_cb s = Ok s' -> prims s s'.
Proof.
  unfold handleClose. intros E. apply bind_Ok_inv in E as (u & _ & E). apply bind_Ok_inv in E as (s1 & E1 & E).
  injection E as <-. eapply rtc_l; [apply p_down|]. etrans; [by apply run_connectionCallback_prims|]. apply quiet_post.
Qed.

Lemma handleError_err_prims s err s' : handleError_err conn_cb s err = Ok s' -> prims s s'.
Proof.
  unfold handleError_err. destruct (_ || _); [by intros [= <-]|].
  destruct (is_open s); [apply handleClose_prims|]. by intros [= <-].
Qed.

Lemma handleError_prims s s' : handleError conn_cb s = Ok s' -> prims s s'.
Proof. unfold handleError. destruct (negb _); [apply handleError_err_prims|]. by intros [= <-]. Qed.

Lemma queueOutput_prims s n m d s' : state_ s <> kDisconnected -> queueOutput s n m d = Ok s' -> prims s s'.
Proof.
  intros Hs E. unfold queueOutput in E. set (s1 := if _ && _ && _ then _ else s) in E.
  assert (prims s s1) as H1 by apply quiet_post.
  assert (state_ s1 = state_ s) as Hs1 by (by apply post_state).
  clearbody s1. apply bind_Ok_inv in E as (out & _ & E). injection E as <-.
  etrans; [exact H1|]. eapply (prims_via (set_out s1 out)); [by apply quiet|].
  destruct (negb _); [|done]. apply rtc_once, p_change. simpl. congruence.
Qed.

Lemma sendInLoop_prims s d s' : sendInLoop conn_cb s d = Ok s' -> prims s s'.
Proof.
  unfold sendInLoop. unfold is_state. case_bool_decide as Hs; [by intros [= <-]|].
  cbv zeta. set (s0 := log_sent s d). assert (prims s s0) as H0 by (by apply quiet).
  intros E. apply bind_Ok_inv in E as ([[[nw m] fe] s1] & E1 & E).
  assert (prims s0 s1 /\ (fe = false -> state_ s1 = state_ s)) as [H1 Hs1].
  { destruct (_ && _); [|by injection E1 as <- <- <- <-].
    destruct (sys_write s0 d) as [[n|e] s2] eqn:Ew; apply sys_write_prims in Ew as (Ew & Es & _).
    - injection E1 as <- <- <- <-. split; [etrans; [exact Ew|apply quiet_post]|]. intros _. by rewrite post_state.
    - destruct (retriable e); [injection E1 as <- <- <- <-; split; [exact Ew|intros _; exact Es]|].
      apply bind_Ok_inv in E1 as (s3 & E3 & E1). injection E1 as <- <- <- <-.
      split; [|done]. etrans; [exact Ew|]. by eapply handleError_err_prims. }
  etrans; [exact H0|]. etrans; [exact H1|]. clear E1.
  destruct fe; [by injection E as <-|]. cbn [negb andb] in E.
  destruct (0 <? m); [|by injection E as <-]. eapply queueOutput_prims; [|exact E]. by rewrite Hs1.
Qed.

Lemma send_prims b s d s' : send conn_cb b s d = Ok s' -> prims s s'.
Proof.
  unfold send. destruct (zlen d =? 0); [by intros [= <-]|].
  destruct b; destruct (is_state s kConnected); try (by intros E; eapply sendInLoop_prims);
    intros [= <-]; by try apply quiet.
Qed.

Lemma send_Buffer_prims b s d s' : send_Buffer conn_cb b s d = Ok s' -> prims s s'.
Proof.
  unfold send_Buffer. destruct b; destruct (is_state s kConnected); try (by intros E; eapply sendInLoop_prims);
    intros [= <-]; by try apply quiet.
Qed.

Lemma shutdownInLoop_prims s : prims s (shutdownInLoop s).
Proof. unfold shutdownInLoop. destruct (_ && _); by apply quiet. Qed.

Lemma disconnecting_prims s : state_ s <> kDisconnected -> prims s (shutdownInLoop (setState s kDisconnecting)).
Proof. intros Hs. eapply rtc_l; [by apply (p_state s kDisconnecting)|]. apply shutdownInLoop_prims. Qed.

Lemma shutdown_prims b s : prims s (shutdown b s).
Proof.
  unfold shutdown. destruct (is_state s kConnected) eqn:Hs; [|done].
  destruct b; [by apply disconnecting_prims, (not_down _ _ Hs)|by apply quiet].
Qed.

Lemma do_cact_prims s a s' : do_cact conn_cb s a = Ok s' -> prims s s'.
Proof.
  destruct a; cbn [do_cact]; intros E.
  - by eapply send_prims.
  - by eapply send_Buffer_prims.
  - injection E as <-. apply shutdown_prims.
  - unfold user_retrieve in E. res_inv. by apply quiet.
  - by eapply send_prims.
  - injection E as <-. apply shutdown_prims.
Qed.

Lemma do_cacts_prims s acts s' : do_cacts conn_cb s acts = Ok s' -> prims s s'.
Proof.
  revert s. induction acts as [|a acts IH]; intros s E; cbn [do_cacts] in E; [by injection E as <-|].
  apply bind_Ok_inv in E as (s1 & E1 & E). etrans; [by eapply do_cact_prims|by apply IH].
Qed.

Lemma handleRead_prims readv msg s s' : handleRead conn_cb readv msg s = Ok s' -> prims s s'.
Proof.
  unfold handleRead. destruct (is_state s kDisconnected); [by intros [= <-]|].
  intros E. apply bind_Ok_inv in E as ([[n e] b] & _ & E). cbv zeta in E. set (s1 := set_in _ _ _ _) in E.
  eapply (prims_via s1); [by apply quiet|]. destruct (0 <? n).
  - destruct (messageCallback_ s1); [by eapply do_cacts_prims|]. by injection E as <-.
  - destruct (n =? 0); [by apply handleClose_prims|by eapply handleError_err_prims].
Qed.

Lemma handleWrite_prims s s' : handleWrite conn_cb s = Ok s' -> prims s s'.
Proof.
  unfold handleWrite. unfold is_state at 1. case_bool_decide as Hs; [by intros [= <-]|].
  destruct (c_isWriting s); [|by intros [= <-]].
  intros E. apply bind_Ok_inv in E as (data & _ & E).
  destruct (sys_write s data) as [[n|e] s1] eqn:Ew; apply sys_write_prims in Ew as (Ew & Es & _);
    (etrans; [exact Ew|]); [|by eapply handleError_err_prims].
  destruct (0 <? n); [|by eapply handleError_err_prims].
  apply bind_Ok_inv in E as (out & _ & E). cbv zeta in E.
  eapply (prims_via (set_out s1 out)); [by apply quiet|].
  destruct (bq_readable out =? 0); [|by injection E as <-].
  set (s3 := channel_do DisableWriting (set_out s1 out)) in E.
  eapply rtc_l; [apply (p_change _ DisableWriting); simpl; congruence|]. fold s3. injection E as <-.
  set (s4 := if writeCompleteCallback_ s1 then queueInLoop s3 FWriteComplete else s3).
  eapply (prims_via s4); [apply quiet_post|].
  destruct (is_state s4 kDisconnecting); [apply shutdownInLoop_prims|done].
Qed.

Lemma do_callback_prims readv msg s k s' : do_callback conn_cb readv msg s k = Ok s' -> prims s s'.
Proof.
  destruct k; cbn [do_callback];
    [apply handleClose_prims|apply handleError_prims|apply handleRead_prims|apply handleWrite_prims].
Qed.

Lemma handleEvents_prims readv msg ks s s' : handleEvents conn_cb readv msg ks s = Ok s' -> prims s s'.
Proof.
  revert s. induction ks as [|k ks IH]; intros s E; cbn [handleEvents] in E; [by injection E as <-|].
  apply bind_Ok_inv in E as (s1 & E1 & E). etrans; [|by apply IH].
  destruct (selected (channel_ s) k); [by eapply do_callback_prims|by injection E1 as <-].
Qed.

Lemma connectEstablished_prims s s' : connectEstablished conn_cb s = Ok s' -> prims s s'.
Proof.
  unfold connectEstablished. intros E. apply bind_Ok_inv in E as (u & Ha & E). apply assert_Ok_inv in Ha.
  pose proof (not_down _ _ Ha ltac:(done)) as Hs.
  eapply rtc_l; [by apply (p_state s kConnected)|]. eapply rtc_l; [apply p_tie|].
  eapply rtc_l; [by apply (p_change _ EnableReading)|]. by apply run_connectionCallback_prims.
Qed.

Lemma prims_down s s' : prims s s' -> state_ s = kDisconnected -> state_ s' = kDisconnected.
Proof.
  induction 1 as [s|s s1 s' Hp _ IH]; [done|]. intros Hs. apply IH.
  destruct Hp; try done; try congruence. unfold closeSocket. by destruct (0 <=? _).
Qed.

Lemma connectDestroyed_prims s s' : connectDestroyed conn_cb s = Ok s' -> prims s s'.
Proof.
  unfold connectDestroyed. intros E. apply bind_Ok_inv in E as (s1 & E1 & E). injection E as <-.
  assert (prims s s1 /\ state_ s1 = kDisconnected) as [H1 Hs1].
  { unfold is_state in E1. case_bool_decide as Hs; simpl in E1; [by injection E1 as <-|].
    apply run_connectionCallback_prims in E1. split; [eapply rtc_l; [apply p_down|exact E1]|].
    by eapply prims_down; [exact E1|]. }
  etrans; [exact H1|]. eapply rtc_l; [by apply p_remove|]. by apply rtc_once, p_close.
Qed.

Lemma run_functor_prims done s f s' : run_functor conn_cb done s f = Ok s' -> prims s s'.
Proof.
  destruct f; cbn [run_functor]; try apply do_cacts_prims.
  - destruct (is_state s kConnected); [apply sendInLoop_prims|by intros [= <-]].
  - destruct (is_state s kConnected) eqn:Hs; intros [= <-]; [|done]. by apply disconnecting_prims, (not_down _ _ Hs).
  - apply connectDestroyed_prims.
Qed.
End callback.

Lemma user_conn_cb_prims conn n s s' : user_conn_cb conn n s = Ok s' -> prims s s'.
Proof.
  revert s s'. induction n as [|n IH]; intros s s'; cbn [user_conn_cb]; [done|]. by apply do_cacts_prims.
Qed.

(** Before [EvPoll] the poller sets the events of the channel. *)
Definition event_start s (ev : event) : Conn B :=
  match ev with EvPoll revents _ => set_channel s (setRevents (channel_ s) revents) | _ => s end.

Lemma run_event_start s ev e s' : run_event s ev e = Ok s' -> prims (event_start s ev) s'.
Proof.
  intros E. pose proof (user_conn_cb_prims (e_conn e) nesting) as Hcb. unfold run_event in E.
  destruct ev as [|revents readv|i|acts|]; cbn [event_start].
  - apply (prims_via (set_env s e)); [by apply quiet|]. by eapply connectEstablished_prims.
  - eapply prims_via; [|by eapply handleEvents_prims]. by apply quiet.
  - apply (prims_via (set_env s e)); [by apply quiet|].
    destruct (posted (set_env s e) !! i) as [f|]; [|by injection E as <-].
    eapply prims_via; [|by eapply run_functor_prims]. by apply quiet.
  - apply (prims_via (set_env s e)); [by apply quiet|]. by eapply do_cacts_prims.
  - apply (prims_via (set_env s e)); [by apply quiet|]. by eapply connectDestroyed_prims.
Qed.

(** Events other than [EvPoll], which the poller dispatches. *)
Lemma run_event_prims s ev e s' :
  match ev with EvPoll _ _ => False | _ => True end -> run_event s ev e = Ok s' -> prims s s'.
Proof.
  intros Hev E. apply run_event_start in E. by destruct ev.
Qed.
End walk.

(** ** The poller follows *)
Section follow.
Context {B K : Type} `{ByteQueue B} `{KernelLaws K} (p obj : Z).
Implicit Types (w : Hosted B K) (s : Conn B) (r : Reactor K).

Lemma view_change ch c c' i : view c c' -> view (channel_set ch c) (setIndex (channel_set ch c') i).
Proof.
  intros (Hf & He & Hr & Ha & Ht & Hc). unfold view, channel_set, isNoneEvent. simpl. rewrite He, Ha.
  destruct (_ && _); simpl; by rewrite ?He, ?Ha.
Qed.

Lemma view_drop c c' i : view c c' -> view (channel_drop c) (setIndex (channel_drop c') i).
Proof. intros (? & ? & ? & ? & ? & ?). by split_and!. Qed.

(** The descriptor is no other channel's. *)
Definition slot r fd : Prop := channels_ r !! fd = None \/ channels_ r !! fd = Some p.

Lemma slot_intro r r' fd :
  reactor_inv r -> reactor_inv r' -> slot r fd ->
  (forall q c', q <> p -> chans r' !! q = Some c' -> addedToLoop_ c' = true -> fd_ c' = fd ->
    exists c, chans r !! q = Some c /\ addedToLoop_ c = true /\ fd_ c = fd) -> slot r' fd.
Proof.
  intros I I' Hs Hq. destruct (channels_ r' !! fd) as [q|] eqn:E; [right|by left].
  destruct (decide (q = p)) as [-> |Hne]; [done|]. exfalso.
  destruct (ri_map _ I' _ _ E) as (c' & Hc' & Hf' & Ha'). destruct (Hq q c' Hne Hc' Ha' Hf') as (c & Hc & Ha & Hf).
  assert (channels_ r !! fd_ c = Some q) as Hm.
  { apply (added_map r q c I Hc). intros Hi.
    destruct (ri_chan _ I _ _ Hc) as [_ [(_ & ? & _)|[(? & _)|(? & _)]]]; [congruence|lia|lia]. }
  rewrite Hf in Hm. destruct Hs; congruence.
Qed.

Lemma slot_same r r' fd :
  reactor_inv r -> reactor_inv r' -> (forall q, q <> p -> chans r' !! q = chans r !! q) -> slot r fd -> slot r' fd.
Proof. intros I I' Ho Hs. apply (slot_intro r r' fd I I' Hs). intros q c' Hne. rewrite Ho by done. eauto. Qed.

(** What a step may change besides the connection's channel: it closes its
    descriptor. *)
Record effect s s' r r' : Prop := mkEffect {
  ef_chans q : q <> p -> chans r' !! q = chans r !! q;
  ef_alive : alive r ⊆ alive r' ⊆ {[obj]} ∪ alive r;
  ef_fds : socketFd_ s' = socketFd_ s /\ kfds (epoll r') = kfds (epoll r) \/
    0 <= socketFd_ s /\ socketFd_ s' = -1 /\ kfds (epoll r') = kfds (epoll r) ∖ {[socketFd_ s]};
  ef_fd : fd_ (channel_ s') = fd_ (channel_ s)
}.

Lemma effect_none s s' r : socketFd_ s' = socketFd_ s -> fd_ (channel_ s') = fd_ (channel_ s) -> effect s s' r r.
Proof. split; [done|set_solver|auto|auto]. Qed.

Lemma effect_chain s1 s2 s3 r1 r2 r3 : effect s1 s2 r1 r2 -> effect s2 s3 r2 r3 -> effect s1 s3 r1 r3.
Proof.
  intros [C1 [A1 A1'] F1 N1] [C2 [A2 A2'] F2 N2]. split; [|set_solver| |congruence].
  - intros q Hq. by rewrite C2, C1.
  - destruct F1 as [[E1 K1]|(H1' & E1 & K1)], F2 as [[E2 K2]|(H2' & E2 & K2)]; rewrite ?E1, ?K1 in *;
      [left; split; congruence|right; split_and!; congruence|right; split_and!; congruence|lia].
Qed.

(** A step of the connection's code that is nothing to the poller. *)
Lemma quiet_link s s' r :
  socketFd_ s' = socketFd_ s -> channel_ s' = channel_ s -> (state_ s' = kDisconnected <-> state_ s = kDisconnected) ->
  link p obj s r -> link p obj s' r.
Proof. intros E1 E2 E3 [L1 L2 L3 L4 L5 L6]. split; rewrite ?E1, ?E2, ?E3; done. Qed.

(** A step of the poller that keeps the connection's channel. *)
Lemma frame_link s r r' c c' :
  link p obj s r -> fds_open r' -> chans r !! p = Some c -> chans r' !! p = Some c' ->
  view c c' -> tie_ c' = tie_ c -> (obj ∈ alive r -> obj ∈ alive r') ->
  (0 <= socketFd_ s -> socketFd_ s ∈ kfds (epoll r) -> socketFd_ s ∈ kfds (epoll r')) ->
  (0 <= socketFd_ s -> slot r (socketFd_ s) -> slot r' (socketFd_ s)) -> link p obj s r'.
Proof.
  intros [H1' H2' H3' H4' H5' H6'] Ho Hp Hp' Hv Ht Hal Hk Hs. split; try done.
  - destruct H2' as (d & Hd & Hvd & Htd). rewrite Hp in Hd. injection Hd as <-. exists c'. split; [done|].
    destruct Hv as (? & ? & ? & ? & E & Ec), Hvd as (? & ? & ? & ? & ? & Ec').
    split; [split_and!; congruence|]. rewrite E, Ht. intros Htied. destruct (Htd Htied). auto.
  - intros Hfd. destruct (H3' Hfd) as (? & ? & ?). split_and!; [done|by auto|by apply Hs].
Qed.

Lemma change_link s s' r ch :
  link p obj s r -> socketFd_ s' = socketFd_ s -> channel_ s' = channel_set ch (channel_ s) ->
  (state_ s' <> kDisconnected -> state_ s <> kDisconnected) ->
  (state_ s' = kDisconnected -> change_events ch (events_ (channel_ s)) = 0) ->
  exists r', channel_change r p ch = Ok r' /\ link p obj s' r' /\ effect s s' r r'.
Proof.
  intros L Efd Ech Hst Hz. pose proof L as [Hopen (c & Hp & Hv & Htie) Hfd Hcl Hal Hd]. pose proof Hopen as [I _].
  assert (change_events ch (events_ c) = 0 \/ 0 <= socketFd_ s) as Hcase.
  { destruct (decide (state_ s' = kDisconnected)) as [E|E]; [left|right; by auto].
    destruct Hv as (_ & -> & _). by apply Hz. }
  assert (fd_ c = fd_ (channel_ s)) as Ef by apply Hv.
  destruct (channel_change_open r p c ch Hopen Hp) as (r' & E & Hopen').
  { exists c. split; [done|]. destruct Hcase as [?|Hge]; [tauto|]. destruct (Hfd Hge) as (Hf & _ & Hs).
    rewrite Ef, Hf. tauto. }
  { intros d Hd'. rewrite Hp in Hd'. injection Hd' as <-. destruct Hcase as [?|Hge]; [tauto|].
    left. rewrite Ef. by destruct (Hfd Hge) as (-> & ? & _). }
  destruct (channel_change_view r p c ch r' Hp E) as (i & Hp').
  pose proof (channel_change_spec r p c ch I Hp) as Hspec. rewrite E in Hspec.
  destruct Hspec as [I' [(Hoth & _ & _ & Ea & _) _]].
  { destruct Hcase as [?|Hge]; [tauto|]. destruct (Hfd Hge) as (Hf & _ & Hs). rewrite Ef, Hf. tauto. }
  pose proof (channel_change_fds r p ch r' E) as Ek.
  exists r'. split; [done|].
  split; [|split; [done|rewrite Ea; set_solver|by left|rewrite Ech; unfold channel_set; by destruct (_ && _)]].
  split; rewrite ?Efd, ?Ech.
  - done.
  - exists (setIndex (channel_set ch c) i). split; [done|]. split; [by apply view_change|].
    rewrite Ea. unfold channel_set. by destruct (_ && _).
  - intros Hge. destruct (Hfd Hge) as (Hf & Hk & Hs). split; [|rewrite Ek; split; [done|]].
    + unfold channel_set. by destruct (_ && _).
    + by apply (slot_same r).
  - intros Hlt. specialize (Hcl Hlt). unfold channel_set, isNoneEvent. simpl. rewrite Hcl.
    destruct (Z.eqb_spec (change_events ch (events_ (channel_ s))) kNoneEvent) as [_|Hne]; [done|].
    destruct Hcase as [Hc0|?]; [|lia]. destruct Hv as (_ & He & _). rewrite He in Hc0. by rewrite Hc0 in Hne.
  - auto.
  - intros Hs'. specialize (Hz Hs'). unfold channel_set. by destruct (_ && _).
Qed.

Lemma tie_link s r :
  link p obj s r -> exists r', run_op p obj r OpTie = Ok r' /\ link p obj (c_tie s) r' /\ effect s (c_tie s) r r'.
Proof.
  intros L. pose proof L as [Hopen (c & Hp & Hv & Htie) Hfd Hcl Hal Hd].
  destruct (do_rop_ok r (RTie p obj) Hopen) as (r' & E & Hopen'); [by exists c|done|].
  exists r'. split; [done|]. simpl in E. rewrite Hp in E. cbn [deref mbind res_bind] in E. injection E as <-.
  split; [|split; try done; simpl; [intros q Hq; by rewrite lookup_insert_ne|set_solver|by left]].
  split; try done; simpl.
  exists (tie c obj). simpl. rewrite lookup_insert_eq. split; [done|].
  split; [by destruct Hv as (? & ? & ? & ? & ? & ?); split_and!|]. intros _. split; [done|set_solver].
Qed.

Lemma remove_link s r :
  link p obj s r -> state_ s = kDisconnected ->
  exists r', channel_remove r p = Ok r' /\ link p obj (c_remove s) r' /\ effect s (c_remove s) r r'.
Proof.
  intros [Hopen (c & Hp & Hv & Htie) Hfd Hcl Hal Hd] Hs. pose proof Hopen as [I Hof].
  assert (events_ c = 0) as He by (destruct Hv as (_ & -> & _); auto).
  destruct (channel_remove_spec r p c I Hp He) as (r1 & E & I1 & [Hon _] & _).
  pose proof Hon as (Hoth & _ & _ & Ea & _).
  destruct (channel_remove_view r p c r1 Hp E) as (i & Hp').
  pose proof (channel_remove_fds r p r1 E) as Ek.
  exists r1. split; [done|]. split; [|split; simpl; try done; [rewrite Ea; set_solver|by left]].
  split; simpl; try done.
  - by eapply (fds_open_change r r1 p).
  - eexists. split; [exact Hp'|]. split; [by apply view_drop|]. rewrite Ea. exact Htie.
  - intros Hge. destruct (Hfd Hge) as (Hf & Hk & Hslot). rewrite Ek. split_and!; try done. by apply (slot_same r).
Qed.

Lemma close_link s r :
  link p obj s r -> state_ s = kDisconnected -> addedToLoop_ (channel_ s) = false ->
  exists os r', chan_ops (closeSocket s) = chan_ops s ++ os /\ run_ops p obj r os = Ok r' /\
    link p obj (closeSocket s) r' /\ effect s (closeSocket s) r r'.
Proof.
  intros L Hs Hadd. pose proof L as [Hopen (c & Hp & Hv & Htie) Hfd _ _ Hd].
  unfold closeSocket. destruct (Z.leb_spec 0 (socketFd_ s)) as [Hge|Hlt].
  - destruct (Hfd Hge) as (Hf & Hk & Hslot).
    assert (channels_ r !! socketFd_ s = None) as Hnone.
    { destruct Hslot as [?|Hx]; [done|]. destruct (ri_map _ (proj1 Hopen) _ _ Hx) as (d & Hd1 & _ & Ha).
      rewrite Hp in Hd1. injection Hd1 as <-. destruct Hv as (_ & _ & _ & Ea & _). congruence. }
    exists [OpClose (socketFd_ s)], (set_epoll r (sys_close (epoll r) (socketFd_ s))).
    split; [done|]. split; [done|].
    split; [split; simpl; try done; try lia; [by apply fds_open_sys_close|by exists c]|].
    split; simpl; try done; [set_solver|]. right. by rewrite close_fds.
  - exists [], r. rewrite app_nil_r. split_and!; try done. by apply effect_none.
Qed.

Lemma prim_link s s' r :
  prim s s' -> link p obj s r ->
  exists os r', chan_ops s' = chan_ops s ++ os /\ run_ops p obj r os = Ok r' /\ link p obj s' r' /\ effect s s' r r'.
Proof.
  intros [s1 E1 E2 E3 E4|st Hs Hst| |ch Hs| |Hs|Hs Ha] L.
  - exists [], r. rewrite app_nil_r. split_and!; try done; [by apply (quiet_link s); rewrite ?E1|]. apply effect_none; congruence.
  - exists [], r. rewrite app_nil_r. split_and!; try done; [by apply (quiet_link s)|by apply effect_none].
  - destruct (change_link s (dead s) r DisableAll L) as (r' & E & L' & Ef); try done.
    exists [OpChange DisableAll], r'. cbn [run_ops run_op]. by rewrite E.
  - destruct (change_link s (channel_do ch s) r ch L) as (r' & E & L' & Ef); try done.
    exists [OpChange ch], r'. cbn [run_ops run_op]. by rewrite E.
  - destruct (tie_link s r L) as (r' & E & L' & Ef). exists [OpTie], r'. cbn [run_ops]. by rewrite E.
  - destruct (remove_link s r L Hs) as (r' & E & L' & Ef). exists [OpRemove], r'. cbn [run_ops run_op]. by rewrite E.
  - by apply close_link.
Qed.

Lemma run_ops_app r os1 os2 : run_ops p obj r (os1 ++ os2) = (r1 ← run_ops p obj r os1; run_ops p obj r1 os2).
Proof.
  revert r. induction os1 as [|o os IH]; intros r; cbn [app run_ops]; [done|].
  destruct (run_op p obj r o); cbn [mbind res_bind]; [apply IH|done].
Qed.

Lemma prims_link s s' r :
  prims s s' -> link p obj s r ->
  exists os r', chan_ops s' = chan_ops s ++ os /\ run_ops p obj r os = Ok r' /\ link p obj s' r' /\ effect s s' r r'.
Proof.
  intros Hp. revert r. induction Hp as [s|s s1 s2 Hp _ IH]; intros r L.
  - exists [], r. rewrite app_nil_r. split_and!; try done. by apply effect_none.
  - destruct (prim_link s s1 r Hp L) as (os1 & r1 & E1 & R1 & L1 & F1).
    destruct (IH r1 L1) as (os2 & r2 & E2 & R2 & L2 & F2). exists (os1 ++ os2), r2.
    rewrite run_ops_app, R1, E2, E1, app_assoc. split_and!; try done. by eapply effect_chain.
Qed.

(** A member function on the poller. *)
Lemma lift_spec (f : Conn B -> res (Conn B)) w s' :
  link p obj (conn w) (reactor w) -> f (conn w) = Ok s' -> prims (conn w) s' ->
  exists r', lift p obj f w = Ok (mkHosted s' r') /\ link p obj s' r'.
Proof.
  intros L E Hp. destruct (prims_link _ _ _ Hp L) as (os & r' & Eo & R & L' & _).
  exists r'. split; [|done]. unfold lift. rewrite E. cbn [mbind res_bind]. rewrite Eo, drop_app_length, R. done.
Qed.
(** *** The poller's dispatch *)
Lemma fds_open_same r r' :
  fds_open r -> chans r' = chans r -> channels_ r' = channels_ r -> epoll r' = epoll r ->
  kInitEventListSize <= evsize r' -> fds_open r'.
Proof. intros [I Ho] Ec Em Ek Hs. split; [by apply (inv_ext r)|]. by rewrite Ec, Ek. Qed.

Lemma fds_open_fields r q c c' :
  fds_open r -> chans r !! q = Some c -> same_reg c c' -> fds_open (set_chan r q c').
Proof.
  intros [I Ho] Hq Hs. split; [by eapply inv_fields|]. simpl. intros x d. rewrite lookup_insert.
  case_decide as E; [|apply Ho]. intros [= <-]. destruct Hs as (-> & _ & _ & ->). by apply (Ho q).
Qed.

Lemma log_link s r k : link p obj s r -> link p obj s (log_cbk r p k).
Proof.
  intros L. pose proof L as [Hopen (c & Hp & _) _ _ _ _]. eapply (frame_link s r _ c c); try done.
  eapply fds_open_same; try done. apply (ri_size _ (proj1 Hopen)).
Qed.

Lemma handling_link s r b :
  link p obj s r -> exists c, chans r !! p = Some c /\ link p obj s (set_chan r p (set_handling c b)).
Proof.
  intros L. pose proof L as [Hopen (c & Hp & _) _ _ _ _]. exists c. split; [done|].
  eapply (frame_link s r _ c (set_handling c b)); try done.
  - by eapply fds_open_fields.
  - simpl. by rewrite lookup_insert_eq.
Qed.

Lemma view_selected c c' k : view c c' -> selected c' k = selected c k.
Proof. intros (_ & _ & Hr & _ & _ & [= E1 E2 E3 E4]). unfold selected. by rewrite Hr, E1, E2, E3, E4. Qed.

(** The poller reports the channel. *)
Lemma poll_link s r revents :
  link p obj s r -> wait_ok r [(revents, p)] ->
  events_ (channel_ s) <> 0 /\
  exists r', poll r (WEvents [(revents, p)]) = Ok ([p], r') /\
    link p obj (set_channel s (setRevents (channel_ s) revents)) r'.
Proof.
  intros L Hw. pose proof L as [Hopen (c & Hp & Hv & Htie) Hfd Hcl Hal Hd]. pose proof Hopen as [I Hof].
  assert (events_ (channel_ s) <> 0) as Hne.
  { destruct Hw as (_ & _ & [(fd & e & Hi & _) _]%Forall_cons). simpl in Hi.
    destruct (ri_map _ I _ _ (ri_int _ I _ _ _ Hi)) as (d & Hd1 & Hf & Ha). rewrite Hp in Hd1. injection Hd1 as <-.
    destruct Hv as (_ & <- & _). subst fd.
    destruct (ri_chan _ I _ _ Hp) as [_ [(_ & ? & _)|[(_ & _ & ? & _)|(_ & _ & _ & _ & ?)]]]; congruence. }
  split; [done|]. destruct (poll_spec r _ I Hw) as (r' & E & I' & Hoth & Hev & _ & _ & _ & Ea).
  pose proof (poll_epoll _ _ _ _ E) as Ek. cbn [fmap list_fmap snd] in *.
  destruct (Hev revents p) as (c0 & Hc0 & Hp' & _); [by left|]. rewrite Hp in Hc0. injection Hc0 as <-.
  assert (forall q, q <> p -> chans r' !! q = chans r !! q) as Ho'.
  { intros q Hq. apply Hoth. by intros ->%list_elem_of_singleton. }
  exists r'. split; [done|]. split; simpl; try done.
  - split; [done|]. rewrite Ek. intros q d Hq Ha. destruct (decide (q = p)) as [-> |Hqp].
    + rewrite Hp' in Hq. injection Hq as <-. by apply (Hof p c).
    + rewrite Ho' in Hq by done. by apply (Hof q).
  - exists (setRevents c revents). split; [done|]. rewrite Ea. split; [|exact Htie].
    by destruct Hv as (? & ? & ? & ? & ? & ?); split_and!.
  - intros Hge. destruct (Hfd Hge) as (? & ? & ?). rewrite Ek. split_and!; try done. by apply (slot_same r).
Qed.

Section dispatch.
Context (cb : Conn B -> res (Conn B)) (Hcb : forall s s', cb s = Ok s' -> prims s s').
Context (readv : list Z -> Z + list byte) (msg : list cact).
Abbreviation run := (fun (w : Hosted B K) (_ : Z) k => lift p obj (fun s => do_callback cb readv msg s k) w).

Lemma callbacks_link ks s r s' :
  link p obj s r -> handleEvents cb readv msg ks s = Ok s' ->
  exists r', foldl (fun rw k => try_callback run rw p k) (Ok (mkHosted s r)) ks = Ok (mkHosted s' r') /\ link p obj s' r'.
Proof.
  revert s r. induction ks as [|k ks IH]; intros s r L E; cbn [handleEvents foldl] in *.
  { injection E as <-. by exists r. }
  apply bind_Ok_inv in E as (s1 & E1 & E). pose proof L as [_ (c & Hp & Hv & _) _ _ _ _].
  unfold try_callback at 2. cbn [mbind res_bind get hosted_part reactor]. rewrite Hp. cbn [deref mbind res_bind].
  rewrite (view_selected _ _ k Hv).
  change (modify (fun r0 => log_cbk r0 p k) (mkHosted s r)) with (mkHosted s (log_cbk r p k)).
  destruct (selected (channel_ s) k).
  - destruct (lift_spec (fun s => do_callback cb readv msg s k) (mkHosted s (log_cbk r p k)) s1) as (r1 & -> & L1).
    + by apply log_link.
    + done.
    + by eapply do_callback_prims.
    + by apply IH.
  - injection E1 as <-. by apply IH.
Qed.

(** [Channel::handleEvent] on the poller is the connection's own. *)
Lemma handleEvent_link s r s' :
  link p obj s r -> handleEvents cb readv msg all_cbks s = Ok s' ->
  exists r', handle_active run (mkHosted s r) [p] = Ok (mkHosted s' r') /\ link p obj s' r'.
Proof.
  intros L E. destruct (handling_link s r true L) as (c & Hp & L1).
  destruct (callbacks_link all_cbks s _ s' L1 E) as (r2 & E2 & L2).
  destruct (handling_link s' r2 false L2) as (c2 & Hp2 & L3).
  exists (set_chan r2 p (set_handling c2 false)). split; [|done].
  assert (handleEventWithGuard run (mkHosted s r) p = Ok (mkHosted s' (set_chan r2 p (set_handling c2 false)))) as Eg.
  { unfold handleEventWithGuard. cbn [get hosted_part reactor]. rewrite Hp. cbn [deref mbind res_bind].
    change (modify (fun r0 => set_chan r0 p (set_handling c true)) (mkHosted s r))
      with (mkHosted s (set_chan r p (set_handling c true))).
    rewrite E2. cbn [mbind res_bind get hosted_part reactor]. rewrite Hp2. done. }
  cbn [handle_active]. unfold handleEvent. cbn [get hosted_part reactor]. rewrite Hp. cbn [deref mbind res_bind].
  destruct (tied_ c) eqn:Ht; [|by rewrite Eg].
  assert (tie_lock r c = true) as ->; [|by rewrite Eg].
  destruct L as [_ (d & Hd & _ & Htie) _ _ _ _]. rewrite Hp in Hd. injection Hd as <-.
  destruct (Htie Ht) as [Et Ha]. unfold tie_lock. rewrite Et. by apply bool_decide_eq_true.
Qed.
End dispatch.

(** *** An event of the connection *)
Lemma run_hevent_spec w ev e s' :
  link p obj (conn w) (reactor w) -> hstep_ok p obj w (HConn ev e) -> run_event (conn w) ev e = Ok s' ->
  exists r', run_hevent p obj w ev e = Ok (mkHosted s' r') /\ link p obj s' r'.
Proof.
  intros L Hok E.
  assert (match ev with EvPoll _ _ => False | _ => True end ->
    exists r', lift p obj (fun s => run_event s ev e) w = Ok (mkHosted s' r') /\ link p obj s' r') as Hl.
  { intros Hev. apply lift_spec; [done|done|]. by eapply run_event_prims. }
  destruct ev as [|revents readv|i|acts|]; try (by apply Hl). clear Hl.
  destruct Hok as [Hw _]. cbn [run_hevent]. cbv zeta.
  assert (link p obj (set_env (conn w) e) (reactor w)) as L0 by (by apply (quiet_link (conn w))).
  destruct (poll_link _ _ revents L0 Hw) as (_ & r1 & -> & L1). cbn [mbind res_bind].
  apply handleEvent_link; [apply user_conn_cb_prims|done|exact E].
Qed.

(** *** The rest of the program *)
Lemma do_rop_alive r o r' :
  reactor_inv r -> pre r o -> do_rop r o = Ok r' ->
  alive r' = match o with RTie _ x => {[x]} ∪ alive r | RDrop x => alive r ∖ {[x]} | _ => alive r end.
Proof.
  intros I Hpre E. destruct o as [q fd rd wr cl er|q ch|q ob|q|q|ob]; simpl in *; try (by injection E as <-).
  - destruct Hpre as (d & Hq & Hown). pose proof (channel_change_spec r q d ch I Hq Hown) as Hs. rewrite E in Hs.
    by destruct Hs as [_ [(_ & _ & _ & -> & _) _]].
  - destruct (chans r !! q); [|done]. cbn [deref mbind res_bind] in E. by injection E as <-.
  - destruct Hpre as (d & Hq & He). destruct (channel_remove_spec r q d I Hq He) as (r1 & E1 & _ & [(_ & _ & _ & Ea & _) _] & _).
    rewrite E in E1. by injection E1 as <-.
  - destruct (chans r !! q); [|done]. cbn [deref mbind res_bind] in E. by injection E as <-.
Qed.

(** A channel in the loop afterwards was there, or has just been registered. *)
Lemma do_rop_added r o r' q d :
  reactor_inv r -> pre r o -> do_rop r o = Ok r' -> chans r' !! q = Some d -> addedToLoop_ d = true ->
  exists c, chans r !! q = Some c /\ fd_ c = fd_ d /\ (addedToLoop_ c = true \/ exists ch, o = RChange q ch).
Proof.
  intros I Hpre E Hd Ha. destruct (decide (rop_on o = Some q)) as [Ho|Ho].
  2: { destruct (do_rop_frame r o r' q I Hpre E Ho) as [Eq _]. rewrite Eq in Hd. eauto. }
  destruct o as [x fd rd wr cl er|x ch|x ob|x|x|ob]; simpl in *; try injection Ho as ->.
  - injection E as <-. simpl in Hd. rewrite lookup_insert_eq in Hd. by injection Hd as <-.
  - destruct Hpre as (c & Hq & Hown). pose proof (channel_change_spec r q c ch I Hq Hown) as Hsp. rewrite E in Hsp.
    destruct Hsp as [_ [_ (d' & Hd' & _ & (Hf & _))]]. rewrite Hd in Hd'. injection Hd' as <-. exists c. eauto.
  - destruct (chans r !! q) as [c|] eqn:Hq; [|done]. cbn [deref mbind res_bind] in E. injection E as <-.
    simpl in Hd. rewrite lookup_insert_eq in Hd. injection Hd as <-. exists c. eauto.
  - destruct Hpre as (c & Hq & He). destruct (channel_remove_view r q c r' Hq E) as (i & Hd').
    rewrite Hd in Hd'. by injection Hd' as ->.
  - destruct (chans r !! q) as [c|] eqn:Hq; [|done]. cbn [deref mbind res_bind] in E. injection E as <-.
    simpl in Hd. by rewrite lookup_delete_eq in Hd.
  - done.
Qed.

Lemma other_link w o :
  link p obj (conn w) (reactor w) -> hstep_ok p obj w (HOther o) ->
  exists r', do_rop (reactor w) o = Ok r' /\ link p obj (conn w) r'.
Proof.
  destruct w as [s r]. cbn [conn reactor hstep_ok]. intros L (Hpre & Hop & Hon & Hdrop & Hfree).
  pose proof L as [Hopen (c & Hp & Hv & _) _ _ _ _]. pose proof Hopen as [I _].
  destruct (do_rop_ok r o Hopen Hpre Hop) as (r' & E & Hopen'). exists r'. split; [done|].
  destruct (do_rop_frame r o r' p I Hpre E Hon) as [Ep Ek]. pose proof Hopen' as [I' _].
  eapply (frame_link s r r' c c); try done; [congruence| |by rewrite Ek|].
  { rewrite (do_rop_alive r o r' I Hpre E). destruct o; set_solver. }
  intros Hge Hs. apply (slot_intro r r' _ I I' Hs). intros q c' Hne Hc' Ha' Hf'.
  destruct (do_rop_added r o r' q c' I Hpre E Hc' Ha') as (d & Hd & Ef & [?|[ch ->]]); [exists d; split_and!; congruence|].
  exfalso. apply (Hfree q ch d); congruence.
Qed.
End follow.

(** ** A connection's life in a loop *)
Section life.
Context {B K : Type} `{ByteQueue B} `{KernelLaws K} (p obj : Z).
Implicit Types (w : Hosted B K).

Lemma host_new_link (r : Reactor K) fd hw b1 b2 b3 b4 b5 :
  fds_open r -> chans r !! p = None -> 0 <= fd -> fd ∈ kfds (epoll r) -> channels_ r !! fd = None ->
  exists r', host_new p r fd hw b1 b2 b3 b4 b5 = Ok (mkHosted (TcpConnection_new (B := B) fd hw b1 b2 b3 b4 b5) r') /\
    link p obj (TcpConnection_new (B := B) fd hw b1 b2 b3 b4 b5) r'.
Proof.
  intros Hopen Hp Hfd Hk Hslot.
  destruct (do_rop_ok r (RNew p fd true true true true) Hopen Hp) as (r' & E & Hopen'); [done|].
  exists r'. unfold host_new. rewrite E. split; [done|]. injection E as <-. split; simpl; try done.
  - eexists. rewrite lookup_insert_eq. by split_and!.
  - intros _. split_and!; try done. by left.
Qed.

(** A connection that is down is closed, or will be by the functor its close
    callback posted. *)
Definition will_close (s : Conn B) : Prop :=
  hasCloseCallback s = true -> state_ s = kDisconnected -> 1 <= destroys s \/ socketFd_ s < 0.

Record closing (s s' : Conn B) : Prop := mkClosing {
  cl_callback : hasCloseCallback s' = hasCloseCallback s;
  cl_closed : socketFd_ s < 0 -> socketFd_ s' < 0;
  cl_will : will_close s -> will_close s'
}.

Lemma no_destroy (s : Conn B) : FDestroyed ∉ posted s -> destroys s = 0.
Proof.
  unfold destroys. induction (posted s) as [|f l IH]; [done|]. intros [Hf Hl]%not_elem_of_cons. simpl.
  rewrite IH by done. destruct f; try done.
Qed.

Lemma run_event_closing (s : Conn B) ev e s' :
  conn_inv s -> ev_ok s ev -> run_event s ev e = Ok s' ->
  closing s s' /\ (ev = EvDestroy -> socketFd_ s' < 0).
Proof.
  intros I Hev E. destruct (run_event_life s ev e s' I Hev E) as [Hcc Hl].
  destruct (teardown s ev) eqn:Ht.
  - destruct Hl as (_ & [Hfd _] & _). split; [|done]. split; try done. intros _ _ _. by right.
  - destruct Hl as (Hd & Hfd & Hds & _). split; [|by intros ->]. split; [done|congruence|].
    intros W Hc Hs. rewrite Hcc in Hc. rewrite Hc in Hds. pose proof (destroys_nonneg s).
    assert (downs s' = 1) as Hd' by (unfold downs, is_state; by rewrite bool_decide_eq_true_2).
    destruct (decide (state_ s = kDisconnected)) as [Hs0|Hs0].
    + assert (downs s = 1) as Hd0 by (unfold downs, is_state; by rewrite bool_decide_eq_true_2).
      rewrite Hfd. destruct (W Hc Hs0); [left; lia|by right].
    + rewrite (downs_alive s Hs0) in Hds. left. lia.
Qed.

Lemma hstep_spec w st :
  conn_inv (conn w) -> link p obj (conn w) (reactor w) -> hstep_ok p obj w st ->
  budget (conn w) (evs_cost (conn_events [st])) ->
  exists w', run_hstep p obj w st = Ok w' /\ run_events (conn w) (conn_events [st]) = Ok (conn w') /\
    conn_inv (conn w') /\ link p obj (conn w') (reactor w') /\
    pot (conn w') <= pot (conn w) + evs_cost (conn_events [st]) /\
    closing (conn w) (conn w') /\ (forall e, st = HConn EvDestroy e -> socketFd_ (conn w') < 0).
Proof.
  intros I L Hok Hb. destruct st as [ev e|o|fd|fd]; cbn [run_hstep conn_events omap list_omap] in *.
  - assert (ev_ok (conn w) ev) as Hev.
    { destruct ev as [|revents readv|i|acts|]; try done. destruct Hok as [Hw Hr]. split; [|done].
      by eapply poll_link. }
    assert (evs_cost [(ev, e)] = ev_cost ev e) as Ec by (unfold evs_cost; simpl; lia). rewrite Ec in *.
    destruct (run_event_evolve (conn w) ev e I Hev Hb) as (s' & E & Ev).
    destruct (run_hevent_spec p obj w ev e s' L Hok E) as (r' & E' & L').
    destruct (run_event_closing _ ev e s' I Hev E) as [Hcl Hde].
    exists (mkHosted s' r'). cbn [run_events]. rewrite E. split_and!; try done; try apply Ev.
    intros e' [= -> _]. by apply Hde.
  - destruct (other_link p obj w o L Hok) as (r' & E & L'). eexists. rewrite E. split; [done|].
    split_and!; try done. unfold evs_cost. simpl. lia.
  - eexists. split; [done|]. split_and!; try done; [|unfold evs_cost; simpl; lia].
    pose proof L as [Hopen (c & Hp & _) _ _ _ _]. eapply (frame_link p obj _ (reactor w) _ c c); try done.
    + by apply fds_open_sys_open.
    + simpl. rewrite open_fds. set_solver.
  - eexists. split; [done|]. split_and!; try done; [|unfold evs_cost; simpl; lia].
    destruct Hok as [Hne Hslot]. pose proof L as [Hopen (c & Hp & _) _ _ _ _].
    eapply (frame_link p obj _ (reactor w) _ c c); try done.
    + by apply fds_open_sys_close.
    + simpl. rewrite close_fds. set_solver.
Qed.

Lemma conn_events_cons st sts : conn_events (st :: sts) = conn_events [st] ++ conn_events sts.
Proof. by destruct st. Qed.

Lemma evs_cost_app l1 l2 : evs_cost (l1 ++ l2) = evs_cost l1 + evs_cost l2.
Proof. unfold evs_cost. induction l1 as [|x l IH]; simpl; lia. Qed.

Lemma run_events_app (s : Conn B) l1 l2 : run_events s (l1 ++ l2) = (s1 ← run_events s l1; run_events s1 l2).
Proof.
  revert s. induction l1 as [|[ev e] l IH]; intros s; cbn [app run_events]; [done|].
  destruct (run_event s ev e); cbn [mbind res_bind]; [apply IH|done].
Qed.

Lemma hsteps_spec w sts :
  conn_inv (conn w) -> link p obj (conn w) (reactor w) -> hsteps_ok p obj w sts ->
  budget (conn w) (evs_cost (conn_events sts)) ->
  exists w', run_hsteps p obj w sts = Ok w' /\ run_events (conn w) (conn_events sts) = Ok (conn w') /\
    conn_inv (conn w') /\ link p obj (conn w') (reactor w') /\ closing (conn w) (conn w') /\
    (forall e, HConn EvDestroy e ∈ sts -> socketFd_ (conn w') < 0).
Proof.
  revert w. induction sts as [|st sts IH]; intros w I L Hok Hb; cbn [run_hsteps].
  { exists w. split_and!; try done. by intros e ?%not_elem_of_nil. }
  destruct Hok as [Hst Hok]. rewrite conn_events_cons, evs_cost_app in Hb.
  assert (forall l, 0 <= evs_cost l) as Hnn.
  { intros l. apply sum_cost_nonneg. intros [ev e]. apply ev_cost_nonneg. }
  pose proof (Hnn (conn_events [st])). pose proof (Hnn (conn_events sts)).
  destruct (hstep_spec w st I L Hst) as (w1 & E1 & R1 & I1 & L1 & P1 & [C1 F1 W1] & D1).
  { eapply budget_weaken; [|exact Hb]. lia. }
  destruct (IH w1 I1 L1 (Hok w1 E1)) as (w2 & E2 & R2 & I2 & L2 & [C2 F2 W2] & D2).
  { eapply budget_weaken; [|exact Hb]. lia. }
  exists w2. rewrite E1, conn_events_cons, run_events_app, R1. split_and!; try done.
  - split; [congruence|auto|auto].
  - intros e [<- |Hin]%elem_of_cons; [|by eapply D2]. by eapply F2, D1.
Qed.

(** What the connection wants of the poller. *)
Definition wanted (s : Conn B) : Z :=
  if bool_decide (out_bytes s = []) then kReadEvent else Z.lor kReadEvent kWriteEvent.

Lemma wanted_events s : conn_inv s -> is_open s = true -> events_ (channel_ s) = wanted s.
Proof.
  intros I Ho. pose proof (writing_out s I Ho) as Hw. destruct (ci_channel _ I) as (Hm & _ & Hrw).
  assert (isReading (channel_ s) = true) as Hr.
  { apply is_open_spec in Ho as [E|E]; rewrite E in Hrw; by destruct Hrw. }
  unfold wanted, isReading, isWriting in *. unfold mask_ok in Hm. rewrite !elem_of_cons, elem_of_nil in Hm.
  repeat case_bool_decide; try tauto; destruct Hm as [E|[E|[E|[E|[]]]]]; rewrite E in *; done.
Qed.

Lemma watched w :
  conn_inv (conn w) -> link p obj (conn w) (reactor w) ->
  if is_open (conn w) then
    0 <= socketFd_ (conn w) /\ socketFd_ (conn w) ∈ kfds (epoll (reactor w)) /\
    interest (epoll (reactor w)) !! socketFd_ (conn w) = Some (wanted (conn w), p)
  else forall fd e, interest (epoll (reactor w)) !! fd <> Some (e, p).
Proof.
  intros I [[Ir _] (c & Hp & (Hf & He & _) & _) Hfd _ Hal Hd]. destruct (is_open (conn w)) eqn:Ho.
  - assert (0 <= socketFd_ (conn w)) as Hge by (apply Hal; intros E; unfold is_open, is_state in Ho; by rewrite E in Ho).
    destruct (Hfd Hge) as (Hf' & Hk & _). split_and!; try done. rewrite <- Hf', <- Hf.
    pose proof (wanted_events _ I Ho) as Hw.
    assert (events_ c <> 0) as Hne by (rewrite He, Hw; unfold wanted; by case_bool_decide).
    destruct (ri_chan _ Ir _ _ Hp) as [_ [(_ & _ & ?)|[(_ & _ & _ & _ & Hi)|(_ & _ & ? & _)]]]; [done| |done].
    by rewrite Hi, He, Hw.
  - intros fd e Hi. destruct (ri_map _ Ir _ _ (ri_int _ Ir _ _ _ Hi)) as (d & Hd1 & Hfd1 & _).
    rewrite Hp in Hd1. injection Hd1 as <-. assert (events_ c = 0) as Hz.
    { rewrite He. destruct (ci_channel _ I) as (_ & _ & Hst). unfold is_open, is_state in Ho.
      destruct (state_ (conn w)); try done. by destruct Hst. }
    subst fd. destruct (ri_chan _ Ir _ _ Hp) as [_ [(_ & Ha & _)|[(_ & _ & ? & _)|(_ & _ & _ & _ & Hn)]]]; [|done|congruence].
    destruct (ri_map _ Ir _ _ (ri_int _ Ir _ _ _ Hi)) as (d & Hd1 & _ & Ha1). congruence.
Qed.

Lemma host_delete_spec w :
  link p obj (conn w) (reactor w) -> socketFd_ (conn w) < 0 ->
  exists r', host_delete p obj w = Ok r' /\ fds_open r' /\ chans r' !! p = None /\ unreferenced r' p.
Proof.
  destruct w as [s r]. cbn [conn reactor]. intros [Hopen (c & Hp & (_ & _ & _ & Ha & _) & _) _ Hcl Hal _] Hlt.
  rewrite Hcl in Ha by done.
  assert (state_ s = kDisconnected) as Hs.
  { destruct (decide (state_ s = kDisconnected)); [done|]. specialize (Hal ltac:(done)). lia. }
  unfold host_delete. cbn [conn reactor].
  destruct (do_rop_ok r (RDrop obj) Hopen) as (r1 & E1 & Hopen1); [done..|]. rewrite E1. cbn [mbind res_bind].
  injection E1 as <-. set (r1 := set_alive r (alive r ∖ {[obj]})) in *.
  assert (TcpConnection_delete s = Ok s) as Ed.
  { unfold TcpConnection_delete, is_state, closeSocket. rewrite bool_decide_eq_true_2 by done.
    destruct (Z.leb_spec 0 (socketFd_ s)); [lia|done]. }
  unfold lift. cbn [conn reactor]. rewrite Ed. cbn [mbind res_bind]. rewrite drop_all. cbn [run_ops mbind res_bind].
  cbn [reactor]. change (chans r1) with (chans r). rewrite Hp. cbn [deref mbind res_bind]. rewrite Ha.
  destruct (do_rop_ok r1 (RDelete p) Hopen1) as (r2 & E2 & Hopen2); [by exists c|done|].
  exists r2. split_and!; try done.
  - simpl in E2. rewrite Hp in E2. injection E2 as <-. simpl. apply lookup_delete_eq.
  - pose proof (not_added_unreferenced r p c (proj1 Hopen) Hp Ha) as [Hu1 Hu2].
    simpl in E2. rewrite Hp in E2. by injection E2 as <-.
Qed.
End life.

(** ** Properties *)
Section properties.
Context {B K : Type} `{ByteQueue B} `{KernelLaws K}.

(** C3: a connection in the poller of a loop, among any other channels and
    descriptors, through any history.  Its calls into the poller and the kernel
    never fail, each of its events does what TcpConnection.v says (which has
    no poller), and the poller's invariants hold.  While the connection is open
    the kernel watches its descriptor for reading, and for writing exactly when
    there is output left; otherwise nothing is reported to its channel.  Once
    the socket is closed nothing refers to the channel, and deleting the
    connection leaves none of it behind.  And it is closed once the server has
    destroyed it, or the functor of its close callback has run. *)
Theorem tcp_on_poller (p obj : Z) (r : Reactor K) fd hw b1 b2 b3 b4 b5 sts w0 :
  fds_open r -> chans r !! p = None -> 0 <= fd -> fd ∈ kfds (epoll r) -> channels_ r !! fd = None ->
  host_new p r fd hw b1 b2 b3 b4 b5 = Ok w0 -> hsteps_ok p obj w0 sts ->
  budget (TcpConnection_new (B := B) fd hw b1 b2 b3 b4 b5) (evs_cost (conn_events sts)) ->
  exists w, run_hsteps p obj w0 sts = Ok w /\
    run_events (TcpConnection_new (B := B) fd hw b1 b2 b3 b4 b5) (conn_events sts) = Ok (conn w) /\
    fds_open (reactor w) /\
    (if is_open (conn w) then
       0 <= socketFd_ (conn w) /\ socketFd_ (conn w) ∈ kfds (epoll (reactor w)) /\
       interest (epoll (reactor w)) !! socketFd_ (conn w) = Some (wanted (conn w), p)
     else forall fd' e, interest (epoll (reactor w)) !! fd' <> Some (e, p)) /\
    (socketFd_ (conn w) < 0 -> unreferenced (reactor w) p /\
       exists r', host_delete p obj w = Ok r' /\ fds_open r' /\ chans r' !! p = None /\ unreferenced r' p) /\
    ((exists e, HConn EvDestroy e ∈ sts) \/
     b5 = true /\ state_ (conn w) = kDisconnected /\ (FDestroyed ∉ posted (conn w)) -> socketFd_ (conn w) < 0).
Proof.
  intros Hopen Hp Hfd Hk Hslot E0 Hok Hb.
  destruct (host_new_link (B := B) p obj r fd hw b1 b2 b3 b4 b5 Hopen Hp Hfd Hk Hslot) as (r0 & E & L).
  rewrite E in E0. injection E0 as <-.
  destruct (hsteps_spec p obj (mkHosted _ r0) sts (conn_inv_new fd hw b1 b2 b3 b4 b5 Hfd) L Hok Hb) as (w & Er & Ee & I & L' & [Cc _ Cw] & Cd).
  exists w. split_and!; [done|done|apply L'|by apply watched with obj| |].
  - intros Hlt. split; [|by apply host_delete_spec].
    pose proof L' as [[Ir _] (c & Hp' & (_ & _ & _ & Ha & _) & _) _ Hcl _ _].
    apply (not_added_unreferenced _ _ c Ir Hp'). rewrite Ha. by apply Hcl.
  - intros [[e He]|(-> & Hs & Hno)]; [by eapply Cd|].
    destruct Cw as [Hd|?]; [by intros _ ?|done|done| |done]. by apply no_destroy in Hno; lia.
Qed.
End properties.

(** ** A history

    The connection has descriptor 7 and its channel address 100; another
    channel, at 200 on descriptor 9, comes and goes, and so does descriptor 11.
    The connection sends two bytes, of which the kernel takes one; data comes,
    the user shuts down; the rest is written; the server destroys it. *)
Definition ex_kernel : SimKernel.kern := SimKernel.mkKern (<[7 := None]> (<[9 := None]> ∅)).
Definition ex_start : Reactor SimKernel.kern := Reactor_new ex_kernel.
Definition ex_new : Hosted Buffer SimKernel.kern :=
  mkHosted sample_new (set_chan ex_start 100 (set_callbacks (Channel_new 7) true true true true)).
Definition ex_history : list hstep :=
  [HOther (RNew 200 9 true false false false); HOther (RChange 200 EnableReading);
   HConn EvEstablish sample_establish.2;
   HConn (EvPoll EPOLLIN sample_readv) (mkEnv [] 0 [] [CRetrieve 1; CShutdown] []);
   HOpen 11; HConn (EvPoll EPOLLOUT no_read) (writable 5).2;
   HClose 11; HOther (RChange 200 DisableAll); HOther (RRemove 200);
   HConn EvDestroy (mkEnv [] 0 [] [] [])].

Lemma wait_ok_one (r : Reactor SimKernel.kern) revents p fd e :
  1 <= evsize r -> interest (epoll r) !! fd = Some (e, p) ->
  Z.land revents (Z.lnot (Z.lor e (Z.lor EPOLLERR EPOLLHUP))) = 0 -> wait_ok r [(revents, p)].
Proof.
  intros Hs Hi Hr. split; [done|]. split; [apply NoDup_singleton|]. apply Forall_singleton. by exists fd, e.
Qed.

Lemma ex_history_ok : hsteps_ok 100 1 ex_new ex_history.
Proof.
  assert (forall r o, bool_decide (pre r o /\ opened r o /\ rop_on o <> Some 100) = true ->
    o <> RDrop 1 -> (forall q ch c, o = RChange q ch -> chans r !! q = Some c -> 0 <= 7 -> fd_ c <> 7) ->
    pre r o /\ opened (K := SimKernel.kern) r o /\ rop_on o <> Some 100 /\ o <> RDrop 1 /\
    forall q ch c, o = RChange q ch -> chans r !! q = Some c -> 0 <= 7 -> fd_ c <> 7) as Hother.
  { intros r o (H1 & H2 & H3)%bool_decide_eq_true ? ?. by split_and!. }
  split; [|intros w E; vm_compute in E; injection E as <-].
  { apply Hother; [by vm_compute|done|done]. }
  split; [|intros w E; vm_compute in E; injection E as <-].
  { apply Hother; [by vm_compute|done|]. intros q ch c [= <- _] Hc. vm_compute in Hc. by injection Hc as <-. }
  split; [done|intros w E; vm_compute in E; injection E as <-].
  split; [|intros w E; vm_compute in E; injection E as <-].
  { split; [|exact sample_readv_ok]. by apply (wait_ok_one _ _ _ 7 7). }
  split; [by vm_compute|intros w E; vm_compute in E; injection E as <-].
  split; [|intros w E; vm_compute in E; injection E as <-].
  { split; [by apply (wait_ok_one _ _ _ 7 7)|by intros iov bytes _ ?]. }
  split; [by vm_compute|intros w E; vm_compute in E; injection E as <-].
  split; [|intros w E; vm_compute in E; injection E as <-].
  { apply Hother; [by vm_compute|done|]. intros q ch c [= <- _] Hc. vm_compute in Hc. by injection Hc as <-. }
  split; [|intros w E; vm_compute in E; injection E as <-].
  { apply Hother; [by vm_compute|done|done]. }
  by split.
Qed.

(** The connection really ended: written, closed and out of the poller. *)
Example ex_history_run :
  (w ← run_hsteps 100 1 ex_new ex_history;
   r ← host_delete 100 1 w;
   Ok (state_ (conn w), socketFd_ (conn w), written (conn w), wr_shut (conn w), size (channels_ (reactor w)),
       size (chans r), trace r))
  = Ok (kDisconnected, -1, [x68; x69], true, 0%nat, 1%nat, [(100, CbRead); (100, CbWrite)]).
Proof. vm_compute. reflexivity. Qed.

Lemma tcp_on_poller_witness :
  exists w, run_hsteps 100 1 ex_new ex_history = Ok w /\
    run_events sample_new (conn_events ex_history) = Ok (conn w) /\
    fds_open (reactor w) /\
    (if is_open (conn w) then
       0 <= socketFd_ (conn w) /\ socketFd_ (conn w) ∈ kfds (epoll (reactor w)) /\
       interest (epoll (reactor w)) !! socketFd_ (conn w) = Some (wanted (conn w), 100)
     else forall fd' e, interest (epoll (reactor w)) !! fd' <> Some (e, 100)) /\
    (socketFd_ (conn w) < 0 -> unreferenced (reactor w) 100 /\
       exists r', host_delete 100 1 w = Ok r' /\ fds_open r' /\ chans r' !! 100 = None /\ unreferenced r' 100) /\
    ((exists e, HConn EvDestroy e ∈ ex_history) \/
     true = true /\ state_ (conn w) = kDisconnected /\ (FDestroyed ∉ posted (conn w)) -> socketFd_ (conn w) < 0).
Proof.
  apply (tcp_on_poller (B := Buffer) 100 1 ex_start 7 (64 * 1024 * 1024) true true true true true ex_history ex_new).
  - split; [by apply inv_new|done].
  - done.
  - lia.
  - by apply SimKernel.kfds_lookup.
  - done.
  - done.
  - exact ex_history_ok.
  - by vm_compute.
Defined.
