(* ===== verification/InetAddress.v ===== *)
(** * InetAddress: socket addresses as values, and name resolution

    Models [include/hvnetpp/InetAddress.h], [src/InetAddress.cpp], the parts of
    [src/SocketsOps.cpp] that return an [InetAddress], and [src/Resolver.cpp].
    The object holds the 128 bytes of a [sockaddr_storage] and a length; text
    goes through [inet_pton] and [inet_ntop] (class [InetText] of SocketsOps.v);
    what [getsockname], [getpeername] and [getaddrinfo] answer is an argument. *)

From S2P Require Import SocketsOps Prelude.

#[local] Open Scope Z_scope.

(** ** The object *)
Record InetAddress : Type := mkInet {
  addr_ : list byte;
  length_ : Z
}.

(** [memset(&addr_, 0, sizeof addr_); memcpy(&addr_, d, ..)] *)
Definition storage (d : list byte) : list byte := splice (replicate (Z.to_nat sizeof_storage) x00) 0 d.

(** The constructors: from a port, from text, from the two structures, from
    memory the kernel wrote. *)
Definition InetAddress_port (port : Z) (loopbackOnly ipv6 : bool) : InetAddress :=
  if ipv6 then
    let ip := if loopbackOnly then in6addr_loopback else in6addr_any in
    mkInet (storage (in6_bytes (mkIn6 AF_INET6 (htons port) 0 ip 0))) sizeof_in6
  else
    let s_addr := htonl (if loopbackOnly then INADDR_LOOPBACK else INADDR_ANY) in
    mkInet (storage (in_bytes (mkIn AF_INET (htons port) (le_bytes 4 s_addr) (replicate 8 x00)))) sizeof_in.

Definition InetAddress_in (addr : sockaddr_in) : InetAddress := mkInet (storage (in_bytes addr)) sizeof_in.
Definition InetAddress_in6 (addr : sockaddr_in6) : InetAddress := mkInet (storage (in6_bytes addr)) sizeof_in6.

Definition InetAddress_sockaddr (addr : list byte) (len : Z) : res InetAddress :=
  let copyLen := if len <? sizeof_storage then len else sizeof_storage in
  d ← load addr 0 copyLen;
  Ok (mkInet (storage d) len).

Definition loopback (port : Z) (ipv6 : bool) : InetAddress := InetAddress_port port true ipv6.
Definition any (port : Z) (ipv6 : bool) : InetAddress := InetAddress_port port false ipv6.

Definition family (a : InetAddress) : Z := sa_family (addr_ a).
Definition isIpv4 (a : InetAddress) : bool := family a =? AF_INET.
Definition isIpv6 (a : InetAddress) : bool := family a =? AF_INET6.
Definition isValid (a : InetAddress) : bool := negb (length_ a =? 0) && (isIpv4 a || isIpv6 a).

Definition ipNetEndian (a : InetAddress) : res Z :=
  assert_ (isIpv4 a);;
  Ok (of_le (sin_addr (as_in (addr_ a)))).
Definition portNetEndian (a : InetAddress) : Z :=
  if isIpv6 a then sin6_port (as_in6 (addr_ a)) else sin_port (as_in (addr_ a)).
Definition toPort (a : InetAddress) : Z := ntohs (portNetEndian a).

Section text.
Context `{InetText}.

Definition InetAddress_ip (ip : string) (port : Z) (ipv6 : bool) : InetAddress :=
  if ipv6 then
    match fromIpPort6 ip port in6_zero with
    | (true, addr6) => mkInet (storage (in6_bytes addr6)) sizeof_in6
    | (false, _) => mkInet (storage []) 0
    end
  else
    match fromIpPort4 ip port in_zero with
    | (true, addr4) => mkInet (storage (in_bytes addr4)) sizeof_in
    | (false, _) => mkInet (storage []) 0
    end.

(** [tryParse(ip, port, result, ipv6)]: the result and [*result]. *)
Definition tryParse (ip : string) (port : Z) (ipv6 : bool) : bool * InetAddress :=
  let result := InetAddress_ip ip port ipv6 in (isValid result, result).

(** The members that print, with their buffers of 64 characters. *)
Definition inet_toIp (a : InetAddress) : res string := toIp 64 (addr_ a).
Definition inet_toIpPort (a : InetAddress) : res string := toIpPort 64 (addr_ a).
End text.

(** ** Addresses of a socket

    [getsockname] and [getpeername] write an address of some length into the
    [sockaddr_storage], or fail and leave it zero. *)
Definition sys_name : Type := list byte + Z.

Definition get_name (answer : sys_name) : res InetAddress :=
  match answer with
  | inl d => InetAddress_sockaddr (storage d) (zlen d)
  | inr _ => InetAddress_sockaddr (storage []) sizeof_storage
  end.
Definition getLocalAddr (answer : sys_name) : res InetAddress := get_name answer.
Definition getPeerAddr (answer : sys_name) : res InetAddress := get_name answer.

Definition isSelfConnect (local peer : sys_name) : res bool :=
  localaddr ← getLocalAddr local;
  peeraddr ← getPeerAddr peer;
  if isIpv4 localaddr && isIpv4 peeraddr then
    let l4 := as_in (addr_ localaddr) in
    let r4 := as_in (addr_ peeraddr) in
    Ok ((sin_port l4 =? sin_port r4) && (of_le (sin_addr l4) =? of_le (sin_addr r4)))
  else if isIpv6 localaddr && isIpv6 peeraddr then
    let l6 := as_in6 (addr_ localaddr) in
    let r6 := as_in6 (addr_ peeraddr) in
    Ok ((sin6_port l6 =? sin6_port r6) && bool_decide (sin6_addr l6 = sin6_addr r6))
  else Ok false.

(** ** [Resolver]

    An entry of the list [getaddrinfo] returns; the memory behind [ai_addr] has
    [ai_addrlen] bytes. *)
Record addrinfo : Type := mkAi { ai_family : Z; ai_addr : list byte; ai_addrlen : Z }.

Definition EAI_NONAME : Z := -2.
Definition EAI_FAMILY : Z := -6.

(** What [resolve] leaves behind: its result, [*result], [*error_code] when the
    pointer is not null, and how many lists of [getaddrinfo] it freed. *)
Record resolved : Type := mkRes {
  r_ok : bool;
  r_result : InetAddress;
  r_error : option Z;
  r_freed : nat
}.

(** The loop over the list. *)
Fixpoint pick (port : Z) (l : list addrinfo) : res (option InetAddress) :=
  match l with
  | [] => Ok None
  | ai :: l' =>
      if (ai_family ai =? AF_INET) && (sizeof_in <=? ai_addrlen ai) then
        m ← load (ai_addr ai) 0 sizeof_in;
        let a := as_in m in
        Ok (Some (InetAddress_in (mkIn (sin_family a) (htons port) (sin_addr a) (sin_zero a))))
      else if (ai_family ai =? AF_INET6) && (sizeof_in6 <=? ai_addrlen ai) then
        m ← load (ai_addr ai) 0 sizeof_in6;
        let a := as_in6 m in
        Ok (Some (InetAddress_in6 (mkIn6 (sin6_family a) (htons port) (sin6_flowinfo a) (sin6_addr a)
                                     (sin6_scope_id a))))
      else pick port l'
  end.

Section resolver.
(** [getaddrinfo(hostname, NULL, {family, socktype})]: its result and list. *)
Context (getaddrinfo : string -> Z -> Z -> Z * list addrinfo).

Definition set_error (error_code : option Z) (e : Z) : option Z :=
  match error_code with Some _ => Some e | None => None end.

Definition resolve (hostname : string) (result : InetAddress) (port fam socktype : Z) (error_code : option Z)
  : res resolved :=
  let error_code := set_error error_code 0 in
  if negb (fam =? AF_UNSPEC) && negb (fam =? AF_INET) && negb (fam =? AF_INET6) then
    Ok (mkRes false result (set_error error_code EAI_FAMILY) 0)
  else
    let '(ret, l) := getaddrinfo (c_str hostname) fam socktype in
    if negb (ret =? 0) || bool_decide (l = []) then
      Ok (mkRes false result (set_error error_code (if negb (ret =? 0) then ret else EAI_NONAME)) 0)
    else
      found ← pick port l;
      match found with
      | Some a => Ok (mkRes true a error_code 1)
      | None => Ok (mkRes false result (set_error error_code EAI_NONAME) 1)
      end.

(** [InetAddress::resolve] *)
Definition inet_resolve (hostname : string) (out : InetAddress) (port fam : Z) (error_code : option Z)
  : res resolved := resolve hostname out port fam 1 error_code.
End resolver.

(** ** Lemmas *)
#[global] Arguments storage : simpl never.
#[global] Arguments sa_family : simpl never.
#[global] Arguments htons : simpl never.
#[global] Arguments of_le : simpl never.
#[global] Arguments in_bytes : simpl never.
#[global] Arguments in6_bytes : simpl never.
#[global] Arguments as_in : simpl never.
#[global] Arguments as_in6 : simpl never.

Lemma storage_app d : zlen d <= sizeof_storage ->
  storage d = d ++ replicate (Z.to_nat sizeof_storage - length d) x00.
Proof.
  intros Hd. unfold storage, splice. change (Z.to_nat 0) with 0%nat. rewrite take_0, app_nil_l.
  f_equal. rewrite Nat.add_0_l. apply drop_replicate.
Qed.

Lemma storage_length d : zlen d <= sizeof_storage -> zlen (storage d) = sizeof_storage.
Proof.
  intros Hd. rewrite storage_app by done. unfold zlen, sizeof_storage in *.
  rewrite length_app, length_replicate. lia.
Qed.

Lemma as_in_storage a : in_wf a -> as_in (storage (in_bytes a)) = a.
Proof. intros Ha. rewrite storage_app by (by rewrite in_bytes_length). by apply as_in_bytes. Qed.
Lemma as_in6_storage a : in6_wf a -> as_in6 (storage (in6_bytes a)) = a.
Proof. intros Ha. rewrite storage_app by (by rewrite in6_bytes_length). by apply as_in6_bytes. Qed.
Lemma family_in a : in_wf a -> family (InetAddress_in a) = sin_family a.
Proof. intros Ha. unfold family. simpl. rewrite storage_app by (by rewrite in_bytes_length). by apply sa_family_in. Qed.
Lemma family_in6 a : in6_wf a -> family (InetAddress_in6 a) = sin6_family a.
Proof. intros Ha. unfold family. simpl. rewrite storage_app by (by rewrite in6_bytes_length). by apply sa_family_in6. Qed.

(** The address with IP bytes [a] of the family the flag selects. *)
Definition af_of (ipv6 : bool) : Z := if ipv6 then AF_INET6 else AF_INET.
Definition endpoint (ipv6 : bool) (a : list byte) (port : Z) : InetAddress :=
  if ipv6 then InetAddress_in6 (mkIn6 AF_INET6 (htons port) 0 a 0)
  else InetAddress_in (mkIn AF_INET (htons port) a (replicate 8 x00)).

Lemma addr_ok_length ipv6 a : addr_ok (af_of ipv6) a -> length a = if ipv6 then 16%nat else 4%nat.
Proof. destruct ipv6; intros [[? ?]|[? ?]]; done. Qed.

Lemma endpoint_in_wf a port : addr_ok AF_INET a -> 0 <= port < 2 ^ 16 ->
  in_wf (mkIn AF_INET (htons port) a (replicate 8 x00)).
Proof. intros Ha Hp. split_and!; simpl; try done; try apply (htons_range port Hp). exact (addr_ok_length false a Ha). Qed.
Lemma endpoint_in6_wf a port : addr_ok AF_INET6 a -> 0 <= port < 2 ^ 16 ->
  in6_wf (mkIn6 AF_INET6 (htons port) 0 a 0).
Proof. intros Ha Hp. split_and!; simpl; try done; try apply (htons_range port Hp). exact (addr_ok_length true a Ha). Qed.

Lemma endpoint_family ipv6 a port : addr_ok (af_of ipv6) a -> 0 <= port < 2 ^ 16 ->
  family (endpoint ipv6 a port) = af_of ipv6.
Proof.
  intros Ha Hp. destruct ipv6; simpl.
  - by rewrite family_in6 by (by apply endpoint_in6_wf).
  - by rewrite family_in by (by apply endpoint_in_wf).
Qed.

Lemma endpoint_valid ipv6 a port : addr_ok (af_of ipv6) a -> 0 <= port < 2 ^ 16 -> isValid (endpoint ipv6 a port) = true.
Proof.
  intros Ha Hp. unfold isValid, isIpv4, isIpv6. rewrite (endpoint_family ipv6 a port Ha Hp). by destruct ipv6.
Qed.

Lemma endpoint_port ipv6 a port : addr_ok (af_of ipv6) a -> 0 <= port < 2 ^ 16 -> toPort (endpoint ipv6 a port) = port.
Proof.
  intros Ha Hp. unfold toPort, portNetEndian, isIpv6, ntohs. rewrite (endpoint_family ipv6 a port Ha Hp).
  destruct ipv6; [change (af_of true =? AF_INET6) with true|change (af_of false =? AF_INET6) with false];
    cbn [endpoint InetAddress_in6 InetAddress_in addr_].
  - rewrite as_in6_storage by (by apply endpoint_in6_wf). by apply htons_involutive.
  - rewrite as_in_storage by (by apply endpoint_in_wf). by apply htons_involutive.
Qed.

Definition ip_port (ipv6 : bool) (ip : string) (port : Z) : string :=
  if ipv6 then "[" +:+ ip +:+ "]:" +:+ pretty (Z.to_N port) else ip +:+ ":" +:+ pretty (Z.to_N port).

Section text_lemmas.
Context `{InetTextLaws}.

Lemma endpoint_toIp size ipv6 a port : addr_ok (af_of ipv6) a -> 0 <= port < 2 ^ 16 -> INET6_ADDRSTRLEN <= size ->
  toIp size (addr_ (endpoint ipv6 a port)) = Ok (inet_ntop (af_of ipv6) a).
Proof.
  intros Ha Hp Hs. unfold toIp. pose proof (endpoint_family ipv6 a port Ha Hp) as Hf. unfold family in Hf. rewrite Hf.
  unfold INET6_ADDRSTRLEN in Hs.
  destruct ipv6; [change (af_of true =? AF_INET) with false; change (af_of true =? AF_INET6) with true
                 |change (af_of false =? AF_INET) with true];
    cbn [endpoint InetAddress_in6 InetAddress_in addr_].
  - rewrite (proj2 (Z.leb_le INET6_ADDRSTRLEN size)) by (unfold INET6_ADDRSTRLEN; lia). cbn [assert_ mbind res_bind].
    rewrite as_in6_storage by (by apply endpoint_in6_wf). unfold ntop_into. cbn [sin6_addr].
    pose proof (ntop_length6 a Ha) as Hl. unfold INET6_ADDRSTRLEN in Hl.
    by rewrite (proj2 (Z.ltb_lt _ _)) by lia.
  - rewrite (proj2 (Z.leb_le INET_ADDRSTRLEN size)) by (unfold INET_ADDRSTRLEN; lia). cbn [assert_ mbind res_bind].
    rewrite as_in_storage by (by apply endpoint_in_wf). unfold ntop_into. cbn [sin_addr].
    pose proof (ntop_length4 a Ha) as Hl. unfold INET_ADDRSTRLEN in Hl.
    by rewrite (proj2 (Z.ltb_lt _ _)) by lia.
Qed.

(** The text fits in the 64 characters of the buffer. *)
Lemma ip_port_fits ipv6 a port : addr_ok (af_of ipv6) a -> 0 <= port < 2 ^ 16 ->
  Z.of_nat (String.length (ip_port ipv6 (inet_ntop (af_of ipv6) a) port)) < 64.
Proof.
  intros Ha Hp.
  assert (String.length (pretty (Z.to_N port)) <= 5)%nat as Hd by (apply pretty_N_length; [lia|simpl; lia]).
  destruct ipv6; unfold ip_port, af_of in *; rewrite !string_length_app; simpl String.length.
  - pose proof (ntop_length6 a Ha) as Hl. unfold INET6_ADDRSTRLEN in Hl. lia.
  - pose proof (ntop_length4 a Ha) as Hl. unfold INET_ADDRSTRLEN in Hl. lia.
Qed.

Lemma endpoint_toIpPort ipv6 a port : addr_ok (af_of ipv6) a -> 0 <= port < 2 ^ 16 ->
  inet_toIpPort (endpoint ipv6 a port) = Ok (ip_port ipv6 (inet_ntop (af_of ipv6) a) port).
Proof.
  intros Ha Hp. unfold inet_toIpPort, toIpPort. rewrite endpoint_toIp by done. cbn [mbind res_bind].
  pose proof (endpoint_family ipv6 a port Ha Hp) as Hf. unfold family in Hf. rewrite Hf.
  pose proof (ip_port_fits ipv6 a port Ha Hp) as Hfit.
  pose proof (endpoint_port ipv6 a port Ha Hp) as Hport. unfold toPort, portNetEndian, isIpv6 in Hport.
  unfold family in Hport. rewrite Hf in Hport.
  destruct ipv6; cbn [af_of] in *;
    [change (AF_INET6 =? AF_INET6) with true in Hport|change (AF_INET =? AF_INET6) with false in Hport]; cbv iota in Hport;
    cbn [endpoint addr_ InetAddress_in6 InetAddress_in] in Hport.
  - change (AF_INET6 =? AF_INET) with false. change (AF_INET6 =? AF_INET6) with true. cbv iota.
    cbn [endpoint addr_ InetAddress_in6]. rewrite Hport. by rewrite snprintf_fits.
  - change (AF_INET =? AF_INET) with true. cbv iota.
    cbn [endpoint addr_ InetAddress_in]. rewrite Hport. by rewrite snprintf_fits.
Qed.

Lemma InetAddress_ip_spec ip port ipv6 :
  let '(ret, a) := inet_pton (af_of ipv6) (c_str ip) in
  InetAddress_ip ip port ipv6 = if ret =? 1 then endpoint ipv6 a port else mkInet (storage []) 0.
Proof.
  pose proof (pton_result (af_of ipv6) (c_str ip)) as Hr. unfold InetAddress_ip, fromIpPort6, fromIpPort4.
  destruct ipv6; cbn [af_of] in *; destruct (inet_pton _ _) as [ret a]; simpl in Hr;
    (destruct Hr as [-> |[-> |Hn]]; [done|done|]);
    rewrite (proj2 (Z.eqb_neq ret 0)), (proj2 (Z.ltb_lt ret 0)), (proj2 (Z.eqb_neq ret 1)) by lia; done.
Qed.
End text_lemmas.

(** *** Addresses read from memory *)
Lemma sockaddr_copy d : zlen d <= sizeof_storage -> InetAddress_sockaddr (storage d) (zlen d) = Ok (mkInet (storage d) (zlen d)).
Proof.
  intros Hd. pose proof (zlen_nonneg d). unfold InetAddress_sockaddr.
  assert ((if zlen d <? sizeof_storage then zlen d else sizeof_storage) = zlen d) as ->.
  { destruct (Z.ltb_spec (zlen d) sizeof_storage); lia. }
  rewrite load_Ok by (rewrite ?storage_length by done; lia). cbn [mbind res_bind]. rewrite Z.add_0_l.
  rewrite (storage_app d) at 1 by done. unfold slice. rewrite drop_0, Z.sub_0_r.
  unfold zlen. by rewrite Nat2Z.id, take_app_length.
Qed.

(** What the kernel writes for an endpoint; flow and scope are its own. *)
Definition kernel_name (ipv6 : bool) (a : list byte) (port flow scope : Z) : list byte :=
  if ipv6 then in6_bytes (mkIn6 AF_INET6 (htons port) flow a scope)
  else in_bytes (mkIn AF_INET (htons port) a (replicate 8 x00)).

Definition name_ok (ipv6 : bool) (a : list byte) (port flow scope : Z) : Prop :=
  addr_ok (af_of ipv6) a /\ 0 <= port < 2 ^ 16 /\ 0 <= flow < 2 ^ 32 /\ 0 <= scope < 2 ^ 32.

Lemma name_in6_wf a port flow scope : name_ok true a port flow scope -> in6_wf (mkIn6 AF_INET6 (htons port) flow a scope).
Proof.
  intros (Ha & Hp & Hf & Hs). pose proof (addr_ok_length true a Ha : length a = 16%nat).
  pose proof (htons_range port Hp).
  unfold in6_wf, AF_INET6. cbn [sin6_family sin6_port sin6_flowinfo sin6_addr sin6_scope_id]. lia.
Qed.

Lemma get_name_spec ipv6 a port flow scope : name_ok ipv6 a port flow scope ->
  exists x, get_name (inl (kernel_name ipv6 a port flow scope)) = Ok x /\
    isIpv4 x = negb ipv6 /\ isIpv6 x = ipv6 /\
    (if ipv6 then sin6_port (as_in6 (addr_ x)) = htons port /\ sin6_addr (as_in6 (addr_ x)) = a
     else sin_port (as_in (addr_ x)) = htons port /\ sin_addr (as_in (addr_ x)) = a).
Proof.
  intros Hn. pose proof Hn as (Ha & Hp & _). unfold get_name. destruct ipv6; cbn [kernel_name].
  - pose proof (name_in6_wf a port flow scope Hn) as Hwf.
    rewrite sockaddr_copy by (by rewrite in6_bytes_length). eexists. split; [done|].
    unfold isIpv4, isIpv6. pose proof (family_in6 _ Hwf) as Hf. unfold family in *.
    cbn [addr_ InetAddress_in6 InetAddress_in sin6_family sin_family] in Hf |- *. rewrite Hf.
    split_and!; try done; by rewrite as_in6_storage.
  - pose proof (endpoint_in_wf a port Ha Hp) as Hwf.
    rewrite sockaddr_copy by (by rewrite in_bytes_length). eexists. split; [done|].
    unfold isIpv4, isIpv6. pose proof (family_in _ Hwf) as Hf. unfold family in *.
    cbn [addr_ InetAddress_in6 InetAddress_in sin6_family sin_family] in Hf |- *. rewrite Hf.
    split_and!; try done; by rewrite as_in_storage.
Qed.

Lemma of_le_inj l1 l2 : length l1 = length l2 -> of_le l1 = of_le l2 -> l1 = l2.
Proof. intros Hl E. rewrite <- (le_of_le l1), <- (le_of_le l2). congruence. Qed.

Lemma htons_eqb p q : 0 <= p < 2 ^ 16 -> 0 <= q < 2 ^ 16 -> (htons p =? htons q) = bool_decide (p = q).
Proof.
  intros Hp Hq. case_bool_decide as E; [subst; apply Z.eqb_refl|]. apply Z.eqb_neq. intros Eh.
  apply E. rewrite <- (htons_involutive p), <- (htons_involutive q) by done. congruence.
Qed.

(** *** What a valid address is

    One of the two structures, in memory that is zero after it. *)
Definition typed (a : InetAddress) : Prop :=
  (exists s, in_wf s /\ sin_family s = AF_INET /\ a = InetAddress_in s) \/
  (exists s, in6_wf s /\ sin6_family s = AF_INET6 /\ a = InetAddress_in6 s).
Definition inet_ok (a : InetAddress) : Prop := zlen (addr_ a) = sizeof_storage /\ (isValid a = true -> typed a).

Lemma typed_ok a : typed a -> inet_ok a.
Proof.
  intros Ht. split; [|done]. destruct Ht as [(s & Hs & _ & ->)|(s & Hs & _ & ->)]; apply storage_length.
  - by rewrite in_bytes_length.
  - by rewrite in6_bytes_length.
Qed.

Lemma typed_length a : typed a -> sockaddrLength (addr_ a) = length_ a.
Proof.
  unfold sockaddrLength. intros [(s & Hs & Hf & ->)|(s & Hs & Hf & ->)].
  - pose proof (family_in s Hs) as E. unfold family in E. by rewrite E, Hf.
  - pose proof (family_in6 s Hs) as E. unfold family in E. by rewrite E, Hf.
Qed.

Lemma invalid_ok m len : zlen m <= sizeof_storage -> isValid (mkInet (storage m) len) = false -> inet_ok (mkInet (storage m) len).
Proof. intros Hm Hv. split; [by apply storage_length|]. by rewrite Hv. Qed.

Lemma endpoint_typed ipv6 a port : addr_ok (af_of ipv6) a -> 0 <= port < 2 ^ 16 -> typed (endpoint ipv6 a port).
Proof.
  intros Ha Hp. destruct ipv6; [right|left]; eexists.
  - split; [by apply endpoint_in6_wf|done].
  - split; [by apply endpoint_in_wf|done].
Qed.

Lemma sa_family_storage d : 2 <= zlen d <= sizeof_storage -> sa_family (storage d) = sa_family d.
Proof.
  intros Hd. unfold sa_family. f_equal. rewrite storage_app by lia. unfold slice, zlen in *.
  rewrite !drop_0. change (Z.to_nat (2 - 0)) with 2%nat. rewrite take_app_le by lia. done.
Qed.

(** What may be handed over as a [sockaddr]: nothing, or a family and, for the
    two that are known, the whole structure. *)
Definition sockaddr_fits (m : list byte) (len : Z) : Prop :=
  len = 0 \/ 2 <= len /\ (sa_family m = AF_INET \/ sa_family m = AF_INET6 -> len = sockaddrLength m).

Lemma slice_take_all {A} (m : list A) a b n : 0 <= a -> b <= Z.of_nat n -> slice (take n m) a b = slice m a b.
Proof.
  intros Ha Hb. unfold slice. rewrite skipn_firstn_comm, take_take. f_equal. lia.
Qed.

Lemma sa_family_slice m n : 2 <= n -> sa_family (slice m 0 n) = sa_family m.
Proof. intros Hn. unfold sa_family. f_equal. unfold slice at 2. rewrite drop_0, slice_take_all; [done|lia|lia]. Qed.

Lemma sockaddr_ok m len a :
  0 <= len <= zlen m -> sockaddr_fits m len -> InetAddress_sockaddr m len = Ok a -> inet_ok a.
Proof.
  intros Hl Hfits. unfold InetAddress_sockaddr. set (n := if len <? sizeof_storage then len else sizeof_storage).
  assert (0 <= n <= zlen m /\ n <= sizeof_storage /\ n <= len) as (Hn & Hn' & Hnl).
  { unfold n, sizeof_storage in *. destruct (Z.ltb_spec len 128); lia. }
  rewrite load_Ok by lia. cbn [mbind res_bind]. rewrite Z.add_0_l. intros [= <-].
  assert (zlen (slice m 0 n) = n) as Hz by (rewrite zlen_slice by lia; lia).
  destruct Hfits as [-> |[H2 Hfam]]; [apply invalid_ok; [lia|done]|].
  assert (2 <= n) as Hn2 by (unfold n, sizeof_storage; destruct (Z.ltb_spec len 128); lia).
  assert (family (mkInet (storage (slice m 0 n)) len) = sa_family m) as Ef.
  { unfold family. cbn [addr_]. rewrite sa_family_storage by lia. by apply sa_family_slice. }
  destruct (decide (sa_family m = AF_INET)) as [E4|N4]; [|destruct (decide (sa_family m = AF_INET6)) as [E6|N6]].
  - assert (len = sizeof_in) as El by (rewrite Hfam by (by left); unfold sockaddrLength; by rewrite E4).
    apply typed_ok. left. exists (as_in m). subst len. split; [apply as_in_wf; lia|]. split; [exact E4|].
    unfold InetAddress_in. rewrite in_bytes_as by lia. by unfold n, slice; rewrite drop_0.
  - assert (len = sizeof_in6) as El by (rewrite Hfam by (by right); unfold sockaddrLength; by rewrite E6).
    apply typed_ok. right. exists (as_in6 m). subst len. split; [apply as_in6_wf; lia|]. split; [exact E6|].
    unfold InetAddress_in6. rewrite in6_bytes_as by lia. by unfold n, slice; rewrite drop_0.
  - apply invalid_ok; [lia|]. unfold isValid, isIpv4, isIpv6. rewrite Ef.
    by rewrite (proj2 (Z.eqb_neq _ _) N4), (proj2 (Z.eqb_neq _ _) N6), andb_false_r.
Qed.

Lemma get_name_ok answer a :
  (forall d, answer = inl d -> zlen d <= sizeof_storage /\ sockaddr_fits d (zlen d)) ->
  get_name answer = Ok a -> inet_ok a.
Proof.
  unfold get_name. destruct answer as [d|e]; intros Hd E.
  - destruct (Hd d eq_refl) as [Hl Hfits]. pose proof (zlen_nonneg d). apply (sockaddr_ok _ _ _) in E; [done| |].
    + rewrite storage_length by done. lia.
    + destruct Hfits as [?|[H2 Hf]]; [by left|right]. split; [done|].
      rewrite sa_family_storage by lia. intros Hs. unfold sockaddrLength. rewrite sa_family_storage by lia. by apply Hf.
  - apply (sockaddr_ok _ _ _) in E; [done|by vm_compute|]. right. split; [done|]. by intros [?|?].
Qed.

(** *** The entries of [getaddrinfo] *)
Definition ai_ok (ai : addrinfo) : Prop :=
  zlen (ai_addr ai) = ai_addrlen ai /\ sa_family (ai_addr ai) = ai_family ai.
Definition usable (ai : addrinfo) : bool :=
  (ai_family ai =? AF_INET) && (sizeof_in <=? ai_addrlen ai) || (ai_family ai =? AF_INET6) && (sizeof_in6 <=? ai_addrlen ai).

(** The address of an entry, with the port asked for. *)
Definition picked (ai : addrinfo) (port : Z) (x : InetAddress) : Prop :=
  typed x /\ isValid x = true /\ family x = ai_family ai /\ toPort x = port /\
  if ai_family ai =? AF_INET
  then sin_addr (as_in (addr_ x)) = sin_addr (as_in (ai_addr ai)) /\ length_ x = sizeof_in
  else sin6_addr (as_in6 (addr_ x)) = sin6_addr (as_in6 (ai_addr ai)) /\
       sin6_scope_id (as_in6 (addr_ x)) = sin6_scope_id (as_in6 (ai_addr ai)) /\ length_ x = sizeof_in6.

Lemma as_in_slice m : as_in (slice m 0 sizeof_in) = as_in m.
Proof. unfold slice at 1. rewrite drop_0. unfold as_in, sizeof_in. by rewrite !slice_take_all by lia. Qed.
Lemma as_in6_slice m : as_in6 (slice m 0 sizeof_in6) = as_in6 m.
Proof. unfold slice at 1. rewrite drop_0. unfold as_in6, sizeof_in6. by rewrite !slice_take_all by lia. Qed.

Lemma pick_v4 ai port : ai_ok ai -> 0 <= port < 2 ^ 16 -> ai_family ai = AF_INET -> sizeof_in <= ai_addrlen ai ->
  exists x, pick port [ai] = Ok (Some x) /\ picked ai port x.
Proof.
  intros [Hl Hf] Hp Hfam Hs. rewrite <- Hl in Hs. cbn [pick]. rewrite Hfam.
  rewrite (proj2 (Z.leb_le sizeof_in (ai_addrlen ai))) by lia. cbn [andb]. change (AF_INET =? AF_INET) with true. cbv iota.
  rewrite load_Ok by (unfold sizeof_in in *; lia). cbn [mbind res_bind]. rewrite Z.add_0_l.
  rewrite as_in_slice.
  cbv zeta. set (a' := mkIn _ _ _ _). eexists. split; [done|].
  pose proof (as_in_wf _ Hs) as (W1 & W2 & W3 & W4).
  assert (in_wf a') as Hwf by exact (conj W1 (conj (htons_range port Hp) (conj W3 W4))).
  assert (sin_family a' = AF_INET) as Ef by (change (sin_family a') with (sa_family (ai_addr ai)); congruence).
  unfold picked, isValid, isIpv4, isIpv6, toPort, portNetEndian, isIpv6, ntohs. rewrite (family_in a' Hwf), Ef, Hfam.
  split_and!; try done.
  - left. by exists a'.
  - change (AF_INET =? AF_INET6) with false. cbv iota. cbn [InetAddress_in addr_]. rewrite as_in_storage by done.
    by apply htons_involutive.
  - change (AF_INET =? AF_INET) with true. cbv iota. cbn [InetAddress_in addr_]. by rewrite as_in_storage.
Qed.

Lemma pick_v6 ai port : ai_ok ai -> 0 <= port < 2 ^ 16 -> ai_family ai = AF_INET6 -> sizeof_in6 <= ai_addrlen ai ->
  exists x, pick port [ai] = Ok (Some x) /\ picked ai port x.
Proof.
  intros [Hl Hf] Hp Hfam Hs. rewrite <- Hl in Hs. cbn [pick]. rewrite Hfam.
  rewrite (proj2 (Z.leb_le sizeof_in6 (ai_addrlen ai))) by lia. cbn [andb].
  change (AF_INET6 =? AF_INET) with false. change (AF_INET6 =? AF_INET6) with true. cbn [andb].
  rewrite load_Ok by (unfold sizeof_in6 in *; lia). cbn [mbind res_bind]. rewrite Z.add_0_l, as_in6_slice.
  cbv zeta. set (a' := mkIn6 _ _ _ _ _). eexists. split; [done|].
  pose proof (as_in6_wf _ Hs) as (W1 & W2 & W3 & W4 & W5).
  assert (in6_wf a') as Hwf by exact (conj W1 (conj (htons_range port Hp) (conj W3 (conj W4 W5)))).
  assert (sin6_family a' = AF_INET6) as Ef by (change (sin6_family a') with (sa_family (ai_addr ai)); congruence).
  unfold picked, isValid, isIpv4, isIpv6, toPort, portNetEndian, isIpv6, ntohs. rewrite (family_in6 a' Hwf), Ef, Hfam.
  split_and!; try done.
  - right. by exists a'.
  - change (AF_INET6 =? AF_INET6) with true. cbv iota. cbn [InetAddress_in6 addr_]. rewrite as_in6_storage by done.
    by apply htons_involutive.
  - change (AF_INET6 =? AF_INET) with false. cbv iota. cbn [InetAddress_in6 addr_]. by rewrite as_in6_storage.
Qed.

Lemma pick_spec l port : Forall ai_ok l -> 0 <= port < 2 ^ 16 ->
  match List.find usable l with
  | Some ai => exists x, pick port l = Ok (Some x) /\ picked ai port x
  | None => pick port l = Ok None
  end.
Proof.
  intros Hl Hp. induction Hl as [|ai l Hai Hl IH]; [done|]. cbn [List.find].
  unfold usable at 1. destruct ((ai_family ai =? AF_INET) && (sizeof_in <=? ai_addrlen ai)) eqn:E4; cbn [orb].
  { pose proof E4 as E. apply andb_true_iff in E as [Ef%Z.eqb_eq Es%Z.leb_le].
    destruct (pick_v4 ai port Hai Hp Ef Es) as (x & Hx & Hpk). exists x. split; [|done].
    revert Hx. cbn [pick]. by rewrite E4. }
  destruct ((ai_family ai =? AF_INET6) && (sizeof_in6 <=? ai_addrlen ai)) eqn:E6.
  - pose proof E6 as E. apply andb_true_iff in E as [Ef%Z.eqb_eq Es%Z.leb_le].
    destruct (pick_v6 ai port Hai Hp Ef Es) as (x & Hx & Hpk). exists x. split; [|done].
    revert Hx. cbn [pick]. by rewrite E4, E6.
  - cbn [pick]. by rewrite E4, E6.
Qed.

Lemma set_error_twice ec e e' : set_error (set_error ec e) e' = set_error ec e'.
Proof. by destruct ec. Qed.

Lemma resolve_typed gai host r port fam st ec out :
  0 <= port < 2 ^ 16 -> Forall ai_ok (gai (c_str host) fam st).2 -> inet_ok r ->
  resolve gai host r port fam st ec = Ok out -> inet_ok (r_result out).
Proof.
  intros Hp Hl Hr. unfold resolve. destruct (_ && _); [by intros [= <-]|].
  destruct (gai (c_str host) fam st) as [ret l]. simpl in Hl. destruct (_ || _); [by intros [= <-]|].
  pose proof (pick_spec l port Hl Hp) as Hpick. destruct (List.find usable l).
  - destruct Hpick as (x & -> & Hx & _). intros [= <-]. by apply typed_ok.
  - rewrite Hpick. by intros [= <-].
Qed.

(** The ways the program comes by an address. *)
Inductive made `{InetText} (gai : string -> Z -> Z -> Z * list addrinfo) : InetAddress -> Prop :=
| made_port port lo v6 : 0 <= port < 2 ^ 16 -> made gai (InetAddress_port port lo v6)
| made_ip ip port v6 : 0 <= port < 2 ^ 16 -> made gai (InetAddress_ip ip port v6)
| made_in s : in_wf s -> sin_family s = AF_INET -> made gai (InetAddress_in s)
| made_in6 s : in6_wf s -> sin6_family s = AF_INET6 -> made gai (InetAddress_in6 s)
| made_sockaddr m len a : 0 <= len <= zlen m -> sockaddr_fits m len ->
    InetAddress_sockaddr m len = Ok a -> made gai a
| made_name answer a : (forall d, answer = inl d -> zlen d <= sizeof_storage /\ sockaddr_fits d (zlen d)) ->
    get_name answer = Ok a -> made gai a
| made_resolve host r port fam st ec out : made gai r -> 0 <= port < 2 ^ 16 ->
    Forall ai_ok (gai (c_str host) fam st).2 -> resolve gai host r port fam st ec = Ok out -> made gai (r_result out).

(** ** Properties *)
Section properties.
Context `{InetTextLaws}.

(** C27: however the program comes by an address, the object is well formed:
    128 bytes, which for a valid address are a [sockaddr_in] or [sockaddr_in6]
    of its family, zero after it, with its length.  So [connect], which works
    out the length from the family, hands the kernel the whole address, and
    reading the port, the text or (IPv4) the bytes back never fails. *)
Theorem inet_typed gai a :
  made gai a ->
  zlen (addr_ a) = sizeof_storage /\
  is_ok (inet_toIp a) /\ is_ok (inet_toIpPort a) /\ (isIpv4 a = true -> is_ok (ipNetEndian a)) /\
  (isValid a = true -> typed a /\ 0 <= toPort a < 2 ^ 16 /\
     forall (K : Type) (calls : SocketCalls K) k fd,
       sock_connect k fd (addr_ a) = k_connect k fd (addr_ a) (length_ a)).
Proof.
  intros Hm. assert (inet_ok a) as [Hl Ht].
  { induction Hm as [port lo v6 Hp|ip port v6 Hp|s Hs Hf|s Hs Hf|m len a Hlen Hfit E|answer a Ha E|host r port fam st ec out _ IH Hp Hl E].
    - replace (InetAddress_port port lo v6) with
        (endpoint v6 (if v6 then if lo then in6addr_loopback else in6addr_any
                      else if lo then [x7f; x00; x00; x01] else [x00; x00; x00; x00]) port) by (by destruct v6, lo).
      apply typed_ok, endpoint_typed; [destruct v6, lo; [right|right|left|left]; done|done].
    - pose proof (InetAddress_ip_spec ip port v6) as Hspec. pose proof (pton_addr (af_of v6) (c_str ip)) as Ha.
      destruct (inet_pton (af_of v6) (c_str ip)) as [ret b]. rewrite Hspec.
      destruct (Z.eqb_spec ret 1) as [-> |_]; [|by apply invalid_ok].
      apply typed_ok, endpoint_typed; [|done]. apply Ha; [destruct v6; [by right|by left]|done].
    - apply typed_ok. left. by exists s.
    - apply typed_ok. right. by exists s.
    - by eapply sockaddr_ok.
    - by eapply get_name_ok.
    - by eapply resolve_typed. }
  split; [done|]. split; [|split; [|split]].
  - unfold inet_toIp, toIp. by destruct (sa_family (addr_ a) =? AF_INET), (sa_family (addr_ a) =? AF_INET6).
  - unfold inet_toIpPort, toIpPort, toIp. by destruct (sa_family (addr_ a) =? AF_INET), (sa_family (addr_ a) =? AF_INET6).
  - intros H4. unfold ipNetEndian. by rewrite H4.
  - intros Hv. specialize (Ht Hv). split; [done|]. split.
    + unfold toPort, portNetEndian, isIpv6, ntohs. destruct Ht as [(s & Hs & Hf & ->)|(s & Hs & Hf & ->)].
      * rewrite (family_in s Hs), Hf. change (AF_INET =? AF_INET6) with false. cbv iota.
        cbn [InetAddress_in addr_]. rewrite as_in_storage by done. apply htons_range, Hs.
      * rewrite (family_in6 s Hs), Hf. change (AF_INET6 =? AF_INET6) with true. cbv iota.
        cbn [InetAddress_in6 addr_]. rewrite as_in6_storage by done. apply htons_range, Hs.
    + intros K calls k fd. unfold sock_connect. by rewrite typed_length.
Qed.

(** C24: text and addresses.  The text of every IPv4 and IPv6 address parses
    back, with any port, to a valid address of that family that prints as the
    same text and has that port; [toIpPort] prints it in full as [ip:port] or
    [[ip]:port], within its buffer of 64 characters. *)
Theorem inet_text_roundtrip ipv6 a port :
  addr_ok (af_of ipv6) a -> 0 <= port < 2 ^ 16 ->
  let ip := inet_ntop (af_of ipv6) a in
  exists x, tryParse ip port ipv6 = (true, x) /\ family x = af_of ipv6 /\
    inet_toIp x = Ok ip /\ toPort x = port /\ inet_toIpPort x = Ok (ip_port ipv6 ip port).
Proof.
  intros Ha Hp ip. exists (endpoint ipv6 a port).
  pose proof (InetAddress_ip_spec ip port ipv6) as Hi. unfold ip in Hi at 1.
  rewrite ntop_c_str, pton_ntop in Hi by done. change (1 =? 1) with true in Hi. cbv iota in Hi.
  split_and!; [|by apply endpoint_family|by apply endpoint_toIp|by apply endpoint_port|by apply endpoint_toIpPort].
  unfold tryParse. rewrite Hi. by rewrite endpoint_valid.
Qed.

(** [tryParse] on any text.  It returns true exactly when [inet_pton]
    accepts the text; the address then has the port and prints as text that
    parses to the same address.  Otherwise the address is not valid and prints
    as the empty text. *)
Theorem inet_tryParse ip port ipv6 :
  0 <= port < 2 ^ 16 ->
  let '(ok, x) := tryParse ip port ipv6 in
  ok = bool_decide ((inet_pton (af_of ipv6) (c_str ip)).1 = 1) /\
  if ok then isValid x = true /\ toPort x = port /\
             exists t, inet_toIp x = Ok t /\ tryParse t port ipv6 = (true, x)
  else isValid x = false /\ inet_toIp x = Ok EmptyString /\ inet_toIpPort x = Ok EmptyString.
Proof.
  intros Hp. unfold tryParse. pose proof (InetAddress_ip_spec ip port ipv6) as Hi.
  destruct (inet_pton (af_of ipv6) (c_str ip)) as [ret a] eqn:Ep. rewrite Hi. simpl fst.
  destruct (Z.eqb_spec ret 1) as [-> |Hne].
  - assert (addr_ok (af_of ipv6) a) as Ha by (eapply pton_addr, Ep; destruct ipv6; auto).
    rewrite (endpoint_valid ipv6 a port Ha Hp). split; [done|]. split_and!; [done|by apply endpoint_port|].
    exists (inet_ntop (af_of ipv6) a). split; [by apply endpoint_toIp|].
    pose proof (InetAddress_ip_spec (inet_ntop (af_of ipv6) a) port ipv6) as Hi2.
    rewrite ntop_c_str, pton_ntop in Hi2 by done. change (1 =? 1) with true in Hi2. cbv iota in Hi2.
    rewrite Hi2. by rewrite (endpoint_valid ipv6 a port Ha Hp).
  - change (isValid (mkInet (storage []) 0)) with false. cbv iota. split; [by rewrite bool_decide_eq_false_2|].
    split_and!; vm_compute; done.
Qed.
End properties.

(** the addresses a server binds: [any] and [loopback] are valid, of the
    family asked for, with the port and the right IP bytes, and survive the
    copy through [struct sockaddr] that [bind] and [accept] make. *)
Theorem inet_any_loopback port lo ipv6 :
  0 <= port < 2 ^ 16 ->
  let x := InetAddress_port port lo ipv6 in
  isValid x = true /\ family x = af_of ipv6 /\ toPort x = port /\
  (ipv6 = false -> sin_addr (as_in (addr_ x)) = if lo then [x7f; x00; x00; x01] else [x00; x00; x00; x00]) /\
  (ipv6 = true -> sin6_addr (as_in6 (addr_ x)) = if lo then in6addr_loopback else in6addr_any) /\
  InetAddress_sockaddr (addr_ x) (length_ x) = Ok x.
Proof.
  intros Hp x.
  set (ip := if ipv6 then if lo then in6addr_loopback else in6addr_any
             else if lo then [x7f; x00; x00; x01] else [x00; x00; x00; x00]).
  assert (x = endpoint ipv6 ip port) as Ex by (by destruct ipv6, lo).
  assert (addr_ok (af_of ipv6) ip) as Ha by (destruct ipv6, lo; [right|right|left|left]; done).
  rewrite Ex. split_and!; [by apply endpoint_valid|by apply endpoint_family|by apply endpoint_port| | |].
  - intros ->. cbn [endpoint InetAddress_in addr_]. rewrite as_in_storage by (by apply endpoint_in_wf). by destruct lo.
  - intros ->. cbn [endpoint InetAddress_in6 addr_]. rewrite as_in6_storage by (by apply endpoint_in6_wf). by destruct lo.
  - destruct ipv6; cbn [endpoint]; unfold InetAddress_in6, InetAddress_in; cbn [addr_ length_].
    + pose proof (in6_bytes_length _ (endpoint_in6_wf ip port Ha Hp)) as El. rewrite <- El.
      by apply sockaddr_copy; rewrite El.
    + pose proof (in_bytes_length _ (endpoint_in_wf ip port Ha Hp)) as El. rewrite <- El.
      by apply sockaddr_copy; rewrite El.
Qed.

(** C33: [isSelfConnect] says whether the two ends of a socket, as the kernel
    names them, have the same family, address and port; it is false when a name
    cannot be obtained. *)
Theorem isSelfConnect_correct v1 a1 p1 f1 s1 v2 a2 p2 f2 s2 :
  name_ok v1 a1 p1 f1 s1 -> name_ok v2 a2 p2 f2 s2 ->
  isSelfConnect (inl (kernel_name v1 a1 p1 f1 s1)) (inl (kernel_name v2 a2 p2 f2 s2))
    = Ok (bool_decide (v1 = v2 /\ a1 = a2 /\ p1 = p2)) /\
  (forall e, isSelfConnect (inr e) (inl (kernel_name v2 a2 p2 f2 s2)) = Ok false /\
             isSelfConnect (inl (kernel_name v1 a1 p1 f1 s1)) (inr e) = Ok false).
Proof.
  intros H1 H2. pose proof H1 as (A1 & P1 & _). pose proof H2 as (A2 & P2 & _).
  destruct (get_name_spec v1 a1 p1 f1 s1 H1) as (x1 & E1 & F41 & F61 & D1).
  destruct (get_name_spec v2 a2 p2 f2 s2 H2) as (x2 & E2 & F42 & F62 & D2).
  unfold isSelfConnect, getLocalAddr, getPeerAddr. rewrite E1, E2. cbn [mbind res_bind]. split.
  - rewrite F41, F61, F42, F62. destruct v1, v2; cbn [negb andb];
      try (rewrite bool_decide_eq_false_2; [done|intros (? & _); done]).
    + destruct D1 as [-> ->], D2 as [-> ->]. rewrite htons_eqb by done. f_equal.
      repeat case_bool_decide; simpl; tauto.
    + destruct D1 as [-> ->], D2 as [-> ->]. rewrite htons_eqb by done. f_equal.
      assert ((of_le a1 =? of_le a2) = bool_decide (a1 = a2)) as ->.
      { case_bool_decide as E; [subst; apply Z.eqb_refl|]. apply Z.eqb_neq. intros Eo. apply E, of_le_inj; [|done].
        by rewrite (addr_ok_length false a1 A1), (addr_ok_length false a2 A2). }
      repeat case_bool_decide; simpl; tauto.
  - intros e. set (z := get_name (inr e)).
    assert (z = Ok (mkInet (storage []) sizeof_storage)) as -> by (vm_compute; reflexivity).
    cbn [mbind res_bind]. change (isIpv4 (mkInet (storage []) sizeof_storage)) with false.
    change (isIpv6 (mkInet (storage []) sizeof_storage)) with false. by rewrite !andb_false_r.
Qed.

(** C26: [Resolver::resolve] on every branch.  It succeeds exactly when the
    family is supported, [getaddrinfo] succeeds and its list has a usable entry;
    the result is then the first such entry with the port asked for, and the
    error code 0.  Otherwise [*result] is unchanged and the error code tells
    why.  The list is freed exactly when there was one. *)
Theorem resolve_correct gai host r port fam st ec :
  0 <= port < 2 ^ 16 -> Forall ai_ok (gai (c_str host) fam st).2 ->
  let ret := (gai (c_str host) fam st).1 in
  let l := (gai (c_str host) fam st).2 in
  let supported := bool_decide (fam ∈ [AF_UNSPEC; AF_INET; AF_INET6]) in
  exists out, resolve gai host r port fam st ec = Ok out /\
    match (if supported && (ret =? 0) then List.find usable l else None) with
    | Some ai => r_ok out = true /\ picked ai port (r_result out) /\ r_error out = set_error ec 0
    | None => r_ok out = false /\ r_result out = r /\
        r_error out = set_error ec (if negb supported then EAI_FAMILY else if ret =? 0 then EAI_NONAME else ret)
    end /\
    r_freed out = if supported && (ret =? 0) && bool_decide (l <> []) then 1%nat else 0%nat.
Proof.
  intros Hp Hl ret l supported. unfold resolve.
  assert (negb (fam =? AF_UNSPEC) && negb (fam =? AF_INET) && negb (fam =? AF_INET6) = negb supported) as ->.
  { unfold supported. rewrite (bool_decide_ext _ (fam = AF_UNSPEC \/ fam = AF_INET \/ fam = AF_INET6)).
    2: { rewrite !elem_of_cons, elem_of_nil. tauto. }
    repeat match goal with |- context [fam =? ?x] => destruct (Z.eqb_spec fam x) end;
      simpl; case_bool_decide; simpl; tauto. }
  destruct supported eqn:Hs; simpl negb; cbv iota; cbn [andb].
  2: { eexists. split; [done|]. split; [|done]. split_and!; try done. simpl. by rewrite set_error_twice. }
  subst ret l. destruct (gai (c_str host) fam st) as [ret l]. simpl fst in *. simpl snd in *.
  pose proof (pick_spec l port Hl Hp) as Hpick. destruct (Z.eqb_spec ret 0) as [-> |Hne]; cbn [negb orb andb].
  - destruct l as [|ai l]; cbn [List.find] in *.
    { rewrite bool_decide_eq_true_2 by done. eexists. split; [done|]. simpl. by rewrite set_error_twice. }
    rewrite bool_decide_eq_false_2 by done. rewrite bool_decide_eq_true_2 by done.
    fold (List.find usable (ai :: l)) in *. cbn [List.find] in *.
    destruct (if usable ai then Some ai else List.find usable l) as [ai'|].
    + destruct Hpick as (x & -> & Hx). eexists. by split_and!.
    + rewrite Hpick. eexists. split; [done|]. simpl. by rewrite set_error_twice.
  - eexists. split; [done|]. simpl. rewrite set_error_twice. done.
Qed.

(** ** The theorems at concrete inputs

    An implementation of [InetText] that writes addresses in hexadecimal. *)
Module HexText.
Definition digit (n : Z) : Ascii.ascii :=
  Ascii.ascii_of_N (Z.to_N (if n <? 10 then 48 + n else 87 + n)).
Definition hex_byte (b : byte) (s : string) : string :=
  String (digit (Z_of_byte b / 16)) (String (digit (Z_of_byte b mod 16)) s).
Definition hex (l : list byte) : string := foldr hex_byte EmptyString l.
Definition undigit (c : Ascii.ascii) : option Z :=
  let n := Z.of_N (Ascii.N_of_ascii c) in
  if (48 <=? n) && (n <? 58) then Some (n - 48) else
  if (97 <=? n) && (n <? 103) then Some (n - 87) else None.
Fixpoint unhex (s : string) : option (list byte) :=
  match s with
  | EmptyString => Some []
  | String c1 (String c2 s') =>
      match undigit c1, undigit c2, unhex s' with
      | Some h, Some l, Some bs => Some (byte_of_Z (16 * h + l) :: bs)
      | _, _, _ => None
      end
  | _ => None
  end.
Definition pton (af : Z) (s : string) : Z * list byte :=
  match unhex s with
  | Some a => if bool_decide (addr_ok af a) then (1, a) else (0, [])
  | None => (0, [])
  end.

#[global] Instance hex_text : InetText := { inet_ntop := fun _ => hex; inet_pton := pton }.

Lemma undigit_hex b s : unhex (hex_byte b s) = match unhex s with Some bs => Some (b :: bs) | None => None end.
Proof. destruct b; reflexivity. Qed.

Lemma unhex_hex l : unhex (hex l) = Some l.
Proof. induction l as [|b l IH]; [done|]. change (hex (b :: l)) with (hex_byte b (hex l)). by rewrite undigit_hex, IH. Qed.

Lemma hex_length l : String.length (hex l) = (2 * length l)%nat.
Proof. induction l as [|b l IH]; [done|]. change (hex (b :: l)) with (hex_byte b (hex l)). simpl. rewrite IH. lia. Qed.

Lemma hex_c_str l : c_str (hex l) = hex l.
Proof.
  induction l as [|b l IH]; [done|]. change (hex (b :: l)) with (hex_byte b (hex l)).
  assert (c_str (hex_byte b (hex l)) = hex_byte b (c_str (hex l))) as -> by (destruct b; reflexivity). by rewrite IH.
Qed.

#[global] Instance hex_laws : InetTextLaws.
Proof.
  split; simpl; unfold pton.
  - intros af a Ha. rewrite unhex_hex. by rewrite bool_decide_eq_true_2.
  - intros af s a _. destruct (unhex s) as [a'|]; [|done]. case_bool_decide; [|done]. by intros [= <-].
  - intros af s. destruct (unhex s); [|auto]. case_bool_decide; auto.
  - intros a Ha. rewrite hex_length, (addr_ok_length false a Ha). done.
  - intros a Ha. rewrite hex_length, (addr_ok_length true a Ha). done.
  - intros af a _. apply hex_c_str.
Qed.
End HexText.

Lemma inet_text_roundtrip_witness :
  let ip := inet_ntop AF_INET [x7f; x00; x00; x01] in
  exists x, tryParse ip 8080 false = (true, x) /\ family x = AF_INET /\
    inet_toIp x = Ok ip /\ toPort x = 8080 /\ inet_toIpPort x = Ok (ip_port false ip 8080).
Proof.
  apply (inet_text_roundtrip false [x7f; x00; x00; x01] 8080).
  - by left.
  - lia.
Defined.

Lemma inet_tryParse_witness :
  let '(ok, x) := tryParse "7f00zz01" 80 false in
  ok = bool_decide ((inet_pton AF_INET "7f00zz01").1 = 1) /\
  if ok then isValid x = true /\ toPort x = 80 /\ exists t, inet_toIp x = Ok t /\ tryParse t 80 false = (true, x)
  else isValid x = false /\ inet_toIp x = Ok EmptyString /\ inet_toIpPort x = Ok EmptyString.
Proof. apply (inet_tryParse "7f00zz01" 80 false). lia. Defined.

Lemma inet_any_loopback_witness :
  let x := InetAddress_port 80 true false in
  isValid x = true /\ family x = AF_INET /\ toPort x = 80 /\
  (false = false -> sin_addr (as_in (addr_ x)) = [x7f; x00; x00; x01]) /\
  (false = true -> sin6_addr (as_in6 (addr_ x)) = in6addr_loopback) /\
  InetAddress_sockaddr (addr_ x) (length_ x) = Ok x.
Proof. apply (inet_any_loopback 80 true false). lia. Defined.

Lemma isSelfConnect_correct_witness :
  isSelfConnect (inl (kernel_name false [x7f; x00; x00; x01] 80 0 0)) (inl (kernel_name false [x7f; x00; x00; x01] 80 0 0))
    = Ok true /\
  (forall e, isSelfConnect (inr e) (inl (kernel_name false [x7f; x00; x00; x01] 80 0 0)) = Ok false /\
             isSelfConnect (inl (kernel_name false [x7f; x00; x00; x01] 80 0 0)) (inr e) = Ok false).
Proof.
  apply (isSelfConnect_correct false [x7f; x00; x00; x01] 80 0 0 false [x7f; x00; x00; x01] 80 0 0).
  - split_and!; [by left|lia..].
  - split_and!; [by left|lia..].
Defined.

(** A list with an entry of another family before the one that is taken. *)
Definition ex_gai (_ : string) (_ _ : Z) : Z * list addrinfo :=
  (0, [mkAi 1 (le_bytes 2 1) 2; mkAi AF_INET (in_bytes (mkIn AF_INET 0 [x0a; x00; x00; x01] (replicate 8 x00))) 16]).

Lemma resolve_correct_witness :
  exists out, resolve ex_gai "host" (mkInet (storage []) 0) 443 AF_UNSPEC 1 (Some 7) = Ok out /\
    (r_ok out = true /\
     picked (mkAi AF_INET (in_bytes (mkIn AF_INET 0 [x0a; x00; x00; x01] (replicate 8 x00))) 16) 443 (r_result out) /\
     r_error out = Some 0) /\
    r_freed out = 1%nat.
Proof.
  apply (resolve_correct ex_gai "host" (mkInet (storage []) 0) 443 AF_UNSPEC 1 (Some 7)).
  - lia.
  - repeat constructor.
Defined.

(** An address the resolver found. *)
Definition ex_address : InetAddress := InetAddress_in (mkIn AF_INET (htons 443) [x0a; x00; x00; x01] (replicate 8 x00)).

Lemma inet_typed_witness :
  zlen (addr_ ex_address) = sizeof_storage /\
  is_ok (inet_toIp ex_address) /\ is_ok (inet_toIpPort ex_address) /\
  (isIpv4 ex_address = true -> is_ok (ipNetEndian ex_address)) /\
  (isValid ex_address = true -> typed ex_address /\ 0 <= toPort ex_address < 2 ^ 16 /\
     forall (K : Type) (calls : SocketCalls K) k fd,
       sock_connect k fd (addr_ ex_address) = k_connect k fd (addr_ ex_address) (length_ ex_address)).
Proof.
  apply (inet_typed ex_gai ex_address).
  apply (made_resolve ex_gai "host" (InetAddress_port 0 false false) 443 AF_UNSPEC 1 (Some 7) (mkRes true ex_address (Some 0) 1)).
  - apply made_port. lia.
  - lia.
  - repeat constructor.
  - vm_compute. reflexivity.
Defined.
