(* ===== verification/TcpServer.v ===== *)
(** * TcpServer: the acceptor and the table of connections

    Models [include/hvnetpp/TcpServer.h] and [src/TcpServer.cpp] with its
    internal class [Acceptor], over the connections of TcpConnection.v.
    Everything runs on the loop's thread but [start] and the destructors, which
    may run on any thread, each as one step between two events of the loop, and
    then leave functors to it.  The server is composed with its connections: an event of
    a connection that calls the close callback runs [removeConnection] at once,
    and a connection object lives as long as the table, a posted functor or the
    user's code holds a pointer to it; when the last one goes its destructor
    runs.  The answers of the kernel come with the calls. *)

From stdpp Require Import sorting.
From S2P Require Import SocketsOps.
From S2P Require Import Prelude Buffer Channel TcpConnection.

#[local] Open Scope Z_scope.

(** ** Data *)
Inductive State : Type := kIdle | kStarting | kListening.

#[global] Instance State_eq_dec : EqDecision State.
Proof. solve_decision. Defined.

(** [Acceptor]; its callback is the one the server's constructor sets.
    [released]: it was destroyed on another thread, and what [cleanupAcceptor]
    queued on the loop keeps the channel and the descriptors. *)
Record Acceptor : Type := mkAcceptor {
  acceptSocket_ : Z;
  acceptChannel_ : option Channel;
  listening_ : bool;
  idleFd_ : Z;
  released : bool
}.

(** What a server does to the loop's poller and to descriptors: what the
    connection at [p] does, connections made and deleted, descriptors opened and
    closed, the acceptor's channel put into the poller, the acceptor destroyed,
    its channel taken out. *)
Inductive server_op : Type :=
| SvConnOp (p : Z) (o : chan_op)
| SvNewConn (p fd : Z)
| SvFreeConn (p : Z)
| SvOpen (fd : Z)
| SvClose (fd : Z)
| SvListen (fd : Z)
| SvDropAcceptor
| SvUnlisten.

(** The server.  [token] says that [callbackToken_] is not reset; [acceptor_]
    is the acceptor object while it lives ([starts] start functors queued by
    other threads hold it too) or its cleanup is queued; [conns] is the heap of connection objects with
    their names, [held] those the user's code keeps a pointer to; [fds] are the
    open descriptors of the acceptor and the connections; [ops] is history, what
    was done to the poller and to descriptors (TcpServerReactor.v runs it). *)
Record Server (B : Type) : Type := mkServer {
  name_ : string;
  sv_state : State;
  acceptor_ : option Acceptor;
  token : bool;
  nextConnId_ : Z;
  connections_ : gmap string Z;
  callbacks_ : bool * bool * bool;     (* connection, message, write-complete *)
  starts : nat;
  conns : gmap Z (string * Conn B);
  held : gset Z;
  fds : gset Z;
  ops : list server_op
}.
Arguments mkServer {B}.
Arguments name_ {B}.
Arguments sv_state {B}.
Arguments acceptor_ {B}.
Arguments token {B}.
Arguments nextConnId_ {B}.
Arguments connections_ {B}.
Arguments callbacks_ {B}.
Arguments starts {B}.
Arguments conns {B}.
Arguments held {B}.
Arguments fds {B}.
Arguments ops {B}.

Section server.
Context {B : Type} `{ByteQueueOps B}.
Implicit Types (sv : Server B) (p fd : Z).

Definition set_sv sv st a tk id m n cs hd f : Server B :=
  mkServer (name_ sv) st a tk id m (callbacks_ sv) n cs hd f (ops sv).
Definition set_state sv st : Server B :=
  set_sv sv st (acceptor_ sv) (token sv) (nextConnId_ sv) (connections_ sv) (starts sv) (conns sv) (held sv) (fds sv).
Definition set_acceptor sv a f : Server B :=
  set_sv sv (sv_state sv) a (token sv) (nextConnId_ sv) (connections_ sv) (starts sv) (conns sv) (held sv) f.
Definition set_token sv b : Server B :=
  set_sv sv (sv_state sv) (acceptor_ sv) b (nextConnId_ sv) (connections_ sv) (starts sv) (conns sv) (held sv) (fds sv).
Definition set_nextId sv id : Server B :=
  set_sv sv (sv_state sv) (acceptor_ sv) (token sv) id (connections_ sv) (starts sv) (conns sv) (held sv) (fds sv).
Definition set_connections sv m : Server B :=
  set_sv sv (sv_state sv) (acceptor_ sv) (token sv) (nextConnId_ sv) m (starts sv) (conns sv) (held sv) (fds sv).
Definition set_starts sv n : Server B :=
  set_sv sv (sv_state sv) (acceptor_ sv) (token sv) (nextConnId_ sv) (connections_ sv) n (conns sv) (held sv) (fds sv).
Definition set_conns sv cs f : Server B :=
  set_sv sv (sv_state sv) (acceptor_ sv) (token sv) (nextConnId_ sv) (connections_ sv) (starts sv) cs (held sv) f.
Definition set_held sv hd : Server B :=
  set_sv sv (sv_state sv) (acceptor_ sv) (token sv) (nextConnId_ sv) (connections_ sv) (starts sv) (conns sv) hd (fds sv).

Definition log sv (l : list server_op) : Server B :=
  mkServer (name_ sv) (sv_state sv) (acceptor_ sv) (token sv) (nextConnId_ sv) (connections_ sv) (callbacks_ sv)
    (starts sv) (conns sv) (held sv) (fds sv) (ops sv ++ l).

(** A descriptor the code opened, and one it closed ([< 0] is none). *)
Definition opened (f : gset Z) fd : gset Z := if 0 <=? fd then {[fd]} ∪ f else f.
Definition closed (f : gset Z) fd : gset Z := if 0 <=? fd then f ∖ {[fd]} else f.
Definition op_open fd : list server_op := if 0 <=? fd then [SvOpen fd] else [].
Definition op_close fd : list server_op := if 0 <=? fd then [SvClose fd] else [].

(** [openIdleFd], and the constructors. *)
Definition openIdleFd (answer : sys_fd) : Z := match answer with inl fd => fd | inr _ => -1 end.
Definition Acceptor_new (idle : sys_fd) : Acceptor := mkAcceptor (-1) None false (openIdleFd idle) false.
Definition TcpServer_new (nameArg : string) (cbs : bool * bool * bool) (idle : sys_fd) : Server B :=
  let a := Acceptor_new idle in
  mkServer nameArg kIdle (Some a) true 1 ∅ cbs 0 ∅ ∅ (opened ∅ (idleFd_ a)) (op_open (idleFd_ a)).

(** ** [Acceptor] *)

(** The functor of [cleanupAcceptor], run on the loop's thread. *)
Definition cleanupAcceptor sv (a : Acceptor) : Server B :=
  log (set_acceptor sv None (closed (closed (fds sv) (acceptSocket_ a)) (idleFd_ a)))
    (match acceptChannel_ a with Some _ => [SvUnlisten] | None => [] end ++
     op_close (acceptSocket_ a) ++ op_close (idleFd_ a)).

(** [~Acceptor]: the cleanup runs at once, or is queued. *)
Definition expire_acceptor (a : Acceptor) : Acceptor :=
  mkAcceptor (acceptSocket_ a) (acceptChannel_ a) (listening_ a) (idleFd_ a) true.
Definition Acceptor_delete (inLoop : bool) sv (a : Acceptor) : Server B :=
  let sv1 := log sv [SvDropAcceptor] in
  if inLoop then cleanupAcceptor sv1 a else set_acceptor sv1 (Some (expire_acceptor a)) (fds sv1).
Definition run_cleanup sv : Server B :=
  match acceptor_ sv with
  | Some a => if released a then cleanupAcceptor sv a else sv
  | None => sv
  end.

(** [tie_.lock()] of the acceptor's channel. *)
Definition live_acceptor sv : bool := match acceptor_ sv with Some a => negb (released a) | None => false end.

(** [listen()], with the answers of [socket], [bind] and [listen]. *)
Definition Acceptor_listen sv (a : Acceptor) (sock : sys_fd) (bound lstn : Z) : bool * Server B :=
  if listening_ a then (true, sv) else
  let sockfd := createNonblocking sock in
  if sockfd <? 0 then (false, sv) else
  let f := opened (fds sv) sockfd in
  let failed := log (set_acceptor sv (Some a) (closed f sockfd)) [SvOpen sockfd; SvClose sockfd] in
  if negb (sock_bind bound) then (false, failed) else
  if negb (sock_listen lstn) then (false, failed) else
  let c := channel_set EnableReading (tie (set_callbacks (Channel_new sockfd) true false false false) 0) in
  (true, log (set_acceptor sv (Some (mkAcceptor sockfd (Some c) true (idleFd_ a) (released a))) f) [SvOpen sockfd; SvListen sockfd]).

Definition after_listen (r : bool * Server B) : Server B := set_state r.2 (if r.1 then kListening else kIdle).

(** [start()]: the state it returns, and the server. *)
Definition start (inLoop : bool) sv (sock : sys_fd) (bound lstn : Z) : State * Server B :=
  let current := sv_state sv in
  if negb (bool_decide (current = kIdle)) then (current, sv) else
  let sv1 := set_state sv kStarting in
  if inLoop then
    let sv2 := after_listen (match acceptor_ sv1 with
                             | Some a => Acceptor_listen sv1 a sock bound lstn
                             | None => (false, sv1)
                             end) in
    (sv_state sv2, sv2)
  else (kStarting, set_starts sv1 (S (starts sv1))).

(** A functor queued by [start]: after it the acceptor it holds is released. *)
Definition run_start sv (sock : sys_fd) (bound lstn : Z) : Server B :=
  match starts sv, acceptor_ sv with
  | S n, Some a =>
      let sv1 := set_starts sv n in
      if token sv1 then after_listen (Acceptor_listen sv1 a sock bound lstn)
      else if Nat.eqb n 0 then Acceptor_delete true sv1 a else sv1
  | _, _ => sv
  end.

(** ** Connections *)

(** [name_ + buf] after [snprintf(buf, 64, "-%s#%d", name_.c_str(), id)]. *)
Definition connName (nm : string) (id : Z) : string :=
  nm +:+ snprintf 64 ("-" +:+ c_str nm +:+ "#" +:+ pretty id).

Definition defaultHighWaterMark : Z := 64 * 1024 * 1024.

Definition setCloseCallback (c : Conn B) (b : bool) : Conn B :=
  mkConn (state_ c) (socketFd_ c) (channel_ c) (inputBuffer_ c) (outputBuffer_ c) (highWaterMark_ c)
    (connectionCallback_ c) (messageCallback_ c) (writeCompleteCallback_ c) (highWaterMarkCallback_ c) b
    (writes c) (sockerr c) (posted c) (sent c) (written c) (received c) (consumed c) (wr_shut c) (chan_ops c).

(** What the connection at [p] did between two states. *)
Definition conn_ops p (c c' : Conn B) : list server_op := SvConnOp p <$> drop (length (chan_ops c)) (chan_ops c').

(** Who holds a pointer to the connection at [p]: the table, a posted functor,
    the user. *)
Definition referenced sv p (nm : string) (c : Conn B) : bool :=
  bool_decide (connections_ sv !! nm = Some p) || negb (bool_decide (posted c = [])) || bool_decide (p ∈ held sv).

(** The last pointer to [p] may be gone: its destructor then runs, and deletes
    the channel, which must be out of the loop ([BadPointer]: the poller would
    keep a pointer to it). *)
Definition reap sv p : res (Server B) :=
  match conns sv !! p with
  | None => Ok sv
  | Some (nm, c) =>
      if referenced sv p nm c then Ok sv else
      c' ← TcpConnection_delete c;
      if addedToLoop_ (channel_ c') then Fault BadPointer
      else Ok (log (set_conns sv (delete p (conns sv))
                      (if socketFd_ c' <? 0 then closed (fds sv) (socketFd_ c) else fds sv))
                 (conn_ops p c c' ++ [SvFreeConn p]))
  end.

(** [removeConnection] and [removeConnectionInLoop] (on the loop's thread): the
    entry erased releases its pointer; the functor the function queues is
    already in [posted]. *)
Definition removeConnectionInLoop sv (nm : string) : res (Server B) :=
  let entry := connections_ sv !! nm in
  let n := if bool_decide (is_Some entry) then 1 else 0 in
  let sv1 := set_connections sv (delete nm (connections_ sv)) in
  sv2 ← match entry with Some q => reap sv1 q | None => Ok sv1 end;
  assert_ (n =? 1);;
  Ok sv2.

(** An event of the connection at [p]: what it does to the object and its
    descriptor, and the close callback if it called it. *)
Definition conn_run sv p (ev : event) (e : env) : res (Server B) :=
  '(nm, c) ← deref (conns sv !! p);
  c' ← run_event c ev e;
  let f := if (0 <=? socketFd_ c) && (socketFd_ c' <? 0) then closed (fds sv) (socketFd_ c) else fds sv in
  let sv1 := log (set_conns sv (<[p := (nm, c')]> (conns sv)) f) (conn_ops p c c') in
  let called := destroys c' - (destroys c - fired c ev) in
  if (0 <? called) && token sv1 then removeConnectionInLoop sv1 nm else Ok sv1.

Definition conn_event sv p (ev : event) (e : env) : res (Server B) :=
  sv1 ← conn_run sv p ev e;
  reap sv1 p.

(** [newConnection]: the connection is allocated at [p]; assigning its table
    entry releases the pointer that was there. *)
Definition newConnection sv (sockfd p : Z) (e : env) : res (Server B) :=
  if bool_decide (nextConnId_ sv + 1 < 2 ^ 31) then
    let nm := connName (name_ sv) (nextConnId_ sv) in
    let sv1 := set_nextId sv (nextConnId_ sv + 1) in
    let '(cc, mc, wc) := callbacks_ sv in
    let conn := TcpConnection_new sockfd defaultHighWaterMark cc mc wc false true in
    let old := connections_ sv1 !! nm in
    let sv2 := log (set_connections (set_conns sv1 (<[p := (nm, conn)]> (conns sv1)) (fds sv1)) (<[nm := p]> (connections_ sv1)))
                 [SvNewConn p sockfd] in
    sv3 ← match old with Some q => reap sv2 q | None => Ok sv2 end;
    conn_event sv3 p EvEstablish e
  else Fault SignedOverflow.

(** An answer of [accept4] in the loop of [handleRead]; for a new connection
    the pointer it is allocated at, and what happens during its callbacks. *)
Record answer : Type := mkAnswer { an_fd : sys_fd; an_ptr : Z; an_env : env }.

(** The branch for EMFILE, with the answers of [accept] and [open]. *)
Definition drop_one sv (a : Acceptor) (acc idle : sys_fd) : Server B :=
  let f1 := closed (fds sv) (idleFd_ a) in
  let fd := match acc with inl fd => fd | inr _ => -1 end in
  let f2 := closed (opened f1 fd) fd in
  let i := openIdleFd idle in
  log (set_acceptor sv (Some (mkAcceptor (acceptSocket_ a) (acceptChannel_ a) (listening_ a) i (released a))) (opened f2 i))
    (op_close (idleFd_ a) ++ op_open fd ++ op_close fd ++ op_open i).

Fixpoint handleAccept sv (ans : list answer) (acc idle : sys_fd) : res (Server B) :=
  match ans with
  | [] => Ok sv            (* EAGAIN *)
  | an :: ans' =>
      r ← accept (an_fd an);
      match r with
      | inl connfd =>
          let sv1 := log (set_conns sv (conns sv) (opened (fds sv) connfd)) [SvOpen connfd] in
          sv2 ← (if token sv1 then newConnection sv1 connfd (an_ptr an) (an_env an)
                 else Ok (log (set_conns sv1 (conns sv1) (closed (fds sv1) connfd)) [SvClose connfd]));
          handleAccept sv2 ans' acc idle
      | inr e =>
          if e =? EAGAIN then Ok sv else
          if e =? EMFILE then
            Ok match acceptor_ sv with Some a => drop_one sv a acc idle | None => sv end
          else Ok sv
      end
  end.

(** ** [~TcpServer], on the loop's thread or another

    The map of connections is ordered by name. *)
Definition by_name (x y : string * Z) : Prop := String.leb x.1 y.1 = true.
#[global] Instance by_name_dec : RelDecision by_name.
Proof. intros x y. unfold by_name. apply _. Defined.

Definition in_order (m : gmap string Z) : list (string * Z) := merge_sort by_name (map_to_list m).

Fixpoint destroy_all (inLoop : bool) sv (ps : list Z) (envs : Z -> env) : res (Server B) :=
  match ps with
  | [] => Ok sv
  | p :: ps' =>
      '(nm, c) ← deref (conns sv !! p);
      let c1 := setCloseCallback c false in
      sv2 ← (if inLoop then conn_event (set_conns sv (<[p := (nm, c1)]> (conns sv)) (fds sv)) p EvDestroy (envs p)
             else Ok (set_conns sv (<[p := (nm, queueInLoop c1 FDestroyed)]> (conns sv)) (fds sv)));
      destroy_all inLoop sv2 ps' envs
  end.

Definition TcpServer_delete (inLoop : bool) sv (envs : Z -> env) : res (Server B) :=
  let sv1 := set_state (set_token sv false) kIdle in
  let connections := (in_order (connections_ sv1)).*2 in
  let sv2 := set_connections sv1 ∅ in
  let sv3 := match acceptor_ sv2 with
             | Some a => if Nat.eqb (starts sv2) 0 then Acceptor_delete inLoop sv2 a else sv2
             | None => sv2
             end in
  destroy_all inLoop sv3 connections envs.
End server.

(** ** Descriptors and their owners

    Every open descriptor has exactly one owner. *)
Inductive owner : Type := OConn (p : Z) | OAccept | OIdle.

#[global] Instance owner_eq_dec : EqDecision owner.
Proof. solve_decision. Defined.

Definition fds_ok (own : owner -> Z) (f : gset Z) : Prop :=
  (forall fd, fd ∈ f <-> 0 <= fd /\ exists o, own o = fd) /\
  (forall o1 o2, 0 <= own o1 -> own o1 = own o2 -> o1 = o2).

Lemma elem_closed (f : gset Z) fd x : x ∈ closed f fd <-> x ∈ f /\ (0 <= fd -> x <> fd).
Proof. unfold closed. destruct (Z.leb_spec 0 fd); [set_solver|]. split; [intros; split; [done|lia]|tauto]. Qed.
Lemma elem_opened (f : gset Z) fd x : x ∈ opened f fd <-> x ∈ f \/ 0 <= fd /\ x = fd.
Proof. unfold opened. destruct (Z.leb_spec 0 fd); [set_solver|]. split; [tauto|intros [?|[? ?]]; [done|lia]]. Qed.

Lemma fds_ext own own' f : (forall o, own' o = own o \/ own' o < 0 /\ own o < 0) -> fds_ok own f -> fds_ok own' f.
Proof.
  intros E [H1 H2]. split.
  - intros fd. rewrite H1. split; intros [? [o Ho]]; (split; [done|]); exists o; destruct (E o); lia.
  - intros o1 o2 Hp Eq. apply H2; destruct (E o1), (E o2); lia.
Qed.

(** One owner closes its descriptor and gets another, or none. *)
Lemma fds_update own own' f o :
  (forall o', o' <> o -> own' o' = own o') -> (0 <= own' o -> own' o ∉ closed f (own o)) ->
  fds_ok own f -> fds_ok own' (opened (closed f (own o)) (own' o)).
Proof.
  intros E Hfresh [H1 H2]. split.
  - intros fd. rewrite elem_opened, elem_closed, H1. split.
    + intros [[[? [o1 <-]] Hne]|[? ->]]; [|split; [done|by exists o]].
      split; [done|]. exists o1. apply E. intros ->. by apply Hne.
    + intros [? [o1 <-]]. destruct (decide (o1 = o)) as [->|Ho]; [by right|]. left. rewrite E in * by done.
      split; [split; [done|by exists o1]|]. intros ? Eq. apply Ho. by apply H2.
  - intros o1 o2 Hp Eq. destruct (decide (o1 = o)) as [->|Ho1], (decide (o2 = o)) as [->|Ho2]; [done| | |].
    + destruct (Hfresh Hp). rewrite elem_closed, Eq, (E o2 Ho2), H1. rewrite Eq, (E o2 Ho2) in Hp.
      split; [split; [done|by exists o2]|]. intros ? Eq'. apply Ho2. by apply H2.
    + rewrite Eq in Hp. destruct (Hfresh Hp). rewrite <- Eq, elem_closed, (E o1 Ho1), H1. rewrite <- Eq, (E o1 Ho1) in Hp.
      split; [split; [done|by exists o1]|]. intros ? Eq'. apply Ho1. by apply H2.
    + rewrite !E in Eq by done. rewrite E in Hp by done. by apply H2.
Qed.

Lemma opened_neg f fd : fd < 0 -> opened f fd = f.
Proof. intros Hf. unfold opened. by rewrite (proj2 (Z.leb_gt 0 fd)). Qed.
Lemma closed_neg f fd : fd < 0 -> closed f fd = f.
Proof. intros Hf. unfold closed. by rewrite (proj2 (Z.leb_gt 0 fd)). Qed.
Lemma closed_opened f fd : fd ∉ f -> closed (opened f fd) fd = f.
Proof. unfold closed, opened. destruct (0 <=? fd); [set_solver|done]. Qed.

(** ** Names

    A server name short enough for the buffer of 64 characters. *)
Definition name_ok (nm : string) : Prop := (String.length (c_str nm) <= 51)%nat.

Lemma pretty_Z_length id : 0 <= id < 2 ^ 31 -> (String.length (pretty id) <= 10)%nat.
Proof.
  intros Hid. assert (pretty id = pretty (Z.to_N id)) as -> by (destruct id; [done|done|lia]).
  apply pretty_N_length; [lia|]. change (10 ^ N.of_nat 10)%N with 10000000000%N. lia.
Qed.

Lemma connName_inj nm i j : name_ok nm -> 0 <= i < 2 ^ 31 -> 0 <= j < 2 ^ 31 ->
  connName nm i = connName nm j -> i = j.
Proof.
  intros Hn Hi Hj. unfold connName.
  assert (forall id, 0 <= id < 2 ^ 31 -> snprintf 64 ("-" +:+ c_str nm +:+ "#" +:+ pretty id)
    = "-" +:+ c_str nm +:+ "#" +:+ pretty id) as Hfit.
  { intros id Hid. apply snprintf_fits. pose proof (pretty_Z_length id Hid). unfold name_ok in Hn.
    rewrite !string_length_app. simpl String.length. lia. }
  rewrite !Hfit by done. intros E.
  apply (inj (String.append nm)), (inj (String.append "-")), (inj (String.append (c_str nm))), (inj (String.append "#")) in E.
  by apply (inj pretty) in E.
Qed.

(** ** The invariant *)
Section inv.
Context {B : Type} `{ByteQueue B}.
Implicit Types (sv : Server B) (p fd : Z) (c : Conn B) (X : gset Z).

Definition fd_of sv (o : owner) : Z :=
  match o with
  | OConn p => match conns sv !! p with Some (_, c) => socketFd_ c | None => -1 end
  | OAccept => match acceptor_ sv with Some a => acceptSocket_ a | None => -1 end
  | OIdle => match acceptor_ sv with Some a => idleFd_ a | None => -1 end
  end.

(** A connection in the table is open and has not called its close callback;
    one that left it is closed, and its [connectDestroyed] is queued or done.
    A destructor of the server on another thread leaves connections open, with
    [connectDestroyed] queued and no close callback. *)
Definition alive c : Prop := state_ c <> kDisconnected /\ hasCloseCallback c = true /\ destroys c = 0.
Definition gone c : Prop :=
  0 < destroys c /\ (state_ c = kDisconnected \/ hasCloseCallback c = false) \/ state_ c = kDisconnected /\ torn c.

(** [X] are connections the destructor of the server has still to close. *)
Record base_inv X sv : Prop := mkBase {
  b_conn p nm c : conns sv !! p = Some (nm, c) ->
    conn_inv c /\
    if bool_decide (p ∈ X) then connections_ sv !! nm <> Some p
    else if bool_decide (connections_ sv !! nm = Some p) then alive c else gone c;
  b_table nm p : connections_ sv !! nm = Some p -> exists c, conns sv !! p = Some (nm, c);
  b_token : token sv = false -> connections_ sv = ∅;
  b_names nm p : connections_ sv !! nm = Some p -> exists id, 0 <= id < nextConnId_ sv /\ nm = connName (name_ sv) id;
  b_next : 0 <= nextConnId_ sv < 2 ^ 31;
  b_fds : fds_ok (fd_of sv) (fds sv);
  b_acceptor : live_acceptor sv = false <-> token sv = false /\ starts sv = 0%nat;
  b_listening : sv_state sv = kListening -> token sv = true /\ exists a, acceptor_ sv = Some a /\ listening_ a = true;
  b_starting : sv_state sv = kStarting -> token sv = true /\ starts sv <> 0%nat;
  b_socket a : acceptor_ sv = Some a -> listening_ a = (0 <=? acceptSocket_ a)
}.

Lemma log_connections sv l m : set_connections (log sv l) m = log (set_connections sv m) l.
Proof. done. Qed.

Lemma base_log X sv l : base_inv X sv -> base_inv X (log sv l).
Proof. intros []. by split. Qed.

Definition ref_ok sv p : Prop := forall nm c, conns sv !! p = Some (nm, c) -> referenced sv p nm c = true.

Definition srv_inv sv : Prop := base_inv ∅ sv /\ forall p, ref_ok sv p.

Lemma srv_log sv l : srv_inv sv -> srv_inv (log sv l).
Proof. intros [I Hr]. split; [by apply base_log|exact Hr]. Qed.

(** The rest of the server is as it was. *)
Definition same_server sv sv' : Prop :=
  name_ sv' = name_ sv /\ sv_state sv' = sv_state sv /\ acceptor_ sv' = acceptor_ sv /\ token sv' = token sv /\
  nextConnId_ sv' = nextConnId_ sv /\ callbacks_ sv' = callbacks_ sv /\ starts sv' = starts sv /\ held sv' = held sv.

Lemma same_server_refl sv : same_server sv sv.
Proof. done. Qed.
Lemma same_server_trans sv1 sv2 sv3 : same_server sv1 sv2 -> same_server sv2 sv3 -> same_server sv1 sv3.
Proof. unfold same_server. intuition congruence. Qed.

Lemma destroys_elem c : 0 < destroys c -> FDestroyed ∈ posted c.
Proof.
  unfold destroys. induction (posted c) as [|f l IH]; simpl; [lia|]. intros Hd.
  destruct f; try (right; apply IH; simpl in Hd; lia). by left.
Qed.

Lemma fired_range c ev : 0 <= fired c ev <= 1.
Proof. unfold fired. destruct ev; try lia. destruct (posted c !! i) as [f|]; [|lia]. destruct f; simpl; lia. Qed.

Lemma fired_le c ev : fired c ev <= destroys c.
Proof.
  pose proof (destroys_nonneg c). unfold fired. destruct ev as [|r rv|i|acts|]; try lia.
  destruct (posted c !! i) as [f|] eqn:E; [|lia].
  pose proof (sum_cost_delete is_destroy _ _ _ E) as Hd. unfold destroys in *.
  assert (0 <= sum_cost is_destroy (delete i (posted c))) by (apply sum_cost_nonneg; by intros []). lia.
Qed.

(** Storing a connection: the descriptors. *)
Lemma fds_store sv p nm c c' :
  fds_ok (fd_of sv) (fds sv) -> conns sv !! p = Some (nm, c) ->
  (socketFd_ c' = socketFd_ c \/ socketFd_ c' < 0) ->
  let f := if (0 <=? socketFd_ c) && (socketFd_ c' <? 0) then closed (fds sv) (socketFd_ c) else fds sv in
  fds_ok (fd_of (set_conns sv (<[p := (nm, c')]> (conns sv)) f)) f.
Proof.
  intros Hf Hp Hfd f. set (sv' := set_conns sv _ _).
  assert (fd_of sv (OConn p) = socketFd_ c) as E1 by (simpl; by rewrite Hp).
  assert (fd_of sv' (OConn p) = socketFd_ c') as E2 by (simpl; by rewrite lookup_insert_eq).
  assert (forall o, o <> OConn p -> fd_of sv' o = fd_of sv o) as E3.
  { intros [q| |] Hne; simpl; try done. rewrite lookup_insert_ne; [done|congruence]. }
  destruct Hfd as [Hs|Hneg].
  - assert (f = fds sv) as -> by (unfold f; rewrite Hs; destruct (Z.leb_spec 0 (socketFd_ c)), (Z.ltb_spec (socketFd_ c) 0); done || lia).
    eapply fds_ext; [|exact Hf]. intros o. left. destruct (decide (o = OConn p)) as [->|]; [congruence|by apply E3].
  - pose proof (fds_update (fd_of sv) (fd_of sv') (fds sv) (OConn p) E3) as Hu. rewrite E2, E1 in Hu.
    rewrite opened_neg in Hu by done.
    assert (f = closed (fds sv) (socketFd_ c)) as ->; [|apply Hu; [lia|done]].
    unfold f. rewrite (proj2 (Z.ltb_lt (socketFd_ c') 0)) by done. rewrite andb_true_r.
    destruct (Z.leb_spec 0 (socketFd_ c)); [done|]. by rewrite closed_neg.
Qed.

(** Storing a connection and taking entries out of the table. *)
Lemma base_update X X' sv p nm c c' m :
  base_inv X sv -> conns sv !! p = Some (nm, c) -> conn_inv c' ->
  (socketFd_ c' = socketFd_ c \/ socketFd_ c' < 0) ->
  m ⊆ connections_ sv -> (forall nm' q, q <> p -> connections_ sv !! nm' = Some q -> m !! nm' = Some q) ->
  (forall q, q <> p -> q ∈ X' <-> q ∈ X) ->
  (if bool_decide (p ∈ X') then m !! nm <> Some p
   else if bool_decide (m !! nm = Some p) then alive c' else gone c') ->
  let f := if (0 <=? socketFd_ c) && (socketFd_ c' <? 0) then closed (fds sv) (socketFd_ c) else fds sv in
  base_inv X' (set_connections (set_conns sv (<[p := (nm, c')]> (conns sv)) f) m).
Proof.
  intros I Hp I' Hfd Hsub Hoth HX Hcase f.
  assert (forall nm' q, m !! nm' = Some q -> connections_ sv !! nm' = Some q) as Hin.
  { intros nm' q Hm. by eapply lookup_weaken. }
  pose proof (fds_store sv p nm c c' (b_fds _ _ I) Hp Hfd) as Hfds. cbv zeta in Hfds. fold f in Hfds.
  split; simpl; try apply I.
  - intros q nmq cq. destruct (decide (q = p)) as [->|Hq].
    + rewrite lookup_insert_eq. by intros [= <- <-].
    + rewrite lookup_insert_ne by done. intros Hcq. destruct (b_conn _ _ I q nmq cq Hcq) as [Iq Hc]. split; [done|].
      assert (m !! nmq = Some q <-> connections_ sv !! nmq = Some q) as Hm by (split; [apply Hin|by apply Hoth]).
      rewrite (bool_decide_ext _ _ (HX q Hq)), (bool_decide_ext _ _ Hm). by destruct (bool_decide (q ∈ X)); rewrite ?Hm.
  - intros nm' q Hm. apply Hin in Hm. destruct (b_table _ _ I nm' q Hm) as [cq Hcq].
    destruct (decide (q = p)) as [->|Hq]; [|exists cq; by rewrite lookup_insert_ne].
    rewrite lookup_insert_eq. rewrite Hp in Hcq. injection Hcq as -> ->. by exists c'.
  - intros Ht. apply (b_token _ _ I) in Ht. apply map_eq. intros k. rewrite lookup_empty.
    destruct (m !! k) as [q|] eqn:E; [|done]. apply Hin in E. by rewrite Ht in E.
  - intros nm' q Hm. by apply (b_names _ _ I nm' q), Hin.
  - exact Hfds.
Qed.

(** An event of a connection that does not destroy it. *)
Lemma conn_run_event X sv p nm c ev e c' :
  base_inv X sv -> p ∉ X -> conns sv !! p = Some (nm, c) -> ev_ok c ev -> run_event c ev e = Ok c' -> conn_inv c' ->
  teardown c ev = false ->
  exists sv', conn_run sv p ev e = Ok sv' /\ base_inv X sv' /\ same_server sv sv' /\
    (forall q nmq, q <> p -> connections_ sv' !! nmq = Some q <-> connections_ sv !! nmq = Some q) /\
    conns sv' = <[p := (nm, c')]> (conns sv).
Proof.
  intros I HX Hp Hok Er I' Ht. destruct (b_conn _ _ I p nm c Hp) as [Ic Hcase].
  rewrite bool_decide_eq_false_2 in Hcase by done.
  destruct (run_event_life c ev e c' Ic Hok Er) as [Hh Hl]. rewrite Ht in Hl. destruct Hl as (Hd & Hfd & Hds & Hch).
  assert (fired c ev = 0) as Hfz.
  { pose proof (fired_range c ev). unfold teardown in Ht. destruct ev; try done; apply bool_decide_eq_false in Ht; lia. }
  pose proof (base_update X X sv p nm c c') as Hup. cbv zeta in Hup.
  unfold conn_run. rewrite Hp. cbn [deref mbind res_bind]. rewrite Er. cbn [mbind res_bind]. cbv zeta.
  set (f := if _ && (_ <? 0) then _ else fds sv) in *. set (sv1 := set_conns sv _ f) in *.
  rewrite Hfz, Z.sub_0_r. destruct (bool_decide (connections_ sv !! nm = Some p)) eqn:Htab.
  - apply bool_decide_eq_true in Htab. destruct Hcase as (Hst & Hhc & Hd0).
    assert (downs c = 0) as Hdc by (by apply downs_alive). rewrite Hhc, Hdc, Hd0 in Hds.
    assert (token sv = true) as Htok.
    { destruct (token sv) eqn:E; [done|]. apply (b_token _ _ I) in E. by rewrite E in Htab. }
    rewrite Hd0, Hds. simpl token. rewrite Htok, andb_true_r.
    unfold downs in *. destruct (is_state c' kDisconnected) eqn:Hc'; cbn.
    + unfold removeConnectionInLoop. simpl connections_. rewrite Htab. cbv zeta.
      unfold reap. simpl conns. rewrite lookup_insert_eq.
      assert (posted c' <> []) as Hpost.
      { intros Hnil. unfold destroys in Hds. rewrite Hnil in Hds. simpl in Hds. lia. }
      unfold referenced. rewrite (bool_decide_eq_false_2 (posted c' = [])) by done. cbn [negb]. rewrite orb_true_r.
      cbn. eexists. split; [done|].
      assert (forall q nmq, q <> p -> delete nm (connections_ sv) !! nmq = Some q <-> connections_ sv !! nmq = Some q) as Hdel.
      { intros q nmq Hq. rewrite lookup_delete_Some. split; [tauto|]. intros Hl. split; [|done]. intros <-. congruence. }
      split_and!; [|done..|exact Hdel|done].
      rewrite log_connections. apply base_log, Hup; try done; [by left|apply delete_subseteq|intros; by apply Hdel|].
      rewrite bool_decide_eq_false_2 by done. rewrite lookup_delete_eq, bool_decide_eq_false_2 by done.
      apply bool_decide_eq_true in Hc'. left. split; [lia|by left].
    + exists (log sv1 (conn_ops p c c')). split; [done|]. split_and!; try done.
      apply (base_log _ (set_connections sv1 (connections_ sv))), Hup; try done; [by left|]. rewrite bool_decide_eq_false_2, bool_decide_eq_true_2 by done.
      apply bool_decide_eq_false in Hc'. split_and!; [done|congruence|lia].
  - assert (state_ c = kDisconnected -> state_ c' = kDisconnected) as Hdown.
    { intros Hst. assert (downs c = 1) as Hdc by (unfold downs, is_state; by rewrite bool_decide_eq_true_2).
      unfold downs in *. destruct (is_state c' kDisconnected) eqn:E; [by apply bool_decide_eq_true in E|lia]. }
    assert (destroys c' = destroys c) as Ed.
    { rewrite Hds. destruct (hasCloseCallback c) eqn:Ecb; [|lia].
      assert (state_ c = kDisconnected) as Hst by (destruct Hcase as [[_ [?|?]]|[? _]]; congruence).
      unfold downs, is_state. rewrite !bool_decide_eq_true_2 by auto. lia. }
    rewrite Ed, Z.sub_diag. cbn. exists (log sv1 (conn_ops p c c')). split; [done|]. split_and!; try done.
    apply (base_log _ (set_connections sv1 (connections_ sv))), Hup; try done; [by left|]. rewrite bool_decide_eq_false_2, Htab by done.
    destruct Hcase as [[Hpos Hor]|[Hst [Hf Ha]]].
    + left. split; [lia|]. destruct Hor as [?|?]; [left; auto|right; congruence].
    + right. split; [auto|]. split; [congruence|]. by rewrite Hch.
Qed.

(** [connectDestroyed], of a connection out of the table. *)
Lemma conn_run_teardown X sv p nm c ev e c' :
  base_inv X sv -> conns sv !! p = Some (nm, c) -> connections_ sv !! nm <> Some p ->
  ev_ok c ev -> run_event c ev e = Ok c' -> conn_inv c' -> teardown c ev = true ->
  exists sv', conn_run sv p ev e = Ok sv' /\ base_inv (X ∖ {[p]}) sv' /\ same_server sv sv' /\
    connections_ sv' = connections_ sv /\ conns sv' = <[p := (nm, c')]> (conns sv).
Proof.
  intros I Hp Htab Hok Er I' Ht. destruct (b_conn _ _ I p nm c Hp) as [Ic _].
  destruct (run_event_life c ev e c' Ic Hok Er) as [Hh Hl]. rewrite Ht in Hl. destruct Hl as (Hst & Htorn & Hds).
  pose proof (base_update X (X ∖ {[p]}) sv p nm c c' (connections_ sv)) as Hup. cbv zeta in Hup.
  unfold conn_run. rewrite Hp. cbn [deref mbind res_bind]. rewrite Er. cbn [mbind res_bind]. cbv zeta.
  set (f := if _ && (_ <? 0) then _ else fds sv) in *. set (sv1 := set_conns sv _ f) in *.
  rewrite Hds, Z.sub_diag. cbn. exists (log sv1 (conn_ops p c c')). split; [done|]. split_and!; try done.
  apply (base_log _ (set_connections sv1 (connections_ sv))), Hup; try done; [right; apply Htorn|set_solver|].
  rewrite !bool_decide_eq_false_2 by set_solver. by right.
Qed.

Lemma torn_delete c : state_ c = kDisconnected -> torn c -> TcpConnection_delete c = Ok c.
Proof.
  intros Hs [Hf _]. unfold TcpConnection_delete, is_state, closeSocket.
  rewrite bool_decide_eq_true_2 by done. simpl. by rewrite (proj2 (Z.leb_gt 0 _)).
Qed.

Lemma base_reap X sv p nm c :
  base_inv X sv -> conns sv !! p = Some (nm, c) -> connections_ sv !! nm <> Some p -> socketFd_ c < 0 ->
  base_inv X (set_conns sv (delete p (conns sv)) (fds sv)).
Proof.
  intros I Hp Htab Hfd.
  split; simpl; try apply I.
  - intros q nmq cq [Hq Hcq]%lookup_delete_Some. by apply (b_conn _ _ I q nmq cq).
  - intros nm' q Hm. destruct (b_table _ _ I nm' q Hm) as [cq Hcq]. exists cq.
    rewrite lookup_delete_ne; [done|]. intros <-. rewrite Hp in Hcq. injection Hcq as <- _. done.
  - eapply fds_ext; [|exact (b_fds _ _ I)]. intros [q| |]; [|by left..]. destruct (decide (q = p)) as [->|Hq].
    + right. simpl. rewrite lookup_delete_eq, Hp. lia.
    + left. simpl. by rewrite lookup_delete_ne.
Qed.

(** After [reap] the pointers to [p] are sound. *)
Lemma reap_spec X sv p :
  base_inv X sv -> p ∉ X ->
  exists sv', reap sv p = Ok sv' /\ base_inv X sv' /\ same_server sv sv' /\ connections_ sv' = connections_ sv /\
    ref_ok sv' p /\ (forall q, q <> p -> conns sv' !! q = conns sv !! q) /\
    (conns sv' !! p = conns sv !! p \/ conns sv' !! p = None).
Proof.
  intros I HX. unfold reap. destruct (conns sv !! p) as [[nm c]|] eqn:Hp.
  2: { exists sv. split_and!; try done; [|by left]. intros nm c Hc. congruence. }
  destruct (referenced sv p nm c) eqn:Href.
  { exists sv. split_and!; try done; [|by left]. intros nm' c' Hc. congruence. }
  unfold referenced in Href. apply orb_false_iff in Href as [Href Hheld]. apply orb_false_iff in Href as [Htab Hpost].
  destruct (b_conn _ _ I p nm c Hp) as [Ic Hcase]. rewrite bool_decide_eq_false_2, Htab in Hcase by done.
  apply negb_false_iff, bool_decide_eq_true in Hpost.
  destruct Hcase as [[Hd _]|[Hst Htorn]]; [unfold destroys in Hd; rewrite Hpost in Hd; simpl in Hd; lia|].
  rewrite (torn_delete c Hst Htorn). cbn [mbind res_bind]. destruct Htorn as [Hfd Hch]. rewrite Hch.
  rewrite (proj2 (Z.ltb_lt _ 0) Hfd), closed_neg by done.
  apply bool_decide_eq_false in Htab.
  eexists. split; [done|]. split_and!; try done.
  - by eapply base_log, base_reap.
  - intros nm' c'. simpl. by rewrite lookup_delete_eq.
  - intros q Hq. simpl. by rewrite lookup_delete_ne.
  - right. simpl. by rewrite lookup_delete_eq.
Qed.

Lemma ref_ok_same sv sv' q :
  held sv' = held sv -> (forall nmq, connections_ sv' !! nmq = Some q <-> connections_ sv !! nmq = Some q) ->
  conns sv' !! q = conns sv !! q -> ref_ok sv q -> ref_ok sv' q.
Proof.
  intros Eh Et Ec Hr nm c Hc. rewrite Ec in Hc. pose proof (Hr nm c Hc) as Href. unfold referenced in *.
  by rewrite Eh, (bool_decide_ext _ _ (Et nm)).
Qed.

Lemma held_same sv sv' : same_server sv sv' -> held sv' = held sv.
Proof. by intros (_ & _ & _ & _ & _ & _ & _ & ?). Qed.

(** An event of a connection, from the loop or the user. *)
Lemma conn_event_spec X sv p nm c ev e :
  base_inv X sv -> p ∉ X -> (forall q, q ∉ X -> q <> p -> ref_ok sv q) -> conns sv !! p = Some (nm, c) ->
  ev_ok c ev -> budget c (ev_cost ev e) -> ev <> EvDestroy ->
  exists sv', conn_event sv p ev e = Ok sv' /\ base_inv X sv' /\ same_server sv sv' /\
    (forall q, q ∉ X -> ref_ok sv' q) /\ (forall q, q <> p -> conns sv' !! q = conns sv !! q).
Proof.
  intros I HX Hrefs Hp Hok Hb Hne. destruct (b_conn _ _ I p nm c Hp) as [Ic Hcase].
  rewrite bool_decide_eq_false_2 in Hcase by done.
  destruct (run_event_evolve c ev e Ic Hok Hb) as (c' & Er & Ev). pose proof (ev_inv _ _ _ Ev) as I'.
  assert (exists sv1, conn_run sv p ev e = Ok sv1 /\ base_inv X sv1 /\ same_server sv sv1 /\
    (forall q nmq, q <> p -> connections_ sv1 !! nmq = Some q <-> connections_ sv !! nmq = Some q) /\
    conns sv1 = <[p := (nm, c')]> (conns sv)) as (sv1 & E1 & I1 & S1 & T1 & C1).
  { destruct (teardown c ev) eqn:Ht; [|by eapply conn_run_event].
    assert (connections_ sv !! nm <> Some p) as Htab.
    { intros Htab. rewrite bool_decide_eq_true_2 in Hcase by done. destruct Hcase as (_ & _ & Hd).
      pose proof (fired_le c ev). unfold teardown in Ht. destruct ev; try done; apply bool_decide_eq_true in Ht; lia. }
    destruct (conn_run_teardown X sv p nm c ev e c' I Hp Htab Hok Er I' Ht) as (sv1 & E1 & I1 & S1 & T1 & C1).
    exists sv1. split_and!; try done; [|by rewrite T1].
    replace (X ∖ {[p]}) with X in I1 by set_solver. done. }
  unfold conn_event. rewrite E1. cbn [mbind res_bind].
  destruct (reap_spec X sv1 p I1 HX) as (sv2 & E2 & I2 & S2 & T2 & R2 & C2 & _). exists sv2.
  split_and!; try done; [by eapply same_server_trans| |].
  - intros q Hq. destruct (decide (q = p)) as [->|Hqp]; [done|].
    apply (ref_ok_same sv sv2 q); [rewrite (held_same _ _ S2); by apply held_same| | |by apply Hrefs].
    + intros nmq. rewrite T2. by apply T1.
    + rewrite C2, C1 by done. by rewrite lookup_insert_ne.
  - intros q Hqp. rewrite C2, C1 by done. by rewrite lookup_insert_ne.
Qed.

(** *** New connections *)
Definition accepted_server sv fd : Server B := log (set_conns sv (conns sv) (opened (fds sv) fd)) [SvOpen fd].
Definition new_conn sv fd : Conn B :=
  let '(cc, mc, wc) := callbacks_ sv in TcpConnection_new fd defaultHighWaterMark cc mc wc false true.

(** What the caller of [newConnection] provides: a new descriptor, a new
    object, an id that fits an [int], memory. *)
Definition accept_pre sv fd p (e : env) : Prop :=
  0 <= fd /\ (fd ∉ fds sv) /\ conns sv !! p = None /\ nextConnId_ sv + 1 < 2 ^ 31 /\
  budget (new_conn sv fd) (ev_cost EvEstablish e).

Lemma new_conn_alive sv fd : 0 <= fd -> conn_inv (new_conn sv fd) /\ alive (new_conn sv fd) /\
  state_ (new_conn sv fd) = kConnecting /\ socketFd_ (new_conn sv fd) = fd.
Proof.
  intros Hfd. unfold new_conn. destruct (callbacks_ sv) as [[cc mc] wc]. split_and!; try done. by apply conn_inv_new.
Qed.

Lemma base_insert sv fd p e :
  base_inv ∅ sv -> name_ok (name_ sv) -> token sv = true -> accept_pre sv fd p e ->
  let nm := connName (name_ sv) (nextConnId_ sv) in
  connections_ sv !! nm = None /\
  base_inv ∅ (set_connections (set_conns (set_nextId sv (nextConnId_ sv + 1)) (<[p := (nm, new_conn sv fd)]> (conns sv))
      (opened (fds sv) fd)) (<[nm := p]> (connections_ sv))).
Proof.
  intros I Hn Htok (Hfd & Hfresh & Hp & Hid & _) nm. pose proof (b_next _ _ I) as Hnext.
  assert (connections_ sv !! nm = None) as Hnm.
  { destruct (connections_ sv !! nm) as [q|] eqn:E; [|done]. destruct (b_names _ _ I nm q E) as (id & Hid' & Eid).
    apply connName_inj in Eid; [|done|lia..]. lia. }
  split; [done|]. destruct (new_conn_alive sv fd Hfd) as (Ic & Ha & _ & Hs).
  assert (forall q nm', connections_ sv !! nm' = Some q -> q <> p) as Hqp.
  { intros q nm' Hq ->. destruct (b_table _ _ I nm' p Hq) as [c Hc]. congruence. }
  split; simpl; try apply I.
  - intros q nmq cq. destruct (decide (q = p)) as [->|Hq].
    + rewrite lookup_insert_eq. intros [= <- <-]. split; [done|].
      rewrite bool_decide_eq_false_2 by set_solver. rewrite lookup_insert_eq. by rewrite bool_decide_eq_true_2.
    + rewrite lookup_insert_ne by done. intros Hcq. destruct (b_conn _ _ I q nmq cq Hcq) as [Iq Hc]. split; [done|].
      rewrite bool_decide_eq_false_2 in Hc |- * by set_solver.
      destruct (decide (nmq = nm)) as [->|Hne]; [|by rewrite lookup_insert_ne].
      rewrite lookup_insert_eq, bool_decide_eq_false_2 by congruence. by rewrite Hnm in Hc.
  - intros nm' q. destruct (decide (nm' = nm)) as [->|Hne].
    + rewrite lookup_insert_eq. intros [= <-]. rewrite lookup_insert_eq. eauto.
    + rewrite lookup_insert_ne by done. intros Hq. destruct (b_table _ _ I nm' q Hq) as [c Hc]. exists c.
      rewrite lookup_insert_ne; [done|]. intros <-. by eapply Hqp.
  - congruence.
  - intros nm' q. destruct (decide (nm' = nm)) as [->|Hne].
    + intros _. exists (nextConnId_ sv). split; [lia|done].
    + rewrite lookup_insert_ne by done. intros Hq. destruct (b_names _ _ I nm' q Hq) as (id & ? & ?). exists id. split; [lia|done].
  - lia.
  - set (sv' := set_connections _ _).
    assert (fd_of sv (OConn p) = -1) as E1 by (simpl; by rewrite Hp).
    assert (fd_of sv' (OConn p) = fd) as E2 by (simpl; by rewrite lookup_insert_eq, Hs).
    pose proof (fds_update (fd_of sv) (fd_of sv') (fds sv) (OConn p)) as Hu. rewrite E1, E2, closed_neg in Hu by lia.
    apply Hu; [|done|apply I]. intros [q| |] Hne; simpl; try done. rewrite lookup_insert_ne; [done|congruence].
Qed.

Lemma newConnection_spec sv fd p e :
  srv_inv sv -> name_ok (name_ sv) -> token sv = true -> accept_pre sv fd p e ->
  exists sv', newConnection (accepted_server sv fd) fd p e = Ok sv' /\ srv_inv sv' /\
    name_ sv' = name_ sv /\ token sv' = true /\ acceptor_ sv' = acceptor_ sv /\ sv_state sv' = sv_state sv /\
    starts sv' = starts sv.
Proof.
  intros [I Hr] Hn Htok Hpre. destruct (base_insert sv fd p e I Hn Htok Hpre) as [Hnm I2].
  pose proof Hpre as (Hfd & Hfresh & Hp & Hid & Hb). destruct (new_conn_alive sv fd Hfd) as (Ic & Ha & Hst & _).
  unfold newConnection. simpl nextConnId_. rewrite bool_decide_eq_true_2 by done. cbv zeta.
  set (nm := connName (name_ sv) (nextConnId_ sv)) in *.
  simpl name_. fold nm. simpl callbacks_. unfold new_conn in *. destruct (callbacks_ sv) as [[cc mc] wc] eqn:Ecb.
  simpl connections_. rewrite Hnm. cbn [mbind res_bind].
  apply (base_log _ _ [SvOpen fd]), (base_log _ _ [SvNewConn p fd]) in I2.
  set (sv2 := log (log _ _) _) in *.
  match goal with |- context [conn_event ?x p _ _] => change x with sv2 end.
  destruct (conn_event_spec ∅ sv2 p nm (TcpConnection_new fd defaultHighWaterMark cc mc wc false true) EvEstablish e)
    as (sv3 & -> & I3 & (S1 & S2 & S3 & S4 & S5 & S6 & S7 & S8) & R3 & _); try done.
  - intros q _ Hq. apply (ref_ok_same sv sv2 q); [done| | |apply Hr].
    + intros nmq. simpl. destruct (decide (nmq = nm)) as [->|Hne]; [|by rewrite lookup_insert_ne].
      rewrite lookup_insert_eq, Hnm. split; congruence.
    + simpl. by rewrite lookup_insert_ne.
  - simpl. by rewrite lookup_insert_eq.
  - exists sv3. split; [done|]. split; [split; [done|]; intros q; by apply R3|].
    rewrite S1, S2, S3, S4, S7. done.
Qed.

(** *** The acceptor *)

(** An acceptor that changes its descriptors. *)
Definition new_fd (f : gset Z) (a : sys_fd) : Prop := match a with inl fd => 0 <= fd /\ fd ∉ f | inr _ => True end.

Lemma base_acceptor sv a a' f :
  base_inv ∅ sv -> acceptor_ sv = Some a ->
  (listening_ a' = listening_ a \/ listening_ a' = true) -> listening_ a' = (0 <=? acceptSocket_ a') ->
  released a' = released a -> fds_ok (fd_of (set_acceptor sv (Some a') f)) f ->
  base_inv ∅ (set_acceptor sv (Some a') f).
Proof.
  intros I Ha Hl Hs Hr Hf. split; simpl; try apply I; try done.
  - rewrite <- (b_acceptor _ _ I). unfold live_acceptor. simpl. by rewrite Ha, Hr.
  - intros Hst. destruct (b_listening _ _ I Hst) as (? & a0 & Ha0 & Hl0). split; [done|]. exists a'. split; [done|].
    rewrite Ha in Ha0. injection Ha0 as <-. destruct Hl; congruence.
  - by intros ? [= <-].
Qed.

Lemma refs_same sv sv' : held sv' = held sv -> connections_ sv' = connections_ sv -> conns sv' = conns sv ->
  (forall q, ref_ok sv q) -> forall q, ref_ok sv' q.
Proof. intros E1 E2 E3 Hr q. apply (ref_ok_same sv sv' q); [done|intros; by rewrite E2|by rewrite E3|apply Hr]. Qed.

Lemma listen_spec sv a sock bound lstn :
  srv_inv sv -> acceptor_ sv = Some a -> new_fd (fds sv) sock ->
  let r := Acceptor_listen sv a sock bound lstn in
  srv_inv r.2 /\ sv_state r.2 = sv_state sv /\ token r.2 = token sv /\ name_ r.2 = name_ sv /\ starts r.2 = starts sv /\
  conns r.2 = conns sv /\ connections_ r.2 = connections_ sv /\
  exists a', acceptor_ r.2 = Some a' /\ idleFd_ a' = idleFd_ a /\
    if r.1 then listening_ a' = true else a' = a /\ fds r.2 = fds sv.
Proof.
  intros [I Hr] Ha Hnew r. unfold r, Acceptor_listen. destruct (listening_ a) eqn:Hl.
  { simpl. split_and!; try done. eauto. }
  assert (acceptSocket_ a < 0) as Hneg by (pose proof (b_socket _ _ I a Ha) as Hs; rewrite Hl in Hs; by apply Z.leb_gt).
  unfold createNonblocking. destruct sock as [fd|e]; [|simpl; split_and!; try done; exists a; done].
  destruct Hnew as [Hfd Hnew]. rewrite (proj2 (Z.ltb_ge fd 0)) by done.
  set (failed := log (set_acceptor sv (Some a) (closed (opened (fds sv) fd) fd)) _).
  assert (failed = log sv [SvOpen fd; SvClose fd]) as Esame.
  { unfold failed. rewrite closed_opened by done. rewrite <- Ha. by destruct sv. }
  destruct (sock_bind bound); cbn [negb].
  2: { rewrite Esame. simpl. split_and!; try done; [by apply srv_log|]. exists a. done. }
  destruct (sock_listen lstn); cbn [negb].
  2: { rewrite Esame. simpl. split_and!; try done; [by apply srv_log|]. exists a. done. }
  cbn [fst snd]. split_and!; try done; [|by eexists; split_and!].
  apply srv_log. split; [|by apply (refs_same sv)].
  apply (base_acceptor sv a); try done; [by right|simpl; by rewrite (proj2 (Z.leb_le 0 fd))|].
  set (sv' := set_acceptor _ _ _).
  assert (fd_of sv OAccept = acceptSocket_ a) as E1 by (simpl; by rewrite Ha).
  pose proof (fds_update (fd_of sv) (fd_of sv') (fds sv) OAccept) as Hu. rewrite E1, closed_neg in Hu by done.
  apply Hu; [|done|apply I]. intros [q| |] Hne; simpl; try done. by rewrite Ha.
Qed.

(** [start] and the functor it queues. *)
Definition start_pre sv (sock : sys_fd) : Prop := new_fd (fds sv) sock.

Lemma after_listen_inv (r : bool * Server B) :
  srv_inv r.2 -> token r.2 = true -> (r.1 = true -> exists a, acceptor_ r.2 = Some a /\ listening_ a = true) ->
  srv_inv (after_listen r).
Proof.
  intros [I Hr] Ht Hl. destruct r as [ok sv]. simpl in *. split; [|by apply (refs_same sv)].
  split; simpl; try apply I; destruct ok; try done. intros _. split; [done|]. by apply Hl.
Qed.

Lemma set_state_inv sv st : srv_inv sv -> (st = kIdle \/ st = sv_state sv) -> srv_inv (set_state sv st).
Proof.
  intros [I Hr] Hst. split; [|by apply (refs_same sv)]. split; simpl; try apply I; destruct Hst as [-> | ->]; try done; apply I.
Qed.

Lemma set_idle_inv sv : srv_inv sv -> srv_inv (set_state sv kIdle).
Proof. intros. apply set_state_inv; auto. Qed.

Lemma acceptor_lives X sv : base_inv X sv -> token sv = true \/ starts sv <> 0%nat ->
  exists a, acceptor_ sv = Some a /\ released a = false.
Proof.
  intros I Ht. destruct (live_acceptor sv) eqn:Hl.
  - unfold live_acceptor in Hl. destruct (acceptor_ sv) as [a|]; [|done]. exists a. split; [done|]. by destruct (released a).
  - apply (b_acceptor _ _ I) in Hl as [? ?]. destruct Ht; congruence.
Qed.

Lemma token_acceptor sv : base_inv ∅ sv -> token sv = true -> exists a, acceptor_ sv = Some a.
Proof. intros I Ht. destruct (acceptor_lives ∅ sv I) as (a & ? & _); eauto. Qed.

(** [listen] does not look at the state. *)
Lemma after_listen_state sv st a sock bound lstn :
  after_listen (Acceptor_listen (set_state sv st) a sock bound lstn) = after_listen (Acceptor_listen sv a sock bound lstn).
Proof.
  unfold Acceptor_listen. destruct (listening_ a); [done|]. destruct (createNonblocking sock <? 0); [done|].
  destruct (sock_bind bound); [|done]. destruct (sock_listen lstn); done.
Qed.

Lemma listen_after sv a sock bound lstn :
  srv_inv sv -> token sv = true -> acceptor_ sv = Some a -> new_fd (fds sv) sock ->
  let r := Acceptor_listen sv a sock bound lstn in
  srv_inv (after_listen r) /\ token (after_listen r) = true /\ name_ (after_listen r) = name_ sv /\
  conns (after_listen r) = conns sv /\
  (sv_state (after_listen r) = kListening <-> r.1 = true) /\ (r.1 = false -> fds (after_listen r) = fds sv).
Proof.
  intros I Ht Ha Hnew r. destruct (listen_spec sv a sock bound lstn I Ha Hnew) as (I' & _ & Htk & Hnm & _ & Hcs & _ & a' & Ha' & _ & Hor).
  fold r in I', Htk, Hnm, Hcs, Ha', Hor. split_and!; simpl; try done; try congruence.
  - apply after_listen_inv; [done|congruence|]. intros Hok. rewrite Hok in Hor. eauto.
  - destruct r.1; split; congruence.
  - intros Hok. rewrite Hok in Hor. by destruct Hor.
Qed.

(** What comes of [listen] in [start], by the answers of socket, bind and
    listen: the server listens exactly when all three succeed, with one descriptor
    more and its channel waiting for connections; otherwise it is idle, and a
    socket that was made is closed again.  An acceptor that listens already does
    nothing. *)
Definition listen_outcome (sock : sys_fd) (bound lstn : Z) sv sv' : Prop :=
  exists a, acceptor_ sv = Some a /\
  if listening_ a
  then sv_state sv' = kListening /\ acceptor_ sv' = Some a /\ fds sv' = fds sv /\ ops sv' = ops sv
  else match sock with
       | inl fd =>
           if (0 <=? bound) && (0 <=? lstn)
           then sv_state sv' = kListening /\ fds sv' = {[fd]} ∪ fds sv /\ ops sv' = ops sv ++ [SvOpen fd; SvListen fd] /\
             exists c : Channel, acceptor_ sv' = Some (mkAcceptor fd (Some c) true (idleFd_ a) (released a)) /\
               fd_ c = fd /\ isReading c = true /\ readCallback_ c = true /\ tied_ c = true
           else sv_state sv' = kIdle /\ acceptor_ sv' = Some a /\ fds sv' = fds sv /\ ops sv' = ops sv ++ [SvOpen fd; SvClose fd]
       | inr _ => sv_state sv' = kIdle /\ acceptor_ sv' = Some a /\ fds sv' = fds sv /\ ops sv' = ops sv
       end.

Lemma listen_outcome_spec sv a sock bound lstn :
  acceptor_ sv = Some a -> new_fd (fds sv) sock ->
  listen_outcome sock bound lstn sv (after_listen (Acceptor_listen sv a sock bound lstn)).
Proof.
  intros Ha Hnew. exists a. split; [done|]. unfold Acceptor_listen, createNonblocking, sock_bind, sock_listen.
  destruct (listening_ a) eqn:Hl; [done|]. destruct sock as [fd|err]; [|done].
  destruct Hnew as [Hfd Hnew]. rewrite (proj2 (Z.ltb_ge fd 0)) by done. rewrite !Z.ltb_antisym, !negb_involutive.
  destruct (0 <=? bound), (0 <=? lstn); cbn [negb andb after_listen fst snd]; simpl; rewrite ?closed_opened by done; try done.
  split_and!; [done|unfold opened; by rewrite (proj2 (Z.leb_le 0 fd))|done|]. by eexists.
Qed.

Lemma set_starts_inv sv n : srv_inv sv -> sv_state sv = kIdle -> (token sv = false -> n <> 0%nat) -> live_acceptor sv = true ->
  srv_inv (set_starts sv n).
Proof.
  intros [I Hr] Hs Hn Ha. split; [|by apply (refs_same sv)]. split; simpl; try apply I; try congruence.
  change (live_acceptor (set_starts sv n)) with (live_acceptor sv). rewrite Ha. split; [done|].
  intros [Ht Hz]. by apply Hn in Ht.
Qed.

(** The state after [start] is what it returns. *)
Lemma start_spec inLoop sv sock bound lstn :
  srv_inv sv -> token sv = true -> new_fd (fds sv) sock ->
  let r := start inLoop sv sock bound lstn in
  srv_inv r.2 /\ token r.2 = true /\ name_ r.2 = name_ sv /\ r.1 = sv_state r.2 /\ conns r.2 = conns sv /\
  (sv_state sv <> kIdle -> r.2 = sv) /\
  (sv_state sv = kIdle -> r.1 = if inLoop then (if (Acceptor_listen sv (default (Acceptor_new (inr 0)) (acceptor_ sv)) sock bound lstn).1
                                                then kListening else kIdle) else kStarting) /\
  (r.1 = kIdle -> fds r.2 = fds sv).
Proof.
  intros I Ht Hnew r. unfold r, start. destruct (decide (sv_state sv = kIdle)) as [Hs|Hs].
  2: { rewrite bool_decide_eq_false_2 by done. simpl. by split_and!. }
  rewrite bool_decide_eq_true_2 by done. cbn [negb]. cbv zeta.
  destruct (token_acceptor sv (proj1 I) Ht) as [a Ha]. simpl acceptor_. rewrite Ha. destruct inLoop.
  - rewrite after_listen_state. destruct (listen_after sv a sock bound lstn I Ht Ha Hnew) as (I' & Ht' & Hn' & Hc' & Hst & Hf).
    cbn [fst snd default]. split_and!; try done. intros Hr. apply Hf.
    destruct (Acceptor_listen sv a sock bound lstn).1 eqn:E; [|done]. rewrite (proj2 Hst eq_refl) in Hr. done.
  - cbn [fst snd]. split_and!; try done; try congruence. destruct I as [I Hr].
    split; [|by apply (refs_same sv)]. split; simpl; try apply I; try done. split; [|intros [? ?]; congruence].
    intros Hl. apply (b_acceptor _ _ I) in Hl as [? _]. congruence.
Qed.

Lemma cleanup_fds sv a : acceptor_ sv = Some a -> fds_ok (fd_of sv) (fds sv) ->
  fds_ok (fd_of (cleanupAcceptor sv a)) (fds (cleanupAcceptor sv a)).
Proof.
  intros Ha Hf. set (own1 := fun o => if bool_decide (o = OAccept) then -1 else fd_of sv o).
  set (own2 := fun o => if bool_decide (o = OIdle) then -1 else own1 o).
  assert (fds_ok own1 (closed (fds sv) (acceptSocket_ a))) as H1.
  { pose proof (fds_update (fd_of sv) own1 (fds sv) OAccept) as Hu. simpl fd_of in Hu. rewrite Ha in Hu.
    rewrite opened_neg in Hu by done. apply Hu; [|done|done].
    intros o Ho. unfold own1. by rewrite bool_decide_eq_false_2. }
  assert (fds_ok own2 (closed (closed (fds sv) (acceptSocket_ a)) (idleFd_ a))) as H2.
  { pose proof (fds_update own1 own2 (closed (fds sv) (acceptSocket_ a)) OIdle) as Hu.
    assert (own1 OIdle = idleFd_ a) as E by (unfold own1; simpl; by rewrite Ha). rewrite E in Hu.
    rewrite opened_neg in Hu by done. apply Hu; [|done|done].
    intros o Ho. unfold own2. by rewrite bool_decide_eq_false_2. }
  eapply fds_ext; [|exact H2]. intros o. left. unfold own2, own1. by destruct o.
Qed.

Lemma delete_acceptor_fds b sv a : acceptor_ sv = Some a -> fds_ok (fd_of sv) (fds sv) ->
  fds_ok (fd_of (Acceptor_delete b sv a)) (fds (Acceptor_delete b sv a)).
Proof.
  intros Ha Hf. destruct b; [by apply (cleanup_fds (log sv [SvDropAcceptor]))|].
  apply (fds_ext (fd_of sv)); [|done]. intros o. left. destruct o; try done; simpl; by rewrite Ha.
Qed.

Lemma delete_acceptor_dead b sv a : live_acceptor (Acceptor_delete b sv a) = false.
Proof. by destruct b. Qed.

(** The destructor of an acceptor nobody holds, of a server that is so far
    well formed but for that. *)
Lemma delete_acceptor_inv b X sv a :
  acceptor_ sv = Some a -> token sv = false -> starts sv = 0%nat -> sv_state sv = kIdle ->
  (forall p nm c, conns sv !! p = Some (nm, c) ->
    conn_inv c /\
    if bool_decide (p ∈ X) then connections_ sv !! nm <> Some p
    else if bool_decide (connections_ sv !! nm = Some p) then alive c else gone c) ->
  connections_ sv = ∅ -> 0 <= nextConnId_ sv < 2 ^ 31 -> fds_ok (fd_of sv) (fds sv) ->
  (listening_ a = (0 <=? acceptSocket_ a)) -> base_inv X (Acceptor_delete b sv a).
Proof.
  intros Ha Ht Hs Hst Hc Htab Hn Hf Hl. pose proof (delete_acceptor_fds b sv a Ha Hf) as Hfd.
  pose proof (delete_acceptor_dead b sv a) as Hdead.
  destruct b; split; simpl in *; try done; try (by rewrite Htab; intros *; rewrite lookup_empty); try congruence.
  by intros ? [= <-].
Qed.

(** The queued cleanup. *)
Lemma run_cleanup_spec sv : srv_inv sv ->
  srv_inv (run_cleanup sv) /\ name_ (run_cleanup sv) = name_ sv /\ token (run_cleanup sv) = token sv.
Proof.
  intros [I Hr]. unfold run_cleanup. destruct (acceptor_ sv) as [a|] eqn:Ha; [|done]. destruct (released a) eqn:Hrel; [|done].
  split; [|done]. split; [|by apply (refs_same sv)]. pose proof (cleanup_fds sv a Ha (b_fds _ _ I)).
  assert (token sv = false /\ starts sv = 0%nat) as [Ht Hs].
  { apply (b_acceptor _ _ I). unfold live_acceptor. by rewrite Ha, Hrel. }
  split; simpl; try apply I; try done. intros Hl. destruct (b_listening _ _ I Hl). congruence.
Qed.

Lemma run_start_spec sv sock bound lstn :
  srv_inv sv -> new_fd (fds sv) sock -> srv_inv (run_start sv sock bound lstn) /\
  name_ (run_start sv sock bound lstn) = name_ sv /\ token (run_start sv sock bound lstn) = token sv.
Proof.
  intros I Hnew. unfold run_start. destruct (starts sv) as [|n] eqn:Hn; [done|]. destruct (acceptor_ sv) as [a|] eqn:Ha; [|done].
  assert (live_acceptor sv = true) as Hlive.
  { destruct (acceptor_lives ∅ sv (proj1 I)) as (a' & Ha' & Hrel); [right; congruence|]. unfold live_acceptor. by rewrite Ha', Hrel. }
  cbv zeta. simpl token. destruct (token sv) eqn:Ht.
  - set (sv1 := set_starts sv n). rewrite <- (after_listen_state sv1 kIdle).
    assert (srv_inv (set_state sv1 kIdle)) as I1.
    { change (set_state sv1 kIdle) with (set_starts (set_state sv kIdle) n).
      apply set_starts_inv; simpl; [by apply set_idle_inv|done|congruence|exact Hlive]. }
    destruct (listen_after (set_state sv1 kIdle) a sock bound lstn I1 Ht Ha Hnew) as (? & ? & ? & _). done.
  - destruct I as [I Hr].
    assert (sv_state sv = kIdle) as Hs.
    { destruct (sv_state sv) eqn:Hs; [done| |]; [apply (b_starting _ _ I) in Hs|apply (b_listening _ _ I) in Hs];
        destruct Hs; congruence. }
    destruct (Nat.eqb_spec n 0) as [->|Hne].
    + split_and!; try done. split; [|by apply (refs_same sv)].
      apply (delete_acceptor_inv true ∅ (set_starts sv 0)); try done; by apply I.
    + split_and!; try done. by apply set_starts_inv.
Qed.

(** EMFILE: the reserve descriptor is given up and taken back. *)
Lemma drop_one_spec sv a acc idle :
  srv_inv sv -> acceptor_ sv = Some a ->
  new_fd (closed (fds sv) (idleFd_ a)) acc -> new_fd (closed (fds sv) (idleFd_ a)) idle ->
  srv_inv (drop_one sv a acc idle) /\
  fds (drop_one sv a acc idle) = opened (closed (fds sv) (idleFd_ a)) (openIdleFd idle).
Proof.
  intros [I Hr] Ha Hacc Hidle. unfold drop_one. set (fd := match acc with inl fd => fd | inr _ => -1 end).
  assert (closed (opened (closed (fds sv) (idleFd_ a)) fd) fd = closed (fds sv) (idleFd_ a)) as ->.
  { unfold fd. destruct acc as [x|e]; [|done]. destruct Hacc. by apply closed_opened. }
  split; [|done]. apply srv_log. split; [|by apply (refs_same sv)].
  apply (base_acceptor sv a); try done; [by left|exact (b_socket _ _ I a Ha)|].
  set (a' := mkAcceptor _ _ _ _ _). set (sv' := set_acceptor _ _ _).
  pose proof (fds_update (fd_of sv) (fd_of sv') (fds sv) OIdle) as Hu.
  assert (fd_of sv OIdle = idleFd_ a) as E1 by (simpl; by rewrite Ha). rewrite E1 in Hu.
  apply Hu; [|simpl; unfold openIdleFd; destruct idle as [x|e]; [by intros _; apply Hidle|lia]|apply I].
  intros [q| |] Hne; simpl; try done. by rewrite Ha.
Qed.

Lemma accepted_dropped sv fd : fd ∉ fds sv ->
  log (set_conns (accepted_server sv fd) (conns sv) (closed (opened (fds sv) fd) fd)) [SvClose fd] =
  log sv [SvOpen fd; SvClose fd].
Proof. intros Hf. rewrite closed_opened by done. destruct sv. unfold log, set_conns, set_sv. simpl. by rewrite <- app_assoc. Qed.

(** The loop of [handleRead]. *)
Fixpoint accept_ok sv (ans : list answer) (acc idle : sys_fd) : Prop :=
  match ans with
  | [] => True
  | an :: ans' =>
      match an_fd an with
      | inl fd =>
          if token sv then
            accept_pre sv fd (an_ptr an) (an_env an) /\
            forall sv', newConnection (accepted_server sv fd) fd (an_ptr an) (an_env an) = Ok sv' -> accept_ok sv' ans' acc idle
          else 0 <= fd /\ (fd ∉ fds sv) /\ accept_ok (log sv [SvOpen fd; SvClose fd]) ans' acc idle
      | inr e => forall a, acceptor_ sv = Some a ->
          new_fd (closed (fds sv) (idleFd_ a)) acc /\ new_fd (closed (fds sv) (idleFd_ a)) idle
      end
  end.

Lemma handleAccept_spec sv ans acc idle :
  srv_inv sv -> name_ok (name_ sv) -> accept_ok sv ans acc idle ->
  match handleAccept sv ans acc idle with
  | Ok sv' => srv_inv sv' /\ name_ sv' = name_ sv /\ token sv' = token sv /\
      forall a, acceptor_ sv = Some a -> exists a', acceptor_ sv' = Some a' /\ listening_ a' = listening_ a
  | Fault f => f = StdAbort /\ exists an e, an ∈ ans /\ an_fd an = inr e /\ accept_expected e = false
  end.
Proof.
  revert sv. induction ans as [|an ans IH]; intros sv I Hn Hok; cbn [handleAccept accept_ok] in *; [by split_and!; eauto|].
  destruct (an_fd an) as [fd|e] eqn:Ean; cbn [accept mbind res_bind].
  - change (log (set_conns sv (conns sv) (opened (fds sv) fd)) [SvOpen fd]) with (accepted_server sv fd). cbv zeta.
    change (token (accepted_server sv fd)) with (token sv). destruct (token sv) eqn:Ht.
    + destruct Hok as [Hpre Hok]. destruct (newConnection_spec sv fd (an_ptr an) (an_env an) I Hn Ht Hpre)
        as (sv1 & E & I1 & Hn1 & Ht1 & Ea1 & _). rewrite E. cbn [mbind res_bind].
      specialize (IH sv1 I1 ltac:(by rewrite Hn1) (Hok _ E)). destruct (handleAccept sv1 ans acc idle).
      * destruct IH as (? & ? & ? & Ha). rewrite Ea1 in Ha. split_and!; congruence || done.
      * destruct IH as [? (an' & e & ? & ? & ?)]. split; [done|]. exists an', e. split_and!; try done. by right.
    + destruct Hok as (_ & Hfd & Hok). cbn [mbind res_bind].
      change (conns (accepted_server sv fd)) with (conns sv).
      change (fds (accepted_server sv fd)) with (opened (fds sv) fd). rewrite accepted_dropped by done.
      specialize (IH _ (srv_log sv _ I) Hn Hok). destruct (handleAccept _ ans acc idle).
      * by rewrite <- Ht.
      * destruct IH as [? (an' & e & ? & ? & ?)]. split; [done|]. exists an', e. split_and!; try done. by right.
  - destruct (accept_expected e) eqn:He; cbn [mbind res_bind].
    2: { split; [done|]. exists an, e. split_and!; try done. by left. }
    destruct (e =? EAGAIN); [by split_and!; eauto|]. destruct (e =? EMFILE); [|by split_and!; eauto].
    destruct (acceptor_ sv) as [a|] eqn:Ha; [|by split_and!; eauto].
    destruct (Hok a eq_refl) as [H1 H2]. destruct (drop_one_spec sv a acc idle I Ha H1 H2). split_and!; try done.
    intros a0 [= <-]. by eexists.
Qed.

(** *** The destructor *)
Lemma setCloseCallback_inv c b : conn_inv c -> conn_inv (setCloseCallback c b).
Proof. intros []. by split. Qed.

Lemma base_closing X sv p nm c :
  base_inv X sv -> p ∈ X -> conns sv !! p = Some (nm, c) ->
  base_inv X (set_conns sv (<[p := (nm, setCloseCallback c false)]> (conns sv)) (fds sv)).
Proof.
  intros I HX Hp. destruct (b_conn _ _ I p nm c Hp) as [Ic Hc]. rewrite bool_decide_eq_true_2 in Hc by done.
  pose proof (base_update X X sv p nm c (setCloseCallback c false) (connections_ sv) I Hp (setCloseCallback_inv c false Ic)
    (or_introl eq_refl) ltac:(done) ltac:(done) ltac:(done)) as Hu.
  rewrite bool_decide_eq_true_2 in Hu by done. specialize (Hu Hc). cbv zeta in Hu.
  assert ((if (0 <=? socketFd_ c) && (socketFd_ (setCloseCallback c false) <? 0) then closed (fds sv) (socketFd_ c) else fds sv)
    = fds sv) as E.
  { simpl. destruct (Z.leb_spec 0 (socketFd_ c)), (Z.ltb_spec (socketFd_ c) 0); done || lia. }
  rewrite E in Hu. exact Hu.
Qed.

(** [connectDestroyed] of one connection, now or by a functor. *)
Definition destroyed_one X sv p sv' : Prop :=
  base_inv (X ∖ {[p]}) sv' /\ same_server sv sv' /\ connections_ sv' = connections_ sv /\ ref_ok sv' p /\
  forall q, q <> p -> conns sv' !! q = conns sv !! q.

Lemma destroy_here X sv p nm c e :
  base_inv X sv -> p ∈ X -> conns sv !! p = Some (nm, c) ->
  exists sv', conn_event (set_conns sv (<[p := (nm, setCloseCallback c false)]> (conns sv)) (fds sv)) p EvDestroy e = Ok sv' /\
    destroyed_one X sv p sv'.
Proof.
  intros I HX Hc. destruct (b_conn _ _ I p nm c Hc) as [_ Htab]. rewrite bool_decide_eq_true_2 in Htab by done.
  pose proof (base_closing X sv p nm c I HX Hc) as I1. set (c1 := setCloseCallback c false) in *.
  set (sv1 := set_conns sv (<[p := (nm, c1)]> (conns sv)) (fds sv)) in *.
  assert (conns sv1 !! p = Some (nm, c1)) as Hc1 by (simpl; by rewrite lookup_insert_eq).
  destruct (b_conn _ _ I1 p nm c1 Hc1) as [Ic1 _].
  destruct (connectDestroyed_evolve (user_conn_cb (e_conn e) nesting) (set_env c1 e)
    (user_cb_dead _ 1) (ev_inv _ _ _ (set_env_evolve c1 e Ic1))) as (c2 & E2 & Ev2 & _ & _).
  assert (run_event c1 EvDestroy e = Ok c2) as Er by done.
  destruct (conn_run_teardown X sv1 p nm c1 EvDestroy e c2 I1 Hc1) as (sv2 & E & I2 & S2 & T2 & C2); try done.
  { apply Ev2. }
  unfold conn_event. rewrite E. cbn [mbind res_bind].
  destruct (reap_spec _ sv2 p I2) as (sv3 & E3 & I3 & S3 & T3 & R3 & C3 & C3'); [set_solver|].
  exists sv3. split; [done|]. split_and!; try done.
  - eapply same_server_trans; [|exact S3]. exact S2.
  - by rewrite T3, T2.
  - intros q Hqp. rewrite C3, C2 by done. simpl. by rewrite !lookup_insert_ne.
Qed.

Lemma destroy_later X sv p nm c :
  base_inv X sv -> p ∈ X -> conns sv !! p = Some (nm, c) ->
  destroyed_one X sv p (set_conns sv (<[p := (nm, queueInLoop (setCloseCallback c false) FDestroyed)]> (conns sv)) (fds sv)).
Proof.
  intros I HX Hc. destruct (b_conn _ _ I p nm c Hc) as [Ic Htab]. rewrite bool_decide_eq_true_2 in Htab by done.
  set (c2 := queueInLoop _ _).
  assert (conn_inv c2) as Ic2 by (pose proof (setCloseCallback_inv c false Ic) as []; by split).
  assert (0 < destroys c2) as Hd.
  { unfold destroys, c2. simpl. rewrite sum_cost_app. pose proof (destroys_nonneg c). unfold destroys in *. simpl. lia. }
  assert ((if (0 <=? socketFd_ c) && (socketFd_ c2 <? 0) then closed (fds sv) (socketFd_ c) else fds sv) = fds sv) as Ef.
  { simpl. destruct (Z.leb_spec 0 (socketFd_ c)), (Z.ltb_spec (socketFd_ c) 0); done || lia. }
  pose proof (base_update X (X ∖ {[p]}) sv p nm c c2 (connections_ sv) I Hc Ic2 (or_introl eq_refl)) as Hu.
  rewrite Ef in Hu. cbv zeta in Hu. split_and!; try done.
  - apply Hu; [done|done|set_solver|]. rewrite !bool_decide_eq_false_2 by set_solver. left. split; [done|by right].
  - intros nm' c'. simpl. rewrite lookup_insert_eq. intros [= <- <-]. unfold referenced.
    rewrite (bool_decide_eq_false_2 (posted c2 = [])), orb_true_r; [done|]. intros E. unfold destroys in Hd. rewrite E in Hd. simpl in Hd. lia.
  - intros q Hq. simpl. by rewrite lookup_insert_ne.
Qed.

Lemma destroy_all_spec b ps sv envs :
  base_inv (list_to_set ps) sv -> NoDup ps -> connections_ sv = ∅ -> (forall q, q ∉ ps -> ref_ok sv q) ->
  (forall p, p ∈ ps -> is_Some (conns sv !! p)) ->
  exists sv', destroy_all b sv ps envs = Ok sv' /\ srv_inv sv' /\ same_server sv sv' /\ connections_ sv' = ∅.
Proof.
  revert sv. induction ps as [|p ps IH]; intros sv I Hnd Htab Hr Hin; cbn [destroy_all].
  { exists sv. split_and!; try done. split; [done|]. intros q. apply Hr. set_solver. }
  apply NoDup_cons in Hnd as [Hp Hnd]. destruct (Hin p) as [[nm c] Hc]; [by left|]. rewrite Hc. cbn [deref mbind res_bind]. cbv zeta.
  set (X := list_to_set (p :: ps)) in *. assert (p ∈ X) as HX by (unfold X; set_solver).
  assert (exists sv3, (if b then conn_event (set_conns sv (<[p := (nm, setCloseCallback c false)]> (conns sv)) (fds sv)) p EvDestroy (envs p)
     else Ok (set_conns sv (<[p := (nm, queueInLoop (setCloseCallback c false) FDestroyed)]> (conns sv)) (fds sv))) = Ok sv3 /\
     destroyed_one X sv p sv3) as (sv3 & E3 & I3 & S & T3 & R3 & Hq).
  { destruct b; [by apply destroy_here|]. eexists. split; [done|]. by apply destroy_later. }
  rewrite E3. cbn [mbind res_bind]. replace (X ∖ {[p]}) with (list_to_set ps : gset Z) in I3 by (unfold X; set_solver).
  destruct (IH sv3) as (sv4 & E4 & I4 & S4 & T4); try done.
  - by rewrite T3.
  - intros q Hqps. destruct (decide (q = p)) as [->|Hqp]; [done|].
    apply (ref_ok_same sv sv3 q); [by apply held_same| |by apply Hq|apply Hr; set_solver].
    intros nmq. by rewrite T3.
  - intros q Hqps. rewrite Hq by (intros ->; done). apply Hin. by right.
  - exists sv4. split_and!; try done. by eapply same_server_trans.
Qed.

Lemma table_inj sv nm1 nm2 p : base_inv ∅ sv -> connections_ sv !! nm1 = Some p -> connections_ sv !! nm2 = Some p -> nm1 = nm2.
Proof.
  intros I H1 H2. destruct (b_table _ _ I nm1 p H1) as [c1 E1]. destruct (b_table _ _ I nm2 p H2) as [c2 E2]. congruence.
Qed.

Lemma in_order_perm m : in_order m ≡ₚ map_to_list m.
Proof. apply merge_sort_Permutation. Qed.

Lemma table_pointers sv : base_inv ∅ sv -> NoDup ((in_order (connections_ sv)).*2).
Proof.
  intros I. apply NoDup_fmap_2_strong; [|rewrite in_order_perm; apply NoDup_map_to_list].
  intros [n1 p1] [n2 p2]. rewrite !in_order_perm. intros H1 H2 E. simpl in E. subst p2.
  apply elem_of_map_to_list in H1, H2. by rewrite (table_inj sv n1 n2 p1).
Qed.

Lemma elem_pointers sv p : p ∈ (in_order (connections_ sv)).*2 <-> exists nm, connections_ sv !! nm = Some p.
Proof.
  rewrite in_order_perm, list_elem_of_fmap. split.
  - intros [[nm q] [-> Hin]]. apply elem_of_map_to_list in Hin. by exists nm.
  - intros [nm Hnm]. exists (nm, p). split; [done|]. by apply elem_of_map_to_list.
Qed.

Lemma TcpServer_delete_spec b sv envs :
  srv_inv sv -> token sv = true ->
  exists sv', TcpServer_delete b sv envs = Ok sv' /\ srv_inv sv' /\ token sv' = false /\ sv_state sv' = kIdle /\
    connections_ sv' = ∅ /\ starts sv' = starts sv /\ held sv' = held sv /\ name_ sv' = name_ sv.
Proof.
  intros [I Hr] Ht. unfold TcpServer_delete. cbv zeta.
  destruct (acceptor_lives ∅ sv I) as (a & Ha & Hrel); [by left|]. simpl acceptor_. rewrite Ha. simpl starts. simpl connections_.
  set (ps := (in_order (connections_ sv)).*2).
  set (sv2 := set_connections (set_state (set_token sv false) kIdle) ∅).
  set (sv3 := if Nat.eqb (starts sv) 0 then Acceptor_delete b sv2 a else sv2).
  assert (conns sv3 = conns sv /\ connections_ sv3 = ∅ /\ held sv3 = held sv /\ token sv3 = false /\ sv_state sv3 = kIdle /\
    starts sv3 = starts sv /\ name_ sv3 = name_ sv) as (E1 & E2 & E3 & E4 & E5 & E6 & E7).
  { unfold sv3. by destruct (Nat.eqb (starts sv) 0), b. }
  assert (base_inv (list_to_set ps) sv3) as I3.
  { assert (forall p nm c, conns sv !! p = Some (nm, c) -> conn_inv c /\
      (if bool_decide (p ∈ (list_to_set ps : gset Z)) then @None Z <> Some p
       else if bool_decide (@None Z = Some p) then alive c else gone c)) as Hc.
    { intros p nm c Hp. destruct (b_conn _ _ I p nm c Hp) as [Ic Hcase]. split; [done|].
      rewrite bool_decide_eq_false_2 in Hcase by set_solver.
      destruct (decide (p ∈ ps)) as [Hin|Hin]; [by rewrite bool_decide_eq_true_2 by set_solver|].
      rewrite bool_decide_eq_false_2 by set_solver. rewrite bool_decide_eq_false_2 by done.
      rewrite bool_decide_eq_false_2 in Hcase; [done|]. intros Htab. apply Hin. apply elem_pointers. eauto. }
    assert (forall p nm c, conns sv2 !! p = Some (nm, c) -> conn_inv c /\
      (if bool_decide (p ∈ (list_to_set ps : gset Z)) then connections_ sv2 !! nm <> Some p
       else if bool_decide (connections_ sv2 !! nm = Some p) then alive c else gone c)) as Hc2.
    { intros p nm c Hp. simpl. rewrite lookup_empty. by apply (Hc p nm). }
    unfold sv3. destruct (Nat.eqb_spec (starts sv) 0) as [Hs|Hs].
    - apply delete_acceptor_inv; try done; by apply I.
    - split; simpl; try done; try (by intros *; rewrite lookup_empty); try (by apply I).
      unfold live_acceptor. simpl. rewrite Ha, Hrel. split; [done|]. intros [_ ?]. congruence. }
  destruct (destroy_all_spec b ps sv3 envs I3) as (sv4 & -> & I4 & (S1 & S2 & S3 & S4 & S5 & S6 & S7 & S8) & T4).
  - by apply table_pointers.
  - done.
  - intros q Hq nm c Hc. rewrite E1 in Hc. pose proof (Hr q nm c Hc) as Href. unfold referenced in *. rewrite E2, E3.
    rewrite lookup_empty, (bool_decide_eq_false_2 (@None Z = Some q)) by done.
    rewrite bool_decide_eq_false_2 in Href; [done|]. intros Htab. apply Hq, elem_pointers. eauto.
  - intros p Hp. apply elem_pointers in Hp as [nm Hnm]. rewrite E1. destruct (b_table _ _ I nm p Hnm) as [c Hc]. eauto.
  - exists sv4. split_and!; try done; congruence.
Qed.
End inv.

(** ** Histories of a server *)
Inductive sevent : Type :=
| SvStart (inLoop : bool) (sock : sys_fd) (bound lstn : Z)
| SvRunStart (sock : sys_fd) (bound lstn : Z)          (* a functor start() queued *)
| SvAccept (ans : list answer) (acc idle : sys_fd)     (* the acceptor's channel is readable *)
| SvConn (p : Z) (ev : event) (e : env)                (* an event of a connection *)
| SvHold (p : Z)                                       (* the user keeps a TcpConnectionPtr *)
| SvRelease (p : Z)
| SvDelete (inLoop : bool) (envs : Z -> env)           (* ~TcpServer *)
| SvCleanup.                                           (* the functor ~Acceptor queued *)

Section events.
Context {B : Type} `{ByteQueueOps B}.
Implicit Types (sv : Server B).

Definition run_sevent sv (se : sevent) : res (Server B) :=
  match se with
  | SvStart inLoop sock bound lstn => Ok (start inLoop sv sock bound lstn).2
  | SvRunStart sock bound lstn => Ok (run_start sv sock bound lstn)
  | SvAccept ans acc idle => if live_acceptor sv then handleAccept sv ans acc idle else Ok sv
  | SvConn p ev e => conn_event sv p ev e
  | SvHold p => Ok (set_held sv ({[p]} ∪ held sv))
  | SvRelease p => reap (set_held sv (held sv ∖ {[p]})) p
  | SvDelete inLoop envs => TcpServer_delete inLoop sv envs
  | SvCleanup => Ok (run_cleanup sv)
  end.

Fixpoint run_sevents sv (ses : list sevent) : res (Server B) :=
  match ses with [] => Ok sv | se :: ses' => sv1 ← run_sevent sv se; run_sevents sv1 ses' end.

(** When an event can happen: descriptors the kernel returns are not open,
    objects are allocated where there is none, a connection's event is one the
    loop delivers and its memory is available; the server is used and
    destroyed while it exists. *)
Definition sevent_ok sv (se : sevent) : Prop :=
  match se with
  | SvStart _ sock _ _ => token sv = true /\ new_fd (fds sv) sock
  | SvRunStart sock _ _ => new_fd (fds sv) sock
  | SvAccept ans acc idle => accept_ok sv ans acc idle
  | SvConn p ev e => exists nm c, conns sv !! p = Some (nm, c) /\ ev_ok c ev /\ budget c (ev_cost ev e) /\ ev <> EvDestroy
  | SvHold p => is_Some (conns sv !! p)
  | SvRelease p => True
  | SvDelete _ _ => token sv = true
  | SvCleanup => True
  end.

Fixpoint sevents_ok sv (ses : list sevent) : Prop :=
  match ses with
  | [] => True
  | se :: ses' => sevent_ok sv se /\ forall sv', run_sevent sv se = Ok sv' -> sevents_ok sv' ses'
  end.

(** [accept] answered an errno the code gives up on. *)
Definition bad_accept (se : sevent) : Prop :=
  match se with
  | SvAccept ans _ _ => exists an e, an ∈ ans /\ an_fd an = inr e /\ accept_expected e = false
  | _ => False
  end.
End events.

Section history.
Context {B : Type} `{ByteQueue B}.
Implicit Types (sv : Server B).

Lemma run_sevent_spec sv se :
  srv_inv sv -> name_ok (name_ sv) -> sevent_ok sv se ->
  match run_sevent sv se with
  | Ok sv' => srv_inv sv' /\ name_ sv' = name_ sv
  | Fault f => f = StdAbort /\ bad_accept se
  end.
Proof.
  intros I Hn Hok. destruct se as [b sock bound lstn|sock bound lstn|ans acc idle|p ev e|p|p|b envs|]; cbn [run_sevent sevent_ok] in *.
  - destruct Hok as [Ht Hnew]. by destruct (start_spec b sv sock bound lstn I Ht Hnew) as (? & _ & ? & _).
  - by destruct (run_start_spec sv sock bound lstn I Hok) as (? & ? & _).
  - destruct (live_acceptor sv); [|done]. pose proof (handleAccept_spec sv ans acc idle I Hn Hok) as Hs. destruct (handleAccept sv ans acc idle); [by destruct Hs as (? & ? & _)|done].
  - destruct Hok as (nm & c & Hp & Hev & Hb & Hne). destruct I as [I Hr].
    destruct (conn_event_spec ∅ sv p nm c ev e I) as (sv' & -> & I' & (? & _) & R' & _); try done.
    split; [|done]. split; [done|]. intros q. by apply R'.
  - destruct I as [I Hr]. split; [|done]. split.
    + split; simpl; apply I.
    + intros q nm c Hc. pose proof (Hr q nm c Hc) as Href. unfold referenced in *. simpl in *.
      repeat (apply orb_true_iff in Href as [Href|Href]); rewrite ?Href, ?orb_true_r; try done.
      apply bool_decide_eq_true in Href. rewrite (bool_decide_eq_true_2 (q ∈ {[p]} ∪ held sv)) by set_solver. by rewrite orb_true_r.
  - destruct I as [I Hr]. set (sv1 := set_held _ _).
    assert (base_inv ∅ sv1) as I1 by (split; simpl; apply I).
    destruct (reap_spec ∅ sv1 p I1) as (sv' & -> & I' & S' & T' & R' & C' & _); [done|].
    split; [|by destruct S']. split; [done|]. intros q. destruct (decide (q = p)) as [->|Hq]; [done|].
    intros nm c Hc. rewrite C' in Hc by done. pose proof (Hr q nm c Hc) as Href. unfold referenced in *.
    rewrite (held_same _ _ S'), T'. simpl in *.
    by rewrite (bool_decide_ext (q ∈ held sv ∖ {[p]}) (q ∈ held sv)) by set_solver.
  - destruct (TcpServer_delete_spec b sv envs I Hok) as (sv' & -> & I' & _ & _ & _ & _ & _ & ?). done.
  - by destruct (run_cleanup_spec sv I) as (? & ? & _).
Qed.

Lemma run_sevents_spec sv ses :
  srv_inv sv -> name_ok (name_ sv) -> sevents_ok sv ses ->
  match run_sevents sv ses with
  | Ok sv' => srv_inv sv' /\ name_ sv' = name_ sv
  | Fault f => f = StdAbort /\ exists se, se ∈ ses /\ bad_accept se
  end.
Proof.
  revert sv. induction ses as [|se ses IH]; intros sv I Hn Hok; cbn [run_sevents sevents_ok] in *; [done|].
  destruct Hok as [Hse Hok]. pose proof (run_sevent_spec sv se I Hn Hse) as H1.
  destruct (run_sevent sv se) as [sv1|f]; cbn [mbind res_bind].
  - destruct H1 as [I1 Hn1]. specialize (IH sv1 I1 ltac:(by rewrite Hn1) (Hok _ eq_refl)).
    destruct (run_sevents sv1 ses); [by rewrite <- Hn1|]. destruct IH as [? (se' & ? & ?)]. split; [done|].
    exists se'. split; [by right|done].
  - destruct H1. split; [done|]. exists se. split; [by left|done].
Qed.

Lemma new_server_inv nm cbs idle : new_fd ∅ idle -> srv_inv (TcpServer_new (B := B) nm cbs idle).
Proof.
  intros Hi. split; [|by intros p ? ?].
  split; simpl; try done; [|by split; [|intros []]|by intros ? [= <-]].
  set (sv := TcpServer_new nm cbs idle).
  assert (fds_ok (fun _ : owner => -1) ∅) as Hnone.
  { split; [intros fd; split; [set_solver|intros [? [? ?]]; lia]|intros; lia]. }
  pose proof (fds_update (fun _ => -1) (fd_of (B := B) sv) ∅ OIdle) as Hu. rewrite closed_neg in Hu by lia.
  apply Hu; [by intros [q| |]| |done].
  simpl. unfold openIdleFd. destruct idle as [fd|e]; [by intros _; apply Hi|lia].
Qed.
End history.

(** ** Properties *)
Section properties.
Context {B : Type} `{ByteQueue B}.
Implicit Types (sv : Server B).

(** C6: a server and its connections, through any admissible history: starts
    from any thread, rounds of [accept], events of every connection, pointers
    kept and released by the user, the destructor on any thread.  No [assert] fails (of the
    server or a connection, the destructors' included), no connection is
    deleted while its channel is registered; the only stop is the [abort] on an
    errno of [accept] the code gives up on.  Connections in the table are open
    and each under its own name, the others are closed with [connectDestroyed]
    queued or done (those that a destructor on another thread has left open have
    it queued, and no close callback); every open descriptor belongs to exactly one connection,
    the listening socket or the reserve. *)
Theorem server_safe nm cbs idle ses :
  name_ok nm -> new_fd ∅ idle -> sevents_ok (TcpServer_new (B := B) nm cbs idle) ses ->
  match run_sevents (TcpServer_new (B := B) nm cbs idle) ses with
  | Ok sv =>
      (forall n p, connections_ sv !! n = Some p ->
         exists c, conns sv !! p = Some (n, c) /\ state_ c <> kDisconnected /\ conn_inv c) /\
      (forall p n c, conns sv !! p = Some (n, c) -> connections_ sv !! n <> Some p ->
         FDestroyed ∈ posted c /\ (state_ c = kDisconnected \/ hasCloseCallback c = false) \/
         state_ c = kDisconnected /\ torn c) /\
      fds_ok (fd_of sv) (fds sv) /\
      (sv_state sv = kListening -> exists a, acceptor_ sv = Some a /\ 0 <= acceptSocket_ a)
  | Fault f => f = StdAbort /\ exists se, se ∈ ses /\ bad_accept se
  end.
Proof.
  intros Hn Hi Hok. pose proof (run_sevents_spec _ ses (new_server_inv (B := B) nm cbs idle Hi) Hn Hok) as Hr.
  destruct (run_sevents _ ses) as [sv|f]; [|done]. destruct Hr as [[I _] _]. split_and!.
  - intros n p Hp. destruct (b_table _ _ I n p Hp) as [c Hc]. exists c. split; [done|].
    destruct (b_conn _ _ I p n c Hc) as [Ic Hcase]. rewrite bool_decide_eq_false_2, bool_decide_eq_true_2 in Hcase by done.
    by destruct Hcase.
  - intros p n c Hc Htab. destruct (b_conn _ _ I p n c Hc) as [Ic Hcase].
    rewrite !bool_decide_eq_false_2 in Hcase by done. destruct Hcase as [[Hd Hs]|Ht]; [left|by right].
    split; [by apply destroys_elem|done].
  - apply I.
  - intros Hl. destruct (b_listening _ _ I Hl) as (_ & a & Ha & Hla). exists a. split; [done|].
    pose proof (b_socket _ _ I a Ha) as Hs. rewrite Hla in Hs. by apply Z.leb_le.
Qed.

(** C16: nothing leaks.  After the destructor, on whatever thread, once the
    functors it left have run and the user has let its pointers go, no connection object and no
    descriptor is left. *)
Theorem server_teardown nm cbs idle ses sv :
  name_ok nm -> new_fd ∅ idle -> sevents_ok (TcpServer_new (B := B) nm cbs idle) ses ->
  run_sevents (TcpServer_new (B := B) nm cbs idle) ses = Ok sv ->
  token sv = false -> starts sv = 0%nat -> (forall a, acceptor_ sv = Some a -> released a = false) ->
  (forall p n c, conns sv !! p = Some (n, c) -> posted c = [] /\ (p ∉ held sv)) ->
  conns sv = ∅ /\ fds sv = ∅.
Proof.
  intros Hn Hi Hok E Ht Hs Hrel Hrefs.
  pose proof (run_sevents_spec _ ses (new_server_inv (B := B) nm cbs idle Hi) Hn Hok) as Hr. rewrite E in Hr.
  destruct Hr as [[I Hr] _]. pose proof (b_token _ _ I Ht) as Htab.
  assert (conns sv = ∅) as Hc.
  { apply map_eq. intros p. rewrite lookup_empty. destruct (conns sv !! p) as [[n c]|] eqn:Hp; [|done].
    pose proof (Hr p n c Hp) as Href. destruct (Hrefs p n c Hp) as [Hpo Hh]. unfold referenced in Href.
    rewrite Htab, lookup_empty, Hpo in Href. repeat case_bool_decide; by simpl in Href. }
  split; [done|]. destruct (b_fds _ _ I) as [Hf _].
  assert (acceptor_ sv = None) as Ha.
  { pose proof (proj2 (b_acceptor _ _ I) (conj Ht Hs)) as Hl. unfold live_acceptor in Hl.
    destruct (acceptor_ sv) as [a|]; [|done]. by rewrite (Hrel a eq_refl) in Hl. }
  apply set_eq. intros fd. rewrite Hf. split; [|set_solver]. intros [? [o Ho]].
  destruct o as [p| |]; simpl in Ho; rewrite ?Hc, ?Ha, ?lookup_empty in Ho; lia.
Qed.

(** C29: [start].  It returns the state it leaves.  A server that is not idle is
    left as it is.  An idle server called on the loop's thread listens exactly when
    the kernel answers socket, bind and listen without an error, and otherwise is
    idle again with every descriptor it opened closed; called from another thread
    it is starting, nothing else changes, and the functor queued decides the same
    way by the answers it gets ([listen_outcome]). *)
Theorem server_start inLoop nm cbs idle ses sv sock bound lstn :
  name_ok nm -> new_fd ∅ idle -> sevents_ok (TcpServer_new (B := B) nm cbs idle) ses ->
  run_sevents (TcpServer_new (B := B) nm cbs idle) ses = Ok sv ->
  token sv = true -> new_fd (fds sv) sock ->
  let '(st, sv') := start inLoop sv sock bound lstn in
  st = sv_state sv' /\
  (sv_state sv <> kIdle -> sv' = sv) /\
  (sv_state sv = kIdle -> inLoop = true -> listen_outcome sock bound lstn sv sv') /\
  (sv_state sv = kIdle -> inLoop = false ->
     sv' = set_starts (set_state sv kStarting) (S (starts sv)) /\
     listen_outcome sock bound lstn sv (run_start sv' sock bound lstn)) /\
  (starts sv <> 0%nat -> listen_outcome sock bound lstn sv (run_start sv sock bound lstn)).
Proof.
  intros Hn Hi Hok E Ht Hnew.
  pose proof (run_sevents_spec _ ses (new_server_inv (B := B) nm cbs idle Hi) Hn Hok) as Hr. rewrite E in Hr.
  destruct Hr as [I _]. destruct (token_acceptor sv (proj1 I) Ht) as [a Ha].
  assert (forall sv1 n, token sv1 = true -> acceptor_ sv1 = Some a -> starts sv1 = S n -> fds sv1 = fds sv ->
    listen_outcome sock bound lstn sv1 (run_start sv1 sock bound lstn)) as Hrun.
  { intros sv1 n Ht1 Ha1 Hn1 Hf1. unfold run_start. rewrite Hn1, Ha1. cbv zeta. simpl token. rewrite Ht1.
    apply (listen_outcome_spec (set_starts sv1 n)); [done|]. simpl. by rewrite Hf1. }
  unfold start. destruct (decide (sv_state sv = kIdle)) as [Hs|Hs].
  2:{ rewrite bool_decide_eq_false_2 by done. split_and!; try done. intros Hz. destruct (starts sv) eqn:Es; [done|]. by eapply Hrun. }
  rewrite bool_decide_eq_true_2 by done. simpl acceptor_. rewrite Ha. destruct inLoop; cbn [negb]; split_and!; try done.
  - intros _ _. rewrite after_listen_state. by apply listen_outcome_spec.
  - intros Hz. destruct (starts sv) eqn:Es; [done|]. by eapply Hrun.
  - intros _ _. split; [done|]. by apply (Hrun (set_starts (set_state sv kStarting) (S (starts sv))) (starts sv)).
  - intros Hz. destruct (starts sv) eqn:Es; [done|]. by eapply Hrun.
Qed.

(** C28: running out of descriptors.  On EMFILE the acceptor closes its reserve
    descriptor, accepts one pending connection, if the kernel has one, and closes
    it, and takes the reserve back, in this order: no descriptor is lost, no
    connection is made, and the loop of [handleRead] ends, whatever [accept] would
    have answered next. *)
Theorem acceptor_emfile sv a ptr e acc idle rest :
  srv_inv sv -> acceptor_ sv = Some a ->
  new_fd (closed (fds sv) (idleFd_ a)) acc -> new_fd (closed (fds sv) (idleFd_ a)) idle ->
  exists sv', handleAccept sv (mkAnswer (inr EMFILE) ptr e :: rest) acc idle = Ok sv' /\ srv_inv sv' /\
    fds sv' = opened (closed (fds sv) (idleFd_ a)) (openIdleFd idle) /\ conns sv' = conns sv /\
    ops sv' = ops sv ++ (if 0 <=? idleFd_ a then [SvClose (idleFd_ a)] else []) ++
      match acc with inl fd => [SvOpen fd; SvClose fd] | inr _ => [] end ++
      match idle with inl i => [SvOpen i] | inr _ => [] end /\
    acceptor_ sv' = Some (mkAcceptor (acceptSocket_ a) (acceptChannel_ a) (listening_ a) (openIdleFd idle) (released a)).
Proof.
  intros I Ha Hacc Hidle. destruct (drop_one_spec sv a acc idle I Ha Hacc Hidle) as [I' Hf].
  exists (drop_one sv a acc idle). cbn [handleAccept an_fd accept]. change (accept_expected EMFILE) with true. cbn [mbind res_bind].
  change (EMFILE =? EAGAIN) with false. change (EMFILE =? EMFILE) with true. cbv iota. rewrite Ha.
  split_and!; try done. unfold drop_one, openIdleFd, op_open, op_close. simpl ops. do 2 f_equal.
  assert (forall x, new_fd (closed (fds sv) (idleFd_ a)) (inl x) -> (0 <=? x) = true) as Hge by (intros x [? _]; by apply Z.leb_le).
  destruct acc as [fd|], idle as [i|]; rewrite ?(Hge fd), ?(Hge i) by done; done.
Qed.

(** The text that does not fit the buffer is cut off. *)
Lemma snprintf_long size s t :
  0 < size -> size - 1 <= Z.of_nat (String.length s) -> snprintf size (s +:+ t) = snprintf size s.
Proof.
  intros _ Hs. unfold snprintf. assert (Z.to_nat (size - 1) <= String.length s)%nat as Hl by lia. clear Hs. revert Hl.
  generalize (Z.to_nat (size - 1)) as n.
  induction s as [|c s IH]; intros [|n] Hl; simpl in *; [by destruct t|lia|done|]. f_equal. apply IH. lia.
Qed.

(** C39: with a server name of 62 characters or more the number of a connection
    does not fit the buffer of [newConnection]: every connection gets the same
    name.  So whenever a client is accepted while an earlier one is open, and
    nobody else holds a pointer to that connection, the new one takes its table
    entry, and the old one is destroyed while open: the [assert] of
    [~TcpConnection] fails. *)
Theorem long_name_collision sv q c fd p e ans acc idle :
  62 <= Z.of_nat (String.length (c_str (name_ sv))) ->
  token sv = true -> nextConnId_ sv + 1 < 2 ^ 31 ->
  connections_ sv !! connName (name_ sv) 1 = Some q -> conns sv !! q = Some (connName (name_ sv) 1, c) ->
  state_ c <> kDisconnected -> posted c = [] -> q ∉ held sv -> p <> q ->
  (forall id, connName (name_ sv) id = connName (name_ sv) 1) /\
  handleAccept sv (mkAnswer (inl fd) p e :: ans) acc idle = Fault AssertFail.
Proof.
  intros Hlen Ht Hid Htab Hq Hst Hpost Hheld Hpq.
  assert (forall id, connName (name_ sv) id = connName (name_ sv) 1) as Hnames.
  { intros id. unfold connName. f_equal.
    assert (forall t, "-" +:+ c_str (name_ sv) +:+ t = ("-" +:+ c_str (name_ sv)) +:+ t) as Happ by done.
    assert (String.length ("-" +:+ c_str (name_ sv)) = S (String.length (c_str (name_ sv)))) as Hl by done.
    rewrite !Happ, !(snprintf_long 64 ("-" +:+ c_str (name_ sv))); try lia. done. }
  split; [done|]. cbn [handleAccept an_fd an_ptr an_env accept]. cbn [mbind res_bind]. simpl token. rewrite Ht.
  unfold newConnection. simpl nextConnId_. rewrite bool_decide_eq_true_2 by done. simpl name_. rewrite Hnames.
  simpl callbacks_. destruct (callbacks_ sv) as [[cc mc] wc]. simpl connections_. rewrite Htab. unfold reap. simpl conns.
  rewrite lookup_insert_ne by done. rewrite Hq. unfold referenced. simpl connections_. rewrite lookup_insert_eq, Hpost.
  simpl held. rewrite (bool_decide_eq_false_2 (Some p = Some q)) by congruence.
  rewrite (bool_decide_eq_false_2 (q ∈ held sv)) by done. simpl. unfold TcpConnection_delete, is_state.
  by rewrite bool_decide_eq_false_2.
Qed.
End properties.

(** ** The theorems at concrete histories *)
Definition ex_new : Server Buffer := TcpServer_new "srv" (true, true, true) (inl 3).
Definition ex_env : env := mkEnv [WOk 1] 0 [CSend [x68; x69]] [CShutdown] [].
Definition ex_ses : list sevent :=
  [SvStart false (inl 4) 0 0; SvRunStart (inl 4) 0 0;
   SvAccept [mkAnswer (inl 5) 1 ex_env; mkAnswer (inl 6) 2 ex_env; mkAnswer (inr EMFILE) 0 ex_env] (inl 3) (inl 3);
   SvConn 1 (EvPoll (Z.lor EPOLLHUP EPOLLERR) no_read) ex_env; SvConn 1 (EvFunctor 0) ex_env;
   SvDelete false (fun _ => ex_env); SvCleanup; SvConn 2 (EvFunctor 0) ex_env].


Lemma ex_ses_ok : sevents_ok ex_new ex_ses.
Proof.
  split; [by split; [|split; [lia|by_decide]]|]. run_next.
  split; [split; [lia|by_decide]|]. run_next.
  split; [|run_next].
  { split; [split_and!; [lia|by_decide|by vm_compute|by vm_compute|by vm_compute]|]. run_next.
    split; [split_and!; [lia|by_decide|by vm_compute|by vm_compute|by vm_compute]|]. run_next.
    intros a Ha. vm_compute in Ha. injection Ha as <-. split; (split; [lia|by_decide]). }
  split; [|run_next].
  { eexists _, _. split; [vm_compute; reflexivity|]. split; [split; [done|by intros ? ? _ ?]|]. split; [by vm_compute|done]. }
  split; [|run_next].
  { eexists _, _. split; [vm_compute; reflexivity|]. split; [done|]. split; [by vm_compute|done]. }
  split; [done|]. run_next. split; [done|]. run_next. split; [|by run_next].
  eexists _, _. split; [vm_compute; reflexivity|]. split; [done|]. split; [by vm_compute|done].
Qed.

(** The history ends with everything closed. *)
Lemma ex_ses_run : (sv ← run_sevents ex_new ex_ses; Ok (conns sv, fds sv)) = Ok (∅, ∅).
Proof. vm_compute. reflexivity. Qed.

Lemma server_safe_witness :
  match run_sevents ex_new ex_ses with
  | Ok sv =>
      (forall n p, connections_ sv !! n = Some p ->
         exists c, conns sv !! p = Some (n, c) /\ state_ c <> kDisconnected /\ conn_inv c) /\
      (forall p n c, conns sv !! p = Some (n, c) -> connections_ sv !! n <> Some p ->
         FDestroyed ∈ posted c /\ (state_ c = kDisconnected \/ hasCloseCallback c = false) \/
         state_ c = kDisconnected /\ torn c) /\
      fds_ok (fd_of sv) (fds sv) /\
      (sv_state sv = kListening -> exists a, acceptor_ sv = Some a /\ 0 <= acceptSocket_ a)
  | Fault f => f = StdAbort /\ exists se, se ∈ ex_ses /\ bad_accept se
  end.
Proof.
  apply (server_safe (B := Buffer) "srv" (true, true, true) (inl 3) ex_ses).
  - by_decide.
  - split; [lia|by_decide].
  - exact ex_ses_ok.
Defined.

Definition ex_end : Server Buffer := match run_sevents ex_new ex_ses with Ok sv => sv | Fault _ => ex_new end.
Definition ex_listening : Server Buffer :=
  match run_sevents ex_new (take 2 ex_ses) with Ok sv => sv | Fault _ => ex_new end.

Lemma server_teardown_witness : conns ex_end = ∅ /\ fds ex_end = ∅.
Proof.
  apply (server_teardown (B := Buffer) "srv" (true, true, true) (inl 3) ex_ses ex_end).
  - by_decide.
  - split; [lia|by_decide].
  - exact ex_ses_ok.
  - vm_compute. reflexivity.
  - vm_compute. reflexivity.
  - vm_compute. reflexivity.
  - intros a Ha. vm_compute in Ha. done.
  - intros p n c Hc. vm_compute in Hc. by destruct p.
Defined.

Lemma server_start_witness :
  let '(st, sv') := start true ex_new (inl 4) 0 (-1) in
  st = sv_state sv' /\
  (sv_state ex_new <> kIdle -> sv' = ex_new) /\
  (sv_state ex_new = kIdle -> true = true -> listen_outcome (inl 4) 0 (-1) ex_new sv') /\
  (sv_state ex_new = kIdle -> true = false ->
     sv' = set_starts (set_state ex_new kStarting) 1 /\
     listen_outcome (inl 4) 0 (-1) ex_new (run_start sv' (inl 4) 0 (-1))) /\
  (starts ex_new <> 0%nat -> listen_outcome (inl 4) 0 (-1) ex_new (run_start ex_new (inl 4) 0 (-1))).
Proof.
  apply (server_start (B := Buffer) true "srv" (true, true, true) (inl 3) [] ex_new (inl 4) 0 (-1)).
  - by_decide.
  - split; [lia|by_decide].
  - done.
  - done.
  - done.
  - split; [lia|by_decide].
Defined.

Lemma ex_listening_inv : srv_inv ex_listening.
Proof.
  assert (sevents_ok ex_new (take 2 ex_ses)) as Hok.
  { split; [by split; [|split; [lia|by_decide]]|]. run_next. split; [split; [lia|by_decide]|]. by run_next. }
  pose proof (run_sevents_spec ex_new (take 2 ex_ses) (new_server_inv "srv" (true, true, true) (inl 3) ltac:(split; [lia|by_decide]))
    ltac:(by_decide) Hok) as Hr.
  destruct (run_sevents ex_new (take 2 ex_ses)) as [sv|f] eqn:E.
  - replace ex_listening with sv; [apply Hr|]. unfold ex_listening. by rewrite E.
  - by vm_compute in E.
Qed.

Lemma acceptor_emfile_witness :
  exists sv', handleAccept ex_listening (mkAnswer (inr EMFILE) 0 ex_env :: []) (inl 3) (inl 3) = Ok sv' /\ srv_inv sv' /\
    fds sv' = opened (closed (fds ex_listening) 3) 3 /\ conns sv' = conns ex_listening /\
    ops sv' = ops ex_listening ++ [SvClose 3] ++ [SvOpen 3; SvClose 3] ++ [SvOpen 3] /\
    acceptor_ sv' = Some (mkAcceptor 4 (acceptChannel_ (default (Acceptor_new (inr 0)) (acceptor_ ex_listening))) true 3 false).
Proof.
  refine (acceptor_emfile ex_listening (default (Acceptor_new (inr 0)) (acceptor_ ex_listening)) 0 ex_env (inl 3) (inl 3) []
    ex_listening_inv _ _ _).
  - vm_compute. reflexivity.
  - split; [lia|by_decide].
  - split; [lia|by_decide].
Defined.

(** *** Long names *)
Definition long_name : string := Nat.iter 62 (String.append "n") EmptyString.
Definition ex_accept (name : string) (ans : list answer) : res (Server Buffer) :=
  run_sevents (TcpServer_new name (true, true, true) (inl 3))
    [SvStart true (inl 4) 0 0; SvAccept ans (inr EAGAIN) (inl 3)].
(** A server with a long name and one client. *)
Definition ex_long : Server Buffer :=
  match ex_accept long_name [mkAnswer (inl 5) 1 ex_env] with Ok sv => sv | Fault _ => ex_new end.

Lemma long_name_collision_witness :
  (forall id, connName long_name id = connName long_name 1) /\
  handleAccept ex_long [mkAnswer (inl 6) 2 ex_env] (inr EAGAIN) (inl 3) = Fault AssertFail.
Proof.
  refine (long_name_collision ex_long 1 _ 6 2 ex_env [] (inr EAGAIN) (inl 3) _ _ _ _ _ _ _ _ _).
  - vm_compute. discriminate.
  - vm_compute. reflexivity.
  - vm_compute. reflexivity.
  - vm_compute. reflexivity.
  - vm_compute. reflexivity.
  - vm_compute. discriminate.
  - vm_compute. reflexivity.
  - by_decide.
  - discriminate.
Defined.

(** With a short name the same clients are served. *)
Example short_name_served :
  (sv ← ex_accept "srv" [mkAnswer (inl 5) 1 ex_env; mkAnswer (inl 6) 2 ex_env];
   Ok (in_order (connections_ sv)).*2) = Ok [1; 2].
Proof. vm_compute. reflexivity. Qed.
