(* ===== verification/TcpServerReactor.v ===== *)
(** * TcpServerReactor: a server in a loop's poller

    Composes TcpServer.v with TcpReactor.v: what a server, its acceptor and its
    connections do to channels and descriptors ([ops]) runs on one poller and
    one kernel, in the order in which the code does it, among channels and
    descriptors of the rest of the program ([src/TcpServer.cpp],
    [src/TcpConnection.cpp], [src/Channel.cpp], [src/Poller.cpp]). *)

From S2P Require Import SocketsOps.
From S2P Require Import Prelude Buffer Channel Poller Kernel TcpConnection TcpReactor TcpServer.

#[local] Open Scope Z_scope.

(** ** The state *)
Record Site (B K : Type) : Type := mkSite {
  server : Server B;
  site : Reactor K
}.
Arguments mkSite {B K}.
Arguments server {B K}.
Arguments site {B K}.

(** Where objects are: the channel of the connection at an address, the
    acceptor's channel, the acceptor. *)
Record Layout : Type := mkLayout {
  chan_of : Z -> Z;
  pa : Z;
  oa : Z;
  chan_of_inj p q : chan_of p = chan_of q -> p = q;
  pa_apart p : chan_of p <> pa
}.

Section site.
Context {B K : Type} `{ByteQueueOps B} `{Kernel K} (L : Layout).
Implicit Types (w : Site B K) (sv : Server B) (r : Reactor K).

(** What [Acceptor::listen] and [cleanupAcceptor] do to the acceptor's channel.
    The channel is left to a functor ([WRelease] below). *)
Definition listen_ops fd : list rop :=
  [RNew (pa L) fd true false false false; RTie (pa L) (oa L); RChange (pa L) EnableReading].
Definition cleanup_ops : list rop := [RChange (pa L) DisableAll; RRemove (pa L)].

(** [~TcpConnection] deletes the connection's channel. *)
Definition run_server_op r (o : server_op) : res (Reactor K) :=
  match o with
  | SvConnOp p o => run_op (chan_of L p) p r o
  | SvNewConn p fd => do_rop r (RNew (chan_of L p) fd true true true true)
  | SvFreeConn p =>
      r1 ← do_rop r (RDrop p);
      c ← deref (chans r1 !! chan_of L p);
      if addedToLoop_ c then Fault BadPointer else do_rop r1 (RDelete (chan_of L p))
  | SvOpen fd => Ok (set_epoll r (sys_open (epoll r) fd))
  | SvClose fd => Ok (set_epoll r (sys_close (epoll r) fd))
  | SvListen fd => run_rops r (listen_ops fd)
  | SvDropAcceptor => do_rop r (RDrop (oa L))
  | SvUnlisten => run_rops r cleanup_ops
  end.

Fixpoint run_server_ops r (os : list server_op) : res (Reactor K) :=
  match os with [] => Ok r | o :: os' => r' ← run_server_op r o; run_server_ops r' os' end.

Definition site_new r (nm : string) (cbs : bool * bool * bool) (idle : sys_fd) : res (Site B K) :=
  let sv := TcpServer_new nm cbs idle in
  r' ← run_server_ops r (ops sv);
  Ok (mkSite sv r').

(** A function of the server: its calls into the poller are those it added to
    [ops].  It reads nothing of the poller, so running them at its end is running
    them in between. *)
#[export] Instance site_part : Part (Site B K) (Reactor K) := {| get := site; put w r := mkSite (server w) r |}.

Definition lift_server (f : Server B -> res (Server B)) w : res (Site B K) :=
  sv ← f (server w);
  r ← run_server_ops (site w) (drop (length (ops (server w))) (ops sv));
  Ok (mkSite sv r).

(** An event of the server.  The poller reports the channel an event comes
    from.  [handleEvent] of the acceptor's channel calls [Acceptor::handleRead];
    that of a connection's channel is part of the connection (TcpReactor.v shows
    that the poller's is the same). *)
Definition accept_callback (ans : list answer) (acc idle : sys_fd) w (p : Z) (k : cbk) : res (Site B K) :=
  match k with
  | CbRead => lift_server (fun sv => handleAccept sv ans acc idle) w
  | _ => Fault StdAbort
  end.

Definition run_server_event w (se : sevent) : res (Site B K) :=
  match se with
  | SvAccept ans acc idle =>
      '(active, r) ← poll (site w) (WEvents [(EPOLLIN, pa L)]);
      handle_active (accept_callback ans acc idle) (mkSite (server w) r) active
  | TcpServer.SvConn p (EvPoll revents _) _ =>
      '(_, r) ← poll (site w) (WEvents [(revents, chan_of L p)]);
      lift_server (fun sv => run_sevent sv se) (mkSite (server w) r)
  | _ => lift_server (fun sv => run_sevent sv se) w
  end.

(** The functor that keeps the acceptor's channel has run; and the rest of the
    program, as in TcpReactor.v. *)
Inductive sstep : Type :=
| WServer (se : sevent)
| WRelease
| WOther (o : rop)
| WOpen (fd : Z)
| WClose (fd : Z).

Definition run_sstep w (st : sstep) : res (Site B K) :=
  match st with
  | WServer se => run_server_event w se
  | WRelease => r ← do_rop (site w) (RDelete (pa L)); Ok (mkSite (server w) r)
  | WOther o => r ← do_rop (site w) o; Ok (mkSite (server w) r)
  | WOpen fd => Ok (mkSite (server w) (set_epoll (site w) (sys_open (epoll (site w)) fd)))
  | WClose fd => Ok (mkSite (server w) (set_epoll (site w) (sys_close (epoll (site w)) fd)))
  end.

Fixpoint run_ssteps w (sts : list sstep) : res (Site B K) :=
  match sts with [] => Ok w | st :: sts' => w' ← run_sstep w st; run_ssteps w' sts' end.

(** Descriptors the kernel returns during an event. *)
Definition fd_answer (a : sys_fd) : list Z := match a with inl fd => [fd] | inr _ => [] end.
Definition answered (se : sevent) : list Z :=
  match se with
  | SvStart _ sock _ _ | SvRunStart sock _ _ => fd_answer sock
  | SvAccept ans acc idle => (ans ≫= fun an => fd_answer (an_fd an)) ++ fd_answer acc ++ fd_answer idle
  | _ => []
  end.


(** Where connections are allocated during an event. *)
Definition allocated (se : sevent) : list Z :=
  match se with SvAccept ans _ _ => an_ptr <$> ans | _ => [] end.

Definition sstep_ok w (st : sstep) : Prop :=
  let sv := server w in
  let r := site w in
  match st with
  | WServer se =>
      sevent_ok sv se /\ (forall fd, fd ∈ answered se -> fd ∈ kfds (epoll r) -> fd ∈ fds sv) /\
      (oa L ∉ allocated se) /\
      match se with
      | TcpServer.SvConn p (EvPoll revents _) _ => wait_ok r [(revents, chan_of L p)]
      | SvAccept _ _ _ => wait_ok r [(EPOLLIN, pa L)]
      | _ => True
      end
  | WRelease => acceptor_ sv = None /\ is_Some (chans r !! pa L)
  | WOther o =>
      pre r o /\ Kernel.opened r o /\ (forall p, rop_on o <> Some (chan_of L p)) /\ rop_on o <> Some (pa L) /\
      (forall x, o = RDrop x -> x <> oa L /\ conns sv !! x = None) /\
      (forall q, o <> RTie q (oa L)) /\
      (forall q ch c, o = RChange q ch -> chans r !! q = Some c -> fd_ c ∉ fds sv)
  | WOpen fd => fd ∉ kfds (epoll r)
  | WClose fd => (fd ∉ fds sv) /\ channels_ r !! fd = None
  end.

Fixpoint ssteps_ok w (sts : list sstep) : Prop :=
  match sts with
  | [] => True
  | st :: sts' => sstep_ok w st /\ forall w', run_sstep w st = Ok w' -> ssteps_ok w' sts'
  end.

(** The server's part of a history. *)
Definition server_events (sts : list sstep) : list sevent :=
  omap (fun st => match st with WServer se => Some se | _ => None end) sts.

(** ** The server and the poller

    [ext] are the descriptors of the rest of the program.  The channel of a
    listening acceptor watches for reading; its tied object exists until the
    acceptor is [gone]. *)
Definition listens r (c : Channel) (fd : Z) (gone : bool) : Prop :=
  fd_ c = fd /\ events_ c = kReadEvent /\ addedToLoop_ c = true /\ tied_ c = true /\ tie_ c = Some (oa L) /\
  (oa L ∈ Poller.alive r <-> gone = false) /\
  (readCallback_ c, writeCallback_ c, closeCallback_ c, errorCallback_ c) = (true, false, false, false).

Definition acceptor_link (a : option Acceptor) r : Prop :=
  match a with
  | Some a =>
      if listening_ a
      then 0 <= acceptSocket_ a /\ acceptChannel_ a <> None /\
        exists c, chans r !! pa L = Some c /\ listens r c (acceptSocket_ a) (released a)
      else acceptSocket_ a < 0 /\ acceptChannel_ a = None /\ chans r !! pa L = None
  | None => forall c, chans r !! pa L = Some c -> addedToLoop_ c = false
  end.

(** The descriptor an owner has, and that it is open and no one else's. *)
Definition fd_owner (cs : gmap Z (string * Conn B)) (a : option Acceptor) (o : owner) : Z :=
  match o with
  | OConn p => match cs !! p with Some (_, c) => socketFd_ c | None => -1 end
  | OAccept => match a with Some a => acceptSocket_ a | None => -1 end
  | OIdle => match a with Some a => idleFd_ a | None => -1 end
  end.

Definition owned (own : owner -> Z) (f : gset Z) : Prop :=
  (forall o, 0 <= own o -> own o ∈ f) /\ (forall o1 o2, 0 <= own o1 -> own o1 = own o2 -> o1 = o2).

(** The connections, descriptors and acceptor of a server as they are in the
    poller; the channels for the server's descriptors are the server's. *)
Record server_link (ext : gset Z) (cs : gmap Z (string * Conn B)) (f : gset Z) (a : option Acceptor) r : Prop := mkServerLink {
  sl_open : fds_open r;
  sl_conn p nm c : cs !! p = Some (nm, c) -> link (chan_of L p) p c r;
  sl_free p : cs !! p = None -> chans r !! chan_of L p = None;
  sl_kfds : kfds (epoll r) = f ∪ ext;
  sl_ext : f ## ext;
  sl_owned : owned (fd_owner cs a) f;
  sl_acc : acceptor_link a r;
  sl_oa : cs !! oa L = None;
  sl_others x d : chans r !! x = Some d -> addedToLoop_ d = true -> fd_ d ∈ f ->
    x = pa L \/ exists p, x = chan_of L p
}.
End site.

Section follow.
Context {B K : Type} `{ByteQueue B} `{KernelLaws K} (L : Layout) (ext : gset Z).
Implicit Types (sv : Server B) (r : Reactor K) (c : Conn B) (cs : gmap Z (string * Conn B)) (f : gset Z).

#[local] Abbreviation slink := (server_link L ext).

Lemma run_server_ops_app r os1 os2 :
  run_server_ops L r (os1 ++ os2) = (r1 ← run_server_ops L r os1; run_server_ops L r1 os2).
Proof.
  revert r. induction os1 as [|o os IH]; intros r; cbn [app run_server_ops]; [done|].
  destruct (run_server_op L r o); cbn [mbind res_bind]; [apply IH|done].
Qed.

(** One owner's descriptor changes. *)
Lemma owned_update own own' f f' o :
  owned own f -> (forall o', o' <> o -> own' o' = own o') ->
  (0 <= own' o -> own' o ∈ f' /\ forall o', o' <> o -> own o' <> own' o) ->
  (forall x, x ∈ f -> x <> own o -> x ∈ f') -> owned own' f'.
Proof.
  intros [Hin Hd] Hoth Ho Hf. split.
  - intros o1. destruct (decide (o1 = o)) as [-> |Hne]; [intros; by apply Ho|]. rewrite (Hoth o1 Hne). intros Hge.
    apply Hf; [by apply Hin|]. intros E. apply Hne. by apply Hd.
  - intros o1 o2. destruct (decide (o1 = o)) as [-> |N1], (decide (o2 = o)) as [-> |N2]; try done.
    + rewrite (Hoth o2 N2). intros Hge E. by destruct (proj2 (Ho Hge) o2 N2).
    + rewrite (Hoth o1 N1). intros Hge E. destruct (proj2 (Ho ltac:(lia)) o1 N1). done.
    + rewrite (Hoth o1 N1), (Hoth o2 N2). apply Hd.
Qed.

(** Different owners, different descriptors. *)
Lemma owned_apart own f o1 o2 : owned own f -> o1 <> o2 -> 0 <= own o1 -> own o1 <> own o2.
Proof. intros [_ Hd] Hne Hge E. by apply Hne, Hd. Qed.

Lemma owner_conn cs a p nm c : cs !! p = Some (nm, c) -> fd_owner cs a (OConn p) = socketFd_ c.
Proof. intros E. simpl. by rewrite E. Qed.

(** A connection, and the acceptor, when other channels change. *)
Lemma link_kept q c r r' :
  link (chan_of L q) q c r -> fds_open r' -> chans r' !! chan_of L q = chans r !! chan_of L q ->
  (q ∈ Poller.alive r -> q ∈ Poller.alive r') -> (0 <= socketFd_ c -> socketFd_ c ∈ kfds (epoll r')) ->
  (forall x d, x <> chan_of L q -> chans r' !! x = Some d -> addedToLoop_ d = true -> 0 <= socketFd_ c ->
     fd_ d = socketFd_ c -> exists d0, chans r !! x = Some d0 /\ addedToLoop_ d0 = true /\ fd_ d0 = socketFd_ c) ->
  link (chan_of L q) q c r'.
Proof.
  intros Hl Ho Hc Ha Hk Hx. pose proof Hl as [Ho0 (d & Hd & _) _ _ _ _].
  eapply (frame_link (chan_of L q) q c r r' d d); try done; [by rewrite Hc|auto|].
  intros Hge Hs. apply (slot_intro (chan_of L q) r r' _ (proj1 Ho0) (proj1 Ho) Hs).
  intros x d' Hne Hd' Hadd Hfd. by apply (Hx x d').
Qed.

Lemma acceptor_kept a r r' :
  acceptor_link L a r -> chans r' !! pa L = chans r !! pa L -> (oa L ∈ Poller.alive r' <-> oa L ∈ Poller.alive r) ->
  acceptor_link L a r'.
Proof.
  unfold acceptor_link. destruct a as [a|]; [destruct (listening_ a)|].
  - intros (Hge & Hn & c & Hc & H1' & H2' & H3' & H4' & H5' & H6' & H7') E Ha. split_and!; try done.
    exists c. rewrite E. split; [done|]. unfold listens. by rewrite Ha.
  - by intros (? & ? & ?) ->.
  - by intros Hc ->.
Qed.

(** The channel of a connection that is in the loop is for its socket. *)
Lemma link_added q c r d :
  link (chan_of L q) q c r -> chans r !! chan_of L q = Some d -> addedToLoop_ d = true ->
  0 <= socketFd_ c /\ fd_ d = socketFd_ c.
Proof.
  intros [_ (d0 & Hd & (Ef & _ & _ & Ea & _) & _) Hfd Hcl _ _] Hd' Hadd. rewrite Hd in Hd'. injection Hd' as ->.
  assert (0 <= socketFd_ c) as Hge.
  { destruct (Z.lt_ge_cases (socketFd_ c) 0) as [Hlt|]; [|done]. specialize (Hcl Hlt). congruence. }
  split; [done|]. destruct (Hfd Hge) as (<- & _). done.
Qed.

(** A descriptor nobody owns has no channel in the loop. *)
Lemma unowned_slot cs f a r fd :
  slink cs f a r -> fd ∈ f -> (forall o, fd_owner cs a o <> fd) -> channels_ r !! fd = None.
Proof.
  intros S Hin Hno. destruct (channels_ r !! fd) as [x|] eqn:E; [exfalso|done].
  destruct (ri_map _ (proj1 (sl_open _ _ _ _ _ _ S)) _ _ E) as (d & Hd & Hfd & Hadd).
  destruct (sl_others _ _ _ _ _ _ S x d Hd Hadd) as [-> |[p ->]]; [by rewrite Hfd| |].
  - pose proof (sl_acc _ _ _ _ _ _ S) as Ha. pose proof (Hno OAccept) as Hne. unfold acceptor_link in Ha. simpl in Hne.
    destruct a as [a|]; [|rewrite Ha in Hadd by done; done]. destruct (listening_ a).
    + destruct Ha as (_ & _ & d' & Hd' & Hf' & _). rewrite Hd in Hd'. injection Hd' as <-. congruence.
    + destruct Ha as (_ & _ & Hn). congruence.
  - destruct (cs !! p) as [[nm c]|] eqn:Hp.
    + destruct (link_added p c r d (sl_conn _ _ _ _ _ _ S p nm c Hp) Hd Hadd) as [_ Hf].
      apply (Hno (OConn p)). rewrite (owner_conn cs a p nm c Hp). congruence.
    + rewrite (sl_free _ _ _ _ _ _ S p Hp) in Hd. done.
Qed.

(** *** What a connection does *)
Lemma run_conn_ops p r os : run_server_ops L r (SvConnOp p <$> os) = run_ops (chan_of L p) p r os.
Proof.
  revert r. induction os as [|o os IH]; intros r; cbn [fmap list_fmap run_server_ops run_ops]; [done|].
  cbn [run_server_op]. destruct (run_op (chan_of L p) p r o); cbn [mbind res_bind]; [apply IH|done].
Qed.

Definition conn_fds f c c' : gset Z :=
  if (0 <=? socketFd_ c) && (socketFd_ c' <? 0) then closed f (socketFd_ c) else f.

Lemma conn_fds_same f c c' : socketFd_ c' = socketFd_ c -> conn_fds f c c' = f.
Proof.
  intros E. unfold conn_fds. rewrite E. destruct (Z.leb_spec 0 (socketFd_ c)), (Z.ltb_spec (socketFd_ c) 0); done || lia.
Qed.

Lemma conn_owners cs a p nm c c' o :
  cs !! p = Some (nm, c) -> fd_owner (<[p := (nm, c')]> cs) a o = if decide (o = OConn p) then socketFd_ c' else fd_owner cs a o.
Proof.
  intros Hp. destruct (decide (o = OConn p)) as [-> |Hne]; [by apply owner_conn with nm, lookup_insert_eq|].
  destruct o as [q| |]; try done. simpl. rewrite lookup_insert_ne; [done|congruence].
Qed.

Lemma slink_effect cs f a r r' p nm c c' :
  slink cs f a r -> cs !! p = Some (nm, c) -> link (chan_of L p) p c' r' -> effect (chan_of L p) p c c' r r' ->
  slink (<[p := (nm, c')]> cs) (conn_fds f c c') a r'.
Proof.
  intros S Hp Hl' [E1 E2 E3 E4]. pose proof S as [S1 S2 S3 S4 S5 S6 S7 S9 S8].
  assert (socketFd_ c' = socketFd_ c \/ socketFd_ c' < 0) as Hfd by (destruct E3 as [[? _]|(_ & ? & _)]; [by left|right; lia]).
  pose proof (owner_conn cs a p nm c Hp) as Eown.
  assert (conn_fds f c c' ⊆ f /\ forall x, x ∈ f -> x <> socketFd_ c \/ socketFd_ c < 0 -> x ∈ conn_fds f c c') as [Hsub Hkeep].
  { unfold conn_fds, closed. destruct (Z.leb_spec 0 (socketFd_ c)), (socketFd_ c' <? 0); simpl; set_solver by lia. }
  assert (kfds (epoll r') = conn_fds f c c' ∪ ext) as Hk.
  { unfold conn_fds. destruct E3 as [[E ->]|(Hge & E & ->)].
    - rewrite E, S4. by destruct (Z.leb_spec 0 (socketFd_ c)), (Z.ltb_spec (socketFd_ c) 0); try lia.
    - rewrite E, S4. unfold closed. rewrite (proj2 (Z.leb_le 0 _) Hge). simpl.
      assert (socketFd_ c ∈ f) as Hc by (rewrite <- Eown; apply S6; by rewrite Eown). set_solver. }
  pose proof (lk_open _ _ _ _ Hl') as Ho'.
  assert (forall x d, x <> pa L -> (forall q, x <> chan_of L q) -> chans r' !! x = Some d -> chans r !! x = Some d) as Hx.
  { intros x d _ Hx. by rewrite E1. }
  split; [done| | |exact Hk|set_solver| | | |].
  - intros q nmq cq. rewrite lookup_insert. case_decide as E; [subst q; by intros [= <- <-]|].
    intros Hq. pose proof (S2 q nmq cq Hq) as Hlq. pose proof (owner_conn cs a q nmq cq Hq) as Eownq.
    assert (chan_of L q <> chan_of L p) as Hne by (intros Ex; apply E; symmetry; by apply (chan_of_inj L)).
    assert (0 <= socketFd_ cq -> socketFd_ cq <> socketFd_ c) as Hap.
    { intros Hge. rewrite <- Eown, <- Eownq in *. by apply (owned_apart _ f); [done|congruence|]. }
    eapply link_kept; [exact Hlq|done|by apply E1|by apply E2| |].
    + intros Hge. rewrite Hk. apply elem_of_union. left. apply Hkeep; [|left; auto].
      rewrite <- Eownq. apply S6. by rewrite Eownq.
    + intros x d Hxq Hd Hadd Hge Hfx. destruct (decide (x = chan_of L p)) as [-> |Hxp]; [|rewrite E1 in Hd by done; eauto].
      exfalso. destruct (link_added p c' r' d Hl' Hd Hadd) as [Hge' Hfd'].
      destruct Hfd as [Hfd|]; [|lia]. apply (Hap Hge). congruence.
  - intros q [Hq Hne]%lookup_insert_None. rewrite E1; [by apply S3|]. intros Ex. apply Hne. symmetry. by apply (chan_of_inj L).
  - apply (owned_update (fd_owner cs a) _ f _ (OConn p) S6).
    + intros o Hne. rewrite (conn_owners cs a p nm c c') by done. by rewrite decide_False.
    + rewrite (conn_owners cs a p nm c c'), decide_True by done. intros Hge. destruct Hfd as [Hfd|]; [|lia].
      assert (conn_fds f c c' = f) as -> by (unfold conn_fds; by rewrite (proj2 (Z.ltb_ge _ 0) Hge), andb_false_r).
      rewrite Hfd, <- Eown in *. split; [by apply S6|]. intros o Hne E.
      by apply (owned_apart _ f (OConn p) o S6).
    + intros x Hin Hne. rewrite Eown in Hne. apply Hkeep; [done|by left].
  - assert (p <> oa L) as Hpo by congruence. destruct E2.
    eapply acceptor_kept; [exact S7| |set_solver]. apply E1. intros Ex. by apply (pa_apart L p).
  - rewrite lookup_insert_ne; [done|]. intros ->. congruence.
  - intros x d Hd Hadd Hf. destruct (decide (x = chan_of L p)) as [-> |Hxp]; [eauto|]. rewrite E1 in Hd by done.
    apply (S8 x d); [done|done|set_solver].
Qed.

Lemma slink_conn cs f a r p nm c c' :
  slink cs f a r -> cs !! p = Some (nm, c) -> prims c c' ->
  exists r', run_server_ops L r (conn_ops p c c') = Ok r' /\ slink (<[p := (nm, c')]> cs) (conn_fds f c c') a r'.
Proof.
  intros S Hp Hpr.
  destruct (prims_link (chan_of L p) p c c' r Hpr (sl_conn _ _ _ _ _ _ S p nm c Hp)) as (os & r' & Eo & R & Hl' & He).
  exists r'. split; [|by apply (slink_effect cs f a r)].
  unfold conn_ops. by rewrite Eo, drop_app_length, run_conn_ops.
Qed.

(** *** Descriptors opened and closed *)
Lemma slink_chans ext' cs f f' a r r' :
  slink cs f a r -> fds_open r' -> chans r' = chans r -> Poller.alive r' = Poller.alive r ->
  kfds (epoll r') = f' ∪ ext' -> f' ## ext' -> owned (fd_owner cs a) f' ->
  (forall x d, chans r !! x = Some d -> addedToLoop_ d = true -> fd_ d ∈ f' -> fd_ d ∈ f) ->
  server_link L ext' cs f' a r'.
Proof.
  intros [S1 S2 S3 S4 S5 S6 S7 S9 S8] Ho Ec Ea Hk He Hown Hx. split; try done.
  - intros q nm c Hq. apply (link_kept q c r r'); [by eapply S2|done|by rewrite Ec|by rewrite Ea| |].
    + intros Hge. rewrite Hk. apply elem_of_union. left. pose proof (owner_conn cs a q nm c Hq) as Eo.
      rewrite <- Eo. apply Hown. by rewrite Eo.
    + intros x d _. rewrite Ec. eauto.
  - intros q Hq. rewrite Ec. by apply S3.
  - apply (acceptor_kept a r r' S7); [by rewrite Ec|by rewrite Ea].
  - intros x d. rewrite Ec. intros Hd Hadd Hf. apply (S8 x d); [done|done|by apply (Hx x d)].
Qed.

Lemma owned_sub own f f' : owned own f -> f ⊆ f' -> owned own f'.
Proof. intros [H1' H2'] Hs. split; [|done]. intros o Ho. by apply Hs, H1'. Qed.

Lemma slink_opened cs f a r fd :
  slink cs f a r -> (0 <= fd -> (fd ∉ f) /\ (fd ∉ ext)) ->
  exists r', run_server_ops L r (op_open fd) = Ok r' /\ slink cs (opened f fd) a r'.
Proof.
  intros S Hn. unfold op_open, opened. destruct (Z.leb_spec 0 fd) as [Hge|Hlt]; [|by exists r].
  destruct (Hn Hge) as [Hf He]. pose proof S as [S1 _ _ S4 S5 S6 _ _ _].
  eexists. split; [done|]. cbn [mbind res_bind].
  assert (fd ∉ kfds (epoll r)) as Hfk by (rewrite S4; set_solver).
  apply (slink_chans _ cs f _ a r); try done; simpl.
  - by apply fds_open_sys_open.
  - rewrite open_fds, S4. set_solver.
  - set_solver.
  - eapply owned_sub; [exact S6|set_solver].
  - intros x d Hd Hadd. pose proof (proj2 S1 x d Hd Hadd). set_solver.
Qed.

Lemma slink_closed cs f a r fd :
  slink cs f a r -> (0 <= fd -> fd ∈ f /\ forall o, fd_owner cs a o <> fd) ->
  exists r', run_server_ops L r (op_close fd) = Ok r' /\ slink cs (closed f fd) a r'.
Proof.
  intros S Hn. unfold op_close, closed. destruct (Z.leb_spec 0 fd) as [Hge|Hlt]; [|by exists r].
  destruct (Hn Hge) as [Hf He]. pose proof S as [S1 _ _ S4 S5 S6 _ _ _].
  eexists. split; [done|]. cbn [mbind res_bind].
  apply (slink_chans _ cs f _ a r); try done; simpl.
  - apply fds_open_sys_close; [done|]. by apply (unowned_slot cs f a).
  - rewrite close_fds, S4. set_solver.
  - set_solver.
  - destruct S6 as [H1' H2']. split; [|done]. intros o Ho. apply elem_of_difference. split; [by apply H1'|].
    by intros ?%elem_of_singleton%He.
  - set_solver.
Qed.

(** *** Connections made and deleted *)
Lemma slink_new cs f a r p nm fd hw b1 b2 b3 b4 b5 :
  slink cs f a r -> cs !! p = None -> p <> oa L -> 0 <= fd -> fd ∈ f -> (forall o, fd_owner cs a o <> fd) ->
  exists r', run_server_op L r (SvNewConn p fd) = Ok r' /\
    slink (<[p := (nm, TcpConnection_new fd hw b1 b2 b3 b4 b5)]> cs) f a r'.
Proof.
  intros S Hp Hpo Hge Hf Hno. set (c := TcpConnection_new _ _ _ _ _ _ _).
  pose proof (unowned_slot cs f a r fd S Hf Hno) as Hslot. pose proof S as [S1 S2 S3 S4 S5 S6 S7 S9 S8].
  destruct (host_new_link (B := B) (chan_of L p) p r fd hw b1 b2 b3 b4 b5 S1 (S3 p Hp) Hge) as (r' & E & Hl); [set_solver|done|].
  unfold host_new in E. apply bind_Ok_inv in E as (r1 & E & E1). injection E1 as ->. fold c in Hl.
  exists r'. split; [done|]. simpl in E. injection E as <-. set (ch := set_callbacks _ _ _ _ _) in *.
  assert (forall x, x <> chan_of L p -> chans (set_chan r (chan_of L p) ch) !! x = chans r !! x) as Ho.
  { intros x Hx. simpl. by rewrite lookup_insert_ne. }
  assert (forall q, q <> p -> chan_of L q <> chan_of L p) as Hinj by (intros q Hq Ex; by apply Hq, (chan_of_inj L)).
  assert (forall o, fd_owner (<[p := (nm, c)]> cs) a o = if decide (o = OConn p) then fd else fd_owner cs a o) as Hown.
  { intros o. case_decide as Ho'; [subst o; simpl; by rewrite lookup_insert_eq|].
    destruct o as [q| |]; try done. simpl. rewrite lookup_insert_ne; [done|congruence]. }
  split; [by apply Hl| | |done|done| | | |].
  - intros q nmq cq. rewrite lookup_insert. case_decide as Eq; [subst q; by intros [= <- <-]|]. intros Hq.
    apply (link_kept q cq r); [by eapply S2|by apply Hl|by apply Ho, Hinj|done| |].
    + intros Hq'. simpl. rewrite S4. apply elem_of_union. left. pose proof (owner_conn cs a q nmq cq Hq) as Eo.
      rewrite <- Eo. apply S6. by rewrite Eo.
    + intros x d _. simpl. rewrite lookup_insert. case_decide; [by intros [= <-]|eauto].
  - intros q [Hq Hne]%lookup_insert_None. rewrite Ho by (by apply Hinj). by apply S3.
  - apply (owned_update (fd_owner cs a) _ f _ (OConn p) S6).
    + intros o Hne. rewrite Hown. by rewrite decide_False.
    + rewrite Hown, decide_True by done. intros _. split; [done|]. intros o _. apply Hno.
    + done.
  - apply (acceptor_kept a r); [done| |done]. apply Ho. intros E. by apply (pa_apart L p).
  - by rewrite lookup_insert_ne.
  - intros x d. simpl. rewrite lookup_insert. case_decide as Ex; [by intros [= <-]|apply S8].
Qed.

Lemma slink_free_conn cs f a r p nm c :
  slink cs f a r -> cs !! p = Some (nm, c) -> socketFd_ c < 0 ->
  exists r', run_server_op L r (SvFreeConn p) = Ok r' /\ slink (delete p cs) f a r'.
Proof.
  intros S Hp Hlt. pose proof S as [S1 S2 S3 S4 S5 S6 S7 S9 S8].
  pose proof (S2 p nm c Hp) as [_ (d & Hd & (_ & _ & _ & Ea & _) & _) _ Hcl _ _]. rewrite Hcl in Ea by done.
  set (r1 := set_alive r (Poller.alive r ∖ {[p]})).
  destruct (do_rop_ok r (RDrop p) S1) as (r1' & E1 & Ho1); [done..|]. injection E1 as <-. fold r1 in Ho1.
  destruct (do_rop_ok r1 (RDelete (chan_of L p)) Ho1) as (r2 & E2 & Ho2); [by exists d|done|].
  simpl in E2. rewrite Hd in E2. injection E2 as <-. eexists. split.
  { cbn [run_server_op do_rop mbind res_bind]. fold r1. change (chans r1) with (chans r). rewrite Hd. cbn [deref mbind res_bind].
    by rewrite Ea. }
  assert (forall q, q <> p -> chan_of L q <> chan_of L p) as Hinj by (intros q Hq Ex; by apply Hq, (chan_of_inj L)).
  split; [done| | |done|done| | | |].
  - intros q nmq cq [Hne Hq]%lookup_delete_Some.
    apply (link_kept q cq r); [by eapply S2|done| | | |].
    + simpl. rewrite lookup_delete_ne; [done|]. intros E. by apply (Hinj q).
    + simpl. intros Hal. apply elem_of_difference. split; [done|]. by intros ->%elem_of_singleton.
    + intros Hq'. simpl. rewrite S4. apply elem_of_union. left. pose proof (owner_conn cs a q nmq cq Hq) as Eo.
      rewrite <- Eo. apply S6. by rewrite Eo.
    + intros x d' _. simpl. intros [_ Hd']%lookup_delete_Some. eauto.
  - intros q [-> |Hq]%lookup_delete_None; simpl; [by rewrite lookup_delete_eq|].
    rewrite lookup_delete. case_decide; [done|]. by apply S3.
  - apply (owned_update (fd_owner cs a) _ f _ (OConn p) S6).
    + intros [q| |] Hne; try done. simpl. rewrite lookup_delete_ne; [done|congruence].
    + simpl. rewrite lookup_delete_eq. lia.
    + done.
  - apply (acceptor_kept a r); [done| |].
    + simpl. rewrite lookup_delete_ne; [done|]. apply pa_apart.
    + simpl. assert (p <> oa L) by congruence. set_solver.
  - by apply lookup_delete_None; right.
  - intros x d'. simpl. intros [_ Hd']%lookup_delete_Some. by apply S8.
Qed.

(** *** The acceptor *)
Lemma slink_acceptor cs f a a' r r' :
  slink cs f a r -> fds_open r' -> (forall x, x <> pa L -> chans r' !! x = chans r !! x) ->
  (forall p, p <> oa L -> p ∈ Poller.alive r -> p ∈ Poller.alive r') -> kfds (epoll r') = kfds (epoll r) ->
  (forall d, chans r' !! pa L = Some d -> addedToLoop_ d = true -> fd_ d ∈ f /\ forall p, fd_owner cs a (OConn p) <> fd_ d) ->
  acceptor_link L a' r' -> owned (fd_owner cs a') f -> slink cs f a' r'.
Proof.
  intros [S1 S2 S3 S4 S5 S6 S7 S9 S8] Ho Ec Eal Ek Hpa Ha Hown.
  split; try done; [| |congruence|].
  - intros q nm c Hq. pose proof (owner_conn cs a q nm c Hq) as Eo.
    apply (link_kept q c r r'); [by eapply S2|done|by apply Ec, pa_apart|apply Eal; congruence| |].
    + intros Hge. rewrite Ek, S4. apply elem_of_union. left. rewrite <- Eo. apply S6. by rewrite Eo.
    + intros x d _ Hd Hadd _ Hf. destruct (decide (x = pa L)) as [-> |Hx]; [|rewrite Ec in Hd by done; eauto].
      destruct (Hpa d Hd Hadd) as [_ Hno]. destruct (Hno q). congruence.
  - intros q Hq. rewrite Ec by apply pa_apart. by apply S3.
  - intros x d Hd Hadd Hf. destruct (decide (x = pa L)) as [-> |Hx]; [by left|]. rewrite Ec in Hd by done. by apply (S8 x d).
Qed.

Lemma run_rops_3 r o1 o2 o3 r1 r2 r3 :
  do_rop r o1 = Ok r1 -> do_rop r1 o2 = Ok r2 -> do_rop r2 o3 = Ok r3 -> run_rops r [o1; o2; o3] = Ok r3.
Proof. intros E1 E2 E3. cbn [run_rops]. by rewrite E1; cbn [mbind res_bind]; rewrite E2; cbn [mbind res_bind]; rewrite E3. Qed.

Lemma slink_listen cs f a ch r fd :
  slink cs f (Some a) r -> listening_ a = false -> released a = false -> 0 <= fd -> fd ∈ f -> (forall o, fd_owner cs (Some a) o <> fd) ->
  exists r', run_server_op L r (SvListen fd) = Ok r' /\
    slink cs f (Some (mkAcceptor fd (Some ch) true (idleFd_ a) (released a))) r'.
Proof.
  intros S Hl Hrel Hge Hf Hno. pose proof (unowned_slot cs f (Some a) r fd S Hf Hno) as Hslot.
  pose proof S as [S1 S2 S3 S4 S5 S6 S7 S9 S8]. unfold acceptor_link in S7. rewrite Hl in S7. destruct S7 as (_ & _ & Hpa).
  destruct (do_rop_ok r (RNew (pa L) fd true false false false) S1 Hpa) as (r1 & E1 & Ho1); [done|]. injection E1 as <-.
  set (r1 := set_chan _ _ _) in *.
  destruct (do_rop_ok r1 (RTie (pa L) (oa L)) Ho1) as (r2 & E2 & Ho2); [simpl; rewrite lookup_insert_eq; eauto|done|].
  simpl in E2. rewrite lookup_insert_eq in E2. cbn [deref mbind res_bind] in E2. injection E2 as <-.
  set (c2 := tie _ _) in *. set (r2 := set_alive _ _) in *.
  assert (chans r2 !! pa L = Some c2) as Hc2 by (simpl; apply lookup_insert_eq).
  destruct (channel_change_open r2 (pa L) c2 EnableReading Ho2 Hc2) as (r3 & E3 & Ho3).
  { exists c2. split; [done|]. by left. }
  { intros d Hd. rewrite Hc2 in Hd. injection Hd as <-. left. simpl. rewrite S4. set_solver. }
  destruct (channel_change_view r2 (pa L) c2 EnableReading r3 Hc2 E3) as (i & Hc3).
  pose proof (channel_change_spec r2 (pa L) c2 EnableReading (proj1 Ho2) Hc2 ltac:(by left)) as Hs. rewrite E3 in Hs.
  destruct Hs as [_ [(Hoth & _ & _ & Eal & _) _]]. pose proof (channel_change_fds _ _ _ _ E3) as Ek.
  exists r3. split.
  { apply (run_rops_3 r _ _ _ r1 r2 r3); [done| |exact E3]. simpl. by rewrite lookup_insert_eq. }
  apply (slink_acceptor cs f (Some a) _ r r3); try done.
  - intros x Hx. rewrite Hoth by done. simpl. by rewrite !lookup_insert_ne.
  - intros p _ Hp. rewrite Eal. simpl. set_solver.
  - intros d Hd _. rewrite Hc3 in Hd. injection Hd as <-. split; [exact Hf|]. intros p. apply Hno.
  - split; [done|]. split; [done|]. eexists. split; [exact Hc3|].
    assert (oa L ∈ Poller.alive r3 <-> released a = false) as Hal.
    { rewrite Eal, Hrel. change (Poller.alive r2) with ({[oa L]} ∪ Poller.alive r). split; [done|]. intros _. apply elem_of_union. left. by apply elem_of_singleton. }
    split_and!; try done; apply Hal.
  - apply (owned_update (fd_owner cs (Some a)) _ f _ OAccept S6).
    + by intros [].
    + intros _. split; [done|]. intros o _. apply Hno.
    + done.
Qed.

Lemma slink_unlisten cs f a r :
  slink cs f (Some a) r -> acceptChannel_ a <> None ->
  exists r', run_server_op L r SvUnlisten = Ok r' /\ slink cs f None r'.
Proof.
  intros S Hch. pose proof S as [S1 S2 S3 S4 S5 S6 S7 S9 S8].
  assert (is_Some (chans r !! pa L)) as [c Hc].
  { unfold acceptor_link in S7. destruct (listening_ a); destruct S7 as (_ & ? & S7); [destruct S7 as (c & ? & _); eauto|done]. }
  destruct (channel_change_open r (pa L) c DisableAll S1 Hc) as (r2 & E2 & Ho2).
  { exists c. split; [done|]. by right; right. }
  { intros d Hd. by right. }
  destruct (channel_disable_ok r (pa L) c (proj1 S1) Hc) as (r2' & E2' & _ & (Hoth & _ & _ & Eal & _) & c2 & Hc2 & He2 & _).
  rewrite E2 in E2'. injection E2' as <-. pose proof (channel_change_fds _ _ _ _ E2) as Ek2.
  destruct (do_rop_ok r2 (RRemove (pa L)) Ho2) as (r3 & E3 & Ho3); [by exists c2|done|].
  destruct (channel_remove_spec r2 (pa L) c2 (proj1 Ho2) Hc2 He2) as (r3' & E3' & _ & ((Hoth3 & _ & _ & Eal3 & _) & _) & c3 & Hc3 & Ha3).
  simpl in E3. rewrite E3 in E3'. injection E3' as <-. pose proof (channel_remove_fds _ _ _ E3) as Ek3.
  exists r3. split.
  { cbn [run_server_op cleanup_ops run_rops do_rop]. rewrite E2. cbn [mbind res_bind]. by rewrite E3. }
  apply (slink_acceptor cs f (Some a) _ r r3); try done.
  - intros x Hx. by rewrite Hoth3, Hoth.
  - intros p Hp Hin. by rewrite Eal3, Eal.
  - by rewrite Ek3, Ek2.
  - intros d Hd Hadd. congruence.
  - intros d Hd. congruence.
  - apply (owned_update (fd_owner cs (Some a)) (fun o => match o with OAccept => -1 | _ => fd_owner cs (Some a) o end) f f OAccept) in S6;
      [|by intros []|simpl; lia|done].
    apply (owned_update _ (fd_owner cs None) f f OIdle) in S6; [done|by intros []|simpl; lia|done].
Qed.

(** The acceptor is destroyed, its channel is still there. *)
Lemma slink_drop cs f a r :
  slink cs f (Some a) r ->
  exists r', run_server_op L r SvDropAcceptor = Ok r' /\ slink cs f (Some (expire_acceptor a)) r'.
Proof.
  intros S. pose proof S as [S1 S2 S3 S4 S5 S6 S7 S9 S8].
  destruct (do_rop_ok r (RDrop (oa L)) S1) as (r1 & E1 & Ho1); [done..|].
  exists r1. split; [done|]. injection E1 as <-.
  apply (slink_acceptor cs f (Some a) _ r); try done.
  - intros p Hp Hin. simpl. set_solver.
  - intros d Hd Hadd. unfold acceptor_link in S7. simpl in Hd.
    destruct (listening_ a); [|destruct S7 as (_ & _ & ?); congruence].
    destruct S7 as (Hge & _ & d' & Hd' & Hf & _). rewrite Hd in Hd'. injection Hd' as <-. rewrite Hf.
    split; [by apply (proj1 S6 OAccept)|]. intros p Ep. by apply (owned_apart _ _ OAccept (OConn p) S6).
  - unfold acceptor_link in *. simpl. destruct (listening_ a); [|done].
    destruct S7 as (? & ? & d & Hd & Hls). split_and!; try done. exists d. split; [done|].
    destruct Hls as (? & ? & ? & ? & ? & _ & ?). split_and!; try done. simpl. split; [|done]. set_solver.
Qed.

Lemma slink_no_acceptor cs f a r :
  slink cs f (Some a) r -> acceptChannel_ a = None -> slink cs f None r.
Proof.
  intros S Hch. pose proof S as [S1 S2 S3 S4 S5 S6 S7 S9 S8].
  assert (chans r !! pa L = None) as Hc.
  { unfold acceptor_link in S7. by destruct (listening_ a); destruct S7 as (_ & ? & S7). }
  apply (slink_acceptor cs f (Some a) _ r r); try done; [by intros d Hd; congruence..|].
  destruct S6 as [H1' H2']. split.
  - intros [q| |]; simpl; [apply (H1' (OConn q))|lia|lia].
  - intros [q| |] [q'| |]; simpl; try lia. apply (H2' (OConn q) (OConn q')).
Qed.

(** The reserve. *)
Definition with_idle (a : Acceptor) i : Acceptor := mkAcceptor (acceptSocket_ a) (acceptChannel_ a) (listening_ a) i (released a).

Lemma slink_idle cs f a r i :
  slink cs f (Some a) r -> (0 <= i -> i ∈ f /\ forall o, o <> OIdle -> fd_owner cs (Some a) o <> i) ->
  slink cs f (Some (with_idle a i)) r.
Proof.
  intros [S1 S2 S3 S4 S5 S6 S7 S9 S8] Hi. split; try done.
  apply (owned_update (fd_owner cs (Some a)) _ f _ OIdle S6); [by intros []|exact Hi|done].
Qed.

(** The channel of an acceptor that is gone. *)
Lemma slink_release cs f r :
  slink cs f None r -> is_Some (chans r !! pa L) ->
  exists r', do_rop r (RDelete (pa L)) = Ok r' /\ slink cs f None r' /\ chans r' !! pa L = None /\ unreferenced r' (pa L).
Proof.
  intros S [c Hc]. pose proof S as [S1 S2 S3 S4 S5 S6 S7 S9 S8]. pose proof (S7 c Hc) as Ha.
  destruct (do_rop_ok r (RDelete (pa L)) S1) as (r' & E & Ho'); [by exists c|done|].
  exists r'. split; [done|]. simpl in E. rewrite Hc in E. injection E as <-.
  pose proof (not_added_unreferenced r (pa L) c (proj1 S1) Hc Ha) as [Hu1 Hu2].
  split; [|split; [simpl; apply lookup_delete_eq|done]].
  apply (slink_acceptor cs f None _ r); try done.
  - intros x Hx. simpl. by rewrite lookup_delete_ne.
  - intros d. simpl. by rewrite lookup_delete_eq.
  - intros d. simpl. by rewrite lookup_delete_eq.
Qed.

(** *** The server's functions

    The server and the poller agree; what a function does to the poller runs,
    and they agree again. *)
Definition sslink sv r : Prop := slink (conns sv) (fds sv) (acceptor_ sv) r.

Definition runs sv sv' r : Prop :=
  exists os r', ops sv' = ops sv ++ os /\ run_server_ops L r os = Ok r' /\ sslink sv' r'.

Lemma runs_none sv sv' r :
  sslink sv r -> ops sv' = ops sv -> conns sv' = conns sv -> fds sv' = fds sv -> acceptor_ sv' = acceptor_ sv -> runs sv sv' r.
Proof. intros S Eo Ec Ef Ea. exists [], r. rewrite app_nil_r. split_and!; try done. unfold sslink. by rewrite Ec, Ef, Ea. Qed.

Lemma runs_trans sv1 sv2 sv3 r : runs sv1 sv2 r -> (forall r2, sslink sv2 r2 -> runs sv2 sv3 r2) -> runs sv1 sv3 r.
Proof.
  intros (os1 & r1 & E1 & R1 & S1) Hnext. destruct (Hnext r1 S1) as (os2 & r2 & E2 & R2 & S2).
  exists (os1 ++ os2), r2. rewrite run_server_ops_app, R1, E2, E1, app_assoc. by split_and!.
Qed.

(** From a server with the same history. *)
Lemma runs_from sv0 sv sv' r : ops sv0 = ops sv -> runs sv0 sv' r -> runs sv sv' r.
Proof. intros E (os & r' & E1 & ?). exists os, r'. by rewrite <- E. Qed.

Lemma run_server_op_one r o r' : run_server_op L r o = Ok r' -> run_server_ops L r [o] = Ok r'.
Proof. intros E. cbn [run_server_ops]. by rewrite E. Qed.

Lemma closeSocket_prims c : state_ c = kDisconnected -> addedToLoop_ (channel_ (closeSocket c)) = false ->
  prims c (closeSocket c) /\ socketFd_ (closeSocket c) < 0.
Proof.
  intros Hs Ha. assert (addedToLoop_ (channel_ c) = false) as Ha' by (revert Ha; unfold closeSocket; by destruct (0 <=? _)).
  split; [by apply rtc_once, p_close|]. unfold closeSocket. destruct (Z.leb_spec 0 (socketFd_ c)); simpl; lia.
Qed.

Lemma reap_runs sv p sv' r : sslink sv r -> reap sv p = Ok sv' -> runs sv sv' r.
Proof.
  unfold reap. intros S. destruct (conns sv !! p) as [[nm c]|] eqn:Hp; [|intros [= <-]; by apply runs_none].
  destruct (referenced sv p nm c); [intros [= <-]; by apply runs_none|].
  intros (c' & Ec & E)%bind_Ok_inv. destruct (addedToLoop_ (channel_ c')) eqn:Ha; [done|]. injection E as <-.
  unfold TcpConnection_delete in Ec. apply bind_Ok_inv in Ec as (u & Hu & Ec). apply assert_Ok_inv, bool_decide_eq_true in Hu.
  injection Ec as <-. destruct (closeSocket_prims c Hu Ha) as [Hpr Hlt].
  destruct (slink_conn _ _ _ r p nm c _ S Hp Hpr) as (r1 & R1 & S1).
  destruct (slink_free_conn _ _ _ r1 p nm (closeSocket c) S1 (lookup_insert_eq _ _ _) Hlt) as (r2 & R2 & S2).
  exists (conn_ops p c (closeSocket c) ++ [SvFreeConn p]), r2. split; [done|]. split.
  - rewrite run_server_ops_app, R1. by apply run_server_op_one.
  - unfold sslink. simpl. rewrite delete_insert_eq in S2. unfold conn_fds in S2.
    destruct (socketFd_ (closeSocket c) <? 0) eqn:E; [|by apply Z.ltb_ge in E; lia].
    rewrite andb_true_r in S2. unfold closed in *. by destruct (0 <=? socketFd_ c).
Qed.

Lemma removeConnection_runs sv nm sv' r : sslink sv r -> removeConnectionInLoop sv nm = Ok sv' -> runs sv sv' r.
Proof.
  unfold removeConnectionInLoop. intros S (sv2 & E2 & E)%bind_Ok_inv. apply bind_Ok_inv in E as (u & _ & E). injection E as <-.
  apply (runs_from (set_connections sv (delete nm (connections_ sv)))); [done|].
  destruct (connections_ sv !! nm) as [q|]; [by eapply reap_runs|]. injection E2 as <-. by apply runs_none.
Qed.

(** The connections once the poller has reported an event. *)
Definition reported_conns sv p ev : gmap Z (string * Conn B) :=
  alter (fun x : string * Conn B => (x.1, event_start x.2 ev)) p (conns sv).

Lemma reported_same sv p ev : match ev with EvPoll _ _ => False | _ => True end -> reported_conns sv p ev = conns sv.
Proof.
  intros Hev. apply map_eq. intros q. unfold reported_conns. rewrite lookup_alter. case_decide as E; [|done]. subst q.
  destruct (conns sv !! p) as [[nm c]|]; [|done]. simpl. by destruct ev.
Qed.

Lemma conn_run_runs sv p ev e sv' r :
  slink (reported_conns sv p ev) (fds sv) (acceptor_ sv) r -> conn_run sv p ev e = Ok sv' -> runs sv sv' r.
Proof.
  unfold conn_run. intros S ([nm c] & Hp & E)%bind_Ok_inv. apply deref_Ok_inv in Hp.
  apply bind_Ok_inv in E as (c' & Ec & E). cbv zeta in E. fold (conn_fds (fds sv) c c') in E.
  pose proof (run_event_start c ev e c' Ec) as Hpr.
  assert (reported_conns sv p ev !! p = Some (nm, event_start c ev)) as Hp' by (unfold reported_conns; by rewrite lookup_alter_eq, Hp).
  destruct (slink_conn _ _ _ r p nm _ c' S Hp' Hpr) as (r1 & R1 & S1).
  set (sv1 := log _ (conn_ops p c c')) in E.
  assert (runs sv sv1 r) as Hr1.
  { exists (conn_ops p c c'), r1. split; [done|].
    assert (conn_ops p (event_start c ev) c' = conn_ops p c c' /\ conn_fds (fds sv) (event_start c ev) c' = conn_fds (fds sv) c c') as [Eo Ef]
      by (by destruct ev).
    rewrite Eo in R1. split; [done|]. unfold sslink. simpl. rewrite Ef in S1.
    assert (<[p:=(nm, c')]> (reported_conns sv p ev) = <[p:=(nm, c')]> (conns sv)) as <-; [|done].
    apply map_eq. intros q. unfold reported_conns. rewrite !lookup_insert. case_decide; [done|]. by rewrite lookup_alter_ne. }
  destruct (_ && _).
  - eapply runs_trans; [exact Hr1|]. intros r2 S2. by eapply removeConnection_runs.
  - by injection E as <-.
Qed.

Lemma conn_event_runs sv p ev e sv' r :
  slink (reported_conns sv p ev) (fds sv) (acceptor_ sv) r -> conn_event sv p ev e = Ok sv' -> runs sv sv' r.
Proof.
  unfold conn_event. intros S (sv1 & E1 & E)%bind_Ok_inv. eapply runs_trans; [by eapply conn_run_runs|].
  intros r2 S2. by eapply reap_runs.
Qed.

(** *** New connections *)
Lemma newConnection_runs sv fd p e sv' r :
  sslink sv r -> conns sv !! p = None -> p <> oa L -> 0 <= fd -> fd ∈ fds sv ->
  (forall o, fd_owner (conns sv) (acceptor_ sv) o <> fd) -> newConnection sv fd p e = Ok sv' -> runs sv sv' r.
Proof.
  intros S Hp Hpo Hge Hf Hno. unfold newConnection. case_bool_decide; [|done]. cbv zeta.
  destruct (callbacks_ sv) as [[cc mc] wc]. set (nm := connName _ _). set (sv1 := set_nextId _ _).
  set (c := TcpConnection_new _ _ _ _ _ _ _). set (sv2 := log _ _). intros (sv3 & E3 & E)%bind_Ok_inv.
  destruct (slink_new _ _ _ r p nm fd defaultHighWaterMark cc mc wc false true S Hp Hpo Hge Hf Hno) as (r2 & R2 & S2). fold c in S2.
  assert (runs sv sv2 r) as Hr2 by (exists [SvNewConn p fd], r2; split; [done|split; [by apply run_server_op_one|done]]).
  eapply runs_trans; [exact Hr2|]. intros r2' S2'.
  eapply (runs_trans sv2 sv3).
  - destruct (connections_ sv1 !! nm); [by eapply reap_runs|]. injection E3 as <-. by apply runs_none.
  - intros r3 S3. eapply conn_event_runs; [|exact E]. by rewrite reported_same.
Qed.

(** A descriptor the kernel returns is no one's yet. *)
Lemma fresh_unowned cs f a r fd : slink cs f a r -> 0 <= fd -> fd ∉ f -> forall o, fd_owner cs a o <> fd.
Proof. intros S Hge Hf o E. apply Hf. rewrite <- E. apply S. lia. Qed.

Lemma runs_opened sv fd r : sslink sv r -> 0 <= fd -> fd ∉ fds sv -> fd ∉ ext -> runs sv (accepted_server sv fd) r.
Proof.
  intros S Hge Hf He. destruct (slink_opened _ _ _ r fd S) as (r1 & R1 & S1); [done|].
  exists [SvOpen fd], r1. unfold op_open in R1. rewrite (proj2 (Z.leb_le 0 fd) Hge) in R1. by split_and!.
Qed.

Lemma runs_closed sv fd r :
  sslink sv r -> 0 <= fd -> fd ∈ fds sv -> (forall o, fd_owner (conns sv) (acceptor_ sv) o <> fd) ->
  runs sv (log (set_conns sv (conns sv) (closed (fds sv) fd)) [SvClose fd]) r.
Proof.
  intros S Hge Hf Hno. destruct (slink_closed _ _ _ r fd S) as (r1 & R1 & S1); [done|].
  exists [SvClose fd], r1. unfold op_close in R1. rewrite (proj2 (Z.leb_le 0 fd) Hge) in R1. by split_and!.
Qed.

Lemma drop_one_runs sv a acc idle r :
  sslink sv r -> acceptor_ sv = Some a ->
  new_fd (closed (fds sv) (idleFd_ a)) acc -> new_fd (closed (fds sv) (idleFd_ a)) idle ->
  (forall fd, fd ∈ fd_answer acc ++ fd_answer idle -> fd ∉ ext) ->
  runs sv (drop_one sv a acc idle) r.
Proof.
  intros S Ha Hacc Hidle Hext. unfold sslink in S. rewrite Ha in S. unfold drop_one.
  set (f1 := closed (fds sv) (idleFd_ a)) in *. set (fd := match acc with inl fd => fd | inr _ => -1 end). set (i := openIdleFd idle).
  assert (0 <= fd -> (fd ∉ f1) /\ (fd ∉ ext)) as Hfd.
  { unfold fd. destruct acc as [x|]; [|lia]. intros _. split; [apply Hacc|]. apply Hext. by left. }
  assert (0 <= i -> (i ∉ f1) /\ (i ∉ ext)) as Hi.
  { unfold i. destruct idle as [x|]; [|simpl; lia]. intros _. split; [apply Hidle|]. apply Hext, elem_of_app. right. by left. }
  assert (idleFd_ a < 0 \/ 0 <= idleFd_ a /\ idleFd_ a ∈ fds sv /\ forall o, o <> OIdle -> fd_owner (conns sv) (Some a) o <> idleFd_ a) as Hown.
  { destruct (Z.lt_ge_cases (idleFd_ a) 0) as [|Hge]; [by left|]. right. pose proof (sl_owned _ _ _ _ _ _ S) as Ho.
    split_and!; [done|apply (proj1 Ho OIdle), Hge|]. intros o Hne E. by apply (owned_apart _ _ OIdle o Ho). }
  pose proof (slink_idle _ _ a r (-1) S ltac:(lia)) as S0. set (a0 := with_idle a (-1)) in *.
  assert (forall i' f' o, fd_owner (conns sv) (Some (with_idle a i')) o = if decide (o = OIdle) then i' else fd_owner (conns sv) (Some a) o) as Hfo
    by (by intros ? _ []).
  destruct (slink_closed _ _ _ r (idleFd_ a) S0) as (r1 & R1 & S1).
  { intros Hge. destruct Hown as [?|(_ & Hin & Hno)]; [lia|]. split; [done|]. intros o. unfold a0. rewrite (Hfo _ ∅).
    case_decide; [lia|auto]. }
  fold f1 in S1. destruct (slink_opened _ _ _ r1 fd S1 Hfd) as (r2 & R2 & S2).
  destruct (slink_closed _ _ _ r2 fd S2) as (r3 & R3 & S3).
  { intros Hge. split; [apply elem_opened; by right|]. eapply fresh_unowned; [exact S1|done|by apply Hfd]. }
  assert (closed (opened f1 fd) fd = f1) as Ef.
  { destruct (Z.lt_ge_cases fd 0); [by rewrite opened_neg, closed_neg|]. by apply closed_opened, Hfd. }
  rewrite Ef in *. destruct (slink_opened _ _ _ r3 i S3 Hi) as (r4 & R4 & S4).
  exists (op_close (idleFd_ a) ++ op_open fd ++ op_close fd ++ op_open i), r4. split; [done|]. split.
  - rewrite !run_server_ops_app, R1. cbn [mbind res_bind]. rewrite run_server_ops_app, R2. cbn [mbind res_bind].
    rewrite run_server_ops_app, R3. exact R4.
  - apply (slink_idle _ _ a0 r4 i S4). intros Hge. split; [apply elem_opened; by right|]. intros o _.
    eapply fresh_unowned; [exact S3|done|by apply Hi].
Qed.

Lemma handleAccept_runs sv ans acc idle sv' r :
  sslink sv r -> accept_ok sv ans acc idle ->
  (forall fd, fd ∈ answered (SvAccept ans acc idle) -> fd ∉ ext) -> oa L ∉ allocated (SvAccept ans acc idle) ->
  handleAccept sv ans acc idle = Ok sv' -> runs sv sv' r.
Proof.
  revert sv r. induction ans as [|an ans IH]; intros sv r S Hok Hext Hoa E; cbn [handleAccept accept_ok] in *.
  { injection E as <-. by apply runs_none. }
  assert (forall fd, fd ∈ answered (SvAccept ans acc idle) -> fd ∉ ext) as Hext'.
  { intros fd Hin. apply Hext. cbn [answered] in *. rewrite bind_cons, <- app_assoc. apply elem_of_app. by right. }
  apply not_elem_of_cons in Hoa as [Hp Hoa].
  destruct (an_fd an) as [fd|e] eqn:Ean; cbn [accept mbind res_bind] in E.
  - assert (fd ∉ ext) as Hfe by (apply Hext; cbn [answered]; rewrite bind_cons, Ean; by left).
    fold (accepted_server sv fd) in E. cbv zeta in E. apply bind_Ok_inv in E as (sv2 & E2 & E).
    change (token (accepted_server sv fd)) with (token sv) in E2. destruct (token sv).
    + destruct Hok as [(Hge & Hfd & Hnone & _) Hok].
      eapply runs_trans; [by apply runs_opened|]. intros r1 S1.
      eapply runs_trans; [|intros r2 S2; eapply IH; [exact S2|by apply Hok|done|done|exact E]].
      eapply newConnection_runs; [exact S1|done|congruence|done|apply elem_opened; by right| |exact E2].
      by apply (fresh_unowned (conns sv) (fds sv) (acceptor_ sv) r).
    + destruct Hok as (Hge & Hfd & Hok). injection E2 as <-.
      eapply runs_trans; [by apply runs_opened|]. intros r1 S1.
      eapply runs_trans; [apply (runs_closed (accepted_server sv fd)); [exact S1|done|apply elem_opened; by right|by apply (fresh_unowned (conns sv) (fds sv) (acceptor_ sv) r)]|].
      intros r2 S2. eapply IH; [exact S2| |done|done|exact E].
      change (conns (accepted_server sv fd)) with (conns sv).
      change (fds (accepted_server sv fd)) with (opened (fds sv) fd). by rewrite accepted_dropped.
  - destruct (accept_expected e); [|done]. cbn [mbind res_bind] in E.
    assert (runs sv sv r) as Hid by (by apply runs_none).
    destruct (e =? EAGAIN); [by injection E as <-|]. destruct (e =? EMFILE); [|by injection E as <-].
    destruct (acceptor_ sv) as [a|] eqn:Ha; injection E as <-; [|done]. destruct (Hok a eq_refl) as [Hacc Hidle].
    apply drop_one_runs; try done. intros fd Hin. apply Hext. cbn [answered]. apply elem_of_app. by right.
Qed.

(** *** Listening, and the end *)
Lemma Acceptor_listen_runs sv a sock bound lstn r :
  sslink sv r -> acceptor_ sv = Some a -> released a = false -> new_fd (fds sv) sock -> (forall fd, fd ∈ fd_answer sock -> fd ∉ ext) ->
  runs sv (Acceptor_listen sv a sock bound lstn).2 r.
Proof.
  intros S Ha Hrel Hnew Hext. unfold Acceptor_listen. destruct (listening_ a) eqn:Hl; [by apply runs_none|]. cbv zeta.
  destruct sock as [fd|e]; cbn [createNonblocking]; [|by apply runs_none].
  destruct Hnew as [Hge Hf]. rewrite (proj2 (Z.ltb_ge fd 0) Hge). specialize (Hext fd ltac:(by left)).
  assert (forall o, fd_owner (conns sv) (Some a) o <> fd) as Hno.
  { rewrite <- Ha. by apply (fresh_unowned (conns sv) (fds sv) (acceptor_ sv) r). }
  pose proof (runs_opened sv fd r S Hge Hf Hext) as (os1 & r1 & E1 & R1 & S1).
  apply app_inv_head in E1 as <-. unfold sslink in S1. cbn [accepted_server log set_conns set_sv conns fds acceptor_] in S1.
  rewrite Ha in S1.
  assert (runs sv (log (set_acceptor sv (Some a) (closed (opened (fds sv) fd) fd)) [SvOpen fd; SvClose fd]) r) as Hfail.
  { destruct (slink_closed _ _ _ r1 fd S1) as (r2 & R2 & S2); [intros _; split; [apply elem_opened; by right|done]|].
    unfold op_close in R2. rewrite (proj2 (Z.leb_le 0 fd) Hge) in R2.
    exists ([SvOpen fd] ++ [SvClose fd]), r2. split; [done|]. split; [by rewrite run_server_ops_app, R1|exact S2]. }
  destruct (sock_bind bound); [|exact Hfail]. destruct (sock_listen lstn); [|exact Hfail]. cbn [negb].
  set (ch := channel_set _ _).
  destruct (slink_listen _ _ a ch r1 fd S1 Hl Hrel Hge) as (r2 & R2 & S2); [apply elem_opened; by right|done|].
  exists ([SvOpen fd] ++ [SvListen fd]), r2. split; [done|].
  split; [rewrite run_server_ops_app, R1; by apply run_server_op_one|exact S2].
Qed.

Lemma start_runs b sv sock bound lstn r :
  sslink sv r -> srv_inv sv -> token sv = true -> new_fd (fds sv) sock -> (forall fd, fd ∈ fd_answer sock -> fd ∉ ext) ->
  runs sv (start b sv sock bound lstn).2 r.
Proof.
  intros S [I _] Ht Hnew Hext. destruct (acceptor_lives ∅ sv I (or_introl Ht)) as (a0 & Ha0 & Hrel).
  unfold start. case_bool_decide; cbn [negb]; [|by apply runs_none]. cbv zeta.
  destruct b; [|by apply runs_none]. cbn [snd]. change (acceptor_ (set_state sv kStarting)) with (acceptor_ sv). rewrite Ha0.
  apply (runs_from (set_state sv kStarting)); [done|]. by apply Acceptor_listen_runs.
Qed.

Lemma cleanupAcceptor_runs sv a r : sslink sv r -> acceptor_ sv = Some a -> runs sv (cleanupAcceptor sv a) r.
Proof.
  intros S Ha. unfold sslink in S. rewrite Ha in S. pose proof (sl_owned _ _ _ _ _ _ S) as Ho. unfold cleanupAcceptor.
  set (l0 := match acceptChannel_ a with Some _ => [SvUnlisten] | None => [] end).
  assert (exists r1, run_server_ops L r l0 = Ok r1 /\ slink (conns sv) (fds sv) None r1) as (r1 & R1 & S1).
  { unfold l0. destruct (acceptChannel_ a) eqn:Ech.
    - destruct (slink_unlisten _ _ a r S) as (r1 & R1 & S1); [congruence|]. exists r1. split; [by apply run_server_op_one|done].
    - exists r. split; [done|]. by apply (slink_no_acceptor _ _ a). }
  assert (forall o x, o = OAccept \/ o = OIdle -> fd_owner (conns sv) (Some a) o = x -> 0 <= x ->
    x ∈ fds sv /\ forall o', fd_owner (conns sv) None o' <> x) as Hown.
  { intros o x Hoa <- Hge. split; [by apply Ho|]. intros [q| |] E; simpl in E; [|lia|lia].
    apply (owned_apart _ _ o (OConn q) Ho); [by destruct Hoa as [-> | ->]|done|]. by rewrite <- E. }
  destruct (slink_closed _ _ _ r1 (acceptSocket_ a) S1) as (r2 & R2 & S2); [by apply (Hown OAccept); [left|]|].
  destruct (slink_closed _ _ _ r2 (idleFd_ a) S2) as (r3 & R3 & S3).
  { intros Hge. destruct (Hown OIdle (idleFd_ a)) as [Hin Hno]; [by right|done|done|]. split; [|done].
    apply elem_closed. split; [done|]. intros _ E. by apply (owned_apart _ _ OIdle OAccept Ho). }
  exists (l0 ++ op_close (acceptSocket_ a) ++ op_close (idleFd_ a)), r3. split; [done|]. split; [|exact S3].
  rewrite !run_server_ops_app, R1. cbn [mbind res_bind]. rewrite run_server_ops_app, R2. exact R3.
Qed.

Lemma Acceptor_delete_runs b sv a r : sslink sv r -> acceptor_ sv = Some a -> runs sv (Acceptor_delete b sv a) r.
Proof.
  intros S Ha. pose proof S as S0. unfold sslink in S0. rewrite Ha in S0.
  destruct (slink_drop _ _ a r S0) as (r1 & R1 & S1). pose proof (run_server_op_one _ _ _ R1) as R1'. destruct b.
  - unfold Acceptor_delete. cbv zeta. set (sv1 := set_acceptor sv (Some (expire_acceptor a)) (fds sv)).
    assert (runs sv (log sv1 [SvDropAcceptor]) r) as Hr1 by (exists [SvDropAcceptor], r1; by split_and!).
    eapply runs_trans; [exact Hr1|]. intros r2 S2.
    by apply (cleanupAcceptor_runs (log sv1 [SvDropAcceptor]) (expire_acceptor a)).
  - exists [SvDropAcceptor], r1. by split_and!.
Qed.

Lemma run_cleanup_runs sv r : sslink sv r -> runs sv (run_cleanup sv) r.
Proof.
  intros S. unfold run_cleanup. destruct (acceptor_ sv) as [a|] eqn:Ha; [|by apply runs_none].
  destruct (released a); [by apply cleanupAcceptor_runs|by apply runs_none].
Qed.

Lemma run_start_runs sv sock bound lstn r :
  sslink sv r -> srv_inv sv -> new_fd (fds sv) sock -> (forall fd, fd ∈ fd_answer sock -> fd ∉ ext) ->
  runs sv (run_start sv sock bound lstn) r.
Proof.
  intros S [I _] Hnew Hext. unfold run_start. destruct (starts sv) as [|n] eqn:Hn; [by apply runs_none|].
  destruct (acceptor_lives ∅ sv I) as (a & Ha & Hrel); [right; congruence|]. rewrite Ha. cbv zeta.
  apply (runs_from (set_starts sv n)); [done|].
  destruct (token _); [by apply Acceptor_listen_runs|]. destruct (Nat.eqb n 0); [by apply Acceptor_delete_runs|by apply runs_none].
Qed.

(** A connection changed where the poller does not look. *)
Lemma quiet_sslink sv p nm c c' r :
  sslink sv r -> conns sv !! p = Some (nm, c) -> prims c c' -> chan_ops c' = chan_ops c -> socketFd_ c' = socketFd_ c ->
  sslink (set_conns sv (<[p := (nm, c')]> (conns sv)) (fds sv)) r.
Proof.
  intros S Hp Hq Eo Ef. destruct (slink_conn _ _ _ r p nm c c' S Hp Hq) as (r' & R & S').
  unfold conn_ops in R. rewrite Eo, drop_all in R. injection R as <-. by rewrite conn_fds_same in S'.
Qed.

Lemma destroy_all_runs b ps sv envs sv' r : sslink sv r -> destroy_all b sv ps envs = Ok sv' -> runs sv sv' r.
Proof.
  revert sv r. induction ps as [|p ps IH]; intros sv r S E; cbn [destroy_all] in E; [injection E as <-; by apply runs_none|].
  apply bind_Ok_inv in E as ([nm c] & Hp & E). apply deref_Ok_inv in Hp. cbv zeta in E.
  apply bind_Ok_inv in E as (sv2 & E2 & E). eapply (runs_trans sv sv2); [|intros r2 S2; by eapply IH].
  destruct b.
  - eapply runs_from; [|eapply conn_event_runs; [|exact E2]]; [done|]. rewrite reported_same by done.
    apply (quiet_sslink sv p nm c); try done. by apply quiet.
  - injection E2 as <-. exists [], r. rewrite app_nil_r. split_and!; try done.
    apply (quiet_sslink sv p nm c); try done. by apply quiet.
Qed.

Lemma TcpServer_delete_runs b sv envs sv' r : sslink sv r -> TcpServer_delete b sv envs = Ok sv' -> runs sv sv' r.
Proof.
  intros S E. unfold TcpServer_delete in E. cbv zeta in E. set (sv2 := set_connections _ _) in E.
  apply (runs_from sv2); [done|]. assert (sslink sv2 r) as S2 by done.
  eapply runs_trans; [|intros r3 S3; by eapply destroy_all_runs].
  destruct (acceptor_ sv2) as [a|] eqn:Ha; [|by apply runs_none].
  destruct (Nat.eqb _ 0); [by apply Acceptor_delete_runs|by apply runs_none].
Qed.

(** *** An event *)
Lemma poll_conn_slink cs f a r p nm c revents :
  slink cs f a r -> cs !! p = Some (nm, c) -> wait_ok r [(revents, chan_of L p)] ->
  exists r', poll r (WEvents [(revents, chan_of L p)]) = Ok ([chan_of L p], r') /\
    slink (<[p := (nm, set_channel c (setRevents (channel_ c) revents))]> cs) f a r'.
Proof.
  intros S Hp Hw. pose proof (sl_conn _ _ _ _ _ _ S p nm c Hp) as Hl.
  destruct (poll_link (chan_of L p) p c r revents Hl Hw) as (_ & r' & E & Hl'). exists r'. split; [done|].
  destruct (poll_spec r _ (proj1 (sl_open _ _ _ _ _ _ S)) Hw) as (r1 & E1 & _ & Hoth & _ & _ & _ & _ & Eal).
  rewrite E in E1. injection E1 as <-.
  assert (effect (chan_of L p) p c (set_channel c (setRevents (channel_ c) revents)) r r') as He.
  { split; [|rewrite Eal; set_solver|left; split; [done|by erewrite poll_epoll]|done].
    intros q Hq. apply Hoth. cbn. by intros ->%list_elem_of_singleton. }
  pose proof (slink_effect cs f a r r' p nm c _ S Hp Hl' He) as S'. by rewrite conn_fds_same in S'.
Qed.

(** The acceptor's channel, when fields change that the registration does not
    depend on. *)
Lemma acceptor_listening cs f a r (c : Channel) :
  slink cs f a r -> chans r !! pa L = Some c -> addedToLoop_ c = true ->
  exists a0, a = Some a0 /\ listening_ a0 = true /\ listens L r c (acceptSocket_ a0) (released a0).
Proof.
  intros S Hc Hadd. pose proof (sl_acc _ _ _ _ _ _ S) as Ha. unfold acceptor_link in Ha.
  destruct a as [a|]; [|rewrite (Ha c Hc) in Hadd; done]. exists a.
  destruct (listening_ a); [|destruct Ha as (_ & _ & ?); congruence].
  destruct Ha as (_ & _ & d & Hd & Hls). rewrite Hc in Hd. by injection Hd as <-.
Qed.

Definition same_listener (c c' : Channel) : Prop :=
  fd_ c' = fd_ c /\ events_ c' = events_ c /\ addedToLoop_ c' = addedToLoop_ c /\ tied_ c' = tied_ c /\ tie_ c' = tie_ c /\
  (Channel.readCallback_ c', writeCallback_ c', closeCallback_ c', errorCallback_ c') =
  (Channel.readCallback_ c, writeCallback_ c, closeCallback_ c, errorCallback_ c).

Lemma slink_pa cs f a r r' (c c' : Channel) :
  slink cs f (Some a) r -> listening_ a = true -> fds_open r' -> chans r !! pa L = Some c -> chans r' !! pa L = Some c' ->
  same_listener c c' -> (forall x, x <> pa L -> chans r' !! x = chans r !! x) ->
  Poller.alive r' = Poller.alive r -> kfds (epoll r') = kfds (epoll r) -> slink cs f (Some a) r'.
Proof.
  intros S Hl Ho Hc Hc' (Ef & Ee & Ea & Et & Eti & Ecb) Hoth Hal Hk. pose proof (sl_acc _ _ _ _ _ _ S) as Hacc.
  pose proof (sl_owned _ _ _ _ _ _ S) as Hown. unfold acceptor_link in Hacc. rewrite Hl in Hacc.
  destruct Hacc as (Hge & Hn & d & Hd & Hls). rewrite Hc in Hd. injection Hd as <-. pose proof Hls as (Hfd & _).
  apply (slink_acceptor cs f (Some a) (Some a) r r'); try done.
  - intros p _. by rewrite Hal.
  - intros d Hd _. rewrite Hc' in Hd. injection Hd as <-. rewrite Ef, Hfd.
    split; [by apply (proj1 Hown OAccept)|]. intros p Ep. by apply (owned_apart _ _ OAccept (OConn p) Hown).
  - unfold acceptor_link. rewrite Hl. split; [done|]. split; [done|]. exists c'. split; [done|].
    unfold listens. by rewrite Ef, Ee, Ea, Et, Eti, Ecb, Hal.
Qed.

Lemma poll_acceptor_slink cs f a r revents :
  slink cs f a r -> wait_ok r [(revents, pa L)] ->
  exists r' a0 ch, poll r (WEvents [(revents, pa L)]) = Ok ([pa L], r') /\ slink cs f a r' /\
    a = Some a0 /\ listening_ a0 = true /\ chans r' !! pa L = Some ch /\ revents_ ch = revents.
Proof.
  intros S Hw. pose proof (sl_open _ _ _ _ _ _ S) as [I Ho].
  pose proof (wait_live r _ I Hw) as [(c & Hc & Hadd & _) _]%Forall_cons. simpl in Hc.
  destruct (acceptor_listening cs f a r c S Hc Hadd) as (a0 & -> & Hl & _).
  destruct (poll_spec r _ I Hw) as (r' & E & I' & Hoth & Hev & _ & _ & _ & Eal). cbn [fmap list_fmap snd] in *.
  pose proof (poll_epoll _ _ _ _ E) as Ek. destruct (Hev revents (pa L)) as (c0 & Hc0 & Hc' & _); [by left|].
  rewrite Hc in Hc0. injection Hc0 as <-.
  assert (forall x, x <> pa L -> chans r' !! x = chans r !! x) as Hx.
  { intros x Hne. apply Hoth. by intros ->%list_elem_of_singleton. }
  exists r', a0, (setRevents c revents). split_and!; try done.
  apply (slink_pa cs f a0 r r' c (setRevents c revents)); try done; [|by rewrite Ek].
  split; [done|]. rewrite Ek. intros x d Hd Hda. destruct (decide (x = pa L)) as [-> |Hne].
  - rewrite Hc' in Hd. injection Hd as <-. by apply (Ho (pa L) c).
  - rewrite Hx in Hd by done. by apply (Ho x).
Qed.

(** *** [Channel::handleEvent] of the acceptor's channel *)
Lemma lift_server_runs (g : Server B -> res (Server B)) sv r sv' :
  g sv = Ok sv' -> runs sv sv' r -> exists r', lift_server L g (mkSite sv r) = Ok (mkSite sv' r') /\ sslink sv' r'.
Proof.
  intros E (os & r' & Eo & R & S). exists r'. split; [|done]. unfold lift_server. cbn [server site]. rewrite E.
  cbn [mbind res_bind]. by rewrite Eo, drop_app_length, R.
Qed.

Lemma acceptor_skips ans acc idle (w : Site B K) (c : Channel) k fd gone :
  chans (site w) !! pa L = Some c -> listens L (site w) c fd gone -> k <> CbRead ->
  try_callback (accept_callback L ans acc idle) (Ok w) (pa L) k = Ok w.
Proof.
  intros Hc (_ & _ & _ & _ & _ & _ & [= _ E2 E3 E4]) Hk. unfold try_callback. cbn [mbind res_bind get site_part]. rewrite Hc.
  cbn [deref mbind res_bind]. assert (selected c k = false) as ->; [|done].
  destruct k; simpl; rewrite ?E2, ?E3, ?E4, ?andb_false_r; done.
Qed.

(** The tie is gone: nothing is called. *)
Lemma dispatch_dead run (w : Site B K) (c : Channel) fd :
  chans (site w) !! pa L = Some c -> listens L (site w) c fd true -> handle_active run w [pa L] = Ok w.
Proof.
  intros Hc (_ & _ & _ & Ht & Hti & Hal & _). cbn [handle_active]. unfold handleEvent. cbn [get site_part]. rewrite Hc.
  cbn [deref mbind res_bind]. rewrite Ht. unfold tie_lock. rewrite Hti. rewrite bool_decide_eq_false_2; [done|].
  intros Hin. by apply Hal in Hin.
Qed.

(** Otherwise [Acceptor::handleRead] is, once. *)
Lemma dispatch_accept sv r a (c : Channel) ans acc idle :
  sslink sv r -> acceptor_ sv = Some a -> listening_ a = true -> released a = false ->
  chans r !! pa L = Some c -> revents_ c = EPOLLIN ->
  (forall sv' r0, handleAccept sv ans acc idle = Ok sv' -> sslink sv r0 -> runs sv sv' r0) ->
  (forall sv', handleAccept sv ans acc idle = Ok sv' -> exists a', acceptor_ sv' = Some a' /\ listening_ a' = true) ->
  match handleAccept sv ans acc idle with
  | Ok sv' => exists r', handle_active (accept_callback L ans acc idle) (mkSite sv r) [pa L] = Ok (mkSite sv' r') /\ sslink sv' r'
  | Fault fl => handle_active (accept_callback L ans acc idle) (mkSite sv r) [pa L] = Fault fl
  end.
Proof.
  intros S Ha Hl Hrel Hc Hrev Hruns Hstill. set (run := accept_callback L ans acc idle).
  unfold sslink in S. rewrite Ha in S.
  assert (exists c1 : Channel, chans r !! pa L = Some c1 /\ listens L r c1 (acceptSocket_ a) (released a)) as (c1 & Hc1 & Hls).
  { pose proof (sl_acc _ _ _ _ _ _ S) as Hacc. unfold acceptor_link in Hacc. rewrite Hl in Hacc. by destruct Hacc as (_ & _ & ?). }
  rewrite Hc in Hc1. injection Hc1 as <-. pose proof Hls as (Hf & He & Hadd & Ht & Hti & Hal & Hcb).
  set (r1 := set_chan r (pa L) (set_handling c true)).
  assert (chans r1 !! pa L = Some (set_handling c true)) as Hc1 by (simpl; apply lookup_insert_eq).
  assert (slink (conns sv) (fds sv) (Some a) r1) as S1.
  { apply (slink_pa _ _ a r r1 c (set_handling c true)); try done; [by apply fds_open_fields with c; [apply S|..]|].
    intros x Hx. simpl. by rewrite lookup_insert_ne. }
  set (r2 := log_cbk r1 (pa L) CbRead).
  assert (sslink sv r2) as S2.
  { unfold sslink. rewrite Ha. apply (slink_pa _ _ a r1 r2 (set_handling c true) (set_handling c true)); try done.
    apply (fds_open_same r1 r2); try done; [apply (sl_open _ _ _ _ _ _ S1)|]. apply (ri_size _ (proj1 (sl_open _ _ _ _ _ _ S1))). }
  assert (listens L r1 (set_handling c true) (acceptSocket_ a) (released a)) as Hls1 by done.
  assert (try_callback run (Ok (mkSite sv r1)) (pa L) CbRead = run (mkSite sv r2) (pa L) CbRead) as Ecb.
  { unfold try_callback. cbn [mbind res_bind get site_part site]. rewrite Hc1. cbn [deref mbind res_bind].
    assert (selected (set_handling c true) CbRead = true) as ->; [|done].
    simpl. rewrite Hrev. by injection Hcb as ->. }
  assert (foldl (fun rw k => try_callback run rw (pa L) k) (Ok (mkSite sv r1)) all_cbks =
    try_callback run (run (mkSite sv r2) (pa L) CbRead) (pa L) CbWrite) as Efold.
  { unfold all_cbks. cbn [foldl].
    pose proof (fun k => acceptor_skips ans acc idle (mkSite sv r1) (set_handling c true) k _ _ Hc1 Hls1) as Hskip. fold run in Hskip.
    by rewrite (Hskip CbClose), (Hskip CbError), Ecb. }
  assert (handle_active run (mkSite sv r) [pa L] =
    (w1 ← try_callback run (run (mkSite sv r2) (pa L) CbRead) (pa L) CbWrite;
     c2 ← deref (chans (site w1) !! pa L);
     Ok (mkSite (server w1) (set_chan (site w1) (pa L) (set_handling c2 false))))) as ->.
  { cbn [handle_active]. unfold handleEvent. cbn [get site_part site]. rewrite Hc. cbn [deref mbind res_bind]. rewrite Ht.
    assert (tie_lock r c = true) as -> by (unfold tie_lock; rewrite Hti; apply bool_decide_eq_true; by apply Hal).
    unfold handleEventWithGuard. cbn [get site_part site]. rewrite Hc. cbn [deref mbind res_bind].
    change (modify _ (mkSite sv r)) with (mkSite sv r1). rewrite Efold.
    destruct (try_callback run _ (pa L) CbWrite) as [w1|]; [|done]. cbn [mbind res_bind].
    by destruct (chans (site w1) !! pa L). }
  assert (run (mkSite sv r2) (pa L) CbRead = lift_server L (fun sv => handleAccept sv ans acc idle) (mkSite sv r2)) as Erun by done.
  rewrite Erun. destruct (handleAccept sv ans acc idle) as [sv'|fl] eqn:E.
  - destruct (lift_server_runs (fun sv => handleAccept sv ans acc idle) sv r2 sv' E (Hruns _ r2 eq_refl S2)) as (r3 & -> & S3).
    destruct (Hstill _ eq_refl) as (a' & Ha' & Hl'). unfold sslink in S3. rewrite Ha' in S3.
    assert (exists c2 : Channel, chans r3 !! pa L = Some c2 /\ listens L r3 c2 (acceptSocket_ a') (released a')) as (c2 & Hc2 & Hls2).
    { pose proof (sl_acc _ _ _ _ _ _ S3) as Hacc. unfold acceptor_link in Hacc. rewrite Hl' in Hacc. by destruct Hacc as (_ & _ & ?). }
    pose proof (acceptor_skips ans acc idle (mkSite sv' r3) c2 CbWrite _ _ Hc2 Hls2 ltac:(done)) as Hskip. fold run in Hskip. rewrite Hskip.
    cbn [mbind res_bind site server]. rewrite Hc2. cbn [deref mbind res_bind]. eexists. split; [done|].
    unfold sslink. rewrite Ha'. apply (slink_pa _ _ a' r3 _ c2 (set_handling c2 false)); try done.
    + by apply fds_open_fields with c2; [apply S3|..].
    + simpl. apply lookup_insert_eq.
    + intros x Hx. simpl. by rewrite lookup_insert_ne.
  - unfold lift_server. cbn [server]. rewrite E. done.
Qed.
End follow.

(** ** Histories *)
Section history.
Context {B K : Type} `{ByteQueue B} `{KernelLaws K} (L : Layout).
Implicit Types (w : Site B K) (sv : Server B) (r : Reactor K) (ext : gset Z).

#[local] Abbreviation slink ext sv r := (server_link L ext (conns sv) (fds sv) (acceptor_ sv) r).

Lemma fresh_ext ext w se fd :
  slink ext (server w) (site w) -> sstep_ok L w (WServer se) -> fd ∈ answered se -> fd ∉ ext.
Proof.
  intros S (_ & Hf & _) Hin He. pose proof (sl_kfds _ _ _ _ _ _ S) as Hk.
  pose proof (Hf fd Hin ltac:(rewrite Hk; set_solver)) as Hfd. pose proof (sl_ext _ _ _ _ _ _ S). set_solver.
Qed.

Lemma lift_event ext sv r se :
  (forall sv', run_sevent sv se = Ok sv' -> runs L ext sv sv' r) ->
  match run_sevent sv se with
  | Ok sv' => exists r', lift_server L (fun sv => run_sevent sv se) (mkSite sv r) = Ok (mkSite sv' r') /\ slink ext sv' r'
  | Fault f => lift_server L (fun sv => run_sevent sv se) (mkSite sv r) = Fault f
  end.
Proof.
  intros Hr. destruct (run_sevent sv se) as [sv'|f] eqn:E.
  - by apply (lift_server_runs L ext (fun sv => run_sevent sv se) sv r sv' E), Hr.
  - unfold lift_server. cbn [server]. by rewrite E.
Qed.

(** Events that do not come from the poller. *)
Definition polled (se : sevent) : Prop :=
  match se with SvAccept _ _ _ | TcpServer.SvConn _ (EvPoll _ _) _ => True | _ => False end.

Lemma unpolled_runs ext sv r se sv' :
  slink ext sv r -> srv_inv sv -> sevent_ok sv se -> (forall fd, fd ∈ answered se -> fd ∉ ext) -> ~ polled se ->
  run_sevent sv se = Ok sv' -> runs L ext sv sv' r.
Proof.
  intros S I Hok Hext Hp E. destruct se as [b sock bd ls|sock bd ls|ans acc idle|p ev e|p|p|b envs|]; cbn [run_sevent sevent_ok] in *.
  - injection E as <-. by apply start_runs; [| |apply Hok..|].
  - injection E as <-. by apply run_start_runs.
  - by destruct Hp.
  - eapply conn_event_runs; [|exact E]. rewrite reported_same; [done|].
    destruct ev; try done.
  - injection E as <-. by apply runs_none.
  - by apply (runs_from L ext (set_held sv (held sv ∖ {[p]}))); [|eapply reap_runs].
  - by eapply TcpServer_delete_runs.
  - injection E as <-. by apply run_cleanup_runs.
Qed.

Lemma run_server_event_slink ext w se :
  slink ext (server w) (site w) -> srv_inv (server w) -> name_ok (name_ (server w)) -> sstep_ok L w (WServer se) ->
  match run_sevent (server w) se with
  | Ok sv' => exists r', run_server_event L w se = Ok (mkSite sv' r') /\ slink ext sv' r'
  | Fault f => run_server_event L w se = Fault f
  end.
Proof.
  intros S I Hn Hst. pose proof (fun fd => fresh_ext ext w se fd S Hst) as Hext. destruct Hst as (Hok & _ & Hoa & Hw).
  destruct w as [sv r]. cbn [server site] in *.
  assert (~ polled se -> match run_sevent sv se with
    | Ok sv' => exists r', lift_server L (fun sv => run_sevent sv se) (mkSite sv r) = Ok (mkSite sv' r') /\ slink ext sv' r'
    | Fault f => lift_server L (fun sv => run_sevent sv se) (mkSite sv r) = Fault f end) as Hun.
  { intros Hp. apply lift_event. intros sv' E. by apply (unpolled_runs ext sv r se). }
  destruct se as [b sock bd ls|sock bd ls|ans acc idle|p ev e|p|p|b envs|]; try (apply Hun; by intros []).
  - cbn [run_server_event run_sevent site server]. destruct (poll_acceptor_slink L ext _ _ _ r EPOLLIN S Hw)
      as (r1 & a & c & E1 & S1 & Ha & Hl & Hc & Hrev). rewrite E1. cbn [mbind res_bind].
    unfold live_acceptor. rewrite Ha. destruct (released a) eqn:Hrel; cbn [negb].
    + exists r1. split; [|done].
      assert (exists c1 : Channel, chans r1 !! pa L = Some c1 /\ listens L r1 c1 (acceptSocket_ a) (released a)) as (c1 & Hc1 & Hls).
      { pose proof (sl_acc _ _ _ _ _ _ S1) as Hacc. rewrite Ha in Hacc. unfold acceptor_link in Hacc. rewrite Hl in Hacc.
        by destruct Hacc as (_ & _ & ?). }
      rewrite Hrel in Hls. by apply (dispatch_dead L _ (mkSite sv r1) c1 (acceptSocket_ a)).
    + apply (dispatch_accept L ext sv r1 a c); try done.
      * intros sv' r0 E S0. by eapply handleAccept_runs.
      * intros sv' E. pose proof (handleAccept_spec sv ans acc idle I Hn Hok) as Hsp. rewrite E in Hsp.
        destruct Hsp as (_ & _ & _ & Hstill). destruct (Hstill a Ha) as (a' & ? & ?). exists a'. split; congruence.
  - destruct ev as [|revents readv|i|acts|]; try (apply Hun; by intros []). cbn [run_server_event site server].
    destruct Hok as (nm & c & Hp & _). destruct (poll_conn_slink L ext _ _ _ r p nm c revents S Hp Hw) as (r1 & E1 & S1).
    rewrite E1. cbn [mbind res_bind]. apply lift_event. intros sv' E. eapply conn_event_runs; [|exact E].
    assert (reported_conns sv p (EvPoll revents readv) =
      <[p := (nm, set_channel c (setRevents (channel_ c) revents))]> (conns sv)) as ->; [|done].
    apply map_eq. intros q. unfold reported_conns. rewrite lookup_alter, lookup_insert. case_decide as E'; [subst q|done].
    by rewrite Hp.
Qed.

(** The rest of the program. *)
Lemma other_slink ext w o :
  slink ext (server w) (site w) -> sstep_ok L w (WOther o) ->
  exists r', do_rop (site w) o = Ok r' /\ slink ext (server w) r'.
Proof.
  destruct w as [sv r]. cbn [server site sstep_ok]. intros S (Hpre & Hop & Hon & Hpa & Hdrop & Htie & Hfree).
  pose proof S as [S1 S2 S3 S4 S5 S6 S7 S9 S8]. pose proof S1 as [I _].
  destruct (do_rop_ok r o S1 Hpre Hop) as (r' & E & Ho'). exists r'. split; [done|].
  assert (kfds (epoll r') = kfds (epoll r)) as Ek.
  { by destruct (do_rop_frame r o r' (pa L) I Hpre E Hpa). }
  split; try done.
  - intros p nm c Hp. destruct (other_link (chan_of L p) p (mkHosted c r) o) as (r2 & E2 & Hl); [by apply (S2 p nm c)| |].
    + cbn [hstep_ok conn reactor]. split_and!; try done.
      * intros ->. destruct (Hdrop p eq_refl). congruence.
      * intros q ch d -> Hd Hge Ef. apply (Hfree q ch d eq_refl Hd). rewrite Ef.
        rewrite <- (owner_conn (conns sv) (acceptor_ sv) p nm c Hp) in *. by apply S6.
    + cbn [reactor conn] in *. rewrite E in E2. by injection E2 as <-.
  - intros p Hp. destruct (do_rop_frame r o r' (chan_of L p) I Hpre E (Hon p)) as [-> _]. by apply S3.
  - by rewrite Ek.
  - apply (acceptor_kept L _ r); [done|by destruct (do_rop_frame r o r' (pa L) I Hpre E Hpa)|].
    rewrite (do_rop_alive r o r' I Hpre E). destruct o as [| |q x| | |x]; try done.
    + assert (x <> oa L) by (intros ->; by apply (Htie q)). set_solver.
    + destruct (Hdrop x eq_refl). set_solver.
  - intros x d Hd Ha Hf. destruct (do_rop_added r o r' x d I Hpre E Hd Ha) as (c & Hc & Ef & [?|[ch ->]]).
    + apply (S8 x c); [done|done|by rewrite Ef].
    + destruct (Hfree x ch c eq_refl Hc). by rewrite Ef.
Qed.

Lemma run_sstep_slink ext w st :
  slink ext (server w) (site w) -> srv_inv (server w) -> name_ok (name_ (server w)) -> sstep_ok L w st ->
  match run_sstep L w st with
  | Ok w' => run_sevents (server w) (server_events [st]) = Ok (server w') /\
      (exists ext', slink ext' (server w') (site w')) /\ srv_inv (server w') /\ name_ (server w') = name_ (server w)
  | Fault f => f = StdAbort /\ exists se, st = WServer se /\ bad_accept se
  end.
Proof.
  intros S I Hn Hok. destruct st as [se| |o|fd|fd]; cbn [run_sstep server_events omap list_omap run_sevents].
  - pose proof (run_sevent_spec _ se I Hn (proj1 Hok)) as Hs. pose proof (run_server_event_slink ext w se S I Hn Hok) as Hev.
    destruct (run_sevent (server w) se) as [sv'|f] eqn:E.
    + destruct Hs as [I' Hn']. destruct Hev as (r' & -> & S'). cbn [server site mbind res_bind]. split_and!; eauto.
    + rewrite Hev. destruct Hs as [-> Hb]. split; [done|]. by exists se.
  - destruct Hok as [Ha Hc]. rewrite Ha in S. destruct (slink_release L ext _ _ _ S Hc) as (r' & -> & S' & _).
    cbn [mbind res_bind server site]. rewrite Ha. split_and!; eauto.
  - destruct (other_slink ext w o S Hok) as (r' & -> & S'). cbn [mbind res_bind server site]. split_and!; eauto.
  - cbn [server site sstep_ok] in *. split_and!; try done. exists ({[fd]} ∪ ext). pose proof S as [S1 _ _ S4 S5 S6 _ _ _].
    apply (slink_chans L ext _ _ (fds (server w)) _ _ (site w)); try done; simpl.
    + by apply fds_open_sys_open.
    + rewrite open_fds, S4. set_solver.
    + rewrite S4 in Hok. set_solver.
  - cbn [server site sstep_ok] in *. destruct Hok as [Hf Hslot]. split_and!; try done. exists (ext ∖ {[fd]}).
    pose proof S as [S1 _ _ S4 S5 S6 _ _ _].
    apply (slink_chans L ext _ _ (fds (server w)) _ _ (site w)); try done; simpl.
    + by apply fds_open_sys_close.
    + rewrite close_fds, S4. set_solver.
    + set_solver.
Qed.

Lemma run_sevents_app sv l1 l2 : run_sevents sv (l1 ++ l2) = (sv1 ← run_sevents sv l1; run_sevents sv1 l2).
Proof.
  revert sv. induction l1 as [|se l IH]; intros sv; cbn [app run_sevents]; [done|].
  destruct (run_sevent sv se); cbn [mbind res_bind]; [apply IH|done].
Qed.

Lemma server_events_cons st sts : server_events (st :: sts) = server_events [st] ++ server_events sts.
Proof. by destruct st. Qed.

Lemma run_ssteps_slink ext w sts :
  slink ext (server w) (site w) -> srv_inv (server w) -> name_ok (name_ (server w)) -> ssteps_ok L w sts ->
  match run_ssteps L w sts with
  | Ok w' => run_sevents (server w) (server_events sts) = Ok (server w') /\
      (exists ext', slink ext' (server w') (site w')) /\ srv_inv (server w')
  | Fault f => f = StdAbort /\ exists se, WServer se ∈ sts /\ bad_accept se
  end.
Proof.
  revert ext w. induction sts as [|st sts IH]; intros ext w S I Hn Hok; cbn [run_ssteps]; [by split_and!; eauto|].
  destruct Hok as [Hst Hok]. pose proof (run_sstep_slink ext w st S I Hn Hst) as H1'.
  destruct (run_sstep L w st) as [w1|f] eqn:E; cbn [mbind res_bind].
  - destruct H1' as (E1 & [ext1 S1] & I1 & Hn1). specialize (IH ext1 w1 S1 I1 ltac:(by rewrite Hn1) (Hok w1 eq_refl)).
    rewrite server_events_cons, run_sevents_app, E1. cbn [mbind res_bind].
    destruct (run_ssteps L w1 sts); [done|]. destruct IH as (? & se & ? & ?). split; [done|]. exists se. split; [by right|done].
  - destruct H1' as (? & se & -> & ?). split; [done|]. exists se. split; [by left|done].
Qed.

Lemma site_new_slink r nm cbs idle :
  fds_open r -> (forall p, chans r !! chan_of L p = None) -> chans r !! pa L = None -> new_fd (kfds (epoll r)) idle ->
  exists r', site_new L r nm cbs idle = Ok (mkSite (TcpServer_new (B := B) nm cbs idle) r') /\
    slink (kfds (epoll r)) (TcpServer_new (B := B) nm cbs idle) r'.
Proof.
  intros Ho Hc Hpa Hidle. set (ext := kfds (epoll r)).
  assert (server_link L ext (∅ : gmap Z (string * Conn B)) ∅ None r) as S0.
  { split; try done.
    - by rewrite (left_id_L ∅ (∪)).
    - split; [intros [q| |]|intros [q| |]]; simpl; rewrite ?lookup_empty; lia.
    - intros d Hd. congruence. }
  set (a := Acceptor_new idle). set (i := openIdleFd idle).
  assert (0 <= i -> (i ∉ (∅ : gset Z)) /\ (i ∉ ext)) as Hi.
  { intros Hge. split; [set_solver|]. unfold i in *. destruct idle; simpl in *; [apply Hidle|lia]. }
  destruct (slink_opened L ext _ _ _ r i S0 Hi) as (r1 & R1 & S1). exists r1.
  split; [unfold site_new; simpl; fold i; by rewrite R1|].
  pose proof (fresh_unowned L ext _ _ _ r i S0) as Hno.
  apply (slink_acceptor L ext _ _ None _ r1 r1); try done.
  - apply S1.
  - intros d Hd. pose proof (sl_acc _ _ _ _ _ _ S1 d Hd). congruence.
  - split; [done|]. split; [done|]. unfold op_open in R1. destruct (0 <=? i); injection R1 as <-; done.
  - pose proof (sl_owned _ _ _ _ _ _ S1) as Hown.
    apply (owned_update (fd_owner ∅ None) _ (opened ∅ i) _ OIdle Hown); [by intros []| |done].
    simpl. intros Hge. split; [apply elem_opened; by right|]. intros [q| |] _; simpl; try lia. rewrite lookup_empty. lia.
Qed.

(** *** What the kernel watches *)
Definition accepts (a : option Acceptor) fd : Prop := exists a0, a = Some a0 /\ acceptSocket_ a0 = fd /\ 0 <= fd.

Lemma listening_watched ext sv r a :
  slink ext sv r -> srv_inv sv -> acceptor_ sv = Some a -> 0 <= acceptSocket_ a ->
  interest (epoll r) !! acceptSocket_ a = Some (kReadEvent, pa L) /\
  exists c, chans r !! pa L = Some c /\ listens L r c (acceptSocket_ a) (released a).
Proof.
  intros S [I _] Ha Hge. pose proof (sl_acc _ _ _ _ _ _ S) as Hacc. rewrite Ha in Hacc. unfold acceptor_link in Hacc.
  rewrite (b_socket _ _ I a Ha), (proj2 (Z.leb_le 0 _) Hge) in Hacc. destruct Hacc as (_ & _ & c & Hc & Hl).
  split; [|by exists c]. destruct Hl as (Hf & He & Hadd & _). rewrite <- Hf, <- He.
  destruct (ri_chan _ (proj1 (sl_open _ _ _ _ _ _ S)) _ _ Hc) as [_ [(_ & ? & _)|[(_ & _ & _ & _ & ?)|(_ & _ & ? & _)]]]; [congruence|done|].
  by rewrite He in *.
Qed.

Lemma open_watched ext sv r p n c :
  slink ext sv r -> srv_inv sv -> conns sv !! p = Some (n, c) -> is_open c = true ->
  interest (epoll r) !! socketFd_ c = Some (wanted c, chan_of L p).
Proof.
  intros S [I _] Hp Ho. destruct (b_conn _ _ I p n c Hp) as [Ic _].
  pose proof (watched (chan_of L p) p (mkHosted c r) Ic (sl_conn _ _ _ _ _ _ S p n c Hp)) as Hw. cbn [conn reactor] in Hw.
  rewrite Ho in Hw. apply Hw.
Qed.

Lemma watched_owner ext sv r fd e x :
  slink ext sv r -> srv_inv sv -> interest (epoll r) !! fd = Some (e, x) -> fd ∈ fds sv ->
  x = pa L /\ accepts (acceptor_ sv) fd \/
  exists p n c, x = chan_of L p /\ conns sv !! p = Some (n, c) /\ is_open c = true /\ fd = socketFd_ c.
Proof.
  intros S [I _] Hi Hin. pose proof (proj1 (sl_open _ _ _ _ _ _ S)) as Ir.
  destruct (ri_map _ Ir _ _ (ri_int _ Ir _ _ _ Hi)) as (d & Hd & <- & Hadd).
  destruct (sl_others _ _ _ _ _ _ S x d Hd Hadd Hin) as [-> |[p ->]]; [left|right].
  - split; [done|]. pose proof (sl_acc _ _ _ _ _ _ S) as Ha. unfold acceptor_link in Ha.
    destruct (acceptor_ sv) as [a|]; [|specialize (Ha d Hd); congruence].
    destruct (listening_ a); [|destruct Ha as (_ & _ & ?); congruence].
    destruct Ha as (Hge & _ & d' & Hd' & Hf & _). rewrite Hd in Hd'. injection Hd' as <-. exists a. rewrite Hf. by split_and!.
  - destruct (conns sv !! p) as [[n c]|] eqn:Hp; [|pose proof (sl_free _ _ _ _ _ _ S p Hp); congruence].
    exists p, n, c. pose proof (sl_conn _ _ _ _ _ _ S p n c Hp) as Hl. destruct (b_conn _ _ I p n c Hp) as [Ic _].
    destruct (link_added L p c r d Hl Hd Hadd) as [_ Hf]. split_and!; try done.
    pose proof (watched (chan_of L p) p (mkHosted c r) Ic Hl) as Hw. cbn [conn reactor] in Hw.
    destruct (is_open c); [done|]. by apply Hw in Hi.
Qed.

Lemma gone_unreferenced ext sv r p :
  slink ext sv r -> conns sv !! p = None -> chans r !! chan_of L p = None /\ unreferenced r (chan_of L p).
Proof.
  intros S Hp. pose proof (sl_free _ _ _ _ _ _ S p Hp) as Hc. split; [done|].
  pose proof (proj1 (sl_open _ _ _ _ _ _ S)) as Ir.
  assert (forall fd, channels_ r !! fd <> Some (chan_of L p)) as Hno.
  { intros fd Hm. destruct (ri_map _ Ir _ _ Hm) as (d & Hd & _). congruence. }
  split; [done|]. intros fd e Hi. by apply (Hno fd), (ri_int _ Ir fd e).
Qed.

Lemma acceptor_unreferenced ext sv r : slink ext sv r -> acceptor_ sv = None -> unreferenced r (pa L).
Proof.
  intros S Ha. pose proof (proj1 (sl_open _ _ _ _ _ _ S)) as Ir. pose proof (sl_acc _ _ _ _ _ _ S) as Hacc. rewrite Ha in Hacc.
  assert (forall fd, channels_ r !! fd <> Some (pa L)) as Hno.
  { intros fd Hm. destruct (ri_map _ Ir _ _ Hm) as (d & Hd & _ & Hadd). rewrite (Hacc d Hd) in Hadd. done. }
  split; [done|]. intros fd e Hi. by apply (Hno fd), (ri_int _ Ir fd e).
Qed.
End history.

(** ** Properties *)
Section properties.
Context {B K : Type} `{ByteQueue B} `{KernelLaws K} (L : Layout).

(** C4: a server in the poller of a loop, among any other channels and
    descriptors, through any history of its own events (accepting, serving and
    closing connections, the destructors) and of the rest of the program.  What
    the server, its acceptor and its connections do to the poller and to
    descriptors never fails, and the server does what TcpServer.v says, which
    has no poller; the only stop is the [abort] on an errno of [accept].  A
    listening socket is watched for reading, its channel calling [handleRead]
    while the acceptor exists; each open connection is watched for what it wants;
    no other channel is registered for a descriptor of the server's.  A
    connection that has been deleted, and an acceptor that is gone, have left
    nothing in the poller or the kernel. *)
Theorem server_on_poller (r : Reactor K) nm cbs idle sts (w0 : Site B K) :
  name_ok nm -> fds_open r -> (forall p, chans r !! chan_of L p = None) -> chans r !! pa L = None ->
  new_fd (kfds (epoll r)) idle -> site_new L r nm cbs idle = Ok w0 -> ssteps_ok L w0 sts ->
  match run_ssteps L w0 sts with
  | Ok w =>
      run_sevents (TcpServer_new (B := B) nm cbs idle) (server_events sts) = Ok (server w) /\
      fds_open (site w) /\ fds (server w) ⊆ kfds (epoll (site w)) /\
      (forall a, acceptor_ (server w) = Some a -> 0 <= acceptSocket_ a ->
         interest (epoll (site w)) !! acceptSocket_ a = Some (kReadEvent, pa L) /\
         exists c, chans (site w) !! pa L = Some c /\ listens L (site w) c (acceptSocket_ a) (released a)) /\
      (forall p n c, conns (server w) !! p = Some (n, c) -> is_open c = true ->
         interest (epoll (site w)) !! socketFd_ c = Some (wanted c, chan_of L p)) /\
      (forall fd e x, interest (epoll (site w)) !! fd = Some (e, x) -> fd ∈ fds (server w) ->
         x = pa L /\ accepts (acceptor_ (server w)) fd \/
         exists p n c, x = chan_of L p /\ conns (server w) !! p = Some (n, c) /\ is_open c = true /\ fd = socketFd_ c) /\
      (forall p, conns (server w) !! p = None ->
         chans (site w) !! chan_of L p = None /\ unreferenced (site w) (chan_of L p)) /\
      (acceptor_ (server w) = None -> unreferenced (site w) (pa L))
  | Fault f => f = StdAbort /\ exists se, WServer se ∈ sts /\ bad_accept se
  end.
Proof.
  intros Hn Ho Hc Hpa Hidle E0 Hok.
  destruct (site_new_slink (B := B) L r nm cbs idle Ho Hc Hpa Hidle) as (r0 & E & S). rewrite E in E0. injection E0 as <-.
  assert (srv_inv (TcpServer_new (B := B) nm cbs idle)) as I by (apply new_server_inv; destruct idle; [split; [apply Hidle|set_solver]|done]).
  pose proof (run_ssteps_slink L _ (mkSite _ r0) sts S I Hn Hok) as Hr. destruct (run_ssteps L _ sts) as [w|f]; [|done].
  destruct Hr as (Er & [ext S'] & I'). split_and!.
  - exact Er.
  - apply S'.
  - rewrite (sl_kfds _ _ _ _ _ _ S'). set_solver.
  - intros a Ha Hge. by apply (listening_watched L ext (server w)).
  - intros p n c Hp. by apply (open_watched L ext (server w)) with n.
  - intros fd e x. by apply (watched_owner L ext).
  - intros p. by apply (gone_unreferenced L ext (server w)).
  - by apply (acceptor_unreferenced L ext (server w)).
Qed.
End properties.

(** ** A history

    The server's channels are at even addresses, the acceptor's at 1; another
    channel, at 201 on descriptor 9, and descriptor 11 come and go.  Two clients
    connect, then descriptors run out; the first client hangs up; the server is
    destroyed on another thread with the second connection open. *)
Lemma ex_chan_inj p q : 2 * p = 2 * q -> p = q.
Proof. lia. Qed.
Lemma ex_pa_apart p : 2 * p <> 1.
Proof. lia. Qed.
Definition ex_layout : Layout := mkLayout (fun p => 2 * p) 1 1000 ex_chan_inj ex_pa_apart.

Definition ex_reactor : Reactor SimKernel.kern := Reactor_new (SimKernel.mkKern (<[9 := None]> ∅)).
Definition ex_site : Site Buffer SimKernel.kern :=
  match site_new ex_layout ex_reactor "srv" (true, true, true) (inl 3) with
  | Ok w => w
  | Fault _ => mkSite ex_new ex_reactor
  end.
Definition ex_steps : list sstep :=
  [WServer (SvStart false (inl 4) 0 0); WOther (RNew 201 9 true false false false); WOther (RChange 201 EnableReading);
   WServer (SvRunStart (inl 4) 0 0);
   WServer (SvAccept [mkAnswer (inl 5) 1 ex_env; mkAnswer (inl 6) 2 ex_env; mkAnswer (inr EMFILE) 0 ex_env] (inl 3) (inl 3));
   WOpen 11; WServer (TcpServer.SvConn 1 (EvPoll (Z.lor EPOLLHUP EPOLLERR) no_read) ex_env);
   WServer (TcpServer.SvConn 1 (EvFunctor 0) ex_env); WClose 11; WServer (SvDelete false (fun _ => ex_env)); WServer SvCleanup;
   WServer (TcpServer.SvConn 2 (EvFunctor 0) ex_env); WRelease;
   WOther (RChange 201 DisableAll); WOther (RRemove 201)].

(** While it serves two connections, and at the end. *)
Example ex_steps_run :
  (w ← run_ssteps ex_layout ex_site (take 5 ex_steps); Ok (map_to_list (interest (epoll (site w))), elements (fds (server w)))) =
    Ok ([(9, (3, 201)); (5, (7, 2)); (6, (7, 4)); (4, (3, 1))], [5; 3; 6; 4]) /\
  (w ← run_ssteps ex_layout ex_site ex_steps;
   Ok (conns (server w), fds (server w), map_to_list (interest (epoll (site w))), elements (kfds (epoll (site w))),
       (map_to_list (chans (site w))).*1)) = Ok (∅, ∅, [], [9], [201]).
Proof. split; vm_compute; reflexivity. Qed.

Lemma ex_other_ok (w : Site Buffer SimKernel.kern) o q :
  rop_on o = Some q -> q = 201 -> (forall x, o <> RTie x 1000) -> bool_decide (pre (site w) o /\ Kernel.opened (site w) o) = true ->
  (forall x ch c, o = RChange x ch -> chans (site w) !! x = Some c -> fd_ c ∉ fds (server w)) ->
  sstep_ok ex_layout w (WOther o).
Proof.
  intros Hon -> Htie [Hpre Hop]%bool_decide_eq_true Hfree. cbn [sstep_ok]. split_and!; try done.
  - intros p E. rewrite Hon in E. injection E as E. simpl in E. lia.
  - rewrite Hon. by intros [=].
  - by intros x ->.
Qed.

Lemma ex_steps_ok : ssteps_ok ex_layout ex_site ex_steps.
Proof.
  assert (forall (w : Site Buffer SimKernel.kern) se,
    sevent_ok (server w) se -> bool_decide (Forall (fun fd => fd ∈ kfds (epoll (site w)) -> fd ∈ fds (server w)) (answered se)) = true ->
    bool_decide (oa ex_layout ∉ allocated se) = true ->
    match se with
    | TcpServer.SvConn p (EvPoll revents _) _ => wait_ok (site w) [(revents, chan_of ex_layout p)]
    | SvAccept _ _ _ => wait_ok (site w) [(EPOLLIN, pa ex_layout)]
    | _ => True
    end -> sstep_ok ex_layout w (WServer se)) as Hsrv.
  { intros w se Hse Hf%bool_decide_eq_true Ha%bool_decide_eq_true Hw. cbn [sstep_ok]. split_and!; try done.
    intros fd Hin. by apply (proj1 (Forall_forall _ _) Hf). }
  split; [|run_next].
  { apply Hsrv; [by split; [|split; [lia|by_decide]]|by vm_compute|by vm_compute|done]. }
  split; [|run_next].
  { by apply (ex_other_ok _ _ 201); [..|by vm_compute|]. }
  split; [|run_next].
  { apply (ex_other_ok _ _ 201); [done|done|done|by vm_compute|]. intros x ch c [= <- _] Hc. vm_compute in Hc. injection Hc as <-. by_decide. }
  split; [|run_next].
  { apply Hsrv; [split; [lia|by_decide]|by vm_compute|by vm_compute|done]. }
  split; [|run_next].
  { apply Hsrv; [|by vm_compute|by vm_compute|by apply (wait_ok_one _ _ _ 4 3)].
    split; [split_and!; [lia|by_decide|by vm_compute|by vm_compute|by vm_compute]|]. run_next.
    split; [split_and!; [lia|by_decide|by vm_compute|by vm_compute|by vm_compute]|]. run_next.
    intros a Ha. vm_compute in Ha. injection Ha as <-. split; (split; [lia|by_decide]). }
  split; [by_decide|run_next].
  split; [|run_next].
  { apply Hsrv; [|by vm_compute|by vm_compute|by apply (wait_ok_one _ _ _ 5 7)].
    eexists _, _. split; [vm_compute; reflexivity|]. split; [split; [done|by intros ? ? _ ?]|]. split; [by vm_compute|done]. }
  split; [|run_next].
  { apply Hsrv; [|by vm_compute|by vm_compute|done].
    eexists _, _. split; [vm_compute; reflexivity|]. split; [done|]. split; [by vm_compute|done]. }
  split; [split; [by_decide|by vm_compute]|run_next].
  split; [|run_next].
  { apply Hsrv; [done|by vm_compute|by vm_compute|done]. }
  split; [|run_next].
  { apply Hsrv; [done|by vm_compute|by vm_compute|done]. }
  split; [|run_next].
  { apply Hsrv; [|by vm_compute|by vm_compute|done].
    eexists _, _. split; [vm_compute; reflexivity|]. split; [done|]. split; [by vm_compute|done]. }
  split; [split; [done|by eexists]|run_next].
  split; [|run_next].
  { apply (ex_other_ok _ _ 201); [done|done|done|by vm_compute|]. intros x ch c [= <- _] Hc. vm_compute in Hc. injection Hc as <-. by_decide. }
  split; [|by run_next].
  by apply (ex_other_ok _ _ 201); [..|by vm_compute|].
Qed.

Lemma server_on_poller_witness :
  match run_ssteps ex_layout ex_site ex_steps with
  | Ok w =>
      run_sevents ex_new (server_events ex_steps) = Ok (server w) /\
      fds_open (site w) /\ fds (server w) ⊆ kfds (epoll (site w)) /\
      (forall a, acceptor_ (server w) = Some a -> 0 <= acceptSocket_ a ->
         interest (epoll (site w)) !! acceptSocket_ a = Some (kReadEvent, 1) /\
         exists c, chans (site w) !! 1 = Some c /\ listens ex_layout (site w) c (acceptSocket_ a) (released a)) /\
      (forall p n c, conns (server w) !! p = Some (n, c) -> is_open c = true ->
         interest (epoll (site w)) !! socketFd_ c = Some (wanted c, 2 * p)) /\
      (forall fd e x, interest (epoll (site w)) !! fd = Some (e, x) -> fd ∈ fds (server w) ->
         x = 1 /\ accepts (acceptor_ (server w)) fd \/
         exists p n c, x = 2 * p /\ conns (server w) !! p = Some (n, c) /\ is_open c = true /\ fd = socketFd_ c) /\
      (forall p, conns (server w) !! p = None -> chans (site w) !! (2 * p) = None /\ unreferenced (site w) (2 * p)) /\
      (acceptor_ (server w) = None -> unreferenced (site w) 1)
  | Fault f => f = StdAbort /\ exists se, WServer se ∈ ex_steps /\ bad_accept se
  end.
Proof.
  apply (server_on_poller (B := Buffer) ex_layout ex_reactor "srv" (true, true, true) (inl 3) ex_steps ex_site).
  - by_decide.
  - split; [by apply inv_new|done].
  - done.
  - done.
  - split; [lia|by_decide].
  - vm_compute. reflexivity.
  - exact ex_steps_ok.
Defined.
