(* ===== verification/UdpSocket.v ===== *)
(** * UdpSocket: a datagram socket in the loop

    Models [include/hvnetpp/UdpSocket.h] and [src/UdpSocket.cpp] over the
    channels and the poller of Poller.v, whose other channels stay arbitrary.
    A call made on another thread posts its functor to the loop; the functors
    posted run in order (the ring of the loop does not overflow).  The channel
    is shared by the socket and the functors posted: it is deleted with the last
    pointer to it.  The answers of the kernel come with the calls. *)

From S2P Require Import SocketsOps InetAddress.
From S2P Require Import Prelude Buffer Channel Poller Kernel.

#[local] Open Scope Z_scope.

(** ** Data *)
Inductive State : Type := kClosed | kOpened | kBound | kReceiving.

#[global] Instance State_eq_dec : EqDecision State.
Proof. solve_decision. Defined.

(** The functors the socket posts, with what they capture. *)
Inductive functor : Type :=
| FEnable (p : Z)                              (* channel->enableReading() *)
| FDisable (p : Z)                             (* channel->disableReading() *)
| FCleanup (channel : option Z) (sockfd : Z)   (* the cleanup of cleanupUdpSocket *)
| FKeep (p : Z).                               (* [channel]() {} *)

#[global] Instance functor_eq_dec : EqDecision functor.
Proof. solve_decision. Defined.

(** The channel a functor keeps alive. *)
Definition captured (f : functor) : option Z :=
  match f with FEnable p | FDisable p | FKeep p => Some p | FCleanup ch _ => ch end.

(** The object, the loop it uses ([reactor], and [queue] for the functors
    posted), [errno] as the code sets it, and as history variables what the
    read callback was given and the calls of [sendto]. *)
Record Udp (K : Type) : Type := mkUdp {
  family_ : Z;
  sockfd_ : Z;
  state_ : State;
  channel_ : option Z;
  callbackToken_ : bool;
  readCallback_ : bool;
  reactor : Reactor K;
  queue : list functor;
  errno : Z;
  received : list (InetAddress * list byte);
  sendtos : list (Z * list byte * InetAddress)
}.
Arguments mkUdp {K}.
Arguments family_ {K}.
Arguments sockfd_ {K}.
Arguments state_ {K}.
Arguments channel_ {K}.
Arguments callbackToken_ {K}.
Arguments readCallback_ {K}.
Arguments reactor {K}.
Arguments queue {K}.
Arguments errno {K}.
Arguments received {K}.
Arguments sendtos {K}.

(** The size of [readBuf_]. *)
Definition kReadBufSize : Z := 65536.

(** An answer of [recvfrom]: the address and the bytes of a datagram, or an
    errno. *)
Definition datagram : Type := list byte * list byte + Z.

Section udp.
Context {K : Type} `{Kernel K}.
Implicit Types (u : Udp K) (p fd : Z).

Definition UdpSocket_new (r : Reactor K) : Udp K :=
  mkUdp AF_UNSPEC (-1) kClosed None true false r [] 0 [] [].

Definition set_socket u fam fd st ch : Udp K :=
  mkUdp fam fd st ch (callbackToken_ u) (readCallback_ u) (reactor u) (queue u) (errno u) (received u) (sendtos u).
Definition set_state u st : Udp K := set_socket u (family_ u) (sockfd_ u) st (channel_ u).
Definition set_token u b : Udp K :=
  mkUdp (family_ u) (sockfd_ u) (state_ u) (channel_ u) b (readCallback_ u) (reactor u) (queue u) (errno u) (received u) (sendtos u).
Definition setReadCallback u b : Udp K :=
  mkUdp (family_ u) (sockfd_ u) (state_ u) (channel_ u) (callbackToken_ u) b (reactor u) (queue u) (errno u) (received u) (sendtos u).
Definition set_reactor u r : Udp K :=
  mkUdp (family_ u) (sockfd_ u) (state_ u) (channel_ u) (callbackToken_ u) (readCallback_ u) r (queue u) (errno u) (received u) (sendtos u).
Definition set_queue u q : Udp K :=
  mkUdp (family_ u) (sockfd_ u) (state_ u) (channel_ u) (callbackToken_ u) (readCallback_ u) (reactor u) q (errno u) (received u) (sendtos u).
Definition set_errno u e : Udp K :=
  mkUdp (family_ u) (sockfd_ u) (state_ u) (channel_ u) (callbackToken_ u) (readCallback_ u) (reactor u) (queue u) e (received u) (sendtos u).
Definition log_received u d : Udp K :=
  mkUdp (family_ u) (sockfd_ u) (state_ u) (channel_ u) (callbackToken_ u) (readCallback_ u) (reactor u) (queue u) (errno u) (received u ++ [d]) (sendtos u).
Definition log_sendto u d : Udp K :=
  mkUdp (family_ u) (sockfd_ u) (state_ u) (channel_ u) (callbackToken_ u) (readCallback_ u) (reactor u) (queue u) (errno u) (received u) (sendtos u ++ [d]).

Definition set_kernel u k : Udp K := set_reactor u (set_epoll (reactor u) k).
Definition kernel u : K := epoll (reactor u).
Definition queueInLoop u f : Udp K := set_queue u (queue u ++ [f]).

Definition is_state u st : bool := bool_decide (state_ u = st).
Definition isOpen u : bool := negb (is_state u kClosed).
Definition isBound u : bool := is_state u kBound || is_state u kReceiving.
Definition isReceiving u : bool := is_state u kReceiving.

(** *** The channel's life *)
Definition referenced u p : bool :=
  bool_decide (channel_ u = Some p) || bool_decide (Some p ∈ captured <$> queue u).

(** A pointer to the channel goes away; the last one deletes it, which leaves a
    dangling pointer in the poller if it is still there ([BadPointer]). *)
Definition release u (ch : option Z) : res (Udp K) :=
  match ch with
  | None => Ok u
  | Some p =>
      if referenced u p then Ok u else
      c ← deref (chans (reactor u) !! p);
      if addedToLoop_ c then Fault BadPointer
      else Ok (set_reactor u (set_chans (reactor u) (delete p (chans (reactor u)))))
  end.

(** *** The functors *)
Definition cleanup u (ch : option Z) fd : res (Udp K) :=
  u1 ← match ch with
       | Some p =>
           r1 ← channel_change (reactor u) p DisableAll;
           r2 ← channel_remove r1 p;
           Ok (queueInLoop (set_reactor u r2) (FKeep p))
       | None => Ok u
       end;
  Ok (if 0 <=? fd then set_kernel u1 (sys_close (kernel u1) fd) else u1).

Definition call u (f : functor) : res (Udp K) :=
  match f with
  | FEnable p => r ← channel_change (reactor u) p EnableReading; Ok (set_reactor u r)
  | FDisable p => r ← channel_change (reactor u) p DisableReading; Ok (set_reactor u r)
  | FCleanup ch fd => cleanup u ch fd
  | FKeep _ => Ok u
  end.

(** [runInLoop]: at once on the loop's thread, posted from another. *)
Definition runInLoop (inLoop : bool) u (f : functor) : res (Udp K) :=
  if inLoop then call u f else Ok (queueInLoop u f).

Definition cleanupUdpSocket (inLoop : bool) u (ch : option Z) fd : res (Udp K) :=
  if inLoop then cleanup u ch fd else Ok (queueInLoop u (FCleanup ch fd)).

(** The loop runs the next functor and destroys it. *)
Definition run_functor u : res (Udp K) :=
  match queue u with
  | [] => Ok u
  | f :: q => u1 ← call (set_queue u q) f; release u1 (captured f)
  end.

(** *** The members *)
Definition UdpSocket_delete (inLoop : bool) u : res (Udp K) :=
  let u1 := set_state (set_token u false) kClosed in
  let channel := channel_ u1 in
  let sockfd := sockfd_ u1 in
  let u2 := set_socket u1 (family_ u1) (-1) (state_ u1) None in
  u3 ← cleanupUdpSocket inLoop u2 channel sockfd;
  release u3 channel.

(** The second half of [ensureSocket]: the answer of [socket], and where the
    channel is allocated. *)
Definition open_socket u (fam : Z) (sock : sys_fd) p : bool * Udp K :=
  let fd := createNonblockingUdp sock in
  if fd <? 0 then (false, set_socket u (family_ u) fd (state_ u) (channel_ u)) else
  let r := set_epoll (reactor u) (sys_open (kernel u) fd) in
  let r1 := set_chan r p (set_callbacks (Channel_new fd) true false false false) in
  (true, set_reactor (set_socket u fam fd kOpened (Some p)) r1).

Definition ensureSocket u (fam : Z) (sock : sys_fd) p : bool * Udp K :=
  if 0 <=? sockfd_ u then
    if negb (family_ u =? fam) then (false, set_errno u EAFNOSUPPORT) else (true, u)
  else open_socket u fam sock p.

Definition open u (fam : Z) (sock : sys_fd) p : bool * Udp K := ensureSocket u fam sock p.

Definition bind (inLoop : bool) u (addr : InetAddress) (sock : sys_fd) p (bound : Z) : res (bool * Udp K) :=
  let createdSocket := sockfd_ u <? 0 in
  let '(ok, u1) := ensureSocket u (family addr) sock p in
  if negb ok then Ok (false, u1) else
  if negb (sock_bind bound) then
    if createdSocket then
      let channel := channel_ u1 in
      let sockfd := sockfd_ u1 in
      u2 ← cleanupUdpSocket inLoop (set_socket u1 AF_UNSPEC (-1) kClosed None) channel sockfd;
      u3 ← release u2 channel;
      Ok (false, u3)
    else Ok (false, u1)
  else Ok (true, if negb (is_state u1 kReceiving) then set_state u1 kBound else u1).

Definition startReceive (inLoop : bool) u : res (bool * Udp K) :=
  match channel_ u with
  | Some p =>
      if negb (isBound u) then Ok (false, set_errno u EINVAL) else
      if is_state u kReceiving then Ok (true, u) else
      u1 ← runInLoop inLoop (set_state u kReceiving) (FEnable p);
      Ok (true, u1)
  | None => Ok (false, set_errno u EINVAL)
  end.

Definition bindAndStart (inLoop : bool) u addr sock p bound : res (bool * Udp K) :=
  '(ok, u1) ← bind inLoop u addr sock p bound;
  if negb ok then Ok (false, u1) else startReceive inLoop u1.

Definition stopReceive (inLoop : bool) u : res (Udp K) :=
  match channel_ u with
  | Some p => runInLoop inLoop (if is_state u kReceiving then set_state u kBound else u) (FDisable p)
  | None => Ok u
  end.

(** [sendTo]: the result, with the answer of [sendto]. *)
Definition sendTo u (data : list byte) (dest : InetAddress) (sock : sys_fd) p (ans : Z) : Z * Udp K :=
  let '(ok, u1) := ensureSocket u (family dest) sock p in
  if negb ok then (-1, u1) else (ans, log_sendto u1 (sockfd_ u1, data, dest)).

Definition sendTo_Buffer u (b : Buffer) (dest : InetAddress) (sock : sys_fd) p (ans : Z) : res (Z * Udp K) :=
  data ← peek b (readableBytes b);
  Ok (sendTo u data dest sock p ans).

(** ** Calls, as the user makes them *)
Inductive ucall : Type :=
| UOpen (fam : Z) (sock : sys_fd) (p : Z)
| UBind (addr : InetAddress) (sock : sys_fd) (p bound : Z)
| UBindAndStart (addr : InetAddress) (sock : sys_fd) (p bound : Z)
| UStart
| UStop
| USendTo (data : list byte) (dest : InetAddress) (sock : sys_fd) (p ans : Z)
| USetReadCallback (b : bool).

Definition run_call (inLoop : bool) u (c : ucall) : res (Udp K) :=
  match c with
  | UOpen fam sock p => Ok (open u fam sock p).2
  | UBind addr sock p bound => '(_, u1) ← bind inLoop u addr sock p bound; Ok u1
  | UBindAndStart addr sock p bound => '(_, u1) ← bindAndStart inLoop u addr sock p bound; Ok u1
  | UStart => '(_, u1) ← startReceive inLoop u; Ok u1
  | UStop => stopReceive inLoop u
  | USendTo data dest sock p ans => Ok (sendTo u data dest sock p ans).2
  | USetReadCallback b => Ok (setReadCallback u b)
  end.

Fixpoint run_calls (inLoop : bool) u (cs : list ucall) : res (Udp K) :=
  match cs with [] => Ok u | c :: cs' => u1 ← run_call inLoop u c; run_calls inLoop u1 cs' end.

(** ** Events of the channel *)

(** [handleRead], with the answer of [recvfrom] and the calls the read callback
    makes on the socket. *)
Definition handleRead u (ans : datagram) (calls : list ucall) : res (Udp K) :=
  match ans with
  | inl (addr, data) =>
      if readCallback_ u then
        peer ← InetAddress_sockaddr (storage addr) (zlen addr);
        run_calls true (log_received u (peer, data)) calls
      else Ok u
  | inr _ => Ok u
  end.

(** The callback [ensureSocket] sets; the others are empty, to call one would
    throw. *)
Definition do_callback u (k : cbk) (ans : datagram) (calls : list ucall) : res (Udp K) :=
  match k with
  | CbRead => if callbackToken_ u then handleRead u ans calls else Ok u
  | _ => Fault StdAbort
  end.

(** The poller has reported the channel at [p]: [handleEvent] of Poller.v. *)
#[export] Instance udp_part : Part (Udp K) (Reactor K) := {| get := reactor; put := set_reactor |}.

Definition channel_event u p (revents : Z) (ans : datagram) (calls : list ucall) : res (Udp K) :=
  c ← deref (chans (reactor u) !! p);
  handleEvent (fun u _ k => do_callback u k ans calls) (set_reactor u (set_chan (reactor u) p (setRevents c revents))) p.
End udp.

(** ** The invariant

    [r0] is the loop's reactor before the socket was made, with the channels of
    others. *)

(** The descriptors the functors posted will close. *)
Definition pending_fds (q : list functor) : list Z :=
  omap (fun f => match f with FCleanup _ fd => if 0 <=? fd then Some fd else None | _ => None end) q.

(** After the cleanup of a channel nothing enables it or cleans it up again. *)
Fixpoint ordered (q : list functor) : Prop :=
  match q with
  | [] => True
  | f :: q' =>
      (forall p fd, f = FCleanup (Some p) fd -> (FEnable p ∉ q') /\ forall fd', FCleanup (Some p) fd' ∉ q') /\ ordered q'
  end.

Lemma ordered_snoc q f :
  ordered q ->
  (forall p, f = FEnable p \/ (exists fd, f = FCleanup (Some p) fd) -> forall fd, FCleanup (Some p) fd ∉ q) ->
  ordered (q ++ [f]).
Proof.
  induction q as [|g q IH]; intros Ho Hf; simpl; [split; [|done]; intros; split; set_solver|].
  destruct Ho as [Hg Ho]. split; [|apply IH; [done|]; intros p Hp fd; specialize (Hf p Hp fd); set_solver].
  intros p fd ->. destruct (Hg p fd eq_refl) as [H1 H2]. split.
  - rewrite elem_of_app, list_elem_of_singleton. intros [?|E]; [done|].
    apply (Hf p (or_introl (eq_sym E)) fd). by left.
  - intros fd'. rewrite elem_of_app, list_elem_of_singleton. intros [?|E]; [by eapply H2|].
    apply (Hf p (or_intror (ex_intro _ _ (eq_sym E))) fd). by left.
Qed.

Lemma elem_pending q fd : fd ∈ pending_fds q <-> 0 <= fd /\ exists ch, FCleanup ch fd ∈ q.
Proof.
  unfold pending_fds. rewrite list_elem_of_omap. split.
  - intros (f & Hf & E). destruct f as [| |ch fd'|]; try done. destruct (Z.leb_spec 0 fd'); [|done].
    injection E as <-. eauto.
  - intros (Hfd & ch & Hf). exists (FCleanup ch fd). split; [done|]. by rewrite (proj2 (Z.leb_le _ _) Hfd).
Qed.

Lemma pending_inj q ch1 ch2 fd :
  NoDup (pending_fds q) -> 0 <= fd -> FCleanup ch1 fd ∈ q -> FCleanup ch2 fd ∈ q -> ch1 = ch2.
Proof.
  intros Hn Hfd. revert Hn. induction q as [|f q IH]; [set_solver|]. simpl. intros Hn E1 E2.
  apply elem_of_cons in E1. apply elem_of_cons in E2.
  assert (forall ch, f = FCleanup ch fd -> forall ch', FCleanup ch' fd ∉ q) as Hno.
  { intros ch -> ch' Hc. cbn [pending_fds omap list_omap] in Hn. rewrite (proj2 (Z.leb_le _ _) Hfd) in Hn.
    apply NoDup_cons in Hn as [Hn _]. apply Hn, elem_pending. eauto. }
  destruct E1 as [<-|E1], E2 as [E2|E2].
  - by injection E2.
  - by destruct (Hno ch1 eq_refl ch2).
  - by destruct (Hno ch2 (eq_sym E2) ch1).
  - apply IH; [|done..]. cbn [pending_fds omap list_omap] in Hn. destruct f as [| |? fd'|]; try done.
    destruct (0 <=? fd'); [by apply NoDup_cons in Hn as [_ ?]|done].
Qed.

Section inv.
Context {K : Type} `{KernelLaws K} (r0 : Reactor K) (Hr0 : fds_open r0).
Implicit Types (u : Udp K) (p fd : Z) (X : option Z).

Definition own_fds u : list Z := (if 0 <=? sockfd_ u then [sockfd_ u] else []) ++ pending_fds (queue u).

(** The channel at [p] and the descriptor [fd] belong together, in the socket
    or in a cleanup that was posted. *)
Definition holds u p fd : Prop := channel_ u = Some p /\ fd = sockfd_ u \/ FCleanup (Some p) fd ∈ queue u.

(** The channel at [p] was cleaned up. *)
Definition retired u p (c : Channel) : Prop :=
  channel_ u <> Some p /\ addedToLoop_ c = false /\ events_ c = 0 /\ (FEnable p ∉ queue u) /\
  forall fd, FCleanup (Some p) fd ∉ queue u.

Definition udp_chan (c : Channel) : Prop :=
  tied_ c = false /\ (Channel.readCallback_ c, writeCallback_ c, closeCallback_ c, errorCallback_ c) = (true, false, false, false) /\
  0 <= fd_ c.

(** [X] is a channel a local variable of the code points to. *)
Definition chan_inv X u p (c : Channel) : Prop :=
  udp_chan c /\ (holds u p (fd_ c) \/ retired u p c) /\ (referenced u p = true \/ X = Some p).

Record inv X u : Prop := mkInv {
  i_reactor : reactor_inv (reactor u);
  i_frame q : is_Some (chans r0 !! q) -> chans (reactor u) !! q = chans r0 !! q;
  i_nodup : NoDup (own_fds u);
  i_kfds fd : fd ∈ kfds (kernel u) <-> fd ∈ own_fds u \/ fd ∈ kfds (epoll r0);
  i_fresh fd : fd ∈ own_fds u -> fd ∉ kfds (epoll r0);
  i_socket : match channel_ u with
             | Some _ => 0 <= sockfd_ u /\ state_ u <> kClosed /\ callbackToken_ u = true
             | None => sockfd_ u = -1 /\ state_ u = kClosed
             end;
  i_chan p c : chans (reactor u) !! p = Some c -> chans r0 !! p = None -> chan_inv X u p c;
  i_held p : referenced u p = true \/ X = Some p -> is_Some (chans (reactor u) !! p) /\ chans r0 !! p = None;
  i_cleanup p fd : FCleanup (Some p) fd ∈ queue u -> channel_ u <> Some p;
  i_nochan fd : FCleanup None fd ∈ queue u -> fd < 0;
  i_order : ordered (queue u)
}.

Lemma referenced_true u p :
  referenced u p = true <-> channel_ u = Some p \/ exists f, f ∈ queue u /\ captured f = Some p.
Proof.
  unfold referenced. rewrite orb_true_iff, !bool_decide_eq_true, list_elem_of_fmap.
  split; (intros [?|(f & ? & ?)]; [by left|right; exists f; split; congruence]).
Qed.

Lemma holds_own X u p fd : inv X u -> holds u p fd -> 0 <= fd -> fd ∈ own_fds u.
Proof.
  intros I [[Hc ->]|Hq] Hfd; unfold own_fds; rewrite elem_of_app.
  - left. rewrite (proj2 (Z.leb_le _ _) Hfd). by apply list_elem_of_singleton.
  - right. apply elem_pending. eauto.
Qed.

Lemma holds_referenced u p fd : holds u p fd -> referenced u p = true.
Proof. intros [[? _]|?]; apply referenced_true; [by left|right; by exists (FCleanup (Some p) fd)]. Qed.

Lemma holds_inj X u p q fd : inv X u -> 0 <= fd -> holds u p fd -> holds u q fd -> p = q.
Proof.
  intros I Hfd Hp Hq. pose proof (i_nodup _ _ I) as Hn. unfold own_fds in Hn. apply NoDup_app in Hn as (_ & Hd & Hn).
  assert (forall q', channel_ u = Some q' -> 0 <= sockfd_ u -> forall q'', FCleanup (Some q'') (sockfd_ u) ∉ queue u) as Hno.
  { intros q' Hc Hs q'' Hq'. apply (Hd (sockfd_ u)); [|apply elem_pending; eauto].
    rewrite (proj2 (Z.leb_le _ _) Hs). by apply list_elem_of_singleton. }
  destruct Hp as [[Hp ->]|Hp], Hq as [[Hq E]|Hq].
  - congruence.
  - by destruct (Hno p Hp Hfd q).
  - subst fd. by destruct (Hno q Hq Hfd p).
  - pose proof (pending_inj _ _ _ _ Hn Hfd Hp Hq). congruence.
Qed.

(** No other channel is registered for the descriptor. *)
Lemma slot X u p c :
  inv X u -> chans (reactor u) !! p = Some c -> holds u p (fd_ c) -> 0 <= fd_ c ->
  channels_ (reactor u) !! fd_ c = None \/ channels_ (reactor u) !! fd_ c = Some p.
Proof.
  intros I Hp Hh Hfd. destruct (channels_ (reactor u) !! fd_ c) as [q|] eqn:Hq; [right|by left].
  destruct (ri_map _ (i_reactor _ _ I) _ _ Hq) as (d & Hd & Hfdd & Ha).
  destruct (chans r0 !! q) as [d'|] eqn:Hq0.
  - rewrite (i_frame _ _ I q) in Hd by eauto. destruct Hr0 as [_ Ho].
    destruct (i_fresh _ _ I (fd_ c)); [by eapply holds_own|]. rewrite <- Hfdd. by apply (Ho q).
  - destruct (i_chan _ _ I q d Hd Hq0) as (_ & [Hhq|(_ & ? & _)] & _); [|congruence]. rewrite Hfdd in Hhq.
    f_equal. by eapply holds_inj.
Qed.

(** A channel is changed, the rest of the socket is not. *)
Lemma inv_chan X u p c c' r' :
  inv X u -> chans (reactor u) !! p = Some c -> chans r0 !! p = None ->
  reactor_inv r' -> (forall q, q <> p -> chans r' !! q = chans (reactor u) !! q) -> chans r' !! p = Some c' ->
  fd_ c' = fd_ c -> (udp_chan c -> udp_chan c') ->
  kfds (epoll r') = kfds (kernel u) -> (retired u p c -> addedToLoop_ c' = false /\ events_ c' = 0) ->
  inv X (set_reactor u r').
Proof.
  intros I Hp Hp0 Ir Hoth Hp' Hf Hu Hk Hret. split; simpl; try apply I; try done.
  - intros q Hq. rewrite Hoth; [by apply (i_frame _ _ I)|]. intros ->. rewrite Hp0 in Hq. by destruct Hq.
  - intros fd. unfold kernel. simpl. rewrite Hk. apply (i_kfds _ _ I).
  - intros q d Hd Hq0. destruct (decide (q = p)) as [-> |Hne].
    + rewrite Hp' in Hd. injection Hd as <-. destruct (i_chan _ _ I p c Hp Hp0) as (Hc0 & Hc & Href).
      split; [by apply Hu|]. split; [|done]. rewrite Hf. destruct Hc as [?|Hc]; [by left|right].
      destruct (Hret Hc) as [? ?]. destruct Hc as (? & _ & _ & ? & ?). by split_and!.
    + rewrite Hoth in Hd by done. by apply (i_chan _ _ I).
  - intros q Hq. destruct (i_held _ _ I q Hq) as [Hs Hq0]. split; [|done]. destruct (decide (q = p)) as [-> |Hne]; [by eauto|].
    by rewrite Hoth.
Qed.

Lemma same_rest_udp c c' : same_rest c c' -> udp_chan c -> udp_chan c'.
Proof. intros (Hf & _ & Ht & _ & Hcb) (? & ? & ?). unfold udp_chan. by rewrite Ht, Hcb, Hf. Qed.

Lemma inv_change X u p c c' r' :
  inv X u -> chans (reactor u) !! p = Some c -> chans r0 !! p = None ->
  reactor_inv r' -> only_chan p (reactor u) r' -> chans r' !! p = Some c' -> same_rest c c' ->
  kfds (epoll r') = kfds (kernel u) -> (retired u p c -> addedToLoop_ c' = false /\ events_ c' = 0) ->
  inv X (set_reactor u r').
Proof.
  intros I Hp Hp0 Ir (Hoth & _) Hp' Hs Hk Hret.
  apply (inv_chan X u p c c'); try done; [apply Hs|by apply same_rest_udp].
Qed.

Lemma change_spec X u p c ch :
  inv X u -> chans (reactor u) !! p = Some c -> chans r0 !! p = None -> holds u p (fd_ c) ->
  exists r', channel_change (reactor u) p ch = Ok r' /\ inv X (set_reactor u r') /\
    changed p c (change_events ch (events_ c)) (reactor u) r'.
Proof.
  intros I Hp Hp0 Hh. destruct (i_chan _ _ I p c Hp Hp0) as ((_ & _ & Hfd) & _).
  destruct (channel_change_ok (reactor u) p c ch (i_reactor _ _ I) Hp) as (r' & E & Ir & Hc & Hk).
  { apply (i_kfds _ _ I). left. by eapply holds_own. }
  { by eapply slot. }
  exists r'. split; [done|]. split; [|done]. pose proof Hc as (Ho & c' & Hp' & He & Hs).
  apply (inv_change X u p c c'); try done.
  intros (? & _ & _ & _ & Hn). exfalso. destruct Hh as [[? _]|?]; [done|]. by eapply Hn.
Qed.

(** *** The queue *)
Lemma elem_snoc (q : list functor) f g : g ∈ q ++ [f] <-> g ∈ q \/ g = f.
Proof. by rewrite elem_of_app, list_elem_of_singleton. Qed.

Lemma pending_snoc q f : (forall ch fd, f <> FCleanup ch fd) -> pending_fds (q ++ [f]) = pending_fds q.
Proof.
  intros Hf. unfold pending_fds. rewrite omap_app. destruct f as [| |ch fd|]; simpl; try by rewrite app_nil_r.
  by destruct (Hf ch fd).
Qed.

(** What may be posted at the end of the queue, cleanups apart. *)
Definition may_post X u (f : functor) : Prop :=
  match f with
  | FEnable p => channel_ u = Some p
  | FDisable p | FKeep p => referenced u p = true \/ X = Some p
  | FCleanup _ _ => False
  end.

Lemma inv_enqueue X u f : inv X u -> may_post X u f -> inv X (queueInLoop u f).
Proof.
  intros I Hf. assert (forall ch fd, f <> FCleanup ch fd) as Hnc by (by intros ch fd ->).
  assert (own_fds (queueInLoop u f) = own_fds u) as Eo by (unfold own_fds; simpl; by rewrite pending_snoc).
  assert (forall p, referenced u p = true -> referenced (queueInLoop u f) p = true) as Hmono.
  { intros p. rewrite !referenced_true. intros [?|(g & ? & ?)]; [by left|right; exists g; split; [|done]].
    apply elem_snoc. by left. }
  assert (forall p, captured f = Some p -> referenced u p = true \/ X = Some p) as Hcap.
  { intros p. destruct f as [p'|p'| |p']; simpl in *; try done; intros [= ->]; auto.
    left. apply referenced_true. by left. }
  split; rewrite ?Eo; try apply I.
  - intros p c Hp Hp0. destruct (i_chan _ _ I p c Hp Hp0) as (Hu & Hc & Href). split; [done|]. split.
    + destruct Hc as [[?|?]|(H1' & H2' & H3' & H4' & H5')].
      * left. by left.
      * left. right. apply elem_snoc. by left.
      * right. split_and!; try done.
        { simpl. rewrite elem_snoc. intros [?|<-]; [done|]. by apply H1'. }
        { intros fd. simpl. rewrite elem_snoc. intros [?|E]; [by eapply H5'|]. by destruct (Hnc (Some p) fd). }
    + destruct Href as [?|?]; [left; by apply Hmono|by right].
  - intros p Hp. apply (i_held _ _ I). rewrite referenced_true in Hp. destruct Hp as [[?|(g & Hg & Hc)]|?]; [| |by right].
    + left. apply referenced_true. by left.
    + apply elem_snoc in Hg as [Hg| ->]; [left; apply referenced_true; right; by exists g|by apply Hcap].
  - intros p fd. simpl. rewrite elem_snoc. intros [?|E]; [by apply (i_cleanup _ _ I p fd)|by destruct (Hnc (Some p) fd)].
  - intros fd. simpl. rewrite elem_snoc. intros [?|E]; [by apply (i_nochan _ _ I)|by destruct (Hnc None fd)].
  - simpl. apply ordered_snoc; [apply I|]. intros p [->|[fd ->]] fd'; [|by destruct (Hnc (Some p) fd)].
    intros Hq. by apply (i_cleanup _ _ I p fd').
Qed.

Lemma inv_pop u f q :
  inv None u -> queue u = f :: q -> (forall p fd, f <> FCleanup (Some p) fd) -> inv (captured f) (set_queue u q).
Proof.
  intros I Eq Hnc.
  assert (own_fds (set_queue u q) = own_fds u) as Eo.
  { unfold own_fds. simpl. rewrite Eq. f_equal. destruct f as [| |[p|] fd|]; try done; [by destruct (Hnc p fd)|].
    cbn [pending_fds omap list_omap]. pose proof (i_nochan _ _ I fd ltac:(rewrite Eq; by left)).
    by rewrite (proj2 (Z.leb_gt _ _)). }
  split; rewrite ?Eo; try apply I.
  - intros p c Hp Hp0. destruct (i_chan _ _ I p c Hp Hp0) as (Hu & Hc & Href). split; [done|]. split.
    + destruct Hc as [[?|Hq]|(? & ? & ? & He & Hn)].
      * left. by left.
      * left. right. rewrite Eq in Hq. apply elem_of_cons in Hq as [E|?]; [by destruct (Hnc p (fd_ c))|done].
      * right. rewrite Eq in He, Hn. split_and!; try done; simpl; [set_solver|]. intros fd Hfd. apply (Hn fd). by right.
    + destruct Href as [Href|?]; [|done]. apply referenced_true in Href as [?|(g & Hg & Hc')].
      * left. apply referenced_true. by left.
      * rewrite Eq in Hg. apply elem_of_cons in Hg as [->|?]; [by right|left]. apply referenced_true. right. by exists g.
  - intros p Hp. apply (i_held _ _ I). left. apply referenced_true. destruct Hp as [Hp|Hp].
    + apply referenced_true in Hp as [?|(g & ? & ?)]; [by left|right; exists g; split; [rewrite Eq; by right|done]].
    + right. exists f. split; [rewrite Eq; by left|done].
  - intros p fd Hq. apply (i_cleanup _ _ I p fd). rewrite Eq. by right.
  - intros fd Hq. apply (i_nochan _ _ I fd). rewrite Eq. by right.
  - pose proof (i_order _ _ I) as Ho. rewrite Eq in Ho. by destruct Ho.
Qed.

(** *** The last pointer *)
Lemma release_spec X u :
  inv X u -> exists r', release u X = Ok (set_reactor u r') /\ inv None (set_reactor u r') /\
    epoll r' = kernel u /\ forall p, referenced u p = true \/ X <> Some p -> chans r' !! p = chans (reactor u) !! p.
Proof.
  intros I. assert (set_reactor u (reactor u) = u) as Eu by (by destruct u).
  assert (forall Y, (forall p, Y = Some p -> referenced u p = true) -> Y = X -> inv None u) as Hweak.
  { intros Y HY ->. destruct I as [? ? ? ? ? ? Hch Hheld ? ? ?]. split; try done.
    - intros p c Hp Hp0. destruct (Hch p c Hp Hp0) as (? & ? & [?|?]); split_and!; try done; left; auto.
    - intros p [?|?]; [|done]. apply Hheld. by left. }
  destruct X as [p|]; simpl.
  2: { exists (reactor u). rewrite Eu. split_and!; try done. }
  destruct (referenced u p) eqn:Href.
  { exists (reactor u). rewrite Eu. split_and!; try done. apply (Hweak (Some p)); [|done]. by intros ? [= <-]. }
  destruct (i_held _ _ I p ltac:(by right)) as [[c Hp] Hp0]. rewrite Hp. cbn [deref mbind res_bind].
  assert (retired u p c) as (Hch & Ha & He & Hen & Hcl).
  { destruct (i_chan _ _ I p c Hp Hp0) as (_ & [Hh|?] & _); [|done]. by rewrite (holds_referenced u p (fd_ c) Hh) in Href. }
  rewrite Ha. exists (set_chans (reactor u) (delete p (chans (reactor u)))).
  pose proof (do_rop_spec (reactor u) (RDelete p) (i_reactor _ _ I) ltac:(by exists c)) as Hd.
  simpl in Hd. rewrite Hp in Hd. simpl in Hd. destruct Hd as [Ir _].
  split_and!; try done.
  - destruct I as [_ Hfr ? ? ? ? Hchan Hheld ? ? ?]. split; try done; simpl.
    + intros q Hq. rewrite lookup_delete_ne; [by apply Hfr|]. intros <-. rewrite Hp0 in Hq. by destruct Hq.
    + intros q d. rewrite lookup_delete. case_decide as E; [done|]. intros Hd Hq0.
      destruct (Hchan q d Hd Hq0) as (? & ? & [?|Eq]); [|congruence]. split_and!; try done. by left.
    + intros q [Hq|?]; [|done]. destruct (Hheld q ltac:(by left)) as [? ?]. split; [|done].
      rewrite lookup_delete_ne; [done|]. intros <-. change (referenced u p = true) in Hq. congruence.
  - intros q Hq. simpl. rewrite lookup_delete_ne; [done|]. intros <-. destruct Hq; congruence.
Qed.

(** *** Cleaning up *)

(** The socket gives its channel and descriptor to a cleanup. *)
Definition gave_up u u' : Prop :=
  reactor u' = reactor u /\ channel_ u' = None /\ sockfd_ u' = -1 /\ state_ u' = kClosed.

Lemma inv_retire u u' :
  inv None u -> gave_up u u' -> queue u' ≡ₚ FCleanup (channel_ u) (sockfd_ u) :: queue u -> ordered (queue u') ->
  inv None u'.
Proof.
  intros I (Er & Ec & Es & Est) Hq Ho.
  assert (own_fds u' ≡ₚ own_fds u) as Hown.
  { unfold own_fds. rewrite Es. simpl. unfold pending_fds. rewrite Hq. simpl. by destruct (0 <=? sockfd_ u). }
  assert (forall f, f ∈ queue u' <-> f = FCleanup (channel_ u) (sockfd_ u) \/ f ∈ queue u) as Hel.
  { intros f. by rewrite Hq, elem_of_cons. }
  assert (forall p, referenced u' p = true <-> referenced u p = true) as Href.
  { intros p. rewrite !referenced_true. rewrite Ec. split.
    - intros [?|(f & Hf & Hc)]; [done|]. apply Hel in Hf as [-> |?]; [by left|right; by exists f].
    - intros [Hc|(f & Hf & Hc)]; right; [|exists f; split; [apply Hel; by right|done]].
      exists (FCleanup (channel_ u) (sockfd_ u)). split; [apply Hel; by left|done]. }
  pose proof I as [Ir Hfr Hn Hk Hfresh Hs Hch Hheld Hcl Hno _].
  split; unfold kernel; rewrite ?Er, ?Ec, ?Es, ?Est; try done.
  - by rewrite Hown.
  - intros fd. rewrite Hown. apply Hk.
  - intros fd. rewrite Hown. apply Hfresh.
  - intros p c Hp Hp0. destruct (Hch p c Hp Hp0) as (Hu & Hc & Hr). split; [done|]. split.
    + destruct Hc as [[[Hc Hfd]|Hc]|(H1' & H2' & H3' & H4' & H5')].
      * left. right. rewrite Hfd. apply Hel. left. by rewrite Hc.
      * left. right. apply Hel. by right.
      * right. split_and!; [by rewrite Ec|done|done|rewrite Hel; by intros [?|?]|].
        intros fd. rewrite Hel. intros [[= ? _]|?]; [congruence|by eapply H5'].
    + destruct Hr as [?|?]; [|done]. left. by apply Href.
  - intros p [Hp|?]; [|done]. apply Hheld. left. by apply Href.
  - intros fd Hf. apply Hel in Hf as [[= E ->]|?]; [|by apply Hno]. rewrite <- E in Hs. lia.
Qed.

(** A channel that left the loop: its descriptor is closed. *)
Lemma inv_close u p c fd q :
  inv None u -> queue u = FCleanup (Some p) fd :: q -> chans (reactor u) !! p = Some c ->
  addedToLoop_ c = false -> events_ c = 0 -> fd = fd_ c -> interest (kernel u) !! fd = None ->
  inv None (set_kernel (set_queue u (q ++ [FKeep p])) (sys_close (kernel u) fd)).
Proof.
  intros I Eq Hp Ha He -> Hint. set (fd := fd_ c) in *. pose proof I as [Ir Hfr Hn Hk Hfresh Hs Hch Hheld Hcl Hno Ho].
  assert (FCleanup (Some p) fd ∈ queue u) as Hq by (rewrite Eq; by left).
  destruct (Hheld p) as [_ Hp0]; [left; apply referenced_true; right; by eexists|].
  destruct (Hch p c Hp Hp0) as ((_ & _ & Hfd) & _). fold fd in Hfd.
  set (A := if 0 <=? sockfd_ u then [sockfd_ u] else []).
  assert (own_fds u = A ++ fd :: pending_fds q) as Eo.
  { unfold own_fds. rewrite Eq. unfold pending_fds. simpl. by rewrite (proj2 (Z.leb_le _ _) Hfd). }
  assert (forall x, own_fds (set_kernel (set_queue u (q ++ [FKeep p])) x) = A ++ pending_fds q) as Eo'.
  { intros x. unfold own_fds. simpl. by rewrite pending_snoc. }
  assert (own_fds u ≡ₚ fd :: (A ++ pending_fds q)) as Hperm by (rewrite Eo; by rewrite Permutation_middle).
  rewrite Hperm in Hn. apply NoDup_cons in Hn as [Hnin Hn].
  rewrite Eq in Ho. destruct Ho as [Hhead Ho]. destruct (Hhead p fd eq_refl) as [Hen Hcl'].
  split; rewrite ?Eo'; simpl; try done.
  - apply reactor_inv_epoll; [done|]. rewrite close_interest. by apply delete_id.
  - intros x. unfold kernel. simpl. rewrite close_fds, elem_of_difference, elem_of_singleton, Hk, Hperm, elem_of_cons.
    assert (fd ∉ kfds (epoll r0)) by (apply Hfresh; rewrite Hperm; by left).
    split; [tauto|]. intros [?|?]; (split; [tauto|congruence]).
  - intros x Hx. apply Hfresh. rewrite Hperm. by right.
  - intros p' c' Hp' Hp0'. destruct (Hch p' c' Hp' Hp0') as (Hu & Hc & Hr). split; [done|].
    destruct (decide (p' = p)) as [-> |Hne].
    + rewrite Hp in Hp'. injection Hp' as <-. split.
      * right. split_and!; simpl; try done; [by apply (Hcl p fd)|by rewrite elem_snoc; intros [?|?]|].
        intros fd'. rewrite elem_snoc. intros [?|?]; [by eapply Hcl'|done].
      * left. apply referenced_true. right. exists (FKeep p). split; [apply elem_snoc; by right|done].
    + split.
      * destruct Hc as [[?|Hc]|(H1' & H2' & H3' & H4' & H5')].
        { left. by left. }
        { left. right. simpl. rewrite Eq in Hc. apply elem_of_cons in Hc as [[= ? _]|?]; [done|]. apply elem_snoc. by left. }
        { right. rewrite Eq in H4', H5'. split_and!; try done; simpl.
          - rewrite elem_snoc. intros [?|?]; [|done]. apply H4'. by right.
          - intros fd'. rewrite elem_snoc. intros [?|?]; [|done]. apply (H5' fd'). by right. }
      * destruct Hr as [Hr|?]; [left|done]. rewrite referenced_true in Hr |- *. destruct Hr as [?|(f & Hf & Hcf)]; [by left|].
        rewrite Eq in Hf. apply elem_of_cons in Hf as [-> |?]; [simpl in Hcf; congruence|].
        right. exists f. split; [apply elem_snoc; by left|done].
  - intros p' [Hr|?]; [|done]. apply Hheld. left. rewrite referenced_true in Hr |- *.
    destruct Hr as [?|(f & Hf & Hcf)]; [by left|]. apply elem_snoc in Hf as [Hf| ->].
    + right. exists f. rewrite Eq. split; [by right|done].
    + right. exists (FCleanup (Some p) fd). split; [done|]. done.
  - intros p' fd'. rewrite elem_snoc. intros [?|?]; [|done]. apply (Hcl p' fd'). rewrite Eq. by right.
  - intros fd'. rewrite elem_snoc. intros [?|?]; [|done]. apply (Hno fd'). rewrite Eq. by right.
  - apply ordered_snoc; [done|]. intros p' [?|[fd' ?]]; done.
Qed.

(** [cleanup] of a functor the loop runs. *)
Lemma cleanup_spec u ch fd q :
  inv None u -> queue u = FCleanup ch fd :: q ->
  let q' := match ch with Some p => q ++ [FKeep p] | None => q end in
  exists r', cleanup (set_queue u q) ch fd = Ok (set_reactor (set_queue u q') r') /\
    inv None (set_reactor (set_queue u q') r') /\
    (forall p, ch <> Some p -> chans r' !! p = chans (reactor u) !! p) /\
    (forall p, is_Some (chans (reactor u) !! p) -> is_Some (chans r' !! p)).
Proof.
  intros I Eq q'. destruct ch as [p|].
  2: { exists (reactor u). pose proof (i_nochan _ _ I fd ltac:(rewrite Eq; by left)) as Hfd.
       unfold cleanup. simpl. rewrite (proj2 (Z.leb_gt _ _) Hfd). split_and!; try done.
       apply (inv_pop u (FCleanup None fd) q I Eq). done. }
  assert (FCleanup (Some p) fd ∈ queue u) as Hq by (rewrite Eq; by left).
  destruct (i_held _ _ I p) as [[c Hp] Hp0]; [left; apply referenced_true; right; by eexists|].
  assert (holds u p (fd_ c) /\ fd = fd_ c) as [Hh Hfd].
  { destruct (i_chan _ _ I p c Hp Hp0) as (_ & [Hh|(_ & _ & _ & _ & Hn)] & _); [|by destruct (Hn fd)].
    split; [done|]. destruct Hh as [[Hc _]|Hh]; [by destruct (i_cleanup _ _ I p fd Hq)|].
    rewrite Eq in Hh. apply elem_of_cons in Hh as [[= ->]|Hh]; [done|].
    pose proof (i_order _ _ I) as Ho. rewrite Eq in Ho. destruct Ho as [Ho _].
    destruct (Ho p fd eq_refl) as [_ Ho']. by destruct (Ho' (fd_ c)). }
  destruct (channel_retire (reactor u) p c (i_reactor _ _ I) Hp) as (r1 & r2 & c2 & E1 & E2 & Ir2 & Ho2 & Hk & Hint & Hp2 & Hs2 & He2 & Ha2).
  { apply (slot None u p c I Hp Hh). destruct (i_chan _ _ I p c Hp Hp0) as ((_ & _ & ?) & _). done. }
  assert (inv None (set_reactor u r2)) as I2 by (by apply (inv_change None u p c c2 r2)).
  pose proof Hs2 as (Hf2 & _). rewrite <- Hfd in Hint.
  pose proof (inv_close (set_reactor u r2) p c2 fd q I2 Eq Hp2 Ha2 He2 ltac:(congruence) Hint) as I3.
  exists (set_epoll r2 (sys_close (epoll r2) fd)). unfold cleanup. simpl. rewrite E1. cbn [mbind res_bind].
  rewrite E2. cbn [mbind res_bind].
  assert ((0 <=? fd) = true) as ->.
  { apply Z.leb_le. destruct (i_chan _ _ I p c Hp Hp0) as ((_ & _ & ?) & _). lia. }
  destruct Ho2 as (Ho2 & _). split_and!; [done|apply I3| |].
  - intros p' Hne. simpl. apply Ho2. congruence.
  - intros p' Hl. simpl. destruct (decide (p' = p)) as [-> |Hne]; [by eauto|]. by rewrite Ho2.
Qed.

(** [cleanupUdpSocket] of what the socket gave up. *)
Lemma give_up_spec (inLoop : bool) u u2 :
  inv None u -> gave_up u u2 -> queue u2 = queue u ->
  (inLoop = true -> forall p, channel_ u = Some p -> (FEnable p ∉ queue u)) ->
  exists u3, (u3' ← cleanupUdpSocket inLoop u2 (channel_ u) (sockfd_ u); release u3' (channel_ u)) = Ok u3 /\
    inv None u3 /\ channel_ u3 = None /\ callbackToken_ u3 = callbackToken_ u2 /\
    sockfd_ u3 = -1 /\ family_ u3 = family_ u2 /\
    (forall p, is_Some (chans (reactor u) !! p) -> is_Some (chans (reactor u3) !! p)) /\
    queue u3 = queue u ++ (if inLoop then match channel_ u with Some p => [FKeep p] | None => [] end
                           else [FCleanup (channel_ u) (sockfd_ u)]).
Proof.
  intros I Hg Eq Hen. pose proof Hg as (Er & Ec & Es & Est). set (ch := channel_ u) in *. set (fd := sockfd_ u) in *.
  assert (forall u3', inv None u3' -> channel_ u3' = None -> (forall p, ch = Some p -> referenced u3' p = true) ->
            release u3' ch = Ok u3') as Hrel.
  { intros u3' _ _ Hr. destruct ch as [p|]; [|done]. simpl. by rewrite Hr. }
  destruct inLoop.
  - assert (inv None (set_queue u2 (FCleanup ch fd :: queue u))) as I1.
    { apply (inv_retire u); [done|done|done|]. split; [|apply I]. intros p fd' [= E <-]. split; [by apply Hen|].
      intros fd' Hq. by destruct (i_cleanup _ _ I p fd' Hq). }
    destruct (cleanup_spec _ ch fd (queue u) I1 eq_refl) as (r' & E & I' & _ & Hl).
    assert (set_queue (set_queue u2 (FCleanup ch fd :: queue u)) (queue u) = u2) as E2 by (rewrite <- Eq; by destruct u2).
    rewrite E2 in E. unfold cleanupUdpSocket. rewrite E. cbn [mbind res_bind]. rewrite Hrel; [|done|done|].
    2: { intros p ->. apply referenced_true. right. exists (FKeep p). split; [simpl; apply elem_snoc; by right|done]. }
    eexists. split; [done|]. split_and!; try done; simpl.
    + simpl in Hl. rewrite Er in Hl. done.
    + destruct ch; [done|]. by rewrite app_nil_r.
  - unfold cleanupUdpSocket. cbn [mbind res_bind].
    assert (inv None (queueInLoop u2 (FCleanup ch fd))) as I1.
    { apply (inv_retire u); [done|done|simpl; rewrite Eq; by rewrite Permutation_app_comm|]. simpl. rewrite Eq.
      apply ordered_snoc; [apply I|]. intros p [?|[fd' [= E <-]]] fd''; [done|]. intros Hq. by destruct (i_cleanup _ _ I p fd'' Hq). }
    rewrite Hrel; [|done|done|].
    2: { intros p ->. apply referenced_true. right. exists (FCleanup (Some p) fd). split; [simpl; apply elem_snoc; by right|done]. }
    eexists. split; [done|]. split_and!; try done; simpl; [by rewrite Er|by rewrite Eq].
Qed.

(** *** Whether the channel will be reading once the functors have run *)
Definition reading_after (q : list functor) p (b : bool) : bool :=
  foldl (fun b f => match f with
                    | FEnable p' => if bool_decide (p' = p) then true else b
                    | FDisable p' => if bool_decide (p' = p) then false else b
                    | _ => b
                    end) b q.

Definition reads u : Prop := forall p c, channel_ u = Some p -> chans (reactor u) !! p = Some c ->
  reading_after (queue u) p (isReading c) = is_state u kReceiving.

(** No start or stop is on its way. *)
Definition quiet u : Prop := forall p, channel_ u = Some p -> (FEnable p ∉ queue u) /\ (FDisable p ∉ queue u).

Lemma reading_snoc q f p b :
  reading_after (q ++ [f]) p b =
  match f with
  | FEnable p' => if bool_decide (p' = p) then true else reading_after q p b
  | FDisable p' => if bool_decide (p' = p) then false else reading_after q p b
  | _ => reading_after q p b
  end.
Proof. unfold reading_after. by rewrite foldl_app. Qed.

Lemma reading_quiet q p b : (FEnable p ∉ q) -> (FDisable p ∉ q) -> reading_after q p b = b.
Proof.
  induction q as [|f q IH] using rev_ind; [done|]. intros He Hd. rewrite elem_snoc in He, Hd.
  rewrite reading_snoc, IH by tauto. destruct f; repeat case_bool_decide; subst; tauto.
Qed.

Lemma changed_reading p c r r' ch c' :
  reactor_inv r -> chans r !! p = Some c -> changed p c (change_events ch (events_ c)) r r' -> chans r' !! p = Some c' ->
  match ch with EnableReading => isReading c' = true | DisableReading => isReading c' = false | _ => True end.
Proof.
  intros I Hp (_ & c1 & Hp1 & He & _) Hp'. rewrite Hp' in Hp1. injection Hp1 as ->. unfold isReading. rewrite He.
  destruct (ri_chan _ I _ _ Hp) as [Hm _]. pose proof (change_events_bits ch _ Hm) as Hb. by destruct ch; simpl in Hb; destruct Hb.
Qed.

Lemma disable_spec X u p c :
  inv X u -> chans (reactor u) !! p = Some c -> chans r0 !! p = None ->
  exists r', channel_change (reactor u) p DisableReading = Ok r' /\ inv X (set_reactor u r') /\
    changed p c (change_events DisableReading (events_ c)) (reactor u) r'.
Proof.
  intros I Hp Hp0. destruct (i_chan _ _ I p c Hp Hp0) as (_ & [Hh|Hret] & _); [by apply (change_spec X u)|].
  pose proof Hret as (_ & Ha & He & _).
  pose proof (channel_change_spec (reactor u) p c DisableReading (i_reactor _ _ I) Hp) as Hs. rewrite He in Hs |- *.
  set (c' := set_events c 0).
  assert (channel_change (reactor u) p DisableReading = Ok (set_chan (reactor u) p c')) as E.
  { unfold channel_change. rewrite Hp. cbn [deref mbind res_bind]. unfold channel_update. simpl.
    rewrite lookup_insert_eq. cbn [deref mbind res_bind]. rewrite He. simpl. by rewrite Ha. }
  rewrite E in Hs |- *. destruct Hs as [Ir Hc]; [by do 2 right|]. eexists. split; [done|]. split; [|done].
  destruct Hc as (Ho & c1 & Hp1 & _ & Hsame). simpl in Hp1. rewrite lookup_insert_eq in Hp1. injection Hp1 as <-.
  apply (inv_change X u p c c'); try done. apply lookup_insert_eq.
Qed.

(** Only the channel of [p] changed, and the queue went on. *)
Lemma reads_release X u r' :
  inv X u -> (forall p, referenced u p = true \/ X <> Some p -> chans r' !! p = chans (reactor u) !! p) ->
  reads u -> reads (set_reactor u r').
Proof.
  intros I Hsame Hr p c Hc Hp. simpl in *. rewrite Hsame in Hp; [by apply (Hr p c)|]. left. apply referenced_true. by left.
Qed.

Lemma reads_change u p c r' ch f q :
  inv None u -> queue u = f :: q -> chans (reactor u) !! p = Some c ->
  changed p c (change_events ch (events_ c)) (reactor u) r' ->
  (f = FEnable p /\ ch = EnableReading) \/ (f = FDisable p /\ ch = DisableReading) ->
  reads u -> reads (set_reactor (set_queue u q) r').
Proof.
  intros I Eq Hp Hch Hf Hr p' c' Hc Hp'. simpl in Hc, Hp'. change (is_state _ kReceiving) with (is_state u kReceiving).
  pose proof Hch as ((Hoth & _) & _). destruct (decide (p' = p)) as [-> |Hne].
  - rewrite <- (Hr p c Hc Hp). rewrite Eq. simpl. unfold reading_after. simpl.
    pose proof (changed_reading _ _ _ _ _ _ (i_reactor _ _ I) Hp Hch Hp') as Hb.
    destruct Hf as [[-> ->]|[-> ->]]; rewrite Hb; by rewrite bool_decide_eq_true_2.
  - rewrite Hoth in Hp' by done. rewrite <- (Hr p' c' Hc Hp'). rewrite Eq. simpl. unfold reading_after. simpl.
    destruct Hf as [[-> _]|[-> _]]; by rewrite bool_decide_eq_false_2 by congruence.
Qed.

Lemma run_functor_spec u :
  inv None u -> exists u', run_functor u = Ok u' /\ inv None u' /\ callbackToken_ u' = callbackToken_ u /\
    (reads u -> reads u').
Proof.
  intros I. unfold run_functor. destruct (queue u) as [|f q] eqn:Eq; [by exists u|].
  assert (f ∈ queue u) as Hf by (rewrite Eq; by left).
  assert (forall p, captured f = Some p -> exists c, chans (reactor u) !! p = Some c /\ chans r0 !! p = None) as Hlive.
  { intros p Hc. destruct (i_held _ _ I p) as [[c Hp] ?]; [left; apply referenced_true; right; by exists f|]. by exists c. }
  destruct f as [p|p|ch fd|p]; simpl captured; cbn [call].
  - destruct (Hlive p eq_refl) as (c & Hp & Hp0). pose proof (inv_pop u (FEnable p) q I Eq ltac:(done)) as I1.
    destruct (change_spec (Some p) (set_queue u q) p c EnableReading I1 Hp Hp0) as (r' & E & I2 & Hch).
    { destruct (i_chan _ _ I p c Hp Hp0) as (_ & [[?|Hh]|(_ & _ & _ & ? & _)] & _); [by left| |done].
      right. rewrite Eq in Hh. by apply elem_of_cons in Hh as [?|?]. }
    change (reactor (set_queue u q)) with (reactor u) in E, Hch. simpl reactor. rewrite E. cbn [mbind res_bind].
    destruct (release_spec (Some p) _ I2) as (r2 & E2 & I3 & _ & Hsame). rewrite E2. eexists. split_and!; try done.
    intros Hr. apply (reads_release (Some p) _ r2 I2 Hsame). apply (reads_change u p c r' EnableReading (FEnable p)); try done. by left.
  - destruct (Hlive p eq_refl) as (c & Hp & Hp0). pose proof (inv_pop u (FDisable p) q I Eq ltac:(done)) as I1.
    destruct (disable_spec (Some p) (set_queue u q) p c I1 Hp Hp0) as (r' & E & I2 & Hch).
    change (reactor (set_queue u q)) with (reactor u) in E, Hch. simpl reactor. rewrite E. cbn [mbind res_bind].
    destruct (release_spec (Some p) _ I2) as (r2 & E2 & I3 & _ & Hsame). rewrite E2. eexists. split_and!; try done.
    intros Hr. apply (reads_release (Some p) _ r2 I2 Hsame). apply (reads_change u p c r' DisableReading (FDisable p)); try done. by right.
  - destruct (cleanup_spec u ch fd q I Eq) as (r' & E & I1 & Hsame & _). rewrite E. cbn [mbind res_bind].
    assert (release (set_reactor (set_queue u match ch with Some p => q ++ [FKeep p] | None => q end) r') ch =
            Ok (set_reactor (set_queue u match ch with Some p => q ++ [FKeep p] | None => q end) r')) as ->.
    { destruct ch as [p|]; [|done]. simpl. rewrite (proj2 (referenced_true _ p)); [done|]. right. exists (FKeep p).
      split; [simpl; apply elem_snoc; by right|done]. }
    eexists. split_and!; try done. intros Hr p c Hc Hp. simpl in Hc, Hp.
    assert (ch <> Some p) as Hne by (intros ->; by apply (i_cleanup _ _ I p fd)).
    rewrite Hsame in Hp by done. change (is_state _ kReceiving) with (is_state u kReceiving).
    rewrite <- (Hr p c Hc Hp), Eq. simpl. destruct ch as [p'|]; [by rewrite reading_snoc|done].
  - pose proof (inv_pop u (FKeep p) q I Eq ltac:(done)) as I1. cbn [mbind res_bind].
    destruct (release_spec (Some p) _ I1) as (r2 & E2 & I3 & _ & Hsame). rewrite E2. eexists. split_and!; try done.
    intros Hr. apply (reads_release (Some p) _ r2 I1 Hsame). intros p' c' Hc Hp'.
    change (is_state _ kReceiving) with (is_state u kReceiving). rewrite <- (Hr p' c' Hc Hp'). by rewrite Eq.
Qed.

(** *** The members

    What a call leaves behind: [touch] says that it starts or stops receiving. *)
Record step_ok (inLoop touch : bool) u u' : Prop := mkStep {
  so_inv : inv None u';
  so_token : callbackToken_ u' = callbackToken_ u;
  so_live p : is_Some (chans (reactor u) !! p) -> is_Some (chans (reactor u') !! p);
  so_quiet : inLoop = true -> quiet u -> quiet u';
  so_reads : (inLoop = true -> touch = true -> quiet u) -> reads u -> reads u'
}.

Lemma step_refl b t u : inv None u -> step_ok b t u u.
Proof. by split. Qed.

Lemma step_trans b t u1 u2 u3 : step_ok b t u1 u2 -> step_ok b t u2 u3 -> step_ok b t u1 u3.
Proof.
  intros [I1 T1 L1 Q1 R1] [I2 T2 L2 Q2 R2]. split; [done|congruence|auto|auto|].
  intros Hq Hr. apply R2; [|by apply R1]. intros Hb Ht. apply Q1; auto.
Qed.

Lemma step_weaken b u u' : step_ok b false u u' -> step_ok b true u u'.
Proof.
  intros [I T L Q R]. split; try done. intros Hq Hr. by apply R.
Qed.

(** Fields the invariant does not look at. *)
Definition same_fields u u' : Prop :=
  reactor u' = reactor u /\ queue u' = queue u /\ channel_ u' = channel_ u /\ sockfd_ u' = sockfd_ u /\
  callbackToken_ u' = callbackToken_ u.

Lemma inv_same_fields X u u' :
  inv X u -> same_fields u u' -> (state_ u' = kClosed <-> state_ u = kClosed) -> inv X u'.
Proof.
  intros [? ? Hn Hk Hf Hs Hch Hh Hcl Hno Ho] (Er & Eq & Ec & Es & Et) Est.
  assert (own_fds u' = own_fds u) as Eo by (unfold own_fds; by rewrite Es, Eq).
  assert (forall p, referenced u' p = referenced u p) as Eref by (intros p; unfold referenced; by rewrite Ec, Eq).
  split; unfold kernel; rewrite ?Er, ?Eo, ?Eq, ?Ec, ?Es, ?Et; try done.
  - destruct (channel_ u); naive_solver.
  - intros p c Hp Hp0. specialize (Hch p c Hp Hp0). unfold chan_inv, holds, retired in *. by rewrite Eref, Ec, Es, Eq.
  - intros p. rewrite Eref. apply Hh.
Qed.

Lemma step_fields b t u u' :
  inv None u -> same_fields u u' -> (state_ u' = kClosed <-> state_ u = kClosed) ->
  (state_ u' = kReceiving <-> state_ u = kReceiving) -> step_ok b t u u'.
Proof.
  intros I Hs Hst Hrec. pose proof Hs as (Er & Eq & Ec & _ & Et). split; try done.
  - by apply (inv_same_fields None u).
  - by rewrite Er.
  - intros _ Hq p. rewrite Ec, Eq. apply Hq.
  - intros _ Hr p c. rewrite Ec, Er, Eq. intros H1' H2'. rewrite (Hr p c H1' H2'). by apply bool_decide_ext.
Qed.

(** A start or a stop reaches the channel. *)
Lemma runInLoop_spec (inLoop : bool) u p f :
  inv None u -> channel_ u = Some p ->
  (f = FEnable p /\ state_ u = kReceiving) \/ (f = FDisable p /\ state_ u <> kReceiving) ->
  exists u', runInLoop inLoop u f = Ok u' /\ step_ok inLoop true u u' /\ ((inLoop = true -> quiet u) -> reads u') /\
    state_ u' = state_ u /\ sockfd_ u' = sockfd_ u /\ channel_ u' = channel_ u /\ family_ u' = family_ u /\ kfds (kernel u') = kfds (kernel u).
Proof.
  intros I Hc Hf. destruct (i_held _ _ I p) as [[c Hp] Hp0]; [left; apply referenced_true; by left|].
  assert (holds u p (fd_ c)) as Hh.
  { destruct (i_chan _ _ I p c Hp Hp0) as (_ & [?|(? & _)] & _); done. }
  destruct inLoop.
  - assert (exists ch r', call u f = Ok (set_reactor u r') /\ inv None (set_reactor u r') /\
      changed p c (change_events ch (events_ c)) (reactor u) r' /\ kfds (epoll r') = kfds (kernel u) /\
      (f = FEnable p /\ ch = EnableReading /\ state_ u = kReceiving \/ f = FDisable p /\ ch = DisableReading /\ state_ u <> kReceiving))
      as (ch & r' & E & I' & Hch & Hk & Hcase).
    { destruct Hf as [[-> Hs]|[-> Hs]]; cbn [call].
      - destruct (change_spec None u p c EnableReading I Hp Hp0 Hh) as (r' & E & I' & Hch). rewrite E.
        exists EnableReading, r'. split_and!; try done; [by apply channel_change_fds in E|tauto].
      - destruct (change_spec None u p c DisableReading I Hp Hp0 Hh) as (r' & E & I' & Hch). rewrite E.
        exists DisableReading, r'. split_and!; try done; [by apply channel_change_fds in E|tauto]. }
    cbn [runInLoop]. rewrite E. eexists. split; [done|].
    assert (quiet u -> reads (set_reactor u r')) as Hreads.
    { intros Hq p' c' Hc' Hp'. simpl in Hc', Hp'. assert (p' = p) as -> by congruence. simpl queue.
      destruct (Hq p Hc). rewrite reading_quiet by done. change (is_state _ kReceiving) with (is_state u kReceiving).
      pose proof (changed_reading _ _ _ _ _ _ (i_reactor _ _ I) Hp Hch Hp') as Hb. unfold is_state.
      destruct Hcase as [(_ & -> & Hs)|(_ & -> & Hs)]; rewrite Hb; case_bool_decide; done. }
    destruct Hch as ((Hoth & Hsome & _) & _). split_and!; try done; [|auto].
    split; try done; [|auto]. intros q Hq. simpl. destruct (decide (q = p)) as [-> |]; [done|by rewrite Hoth].
  - cbn [runInLoop]. eexists. split; [done|].
    assert (reads (queueInLoop u f)) as Hreads.
    { intros p' c' Hc' Hp'. simpl in Hc', Hp'. assert (p' = p) as -> by congruence. simpl queue. rewrite reading_snoc.
      change (is_state _ kReceiving) with (is_state u kReceiving). unfold is_state.
      destruct Hf as [[-> Hs]|[-> Hs]]; rewrite bool_decide_eq_true_2 by done; case_bool_decide; done. }
    split_and!; try done. split; try done. apply inv_enqueue; [done|].
    destruct Hf as [[-> _]|[-> _]]; [done|]. left. apply referenced_true. by left.
Qed.

(** What the kernel and the allocator give is fresh. *)
Definition fresh u (sock : sys_fd) p : Prop :=
  match sock with inl fd => 0 <= fd /\ (fd ∉ kfds (kernel u)) | inr _ => True end /\ chans (reactor u) !! p = None.

Lemma fresh_not_captured u p : inv None u -> chans (reactor u) !! p = None -> forall f, f ∈ queue u -> captured f <> Some p.
Proof.
  intros I Hp f Hf Hc. destruct (i_held _ _ I p) as [[c Hc'] _]; [|congruence].
  left. apply referenced_true. right. by exists f.
Qed.

Lemma open_socket_inv u fam fd p :
  inv None u -> callbackToken_ u = true -> sockfd_ u < 0 -> fresh u (inl fd) p -> inv None (open_socket u fam (inl fd) p).2.
Proof.
  intros I Ht Hs [[Hfd Hnew] Hp]. unfold open_socket. cbn [createNonblockingUdp]. rewrite (proj2 (Z.ltb_ge _ _) Hfd). simpl snd.
  set (u1 := set_reactor _ _). pose proof I as [Ir Hfr Hn Hk Hf Hsk Hch Hheld Hcl Hno Ho].
  pose proof (fresh_not_captured u p I Hp) as Hcap.
  assert (channel_ u = None) as Hc by (destruct (channel_ u); [lia|done]).
  assert (own_fds u1 = fd :: own_fds u) as Eo.
  { unfold own_fds. simpl. rewrite (proj2 (Z.leb_le _ _) Hfd), (proj2 (Z.leb_gt _ _) Hs). done. }
  assert (fd ∉ own_fds u) as Hnown by (intros ?; apply Hnew, Hk; by left).
  assert (forall q, referenced u q = true -> referenced u1 q = true) as Hmono.
  { intros q. rewrite !referenced_true, Hc. intros [?|?]; [done|by right]. }
  split; rewrite ?Eo; simpl; try done.
  - pose proof (do_rop_spec (set_epoll (reactor u) (sys_open (kernel u) fd)) (RNew p fd true false false false)) as Hr.
    simpl in Hr. destruct Hr as [Hr _]; [|done|done]. by apply reactor_inv_epoll; [|by apply open_interest].
  - intros q Hq. rewrite lookup_insert_ne; [by apply Hfr|]. intros <-. rewrite <- (Hfr p Hq), Hp in Hq. by destruct Hq.
  - by apply NoDup_cons.
  - intros x. unfold kernel. simpl. rewrite open_fds, elem_of_union, elem_of_singleton, elem_of_cons.
    change (epoll (reactor u)) with (kernel u). rewrite Hk. tauto.
  - intros x [-> |?]%elem_of_cons; [|by apply Hf]. intros ?. apply Hnew, Hk. by right.
  - intros q c. rewrite lookup_insert. case_decide as E; [subst q|].
    + intros [= <-] _. split_and!; try done. left. by left. left. apply referenced_true. by left.
    + intros Hq Hq0. destruct (Hch q c Hq Hq0) as (Hu & Hcs & [Hr|?]); [|done]. split; [done|]. split; [|left; by apply Hmono].
      destruct Hcs as [[[? _]|?]|(_ & H2' & H3' & H4' & H5')]; [congruence|left; by right|right].
      split_and!; try done. simpl. congruence.
  - intros q [Hq|?]; [|done]. rewrite referenced_true in Hq. destruct Hq as [[= <-]|(f & Hf' & Hcf)].
    + rewrite lookup_insert_eq. split; [done|]. destruct (chans r0 !! p) eqn:Hp0; [|done].
      rewrite (Hfr p) in Hp by eauto. congruence.
    + destruct (Hheld q) as [? ?]; [left; apply referenced_true; right; by exists f|]. split; [|done].
      rewrite lookup_insert. by case_decide.
  - intros q fd' Hq [= <-]. by apply (Hcap _ Hq).
Qed.

(** The socket is open, with a channel of its own that no functor knows. *)
Definition opened_socket u u1 fam fd p : Prop :=
  channel_ u1 = Some p /\ sockfd_ u1 = fd /\ family_ u1 = fam /\ state_ u1 = kOpened /\ queue u1 = queue u /\
  kfds (kernel u1) = {[fd]} ∪ kfds (kernel u) /\ chans (reactor u) !! p = None.

Lemma open_socket_spec b u fam sock p :
  inv None u -> callbackToken_ u = true -> sockfd_ u < 0 -> fresh u sock p ->
  let '(ok, u1) := open_socket u fam sock p in
  step_ok b false u u1 /\
  if ok then exists fd, sock = inl fd /\ opened_socket u u1 fam fd p else u1 = u.
Proof.
  intros I Ht Hs Hf. pose proof Hf as [Hsock Hp]. destruct sock as [fd|e].
  - pose proof (open_socket_inv u fam fd p I Ht Hs Hf) as I1. pose proof (fresh_not_captured u p I Hp) as Hcap.
    destruct Hsock as [Hfd _]. unfold open_socket in *. cbn [createNonblockingUdp] in *.
    rewrite (proj2 (Z.ltb_ge _ _) Hfd) in *. simpl snd in I1.
    assert (quiet (set_reactor (set_socket u fam fd kOpened (Some p)) (set_chan (set_epoll (reactor u)
      (sys_open (kernel u) fd)) p (set_callbacks (Channel_new fd) true false false false)))) as Hq.
    { intros q [= <-]. by split; intros Hq; apply (Hcap _ Hq). }
    split; [|exists fd; split; [done|]; split_and!; try done; unfold kernel; simpl; apply open_fds].
    split; try done.
    + intros q Hl. simpl. rewrite lookup_insert. by case_decide.
    + intros _ _ q c Hc Hq'. destruct (Hq q Hc). rewrite reading_quiet by done.
      simpl in Hc, Hq'. injection Hc as <-. rewrite lookup_insert_eq in Hq'. by injection Hq' as <-.
  - assert (u = set_socket u (family_ u) (-1) (state_ u) (channel_ u)) as Eu.
    { pose proof (i_socket _ _ I) as Hsk. assert (sockfd_ u = -1) as E by (destruct (channel_ u); lia). destruct u. simpl in *. by rewrite E. }
    unfold open_socket. cbn [createNonblockingUdp]. change (-1 <? 0) with true. cbv iota. rewrite <- Eu. split; [by apply step_refl|done].
Qed.

(** [ensureSocket]: an open socket keeps its family. *)
Lemma ensureSocket_spec b u fam sock p :
  inv None u -> callbackToken_ u = true -> (sockfd_ u < 0 -> fresh u sock p) ->
  let '(ok, u1) := ensureSocket u fam sock p in
  step_ok b false u u1 /\
  (if ok then family_ u1 = fam /\ 0 <= sockfd_ u1 /\
      (u1 = u \/ sockfd_ u < 0 /\ exists fd, sock = inl fd /\ opened_socket u u1 fam fd p)
   else u1 = u \/ u1 = set_errno u EAFNOSUPPORT /\ 0 <= sockfd_ u /\ family_ u <> fam).
Proof.
  intros I Ht Hf. unfold ensureSocket. destruct (Z.leb_spec 0 (sockfd_ u)) as [Hs|Hs].
  - destruct (Z.eqb_spec (family_ u) fam) as [E|E]; simpl; cbn [negb]; cbv iota.
    + split; [by apply step_refl|]. split_and!; try done. by left.
    + split; [by apply step_fields|]. by right.
  - pose proof (open_socket_spec b u fam sock p I Ht Hs (Hf Hs)) as Ho. pose proof (Hf Hs) as [Hsock _].
    destruct (open_socket u fam sock p) as [[] u1]; destruct Ho as [Hstep Ho]; (split; [done|]); [|by left].
    destruct Ho as (fd & -> & Hop). pose proof Hop as (_ & Efd & Efam & _). split_and!; [done|lia|right; by eauto].
Qed.

(** The socket was closed, and is closed again. *)
Definition bind_undone (inLoop : bool) u u' : Prop :=
  sockfd_ u < 0 /\ sockfd_ u' = -1 /\ state_ u' = kClosed /\ channel_ u' = None /\ family_ u' = AF_UNSPEC /\
  exists p fd, queue u' = queue u ++ [if inLoop then FKeep p else FCleanup (Some p) fd].

Lemma bind_spec (inLoop : bool) u addr sock p bound :
  inv None u -> callbackToken_ u = true -> (sockfd_ u < 0 -> fresh u sock p) ->
  exists ok u', bind inLoop u addr sock p bound = Ok (ok, u') /\ step_ok inLoop false u u' /\
    if ok then family_ u' = family addr /\ 0 <= sockfd_ u' /\ sock_bind bound = true /\
               state_ u' = (if is_state u kReceiving then kReceiving else kBound) /\ (0 <= sockfd_ u -> sockfd_ u' = sockfd_ u)
    else u' = u \/ u' = set_errno u EAFNOSUPPORT /\ family_ u <> family addr \/ bind_undone inLoop u u'.
Proof.
  intros I Ht Hf. pose proof (ensureSocket_spec inLoop u (family addr) sock p I Ht Hf) as He. unfold bind.
  destruct (ensureSocket u (family addr) sock p) as [ok u1]. destruct He as [Hstep Hcase].
  destruct ok; cbn [negb]; cbv iota.
  2: { exists false, u1. split_and!; try done. destruct Hcase as [->|(-> & ? & ?)]; [by left|right; by left]. }
  destruct Hcase as (Hfam & Hfd & Hcase). pose proof (so_inv _ _ _ _ Hstep) as I1. pose proof (so_token _ _ _ _ Hstep) as T1.
  destruct (sock_bind bound) eqn:Eb; cbn [negb]; cbv iota.
  - exists true. eexists. split; [done|].
    assert (is_state u1 kReceiving = is_state u kReceiving) as Erec.
    { destruct Hcase as [->|(Hs & fd & _ & _ & _ & _ & Est & _)]; [done|]. unfold is_state. rewrite Est.
      pose proof (i_socket _ _ I) as Hsk. destruct (channel_ u); [lia|]. destruct Hsk as [_ ->]. done. }
    assert (0 <= sockfd_ u -> sockfd_ u1 = sockfd_ u) as Hsame by (destruct Hcase as [->|[? _]]; [done|lia]).
    rewrite Erec. destruct (is_state u kReceiving) eqn:Er; cbn [negb]; cbv iota; split_and!; try done.
    + apply bool_decide_eq_true in Erec. done.
    + apply (step_trans _ _ _ u1); [done|]. apply step_fields; [done|done| |]; simpl.
      * pose proof (i_socket _ _ I1) as Hsk. destruct (channel_ u1); [|lia]. naive_solver.
      * apply bool_decide_eq_false in Erec. naive_solver.
  - destruct (Z.ltb_spec (sockfd_ u) 0) as [Hs|Hs].
    2: { exists false, u1. split_and!; try done. destruct Hcase as [->|[? _]]; [by left|lia]. }
    destruct Hcase as [->|(_ & fd & -> & Hop)]; [lia|]. destruct Hop as (Ec & Efd & _ & _ & Eq & _ & Hp).
    destruct (give_up_spec inLoop u1 (set_socket u1 AF_UNSPEC (-1) kClosed None) I1) as (u3 & E & I3 & Ec3 & T3 & Es3 & Ef3 & L3 & Eq3); [done|done| |].
    { intros _ q Hq. rewrite Eq. assert (q = p) as -> by congruence. intros Hin. by apply (fresh_not_captured u p I Hp _ Hin). }
    exists false, u3.
    assert (bind_undone inLoop u u3) as Hun.
    { split_and!; try done. { pose proof (i_socket _ _ I3) as Hsk. rewrite Ec3 in Hsk. by destruct Hsk. }
      exists p, fd. rewrite Eq3, Ec, Eq, Efd. by destruct inLoop. }
    split_and!; [| |by do 2 right].
    + destruct (cleanupUdpSocket _ _ _ _) as [u2|f]; cbn [mbind res_bind] in *; [|done].
      by rewrite E.
    + split; try done.
      * rewrite T3. simpl. done.
      * intros q Hq. apply L3. by apply (so_live _ _ _ _ Hstep).
      * intros _ _ q Hq. by rewrite Ec3 in Hq.
      * intros _ _ q c Hq. by rewrite Ec3 in Hq.
Qed.

Lemma startReceive_spec (inLoop : bool) u :
  inv None u ->
  exists u', startReceive inLoop u = Ok (isBound u, u') /\ step_ok inLoop true u u' /\
    if isBound u then state_ u' = kReceiving /\ sockfd_ u' = sockfd_ u /\ family_ u' = family_ u else u' = set_errno u EINVAL.
Proof.
  intros I. unfold startReceive. pose proof (i_socket _ _ I) as Hsk. destruct (channel_ u) as [p|] eqn:Hc.
  - destruct (isBound u) eqn:Hb; cbn [negb]; cbv iota.
    2: { eexists. split_and!; [done|by apply step_fields|done]. }
    unfold is_state. case_bool_decide as Hst.
    { exists u. split; [done|]. split; [by apply step_refl|done]. }
    assert (inv None (set_state u kReceiving)) as I1.
    { apply (inv_same_fields None u); [done|done|]. simpl. naive_solver. }
    destruct (runInLoop_spec inLoop (set_state u kReceiving) p (FEnable p) I1 Hc ltac:(by left))
      as (u' & E & [I' T' L' Q' _] & R' & S' & F' & _ & Fam' & _). rewrite E. cbn [mbind res_bind].
    exists u'. split_and!; try done. split; try done. intros Hq _. apply R'. intros ?. by apply Hq.
  - destruct Hsk as [_ Hst]. assert (isBound u = false) as Hb by (unfold isBound, is_state; by rewrite Hst). rewrite Hb.
    eexists. split_and!; [done|by apply step_fields|done].
Qed.

Lemma stopReceive_spec (inLoop : bool) u :
  inv None u -> exists u', stopReceive inLoop u = Ok u' /\ step_ok inLoop true u u' /\ state_ u' <> kReceiving /\
    (state_ u <> kReceiving -> state_ u' = state_ u) /\ (state_ u = kReceiving -> state_ u' = kBound) /\ sockfd_ u' = sockfd_ u.
Proof.
  intros I. unfold stopReceive. pose proof (i_socket _ _ I) as Hsk. destruct (channel_ u) as [p|] eqn:Hc.
  - set (u1 := if is_state u kReceiving then set_state u kBound else u).
    assert (inv None u1 /\ state_ u1 <> kReceiving /\ channel_ u1 = Some p /\ callbackToken_ u1 = callbackToken_ u /\
            reactor u1 = reactor u /\ queue u1 = queue u /\ sockfd_ u1 = sockfd_ u /\
            (state_ u <> kReceiving -> state_ u1 = state_ u) /\ (state_ u = kReceiving -> state_ u1 = kBound))
      as (I1 & Hst & Hc1 & T1 & Er & Eq & Es & Hs1 & Hs2).
    { unfold u1, is_state. case_bool_decide as E; [|done]. split_and!; try done.
      apply (inv_same_fields None u); [done|done|]. simpl. naive_solver. }
    destruct (runInLoop_spec inLoop u1 p (FDisable p) I1 Hc1 ltac:(by right)) as (u' & E & [I' T' L' Q' _] & R' & S' & F' & _).
    exists u'. split; [done|]. unfold quiet in *. rewrite Er, Eq in *. rewrite S', F'. split_and!; try done. rewrite Hc1, <- Hc in *.
    split; try done; [congruence|]. intros Hq _. apply R'. intros ?. by apply Hq.
  - destruct Hsk as [_ Hst]. exists u. rewrite Hst. split_and!; try done.
Qed.

Lemma sendTo_spec b u data dest sock p ans :
  inv None u -> callbackToken_ u = true -> (sockfd_ u < 0 -> fresh u sock p) ->
  step_ok b false u (sendTo u data dest sock p ans).2.
Proof.
  intros I Ht Hf. pose proof (ensureSocket_spec b u (family dest) sock p I Ht Hf) as He. unfold sendTo.
  destruct (ensureSocket u (family dest) sock p) as [[] u1]; destruct He as [Hstep _]; [|done].
  apply (step_trans _ _ _ u1); [done|]. apply step_fields; try done. apply Hstep.
Qed.

(** *** Calls and events *)
Definition call_ok u (c : ucall) : Prop :=
  match c with
  | UOpen _ sock p | UBind _ sock p _ | UBindAndStart _ sock p _ | USendTo _ _ sock p _ => sockfd_ u < 0 -> fresh u sock p
  | _ => True
  end.

Fixpoint calls_ok (inLoop : bool) u (cs : list ucall) : Prop :=
  match cs with
  | [] => True
  | c :: cs' => call_ok u c /\ forall u', run_call inLoop u c = Ok u' -> calls_ok inLoop u' cs'
  end.

Definition touches (c : ucall) : bool :=
  match c with UStart | UStop | UBindAndStart _ _ _ _ => true | _ => false end.

Lemma run_call_spec b u c :
  inv None u -> callbackToken_ u = true -> call_ok u c ->
  exists u', run_call b u c = Ok u' /\ step_ok b (touches c) u u'.
Proof.
  intros I Ht Hok. destruct c as [fam sock p|addr sock p bound|addr sock p bound| | |data dest sock p ans|cb]; cbn [run_call touches call_ok] in *.
  - pose proof (ensureSocket_spec b u fam sock p I Ht Hok) as He. unfold open. destruct (ensureSocket u fam sock p) as [ok u1].
    exists u1. split; [done|]. by destruct He.
  - destruct (bind_spec b u addr sock p bound I Ht Hok) as (ok & u' & -> & ? & _). by exists u'.
  - destruct (bind_spec b u addr sock p bound I Ht Hok) as (ok & u1 & E & Hstep & _). unfold bindAndStart. rewrite E.
    cbn [mbind res_bind]. apply step_weaken in Hstep. destruct ok; cbn [negb]; cbv iota; [|by exists u1].
    destruct (startReceive_spec b u1 (so_inv _ _ _ _ Hstep)) as (u2 & E2 & Hstep2 & _). rewrite E2. cbn [mbind res_bind].
    exists u2. split; [done|]. by apply (step_trans _ _ _ u1).
  - destruct (startReceive_spec b u I) as (u' & -> & ? & _). by exists u'.
  - destruct (stopReceive_spec b u I) as (u' & E & ? & _). by exists u'.
  - eexists. split; [done|]. by apply sendTo_spec.
  - eexists. split; [done|]. by apply step_fields.
Qed.

Lemma run_calls_spec b u cs :
  inv None u -> callbackToken_ u = true -> calls_ok b u cs ->
  exists u', run_calls b u cs = Ok u' /\ step_ok b (existsb touches cs) u u'.
Proof.
  revert u. induction cs as [|c cs IH]; intros u I Ht Hok; cbn [run_calls calls_ok existsb] in *.
  { exists u. split; [done|]. by apply step_refl. }
  destruct Hok as [Hc Hok]. destruct (run_call_spec b u c I Ht Hc) as (u1 & E & Hs). rewrite E. cbn [mbind res_bind].
  destruct (IH u1) as (u2 & E2 & Hs2); [apply Hs|by rewrite (so_token _ _ _ _ Hs)|by apply Hok|].
  exists u2. split; [done|]. apply (step_trans _ _ _ u1).
  - destruct (touches c), (existsb touches cs); try done. by apply step_weaken.
  - destruct (touches c), (existsb touches cs); try done. by apply step_weaken.
Qed.

(** What recvfrom(2) writes fits the buffers it is given. *)
Definition datagram_ok (ans : datagram) : Prop :=
  match ans with inl (addr, data) => zlen addr <= sizeof_storage /\ zlen data <= kReadBufSize | inr _ => True end.

(** The state in which [handleEvent] calls [handleRead]. *)
Definition handling u p (c : Channel) (revents : Z) : Udp K :=
  set_reactor u (set_chan (reactor u) p (set_handling (setRevents c revents) true)).
Definition logged u p k : Udp K := set_reactor u (log_cbk (reactor u) p k).

Definition event_ok u p (revents : Z) (ans : datagram) (calls : list ucall) : Prop :=
  exists c, chans (reactor u) !! p = Some c /\ chans r0 !! p = None /\ datagram_ok ans /\
    match ans with
    | inl (addr, data) => callbackToken_ u = true ->
        calls_ok true (log_received (logged (handling u p c revents) p CbRead) (mkInet (storage addr) (zlen addr), data)) calls
    | inr _ => True
    end.

Lemma set_chan_step b u p c c' :
  inv None u -> chans (reactor u) !! p = Some c -> chans r0 !! p = None -> same_reg c c' -> (udp_chan c -> udp_chan c') ->
  step_ok b false u (set_reactor u (set_chan (reactor u) p c')).
Proof.
  intros I Hp Hp0 Hs Hu. pose proof Hs as (Hf & He & _ & Ha). split; try done.
  - apply (inv_chan None u p c c'); try done; simpl.
    + by apply (inv_fields (reactor u) p c c'); [apply I|..].
    + intros q Hq. by rewrite lookup_insert_ne.
    + apply lookup_insert_eq.
    + intros (_ & ? & ? & _). by rewrite Ha, He.
  - intros q Hq. simpl. rewrite lookup_insert. by case_decide.
  - intros _ Hr q d Hc Hd. simpl in Hc, Hd. change (is_state _ kReceiving) with (is_state u kReceiving). simpl queue.
    rewrite lookup_insert in Hd. case_decide as E; [subst q|by apply Hr].
    injection Hd as <-. rewrite <- (Hr p c Hc Hp). unfold isReading. by rewrite He.
Qed.

Lemma udp_selected c k : udp_chan c -> k <> CbRead -> selected c k = false.
Proof. intros (_ & [= _ E1 E2 E3] & _) Hk. destruct k; simpl; rewrite ?E1, ?E2, ?E3, ?andb_false_r; done. Qed.

Lemma live_chan u p : inv None u -> is_Some (chans (reactor u) !! p) -> chans r0 !! p = None ->
  exists c, chans (reactor u) !! p = Some c /\ udp_chan c.
Proof. intros I [c Hp] Hp0. exists c. split; [done|]. by destruct (i_chan _ _ I p c Hp Hp0). Qed.

Lemma logged_step b u p k : inv None u -> step_ok b false u (logged u p k).
Proof.
  intros I. pose proof I as []. split; try done. split; try done.
  apply (inv_ext (reactor u)); try done. apply (ri_size (reactor u)), I.
Qed.

(** A callback that is not set is not called. *)
Lemma udp_skips (run : Udp K -> Z -> cbk -> res (Udp K)) u p c k :
  chans (reactor u) !! p = Some c -> udp_chan c -> k <> CbRead -> try_callback run (Ok u) p k = Ok u.
Proof. intros Hp Hu Hk. unfold try_callback. cbn. rewrite Hp. cbn [deref mbind res_bind]. by rewrite udp_selected. Qed.

Lemma channel_event_spec u p revents ans calls :
  inv None u -> event_ok u p revents ans calls ->
  exists u', channel_event u p revents ans calls = Ok u' /\ step_ok true (existsb touches calls) u u'.
Proof.
  intros I (c & Hp & Hp0 & Hd & Hcalls). set (run := fun (u : Udp K) (_ : Z) k => do_callback u k ans calls).
  pose proof (set_chan_step true u p c (set_handling (setRevents c revents) true) I Hp Hp0 ltac:(by split_and!) ltac:(done)) as S1.
  change (set_reactor _ _) with (handling u p c revents) in S1.
  set (u1 := handling u p c revents) in *. set (c1 := set_handling (setRevents c revents) true).
  assert (chans (reactor u1) !! p = Some c1) as Hp1 by (simpl; apply lookup_insert_eq).
  assert (udp_chan c1) as Hu1 by (by destruct (i_chan _ _ I p c Hp Hp0)).
  set (ul := logged u1 p CbRead). pose proof (logged_step true u1 p CbRead (so_inv _ _ _ _ S1)) as Sl.
  assert (exists u2, try_callback run (Ok u1) p CbRead = Ok u2 /\ step_ok true (existsb touches calls) u1 u2) as (u2 & E2 & S2).
  { assert (step_ok true (existsb touches calls) u1 u1) as Hrefl by (apply step_refl, S1).
    unfold try_callback. cbn [mbind res_bind get udp_part]. rewrite Hp1. cbn [deref mbind res_bind].
    destruct (selected c1 CbRead); [|by exists u1]. change (modify _ u1) with ul.
    assert (step_ok true (existsb touches calls) u1 ul) as Sl' by (destruct (existsb touches calls); [by apply step_weaken|done]).
    unfold run. simpl do_callback. destruct (callbackToken_ u) eqn:Ht; [|by exists ul].
    destruct ans as [[addr data]|e]; [|by exists ul]. unfold handleRead. simpl readCallback_. destruct (readCallback_ u); [|by exists ul].
    destruct Hd as [Hd _]. rewrite (sockaddr_copy addr Hd). cbn [mbind res_bind].
    set (u1' := log_received ul _). assert (step_ok true (existsb touches calls) ul u1') as Slog by (apply step_fields; try done; apply Sl).
    destruct (run_calls_spec true u1' calls) as (u2 & E & S2); [apply Slog|done|by apply Hcalls|].
    exists u2. split; [done|]. apply (step_trans _ _ _ ul); [done|]. by apply (step_trans _ _ _ u1'). }
  assert (is_Some (chans (reactor u2) !! p)) as Hlive by (apply (so_live _ _ _ _ S2); rewrite Hp1; by eexists).
  destruct (live_chan u2 p (so_inv _ _ _ _ S2) Hlive Hp0) as (c2 & Hp2 & Hu2).
  exists (set_reactor u2 (set_chan (reactor u2) p (set_handling c2 false))). split.
  - unfold channel_event. fold run. unfold handleEvent. rewrite Hp. cbn [deref mbind res_bind get udp_part reactor set_reactor chans set_chan set_chans].
    rewrite lookup_insert_eq. cbn [deref mbind res_bind]. destruct Hu1 as [Ht Hu1']. assert (tied_ (setRevents c revents) = false) as -> by done.
    unfold handleEventWithGuard. cbn [get udp_part reactor set_reactor chans set_chan set_chans]. rewrite lookup_insert_eq. cbn [deref mbind res_bind].
    match goal with |- context [foldl _ (Ok ?x) _] => assert (x = u1) as -> end.
    { unfold u1, handling, modify, set_chan, set_chans. simpl. by rewrite insert_insert_eq. }
    unfold all_cbks. cbn [foldl].
    rewrite (udp_skips run u1 p c1 CbClose), (udp_skips run u1 p c1 CbError), E2, (udp_skips run u2 p c2 CbWrite) by done.
    cbn [mbind res_bind get udp_part]. by rewrite Hp2.
  - assert (step_ok true (existsb touches calls) u u1) as S1' by (destruct (existsb touches calls); [by apply step_weaken|done]).
    apply (step_trans _ _ _ u1); [done|]. apply (step_trans _ _ _ u2); [done|].
    assert (step_ok true false u2 (set_reactor u2 (set_chan (reactor u2) p (set_handling c2 false)))) as S3.
    { apply (set_chan_step true u2 p c2); try done. apply S2. }
    destruct (existsb touches calls); [by apply step_weaken|done].
Qed.
End inv.

(** ** Histories of a socket *)
Inductive uevent : Type :=
| UCall (inLoop : bool) (c : ucall)                                            (* a call of the user *)
| UDelete (inLoop : bool)                                                      (* ~UdpSocket *)
| URun                                                                         (* the loop runs a functor *)
| UEvent (p revents : Z) (ans : datagram) (calls : list ucall).                (* an event of a channel *)

Definition run_uevent {K} `{Kernel K} (u : Udp K) (ev : uevent) : res (Udp K) :=
  match ev with
  | UCall b c => run_call b u c
  | UDelete b => UdpSocket_delete b u
  | URun => run_functor u
  | UEvent p revents ans calls => channel_event u p revents ans calls
  end.

Fixpoint run_uevents {K} `{Kernel K} (u : Udp K) (evs : list uevent) : res (Udp K) :=
  match evs with [] => Ok u | ev :: evs' => u1 ← run_uevent u ev; run_uevents u1 evs' end.

(** When an event can happen: the socket is used and destroyed while it exists,
    what the kernel and the allocator give is fresh, events are for channels
    the socket made.  A destructor on the loop's thread comes when no start of
    receiving is still queued. *)
Definition uevent_ok {K} `{Kernel K} (r0 : Reactor K) (u : Udp K) (ev : uevent) : Prop :=
  match ev with
  | UCall _ c => callbackToken_ u = true /\ call_ok u c
  | UDelete inLoop => callbackToken_ u = true /\
      (inLoop = true -> forall p, channel_ u = Some p -> (FEnable p ∉ queue u))
  | URun => True
  | UEvent p revents ans calls => event_ok r0 u p revents ans calls
  end.

Fixpoint uevents_ok {K} `{Kernel K} (r0 : Reactor K) (u : Udp K) (evs : list uevent) : Prop :=
  match evs with
  | [] => True
  | ev :: evs' => uevent_ok r0 u ev /\ forall u', run_uevent u ev = Ok u' -> uevents_ok r0 u' evs'
  end.

(** Receiving is started and stopped on the loop's thread only when no start or
    stop from another thread is queued. *)
Definition quiet_event {K} (u : Udp K) (ev : uevent) : Prop :=
  match ev with
  | UCall inLoop c => inLoop = true -> touches c = true -> quiet u
  | UEvent _ _ _ calls => existsb touches calls = true -> quiet u
  | _ => True
  end.

Fixpoint quiet_events {K} `{Kernel K} (u : Udp K) (evs : list uevent) : Prop :=
  match evs with
  | [] => True
  | ev :: evs' => quiet_event u ev /\ forall u', run_uevent u ev = Ok u' -> quiet_events u' evs'
  end.

Section history.
Context {K : Type} `{KernelLaws K} (r0 : Reactor K) (Hr0 : fds_open r0).
Implicit Types (u : Udp K).

Lemma new_socket_inv : inv r0 None (UdpSocket_new r0).
Proof.
  split; simpl; try done; try apply Hr0.
  - apply NoDup_nil_2.
  - intros fd. unfold kernel. simpl. set_solver.
  - set_solver.
  - intros p c Hp Hp0. congruence.
  - intros p [[?|(f & Hf & _)]%referenced_true|?]; [done| |done]. by apply not_elem_of_nil in Hf.
  - set_solver.
Qed.

Lemma delete_spec (b : bool) u :
  inv r0 None u -> (b = true -> forall p, channel_ u = Some p -> (FEnable p ∉ queue u)) ->
  exists u', UdpSocket_delete b u = Ok u' /\ inv r0 None u' /\ channel_ u' = None /\ callbackToken_ u' = false.
Proof.
  intros I Hen. unfold UdpSocket_delete. cbv zeta. simpl channel_. simpl sockfd_.
  destruct (give_up_spec r0 Hr0 b u (set_socket (set_state (set_token u false) kClosed) (family_ u) (-1) kClosed None) I)
    as (u3 & E & I3 & Ec & Et & _); [done|done|done|].
  exists u3. by rewrite <- E.
Qed.

Lemma run_uevent_spec u ev :
  inv r0 None u -> uevent_ok r0 u ev ->
  exists u', run_uevent u ev = Ok u' /\ inv r0 None u' /\ (quiet_event u ev -> reads u -> reads u').
Proof.
  intros I Hok. destruct ev as [b c|b| |p revents ans calls]; cbn [run_uevent uevent_ok quiet_event] in *.
  - destruct Hok as [Ht Hc]. destruct (run_call_spec r0 Hr0 b u c I Ht Hc) as (u' & E & Hs). exists u'.
    split_and!; [done|apply Hs|]. intros Hq. by apply (so_reads _ _ _ _ _ Hs).
  - destruct Hok as [_ Hen]. destruct (delete_spec b u I Hen) as (u' & E & I' & Hc & _). exists u'. split_and!; try done.
    intros _ _ p c Hp. congruence.
  - destruct (run_functor_spec r0 Hr0 u I) as (u' & E & I' & _ & Hr). exists u'. by split_and!.
  - destruct (channel_event_spec r0 Hr0 u p revents ans calls I Hok) as (u' & E & Hs). exists u'.
    split_and!; [done|apply Hs|]. intros Hq. apply (so_reads _ _ _ _ _ Hs). intros _. apply Hq.
Qed.

Lemma run_uevents_spec u evs :
  inv r0 None u -> uevents_ok r0 u evs ->
  exists u', run_uevents u evs = Ok u' /\ inv r0 None u' /\ (quiet_events u evs -> reads u -> reads u').
Proof.
  revert u. induction evs as [|ev evs IH]; intros u I Hok; cbn [run_uevents uevents_ok quiet_events] in *; [by exists u|].
  destruct Hok as [Hev Hok]. destruct (run_uevent_spec u ev I Hev) as (u1 & E1 & I1 & R1).
  rewrite E1. cbn [mbind res_bind]. destruct (IH u1 I1 (Hok u1 E1)) as (u2 & E2 & I2 & R2). exists u2. split_and!; try done.
  intros [Hq Hqs] Hr. apply R2; [by apply Hqs|by apply R1].
Qed.

Lemma run_uevents_inv evs u :
  uevents_ok r0 (UdpSocket_new r0) evs -> run_uevents (UdpSocket_new r0) evs = Ok u -> inv r0 None u.
Proof.
  intros Hok E. destruct (run_uevents_spec _ evs new_socket_inv Hok) as (u' & E' & I & _). rewrite E in E'. by injection E' as ->.
Qed.
End history.

(** ** Properties *)
Section properties.
Context {K : Type} `{KernelLaws K}.
Implicit Types (u : Udp K).

(** C12: a socket through any history of calls from any thread, functors run,
    datagrams and failures, whatever the kernel answers and whatever the read
    callback calls, up to its destruction: nothing aborts, no channel is
    deleted while the poller knows it, no deleted channel is used.  The state,
    the descriptor and the channel agree; every descriptor opened is open
    exactly once, with the socket or with a cleanup that will close it; the
    kernel watches exactly the channels that ask for events, and the channels
    of others are as they were. *)
Theorem udp_safe r0 evs :
  fds_open r0 -> uevents_ok r0 (UdpSocket_new r0) evs ->
  exists u, run_uevents (UdpSocket_new r0) evs = Ok u /\
    match channel_ u with
    | Some p => state_ u <> kClosed /\ exists c, chans (reactor u) !! p = Some c /\ fd_ c = sockfd_ u
    | None => state_ u = kClosed /\ sockfd_ u = -1
    end /\
    NoDup (own_fds u) /\ (forall fd, fd ∈ kfds (kernel u) <-> fd ∈ own_fds u \/ fd ∈ kfds (epoll r0)) /\
    (forall q, is_Some (chans r0 !! q) -> chans (reactor u) !! q = chans r0 !! q) /\
    mirrors (reactor u).
Proof.
  intros Hr0 Hok. destruct (run_uevents_spec r0 Hr0 _ evs (new_socket_inv r0 Hr0) Hok) as (u & E & I & _).
  exists u. split; [done|]. split_and!; try apply I; [|by apply inv_mirrors, I].
  pose proof (i_socket _ _ _ I) as Hs. destruct (channel_ u) as [p|] eqn:Hc; [|tauto]. split; [tauto|].
  destruct (i_held _ _ _ I p) as [[c Hp] Hp0]; [left; apply referenced_true; by left|]. exists c. split; [done|].
  destruct (i_chan _ _ _ I p c Hp Hp0) as (_ & [[[_ ?]|Hq]|(? & _)] & _); [done| |done].
  by destruct (i_cleanup _ _ _ I p (fd_ c) Hq).
Qed.

(** C17: nothing leaks.  When the socket is destroyed and the functors it left
    have run, the channels of the loop, the open descriptors and what the
    kernel watches are what they were before it was made. *)
Theorem udp_teardown r0 evs u :
  fds_open r0 -> uevents_ok r0 (UdpSocket_new r0) evs -> run_uevents (UdpSocket_new r0) evs = Ok u ->
  callbackToken_ u = false -> queue u = [] ->
  chans (reactor u) = chans r0 /\ kfds (kernel u) = kfds (epoll r0) /\ interest (kernel u) = interest (epoll r0).
Proof.
  intros Hr0 Hok E Ht Hq. pose proof (run_uevents_inv r0 Hr0 evs u Hok E) as I.
  assert (channel_ u = None /\ sockfd_ u = -1) as [Hc Hs].
  { pose proof (i_socket _ _ _ I) as Hsk. destruct (channel_ u); [|tauto]. destruct Hsk as (_ & _ & ?). congruence. }
  assert (chans (reactor u) = chans r0) as Ech.
  { apply map_eq. intros p. destruct (chans r0 !! p) as [c|] eqn:Hp0; [rewrite <- Hp0; apply (i_frame _ _ _ I); by rewrite Hp0|].
    destruct (chans (reactor u) !! p) as [c|] eqn:Hp; [|done].
    destruct (i_chan _ _ _ I p c Hp Hp0) as (_ & _ & [Href|?]); [|done]. apply referenced_true in Href as [?|(f & Hf & _)]; [congruence|].
    rewrite Hq in Hf. by apply not_elem_of_nil in Hf. }
  split_and!; [done| |].
  - apply set_eq. intros fd. rewrite (i_kfds _ _ _ I). unfold own_fds. rewrite Hs, Hq. simpl. set_solver.
  - pose proof (inv_mirrors _ (i_reactor _ _ _ I)) as M. pose proof (inv_mirrors _ (proj1 Hr0)) as M0.
    apply map_eq. intros fd. apply option_eq. intros [e p]. unfold mirrors, kernel in *. by rewrite M, M0, Ech.
Qed.

(** C25: what [isReceiving] says comes true.  When the functors posted have run,
    the kernel watches the socket for input exactly when its state is
    [kReceiving], in every history in which a start or stop on the loop's
    thread does not overtake one from another thread. *)
Theorem udp_receiving r0 evs u p :
  fds_open r0 -> uevents_ok r0 (UdpSocket_new r0) evs -> quiet_events (UdpSocket_new r0) evs ->
  run_uevents (UdpSocket_new r0) evs = Ok u -> channel_ u = Some p -> queue u = [] ->
  (exists e, interest (kernel u) !! sockfd_ u = Some (e, p) /\ Z.land e kReadEvent <> 0) <-> state_ u = kReceiving.
Proof.
  intros Hr0 Hok Hqu E Hc Hq. destruct (run_uevents_spec r0 Hr0 _ evs (new_socket_inv r0 Hr0) Hok) as (u' & E' & I & Hreads).
  rewrite E in E'. injection E' as <-. specialize (Hreads Hqu ltac:(by intros ? ?)).
  destruct (i_held _ _ _ I p) as [[c Hp] Hp0]; [left; apply referenced_true; by left|].
  assert (fd_ c = sockfd_ u) as Hfd.
  { destruct (i_chan _ _ _ I p c Hp Hp0) as (_ & [[[_ ?]|Hf]|(? & _)] & _); [done| |done].
    rewrite Hq in Hf. by apply not_elem_of_nil in Hf. }
  specialize (Hreads p c Hc Hp). rewrite Hq in Hreads. unfold is_state, isReading in Hreads. simpl in Hreads.
  pose proof (inv_mirrors _ (i_reactor _ _ _ I)) as M. unfold mirrors in M. change (epoll (reactor u)) with (kernel u) in M.
  rewrite <- (bool_decide_eq_true (state_ u = kReceiving)), <- Hreads, negb_true_iff, Z.eqb_neq. split.
  - intros (e & (d & Hd & _ & <- & _)%M & Hne). rewrite Hp in Hd. by injection Hd as <-.
  - intros Hne. exists (events_ c). split; [|done]. apply M. exists c. split_and!; try done.
    intros E0. by rewrite E0 in Hne.
Qed.

(** C30: [bind] and [bindAndStart].  They succeed exactly when the socket is, or
    can be made, of the address's family and the kernel binds it; it is then
    bound, or still receiving, and receiving after [bindAndStart].  A failure
    leaves the state and the descriptor as they were, and on the loop's thread
    no descriptor open that was not. *)
Theorem udp_bind r0 evs u (inLoop : bool) addr sock p bound :
  fds_open r0 -> uevents_ok r0 (UdpSocket_new r0) evs -> run_uevents (UdpSocket_new r0) evs = Ok u ->
  callbackToken_ u = true -> (sockfd_ u < 0 -> fresh u sock p) ->
  let ok := (if 0 <=? sockfd_ u then family_ u =? family addr else match sock with inl _ => true | inr _ => false end)
            && sock_bind bound in
  exists u', bind inLoop u addr sock p bound = Ok (ok, u') /\
    (if ok then family_ u' = family addr /\ 0 <= sockfd_ u' /\ state_ u' = (if is_state u kReceiving then kReceiving else kBound)
     else state_ u' = state_ u /\ sockfd_ u' = sockfd_ u /\ (inLoop = true -> kfds (kernel u') = kfds (kernel u))) /\
    exists u2, bindAndStart inLoop u addr sock p bound = Ok (ok, u2) /\ (ok = true -> state_ u2 = kReceiving).
Proof.
  intros Hr0 Hok E Ht Hf ok. pose proof (run_uevents_inv r0 Hr0 evs u Hok E) as I.
  destruct (bind_spec r0 Hr0 inLoop u addr sock p bound I Ht Hf) as (ok' & u' & Eb & Hstep & Hcase).
  assert (ok' = ok) as ->.
  { unfold bind, ensureSocket, open_socket in Eb. unfold ok.
    destruct (0 <=? sockfd_ u) eqn:Es; [destruct (family_ u =? family addr)|destruct sock as [fd|e]]; cbn [negb andb createNonblockingUdp] in *; cbv iota in Eb.
    - destruct (sock_bind bound); cbn [negb] in Eb; cbv iota in Eb; [by injection Eb as <-|].
      rewrite (proj2 (Z.ltb_ge _ _)) in Eb by lia. by injection Eb as <-.
    - by injection Eb as <-.
    - destruct (Hf ltac:(lia)) as [[Hfd _] _]. rewrite (proj2 (Z.ltb_ge _ _) Hfd) in Eb. cbn [negb] in Eb. cbv iota in Eb.
      destruct (sock_bind bound); cbn [negb] in Eb; cbv iota in Eb; [by injection Eb as <-|].
      rewrite (proj2 (Z.ltb_lt _ _)) in Eb by lia. repeat (apply bind_Ok_inv in Eb as (? & _ & Eb)). by injection Eb as <-.
    - by injection Eb as <-. }
  exists u'. split; [done|]. unfold bindAndStart. rewrite Eb. cbn [mbind res_bind]. split.
  - destruct ok; [naive_solver|]. destruct Hcase as [->|[[-> _]|(Hs & Hs' & Hst & Hc & _ & p' & fd & Eq)]]; [done|done|].
    pose proof (i_socket _ _ _ I) as Hsk. assert (sockfd_ u = -1 /\ state_ u = kClosed) as [E1 E2] by (destruct (channel_ u); [lia|done]).
    split_and!; [congruence|congruence|]. intros ->. apply set_eq. intros fd'.
    rewrite (i_kfds _ _ _ I), (i_kfds _ _ _ (so_inv _ _ _ _ _ Hstep)). unfold own_fds.
    by rewrite Hs', E1, Eq, pending_snoc.
  - destruct ok; cbn [negb]; cbv iota; [|by exists u'].
    destruct (startReceive_spec r0 Hr0 inLoop u' (so_inv _ _ _ _ _ Hstep)) as (u2 & E2 & _ & Hr).
    assert (isBound u' = true) as Hb.
    { unfold isBound, is_state. destruct Hcase as (_ & _ & _ & -> & _). by destruct (is_state u kReceiving). }
    rewrite Hb in *. exists u2. split; [done|]. intros _. apply Hr.
Qed.

(** Enabling a channel that left the loop and whose descriptor is closed. *)
Lemma enable_closed (r : Reactor K) p c :
  chans r !! p = Some c -> events_ c = 0 -> addedToLoop_ c = false -> index_ c = -1 -> (fd_ c ∉ kfds (epoll r)) ->
  channel_change r p EnableReading = Fault StdAbort.
Proof.
  intros Hp He Ha Hi Hfd. unfold channel_change. rewrite Hp. cbn [deref mbind res_bind]. unfold channel_update. simpl.
  rewrite lookup_insert_eq. cbn [deref mbind res_bind]. rewrite He. simpl. rewrite andb_false_r.
  unfold updateChannel. simpl. rewrite lookup_insert_eq. cbn [deref mbind res_bind]. simpl. rewrite Hi. simpl.
  unfold poller_update. simpl. rewrite lookup_insert_eq. cbn [deref mbind res_bind]. simpl. by rewrite ctl_closed.
Qed.

(** C40: the condition on the destructor is necessary.  [startReceive] on
    another thread posts the functor that enables the channel; if the socket is
    then destroyed on the loop's thread, which takes the channel out of the loop
    and closes the descriptor at once, the functor registers a closed
    descriptor and the program aborts. *)
Theorem udp_destroyed_before_start r0 evs u :
  fds_open r0 -> uevents_ok r0 (UdpSocket_new r0) evs -> run_uevents (UdpSocket_new r0) evs = Ok u ->
  queue u = [] -> state_ u = kBound ->
  exists u1 u2, startReceive false u = Ok (true, u1) /\ UdpSocket_delete true u1 = Ok u2 /\
    run_functor u2 = Fault StdAbort.
Proof.
  intros Hr0 Hok E Hq Hst. pose proof (run_uevents_inv r0 Hr0 evs u Hok E) as I.
  pose proof (i_socket _ _ _ I) as Hsk. destruct (channel_ u) as [p|] eqn:Hc; [|destruct Hsk; congruence].
  destruct (i_held _ _ _ I p) as [[c Hp] Hp0]; [left; apply referenced_true; by left|].
  assert (fd_ c = sockfd_ u) as Hfd.
  { destruct (i_chan _ _ _ I p c Hp Hp0) as (_ & [[[_ ?]|Hf]|(? & _)] & _); [done| |done].
    rewrite Hq in Hf. by apply not_elem_of_nil in Hf. }
  destruct (channel_retire (reactor u) p c (i_reactor _ _ _ I) Hp) as (r1 & r2 & c2 & E1 & E2 & Ir2 & _ & _ & _ & Hp2 & Hs2 & He2 & Ha2).
  { apply (slot r0 Hr0 None u p c I Hp); [by left|lia]. }
  set (u1 := queueInLoop (set_state u kReceiving) (FEnable p)).
  assert (startReceive false u = Ok (true, u1)) as Es.
  { unfold startReceive, isBound, is_state. rewrite Hc, Hst. done. }
  set (r3 := set_epoll r2 (sys_close (epoll r2) (sockfd_ u))).
  set (u2 := set_queue (set_reactor (set_socket (set_state (set_token u1 false) kClosed) (family_ u) (-1) kClosed None) r3) [FEnable p; FKeep p]).
  exists u1, u2. split; [done|].
  assert ((0 <=? sockfd_ u) = true) as Hle by lia.
  split.
  - unfold UdpSocket_delete. cbv zeta. simpl channel_. simpl sockfd_. rewrite Hc. unfold cleanupUdpSocket, cleanup. simpl reactor.
    rewrite E1. cbn [mbind res_bind]. rewrite E2. cbn [mbind res_bind]. rewrite Hle. cbn [mbind res_bind].
    assert (queue u1 ++ [FKeep p] = [FEnable p; FKeep p]) as Eq1 by (unfold u1; simpl; by rewrite Hq).
    match goal with |- release ?x _ = _ => replace x with u2 end.
    2: { unfold u2. rewrite <- Eq1. done. }
    simpl release. rewrite (proj2 (referenced_true u2 p)); [done|]. right. exists (FEnable p). split; [by left|done].
  - unfold run_functor, u2. simpl queue. cbv iota. cbn [call]. simpl reactor.
    rewrite (enable_closed r3 p c2); [done|done|done|done| |].
    + destruct (ri_chan _ Ir2 _ _ Hp2) as [_ [(? & _)|[(_ & ? & _)|(_ & ? & _)]]]; congruence.
    + unfold r3. simpl. rewrite close_fds. destruct Hs2 as (Hf2 & _). rewrite Hf2, Hfd. intros [_ Hn]%elem_of_difference. by apply Hn, elem_of_singleton.
Qed.
End properties.

(** ** The theorems at concrete histories *)
Import SimKernel.

(** The loop already has the channel of another object. *)
Definition ex_reactor : Reactor kern :=
  match run_rops (Reactor_new (mkKern {[9 := None]})) [RNew 50 9 true false false false; RChange 50 EnableReading] with
  | Ok r => r | Fault _ => Reactor_new (mkKern ∅) end.
Definition ex_udp : Udp kern := UdpSocket_new ex_reactor.
Definition ex_any : InetAddress := InetAddress_port 9000 false false.
Definition ex_from : list byte := in_bytes (mkIn AF_INET (htons 4000) [x0a; x00; x00; x01] (replicate 8 x00)).

(** Bound and started from another thread; a datagram arrives and is answered,
    the callback stops receiving; the destructor runs on another thread. *)
Definition ex_bind : uevent := UCall false (UBind ex_any (inl 10) 1 0).
Definition ex_start : list uevent := [ex_bind; UCall false UStart; URun].
Definition ex_rest : list uevent :=
  [UCall true (USetReadCallback true);
   UEvent 1 EPOLLIN (inl (ex_from, [x68; x69])) [USendTo [x6f; x6b] ex_any (inr 0) 0 2; UStop];
   UDelete false; URun; URun].
Definition ex_hist : list uevent := ex_start ++ ex_rest.

Lemma ex_reactor_ok : fds_open ex_reactor.
Proof.
  split.
  - pose proof (run_rops_spec (Reactor_new (mkKern {[9 := None]})) [RNew 50 9 true false false false; RChange 50 EnableReading]) as Hs.
    destruct (run_rops _ _) as [r|f] eqn:E; [|by vm_compute in E].
    assert (ex_reactor = r) as -> by (unfold ex_reactor; by rewrite E).
    apply Hs; [by apply inv_new|]. split; [done|]. intros r1 E1. vm_compute in E1. injection E1 as <-.
    split; [|done]. eexists. split; [vm_compute; reflexivity|]. by left.
  - assert (map_Forall (fun _ c => addedToLoop_ c = true -> fd_ c ∈ kfds (epoll ex_reactor)) (chans ex_reactor)) as Hf by by_decide.
    intros p c. apply Hf.
Qed.

Ltac is_open := let E := fresh "E" in intros E; by vm_compute in E.

Lemma ex_start_ok : uevents_ok ex_reactor ex_udp ex_start.
Proof.
  split; [split; [done|]; intros _; split; [split; [lia|by_decide]|by vm_compute]|]. run_next.
  split; [done|]. run_next. split; [done|]. by run_next.
Qed.

Lemma ex_hist_ok : uevents_ok ex_reactor ex_udp ex_hist.
Proof.
  split; [split; [done|]; intros _; split; [split; [lia|by_decide]|by vm_compute]|]. run_next.
  split; [done|]. run_next. split; [done|]. run_next. split; [done|]. run_next.
  split; [|run_next].
  { eexists. split; [vm_compute; reflexivity|]. split; [by vm_compute|]. split; [done|].
    intros _. split; [is_open|]. run_next. split; [done|]. by run_next. }
  split; [by split|]. run_next. split; [done|]. run_next. split; [done|]. by run_next.
Qed.

Lemma ex_start_quiet : quiet_events ex_udp ex_start.
Proof. split; [done|]. run_next. split; [done|]. run_next. split; [done|]. by run_next. Qed.

Definition ex_state (evs : list uevent) : Udp kern := match run_uevents ex_udp evs with Ok u => u | Fault _ => ex_udp end.

(** What the callback was given, what was sent, and that all is gone. *)
Example ex_hist_run :
  (u ← run_uevents ex_udp ex_hist; Ok ((received u).*2, (sendtos u).*1, queue u, elements (kfds (kernel u)), (map_to_list (chans (reactor u))).*1))
  = Ok ([[x68; x69]], [(10, [x6f; x6b])], [], [9], [50]).
Proof. vm_compute. reflexivity. Qed.

Lemma udp_safe_witness :
  exists u, run_uevents ex_udp ex_hist = Ok u /\
    match channel_ u with
    | Some p => state_ u <> kClosed /\ exists c, chans (reactor u) !! p = Some c /\ fd_ c = sockfd_ u
    | None => state_ u = kClosed /\ sockfd_ u = -1
    end /\
    NoDup (own_fds u) /\ (forall fd, fd ∈ kfds (kernel u) <-> fd ∈ own_fds u \/ fd ∈ kfds (epoll ex_reactor)) /\
    (forall q, is_Some (chans ex_reactor !! q) -> chans (reactor u) !! q = chans ex_reactor !! q) /\
    mirrors (reactor u).
Proof. apply (udp_safe ex_reactor ex_hist); [exact ex_reactor_ok|exact ex_hist_ok]. Defined.

Lemma udp_teardown_witness :
  let u := ex_state ex_hist in
  chans (reactor u) = chans ex_reactor /\ kfds (kernel u) = kfds (epoll ex_reactor) /\
  interest (kernel u) = interest (epoll ex_reactor).
Proof.
  apply (udp_teardown ex_reactor ex_hist (ex_state ex_hist)); [exact ex_reactor_ok|exact ex_hist_ok|..];
    vm_compute; reflexivity.
Defined.

Lemma udp_receiving_witness :
  let u := ex_state ex_start in
  (exists e, interest (kernel u) !! sockfd_ u = Some (e, 1) /\ Z.land e kReadEvent <> 0) <-> state_ u = kReceiving.
Proof.
  apply (udp_receiving ex_reactor ex_start (ex_state ex_start) 1);
    [exact ex_reactor_ok|exact ex_start_ok|exact ex_start_quiet|..]; vm_compute; reflexivity.
Defined.

(** A socket that cannot be bound. *)
Lemma udp_bind_witness :
  exists u', bind true ex_udp ex_any (inl 10) 1 (-1) = Ok (false, u') /\
    (state_ u' = kClosed /\ sockfd_ u' = -1 /\ (true = true -> kfds (kernel u') = kfds (kernel ex_udp))) /\
    exists u2, bindAndStart true ex_udp ex_any (inl 10) 1 (-1) = Ok (false, u2) /\ (false = true -> state_ u2 = kReceiving).
Proof.
  apply (udp_bind ex_reactor [] ex_udp true ex_any (inl 10) 1 (-1)); [exact ex_reactor_ok|done|done|done|].
  intros _. split; [split; [lia|by_decide]|by vm_compute].
Defined.

Lemma udp_destroyed_before_start_witness :
  exists u1 u2, startReceive false (ex_state [ex_bind]) = Ok (true, u1) /\ UdpSocket_delete true u1 = Ok u2 /\
    run_functor u2 = Fault StdAbort.
Proof.
  apply (udp_destroyed_before_start ex_reactor [ex_bind] (ex_state [ex_bind])); [exact ex_reactor_ok| |vm_compute; reflexivity..].
  split; [split; [done|]; intros _; split; [split; [lia|by_decide]|by vm_compute]|]. by run_next.
Defined.

(** *** Two threads *)

(** two hazards of calls from several threads.  A start on the loop's
    thread that overtakes a stop another thread posted is lost: [startReceive]
    returned true and the state is [kReceiving], but once the functors have run
    the kernel no longer watches the socket.  And two threads that both find no
    socket in [ensureSocket] both make one: the first descriptor is never
    closed, not even by the destructor. *)
Theorem udp_two_threads :
  (let u := ex_state (ex_start ++ [UCall false UStop; UCall true UStart; URun]) in
   state_ u = kReceiving /\ queue u = [] /\ interest (kernel u) !! sockfd_ u = None) /\
  (let u1 := (open_socket ex_udp AF_INET (inl 10) 1).2 in
   let u2 := (open_socket u1 AF_INET (inl 11) 2).2 in
   exists u3, UdpSocket_delete true u2 = Ok u3 /\ sockfd_ u3 = -1 /\
     queue u3 = [FKeep 2] /\ kfds (kernel u2) = {[9; 10; 11]} /\ kfds (kernel u3) = {[9; 10]}).
Proof.
  split; [vm_compute; done|]. eexists. split; [vm_compute; reflexivity|].
  split; [done|]. split; [done|]. split; by_decide.
Qed.
