(* ===== verification/Demo.v ===== *)
(** * Demo: the timer demo as a client of the event loop

    Models [demo_timer.cpp]: [main] makes a loop, schedules four timers, of
    which one cancels another and one quits the loop, and runs the loop until
    it returns.  The model is the whole loop of LoopRound.v, on any kernel, any
    ring and any allocator, with the wake-ups of the timer descriptor at any
    times; the theorem says in which wake-up each of the callbacks runs. *)

From S2P Require Import Prelude CircularBuffer MpscQueue Timer TimerQueue EventLoop Channel Poller Kernel LoopLife LoopRound.

(** ** The program

    The lambdas of [main], by the number each is scheduled with; [everyId] is
    what the third one captures.  The logging is left out. *)
Definition cb_once : nat := 1.
Definition cb_every : nat := 2.
Definition cb_cancel : nat := 3.
Definition cb_quit : nat := 4.

Definition demo_callback (everyId : TimerId) (cb : nat) : list (lact Empty_set uact) :=
  if Nat.eqb cb cb_cancel then [LOther (UTimer (ActCancel everyId))]
  else if Nat.eqb cb cb_quit then [LQuit] else [].

(** The program posts no functors. *)
Definition no_functor (f : Empty_set) : list (lact Empty_set uact) := match f with end.
Definition any_call (a : uact) : bool := true.

Section demo.
Context {K Q : Type} `{Kernel K} `{PendingOps Empty_set Q}.
Context (alloc : gmap Z Timer -> Z).
Implicit Types (w : EventLoop K Empty_set Q) (d : Z) (gaps : Z * Z * Z * Z).

(** Time passes. *)
Definition sleep w d : EventLoop K Empty_set Q :=
  set_timers w (set_clock (timerQueue_ w) (clock (timerQueue_ w) + d)).

(** [main] up to [loop.loop()]; [gaps] is the time before each of the four
    calls, whose delays are [milliseconds(2500)], [seconds(1)],
    [milliseconds(5500)] and [seconds(10)]. *)
Definition demo_setup w gaps : res (TimerId * EventLoop K Empty_set Q) :=
  let '(d1, d2, d3, d4) := gaps in
  let w0 := sleep w d1 in
  '(_, tq) ← runAfter_duration alloc (timerQueue_ w0) 1 1000 2500 cb_once;
  let w1 := sleep (set_timers w0 tq) d2 in
  '(everyId, tq) ← runEvery_duration alloc (timerQueue_ w1) 1 1 1 cb_every;
  let w2 := sleep (set_timers w1 tq) d3 in
  '(_, tq) ← runAfter_duration alloc (timerQueue_ w2) 1 1000 5500 cb_cancel;
  let w3 := sleep (set_timers w2 tq) d4 in
  '(_, tq) ← runAfter_duration alloc (timerQueue_ w3) 1 1 10 cb_quit;
  Ok (everyId, set_timers w3 tq).

(** What the callbacks of the timers due now do. *)
Definition demo_plan (everyId : TimerId) (tq : TimerQueue) : list (list (lact Empty_set uact)) :=
  match getExpired tq (clock tq) with
  | Ok (expired, _) =>
      (fun e : Entry => demo_callback everyId (default 0%nat (callback_ <$> heap tq !! e.2))) <$> expired
  | Fault _ => []
  end.

(** A round: [d] later the kernel reports the timer descriptor, the only one
    the program waits for. *)
Definition demo_round (everyId : TimerId) w : Round Empty_set :=
  mkRound (WEvents [(EPOLLIN, timerfdChannel_ (fixed w))]) (fun _ _ => []) (demo_plan everyId (timerQueue_ w)).

Definition demo_handle (everyId : TimerId) (n : nat) w d : res (EventLoop K Empty_set Q) :=
  let w1 := sleep w d in
  handle_events alloc any_call no_functor n w1 (demo_round everyId w1).

Definition demo_main (n : nat) w gaps (delays : list Z) : res (EventLoop K Empty_set Q) :=
  '(everyId, w1) ← demo_setup w gaps;
  loop (user alloc any_call) no_functor (demo_handle everyId) n w1 delays.
End demo.

(** ** When each callback runs

    The times of the four calls of [main]. *)
Definition call_time (now : Z) (gaps : Z * Z * Z * Z) (i : Z) : Z :=
  let '(d1, d2, d3, d4) := gaps in
  now + d1 + (if 2 <=? i then d2 else 0) + (if 3 <=? i then d3 else 0) + (if 4 <=? i then d4 else 0).

(** The first multiple of a second after [start] that is later than [t]. *)
Definition second : Z := 1000000000.
Definition next_second (start t : Z) : Z := start + Z.max 1 ((t - start) / second + 1) * second.

Section schedule.
Context (at_ : Z -> Z).

(** The deadline of each timer once everything due at [t] ran: a timer that
    runs once has its own until then; the periodic one has the next second,
    until the cancellation. *)
Definition deadline (t i : Z) : option Z :=
  let once D := if t <? D then Some D else None in
  if i =? 1 then once (at_ 1 + 2500000000)
  else if i =? 2 then if t <? at_ 3 + 5500000000 then Some (next_second (at_ 2) t) else None
  else if i =? 3 then once (at_ 3 + 5500000000)
  else if i =? 4 then once (at_ 4 + 10000000000)
  else None.

Definition due (t t' i : Z) : bool := match deadline t i with Some D => D <=? t' | None => false end.

(** The callbacks of each wake-up until the loop quits; [t] is the time of the
    wake-up before, [c] the time now. *)
Fixpoint demo_log (t c : Z) (delays : list Z) : list (list Z) :=
  match delays with
  | [] => []
  | d :: delays' =>
      List.filter (due t (c + d)) [1; 2; 3; 4] ::
      (if due t (c + d) 4 then [] else demo_log (c + d) (c + d) delays')
  end.
End schedule.

(** On time: the periodic callback runs five times, the others once each. *)
Example demo_on_time :
  demo_log (fun _ => 0) 0 0 (Z.mul 100000000 <$> [10; 10; 5; 5; 10; 10; 5; 45; 10])
  = [[2]; [2]; [1]; [2]; [2]; [2]; [3]; [4]].
Proof. vm_compute. reflexivity. Qed.

(** A wake-up so late that the cancellation and the next period are due
    together: the periodic callback runs in it too, and then never again. *)
Example demo_late :
  demo_log (fun _ => 0) 0 0 (Z.mul 100000000 <$> [51; 11; 30; 30; 10]) = [[1; 2]; [2; 3]; []; [4]].
Proof. vm_compute. reflexivity. Qed.

Section deadlines.
Context (at_ : Z -> Z).
Implicit Types (t c i d e : Z).

Lemma next_second_fix start t c : t <= c -> c < next_second start t -> next_second start c = next_second start t.
Proof.
  unfold next_second, second. intros Ht Hc.
  pose proof (Z.div_mod (t - start) 1000000000 ltac:(lia)). pose proof (Z.mod_pos_bound (t - start) 1000000000 ltac:(lia)).
  pose proof (Z.div_mod (c - start) 1000000000 ltac:(lia)). pose proof (Z.mod_pos_bound (c - start) 1000000000 ltac:(lia)).
  lia.
Qed.

Lemma next_second_unique start t c n :
  let e := next_second start t + n * second in
  next_second start t <= c -> 1 <= n -> c < e <= c + second -> e = next_second start c.
Proof.
  unfold next_second, second. intros Ht Hn He.
  pose proof (Z.div_mod (c - start) 1000000000 ltac:(lia)). pose proof (Z.mod_pos_bound (c - start) 1000000000 ltac:(lia)).
  lia.
Qed.

(** A timer that is not pending does not come back. *)
Lemma deadline_none t c i : t <= c -> deadline at_ t i = None -> deadline at_ c i = None.
Proof.
  intros Ht. unfold deadline. repeat case_match; try done; intros _;
    repeat match goal with E : (_ <? _) = _ |- _ => rewrite ?Z.ltb_lt, ?Z.ltb_ge in E end; lia.
Qed.

Lemma deadline_range t i d : deadline at_ t i = Some d -> 1 <= i <= 4.
Proof. unfold deadline. repeat case_match; try done; intros _; lia. Qed.

Lemma deadline_step t c i d :
  t <= c -> deadline at_ t i = Some d ->
  deadline at_ c i =
    if c <? d then (if (i =? 2) && due at_ t c 3 then None else Some d)
    else if (i =? 2) && negb (due at_ t c 3) then Some (next_second (at_ 2) c) else None.
Proof.
  intros Ht. unfold due, deadline. change (3 =? 1) with false. change (3 =? 2) with false. change (3 =? 3) with true. cbn iota.
  destruct (Z.eqb_spec i 2) as [->|Hi].
  - change (2 =? 1) with false. cbn iota. destruct (Z.ltb_spec t (at_ 3 + 5500000000)) as [H3|]; [|done].
    intros [= <-]. cbn [andb]. destruct (Z.leb_spec (at_ 3 + 5500000000) c) as [H3c|H3c]; cbn [negb].
    + rewrite (proj2 (Z.ltb_ge _ _) H3c). by case_match.
    + rewrite (proj2 (Z.ltb_lt _ _) H3c). destruct (Z.ltb_spec c (next_second (at_ 2) t)); [|done].
      f_equal. by apply next_second_fix.
  - cbn [andb]. repeat case_match; try done; intros [= <-];
    repeat match goal with E : (_ <? _) = _ |- _ => rewrite ?Z.ltb_lt, ?Z.ltb_ge in E end; done || lia.
Qed.
End deadlines.

(** ** The timer queue follows the schedule *)

Definition demo_timer (i d : Z) : Timer := mkTimer (Z.to_nat i) d (if i =? 2 then 1000000 else 0) (i =? 2) i.

(** The calls on the timer queue of a callback, and of all that are due. *)
Definition timer_acts (l : list (lact Empty_set uact)) : list tact :=
  l ≫= (fun a => match a with LOther (UTimer a) => [a] | _ => [] end).
Definition demo_acts (everyId : TimerId) (s : TimerQueue) : list (list tact) := timer_acts <$> demo_plan everyId s.

Section timers.
Context (alloc : gmap Z Timer -> Z) (Halloc : alloc_ok alloc) (at_ ptr : Z -> Z).
Implicit Types (s : TimerQueue) (t c i d p : Z).

(** After the wake-up at [t] the live timers are those the schedule says;
    timer [i] is at [ptr i]. *)
Record follows t s : Prop := mkFollows {
  fo_quiet : quiet s;
  fo_created : numCreated s = 4;
  fo_time : t <= clock s;
  fo_heap p tm : heap s !! p = Some tm <-> exists i d, deadline at_ t i = Some d /\ p = ptr i /\ tm = demo_timer i d
}.

Lemma follows_ptr t s i j d e :
  follows t s -> deadline at_ t i = Some d -> deadline at_ t j = Some e -> ptr i = ptr j -> i = j.
Proof.
  intros F Hi Hj Ep.
  assert (heap s !! ptr i = Some (demo_timer i d)) as H1 by (apply (fo_heap _ _ F); eauto).
  assert (heap s !! ptr i = Some (demo_timer j e)) as H2 by (apply (fo_heap _ _ F); rewrite Ep; eauto).
  rewrite H1 in H2. by injection H2.
Qed.

(** The scheduled timers, seen from the sorted set. *)
Lemma follows_entry t s d p :
  follows t s -> (d, p) ∈ timers_ s <-> exists i, deadline at_ t i = Some d /\ p = ptr i.
Proof.
  intros F. pose proof (q_inv _ (fo_quiet _ _ F)) as I. split.
  - intros Hin. destruct (proj2 (i_dom _ _ I p)) as [tm Htm].
    { apply elem_of_app. left. apply elem_of_ptrs. eauto. }
    pose proof (i_exp _ _ I _ _ _ Hin Htm) as He.
    apply (fo_heap _ _ F) in Htm as (i & e & Hi & -> & ->). simpl in He. subst e. eauto.
  - intros (i & Hi & ->).
    assert (heap s !! ptr i = Some (demo_timer i d)) as Htm by (apply (fo_heap _ _ F); eauto).
    pose proof (proj1 (i_dom _ _ I (ptr i)) (mk_is_Some _ _ Htm)) as Hin. rewrite app_nil_r in Hin.
    apply elem_of_ptrs in Hin as [e He].
    pose proof (i_exp _ _ I _ _ _ He Htm) as Ee. simpl in Ee. by subst e.
Qed.

Lemma follows_active t s p i :
  follows t s -> (p, i) ∈ activeTimers_ s <-> exists d, deadline at_ t i = Some d /\ p = ptr i.
Proof.
  intros F. rewrite (i_active _ _ (q_inv _ (fo_quiet _ _ F))), elem_of_ptrs. split.
  - intros (_ & tm & (j & d & Hj & -> & ->)%(fo_heap _ _ F) & <-). eauto.
  - intros (d & Hi & ->). split; [exists d; by apply (follows_entry t); eauto|].
    exists (demo_timer i d). split; [apply (fo_heap _ _ F); eauto|done].
Qed.

(** What is due is a prefix of the sorted set. *)
Lemma due_prefix (es es' l l' : list Entry) c :
  es ++ l = es' ++ l' -> Forall (fun e : Entry => e.1 <= c) es -> Forall (fun e : Entry => e.1 <= c) es' ->
  Forall (fun e : Entry => c < e.1) l -> Forall (fun e : Entry => c < e.1) l' -> es = es'.
Proof.
  revert es'. induction es as [|e es IH]; intros [|e' es'] E He He' Hl Hl'; simpl in *; [done|..].
  - subst l. apply Forall_cons in Hl as [? _]. apply Forall_cons in He' as [? _]. lia.
  - subst l'. apply Forall_cons in Hl' as [? _]. apply Forall_cons in He as [? _]. lia.
  - injection E as -> E. apply Forall_cons in He as [_ He]. apply Forall_cons in He' as [_ He']. f_equal. by eapply IH.
Qed.

Lemma in_plan {A} (f : Entry -> list A) (es : list Entry) a : a ∈ concat (f <$> es) <-> exists e, e ∈ es /\ a ∈ f e.
Proof.
  induction es as [|e es IH]; cbn.
  - split; [by intros ?%not_elem_of_nil|]. by intros (? & ?%not_elem_of_nil & _).
  - rewrite elem_of_app, IH. split.
    + intros [?|(e' & ? & ?)]; [exists e|exists e']; split; try done; [by left|by right].
    + intros (e' & [->|?]%elem_of_cons & ?); [by left|right; eauto].
Qed.

Lemma cancels_sums id (acts : list tact) :
  (forall a, a ∈ acts -> a = ActCancel id) -> Forall act_ok acts /\ sum_acts act_time acts = 0 /\ sum_acts act_adds acts = 0.
Proof.
  induction acts as [|a acts IH]; intros Ha; [done|].
  destruct IH as (? & ? & ?); [intros b Hb; apply Ha; by right|]. rewrite (Ha a) by by left. split_and!; simpl; [by constructor|lia..].
Qed.

Section expiry.
Context (t : Z) (s : TimerQueue) (F : follows t s) (es : list Entry) (tq : TimerQueue).
Context (Ex : getExpired s (clock s) = Ok (es, tq)).
Context (everyId : TimerId).

Lemma expired_split : exists l, timers_ s = es ++ l /\ Forall (fun e : Entry => e.1 <= (clock s)) es /\ Forall (fun e : Entry => (clock s) < e.1) l.
Proof.
  destruct (getExpired_spec s (clock s) (q_inv _ (fo_quiet _ _ F))) as (es' & l & act & E & Es & _ & H1 & H2).
  rewrite E in Ex. injection Ex as -> _. by exists l.
Qed.

Lemma expired_entry d p : (d, p) ∈ es <-> exists i, deadline at_ t i = Some d /\ p = ptr i /\ d <= (clock s).
Proof.
  destruct expired_split as (l & Es & Hdue & Hlater). split.
  - intros Hin. assert ((d, p) ∈ timers_ s) as Ht by (rewrite Es; apply elem_of_app; by left).
    apply (follows_entry t) in Ht as (i & ? & ->); [|done]. exists i. split_and!; try done.
    eapply Forall_forall in Hdue; [|exact Hin]. done.
  - intros (i & Hi & -> & Hle). assert ((d, ptr i) ∈ timers_ s) as Ht by (apply (follows_entry t); eauto).
    rewrite Es in Ht. apply elem_of_app in Ht as [?|Hl]; [done|].
    eapply Forall_forall in Hlater; [|exact Hl]. simpl in Hlater. lia.
Qed.

Lemma due_timer i : due at_ t (clock s) i = true <-> exists d, deadline at_ t i = Some d /\ d <= (clock s).
Proof.
  unfold due. split.
  - intros Hd. case_match; [|done]. eexists. split; [done|]. by apply Z.leb_le.
  - intros (d & -> & Hd). by apply Z.leb_le.
Qed.

(** The callback of an expired timer, by the timer's number. *)
Lemma expired_callback d i : deadline at_ t i = Some d ->
  demo_callback everyId (default 0%nat (callback_ <$> heap s !! ptr i)) =
    if i =? 3 then [LOther (UTimer (ActCancel everyId))] else if i =? 4 then [LQuit] else [].
Proof.
  intros Hi. assert (heap s !! ptr i = Some (demo_timer i d)) as -> by (apply (fo_heap _ _ F); eauto).
  apply deadline_range in Hi. assert (i = 1 \/ i = 2 \/ i = 3 \/ i = 4) as [->|[->|[->| ->]]] by lia; reflexivity.
Qed.

Lemma demo_plan_expired : demo_plan everyId s =
  (fun e : Entry => demo_callback everyId (default 0%nat (callback_ <$> heap s !! e.2))) <$> es.
Proof. unfold demo_plan. by rewrite Ex. Qed.

Lemma plan_acts a : a ∈ concat (demo_acts everyId s) <-> a = ActCancel everyId /\ due at_ t (clock s) 3 = true.
Proof.
  unfold demo_acts. rewrite demo_plan_expired, <- list_fmap_compose, in_plan. split.
  - intros ([d p] & (i & Hi & -> & Hle)%expired_entry & Ha). cbn in Ha. rewrite (expired_callback d i Hi) in Ha.
    destruct (Z.eqb_spec i 3) as [->|_]; [|by case_match; apply not_elem_of_nil in Ha].
    apply list_elem_of_singleton in Ha. split; [done|]. apply due_timer. eauto.
  - intros [-> (d & Hi & Hle)%due_timer]. exists (d, ptr 3). split; [apply expired_entry; eauto|].
    cbn. rewrite (expired_callback d 3 Hi). by left.
Qed.

Lemma plan_quits : LQuit ∈ concat (demo_plan everyId s) <-> due at_ t (clock s) 4 = true.
Proof.
  rewrite demo_plan_expired, in_plan. split.
  - intros ([d p] & (i & Hi & -> & Hle)%expired_entry & Ha). cbn in Ha. rewrite (expired_callback d i Hi) in Ha.
    destruct (Z.eqb_spec i 3); [by apply list_elem_of_singleton in Ha|].
    destruct (Z.eqb_spec i 4) as [->|]; [|by apply not_elem_of_nil in Ha]. apply due_timer. eauto.
  - intros (d & Hi & Hle)%due_timer. exists (d, ptr 4). split; [apply expired_entry; eauto|].
    cbn. rewrite (expired_callback d 4 Hi). by left.
Qed.

(** The numbers of the timers that ran. *)
Lemma expired_log : (ids_of (heap s) es).*2 ≡ₚ List.filter (due at_ t (clock s)) [1; 2; 3; 4].
Proof.
  assert (forall p i, (p, i) ∈ ids_of (heap s) es <-> due at_ t (clock s) i = true /\ p = ptr i) as Hid.
  { intros p i. rewrite due_timer. unfold ids_of. rewrite list_elem_of_fmap. split.
    - intros ([d p'] & [= -> ->] & (j & Hj & -> & Hle)%expired_entry).
      assert (heap s !! ptr j = Some (demo_timer j d)) as -> by (apply (fo_heap _ _ F); eauto). simpl. eauto.
    - intros ((d & Hi & Hle) & ->). exists (d, ptr i). split; [|apply expired_entry; eauto].
      assert (heap s !! ptr i = Some (demo_timer i d)) as E by (apply (fo_heap _ _ F); eauto). simpl. by rewrite E. }
  assert (forall i, i ∈ List.filter (due at_ t (clock s)) [1; 2; 3; 4] <-> due at_ t (clock s) i = true) as Hdue.
  { intros i. rewrite list_elem_of_In, filter_In, <- list_elem_of_In. split; [tauto|]. intros Hd. split; [|done].
    apply due_timer in Hd as (d & Hi%deadline_range & _).
    assert (i = 1 \/ i = 2 \/ i = 3 \/ i = 4) as [->|[->|[->| ->]]] by lia; set_solver. }
  apply NoDup_Permutation.
  - apply NoDup_fmap_2_strong.
    + intros [p i] [q j] [_ ->]%Hid [_ ->]%Hid. simpl. by intros ->.
    + destruct expired_split as (l & Es & _). pose proof (i_nodup _ _ (q_inv _ (fo_quiet _ _ F))) as Hn.
      rewrite app_nil_r, Es, fmap_app in Hn. apply NoDup_app in Hn as [Hn _].
      unfold ids_of. apply (NoDup_fmap_1 fst). by rewrite <- list_fmap_compose.
  - apply NoDup_ListNoDup, List.NoDup_filter. apply (proj1 (NoDup_ListNoDup _)). by_decide.
  - intros i. rewrite Hdue, list_elem_of_fmap. split.
    + by intros ([p j] & -> & [? _]%Hid).
    + intros Hd. exists (ptr i, i). split; [done|]. by apply Hid.
Qed.
End expiry.

(** An expiry: what ran, and what is left. *)
Section expired.
Context (t : Z) (s s' : TimerQueue) (es l : list Entry) (acts : list tact).
Context (F : follows t s) (Q' : quiet s') (Fr : fire_rel s s' es l acts).
Context (Hacts : forall a, a ∈ acts <-> a = ActCancel (ptr 2, 2) /\ due at_ t (clock s) 3 = true).

Lemma fired_clock : clock s' = clock s /\ numCreated s' = numCreated s.
Proof.
  destruct (cancels_sums (ptr 2, 2) acts) as (_ & Ht & Hn); [intros a Ha; by apply Hacts in Ha as [? _]|].
  rewrite (fi_clock _ _ _ _ _ Fr), (fi_created _ _ _ _ _ Fr). lia.
Qed.

Lemma cancelled_iff p i d : deadline at_ t i = Some d -> p = ptr i ->
  ActCancel (p, i) ∈ acts <-> (i =? 2) && due at_ t (clock s) 3 = true.
Proof.
  intros Hi ->. rewrite Hacts. rewrite andb_true_iff, Z.eqb_eq. split; [by intros [[= _ ->] ?]|by intros [-> ?]].
Qed.

(** A timer that is left was pending and is not cancelled. *)
Lemma left_timer p tm : heap s' !! p = Some tm ->
  exists i d, deadline at_ t i = Some d /\ p = ptr i /\ ActCancel (p, i) ∉ acts.
Proof.
  intros Htm. pose proof (q_inv _ Q') as I'.
  pose proof (proj1 (i_dom _ _ I' p) (mk_is_Some _ _ Htm)) as Hin. rewrite app_nil_r in Hin.
  assert ((p, sequence_ tm) ∈ activeTimers_ s') as Hact by (apply (i_active _ _ I'); eauto).
  pose proof (proj1 (proj2 (i_timer _ _ I' _ _ Htm))) as Hseq. rewrite (proj2 fired_clock) in Hseq.
  pose proof (fi_drop _ _ _ _ _ Fr (p, sequence_ tm)) as Hdrop. cbn [snd] in Hdrop.
  destruct (decide ((p, sequence_ tm) ∈ activeTimers_ s)) as [Ha|Ha].
  - pose proof Ha as (d & Hi & ->)%(follows_active t); [|done]. exists (sequence_ tm), d. split_and!; try done.
    intros Hc. apply Hdrop; [by right|lia|done].
  - exfalso. apply Hdrop; [by left|lia|done].
Qed.

(** A timer that was pending has what its schedule says. *)
Lemma expired_timer i d : deadline at_ t i = Some d -> heap s' !! ptr i = demo_timer i <$> deadline at_ (clock s) i.
Proof.
  intros Hi. assert (heap s !! ptr i = Some (demo_timer i d)) as Htm by (apply (fo_heap _ _ F); eauto).
  assert ((d, ptr i) ∈ timers_ s) as Hin by (apply (follows_entry t); eauto).
  rewrite (deadline_step at_ t (clock s) i d (fo_time _ _ F) Hi). pose proof Hin as Hin'.
  rewrite (fi_split _ _ _ _ _ Fr) in Hin'. apply elem_of_app in Hin' as [He|Hl].
  - pose proof (fi_due _ _ _ _ _ Fr) as Hd. eapply Forall_forall in Hd; [|exact He]. cbn [fst] in Hd.
    rewrite (proj2 (Z.ltb_ge _ _) Hd).
    destruct (fi_run _ _ _ _ _ Fr (ptr i)) as (tm & Htm' & Hrun); [apply elem_of_ptrs; eauto|].
    rewrite Htm in Htm'. injection Htm' as <-. cbn [demo_timer repeat_ sequence_ interval_ expiration_] in Hrun.
    pose proof (cancelled_iff _ i d Hi eq_refl) as Hc.
    destruct (Z.eqb_spec i 2) as [->|_]; [|by rewrite andb_false_l in Hrun |- *]. cbn [andb] in Hc, Hrun |- *.
    destruct (due at_ t (clock s) 3); cbn [negb].
    + rewrite bool_decide_eq_false_2 in Hrun; [done|]. intros Hn. by apply Hn, Hc.
    + rewrite bool_decide_eq_true_2 in Hrun by (rewrite Hc; done). destruct Hrun as (n & Hn & He' & -> & _).
      unfold ns_per_us in *. cbn [fmap option_fmap option_map]. unfold deadline in Hi. change (2 =? 1) with false in Hi. cbn in Hi.
      case_match; [|done]. injection Hi as <-. unfold set_expiration, demo_timer. cbn. do 2 f_equal.
      replace (n * (1000000 * 1000)) with (n * second) in * by (unfold second; lia).
      apply (next_second_unique (at_ 2) t (clock s) n); unfold second in *; lia.
  - pose proof (fi_later _ _ _ _ _ Fr) as Hd. eapply Forall_forall in Hd; [|exact Hl]. cbn [fst] in Hd.
    rewrite (proj2 (Z.ltb_lt _ _) Hd). pose proof (cancelled_iff _ i d Hi eq_refl) as Hc.
    destruct ((i =? 2) && due at_ t (clock s) 3) eqn:Ec; cbn [fmap option_fmap option_map].
    + assert (ActCancel (ptr i, i) ∈ acts) as Ha by by apply Hc.
      destruct (heap s' !! ptr i) as [tm|] eqn:E'; [exfalso|done].
      destruct (left_timer _ _ E') as (j & e & Hj & Ep & Hn). pose proof (follows_ptr t s i j d e F Hi Hj Ep) as <-. by apply Hn.
    + apply (fi_keep _ _ _ _ _ Fr d); [done|done|]. rewrite Hc. done.
Qed.

Lemma expired_follows : follows (clock s) s'.
Proof.
  destruct fired_clock as [Ec En]. split; [done|by rewrite En, (fo_created _ _ F)|lia|]. intros p tm. split.
  - intros Htm. destruct (left_timer p tm Htm) as (i & d & Hi & -> & _).
    rewrite (expired_timer i d Hi) in Htm. apply fmap_Some in Htm as (e & He & ->). eauto.
  - intros (i & e & He & -> & ->). destruct (deadline at_ t i) as [d|] eqn:Hi.
    + by rewrite (expired_timer i d Hi), He.
    + by rewrite (deadline_none at_ t (clock s) i (fo_time _ _ F) Hi) in He.
Qed.
End expired.

Lemma demo_fire t s :
  follows t s ->
  exists s' log, fire alloc s (demo_acts (ptr 2, 2) s) = Ok s' /\ follows (clock s) s' /\ clock s' = clock s /\
    (fired s').*1.*2 = (fired s).*1.*2 ++ log /\ log ≡ₚ List.filter (due at_ t (clock s)) [1; 2; 3; 4].
Proof.
  intros F. pose proof (fo_quiet _ _ F) as Q. pose proof (q_inv _ Q) as I.
  destruct (getExpired_spec s (clock s) I) as (es & l & act & Ex & Es & _ & Hdue & Hlater).
  pose proof (plan_acts t s F es _ Ex (ptr 2, 2)) as Hplan.
  destruct (cancels_sums (ptr 2, 2) (concat (demo_acts (ptr 2, 2) s))) as (Hok & Ht & Hn);
    [intros a Ha; by apply Hplan in Ha as [? _]|].
  pose proof (i_clock _ _ I) as Hclk. unfold clock_ok in Hclk.
  destruct (fire_spec alloc Halloc s (demo_acts (ptr 2, 2) s) I) as (s' & es' & l' & E & Q' & Fr).
  { split_and!; [done|rewrite Ht; lia|rewrite Hn, (fo_created _ _ F); unfold max_timers; lia]. }
  assert (es' = es) as ->.
  { apply (due_prefix es' es l' l (clock s)); try apply Fr; try done. by rewrite <- Es, <- (fi_split _ _ _ _ _ Fr). }
  rewrite take_ge in Fr by (unfold demo_acts; by rewrite (demo_plan_expired s es _ Ex), !length_fmap).
  exists s', (ids_of (heap s) es).*2. split_and!; [done|by eapply expired_follows|by eapply fired_clock| |by eapply expired_log].
  by rewrite (fi_fired _ _ _ _ _ Fr), fmap_app.
Qed.
End timers.

(** ** [main] up to the loop *)
Section setup.
Context (alloc : gmap Z Timer -> Z) (Halloc : alloc_ok alloc) (first : Z -> Z).
Implicit Types (s : TimerQueue) (ptr : Z -> Z) (k d : Z).

(** The first [k] timers are scheduled. *)
Record built ptr k s : Prop := mkBuilt {
  bu_inv : tq_inv [] s;
  bu_armed : armed (fun _ => True) s;
  bu_calling : callingExpiredTimers_ s = false;
  bu_created : numCreated s = k;
  bu_fired : fired s = [];
  bu_heap p tm : heap s !! p = Some tm <-> exists i, 1 <= i <= k /\ p = ptr i /\ tm = demo_timer i (first i)
}.

Lemma built_new ptr now : clock_ok now -> built ptr 0 (TimerQueue_new now).
Proof.
  intros Hnow. destruct (new_quiet now Hnow) as [I A C]. split; try done.
  intros p tm. simpl. rewrite lookup_empty. split; [done|]. intros (i & ? & _). lia.
Qed.

Lemma built_sleep ptr k s d : built ptr k s -> 0 <= d -> clock s + d < 2 ^ 61 -> built ptr k (set_clock s (clock s + d)).
Proof.
  intros [I A C N Fi Hh] Hd Hc. pose proof (i_clock _ _ I) as Hclk. unfold clock_ok in Hclk. split; try done.
  - eapply inv_frame; try done. unfold clock_ok. simpl. lia.
  - apply armed_clock; [lia|done].
Qed.

Lemma built_add ptr k s when interval :
  built ptr k s -> 0 <= k <= 3 -> - 2 ^ 61 <= when <= 2 ^ 62 -> interval = (if k + 1 =? 2 then 1000000 else 0) -> first (k + 1) = when ->
  exists p s', addTimer alloc s (Z.to_nat (k + 1)) when interval = Ok ((p, k + 1), s') /\
    built (fun i => if i =? k + 1 then p else ptr i) (k + 1) s' /\ clock s' = clock s.
Proof.
  intros [I A C N Fi Hh] Hk Hw Hi Ef.
  destruct (addTimer_spec alloc Halloc [] _ s (Z.to_nat (k + 1)) when interval I A Hw)
    as (s' & E & I' & A' & Fr & Hfresh & Hheap & _ & _).
  { subst interval. unfold interval_ok, ns_per_us. case_match; lia. }
  { rewrite N. unfold max_timers. lia. }
  rewrite N in E, Hfresh, Hheap. cbn [fst snd] in *. exists (alloc (heap s)), s'. split_and!; [done| |].
  - split; [done|done|by rewrite (f_calling _ _ _ _ Fr)|rewrite (f_created _ _ _ _ Fr), N; simpl; lia|by rewrite (f_fired _ _ _ _ Fr)|].
    intros p tm. rewrite Hheap.
    assert (mkTimer (Z.to_nat (k + 1)) when interval (0 <? interval) (k + 1) = demo_timer (k + 1) (first (k + 1))) as ->.
    { unfold demo_timer. rewrite Ef. subst interval. by case_match. }
    rewrite lookup_insert_Some, Hh. split.
    + intros [[<- <-]|(Hne & i & Hi' & -> & ->)].
      * exists (k + 1). rewrite Z.eqb_refl. split_and!; [lia..|done|done].
      * exists i. rewrite (proj2 (Z.eqb_neq _ _)) by lia. split_and!; [lia..|done|done].
    + intros (i & Hi' & -> & ->). destruct (Z.eqb_spec i (k + 1)) as [->|Hne]; [by left|right].
      split; [|exists i; split_and!; [lia..|done|done]]. intros Eq.
      assert (heap s !! ptr i = Some (demo_timer i (first i))) as Hp by (apply Hh; exists i; split_and!; [lia..|done|done]).
      rewrite <- Eq, Hfresh in Hp. done.
  - rewrite (f_clock _ _ _ _ Fr). simpl. lia.
Qed.
End setup.

Section main.
Context {K Q : Type} (alloc : gmap Z Timer -> Z) (Halloc : alloc_ok alloc).
Implicit Types (w : EventLoop K Empty_set Q) (s : TimerQueue) (now d : Z) (gaps : Z * Z * Z * Z).

Lemma runAfter_at s num den count delay cb t r :
  duration_to_us num den count = Ok delay -> clock s = t -> clock_ok t -> 0 <= delay <= 10000000 ->
  addTimer alloc s cb (t + delay * 1000) 0 = Ok r -> runAfter_duration alloc s num den count cb = Ok r.
Proof.
  unfold clock_ok, runAfter_duration, runAfter, runAt, us_to_ns, ns_per_us. intros -> <- Hc Hd E.
  cbn [mbind res_bind]. rewrite !i64_Ok by lia. cbn [mbind res_bind]. by rewrite !i64_Ok by lia.
Qed.

Lemma runEvery_at s num den count delay cb t r :
  duration_to_us num den count = Ok delay -> clock s = t -> clock_ok t -> 0 <= delay <= 10000000 ->
  addTimer alloc s cb (t + delay * 1000) delay = Ok r -> runEvery_duration alloc s num den count cb = Ok r.
Proof.
  unfold clock_ok, runEvery_duration, runEvery, us_to_ns, ns_per_us. intros -> <- Hc Hd E.
  cbn [mbind res_bind]. rewrite !i64_Ok by lia. cbn [mbind res_bind]. by rewrite !i64_Ok by lia.
Qed.

Definition gaps_ok gaps : Prop :=
  let '(d1, d2, d3, d4) := gaps in 0 <= d1 /\ 0 <= d2 /\ 0 <= d3 /\ 0 <= d4.

(** The deadlines before the loop. *)
Definition first_deadline now gaps i : Z := default 0 (deadline (call_time now gaps) now i).

Lemma first_deadlines now gaps : gaps_ok gaps ->
  let at_ := call_time now gaps in
  forall i, deadline at_ now i =
    if i =? 1 then Some (at_ 1 + 2500000 * 1000) else if i =? 2 then Some (at_ 2 + 1000000 * 1000)
    else if i =? 3 then Some (at_ 3 + 5500000 * 1000) else if i =? 4 then Some (at_ 4 + 10000000 * 1000) else None.
Proof.
  destruct gaps as [[[d1 d2] d3] d4]. intros (H1 & H2 & H3 & H4) at_ i.
  assert (at_ 1 = now + d1 /\ at_ 2 = now + d1 + d2 /\ at_ 3 = now + d1 + d2 + d3 /\ at_ 4 = now + d1 + d2 + d3 + d4)
    as (E1 & E2 & E3 & E4) by (unfold at_, call_time; simpl; lia).
  unfold deadline, next_second, second. rewrite E1, E2, E3, E4.
  pose proof (Z.div_mod (now - (now + d1 + d2)) 1000000000 ltac:(lia)).
  pose proof (Z.mod_pos_bound (now - (now + d1 + d2)) 1000000000 ltac:(lia)).
  rewrite !(proj2 (Z.ltb_lt _ _)) by lia. repeat case_match; try done; f_equal; lia.
Qed.

Lemma demo_setup_spec w now gaps :
  timerQueue_ w = TimerQueue_new now -> clock_ok now -> gaps_ok gaps -> call_time now gaps 4 < 2 ^ 61 ->
  exists ptr tq, demo_setup alloc w gaps = Ok ((ptr 2, 2), set_timers w tq) /\
    follows (call_time now gaps) ptr now tq /\ clock tq = call_time now gaps 4 /\ fired tq = [].
Proof.
  intros Ew Hnow Hg Hlt. pose proof (first_deadlines now gaps Hg) as Hd. set (at_ := call_time now gaps) in *.
  assert (forall i, 1 <= i <= 4 -> exists x, deadline at_ now i = Some x /\ first_deadline now gaps i = x) as Hfirst.
  { intros i Hi. unfold first_deadline. fold at_. rewrite Hd. repeat case_match; try lia; eauto. }
  assert (first_deadline now gaps 1 = at_ 1 + 2500000 * 1000 /\ first_deadline now gaps 2 = at_ 2 + 1000000 * 1000 /\
    first_deadline now gaps 3 = at_ 3 + 5500000 * 1000 /\ first_deadline now gaps 4 = at_ 4 + 10000000 * 1000)
    as (F1 & F2 & F3 & F4) by (unfold first_deadline; fold at_; rewrite !Hd; done).
  destruct gaps as [[[d1 d2] d3] d4]. destruct Hg as (G1 & G2 & G3 & G4). unfold clock_ok in Hnow.
  assert (at_ 1 = now + d1 /\ at_ 2 = now + d1 + d2 /\ at_ 3 = now + d1 + d2 + d3 /\ at_ 4 = now + d1 + d2 + d3 + d4)
    as (A1 & A2 & A3 & A4) by (unfold at_, call_time; simpl; lia).
  set (first := first_deadline now (d1, d2, d3, d4)) in *.
  pose proof (built_sleep first (fun _ => 0) 0 _ d1 (built_new first _ now Hnow) G1 ltac:(simpl; lia)) as B.
  destruct (built_add alloc Halloc first _ 0 _ (at_ 1 + 2500000 * 1000) 0 B) as (p1 & s1 & E1 & B1 & C1); [lia..|done|done|].
  apply (built_sleep _ _ _ _ d2) in B1; [|done|rewrite C1; simpl; lia].
  destruct (built_add alloc Halloc first _ _ _ (at_ 2 + 1000000 * 1000) 1000000 B1) as (p2 & s2 & E2 & B2 & C2); [lia..|done|done|].
  apply (built_sleep _ _ _ _ d3) in B2; [|done|rewrite C2; simpl; rewrite C1; simpl; lia].
  destruct (built_add alloc Halloc first _ _ _ (at_ 3 + 5500000 * 1000) 0 B2) as (p3 & s3 & E3 & B3 & C3); [lia..|done|done|].
  apply (built_sleep _ _ _ _ d4) in B3; [|done|rewrite C3; simpl; rewrite C2; simpl; rewrite C1; simpl; lia].
  destruct (built_add alloc Halloc first _ _ _ (at_ 4 + 10000000 * 1000) 0 B3) as (p4 & s4 & E4 & B4 & C4); [lia..|done|done|].
  simpl in C1, C2, C3, C4.
  match type of B4 with built _ ?f _ _ => exists f, s4 end. split_and!.
  - unfold demo_setup, sleep. rewrite Ew. cbn [TimerQueue_new clock timerQueue_ set_timers set_clock].
    apply (runAfter_at _ 1 1000 2500 2500000 cb_once (at_ 1)) in E1; [|reflexivity|simpl; lia|unfold clock_ok; lia|lia].
    apply (runEvery_at _ 1 1 1 1000000 cb_every (at_ 2)) in E2; [|reflexivity|simpl; lia|unfold clock_ok; lia|lia].
    apply (runAfter_at _ 1 1000 5500 5500000 cb_cancel (at_ 3)) in E3; [|reflexivity|simpl; lia|unfold clock_ok; lia|lia].
    apply (runAfter_at _ 1 1 10 10000000 cb_quit (at_ 4)) in E4; [|reflexivity|simpl; lia|unfold clock_ok; lia|lia].
    simpl in E1. rewrite E1. cbn [mbind res_bind timerQueue_ set_timers]. rewrite E2. cbn [mbind res_bind timerQueue_ set_timers].
    rewrite E3. cbn [mbind res_bind timerQueue_ set_timers]. by rewrite E4.
  - destruct B4 as [I A C N Fi Hh]. split; [by split|done|lia|]. intros p tm. rewrite Hh. split.
    + intros (i & Hi & -> & ->). destruct (Hfirst i Hi) as (x & Hx & <-). eauto.
    + intros (i & x & Hx & -> & ->). pose proof (deadline_range _ _ _ _ Hx) as Hi. destruct (Hfirst i Hi) as (y & Hy & Ey).
      rewrite Hx in Hy. injection Hy as <-. exists i. rewrite Ey. split_and!; done || lia.
  - lia.
  - apply B4.
Qed.
End main.

(** ** The callbacks on the whole loop

    What they do to it: what [timer_acts] says to the timers, and [quit]. *)
Definition quits (l : list (lact Empty_set uact)) : bool := existsb (fun a => match a with LQuit => true | _ => false end) l.
Definition after_code {F Q} `{PendingOps F Q} (l : list (lact Empty_set uact)) (s : Loop F Q) : Loop F Q :=
  if quits l then quit true s else s.
Definition room (s : TimerQueue) : Prop := acts_ok s [].

Section on_loop.
Context {K Q : Type} `{Kernel K} `{PendingOps Empty_set Q}.
Context (alloc : gmap Z Timer -> Z) (everyId : TimerId).
Implicit Types (w : EventLoop K Empty_set Q) (s : TimerQueue) (cb : nat).

Lemma after_code_app l1 l2 (s : Loop Empty_set Q) : after_code (l1 ++ l2) s = after_code l2 (after_code l1 s).
Proof.
  unfold after_code, quits. rewrite existsb_app. destruct (existsb _ l1), (existsb _ l2); reflexivity.
Qed.

Lemma cancel_room s id s' : cancel s id = Ok s' -> room s -> room s'.
Proof.
  unfold cancel, cancelInLoop, resetTimerfd. intros E R.
  destruct (sizes_agree s); cbn [assert_ mbind res_bind] in E; [|done].
  case_bool_decide; [|by case_match; injection E as <-].
  destruct (heap s !! id.1) as [t|]; cbn [deref mbind res_bind] in E; [|done].
  destruct (set_erase _ _) as [n l]. destruct (n =? 1); cbn [assert_ mbind res_bind] in E; [|done].
  case_match; [|by injection E as <-]. destruct l as [|it l]; [by injection E as <-|].
  apply bind_Ok_inv in E as (t' & _ & E). apply bind_Ok_inv in E as (ts & _ & E). by injection E as <-.
Qed.

Lemma code_room s cb s' : do_acts alloc s (timer_acts (demo_callback everyId cb)) = Ok s' -> room s -> room s'.
Proof.
  unfold demo_callback. destruct (Nat.eqb cb cb_cancel); [|destruct (Nat.eqb cb cb_quit); cbn; by intros [= ->]].
  cbn. intros E. apply bind_Ok_inv in E as (s1 & E & [= ->]). by apply (cancel_room s everyId).
Qed.

Lemma demo_code n w cb : room (timerQueue_ w) ->
  handlers (user alloc any_call) no_functor n w (demo_callback everyId cb) =
    (tq ← do_acts alloc (timerQueue_ w) (timer_acts (demo_callback everyId cb));
     Ok (set_pending (set_timers w tq) (after_code (demo_callback everyId cb) (pending w)))).
Proof.
  intros R. unfold demo_callback, handlers. destruct (Nat.eqb cb cb_cancel).
  - cbn [do_lacts do_lact timer_acts]. unfold user. rewrite decide_True.
    + cbn. destruct (cancel (timerQueue_ w) everyId); [by destruct w|done].
    + split; [done|]. destruct R as (_ & ? & ?). split_and!; [by repeat constructor|simpl in *; lia..].
  - destruct (Nat.eqb cb cb_quit); cbn; by destruct w.
Qed.

Lemma run_demo n w (es : list Entry) (cbs : list nat) :
  length cbs = length es -> room (timerQueue_ w) ->
  run_expired (handlers (user alloc any_call) no_functor n) w es (demo_callback everyId <$> cbs) =
    (tq ← run_expired (W := TimerQueue) (do_acts alloc) (timerQueue_ w) es (timer_acts <$> (demo_callback everyId <$> cbs));
     Ok (set_pending (set_timers w tq) (after_code (concat (demo_callback everyId <$> cbs)) (pending w)))).
Proof.
  revert w cbs. induction es as [|e es IH]; intros w [|cb cbs] Hl R; try done; cbn [run_expired fmap list_fmap].
  { by destruct w. }
  injection Hl as Hl. change (get w) with (timerQueue_ w). cbn [get part_self].
  destruct (heap (timerQueue_ w) !! e.2) as [t|]; cbn [deref mbind res_bind]; [|done].
  cbn [head default from_option id tail concat].
  unfold modify. cbn [get put part_self timers_part].
  rewrite (demo_code n (set_timers w (log_fired (timerQueue_ w) (e.2, sequence_ t)))) by done.
  cbn [timerQueue_ set_timers pending].
  destruct (do_acts alloc (log_fired (timerQueue_ w) (e.2, sequence_ t)) _) as [tq|f] eqn:E; cbn [mbind res_bind]; [|done].
  fold (@fmap list list_fmap). rewrite IH; [|done|by eapply code_room]. cbn [timerQueue_ set_timers set_pending pending].
  by rewrite after_code_app.
Qed.

Lemma handleRead_demo n w (es : list Entry) tq :
  room (timerQueue_ w) -> getExpired (timerQueue_ w) (clock (timerQueue_ w)) = Ok (es, tq) -> room tq ->
  TimerQueue.handleRead (handlers (user alloc any_call) no_functor n) w (demo_plan everyId (timerQueue_ w)) =
    (s ← TimerQueue.handleRead (do_acts alloc) (timerQueue_ w) (demo_acts everyId (timerQueue_ w));
     Ok (set_pending (set_timers w s) (after_code (concat (demo_plan everyId (timerQueue_ w))) (pending w)))).
Proof.
  intros R E Rt. unfold demo_acts. rewrite (demo_plan_expired (timerQueue_ w) es tq E everyId).
  unfold TimerQueue.handleRead. cbn [get put timers_part part_self]. rewrite E. cbn [mbind res_bind].
  change ((fun e : Entry => demo_callback everyId (default 0%nat (callback_ <$> heap (timerQueue_ w) !! e.2))) <$> es)
    with ((demo_callback everyId ∘ (fun e : Entry => default 0%nat (callback_ <$> heap (timerQueue_ w) !! e.2))) <$> es).
  rewrite list_fmap_compose. set (cbs := _ <$> es).
  rewrite run_demo; [|by apply length_fmap|done]. cbn [timerQueue_ set_timers].
  destruct (run_expired _ _ es _) as [s1|f]; cbn [mbind res_bind]; [|done].
  cbn [timerQueue_ set_timers set_pending]. destruct (reset _ _ _); cbn [mbind res_bind]; by destruct w.
Qed.
End on_loop.

(** ** A round *)
Section rounds.
Context {K Q : Type} `{KernelLaws K} `{PendingQueue Empty_set Q}.
Context (alloc : gmap Z Timer -> Z) (Halloc : alloc_ok alloc) (at_ ptr : Z -> Z).
Implicit Types (w : EventLoop K Empty_set Q) (s : TimerQueue) (t d : Z).

Lemma no_functors (l : list Empty_set) : l = [].
Proof. by destruct l as [|[]]. Qed.

(** The timer descriptor is what the loop listens on. *)
Lemma demo_answer w : rest_ok w -> answer_ok w (WEvents [(EPOLLIN, timerfdChannel_ (fixed w))]).
Proof.
  intros R. destruct (ro_open _ R) as [I _]. split; [|by intros e [= ->]%list_elem_of_singleton].
  split_and!; cbn [events_of].
  - pose proof (ri_size _ I) as Hs. unfold kInitEventListSize in Hs. unfold zlen. simpl. lia.
  - apply NoDup_singleton.
  - apply Forall_singleton. destruct (ro_timer _ R) as (c & Hc & Hf & He & _).
    exists (timerfd_ (fixed w)), kReadEvent. split; [|by vm_compute].
    apply (inv_mirrors _ I). exists c. split_and!; done.
Qed.

Lemma loop_sleep t w d : loop_inv w [] -> follows at_ ptr t (timerQueue_ w) -> 0 <= d -> clock (timerQueue_ w) + d < 2 ^ 61 ->
  loop_inv (sleep w d) [] /\ follows at_ ptr t (timerQueue_ (sleep w d)) /\
  pending (sleep w d) = pending w /\ fixed (sleep w d) = fixed w /\ fired (timerQueue_ (sleep w d)) = fired (timerQueue_ w).
Proof.
  intros [R [I A C] Hok Hr Hh] F Hd Hlt. pose proof (i_clock _ _ I) as Hclk. unfold clock_ok in Hclk.
  assert (quiet (timerQueue_ (sleep w d))) as Q'.
  { split; [|by apply armed_clock; [lia|]|done]. eapply inv_frame; try done. unfold clock_ok. simpl. lia. }
  split_and!; try done.
  - split; try done; [by destruct R|]. destruct Hok as (? & ? & ?). split_and!; [done|simpl in *; lia|done].
  - destruct F as [_ N T Hh']. split; [done|done|simpl; lia|done].
Qed.

Lemma follows_room t s : follows at_ ptr t s -> room s.
Proof.
  intros F. pose proof (i_clock _ _ (q_inv _ (fo_quiet _ _ _ _ F))) as Hclk. unfold clock_ok in Hclk.
  split_and!; [done|simpl; lia|simpl; rewrite (fo_created _ _ _ _ F); unfold max_timers; lia].
Qed.

Lemma demo_plan_disarm t s : follows at_ ptr t s ->
  exists es tq, getExpired (disarmTimerfd s) (clock s) = Ok (es, tq) /\ room tq /\
    demo_plan (ptr 2, 2) (disarmTimerfd s) = demo_plan (ptr 2, 2) s.
Proof.
  intros F. pose proof (q_inv _ (fo_quiet _ _ _ _ F)) as I.
  assert (tq_inv [] (disarmTimerfd s)) as I' by (eapply inv_frame; try done; apply (i_clock _ _ I)).
  destruct (getExpired_spec s (clock s) I) as (es & l & act & E & Es & _ & D1 & L1).
  destruct (getExpired_spec _ (clock s) I') as (es' & l' & act' & E' & Es' & _ & D2 & L2).
  assert (es' = es) as ->.
  { apply (due_prefix es' es l' l (clock s)); try done. change (timers_ s = es' ++ l') in Es'. congruence. }
  exists es, (set_sets (disarmTimerfd s) l' act'). split_and!; [done| |].
  - exact (follows_room t s F).
  - rewrite (demo_plan_expired s es _ E). by rewrite (demo_plan_expired (disarmTimerfd s) es _ E').
Qed.

(** The read callback of the timer descriptor, on the loop. *)
Lemma demo_expiry n t w v :
  follows at_ ptr t (timerQueue_ w) -> timerQueue_ v = disarmTimerfd (timerQueue_ w) ->
  exists s' log, TimerQueue.handleRead (handlers (user alloc any_call) no_functor n) v (demo_plan (ptr 2, 2) (timerQueue_ w)) =
      Ok (set_pending (set_timers v s') (after_code (concat (demo_plan (ptr 2, 2) (timerQueue_ w))) (pending v))) /\
    follows at_ ptr (clock (timerQueue_ w)) s' /\ clock s' = clock (timerQueue_ w) /\
    (fired s').*1.*2 = (fired (timerQueue_ w)).*1.*2 ++ log /\
    log ≡ₚ List.filter (due at_ t (clock (timerQueue_ w))) [1; 2; 3; 4].
Proof.
  intros F Ev. set (s := timerQueue_ w) in *.
  destruct (demo_fire alloc Halloc at_ ptr t s F) as (s' & log & E & F' & Ec & Ef & Hlog).
  destruct (demo_plan_disarm t s F) as (es & tq & Ex & Rt & Ep).
  exists s', log. split_and!; try done.
  rewrite <- Ep. change (demo_acts (ptr 2, 2) s) with (timer_acts <$> demo_plan (ptr 2, 2) s) in E. rewrite <- Ep in E.
  rewrite <- Ev in Ex, E |- *. unfold fire in E. rewrite <- Ev in E.
  rewrite (handleRead_demo alloc (ptr 2, 2) n v es tq); [|rewrite Ev; exact (follows_room t s F)| |done].
  - change (demo_acts (ptr 2, 2) (timerQueue_ v)) with (timer_acts <$> demo_plan (ptr 2, 2) (timerQueue_ v)). by rewrite E.
  - rewrite <- Ex. by rewrite Ev.
Qed.

Lemma demo_handle_spec n t w :
  loop_inv w [] -> follows at_ ptr t (timerQueue_ w) ->
  exists w' log, handle_events alloc any_call no_functor n w (demo_round (ptr 2, 2) w) = Ok w' /\
    loop_inv w' [] /\ follows at_ ptr (clock (timerQueue_ w)) (timerQueue_ w') /\ clock (timerQueue_ w') = clock (timerQueue_ w) /\
    fixed w' = fixed w /\ pending w' = after_code (concat (demo_plan (ptr 2, 2) (timerQueue_ w))) (pending w) /\
    (fired (timerQueue_ w')).*1.*2 = (fired (timerQueue_ w)).*1.*2 ++ log /\
    log ≡ₚ List.filter (due at_ t (clock (timerQueue_ w))) [1; 2; 3; 4].
Proof.
  intros L F. set (p := timerfdChannel_ (fixed w)).
  destruct (poll_active_spec w [] _ L (demo_answer w (li_rest _ _ L)))
    as (w1 & E1 & R1 & P1 & F1 & H1' & A1 & T1 & Hl & Hpt). cbn [events_of] in *.
  destruct (expire_spec w (WEvents [(EPOLLIN, p)])) as (_ & _ & _ & _ & ET). cbn [events_of] in ET.
  rewrite bool_decide_eq_true_2 in ET by by left. fold p in T1, A1, Hl, Hpt. rewrite ET in T1.
  destruct (Hl p) as [c Hc]; [by left|]. destruct (Hpt c) as [Hro Hre]; [by left|done|].
  set (v := set_handling_events w1 true).
  set (c0 := set_handling c true). set (ra := set_chan (poller_ v) p c0).
  assert (touch (poller_ v) ra) as T1' by by constructor.
  assert (touch ra (log_cbk ra p CbRead)) as T2 by constructor.
  set (v0 := set_poller v (log_cbk ra p CbRead)).
  assert (rest_ok v0) as R0.
  { apply (rest_touch (set_poller v ra)); [|done]. apply rest_touch; [by destruct R1|done]. }
  destruct (demo_expiry n t w v0 F T1) as (s' & log & E & F' & Ec & Ef & Hlog).
  set (v1 := set_pending (set_timers v0 s') _) in E.
  assert (chans (poller_ v1) !! p = Some c0) as Hc1 by apply lookup_insert_eq.
  set (r1 := set_chan (poller_ v1) p (set_handling c0 false)).
  assert (touch (poller_ v1) r1) as T3 by by constructor.
  assert (handleEvent (callback alloc any_call no_functor n (demo_round (ptr 2, 2) w)) v p = Ok (set_poller v1 r1)) as E2.
  { refine (own_event (W := EventLoop K Empty_set Q) (callback alloc any_call no_functor n (demo_round (ptr 2, 2) w)) v v1 p c c0 _ _ _ _ _ _); try done.
    unfold callback. cbn [fixed put poller_part set_poller v set_handling_events]. rewrite F1. fold p. rewrite Z.eqb_refl. exact E. }
  exists (set_handling_events (set_poller v1 r1) false), log. split_and!; try done.
  - unfold handle_events. cbn [wait demo_round]. rewrite E1. cbn [mbind res_bind]. rewrite A1.
    change ([(EPOLLIN, p)].*2) with [p]. cbn [handle_active]. fold v. rewrite E2. done.
  - pose proof (rest_touch v1 r1) as Rt. destruct L as [R Q0 Ok0 Hr Hh].
    assert (rest_ok (set_poller v1 r1)) as R2 by (apply Rt; [apply rest_pending, rest_timers, R0|done]).
    split; [by destruct R2|apply F'| |simpl; rewrite P1; by unfold after_code; case_match|done].
    exact (follows_room _ _ F').
  - simpl. by rewrite P1.
Qed.

(** No functors are pending. *)
Lemma demo_functors n w : (1 <= n)%nat -> loop_inv w [] ->
  exists w', doPendingFunctors (user alloc any_call) no_functor n w = Ok w' /\ loop_inv w' [] /\ fixed w' = fixed w /\
    timerQueue_ w' = timerQueue_ w /\ quit_ (pending w') = quit_ (pending w) /\ looping_ (pending w') = looping_ (pending w).
Proof.
  intros Hn [R Q0 Ok0 Hr Hh]. unfold doPendingFunctors. destruct n as [|n]; [lia|].
  set (w0 := modify _ w).
  assert ((if pq_isValid (pendingQueue_ (get w0)) then drain (user alloc any_call) no_functor (S n) w0 else Ok w0) = Ok w0) as ->.
  { destruct Hr as [Hr|(Hv & _ & _)].
    - cbn [drain]. change (pendingQueue_ (get w0)) with (pendingQueue_ (pending w)).
      rewrite (pq_rep_valid _ _ _ Hr). by rewrite (pq_peek_nil _ Hr).
    - change (pendingQueue_ (get w0)) with (pendingQueue_ (pending w)). by rewrite Hv. }
  cbn [mbind res_bind]. rewrite (no_functors (pendingFunctors_ (get w0))). cbn [call_all mbind res_bind].
  eexists. split; [done|]. split_and!; try done. split; try done. by repeat apply rest_pending.
Qed.

Lemma quits_iff l : quits l = true <-> LQuit ∈ l.
Proof.
  unfold quits. rewrite existsb_exists. split.
  - intros (a & Ha & E). destruct a; try done. by apply list_elem_of_In.
  - intros Hl. exists LQuit. by rewrite <- list_elem_of_In.
Qed.

(** The last of the four calls of [main] comes due. *)
Definition quit_time : Z := at_ 4 + 10000000000.

Lemma quit_due t c : t < quit_time -> due at_ t c 4 = (quit_time <=? c).
Proof. intros Ht. unfold due, deadline. cbn. unfold quit_time in *. by rewrite (proj2 (Z.ltb_lt _ _) Ht). Qed.

Lemma demo_quits t w : follows at_ ptr t (timerQueue_ w) ->
  quits (concat (demo_plan (ptr 2, 2) (timerQueue_ w))) = due at_ t (clock (timerQueue_ w)) 4.
Proof.
  intros F. destruct (getExpired_spec (timerQueue_ w) (clock (timerQueue_ w)) (q_inv _ (fo_quiet _ _ _ _ F)))
    as (es & l & act & Ex & _).
  pose proof (plan_quits at_ ptr t _ F es _ Ex (ptr 2, 2)) as Hq. rewrite <- quits_iff in Hq.
  destruct (quits _), (due _ _ _ _); naive_solver.
Qed.

Definition total (delays : list Z) : Z := foldr Z.add 0 delays.

Lemma total_nonneg delays : Forall (fun d => 0 <= d) delays -> 0 <= total delays.
Proof. induction 1; simpl; lia. Qed.

Lemma demo_rounds n t w delays :
  (1 <= n)%nat -> loop_inv w [] -> follows at_ ptr t (timerQueue_ w) -> quit_ (pending w) = false ->
  clock (timerQueue_ w) < quit_time -> Forall (fun d => 0 <= d) delays -> clock (timerQueue_ w) + total delays < 2 ^ 61 ->
  exists w' logs, loop_rounds (user alloc any_call) no_functor (demo_handle alloc (ptr 2, 2)) n w delays = Ok w' /\
    loop_inv w' [] /\ fixed w' = fixed w /\
    (fired (timerQueue_ w')).*1.*2 = (fired (timerQueue_ w)).*1.*2 ++ concat logs /\
    Forall2 (≡ₚ) logs (demo_log at_ t (clock (timerQueue_ w)) delays) /\
    quit_ (pending w') = (quit_time <=? clock (timerQueue_ w) + total delays) /\
    looping_ (pending w') = looping_ (pending w) && negb (quit_ (pending w')).
Proof.
  intros Hn. revert t w. induction delays as [|d delays IH]; intros t w L F Hq Hc Hd Hlt.
  { exists w, []. cbn [loop_rounds total foldr]. change (get w) with (pending w). rewrite Hq.
    split_and!; try done; [by rewrite app_nil_r|symmetry; apply Z.leb_gt; lia|by rewrite andb_true_r]. }
  apply Forall_cons in Hd as [Hd0 Hd]. simpl in Hlt. pose proof (total_nonneg _ Hd) as Ht0.
  cbn [loop_rounds]. change (get w) with (pending w). rewrite Hq.
  destruct (loop_sleep t w d L F Hd0 ltac:(lia)) as (L0 & F0 & P0 & X0 & I0). set (w0 := sleep w d) in *.
  assert (clock (timerQueue_ w0) = clock (timerQueue_ w) + d) as C0 by done.
  destruct (demo_handle_spec n t w0 L0 F0) as (w1 & log & E1 & L1 & F1 & C1 & X1 & P1 & Ef & Hlog).
  change (demo_handle alloc (ptr 2, 2) n w d) with (handle_events alloc any_call no_functor n w0 (demo_round (ptr 2, 2) w0)). rewrite E1. cbn [mbind res_bind]. destruct (demo_functors n w1 Hn L1) as (w2 & E2 & L2 & X2 & T2 & Q2 & Lo2).
  rewrite E2. cbn [mbind res_bind]. rewrite <- T2 in F1, C1, Ef. rewrite C0 in F1, C1. rewrite C0, I0 in *.
  pose proof (fo_time _ _ _ _ F) as Ht. pose proof (demo_quits t w0 F0) as Hquit. rewrite C0, quit_due in Hquit by lia.
  rewrite P1, P0 in Q2, Lo2. unfold after_code in Q2, Lo2. rewrite Hquit in Q2, Lo2.
  cbn [total foldr demo_log]. fold (total delays). rewrite quit_due by lia.
  destruct (Z.leb_spec quit_time (clock (timerQueue_ w) + d)) as [Hle|Hgt]; simpl in Q2, Lo2.
  - exists (modify (fun s : Loop Empty_set Q => set_looping s false) w2), [log].
    rewrite loop_rounds_quit by done. cbn [concat]. rewrite app_nil_r.
    split_and!; [done|by apply loop_inv_looping|by rewrite X0 in X1; rewrite <- X1|by simpl; rewrite Ef| |simpl; rewrite Q2; symmetry; apply Z.leb_le; lia|].
    + by repeat constructor.
    + simpl. rewrite Q2. by rewrite andb_false_r.
  - rewrite Hq in Q2.
    destruct (IH (clock (timerQueue_ w) + d) w2) as (w3 & logs & E3 & L3 & X3 & Ef3 & Hlogs & Hq3 & Hl3); try done.
    all: rewrite ?C1; try done; try lia.
    exists w3, (log :: logs). rewrite C1 in *. split_and!; try done; try congruence.
    + rewrite Ef3, Ef. cbn [concat]. by rewrite app_assoc.
    + by constructor.
    + rewrite Hq3. f_equal. lia.
Qed.
End rounds.

(** ** What the schedule says of each callback *)
Section callbacks.
Context (now : Z) (gaps : Z * Z * Z * Z) (Hgaps : gaps_ok gaps).
Implicit Types (t c i : Z) (delays : list Z).

(** When a callback that runs once is due. *)
Definition once_time i : Z :=
  call_time now gaps i + (if i =? 1 then 2500000000 else if i =? 3 then 5500000000 else 10000000000).

Lemma once_due t c i : i ∈ [1; 3; 4] -> due (call_time now gaps) t c i = (t <? once_time i) && (once_time i <=? c).
Proof.
  unfold due, deadline, once_time. rewrite !elem_of_cons. intros [->|[->|[->|?%not_elem_of_nil]]]; [..|done]; cbn; by destruct (t <? _).
Qed.

Lemma once_before_quit i : i ∈ [1; 3; 4] -> once_time i <= once_time 4.
Proof.
  unfold once_time. destruct gaps as [[[d1 d2] d3] d4]. destruct Hgaps as (H1 & H2 & H3 & H4). rewrite !elem_of_cons.
  intros [->|[->|[->|?%not_elem_of_nil]]]; [..|done]; simpl; lia.
Qed.

Definition count (i : Z) (l : list Z) : nat := count_occ Z.eq_dec l i.

Lemma count_app i l1 l2 : count i (l1 ++ l2) = (count i l1 + count i l2)%nat.
Proof. apply count_occ_app. Qed.

Lemma once_later i : i ∈ [1; 3; 4] -> now < once_time i /\ now <= call_time now gaps 4.
Proof.
  unfold once_time. destruct gaps as [[[d1 d2] d3] d4]. destruct Hgaps as (H1 & H2 & H3 & H4). rewrite !elem_of_cons.
  intros [->|[->|[->|?%not_elem_of_nil]]]; [..|done]; simpl; lia.
Qed.

Lemma count_due t c i : i ∈ [1; 3; 4] ->
  count i (List.filter (due (call_time now gaps) t c) [1; 2; 3; 4]) = if due (call_time now gaps) t c i then 1%nat else 0%nat.
Proof.
  rewrite !elem_of_cons. intros [->|[->|[->|?%not_elem_of_nil]]]; [..|done]; cbn [List.filter]; repeat case_match; reflexivity.
Qed.

Lemma count_never t c i delays : i ∈ [1; 3; 4] -> once_time i <= t -> Forall (fun d => 0 <= d) delays -> t <= c ->
  count i (concat (demo_log (call_time now gaps) t c delays)) = 0%nat.
Proof.
  intros Hi. revert t c. induction delays as [|d delays IH]; intros t c Ht Hd Hc; [done|].
  apply Forall_cons in Hd as [Hd0 Hd]. cbn [demo_log concat]. rewrite count_app.
  rewrite (count_due t (c + d) i Hi), once_due by done. rewrite (proj2 (Z.ltb_ge _ _) Ht). cbn [andb].
  case_match; [done|]. apply IH; [lia|done|lia].
Qed.

Lemma count_log t c i delays : i ∈ [1; 3; 4] -> t < once_time i -> Forall (fun d => 0 <= d) delays -> t <= c -> delays <> [] ->
  count i (concat (demo_log (call_time now gaps) t c delays)) = if once_time i <=? c + total delays then 1%nat else 0%nat.
Proof.
  intros Hi. revert t c. induction delays as [|d delays IH]; intros t c Ht Hd Hc Hne; [done|].
  apply Forall_cons in Hd as [Hd0 Hd]. pose proof (total_nonneg _ Hd) as Htot. cbn [demo_log concat total foldr]. fold (total delays).
  rewrite count_app, (count_due t (c + d) i Hi), once_due by done.
  rewrite (proj2 (Z.ltb_lt _ _) Ht). cbn [andb].
  pose proof (once_due t (c + d) 4 ltac:(set_solver)) as Hq. pose proof (once_before_quit i Hi) as Hb.
  destruct (Z.leb_spec (once_time i) (c + d)) as [Hle|Hgt].
  - rewrite (proj2 (Z.leb_le _ _)) by lia. destruct (due _ t (c + d) 4); [done|].
    rewrite (count_never (c + d) (c + d) i delays) by done || lia. done.
  - rewrite (proj2 (Z.leb_gt (once_time 4) (c + d))) in Hq by lia. rewrite andb_false_r in Hq. rewrite Hq.
    destruct delays as [|d' delays]; [simpl; by rewrite (proj2 (Z.leb_gt _ _)) by lia|].
    rewrite IH by done || lia. by rewrite Z.add_assoc.
Qed.

(** Once cancelled the periodic callback is never due again. *)
Lemma cancelled_log t c delays : once_time 3 <= t -> t <= c -> Forall (fun d => 0 <= d) delays ->
  (2 ∉ concat (demo_log (call_time now gaps) t c delays)).
Proof.
  revert t c. induction delays as [|d delays IH]; intros t c Ht Hc Hd; [apply not_elem_of_nil|].
  apply Forall_cons in Hd as [Hd0 Hd]. cbn [demo_log concat]. rewrite elem_of_app. intros [Hin|Hin].
  - rewrite list_elem_of_In, filter_In in Hin. destruct Hin as [_ Hin].
    unfold due, deadline, once_time in *. simpl in *. by rewrite (proj2 (Z.ltb_ge _ _)) in Hin by lia.
  - case_match; [by apply not_elem_of_nil in Hin|]. revert Hin. apply IH; [lia|lia|done].
Qed.

Lemma cancel_log t c delays a S b : t <= c -> Forall (fun d => 0 <= d) delays ->
  demo_log (call_time now gaps) t c delays = a ++ S :: b -> 3 ∈ S -> (2 ∉ concat b).
Proof.
  revert t c a. induction delays as [|d delays IH]; intros t c a Hc Hd E HS; [by destruct a|].
  apply Forall_cons in Hd as [Hd0 Hd]. cbn [demo_log] in E.
  remember (List.filter _ _) as ran eqn:Er in E. destruct a as [|x a]; cbn [app] in E; injection E as E1 E.
  - rewrite <- E1, Er, list_elem_of_In, filter_In in HS. destruct HS as [_ HS]. rewrite once_due in HS by set_solver.
    apply andb_true_iff in HS as [_ HS%Z.leb_le]. case_match; [subst b; apply not_elem_of_nil|]. subst b.
    apply cancelled_log; [lia|lia|done].
  - case_match; [by destruct a|]. apply (IH (c + d) (c + d) a); done || lia.
Qed.
End callbacks.

(** ** The property *)

(** A list of permutations of the logs has what they have. *)
Lemma perm_concat (logs logs' : list (list Z)) : Forall2 (≡ₚ) logs logs' -> concat logs ≡ₚ concat logs'.
Proof. induction 1 as [|x y l l' E _ IH]; cbn [concat]; [done|]. by rewrite E, IH. Qed.

Lemma count_perm i (l l' : list Z) : l ≡ₚ l' -> count i l = count i l'.
Proof.
  induction 1 as [|x l l' _ IH|x y l|l1 l2 l3 _ IH1 _ IH2]; unfold count in *; cbn [count_occ]; [done|..|congruence].
  - by rewrite IH.
  - by repeat case_match.
Qed.

(** C10: the timer demo, from its first line to its last, whatever the time
    between its steps and whenever the timer descriptor is reported: nothing
    fails; each wake-up runs the callbacks whose deadlines passed since the one
    before, so the callback of each of the three timers that run once runs once
    in the first wake-up at or after its deadline, and after the wake-up with
    the cancellation the periodic callback runs no more; [loop] returns in the
    first wake-up ten seconds after the last call or later, and not before; and
    the destructor frees every timer left. *)
Theorem demo_timer_correct {K Q} `{KernelLaws K} `{PendingQueue Empty_set Q} alloc
    (k : K) now (ring : Q) ep tm ev pt pw gaps delays n :
  interest k = ∅ -> NoDup [ep; tm; ev] -> (forall fd, fd ∈ [ep; tm; ev] -> fd ∉ kfds k) -> pt <> pw ->
  clock_ok now -> alloc_ok alloc -> lrep (EventLoop_new ring : Loop Empty_set Q) None [] ->
  gaps_ok gaps -> Forall (fun d => 0 <= d) delays -> call_time now gaps 4 + total delays < 2 ^ 61 -> (1 <= n)%nat ->
  let now' := call_time now gaps 4 + total delays in
  exists l w logs, EventLoop_construct (F := Empty_set) false now ring k (inl ep) (inl tm) (inl ev) pt pw = Ok (l, true) /\
    demo_main alloc n l gaps delays = Ok w /\
    (fired (timerQueue_ w)).*1.*2 = concat logs /\
    Forall2 (≡ₚ) logs (demo_log (call_time now gaps) now (call_time now gaps 4) delays) /\
    (forall i, i ∈ [1; 3; 4] -> delays <> [] -> count i (concat logs) = if once_time now gaps i <=? now' then 1%nat else 0%nat) /\
    (forall a log b, logs = a ++ log :: b -> 3 ∈ log -> (2 ∉ concat b)) /\
    looping_ (pending w) = (now' <? once_time now gaps 4) /\
    exists g, EventLoop_delete w = Ok g /\ timers_left g = ∅ /\ t_loop g = false.
Proof.
  intros Hint Hnd Hfresh Hne Hnow Halloc Hring Hg Hd Hlt Hn now'.
  destruct (construct_spec (F := Empty_set) k now ring ep tm ev pt pw Hint Hnd Hfresh Hne) as (l & E & Hl).
  assert (loop_inv l []) as L by by eapply fresh_loop_inv.
  destruct Hl as (_ & _ & _ & _ & _ & El).
  destruct (demo_setup_spec alloc Halloc l now gaps) as (ptr & tq & Es & F & Ec & Ef);
    [by rewrite El|done|done|pose proof (total_nonneg _ Hd); unfold now' in *; lia|].
  set (w1 := modify (fun s : Loop Empty_set Q => set_looping s true) (set_timers l tq)).
  assert (loop_inv w1 []) as L1.
  { apply loop_inv_looping. destruct L as [R _ _ Hr Hh].
    split; [by apply rest_timers|apply F|by eapply follows_room|done|done]. }
  destruct (demo_rounds alloc Halloc (call_time now gaps) ptr n now w1 delays Hn L1 F)
    as (w & logs & Er & [R Q0 _ _ _] & Fx & Elog & Hlogs & Hq & Hlo).
  { change (quit_ (pending l) = false). by rewrite El. }
  { change (clock tq < quit_time (call_time now gaps)). unfold quit_time. lia. }
  { done. }
  { change (clock tq + total delays < 2 ^ 61). lia. }
  change (timerQueue_ w1) with tq in *. rewrite Ec, ?Ef in *.
  assert (forall i, i ∈ [1; 3; 4] -> now < once_time now gaps i /\ now <= call_time now gaps 4) as Hlater by by apply once_later.
  exists l, w, logs. split_and!; [done| |done|done|..].
  - unfold demo_main. rewrite Es. exact Er.
  - intros i Hi Hdel. rewrite (count_perm i _ _ (perm_concat _ _ Hlogs)). destruct (Hlater i Hi). by apply count_log.
  - intros a log b -> Hin. apply Forall2_app_inv_l in Hlogs as (a' & b' & _ & Hb & Elog').
    inversion Hb as [|? log' ? b'' Hp Hbs]; subst b'.
    intros H2b. apply (cancel_log now gaps Hg now (call_time now gaps 4) delays a' log' b''); try done.
    + by apply (Hlater 4); set_solver.
    + by rewrite <- Hp.
    + by rewrite <- (perm_concat _ _ Hbs).
  - rewrite Hlo, Hq. cbn. unfold quit_time, once_time. cbn. fold now'. by rewrite Z.ltb_antisym.
  - destruct R as [[I _] Ot Ow _ _ Hne']. destruct (EventLoop_delete_spec w I Ot Ow Hne' Q0) as (g & Eg & _ & Tg & Lg & _).
    by exists g.
Qed.

(** ** At a concrete loop, on time *)
Import SimKernel.

Section ex.
#[local] Instance ex_ops : PendingOps Empty_set (MpscQueue Empty_set) := mpsc_ops 16.
#[local] Instance ex_pending : PendingQueue Empty_set (MpscQueue Empty_set) := mpsc_pending 16 ltac:(lia).

Definition ex_gaps : Z * Z * Z * Z := (1000, 1000, 1000, 1000).
Definition ex_delays : list Z := Z.mul 100000000 <$> [11; 10; 5; 5; 10; 10; 5; 45; 10].
Definition ex_ring : MpscQueue Empty_set := MpscQueue_new EventLoop.ex_env 16.

(** The model run on it, with the allocator of the examples. *)
Example ex_demo :
  ('(l, _) ← EventLoop_construct (F := Empty_set) false 1000 ex_ring ex_kernel (inl 3) (inl 4) (inl 5) 100 200;
   w ← demo_main alloc_first 1 l ex_gaps ex_delays;
   Ok ((fired (timerQueue_ w)).*1.*2, looping_ (pending w), heap (timerQueue_ w)))
  = Ok ([2; 2; 1; 2; 2; 2; 3; 4], false, ∅).
Proof. vm_compute. reflexivity. Qed.

Lemma demo_timer_correct_witness :
  let now' := call_time 1000 ex_gaps 4 + total ex_delays in
  exists l w logs, EventLoop_construct (F := Empty_set) false 1000 ex_ring ex_kernel (inl 3) (inl 4) (inl 5) 100 200 = Ok (l, true) /\
    demo_main alloc_first 1 l ex_gaps ex_delays = Ok w /\
    (fired (timerQueue_ w)).*1.*2 = concat logs /\
    Forall2 (≡ₚ) logs (demo_log (call_time 1000 ex_gaps) 1000 (call_time 1000 ex_gaps 4) ex_delays) /\
    (forall i, i ∈ [1; 3; 4] -> ex_delays <> [] -> count i (concat logs) = if once_time 1000 ex_gaps i <=? now' then 1%nat else 0%nat) /\
    (forall a log b, logs = a ++ log :: b -> 3 ∈ log -> (2 ∉ concat b)) /\
    looping_ (pending w) = (now' <? once_time 1000 ex_gaps 4) /\
    exists g, EventLoop_delete w = Ok g /\ timers_left g = ∅ /\ t_loop g = false.
Proof.
  apply (demo_timer_correct alloc_first ex_kernel 1000 ex_ring 3 4 5 100 200 ex_gaps ex_delays 1).
  - by_decide.
  - by_decide.
  - exact ex_fresh.
  - done.
  - by vm_compute.
  - exact alloc_first_ok.
  - exact (new_lrep 16 ltac:(lia) EventLoop.ex_env).
  - by vm_compute.
  - by_decide.
  - by vm_compute.
  - done.
Defined.
End ex.
