(* ===== verification/DemoServer.v ===== *)
(** * DemoServer: the server of the build test

    Models [test_build.cpp] as a client of TcpServer.v: [main] makes a server
    with a connection callback that only logs, starts it and runs the loop.
    What TcpServer.v proves of every server holds of it. *)

From Stdlib Require Import String.
From S2P Require Import Prelude Buffer Channel TcpConnection InetAddress TcpServer.

#[local] Open Scope string_scope.
#[local] Open Scope Z_scope.

Section test_build.
Context {B : Type} `{ByteQueueOps B}.

(** The connection callback calls nothing of the library, and there is no
    message or write-complete callback: no event makes user code run. *)
Definition only_logs (e : env) : Prop := e_conn e = [] /\ e_msg e = [] /\ e_done e = [].

(** [main] on its thread: the reserve descriptor, the listening socket and the
    results of [bind] and [listen] are the kernel's answers, [ses] is what the
    loop then reports. *)
Definition test_server (idle : sys_fd) : Server B := TcpServer_new "TestServer" (true, false, false) idle.
Definition test_build_main (idle sock : sys_fd) (bound lstn : Z) (ses : list sevent) : res (Server B) :=
  run_sevents (test_server idle) (SvStart true sock bound lstn :: ses).
End test_build.

(** Its name is short enough for the connection names. *)
Example test_server_name : name_ok "TestServer".
Proof. vm_compute. lia. Qed.

(** A client connects, sends three bytes and closes: the server takes them into
    the input buffer, writes nothing, and closes its end. *)
Definition ex_env : env := mkEnv [] 0 [] [] [].
Definition ex_readv (data : list byte) (iov : list Z) : Z + list byte := inr data.
Definition ex_clients : list sevent :=
  [SvAccept [mkAnswer (inl 5) 1 ex_env; mkAnswer (inr EAGAIN) 0 ex_env] (inl 3) (inl 3);
   SvConn 1 (EvPoll EPOLLIN (ex_readv [x68; x69; x0a])) ex_env].
Definition ex_leaves : list sevent :=
  [SvConn 1 (EvPoll EPOLLIN (ex_readv [])) ex_env; SvConn 1 (EvFunctor 0) ex_env].

Example test_server_reads :
  (sv ← test_build_main (B := Buffer) (inl 3) (inl 4) 0 0 ex_clients;
   Ok (sv_state sv, fds sv, (fun x => (fst x.2, received (snd x.2), written (snd x.2))) <$> map_to_list (conns sv)))
  = Ok (kListening, {[3; 4; 5]}, [("TestServer-TestServer#1", [x68; x69; x0a], [])]).
Proof. vm_compute. reflexivity. Qed.

Example test_server_closes :
  (sv ← test_build_main (B := Buffer) (inl 3) (inl 4) 0 0 (ex_clients ++ ex_leaves);
   Ok (sv_state sv, fds sv, map_to_list (conns sv)))
  = Ok (kListening, {[3; 4]}, []).
Proof. vm_compute. reflexivity. Qed.
